(* ===== verification/_CoqProject ===== *)
-Q . S2P
Prelude.v
F64.v
AtomicCell.v
Types.v
VirtualOwner.v
VirtualRecovery.v
PrivateExecution.v
TakerExecution.v
Channel.v
Shutdown.v
ProtocolLane.v
OrderLedger.v
BTree.v
AccountAdmission.v
CancelPath.v
Reactor.v
OrderManager.v
Orderbook.v
SimClock.v
SimReplay.v
SimTiming.v
SimBook.v
TryQueue.v
PollChannel.v
ReplySlots.v
Words.v
Goldilocks.v
Quintic.v
Gfp5.v
Poseidon2.v
EcScalar.v
EcGroup.v
EcGFp5.v
EcWeierstrass.v
CurveOrder.v
Schnorr.v
Position.v
PositionLedger.v
PositionHistory.v
PositionIndex.v
LatestSnapshot.v
GcIndex.v
Routes.v
RouteRetirement.v
SnapshotLease.v
