(* ===== verification/Prelude.v ===== *)
(** * hexagent-sdk: a verification library for the trading-system SDK

    ** The program

    The SDK (src/crates) connects strategies to venues.  [hexagent-types] is the
    shared vocabulary; [hexagent-runtime] the lock-free queues, the HTTP pool and
    process services; [hexagent-account] the local view of orders, positions and
    books of one account, and the account shared by several instances;
    [hexagent-exchange] the venue adapters, the recorder and the backtest simulator
    sim_v2; [hexagent-engine] the loop that routes market data to strategies and
    their signals to venues, behind an admission control per account.  A placement
    travels: strategy, [OrderManager] (which tracks it and builds the [Signal]),
    engine, admission (may a request be sent on a lane now), queue to the lane's
    thread, venue, which on Lighter wants a signature; the venue's reports come back
    as [OrderUpdate]s to the [OrderManager] and to the [PositionManager].  In a
    backtest the venue is sim_v2: a [Scheduler] of events, the recorded books, the
    timing of requests.

    ** The files

    - [Prelude]: machine integers, tactics, hint database, generic lemmas.
    - [F64]: binary64 floats, executable and axiom free, with a decision tactic
      for their order.
    - [BTree]: iteration order of [BTreeMap] and [BTreeSet].
    - [Types]: hexagent-types/src/types (market, instrument, order, event).

    The engine:
    - [AccountAdmission]: hexagent-engine/src/execution_admission.rs, the whole
      of [AccountExecutionAdmission].  State: one record per lane (sequence,
      generation, counters, deadlines) and the account record with its cached
      decision; operations: [observe], [refresh], [lane_place_allowed],
      [place_dispatched], [mark_delivery_fault], [note_failure], [retire_*],
      [cancel_lane_rank], [capacity_detail].
    - [VirtualOwner]: virtual_owner.rs, the lanes, callbacks and watchdogs by which a
      backtest plays the threads of the live engine, and their timing histograms;
      [VirtualRecovery]: virtual_recovery.rs, the replay of process outages.
    - [CancelPath]: the cancel path of engine.rs ([send_poly_owner_lossless],
      [try_send_poly_owner], [flush_poly_cancel_outbox], the connection lanes) and the
      owners and control workers of cancel_reactor.rs, interleaved access by access.

    The account (hexagent-account/src/account):
    - [OrderManager]: order_manager.rs, the ledger of local orders with its two
      indices, and every operation of it, including the reconcile actions.
    - [Orderbook]: orderbook.rs, [OrderbookManager].
    - [Position]: position.rs, [PositionManager]: the ledger of trades, the
      reservations, the incremental index, restores and snapshots.
      [PositionLedger], [PositionHistory] and [PositionIndex] hold its theorems:
      the order of reports, histories and restarts, and the index.
    - [GcIndex]: shared_account_gc_index.rs, rows indexed by token and order with
      the cursors of the garbage collector.
    - [Routes]: route_snapshot.rs and the [ShardedRouteMap] of shared_account.rs,
      the copy-on-write ownership routes; [RouteRetirement]: route_retirement.rs,
      the credits by which replaced snapshots are destroyed off the hot path.
    - [SnapshotLease]: snapshot_lease.rs, who polls the exchange.
    - [AtomicCell]: [AtomicF64] of shared_account.rs, the lock-free counters of cash and
      positions, access by access; [OrderLedger]: the order ownership of
      shared_account.rs on the lifecycle owner's thread: prepare, reserve, register,
      restore, rebind, release, infer a cancellation, availability, and the reservation
      of a split or merge.

    Polymarket and the recorder (hexagent-exchange):
    - [PrivateExecution]: the table of private executions with its acknowledgements, and
      the dedupe window of routed messages; [TakerExecution]: the executions of a taker
      order read from JSON values.
    - [ProtocolLane]: the evidence lane of the recorder, from sessions to archive and
      manifest.

    The simulator (hexagent-exchange/src/exchange/sim_v2):
    - [SimClock], [SimReplay], [SimTiming], [SimBook]: the event scheduler
      (clock.rs), the recorded admission gate and market rules (admission.rs,
      market_rules.rs), cancel timing and its audit (timing.rs), and the books
      (book.rs).

    Lighter signatures (hexagent-exchange/src/exchange/lighter/crypto), each layer
    on the one before it:
    - [Words]: the standard library's words and byte encodings; [Goldilocks]
      (goldilocks.rs) the prime field in Montgomery form; [Gfp5] (gfp5.rs) its quintic
      extension, against the field [Quintic] of the specification; [Poseidon2]
      (poseidon2.rs) the permutation and the sponge; [EcScalar] and [EcGFp5]
      (ecgfp5.rs) scalars and points, against the group of [EcGroup];
      [EcWeierstrass] the second form of the points; [CurveOrder] the order of the
      base point; [Schnorr] (schnorr.rs) signing and verification.

    The runtime (hexagent-runtime/src):
    - [TryQueue]: try_queue.rs, the bounded lock-free queue, and [LatestSnapshot]:
      latest_snapshot.rs, the replaceable snapshot lane, both as step relations over
      interleaved atomic accesses; [PollChannel]: poll_channel.rs and wake.rs, many
      senders and a receiver that sleeps, a machine built on the steps of [TryQueue].
    - [Channel]: the interface of a bounded channel, a class with its laws and a queue as
      instance; [Shutdown]: shutdown.rs, the phases of a coordinated shutdown;
      [ReplySlots]: reply_slots.rs, reusable reply slots; [Reactor]: bounded_reactor.rs,
      the round-robin cursor, with the sleep of the cancel reactor.

    A struct is a record and an enum an inductive type with the source's names
    (a field whose name clashes carries a prefix); a method that mutates [self]
    returns the new state beside its result; a panic is [None], an error a value
    of a sum type, a [Result] a boolean where the source returns one.  An integer
    is a [Z] whose saturating, wrapping or checked arithmetic is written out.  A
    [HashMap] is a [gmap]; where its iteration order is observable the order is a
    parameter of the section.  Clocks, random values and identifier sources are
    arguments.

    ** What the theorems show

    - Signatures: a signature made with any scalars in range verifies, and is read
      back from its bytes; verification accepts exactly the pairs whose
      challenge matches.  Below that: words compute the field and its extension
      exactly, square roots included; the permutation computes the algebraic one and
      is injective; point addition is total and the points form a commutative
      group; the windowed multiplication and the Weierstrass forms compute the
      multiples; scalars compute modulo the order of the base point.
    - Admission: the cached fast path of [refresh] is exact on every reachable
      state and for every clock reading; a placement is admitted only on a fresh,
      idle, usable lane outside a pause; the published state follows exactly from
      the lanes; recovery ends only by answered probes; lane evidence is
      monotone; a delivery fault sticks; one noisy lane never pauses the account;
      one cancel trial at a time; the diagnostics explain the decision.
    - Orders: indices and ledger agree after every history; a DELETE is sent only
      for an acknowledged order; cancelling a side is complete, ordered and
      idempotent, and an overflowing output loses nothing; covering fills retire
      an order; a cancellation sticks; dropped signals are recovered; reconcile
      places exactly what it decided, under fresh identifiers.
    - Positions: the ledger a set of reports leaves does not depend on their order
      or repetition; every history can be restarted from its own snapshot; the
      sums of the index are fed exactly what the ledger holds.
    - Shared account: indexes list exactly the rows and a round of scans visits
      each key once; the sharded routes are a map, claims have one winner, a batch
      touches only what its owner holds; retired snapshots are bounded, destroyed
      once and never under a reader; the lease has one holder.  The counters behave as
      if their operations ran one at a time.  Every order is found by both of its ids in
      the one instance that holds it, a reservation is all or nothing, retries reserve
      nothing, and cash set aside for a split is handed to an order all the same.
    - Cancels: each cancel taken on is in one place until it has ended or was refused; one
      is merged only into a cancel of the same order that is not answered yet; a
      connection holds one command and is freed; the cursor polls everyone in turn.
    - Private executions and evidence: rows stay until they are settled and their slots
      are exact; taker executions are normalised as the plain reading says; a manifest
      says complete exactly when nothing was lost, and kept evidence stays.
    - Shutdown and replies: nobody waits for a phase that has passed, and a receiver gets
      the reply of its own request, never of an earlier use of its slot.
    - Market data: no stale or crossed top of book; nudges hold.
    - Queue, lane and channel: every interleaving refines a bounded FIFO, or a
      register; values read are complete; operations are bounded; alone, the queue is
      a list; a sleeping receiver is always about to be woken when it has something to
      see, values arrive in the order of their reservations, and the end comes last.
    - Virtual owners: private messages are delivered in order, each once, through
      suspensions; callbacks never overlap nor see their future; the steps of an
      instant end; quantiles are tight upper bounds; after an outage an owner quotes
      only when it has recovered, and the edges of an outage follow its windows.
    - Simulator: the scheduler is a stable priority queue; interval lookups are
      exact; round trips are conserved to the nanosecond; cached ladders are
      fresh and sorted; the consumption ledger matches the snapshot.
    - Data: order slots and prepared tokens decode what was encoded; best levels
      are extremal; batches lose nothing.

    ** Bounds and fuel

    [SimClock.drain] and [TryQueue.drain] have as fuel the number of pending items,
    shown enough, and [TryQueue.alone] five accesses, which finish any operation;
    [VirtualOwner.drain] has the work of the instant, [total_load], shown enough.
    In the signature code the loops over bits, limbs and rounds are folds over fixed
    ranges; [Gfp5.tonelli_loop] has 64 turns, more than the 2-adic order 32 of
    p - 1 needs, and finds a root whenever there is one; [Poseidon2.squeeze] has one turn
    for each block of the rate and one more, which is shown enough for any positive
    number of outputs.
    Hypotheses about size are 64-bit ones: fewer than 2^64 pushes to a scheduler;
    fewer positions in a queue's history than its cursor can tell apart; clock values
    below 2^64.

    ** What is not modelled

    Sockets, TLS, JSON, CSV and TOML text, files, threads and the memory model
    (all interleavings are of sequentially consistent accesses), logging, serialisation,
    telemetry counters and latency records.
    Of the state machines: the fills, audits, settlement, persistence and recovery of the
    shared account, tens of thousands of lines whose state is one JSON document; the
    end of a maintenance operation; the sim_v2 exchange proper; and the engine loop, which
    composes them. *)

From Stdlib Require Export ZArith Lia Bool.
From stdpp Require Export base tactics option list gmap strings sorting pretty.
From coqutil Require Export Datatypes.RecordSettersUsingExistingGetters.

#[export] Set Warnings "-clear-no-such-hyp".

(** ** Machine integers

    A [u64], [u32], [u16] or [usize] of the source is a [Z].  The three kinds of
    arithmetic of the code are written out: [saturating_*] clamps at the bounds
    of the width, [wrapping_*] reduces modulo the width, and [checked_*] is
    [None] on overflow. *)

Declare Scope word_scope.
Delimit Scope word_scope with word.
Open Scope Z_scope.

Definition u8_max : Z := 255.
Definition u16_max : Z := 65535.
Definition u32_max : Z := 4294967295.
Definition u64_max : Z := 18446744073709551615.

Definition is_u64 (x : Z) : Prop := 0 <= x <= u64_max.

Definition saturating_add (a b : Z) : Z := Z.min u64_max (a + b).
Definition saturating_sub (a b : Z) : Z := Z.max 0 (a - b).
Definition saturating_mul (a b : Z) : Z := Z.min u64_max (a * b).
Definition wrapping_add (a b : Z) : Z := (a + b) mod 2 ^ 64.
Definition checked_add (a b : Z) : option Z :=
  if a + b <=? u64_max then Some (a + b) else None.

Notation "a +s b" := (saturating_add a b) (at level 50, left associativity) : word_scope.
Notation "a -s b" := (saturating_sub a b) (at level 50, left associativity) : word_scope.
Notation "a *s b" := (saturating_mul a b) (at level 40, left associativity) : word_scope.
Notation "a +w b" := (wrapping_add a b) (at level 50, left associativity) : word_scope.
Open Scope word_scope.

(** ** Record updates

    [r <| f := v |>] is the record [r] with field [f] replaced; a projection of
    an update reduces to the new value. *)

#[global] Arguments const {E} newValue _ /.

(** ** Tactics *)

(** Unfold the word operations, the goal being linear arithmetic afterwards. *)
Ltac word :=
  unfold saturating_add, saturating_sub, is_u64, u64_max, u32_max, u16_max in *; lia.

(** Turn the boolean tests of the code found in the hypotheses into the
    propositions they decide. *)
Ltac bool_hyps :=
  repeat match goal with
  | H : _ && _ = true |- _ => apply andb_prop in H; destruct H
  | H : _ || _ = false |- _ => apply orb_false_elim in H; destruct H
  | H : negb _ = true |- _ => apply negb_true_iff in H
  | H : negb _ = false |- _ => apply negb_false_iff in H
  | H : (_ <=? _) = true |- _ => apply Z.leb_le in H
  | H : (_ <=? _) = false |- _ => apply Z.leb_gt in H
  | H : (_ <? _) = true |- _ => apply Z.ltb_lt in H
  | H : (_ <? _) = false |- _ => apply Z.ltb_ge in H
  | H : (_ =? _) = true |- _ => apply Z.eqb_eq in H
  | H : (_ =? _) = false |- _ => apply Z.eqb_neq in H
  | H : bool_decide _ = true |- _ => apply bool_decide_eq_true in H
  | H : bool_decide _ = false |- _ => apply bool_decide_eq_false in H
  | H : Is_true ?b |- _ => apply Is_true_true in H
  end.

(** Close a boolean goal by the tests known from the hypotheses. *)
Ltac bool_solve :=
  bool_hyps;
  repeat match goal with
  | H : ?b = true |- context [?b] => rewrite H
  | H : ?b = false |- context [?b] => rewrite H
  end; try done.

(** Case analysis on every [if] and [match] of the goal. *)
Ltac split_cases := repeat (case_match; simplify_eq/=).

Create HintDb hex.
#[export] Hint Constants Opaque : hex.

(** ** Strings *)

(** [s.trim().is_empty()]: [s] is a UTF-8 sequence of White_Space characters. *)
Definition byte_at (c : Ascii.ascii) : Z := Z.of_N (Ascii.N_of_ascii c).

Definition white1 (a : Z) : bool := (a =? 32) || ((9 <=? a) && (a <=? 13)).
Definition white2 (a b : Z) : bool := (a =? 194) && ((b =? 133) || (b =? 160)).
Definition white3 (a b c : Z) : bool :=
  ((a =? 225) && (b =? 154) && (c =? 128))
  || ((a =? 226) && (b =? 128)
      && (((128 <=? c) && (c <=? 138)) || (c =? 168) || (c =? 169) || (c =? 175)))
  || ((a =? 226) && (b =? 129) && (c =? 159))
  || ((a =? 227) && (b =? 128) && (c =? 128)).

Fixpoint blank (s : string) : bool :=
  match s with
  | EmptyString => true
  | String a s1 =>
      if white1 (byte_at a) then blank s1
      else match s1 with
           | EmptyString => false
           | String b s2 =>
               if white2 (byte_at a) (byte_at b) then blank s2
               else match s2 with
                    | EmptyString => false
                    | String c s3 =>
                        if white3 (byte_at a) (byte_at b) (byte_at c) then blank s3 else false
                    end
           end
  end.

(** ** Generic lemmas *)

Section lists.
Context {A : Type}.

(** [iter().filter(p).count()] *)
Definition count (p : A → bool) (l : list A) : nat := length (List.filter p l).

Lemma count_ext_in (p q : A → bool) (l : list A) :
  (∀ x, x ∈ l → p x = q x) → count p l = count q l.
Proof.
  unfold count. induction l as [|x l IH]; [done|]. intros H. simpl.
  rewrite (H x) by left.
  assert (length (List.filter p l) = length (List.filter q l))
    by (apply IH; intros; apply H; by right).
  destruct (q x); simpl; congruence.
Qed.

Lemma count_le (p q : A → bool) (l : list A) :
  (∀ x, x ∈ l → p x = true → q x = true) → (count p l <= count q l)%nat.
Proof.
  unfold count. induction l as [|x l IH]; [done|]. intros H. simpl.
  assert (length (List.filter p l) <= length (List.filter q l))%nat
    by (apply IH; intros; apply H; [by right|done]).
  destruct (p x) eqn:Hp; [rewrite (H x) by (done || left)|destruct (q x)]; simpl; lia.
Qed.

Lemma count_length (p : A → bool) (l : list A) : (count p l <= length l)%nat.
Proof. unfold count. induction l; simpl; [done|]. destruct (p _); simpl; lia. Qed.

Lemma count_pos (p : A → bool) (l : list A) :
  (0 < count p l)%nat ↔ ∃ x, x ∈ l ∧ p x = true.
Proof.
  unfold count. split.
  - destruct (List.filter p l) as [|x k] eqn:E; simpl; [lia|]. intros _.
    exists x. assert (In x (List.filter p l)) as [? ?]%filter_In by (rewrite E; by left).
    by rewrite list_elem_of_In.
  - intros (x & Hin & Hp). rewrite list_elem_of_In in Hin.
    assert (In x (List.filter p l)) as H by (apply filter_In; done).
    destruct (List.filter p l); [destruct H|simpl; lia].
Qed.

Lemma count_all (p : A → bool) (l : list A) :
  count p l = length l ↔ ∀ x, x ∈ l → p x = true.
Proof.
  unfold count. induction l as [|y l IH]; simpl.
  - split; [intros _ x Hx; by apply not_elem_of_nil in Hx|done].
  - pose proof (count_length p l) as Hle. unfold count in Hle.
    destruct (p y) eqn:Hp; simpl; split.
    + intros [= Hl] x [->|Hx]%elem_of_cons; [done|]. by apply IH.
    + intros H. f_equal. apply IH. intros x Hx. apply H. by right.
    + intros Hl. lia.
    + intros H. rewrite (H y) in Hp by left. done.
Qed.

Lemma filter_none (p : A → bool) (l : list A) :
  (∀ x, p x = false) → List.filter p l = [].
Proof. intros H. induction l as [|x l IH]; simpl; [done|]. by rewrite H. Qed.

Lemma forallb_reverse (p : A → bool) (l : list A) : forallb p (reverse l) = forallb p l.
Proof.
  unfold reverse. rewrite <- rev_alt. induction l as [|x l IH]; simpl; [done|].
  rewrite forallb_app, IH. simpl. by rewrite andb_true_r, andb_comm.
Qed.
End lists.

(** A left fold that keeps one of its two arguments, the larger one for a
    preorder on the elements, returns a greatest element of the list. *)
Lemma fold_select {A} (P : A → Prop) (R : A → A → Prop) (sel : A → A → A) :
  (∀ a b, sel a b = a ∨ sel a b = b) →
  (∀ a b, P a → P b → R a (sel a b) ∧ R b (sel a b)) →
  (∀ a, P a → R a a) → (∀ a b c, R a b → R b c → R a c) →
  ∀ l x, P x → Forall P l →
  let m := fold_left sel l x in
  m ∈ x :: l ∧ ∀ y, y ∈ x :: l → R y m.
Proof.
  intros Hsel Hmax Hrefl Htrans l. induction l as [|b l IH]; intros x Hx Hl; simpl.
  - split; [left|]. intros y Hy. apply list_elem_of_singleton in Hy. subst. auto.
  - apply Forall_cons in Hl as [Hb Hl].
    destruct (IH (sel x b)) as [Hin Hge]; [by destruct (Hsel x b) as [-> | ->]|done|].
    destruct (Hmax x b Hx Hb) as [Hx' Hb'].
    assert (R (sel x b) (fold_left sel l (sel x b))) by (apply Hge; left).
    split.
    + apply elem_of_cons in Hin as [Heq|]; [|by do 2 right].
      rewrite Heq. destruct (Hsel x b) as [-> | ->]; [left|right; left].
    + intros y Hy. rewrite !elem_of_cons in Hy. destruct Hy as [->|[->|Hy]]; [eauto|eauto|].
      apply Hge. by right.
Qed.

Lemma StronglySorted_snoc {A} (R : A → A → Prop) l x :
  StronglySorted R l → Forall (λ y, R y x) l → StronglySorted R (l ++ [x]).
Proof.
  induction 1 as [|y l Hs IH Hall]; simpl; intros H; [repeat constructor|].
  apply Forall_cons in H as [Hy H]. constructor; [by apply IH|].
  apply Forall_app. by repeat constructor.
Qed.

Lemma StronglySorted_reverse {A} (R : A → A → Prop) l :
  StronglySorted R l → StronglySorted (flip R) (reverse l).
Proof.
  induction 1 as [|x l Hs IH Hall]; [constructor|]. rewrite reverse_cons.
  apply StronglySorted_snoc; [done|]. by apply Forall_reverse.
Qed.
