(* ===== verification/F64.v ===== *)
(** * IEEE 754 binary64

    The [f64] of the source, executable and without axioms: the values and the
    correctly rounded operations are the standard library's [SpecFloat] at
    precision 53 and maximal exponent 1024.  The comparison operators follow
    Rust's [PartialOrd] ([NaN] compares false with everything), [max] and [min]
    follow [f64::max] and [f64::min] ([NaN] loses against a number; on two equal
    operands, where Rust leaves the choice open, the first is returned).

    The second half is the order theory the components use: on values that are
    not [NaN] the comparison is the lexicographic order of an integer rank, and
    the tactic [float_order] decides goals about it. *)

From Stdlib Require Import Floats.SpecFloat.
From S2P Require Import Prelude.

Abbreviation f64 := spec_float.

Definition prec64 : Z := 53.
Definition emax64 : Z := 1024.

Definition f64_add : f64 → f64 → f64 := SFadd prec64 emax64.
Definition f64_sub : f64 → f64 → f64 := SFsub prec64 emax64.
Definition f64_mul : f64 → f64 → f64 := SFmul prec64 emax64.
Definition f64_div : f64 → f64 → f64 := SFdiv prec64 emax64.
Definition f64_neg : f64 → f64 := SFopp.
Definition f64_abs : f64 → f64 := SFabs.

Definition f64_lt (x y : f64) : bool := SFltb x y.
Definition f64_le (x y : f64) : bool := SFleb x y.
Definition f64_eq (x y : f64) : bool := SFeqb x y.
Definition f64_gt (x y : f64) : bool := f64_lt y x.
Definition f64_ge (x y : f64) : bool := f64_le y x.

Definition is_nan (x : f64) : bool :=
  match x with S754_nan => true | _ => false end.
Definition is_finite (x : f64) : bool :=
  match x with S754_zero _ | S754_finite _ _ _ => true | _ => false end.

Definition f64_max (x y : f64) : f64 :=
  if is_nan x then y else if is_nan y then x else if f64_lt x y then y else x.
Definition f64_min (x y : f64) : f64 :=
  if is_nan x then y else if is_nan y then x else if f64_lt y x then y else x.

(** An integer literal or an integer cast [n as f64]. *)
Definition f64_of_Z (n : Z) : f64 := binary_normalize prec64 emax64 n 0 false.

Definition f64_zero : f64 := S754_zero false.
Definition f64_one : f64 := f64_of_Z 1.
Definition f64_infinity : f64 := S754_infinity false.

(** The decimal literal [n / 10^k]: correctly rounded whenever [n] and [10^k]
    are integers below 2^53, as every literal of the source is. *)
Definition f64_dec (n : Z) (k : Z) : f64 := f64_div (f64_of_Z n) (f64_of_Z (10 ^ k)).

(** [iter().sum::<f64>()]: a left fold from [-0.0]. *)
Definition f64_sum (l : list f64) : f64 := fold_left f64_add l (S754_zero true).

(** The integer part of the magnitude [m * 2^e], towards zero. *)
Definition trunc_mag (m : positive) (e : Z) : Z :=
  if 0 <=? e then Z.pos m * 2 ^ e else Z.pos m / 2 ^ (- e).

(** The magnitude [m * 2^e] rounded to an integer, half away from zero. *)
Definition round_mag (m : positive) (e : Z) : Z :=
  if 0 <=? e then Z.pos m * 2 ^ e else (Z.pos m + 2 ^ (- e - 1)) / 2 ^ (- e).

Definition i64_max : Z := 9223372036854775807.
Definition i64_min : Z := -9223372036854775808.

(** A saturating cast of a float to [i64] through [mag]. *)
Definition f64_to_i64 (mag : positive → Z → Z) (x : f64) : Z :=
  match x with
  | S754_zero _ | S754_nan => 0
  | S754_infinity s => if s then i64_min else i64_max
  | S754_finite s m e => Z.max i64_min (Z.min i64_max (if s then - mag m e else mag m e))
  end.

(** [x as i64] and [x.round() as i64] *)
Definition f64_as_i64 : f64 → Z := f64_to_i64 trunc_mag.
Definition f64_round_as_i64 : f64 → Z := f64_to_i64 round_mag.

(** [x.clamp(lo, hi)] for [lo <= hi] *)
Definition f64_clamp (x lo hi : f64) : f64 :=
  if f64_lt x lo then lo else if f64_lt hi x then hi else x.

Arguments f64_add : simpl never.
Arguments f64_sub : simpl never.
Arguments f64_mul : simpl never.
Arguments f64_div : simpl never.
Arguments f64_of_Z : simpl never.
Arguments f64_dec : simpl never.
Arguments f64_lt : simpl never.
Arguments f64_le : simpl never.

Declare Scope f64_scope.
Delimit Scope f64_scope with f64.
Infix "+" := f64_add : f64_scope.
Infix "-" := f64_sub : f64_scope.
Infix "*" := f64_mul : f64_scope.
Infix "/" := f64_div : f64_scope.
Infix "<?" := f64_lt : f64_scope.
Infix "<=?" := f64_le : f64_scope.
Infix ">?" := f64_gt (at level 70) : f64_scope.
Infix ">=?" := f64_ge (at level 70) : f64_scope.

#[export] Instance f64_eq_dec : EqDecision f64.
Proof. solve_decision. Defined.

(** ** The order of the values that are not NaN *)

(** The rank of a value, compared lexicographically.  [SFcompare] orders finite
    values of one sign by exponent, then by significand. *)
Definition rank (x : f64) : Z * Z * Z :=
  match x with
  | S754_nan => (0, 0, 0)
  | S754_infinity true => (-2, 0, 0)
  | S754_infinity false => (2, 0, 0)
  | S754_zero _ => (0, 0, 0)
  | S754_finite true m e => (-1, - e, - Z.pos m)
  | S754_finite false m e => (1, e, Z.pos m)
  end.

Definition rank_lt (p q : Z * Z * Z) : Prop :=
  let '(a, b, c) := p in
  let '(a', b', c') := q in
  a < a' ∨ a = a' ∧ (b < b' ∨ b = b' ∧ c < c').

Definition rank_compare (p q : Z * Z * Z) : comparison :=
  let '(a, b, c) := p in
  let '(a', b', c') := q in
  match a ?= a' with
  | Eq => match b ?= b' with Eq => c ?= c' | r => r end
  | r => r
  end.

Lemma SFcompare_rank x y :
  is_nan x = false → is_nan y = false →
  SFcompare x y = Some (rank_compare (rank x) (rank y)).
Proof.
  destruct x as [[]|[]| |[] m e], y as [[]|[]| |[] m' e']; try done; intros _ _; simpl.
  rewrite Z.compare_opp, (Z.compare_antisym e e'). by destruct (e ?= e').
Qed.

Lemma rank_compare_lt p q : rank_compare p q = Lt ↔ rank_lt p q.
Proof.
  destruct p as [[a b] c], q as [[a' b'] c']; simpl.
  destruct (Z.compare_spec a a'), (Z.compare_spec b b'), (Z.compare_spec c c');
    split; intros; try done; lia.
Qed.

Lemma rank_compare_eq p q : rank_compare p q = Eq ↔ p = q.
Proof.
  destruct p as [[a b] c], q as [[a' b'] c']; simpl.
  destruct (Z.compare_spec a a'), (Z.compare_spec b b'), (Z.compare_spec c c');
    subst; split; intros; simplify_eq; try done; lia.
Qed.

Lemma f64_lt_iff x y :
  f64_lt x y = true ↔ is_nan x = false ∧ is_nan y = false ∧ rank_lt (rank x) (rank y).
Proof.
  destruct (is_nan x) eqn:Hx.
  { destruct x; try discriminate. split; [discriminate|by intros (?&?&?)]. }
  destruct (is_nan y) eqn:Hy.
  { destruct y; try discriminate. destruct x; (split; [discriminate|by intros (?&?&?)]). }
  rewrite <- rank_compare_lt. unfold f64_lt, SFltb. rewrite SFcompare_rank by done.
  destruct (rank_compare _ _); split; try done; by intros (?&?&?).
Qed.

Lemma f64_le_iff x y :
  f64_le x y = true ↔
  is_nan x = false ∧ is_nan y = false ∧ ¬ rank_lt (rank y) (rank x).
Proof.
  destruct (is_nan x) eqn:Hx.
  { destruct x; try discriminate. split; [discriminate|by intros (?&?&?)]. }
  destruct (is_nan y) eqn:Hy.
  { destruct y; try discriminate. destruct x; (split; [discriminate|by intros (?&?&?)]). }
  unfold f64_le, SFleb. rewrite SFcompare_rank by done.
  destruct (rank_compare _ _) eqn:E.
  - apply rank_compare_eq in E. rewrite E. destruct (rank y) as [[a b] c]; simpl.
    split; [intros _; repeat split; lia|done].
  - apply rank_compare_lt in E. destruct (rank x) as [[a b] c], (rank y) as [[a' b'] c'].
    simpl in *. split; [intros _; repeat split; lia|done].
  - split; [done|]. intros (_ & _ & H). exfalso. apply H.
    destruct (rank x) as [[a b] c], (rank y) as [[a' b'] c']. simpl in *.
    destruct (Z.compare_spec a a'), (Z.compare_spec b b'), (Z.compare_spec c c');
      try done; lia.
Qed.

Lemma f64_lt_false x y :
  f64_lt x y = false ↔ is_nan x = true ∨ is_nan y = true ∨ ¬ rank_lt (rank x) (rank y).
Proof.
  rewrite <- not_true_iff_false, f64_lt_iff.
  destruct (rank x) as [[a b] c], (rank y) as [[a' b'] c'], (is_nan x), (is_nan y);
    simpl; lia.
Qed.

Lemma f64_le_false x y :
  f64_le x y = false ↔ is_nan x = true ∨ is_nan y = true ∨ rank_lt (rank y) (rank x).
Proof.
  rewrite <- not_true_iff_false, f64_le_iff.
  destruct (rank x) as [[a b] c], (rank y) as [[a' b'] c'], (is_nan x), (is_nan y);
    simpl; lia.
Qed.

Lemma is_finite_not_nan x : is_finite x = true → is_nan x = false.
Proof. by destruct x. Qed.

(** Decides a goal made of float comparisons: translates every comparison to the
    rank order, then linear arithmetic. *)
Ltac float_order :=
  unfold f64_gt, f64_ge in *;
  repeat match goal with
  | H : is_finite ?x = true |- _ =>
      let H' := fresh in pose proof (is_finite_not_nan x H) as H'; clear H
  | H : f64_lt _ _ = true |- _ => apply f64_lt_iff in H
  | H : f64_le _ _ = true |- _ => apply f64_le_iff in H
  | H : f64_lt _ _ = false |- _ => apply f64_lt_false in H
  | H : f64_le _ _ = false |- _ => apply f64_le_false in H
  end;
  rewrite ?f64_lt_iff, ?f64_le_iff, ?f64_lt_false, ?f64_le_false;
  repeat match goal with
  | |- context [rank ?x] => destruct (rank x) as [[? ?] ?]
  | H : context [rank ?x] |- _ => destruct (rank x) as [[? ?] ?]
  end;
  repeat match goal with
  | |- context [is_nan ?x] => destruct (is_nan x)
  | H : context [is_nan ?x] |- _ => destruct (is_nan x)
  end;
  unfold rank_lt in *; lia.

Lemma f64_lt_trans x y z : f64_lt x y = true → f64_lt y z = true → f64_lt x z = true.
Proof. intros. float_order. Qed.

Lemma f64_le_trans x y z : f64_le x y = true → f64_le y z = true → f64_le x z = true.
Proof. intros. float_order. Qed.

Lemma f64_lt_le_trans x y z : f64_lt x y = true → f64_le y z = true → f64_lt x z = true.
Proof. intros. float_order. Qed.

Lemma f64_le_lt_trans x y z : f64_le x y = true → f64_lt y z = true → f64_lt x z = true.
Proof. intros. float_order. Qed.

Lemma f64_lt_le x y : f64_lt x y = true → f64_le x y = true.
Proof. intros. float_order. Qed.

Lemma f64_le_refl x : is_nan x = false → f64_le x x = true.
Proof. intros. float_order. Qed.

Lemma f64_lt_irrefl x : f64_lt x x = false.
Proof. float_order. Qed.

(** [f64_max] and [f64_min] bound both operands. *)
Lemma f64_max_cases x y : f64_max x y = x ∨ f64_max x y = y.
Proof. unfold f64_max. repeat case_match; auto. Qed.

Lemma f64_min_cases x y : f64_min x y = x ∨ f64_min x y = y.
Proof. unfold f64_min. repeat case_match; auto. Qed.

Lemma f64_max_ge_l x y : is_nan x = false → f64_le x (f64_max x y) = true.
Proof.
  intros Hx. unfold f64_max. rewrite Hx. destruct (is_nan y) eqn:?; [by apply f64_le_refl|].
  destruct (f64_lt x y) eqn:?; [by apply f64_lt_le|by apply f64_le_refl].
Qed.

Lemma f64_max_ge_r x y : is_nan y = false → f64_le y (f64_max x y) = true.
Proof.
  intros Hy. unfold f64_max. rewrite Hy. destruct (is_nan x) eqn:?; [by apply f64_le_refl|].
  destruct (f64_lt x y) eqn:?; [by apply f64_le_refl|float_order].
Qed.

Lemma f64_min_le_l x y : is_nan x = false → f64_le (f64_min x y) x = true.
Proof.
  intros Hx. unfold f64_min. rewrite Hx. destruct (is_nan y) eqn:?; [by apply f64_le_refl|].
  destruct (f64_lt y x) eqn:?; [by apply f64_lt_le|by apply f64_le_refl].
Qed.

Lemma f64_min_le_r x y : is_nan y = false → f64_le (f64_min x y) y = true.
Proof.
  intros Hy. unfold f64_min. rewrite Hy. destruct (is_nan x) eqn:?; [by apply f64_le_refl|].
  destruct (f64_lt y x) eqn:?; [by apply f64_le_refl|float_order].
Qed.

#[export] Hint Resolve is_finite_not_nan f64_le_refl f64_lt_le f64_max_ge_l f64_max_ge_r
  f64_min_le_l f64_min_le_r : hex.

(** ** Exact facts about the operations *)

(** A number does not differ from itself. *)
Lemma f64_sub_self x : is_finite x = true → f64_abs (f64_sub x x) = f64_zero.
Proof.
  destruct x as [s|s| |s m e]; try done; intros _; [by destruct s|].
  unfold f64_sub, SFsub. cbv zeta. by rewrite Z.sub_diag.
Qed.

Lemma f64_opp_involutive x : f64_neg (f64_neg x) = x.
Proof. destruct x as [[]|[]| |[] m e]; done. Qed.

Lemma round_aux_opp s m e l :
  binary_round_aux prec64 emax64 (negb s) m e l = f64_neg (binary_round_aux prec64 emax64 s m e l).
Proof. unfold binary_round_aux. repeat case_match; done. Qed.

(** Rounding is symmetric: a product changes sign with a factor. *)
Lemma f64_mul_opp_r x y : f64_mul x (f64_neg y) = f64_neg (f64_mul x y).
Proof.
  destruct x as [[]|[]| |sx mx ex], y as [[]|[]| |sy my ey]; try done; try (by destruct sx); try (by destruct sy).
  unfold f64_mul, SFmul. cbn [f64_neg SFopp]. rewrite <- round_aux_opp. by destruct sx, sy.
Qed.

Lemma f64_mul_opp_l x y : f64_mul (f64_neg x) y = f64_neg (f64_mul x y).
Proof.
  destruct x as [[]|[]| |sx mx ex], y as [[]|[]| |sy my ey]; try done; try (by destruct sx); try (by destruct sy).
  unfold f64_mul, SFmul. cbn [f64_neg SFopp]. rewrite <- round_aux_opp. by destruct sx, sy.
Qed.

(** The value of a number in units of the smallest subnormal, 2^-1074: exact for every
    finite binary64. *)
Definition units (x : f64) : Z :=
  match x with
  | S754_finite s m e => if s then - Z.shiftl (Zpos m) (e + 1074) else Z.shiftl (Zpos m) (e + 1074)
  | _ => 0
  end.

Lemma units_opp x : units (f64_neg x) = - units x.
Proof. destruct x as [| | |[] m e]; cbn; lia. Qed.

Lemma units_mul_zero x : units (f64_mul x f64_zero) = 0.
Proof. by destruct x. Qed.
