(* ===== verification/AtomicCell.v ===== *)
(** [AtomicF64] of [src/crates/hexagent-account/src/account/shared_account.rs]: the
    lock-free counters of an instance's cash and positions.  Any number of threads run
    [add], [ensure_at_least], [try_reserve], [load] and [store] on one cell, one shared
    access at a time; the limit of [try_reserve] is a second cell that others change at any
    time, and a weak compare-exchange may fail for no reason. *)

From S2P Require Import Prelude F64.

#[local] Open Scope Z_scope.

Definition EPS : f64 := f64_dec 1 9.

(** ** Operations *)

Inductive Op := Add (delta : f64) | EnsureAtLeast (minimum : f64) | TryReserve (amount : f64) | Load | Store (value : f64).

Inductive Answer := Value (x : f64) | Granted (left_over : f64) | Refused (available : f64).

Definition added (current delta : f64) : f64 := f64_max (f64_add current delta) f64_zero.
Definition enough (current minimum : f64) : bool := f64_ge (f64_add current EPS) minimum.
Definition free (limit current : f64) : f64 := f64_max (f64_sub limit current) f64_zero.
Definition too_much (amount available : f64) : bool := f64_gt amount (f64_add available EPS).

(** Where a thread is in an operation: the value it works on is one it has observed, for
    [try_reserve] with the number of operations that had taken effect then. *)
Inductive Pc :=
  | Start (o : Op)
  | AddExchange (delta current : f64)
  | EnsureExchange (minimum current : f64)
  | ReadLimit (amount current : f64) (seen : nat)
  | ReserveExchange (amount current limit : f64)
  | Done.

(** The operation as one atomic step on the cell, with the limit it is judged by. *)
Definition atomically (o : Op) (limit cell : f64) : f64 * Answer :=
  match o with
  | Add delta => (added cell delta, Value (added cell delta))
  | EnsureAtLeast minimum => if enough cell minimum then (cell, Value cell) else (minimum, Value minimum)
  | TryReserve amount =>
      if too_much amount (free limit cell) then (cell, Refused (free limit cell))
      else (f64_add cell amount, Granted (f64_sub (free limit cell) amount))
  | Load => (cell, Value cell)
  | Store v => (v, Value v)
  end.

(** An operation that took effect, with the limit it saw and its answer.  A refusal has no
    effect: it is kept with its amount, its limit, and the numbers of operations before the
    value it judged by and before itself. *)
Definition Entry : Type := Op * f64 * Answer.

Record Sys := mkSys { cell : f64; limit : f64; threads : list Pc; log : list Entry; refusals : list (f64 * f64 * nat * nat); limits : list f64 }.

(** The decision of [ensure_at_least] on an observed value. *)
Definition ensure_next (y : Sys) (minimum current : f64) : Sys * Pc :=
  if enough current minimum
  then (y <| log := log y ++ [(EnsureAtLeast minimum, limit y, Value current)] |>, Done)
  else (y, EnsureExchange minimum current).

(** One access of a thread; [spurious] lets a compare-exchange fail. *)
Definition access (y : Sys) (p : Pc) (spurious : bool) : option (Sys * Pc) :=
  let exchanged current := negb spurious && bool_decide (cell y = current) in
  match p with
  | Start (Add delta) => Some (y, AddExchange delta (cell y))
  | Start (EnsureAtLeast minimum) => Some (ensure_next y minimum (cell y))
  | Start (TryReserve amount) => Some (y, ReadLimit amount (cell y) (length (log y)))
  | Start Load => Some (y <| log := log y ++ [(Load, limit y, Value (cell y))] |>, Done)
  | Start (Store v) => Some (y <| cell := v |> <| log := log y ++ [(Store v, limit y, Value v)] |>, Done)
  | AddExchange delta current =>
      if exchanged current
      then let v := added current delta in
           Some (y <| cell := v |> <| log := log y ++ [(Add delta, limit y, Value v)] |>, Done)
      else Some (y, AddExchange delta (cell y))
  | EnsureExchange minimum current =>
      if exchanged current
      then Some (y <| cell := minimum |> <| log := log y ++ [(EnsureAtLeast minimum, limit y, Value minimum)] |>, Done)
      else Some (ensure_next y minimum (cell y))
  | ReadLimit amount current seen =>
      let available := free (limit y) current in
      if too_much amount available
      then Some (y <| refusals := refusals y ++ [(amount, limit y, seen, length (log y))] |>, Done)
      else Some (y, ReserveExchange amount current (limit y))
  | ReserveExchange amount current lim =>
      if exchanged current
      then Some (y <| cell := f64_add current amount |>
                   <| log := log y ++ [(TryReserve amount, lim, Granted (f64_sub (free lim current) amount))] |>, Done)
      else Some (y, ReadLimit amount (cell y) (length (log y)))
  | Done => None
  end.

Inductive Event := Begin (o : Op) | Run (t : nat) (spurious : bool) | SetLimit (v : f64).

Definition event (y : Sys) (e : Event) : option Sys :=
  match e with
  | Begin o => Some (y <| threads := threads y ++ [Start o] |>)
  | Run t spurious =>
      match threads y !! t with
      | Some p => (λ '(y, p), y <| threads := <[t := p]> (threads y) |>) <$> access y p spurious
      | None => None
      end
  | SetLimit v => Some (y <| limit := v |> <| limits := limits y ++ [v] |>)
  end.

Definition new (v lim : f64) : Sys := mkSys v lim [] [] [] [lim].

Inductive reachable (v : f64) : Sys → Prop :=
  | reachable_new lim : reachable v (new v lim)
  | reachable_event y e y' : reachable v y → event y e = Some y' → reachable v y'.

(** ** The sequential account of a log *)

Definition replay (v : f64) (l : list Entry) : f64 := foldl (λ c e, (atomically e.1.1 e.1.2 c).1) v l.

(** Each entry's answer is the one the operation gives as a single step where it stands. *)
Fixpoint answers_ok (v : f64) (l : list Entry) : Prop :=
  match l with
  | [] => True
  | e :: l => (atomically e.1.1 e.1.2 v).2 = e.2 ∧ answers_ok (atomically e.1.1 e.1.2 v).1 l
  end.

Lemma replay_app v l k : replay v (l ++ k) = replay (replay v l) k.
Proof. unfold replay. apply foldl_app. Qed.

Lemma answers_app v l k : answers_ok v (l ++ k) ↔ answers_ok v l ∧ answers_ok (replay v l) k.
Proof. revert v. induction l as [|e l IH]; intros v; cbn; [tauto|]. rewrite IH. unfold replay. cbn. tauto. Qed.

(** ** The invariant *)

(** What a thread knows of the value it observed. *)
Definition pc_ok (v : f64) (y : Sys) (p : Pc) : Prop :=
  match p with
  | EnsureExchange minimum current => enough current minimum = false
  | ReadLimit _ current seen => seen <= length (log y) ∧ replay v (take seen (log y)) = current
  | ReserveExchange amount current lim => too_much amount (free lim current) = false ∧ lim ∈ limits y
  | _ => True
  end%nat.

Record inv (v : f64) (y : Sys) : Prop := {
  iv_cell : cell y = replay v (log y);
  iv_answers : answers_ok v (log y);
  iv_threads : Forall (pc_ok v y) (threads y);
  iv_limit : limit y ∈ limits y;
  iv_seen : Forall (λ e : Entry, e.1.2 ∈ limits y) (log y);
  iv_refusals : ∀ amount lim k n, (amount, lim, k, n) ∈ refusals y →
    (k <= n <= length (log y))%nat ∧ lim ∈ limits y
    ∧ (atomically (TryReserve amount) lim (replay v (take k (log y)))).2 = Refused (free lim (replay v (take k (log y))))
}.

(** A state that has gone on: its log and its limits are longer. *)
Lemma pc_ok_mono v y y' p : pc_ok v y p → log y `prefix_of` log y' → limits y `prefix_of` limits y' → pc_ok v y' p.
Proof.
  intros Hp [l Hl] [k Hk]. destruct p; cbn in *; try done.
  - destruct Hp as [Hs Hr]. rewrite Hl, length_app, take_app_le by lia. split; [lia|done].
  - destruct Hp as [? ?]. rewrite Hk, elem_of_app. tauto.
Qed.

(** The effect of an operation as the next entry of the log. *)
Lemma inv_entry v y e c :
  inv v y → atomically e.1.1 e.1.2 (cell y) = (c, e.2) → e.1.2 ∈ limits y →
  inv v (y <| cell := c |> <| log := log y ++ [e] |>).
Proof.
  intros [I1 I2 I3 I4 I5 I6] Ea Hl. split; cbn; try done.
  - rewrite replay_app, <- I1. unfold replay. cbn. by rewrite Ea.
  - apply answers_app. split; [done|]. rewrite <- I1. cbn. by rewrite Ea.
  - eapply Forall_impl; [exact I3|]. intros p Hp. eapply pc_ok_mono; [exact Hp|by apply prefix_app_r|done].
  - apply Forall_app. split; [done|]. by constructor.
  - intros amount lim k n H. destruct (I6 _ _ _ _ H) as (H1 & H2 & H3). rewrite length_app, take_app_le by lia. split; [lia|done].
Qed.

Lemma inv_threads v y ps : inv v y → Forall (pc_ok v y) ps → inv v (y <| threads := ps |>).
Proof. intros [] H. by split. Qed.

Lemma forall_set v y t p : Forall (pc_ok v y) (threads y) → pc_ok v y p → Forall (pc_ok v y) (<[t := p]> (threads y)).
Proof. intros Hf Hp. by apply Forall_insert. Qed.

Lemma ensure_next_inv v y minimum y' p :
  inv v y → ensure_next y minimum (cell y) = (y', p) → inv v y' ∧ pc_ok v y' p ∧ threads y' = threads y.
Proof.
  intros I E. unfold ensure_next in E. destruct (enough (cell y) minimum) eqn:En; injection E as <- <-; [|done].
  split; [|done]. apply (inv_entry v y (EnsureAtLeast minimum, limit y, Value (cell y)) (cell y)) in I as H; [|cbn; by rewrite En|apply I].
  by destruct y.
Qed.

Lemma access_inv v y p spurious y' p' :
  inv v y → pc_ok v y p → access y p spurious = Some (y', p') → inv v y' ∧ pc_ok v y' p' ∧ threads y' = threads y.
Proof.
  intros I Hp E. destruct p as [o|delta current|minimum current|amount current seen|amount current lim|]; [destruct o|..]; cbn in E; try done.
  all: try match type of E with context [negb ?a && ?b] => destruct (negb a && b) eqn:Ex; [apply andb_true_iff in Ex as [_ Ex%bool_decide_eq_true]|] end.
  all: try (injection E as <- <-).
  - done.
  - injection E as E. by eapply ensure_next_inv.
  - split; [done|]. split; [|done]. cbn. rewrite firstn_all, <- (iv_cell _ _ I). split; [lia|done].
  - split; [|done]. apply (inv_entry v y (Load, limit y, Value (cell y)) (cell y)) in I as H; [|done|apply I]. by destruct y.
  - split; [|done]. by apply (inv_entry v y (Store value, limit y, Value value)); [| |apply I].
  - split; [|done]. apply (inv_entry v y (Add delta, limit y, Value (added current delta))); [done|cbn; by rewrite Ex|apply I].
  - done.
  - split; [|done]. apply (inv_entry v y (EnsureAtLeast minimum, limit y, Value minimum)); [done|cbn; rewrite Ex; cbn in Hp; by rewrite Hp|apply I].
  - injection E as E. by eapply ensure_next_inv.
  - destruct Hp as [Hs Hr]. destruct (too_much amount (free (limit y) current)) eqn:Et; injection E as <- <-; [|split; [done|]; split; [|done]; split; [done|apply I]].
    split; [|done]. destruct I as [I1 I2 I3 I4 I5 I6]. split; cbn; try done.
    intros a l k n [H|H%list_elem_of_singleton]%elem_of_app; [by apply I6|]. injection H as -> -> -> ->. split; [lia|]. split; [done|]. by rewrite Hr, Et.
  - destruct Hp as [Ht Hl]. split; [|done].
    apply (inv_entry v y (TryReserve amount, lim, Granted (f64_sub (free lim current) amount))); [done|cbn; by rewrite Ex, Ht|done].
  - split; [done|]. split; [|done]. cbn. rewrite firstn_all, <- (iv_cell _ _ I). split; [lia|done].
Qed.

Lemma cell_new_inv v lim : inv v (new v lim).
Proof. split; cbn; try done; [by left|]. intros ? ? ? ? H. by apply not_elem_of_nil in H. Qed.

Lemma cell_event_inv v y e y' : inv v y → event y e = Some y' → inv v y'.
Proof.
  intros I E. destruct e as [o|t spurious|x]; cbn in E.
  - injection E as <-. apply inv_threads; [done|]. apply Forall_app. split; [apply I|by repeat constructor].
  - destruct (threads y !! t) as [p|] eqn:Ep; [|done]. destruct (access y p spurious) as [[y1 p1]|] eqn:Ea; [|done]. injection E as <-.
    pose proof (Forall_lookup_1 _ _ _ _ (iv_threads _ _ I) Ep) as Hp. destruct (access_inv _ _ _ _ _ _ I Hp Ea) as (I1 & Hp1 & Ht).
    apply inv_threads; [done|]. apply forall_set; [apply I1|done].
  - injection E as <-. destruct I as [I1 I2 I3 I4 I5 I6]. split; cbn; try done.
    + eapply Forall_impl; [exact I3|]. intros p Hp. eapply pc_ok_mono; [exact Hp|done|by apply prefix_app_r].
    + apply elem_of_app. right. by apply list_elem_of_singleton.
    + eapply Forall_impl; [exact I5|]. intros e He. apply elem_of_app. by left.
    + intros a l k n H. destruct (I6 _ _ _ _ H) as (H1 & H2 & H3). split; [done|]. split; [|done]. apply elem_of_app. by left.
Qed.

Lemma cell_reachable_inv v y : reachable v y → inv v y.
Proof. induction 1; [apply cell_new_inv|by eapply cell_event_inv]. Qed.

(** ** Theorems *)

(** C19: the counters are atomic.  In every interleaving of any number of operations, with
    compare-exchanges that fail for no reason and a limit that moves, the cell holds what
    the operations that took effect leave when run one after the other, each answer is the
    one it gives there, judged by a limit that was in force; a reservation is granted only
    when its amount fits between the value it is added to and that limit; and one is refused
    only when it did not fit the value the cell had at a moment of the call. *)
Theorem cell_linearizes v y :
  reachable v y →
  cell y = replay v (log y) ∧ answers_ok v (log y) ∧ Forall (λ e : Entry, e.1.2 ∈ limits y) (log y)
  ∧ (∀ k amount lim x, log y !! k = Some (TryReserve amount, lim, Granted x) → too_much amount (free lim (replay v (take k (log y)))) = false)
  ∧ (∀ amount lim k n, (amount, lim, k, n) ∈ refusals y →
       (k <= n)%nat ∧ lim ∈ limits y ∧ too_much amount (free lim (replay v (take k (log y)))) = true).
Proof.
  intros [I1 I2 I3 I4 I5 I6]%cell_reachable_inv. split_and!; try done.
  - intros k amount lim x Hk. rewrite <- (take_drop_middle _ _ _ Hk) in I2. apply answers_app in I2 as [_ I2]. cbn in I2.
    destruct (too_much _ _); [by destruct I2 as [? _]|done].
  - intros amount lim k n H. destruct (I6 _ _ _ _ H) as (H1 & H2 & H3). split; [lia|]. split; [done|]. cbn in H3. by destruct (too_much _ _).
Qed.

(** An instance with 100 in cash: two reservations of 60 race, one is granted after a
    failed exchange elsewhere and the other is refused. *)
Definition dollars (x : Z) : f64 := f64_of_Z x.
Definition race : list Event :=
  [Begin (TryReserve (dollars 60)); Begin (TryReserve (dollars 60)); Run 0 false; Run 1 false; Run 0 false; Run 1 false; Run 1 true; Run 0 false;
   Run 1 false; Run 1 false; Run 1 false].

Fixpoint run (y : Sys) (es : list Event) : option Sys :=
  match es with [] => Some y | e :: es => match event y e with Some y => run y es | None => None end end.

Lemma cell_run_reachable v y es y' : reachable v y → run y es = Some y' → reachable v y'.
Proof.
  revert y. induction es as [|e es IH]; intros y Hr E; cbn in E; [by injection E as <-|].
  destruct (event y e) as [y1|] eqn:E1; [|done]. by eapply IH; [eapply reachable_event|].
Qed.

Definition raced : Sys := default (new f64_zero (dollars 100)) (run (new f64_zero (dollars 100)) race).

Lemma race_runs : length (log raced) = 1%nat ∧ length (refusals raced) = 1%nat ∧ cell raced = dollars 60.
Proof. vm_compute. done. Qed.

Lemma cell_linearizes_witness :
  cell raced = replay f64_zero (log raced) ∧ answers_ok f64_zero (log raced)
  ∧ Forall (λ e : Entry, e.1.2 ∈ limits raced) (log raced).
Proof.
  destruct (cell_linearizes f64_zero raced) as (H1 & H2 & H3 & _).
  { unfold raced. destruct (run (new f64_zero (dollars 100)) race) as [y|] eqn:E; [eapply cell_run_reachable; [|exact E]|]; constructor. }
  split_and!; [exact H1|exact H2|exact H3].
Defined.
