(* ===== verification/Types.v ===== *)
(** * The shared data model (crate hexagent-types)

    Enumerations, order and market records, the signals a strategy sends to
    execution, and the two small codecs of the crate: the generation-tagged
    [OrderSlot] and the decimal-to-uint256 [PreparedToken].

    Fields that only carry latency traces ([hot_path], [receipt] and the
    [delivery] stamp of a quote) are not part of the records: no operation of
    the modelled components reads them. *)

From Stdlib Require Import Floats.SpecFloat.
From S2P Require Import Prelude F64.

(** ** types/market.rs *)

Inductive Exchange :=
  | Binance | Chainlink | Bybit | Coinbase | Kraken | Okx | Gate | Bitget | Kucoin
  | Mexc | Polymarket | Hexmarket | Hyperliquid | Aster | Lighter.

#[export] Instance Exchange_eq_dec : EqDecision Exchange.
Proof. solve_decision. Defined.

Definition exchange_display (e : Exchange) : string :=
  match e with
  | Binance => "binance" | Chainlink => "chainlink" | Bybit => "bybit"
  | Coinbase => "coinbase" | Kraken => "kraken" | Okx => "okx" | Gate => "gate"
  | Bitget => "bitget" | Kucoin => "kucoin" | Mexc => "mexc"
  | Polymarket => "polymarket" | Hexmarket => "hexmarket"
  | Hyperliquid => "hyperliquid" | Aster => "aster" | Lighter => "lighter"
  end.

Definition exchange_from_name (name : string) : option Exchange :=
  if String.eqb name "binance" then Some Binance
  else if String.eqb name "chainlink" then Some Chainlink
  else if String.eqb name "bybit" then Some Bybit
  else if String.eqb name "coinbase" then Some Coinbase
  else if String.eqb name "kraken" then Some Kraken
  else if String.eqb name "okx" then Some Okx
  else if String.eqb name "gate" then Some Gate
  else if String.eqb name "bitget" then Some Bitget
  else if String.eqb name "kucoin" then Some Kucoin
  else if String.eqb name "mexc" then Some Mexc
  else if String.eqb name "polymarket" then Some Polymarket
  else if String.eqb name "hexmarket" then Some Hexmarket
  else if String.eqb name "hyperliquid" then Some Hyperliquid
  else if String.eqb name "aster" || String.eqb name "asterdex" then Some Aster
  else if String.eqb name "lighter" || String.eqb name "zklighter" then Some Lighter
  else None.

Inductive Side := Buy | Sell.

#[export] Instance Side_eq_dec : EqDecision Side.
Proof. solve_decision. Defined.

Definition side_eqb (a b : Side) : bool := bool_decide (a = b).

Record PriceLevel := mkPriceLevel { pl_price : f64; pl_quantity : f64 }.

Record OrderBookSnapshot := mkOrderBookSnapshot {
  ob_exchange : Exchange;
  ob_symbol : string;
  ob_bids : list PriceLevel;
  ob_asks : list PriceLevel;
  ob_exchange_timestamp_ns : Z;
  ob_local_timestamp_ns : Z }.

Record QuoteTick := mkQuoteTick {
  qt_exchange : Exchange;
  qt_symbol : string;
  qt_bid_price : f64;
  qt_bid_qty : f64;
  qt_ask_price : f64;
  qt_ask_qty : f64;
  qt_exchange_timestamp_ns : Z;
  qt_local_timestamp_ns : Z }.

Definition checked_sub (a b : Z) : option Z := if b <=? a then Some (a - b) else None.

Definition source_age_ns (self : QuoteTick) (now_ns : Z) : option Z :=
  if qt_local_timestamp_ns self =? 0 then None
  else checked_sub now_ns (qt_local_timestamp_ns self).

Record TradeTick := mkTradeTick {
  tt_exchange : Exchange;
  tt_symbol : string;
  tt_exchange_trade_id : option string;
  tt_price : f64;
  tt_quantity : f64;
  tt_side : Side;
  tt_exchange_timestamp_ns : Z;
  tt_local_timestamp_ns : Z }.

Record BarData := mkBarData {
  bar_exchange : Exchange;
  bar_symbol : string;
  bar_interval : string;
  bar_open_time_ns : Z;
  bar_close_time_ns : Z;
  bar_open : f64;
  bar_high : f64;
  bar_low : f64;
  bar_close : f64;
  bar_volume : f64;
  bar_taker_buy_base : f64;
  bar_quote_volume : f64;
  bar_is_closed : bool;
  bar_exchange_timestamp_ns : Z;
  bar_local_timestamp_ns : Z }.

Record TickSizeChange := mkTickSizeChange {
  ts_exchange : Exchange;
  ts_symbol : string;
  ts_old_tick_size : f64;
  ts_new_tick_size : f64;
  ts_exchange_timestamp_ns : Z;
  ts_local_timestamp_ns : Z }.

Record SpotPrice := mkSpotPrice {
  sp_source : string;
  sp_symbol : string;
  sp_price : f64;
  sp_timestamp_ns : Z;
  sp_local_timestamp_ns : Z }.

(** [partial_cmp(..).unwrap_or(Equal)] *)
Definition price_cmp (a b : PriceLevel) : comparison :=
  match SFcompare (pl_price a) (pl_price b) with Some c => c | None => Eq end.

(** [Iterator::max_by] keeps the last of several maximal elements and
    [Iterator::min_by] the first of several minimal ones. *)
Definition max_by {A} (cmp : A → A → comparison) (l : list A) : option A :=
  match l with
  | [] => None
  | x :: l => Some (fold_left (λ a b, match cmp a b with Gt => a | _ => b end) l x)
  end.

Definition min_by {A} (cmp : A → A → comparison) (l : list A) : option A :=
  match l with
  | [] => None
  | x :: l => Some (fold_left (λ a b, match cmp a b with Gt => b | _ => a end) l x)
  end.

Definition positive_price (l : PriceLevel) : bool :=
  is_finite (pl_price l) && (pl_price l >? f64_zero)%f64.

Definition best_bid (ob : OrderBookSnapshot) : option PriceLevel :=
  max_by price_cmp (List.filter positive_price (ob_bids ob)).

Definition best_ask (ob : OrderBookSnapshot) : option PriceLevel :=
  min_by price_cmp (List.filter positive_price (ob_asks ob)).

Definition mid_price (ob : OrderBookSnapshot) : f64 :=
  let best_bid_price := match best_bid ob with Some l => pl_price l | None => f64_zero end in
  let best_ask_price := match best_ask ob with Some l => pl_price l | None => f64_one end in
  ((best_bid_price + best_ask_price) / f64_of_Z 2)%f64.

Definition spread (ob : OrderBookSnapshot) : option f64 :=
  match best_bid ob, best_ask ob with
  | Some bid, Some ask => Some (pl_price ask - pl_price bid)%f64
  | _, _ => None
  end.

(** ** types/instrument.rs *)

Inductive FeeSettlement := LegacyV1 | CollateralV2.

#[export] Instance FeeSettlement_eq_dec : EqDecision FeeSettlement.
Proof. solve_decision. Defined.

(** [FeeSettlement::amounts]: collateral fee and outcome-share fee. *)
Definition fee_amounts (self : FeeSettlement) (side : Side) (collateral_fee p : f64) : f64 * f64 :=
  match self, side with
  | LegacyV1, Buy =>
      (f64_zero, if (p >? f64_zero)%f64 then (collateral_fee / p)%f64 else f64_zero)
  | _, _ => (collateral_fee, f64_zero)
  end.

Definition accepts_fee_amounts (self : FeeSettlement) (side : Side) (is_maker : bool)
    (usdc_fee shares_fee tolerance : f64) : bool :=
  if negb (is_finite usdc_fee) || (usdc_fee <? f64_zero)%f64
     || negb (is_finite shares_fee) || (shares_fee <? f64_zero)%f64
  then false
  else if is_maker then (usdc_fee <=? tolerance)%f64 && (shares_fee <=? tolerance)%f64
  else match self, side with
       | LegacyV1, Buy => (usdc_fee <=? tolerance)%f64
       | _, _ => (shares_fee <=? tolerance)%f64
       end.

Record TradeFee := mkTradeFee {
  tf_settlement : FeeSettlement;
  tf_usdc_fee : f64;
  tf_shares_fee : f64 }.

(** ** types/order.rs *)

Inductive OrderType := Market | Limit | LimitMaker | Fak | Fok.
Inductive Liquidity := Maker | Taker.

Inductive OrderStatus :=
  | Pending | Accepted | PartiallyFilled | Filled | Failed | Cancelled | Rejected
  | ExecutorRejected | NewOrderTimeout | CancelOrderTimeout | CancelUncertain.

#[export] Instance OrderType_eq_dec : EqDecision OrderType.
Proof. solve_decision. Defined.
#[export] Instance Liquidity_eq_dec : EqDecision Liquidity.
Proof. solve_decision. Defined.
#[export] Instance OrderStatus_eq_dec : EqDecision OrderStatus.
Proof. solve_decision. Defined.

Inductive QuoteTriggerSource :=
  | Unknown | StrategyCallback | OrderBookTrigger (e : Exchange) | OrderUpdateRequote
  | CancelAckLegRequote | ClobHealthRecovery | ExecutionCapacityResume.

#[export] Instance QuoteTriggerSource_eq_dec : EqDecision QuoteTriggerSource.
Proof. solve_decision. Defined.

Definition from_callback_reason (reason : string) : QuoteTriggerSource :=
  if String.eqb reason "order_update_requote" then OrderUpdateRequote
  else if String.eqb reason "cancel_ack_leg_requote" then CancelAckLegRequote
  else if String.eqb reason "clob_health_recovery" then ClobHealthRecovery
  else if String.eqb reason "execution_capacity_resume" then ExecutionCapacityResume
  else StrategyCallback.

Definition quote_trigger_display (self : QuoteTriggerSource) : string :=
  match self with
  | Unknown => "unknown"
  | StrategyCallback => "strategy_callback"
  | OrderBookTrigger e => "orderbook:" +:+ exchange_display e
  | OrderUpdateRequote => "order_update_requote"
  | CancelAckLegRequote => "cancel_ack_leg_requote"
  | ClobHealthRecovery => "clob_health_recovery"
  | ExecutionCapacityResume => "execution_capacity_resume"
  end.

(** [OrderSlot(u32)]: the low 16 bits are a table index, the high 16 bits the
    generation of that index. *)
Module OrderSlot.
Definition INDEX_MASK : Z := u16_max.
Definition UNASSIGNED : Z := u32_max.

Definition new (index : Z) : Z := index.

Definition with_generation (index generation : Z) : Z :=
  if (index =? u16_max) || (generation =? 0) then UNASSIGNED
  else Z.lor (Z.shiftl generation 16) index.

Definition index (self : Z) : option Z :=
  let index := Z.land self INDEX_MASK in
  if (self =? u32_max) || (index =? u16_max) then None else Some index.

Definition generation (self : Z) : option Z :=
  if self =? u32_max then None else Some (Z.shiftr self 16).

Definition is_legacy (self : Z) : bool :=
  match generation self with Some 0 => true | _ => false end.

Definition is_assigned (self : Z) : bool :=
  match index self with Some _ => true | None => false end.
End OrderSlot.

(** A uint256 token id. [word] is the big-endian 32-byte array; bytes are [Z]
    values below 256, and a [&str] is its byte string. *)
Module PreparedToken.
Record t := mk {
  decimal : string;
  word : list Z;
  polymarket_protocol_v2 : bool }.

Definition byte_of (c : Ascii.ascii) : Z := Z.of_N (Ascii.N_of_ascii c).

Definition is_ascii_digit (b : Z) : bool := (48 <=? b) && (b <=? 57).

(** The inner loop, over the bytes from the least significant end. *)
Fixpoint mul10_add (le : list Z) (carry : Z) : list Z * Z :=
  match le with
  | [] => ([], carry)
  | byte :: le =>
      let n := byte * 10 + carry in
      let '(rest, carry) := mul10_add le (Z.shiftr n 8) in
      (Z.land n u8_max :: rest, carry)
  end.

Fixpoint digits (token : string) (word : list Z) : option (list Z) :=
  match token with
  | EmptyString => Some word
  | String c token =>
      let digit := byte_of c in
      if negb (is_ascii_digit digit) then None
      else
        let '(le, carry) := mul10_add (reverse word) (digit - 48) in
        if carry =? 0 then digits token (reverse le) else None
  end.

Definition nth_byte (word : list Z) (i : nat) : Z := default 0 (word !! i).

Definition is_polymarket_protocol_v2_word (word : list Z) : bool :=
  ((nth_byte word 0 =? 1) || (nth_byte word 0 =? 2) || (nth_byte word 0 =? 3))
  && forallb (λ b, b =? 0) (take 8 (drop 19 word))
  && (nth_byte word 31 <=? 1).

Definition parse (token : string) : option t :=
  if (String.length token =? 0)%nat || (78 <? String.length token)%nat then None
  else
    match digits token (replicate 32 0) with
    | None => None
    | Some word =>
        if forallb (λ b, b =? 0) word then None
        else Some (mk token word (is_polymarket_protocol_v2_word word))
    end.

Definition matches (self : t) (token : string) : bool := String.eqb (decimal self) token.
End PreparedToken.

Record AuthoritativeOrderAudit := mkAudit {
  original_size : option string;
  size_matched : option string;
  associate_trades : list string }.

Record OrderRequest := mkOrderRequest {
  or_prepared_token : option PreparedToken.t;
  or_order_slot : Z;
  or_client_order_id : string;
  or_exchange : Exchange;
  or_symbol : string;
  or_side : Side;
  or_order_type : OrderType;
  or_price : option f64;
  or_quantity : f64;
  or_quote_trigger_exchange_timestamp_ns : Z;
  or_quote_trigger_local_timestamp_ns : Z;
  or_quote_event_id : string;
  or_quote_trigger_source : QuoteTriggerSource;
  or_timestamp_ns : Z;
  or_instance_id : string;
  or_fee_rate_bps : Z;
  or_post_only : bool;
  or_reduce_only : bool;
  or_outcome_label : string }.

Record OrderUpdate := mkOrderUpdate {
  ou_order_slot : Z;
  ou_client_order_id : string;
  ou_exchange : Exchange;
  ou_symbol : string;
  ou_side : Side;
  ou_exchange_order_id : option string;
  ou_status : OrderStatus;
  ou_liquidity : option Liquidity;
  ou_filled_quantity : f64;
  ou_remaining_quantity : f64;
  ou_avg_fill_price : f64;
  ou_timestamp_ns : Z;
  ou_exchange_event_timestamp_ns : option Z;
  ou_trade_id : option string;
  ou_trade_fee : option TradeFee;
  ou_order_audit : option AuthoritativeOrderAudit;
  ou_error : option string }.

(** [update.trade_id.as_deref().is_some_and(|id| !id.is_empty())] *)
Definition has_trade_id (u : OrderUpdate) : bool :=
  match ou_trade_id u with Some id => negb (String.eqb id "") | None => false end.

(** ** types/event.rs *)

Record CancelTrigger := mkCancelTrigger {
  ct_source : QuoteTriggerSource;
  ct_exchange_ns : Z;
  ct_local_ns : Z }.

Definition default_cancel_trigger : CancelTrigger := mkCancelTrigger Unknown 0 0.

Inductive Signal :=
  | NewOrder (request : OrderRequest)
  | CancelOrder (cancel_trigger : CancelTrigger) (exchange : Exchange)
      (client_order_id instance_id : string) (timestamp_ns : Z)
  | CancelAll (exchange : Exchange) (symbol instance_id : string) (timestamp_ns : Z)
  | BatchNewOrders (exchange : Exchange) (market_id : string) (orders : list OrderRequest)
      (instance_id : string)
  | BatchCancelOrders (cancel_trigger : CancelTrigger) (exchange : Exchange)
      (market_id : string) (client_order_ids : list string) (instance_id : string)
      (timestamp_ns : Z)
  | BatchUpdateOrders (cancel_trigger : CancelTrigger) (exchange : Exchange)
      (market_id : string) (cancel_client_order_ids : list string)
      (place_orders : list OrderRequest) (timestamp_ns : Z) (instance_id : string)
  | ReplaceOrder (cancel_trigger : CancelTrigger) (exchange : Exchange)
      (market_id : string) (cancel_client_order_ids : list string)
      (place_orders : list OrderRequest) (timestamp_ns : Z) (instance_id : string)
  | ReconcilePolymarket
      (pending_places : list (string * string * Side * f64 * option string))
      (pending_cancels : list (string * string)) (pending_trade_ids : list string)
      (instance_id : string)
  | PolymarketCancelAllOrders (reason : string) (market : option string)
      (asset_ids : list string) (instance_id : string)
  | RetainPolymarketEventAudit (condition_id : string) (asset_ids : list string)
      (instance_id : string)
  | RetirePolymarketEventAudit (condition_id : string) (asset_ids : list string)
      (instance_id : string)
  | BeginShutdown
  | Exit.

Definition set_cancel_trigger (self : Signal) (origin : CancelTrigger) : Signal :=
  match self with
  | CancelOrder _ e c i t => CancelOrder origin e c i t
  | BatchCancelOrders _ e m cs i t => BatchCancelOrders origin e m cs i t
  | BatchUpdateOrders _ e m cs ps t i => BatchUpdateOrders origin e m cs ps t i
  | ReplaceOrder _ e m cs ps t i => ReplaceOrder origin e m cs ps t i
  | s => s
  end.

Definition ORDER_BATCH_CAPACITY : nat := 16.
Definition ORDER_UPDATE_BATCH_CAPACITY : nat := 64.
Definition SIGNAL_BATCH_CAPACITY : nat := 64.

(** [ArrayVec::try_push] of a fixed-capacity batch. *)
Definition try_push {A} (capacity : nat) (out : list A) (x : A) : list A * option A :=
  if (length out <? capacity)%nat then (out ++ [x], None) else (out, Some x).

(** [extend_signal_batch] and [extend_order_update_batch]: stop at the first
    element that does not fit, and return it. *)
Fixpoint extend_batch {A} (capacity : nat) (out elements : list A) : list A * option A :=
  match elements with
  | [] => (out, None)
  | x :: elements =>
      match try_push capacity out x with
      | (out, None) => extend_batch capacity out elements
      | (out, Some rejected) => (out, Some rejected)
      end
  end.

Definition extend_signal_batch (out signals : list Signal) : list Signal * option Signal :=
  extend_batch SIGNAL_BATCH_CAPACITY out signals.

Definition push_order_update (out : list OrderUpdate) (update : OrderUpdate) :
    list OrderUpdate * option OrderUpdate :=
  try_push ORDER_UPDATE_BATCH_CAPACITY out update.

Definition extend_order_update_batch (out updates : list OrderUpdate) :
    list OrderUpdate * option OrderUpdate :=
  extend_batch ORDER_UPDATE_BATCH_CAPACITY out updates.

Inductive ExecutionAdmissionState := Healthy | Degraded | Paused | Recovering.

#[export] Instance ExecutionAdmissionState_eq_dec : EqDecision ExecutionAdmissionState.
Proof. solve_decision. Defined.

Record ExecutionAdmission := mkExecutionAdmission {
  adm_exchange : Exchange;
  adm_epoch : Z;
  adm_state : ExecutionAdmissionState;
  available_place_slots : Z;
  adm_observed_at_ns : Z }.

Definition allows_place (self : ExecutionAdmission) : bool :=
  negb (bool_decide (adm_state self = Paused)) && (0 <? available_place_slots self).

(** ** Theorems *)

(** *** Order slots *)

Lemma order_slot_pack i g :
  0 ≤ i ≤ u16_max → Z.lor (Z.shiftl g 16) i = g * 2 ^ 16 + i.
Proof.
  unfold u16_max. intros Hi. rewrite Z.shiftl_mul_pow2 by lia.
  symmetry. apply Z.add_nocarry_lor, Z.bits_inj'. intros n Hn.
  rewrite Z.land_spec, Z.bits_0. destruct (decide (n < 16)).
  - by rewrite Z.mul_pow2_bits_low by lia.
  - rewrite (proj1 (Z.bounded_iff_bits_nonneg 16 i ltac:(lia) ltac:(lia)) ltac:(lia) n) by lia.
    apply andb_false_r.
Qed.

Lemma order_slot_unpack i g :
  0 ≤ i ≤ u16_max → Z.land (g * 2 ^ 16 + i) u16_max = i ∧ Z.shiftr (g * 2 ^ 16 + i) 16 = g.
Proof.
  unfold u16_max. intros Hi. change 65535 with (Z.ones 16).
  rewrite Z.land_ones, Z.shiftr_div_pow2 by lia.
  rewrite Z.add_comm, Z_mod_plus_full, Z_div_plus_full, Z.mod_small, Z.div_small by lia. lia.
Qed.

(** A generation-tagged slot decodes to exactly the index and generation it
    was built from; the two reserved arguments (index 0xFFFF, generation 0)
    give the unassigned slot, which decodes to nothing.  A slot of a reused
    index therefore never equals the slot of an earlier generation. *)
Theorem order_slot_roundtrip index generation :
  0 ≤ index ≤ u16_max → 0 ≤ generation ≤ u16_max →
  let s := OrderSlot.with_generation index generation in
  if (index =? u16_max) || (generation =? 0)
  then OrderSlot.index s = None ∧ OrderSlot.generation s = None ∧ OrderSlot.is_assigned s = false
  else OrderSlot.index s = Some index ∧ OrderSlot.generation s = Some generation
       ∧ OrderSlot.is_legacy s = false ∧ 0 ≤ s < u32_max.
Proof.
  intros Hi Hg. unfold OrderSlot.with_generation.
  destruct ((index =? u16_max) || (generation =? 0)) eqn:E; [done|].
  rewrite order_slot_pack by done. destruct (order_slot_unpack index generation) as [Hl Hs]; [done|].
  bool_hyps.
  assert (0 ≤ generation * 2 ^ 16 + index < u32_max) as Hr by (unfold u32_max, u16_max in *; lia).
  unfold OrderSlot.is_legacy, OrderSlot.index, OrderSlot.generation, OrderSlot.INDEX_MASK.
  rewrite Hs, Hl. unfold u16_max, u32_max in *.
  replace (generation * 2 ^ 16 + index =? 4294967295) with false by (symmetry; lia).
  replace (index =? 65535) with false by (symmetry; lia).
  repeat split; try lia. by destruct generation.
Qed.

Lemma order_slot_roundtrip_witness :
  OrderSlot.index (OrderSlot.with_generation 7 9) = Some 7
  ∧ OrderSlot.generation (OrderSlot.with_generation 7 9) = Some 9.
Proof.
  pose proof (order_slot_roundtrip 7 9 ltac:(unfold u16_max; lia) ltac:(unfold u16_max; lia)) as H.
  destruct H as (? & ? & _); done.
Defined.

(** *** Decimal tokens *)

Definition le_value (le : list Z) : Z := foldr (λ b acc, b + 256 * acc) 0 le.
Definition be_value (word : list Z) : Z := le_value (reverse word).
Definition is_byte (b : Z) : Prop := 0 ≤ b ≤ u8_max.

(** The number a decimal string denotes, from its digits. *)
Fixpoint dec_value_from (acc : Z) (s : string) : Z :=
  match s with
  | EmptyString => acc
  | String c s => dec_value_from (acc * 10 + (PreparedToken.byte_of c - 48)) s
  end.

Fixpoint all_digits (s : string) : bool :=
  match s with
  | EmptyString => true
  | String c s => PreparedToken.is_ascii_digit (PreparedToken.byte_of c) && all_digits s
  end.

Lemma le_value_bound le :
  Forall is_byte le → 0 ≤ le_value le < 256 ^ Z.of_nat (length le).
Proof.
  induction 1 as [|b le Hb _ IH]; simpl; [lia|].
  rewrite Nat2Z.inj_succ, Z.pow_succ_r by lia. unfold is_byte, u8_max in Hb. lia.
Qed.

Lemma le_value_zero le :
  Forall is_byte le → forallb (λ b, b =? 0) le = (le_value le =? 0).
Proof.
  induction 1 as [|b le Hb Hle IH]; simpl; [done|].
  rewrite IH. pose proof (le_value_bound le Hle). unfold is_byte, u8_max in Hb.
  destruct (b =? 0) eqn:?, (le_value le =? 0) eqn:?; bool_hyps; simpl; symmetry;
    try apply Z.eqb_eq; try apply Z.eqb_neq; lia.
Qed.

(** One pass over the bytes multiplies by ten and adds the digit, exactly. *)
Lemma mul10_add_spec le carry le' carry' :
  Forall is_byte le → 0 ≤ carry ≤ 9 →
  PreparedToken.mul10_add le carry = (le', carry') →
  Forall is_byte le' ∧ length le' = length le ∧ 0 ≤ carry' ≤ 9
  ∧ le_value le' + carry' * 256 ^ Z.of_nat (length le) = le_value le * 10 + carry.
Proof.
  intros Hle. revert carry le' carry'.
  induction Hle as [|b le Hb Hle IH]; intros carry le' carry' Hc H; simpl in H.
  { simplify_eq. split_and!; [constructor|done|lia|lia|simpl; lia]. }
  destruct (PreparedToken.mul10_add le (Z.shiftr (b * 10 + carry) 8)) as [rest c] eqn:E.
  simplify_eq/=. unfold is_byte, u8_max in Hb.
  unfold u8_max. change 255 with (Z.ones 8). rewrite Z.land_ones by lia.
  rewrite Z.shiftr_div_pow2 in E by lia. change (2 ^ 8) with 256 in *.
  pose proof (Z.div_mod (b * 10 + carry) 256 ltac:(lia)).
  pose proof (Z.mod_pos_bound (b * 10 + carry) 256 ltac:(lia)).
  apply IH in E as (? & ? & ? & Hv); [|lia].
  rewrite Nat2Z.inj_succ, Z.pow_succ_r by lia.
  split_and!; try lia. constructor; [unfold is_byte, u8_max; lia|done].
Qed.

Lemma dec_value_from_ge acc s : 0 ≤ acc → all_digits s = true → acc ≤ dec_value_from acc s.
Proof.
  revert acc. induction s as [|c s IH]; intros acc Ha H; simpl in *; [lia|].
  bool_hyps. unfold PreparedToken.is_ascii_digit in *. bool_hyps.
  etrans; [|apply IH]; [lia|lia|done].
Qed.

Lemma digits_spec s word :
  Forall is_byte word → length word = 32%nat →
  match PreparedToken.digits s word with
  | Some word' => all_digits s = true ∧ Forall is_byte word' ∧ length word' = 32%nat
                  ∧ be_value word' = dec_value_from (be_value word) s
  | None => all_digits s = false ∨ 2 ^ 256 ≤ dec_value_from (be_value word) s
  end.
Proof.
  revert word. induction s as [|c s IH]; intros word Hw Hl; simpl; [done|].
  destruct (PreparedToken.is_ascii_digit _) eqn:Hd; simpl; [|by left].
  assert (0 ≤ PreparedToken.byte_of c - 48 ≤ 9) as Hc
    by (unfold PreparedToken.is_ascii_digit in Hd; bool_hyps; lia).
  destruct (PreparedToken.mul10_add _ _) as [le carry] eqn:E.
  apply mul10_add_spec in E as (Hle & Hlen & Hca & Hv); [|by apply Forall_reverse|done].
  rewrite length_reverse, Hl in *. change (le_value (reverse word)) with (be_value word) in Hv.
  change (256 ^ Z.of_nat 32) with (2 ^ 256) in Hv.
  destruct (carry =? 0) eqn:H0; bool_hyps.
  - subst carry. specialize (IH (reverse le)).
    assert (be_value (reverse le) = be_value word * 10 + (PreparedToken.byte_of c - 48)) as Hbe
      by (unfold be_value at 1; rewrite reverse_involutive; lia).
    rewrite length_reverse, Hbe in IH.
    apply IH; [by apply Forall_reverse|done].
  - destruct (all_digits s) eqn:Hs; [right|by left].
    pose proof (le_value_bound le Hle). pose proof (le_value_bound word).
    etrans; [|apply dec_value_from_ge; try done]; [nia|].
    unfold be_value. pose proof (le_value_bound (reverse word) ltac:(by apply Forall_reverse)). lia.
Qed.

(** [PreparedToken::parse] accepts exactly the non-empty decimal strings of
    at most 78 digits whose value is non-zero and fits in 256 bits, and the
    cached 32-byte word is the big-endian encoding of that value. *)
Theorem prepared_token_parse_correct token :
  match PreparedToken.parse token with
  | Some p =>
      (1 ≤ String.length token ≤ 78)%nat ∧ all_digits token = true
      ∧ PreparedToken.matches p token = true
      ∧ length (PreparedToken.word p) = 32%nat ∧ Forall is_byte (PreparedToken.word p)
      ∧ be_value (PreparedToken.word p) = dec_value_from 0 token
      ∧ 0 < dec_value_from 0 token < 2 ^ 256
  | None =>
      String.length token = 0%nat ∨ (78 < String.length token)%nat ∨ all_digits token = false
      ∨ dec_value_from 0 token = 0 ∨ 2 ^ 256 ≤ dec_value_from 0 token
  end.
Proof.
  unfold PreparedToken.parse.
  destruct (String.length token =? 0)%nat eqn:E0; simpl; [left; by apply Nat.eqb_eq|].
  destruct (78 <? String.length token)%nat eqn:E1; [right; left; by apply Nat.ltb_lt|].
  apply Nat.eqb_neq in E0. apply Nat.ltb_ge in E1.
  pose proof (digits_spec token (replicate 32 0)) as H.
  destruct (PreparedToken.digits _ _) as [w|]; cbv beta iota in H.
  - destruct H as (Hd & Hb & Hl & Hv).
    { by apply Forall_replicate. } { done. }
    replace (forallb _ w) with (be_value w =? 0).
    2: { unfold be_value. rewrite <- le_value_zero by (by apply Forall_reverse).
         by rewrite forallb_reverse. }
    pose proof (le_value_bound (reverse w) ltac:(by apply Forall_reverse)) as Hr.
    rewrite length_reverse, Hl in Hr. change (le_value (reverse w)) with (be_value w) in Hr.
    change (256 ^ Z.of_nat 32) with (2 ^ 256) in Hr.
    change (be_value (replicate 32 0)) with 0 in Hv.
    destruct (be_value w =? 0) eqn:Hz; bool_hyps; [right; right; right; left; congruence|].
    unfold PreparedToken.matches. simpl. rewrite String.eqb_refl. split_and!; try done; lia.
  - right; right. destruct H as [H|H]; [by apply Forall_replicate|done|by left|].
    right; right. done.
Qed.

(** *** Top of book *)

Lemma price_cmp_gt a b :
  is_nan (pl_price a) = false → is_nan (pl_price b) = false →
  match price_cmp a b with
  | Gt => f64_le (pl_price b) (pl_price a) = true
  | _ => f64_le (pl_price a) (pl_price b) = true
  end.
Proof.
  intros Ha Hb. unfold price_cmp.
  destruct (f64_le (pl_price a) (pl_price b)) eqn:E.
  - unfold f64_le, SFleb in E. by destruct (SFcompare _ _) as [[]|].
  - assert (f64_le (pl_price b) (pl_price a) = true) by float_order.
    unfold f64_le, SFleb in E. destruct (SFcompare (pl_price a) _) as [[]|] eqn:Ec; try done.
    by rewrite SFcompare_rank in Ec.
Qed.

Lemma positive_price_not_nan l : positive_price l = true → is_nan (pl_price l) = false.
Proof. unfold positive_price. intros H. bool_hyps. auto with hex. Qed.

Definition usable (l : PriceLevel) : Prop := positive_price l = true.

Lemma usable_levels ls : Forall usable (List.filter positive_price ls).
Proof. apply List.Forall_forall. intros x Hx. by apply filter_In in Hx as [_ ?]. Qed.

Lemma elem_of_usable ls l : l ∈ List.filter positive_price ls ↔ l ∈ ls ∧ usable l.
Proof. rewrite !list_elem_of_In. apply filter_In. Qed.

Lemma max_by_spec ls :
  Forall usable ls →
  match max_by price_cmp ls with
  | None => ls = []
  | Some m => m ∈ ls ∧ ∀ y, y ∈ ls → f64_le (pl_price y) (pl_price m) = true
  end.
Proof.
  intros H. destruct H as [|x ls Hx Hls]; simpl; [done|].
  apply (fold_select usable (λ a b, f64_le (pl_price a) (pl_price b) = true)); try done.
  - intros a b. destruct (price_cmp a b); auto.
  - intros a b Ha%positive_price_not_nan Hb%positive_price_not_nan.
    pose proof (price_cmp_gt a b Ha Hb). destruct (price_cmp a b); auto with hex.
  - intros a Ha%positive_price_not_nan. auto with hex.
  - intros a b c. apply f64_le_trans.
Qed.

Lemma min_by_spec ls :
  Forall usable ls →
  match min_by price_cmp ls with
  | None => ls = []
  | Some m => m ∈ ls ∧ ∀ y, y ∈ ls → f64_le (pl_price m) (pl_price y) = true
  end.
Proof.
  intros H. destruct H as [|x ls Hx Hls]; simpl; [done|].
  apply (fold_select usable (λ a b, f64_le (pl_price b) (pl_price a) = true)); try done.
  - intros a b. destruct (price_cmp a b); auto.
  - intros a b Ha%positive_price_not_nan Hb%positive_price_not_nan.
    pose proof (price_cmp_gt a b Ha Hb). destruct (price_cmp a b); auto with hex.
  - intros a Ha%positive_price_not_nan. auto with hex.
  - intros a b c ??. eauto using f64_le_trans.
Qed.

(** Whatever order the venue lists its levels in, the best bid is a level of
    the book with a finite positive price that no other such level exceeds, and
    the best ask one that no other such level undercuts; each is absent only
    when its side has no usable level. *)
Theorem best_levels_extremal ob :
  match best_bid ob with
  | Some m => m ∈ ob_bids ob ∧ usable m
              ∧ ∀ l, l ∈ ob_bids ob → usable l → f64_le (pl_price l) (pl_price m) = true
  | None => ∀ l, l ∈ ob_bids ob → ¬ usable l
  end
  ∧ match best_ask ob with
    | Some m => m ∈ ob_asks ob ∧ usable m
                ∧ ∀ l, l ∈ ob_asks ob → usable l → f64_le (pl_price m) (pl_price l) = true
    | None => ∀ l, l ∈ ob_asks ob → ¬ usable l
    end.
Proof.
  unfold best_bid, best_ask. split.
  - pose proof (max_by_spec _ (usable_levels (ob_bids ob))) as H.
    destruct (max_by _ _) as [m|].
    + destruct H as [Hm Hge]. apply elem_of_usable in Hm as [??].
      split_and!; try done. intros l ??. by apply Hge, elem_of_usable.
    + intros l ??. apply (not_elem_of_nil l). rewrite <- H. by apply elem_of_usable.
  - pose proof (min_by_spec _ (usable_levels (ob_asks ob))) as H.
    destruct (min_by _ _) as [m|].
    + destruct H as [Hm Hge]. apply elem_of_usable in Hm as [??].
      split_and!; try done. intros l ??. by apply Hge, elem_of_usable.
    + intros l ??. apply (not_elem_of_nil l). rewrite <- H. by apply elem_of_usable.
Qed.

(** *** Fixed-capacity batches *)

(** Extending a fixed-capacity batch either appends every element in order,
    or fills the batch to capacity with a prefix and hands back exactly the
    first element that did not fit: no signal is dropped silently. *)
Theorem extend_signal_batch_lossless out signals :
  (length out ≤ SIGNAL_BATCH_CAPACITY)%nat →
  match extend_signal_batch out signals with
  | (out', None) => out' = out ++ signals ∧ (length out' ≤ SIGNAL_BATCH_CAPACITY)%nat
  | (out', Some rejected) =>
      length out' = SIGNAL_BATCH_CAPACITY
      ∧ ∃ sent rest, signals = sent ++ rejected :: rest ∧ out' = out ++ sent
  end.
Proof.
  unfold extend_signal_batch. revert out. induction signals as [|s signals IH]; intros out Hl; simpl.
  { by rewrite app_nil_r. }
  unfold try_push. destruct (length out <? SIGNAL_BATCH_CAPACITY)%nat eqn:E.
  - apply Nat.ltb_lt in E. specialize (IH (out ++ [s])). rewrite length_app in IH. simpl in IH.
    destruct (extend_batch _ _ _) as [out' [rej|]].
    + destruct IH as (? & sent & rest & -> & ->); [lia|].
      split; [done|]. exists (s :: sent), rest. split; [done|]. by rewrite <- app_assoc.
    + rewrite <- app_assoc in IH. apply IH. lia.
  - apply Nat.ltb_ge in E. split; [lia|]. exists [], signals. by rewrite app_nil_r.
Qed.

Lemma extend_signal_batch_lossless_witness :
  extend_signal_batch [] [BeginShutdown; Exit] = ([BeginShutdown; Exit], None)
  ∧ (length [BeginShutdown; Exit] ≤ SIGNAL_BATCH_CAPACITY)%nat.
Proof.
  pose proof (extend_signal_batch_lossless [] [BeginShutdown; Exit] (Nat.le_0_l _)) as H.
  split; [reflexivity|]. exact (proj2 H).
Defined.
