(* ===== verification/VirtualOwner.v ===== *)
(** * Virtual owners

    [VirtualOwnerScheduler] (hexagent-engine/src/virtual_owner.rs): in a backtest each
    strategy is an owner with three bounded lanes, market snapshots that replace each
    other between barriers, private events in order, and at most one history job, and a
    periodic watchdog.  A callback takes its input when service starts and completes
    after the configured service time.

    An owner index out of range panics: the operations of the scheduler are partial.
    The closures of the source are pure functions here.

    Proved: the private lane is lossless and in order through suspensions, and
    [private_drained] is exact; callbacks of an owner do not overlap and never see
    data of their future; the lanes are served by priority and a step makes progress
    exactly when [peek_when] says so; the steps of one instant come to an end; the
    quantiles of the histograms are upper bounds as tight as documented. *)

From S2P Require Import Prelude.

(** ** Timing histograms *)

Record TimingHistogram := mkHistogram {
  buckets : list Z;
  count : Z;
  maximum_ns : Z }.

Definition default_histogram : TimingHistogram := mkHistogram (replicate 4096 0) 0 0.

(** [x.leading_zeros()] of a positive [u64] *)
Definition leading_zeros (x : Z) : Z := 63 - Z.log2 x.

Definition div_ceil (a b : Z) : Z := - (- a / b).

(** The bucket of a duration; it is below 4096 for every [u64]. *)
Definition bucket (ns : Z) : Z :=
  let exponent := 63 - leading_zeros (Z.max ns 1) in
  let base := Z.shiftl 1 exponent in
  let fraction := (ns -s base) * 64 / base in
  exponent * 64 + Z.min fraction 63.

Definition record (self : TimingHistogram) (ns : Z) : TimingHistogram :=
  mkHistogram (alter (λ n, n +w 1) (Z.to_nat (bucket ns)) (buckets self))
    (count self +w 1) (Z.max (maximum_ns self) ns).

(** The upper end of a bucket. *)
Definition bucket_upper (index : Z) : Z :=
  let base := Z.shiftl 1 (index / 64) in
  Z.min (base + div_ceil (base * (index mod 64 + 1)) 64 - 1) u64_max.

(** The loop of [upper_quantile] from a bucket on. *)
Fixpoint quantile_from (maximum target cumulative index : Z) (counts : list Z) : Z :=
  match counts with
  | [] => maximum
  | n :: counts =>
      let cumulative := cumulative +w n in
      if target <=? cumulative then Z.min (bucket_upper index) maximum
      else quantile_from maximum target cumulative (index + 1) counts
  end.

Definition upper_quantile (self : TimingHistogram) (numerator denominator : Z) : Z :=
  if (count self =? 0) || (maximum_ns self =? 0) then 0
  else
    let target := div_ceil (count self * numerator) denominator mod 2 ^ 64 in
    quantile_from (maximum_ns self) target 0 0 (buckets self).

Record OwnerStats := mkStats {
  s_received : Z;
  completed : Z;
  coalesced_market : Z;
  retired_market : Z;
  offline_market_discarded : Z;
  superseded_history : Z;
  watchdogs : Z;
  queue_high_water : nat;
  overflow : Z;
  receive_to_apply : TimingHistogram;
  apply_to_completion : TimingHistogram }.

Definition default_stats : OwnerStats :=
  mkStats 0 0 0 0 0 0 0 0 0 default_histogram default_histogram.

(** ** Owners *)

Record OwnerScheduleConfig := mkConfig {
  apply_delay_ns : Z;
  service_time_ns : Z;
  capacity : nat;
  watchdog_interval_ns : Z;
  start_ns : Z;
  end_ns : Z }.

Inductive OwnerError :=
| CapacityNotPositive
| EndPrecedesStart
| MarketOverflow (owner : nat)
| PrivateOverflow (owner : nat)
| RecoveryMetadataOverflow (owner : nat)
| PrivateRecoverySpoolOverflow (owner : nat).

Section VirtualOwner.
Context {K T : Type} `{!EqDecision K}.

Record Pending := mkPending {
  received_ns : Z;
  ready_ns : Z;
  p_epoch : Z;
  key : option K;
  payload : T }.

Inductive OwnerWork := Event (payload : T) | Watchdog.

Record OwnerCompletion := mkCompletion {
  c_owner : nat;
  c_received_ns : Z;
  apply_ns : Z;
  completed_ns : Z;
  work : OwnerWork;
  private_lane : bool;
  history_lane : bool }.

Record Owner := mkOwner {
  market : list Pending;
  private : list Pending;
  history : option Pending;
  running : option OwnerCompletion;
  epoch : Z;
  next_watchdog_ns : Z;
  last_watchdog_ns : Z;
  available_ns : Z;
  paused_until_ns : Z;
  stats : OwnerStats }.

Definition new_owner (config : OwnerScheduleConfig) : Owner :=
  mkOwner [] [] None None 0
    (if watchdog_interval_ns config =? 0 then u64_max else start_ns config +s watchdog_interval_ns config)
    (start_ns config) (start_ns config) 0 default_stats.

(** [queue_high_water] after a push. *)
Definition note_depth (state : Owner) : Owner :=
  state <| stats := (stats state) <| queue_high_water :=
    (queue_high_water (stats state) `max` (length (market state) + length (private state)))%nat |> |>.

Definition note_received (state : Owner) : Owner :=
  state <| stats := (stats state) <| s_received := s_received (stats state) +w 1 |> |>.

Definition note_overflow (state : Owner) : Owner :=
  state <| stats := (stats state) <| overflow := overflow (stats state) +w 1 |> |>.

Definition bump_epoch (state : Owner) : Owner := state <| epoch := epoch state +w 1 |>.

(** [iter_mut().rev().take_while(..).find(..)] on the reversed lane: the latest snapshot
    of the key since the barrier is replaced. *)
Fixpoint replace_latest (current received : Z) (k : K) (value : T) (rev_market : list Pending)
    : option (list Pending) :=
  match rev_market with
  | [] => None
  | p :: rest =>
      if p_epoch p =? current
      then if bool_decide (key p = Some k)
           then Some (p <| payload := value |> <| received_ns := received |> :: rest)
           else cons p <$> replace_latest current received k value rest
      else None
  end.

Definition coalesce (state : Owner) (received : Z) (k : K) (value : T) : option (list Pending) :=
  reverse <$> replace_latest (epoch state) received k value (reverse (market state)).

(** The second half of [enqueue_market]: the snapshot is queued. *)
Definition push_market (config : OwnerScheduleConfig) (owner : nat) (state : Owner) (received : Z)
    (k : option K) (value : T) : Owner * option OwnerError :=
  if (length (market state) =? capacity config)%nat
  then (note_overflow state, Some (MarketOverflow owner))
  else
    let pending := mkPending received (received +s apply_delay_ns config) (epoch state) k value in
    (note_depth (state <| market := market state ++ [pending] |>), None).

Definition owner_enqueue_market (config : OwnerScheduleConfig) (owner : nat) (received : Z)
    (k : option K) (value : T) (state : Owner) : Owner * option OwnerError :=
  let state := note_received state in
  match k with
  | Some key =>
      match coalesce state received key value with
      | Some market' =>
          (state <| market := market' |>
                 <| stats := (stats state) <| coalesced_market := coalesced_market (stats state) +w 1 |> |>, None)
      | None => push_market config owner state received k value
      end
  | None => push_market config owner (bump_epoch state) received k value
  end.

Definition owner_enqueue_private (config : OwnerScheduleConfig) (owner : nat) (received : Z) (value : T)
    (state : Owner) : Owner * option OwnerError :=
  let state := note_received state in
  if (length (private state) =? capacity config)%nat
  then (note_overflow state, Some (PrivateOverflow owner))
  else
    let pending := mkPending received (received +s apply_delay_ns config) (epoch state) None value in
    (note_depth (state <| private := private state ++ [pending] |>), None).

Definition owner_prepend_market (config : OwnerScheduleConfig) (owner : nat) (received : Z) (value : T)
    (state : Owner) : Owner * option OwnerError :=
  if (length (market state) =? capacity config)%nat
  then (note_overflow state, Some (RecoveryMetadataOverflow owner))
  else
    let state := bump_epoch state in
    let pending := mkPending received (received +s apply_delay_ns config) (epoch state) None value in
    (note_depth (state <| market := pending :: market state |>), None).

(** The market snapshots of the predicate leave the lane, and are counted. *)
Definition retire (predicate : T → bool) (state : Owner) : Owner :=
  let before := length (market state) in
  let state := state <| market := List.filter (λ p, negb (predicate (payload p))) (market state) |> in
  state <| stats := (stats state) <| retired_market :=
    retired_market (stats state) +w Z.of_nat (before - length (market state)) |> |>.

Definition owner_private_matches (predicate : T → bool) (state : Owner) : bool :=
  existsb (λ p, predicate (payload p)) (private state)
  || match running state with
     | Some r => private_lane r && match work r with Event p => predicate p | Watchdog => false end
     | None => false
     end.

Definition owner_schedule_history (ready : Z) (value : T) (state : Owner) : Owner :=
  let state := match history state with
               | Some _ => state <| stats := (stats state) <| superseded_history := superseded_history (stats state) +w 1 |> |>
               | None => state
               end in
  state <| history := Some (mkPending ready ready (epoch state) None value) |>.

(** ** Readiness and service *)

Definition front_ready (lane : list Pending) : Z :=
  match lane with p :: _ => ready_ns p | [] => u64_max end.

Definition history_ready (state : Owner) : Z :=
  match history state with Some p => ready_ns p | None => u64_max end.

Definition watchdog_ready (config : OwnerScheduleConfig) (state : Owner) : Z :=
  if next_watchdog_ns state <=? end_ns config
  then if negb (front_ready (market state) =? u64_max)
       then Z.max (next_watchdog_ns state) (last_watchdog_ns state +s 500000000)
       else next_watchdog_ns state
  else u64_max.

Definition ready_for (config : OwnerScheduleConfig) (state : Owner) : Z :=
  if paused_until_ns state =? u64_max then u64_max
  else match running state with
       | Some r => Z.max (completed_ns r) (paused_until_ns state)
       | None =>
           Z.max (Z.max (Z.min (Z.min (Z.min (front_ready (market state)) (front_ready (private state)))
                                      (history_ready state))
                               (watchdog_ready config state))
                        (available_ns state))
                 (paused_until_ns state)
       end.

Definition complete (now_ns : Z) (completion : OwnerCompletion) (state : Owner) : Owner :=
  state <| available_ns := now_ns |>
        <| stats := (stats state) <| completed := completed (stats state) +w 1 |>
             <| apply_to_completion := record (apply_to_completion (stats state))
                  (completed_ns completion - apply_ns completion) |> |>.

(** The lane is served: which one, the input taken, and the owner without it. *)
Definition is_ready (now_ns : Z) (p : Pending) : bool := ready_ns p <=? now_ns.

Definition watchdog_due (config : OwnerScheduleConfig) (now_ns : Z) (state : Owner) : bool :=
  (next_watchdog_ns state <=? end_ns config) && (next_watchdog_ns state <=? now_ns)
  && (match market state with [] => true | _ => false end
      || (500000000 <=? now_ns -s last_watchdog_ns state)).

Definition take_input (config : OwnerScheduleConfig) (now_ns : Z) (state : Owner)
    : Owner * option Pending * bool * bool :=
  let private_lane := match private state with p :: _ => is_ready now_ns p | [] => false end in
  let history_lane := negb private_lane && match history state with Some p => is_ready now_ns p | None => false end in
  if private_lane then (state <| private := tail (private state) |>, head (private state), true, false)
  else if history_lane then (state <| history := None |>, history state, false, true)
  else if watchdog_due config now_ns state then (state, None, false, false)
  else (state <| market := tail (market state) |>, head (market state), false, false).

(** A watchdog turn; missed ticks are coalesced into it. *)
Definition tick (config : OwnerScheduleConfig) (now_ns : Z) (state : Owner) : Owner :=
  let missed := (now_ns -s next_watchdog_ns state) / Z.max (watchdog_interval_ns config) 1 in
  state <| last_watchdog_ns := now_ns |>
        <| next_watchdog_ns := next_watchdog_ns state +s ((missed +w 1) *s watchdog_interval_ns config) |>
        <| stats := (stats state) <| watchdogs := watchdogs (stats state) +w 1 |> |>.

(** Service starts; without a service time it also ends. *)
Definition begin_service (config : OwnerScheduleConfig) (owner : nat) (now_ns received : Z) (work : OwnerWork)
    (private_lane history_lane : bool) (state : Owner) : Owner * option OwnerCompletion :=
  let state := state <| stats := (stats state) <| receive_to_apply :=
    record (receive_to_apply (stats state)) (now_ns -s received) |> |> in
  let completion := mkCompletion owner received now_ns (now_ns +s service_time_ns config)
                      work private_lane history_lane in
  if service_time_ns config =? 0
  then (state <| available_ns := now_ns |>
              <| stats := (stats state) <| completed := completed (stats state) +w 1 |>
                   <| apply_to_completion := record (apply_to_completion (stats state)) 0 |> |>,
        Some completion)
  else (state <| running := Some completion |>, None).

Definition owner_step (config : OwnerScheduleConfig) (owner : nat) (now_ns : Z) (state : Owner)
    : Owner * option OwnerCompletion :=
  match running state with
  | Some completion => (complete now_ns completion (state <| running := None |>), Some completion)
  | None =>
      let '(state, pending, private_lane, history_lane) := take_input config now_ns state in
      match pending with
      | Some p => begin_service config owner now_ns (received_ns p) (Event (payload p)) private_lane history_lane state
      | None => begin_service config owner now_ns (next_watchdog_ns state) Watchdog private_lane history_lane
                  (tick config now_ns state)
      end
  end.

(** ** Suspension and recovery *)

(** What a suspension does with a callback in service. *)
Definition return_running (config : OwnerScheduleConfig) (owner : nat) (now_ns : Z) (r : OwnerCompletion)
    (state : Owner) : Owner * option OwnerError :=
  if private_lane r
  then if (length (private state) <? capacity config)%nat
       then (match work r with
             | Event p => state <| private := mkPending (c_received_ns r) now_ns (epoch state) None p :: private state |>
             | Watchdog => state
             end, None)
       else (state, Some (PrivateRecoverySpoolOverflow owner))
  else if history_lane r
  then (match history state with
        | None => match work r with
                  | Event p => state <| history := Some (mkPending (c_received_ns r) now_ns (epoch state) None p) |>
                  | Watchdog => state
                  end
        | Some _ => state <| stats := (stats state) <| superseded_history := superseded_history (stats state) +w 1 |> |>
        end, None)
  else (state <| stats := (stats state) <| offline_market_discarded := offline_market_discarded (stats state) +w 1 |> |>, None).

Definition owner_suspend (config : OwnerScheduleConfig) (owner : nat) (now_ns : Z) (state : Owner)
    : Owner * option OwnerError :=
  let state := bump_epoch (state <| paused_until_ns := u64_max |>) in
  let state := state <| stats := (stats state) <| offline_market_discarded :=
    offline_market_discarded (stats state) +w Z.of_nat (length (market state)) |> |> in
  let state := state <| market := [] |> in
  match running state with
  | Some r => return_running config owner now_ns r (state <| running := None |>)
  | None => (state, None)
  end.

Definition owner_rebase (config : OwnerScheduleConfig) (now_ns : Z) (update : T → Z → T) (state : Owner) : Owner :=
  state <| private :=
    (λ p, p <| received_ns := now_ns |> <| ready_ns := now_ns +s apply_delay_ns config |>
            <| payload := update (payload p) now_ns |>) <$> private state |>.

Definition owner_resume (config : OwnerScheduleConfig) (now_ns : Z) (state : Owner) : Owner :=
  state <| paused_until_ns := 0 |> <| available_ns := now_ns |> <| last_watchdog_ns := now_ns |>
        <| next_watchdog_ns := if watchdog_interval_ns config =? 0 then u64_max
                               else now_ns +s watchdog_interval_ns config |>.

Definition owner_discard (state : Owner) : Owner :=
  state <| stats := (stats state) <| offline_market_discarded := offline_market_discarded (stats state) +w 1 |> |>.

Definition owner_private_drained (state : Owner) : bool :=
  match private state with [] => true | _ => false end
  && negb match running state with Some c => private_lane c | None => false end.

(** The market inputs a suspension would lose, in the order they are visited. *)
Definition unapplied_market (state : Owner) : list T :=
  (payload <$> market state) ++
  match running state with
  | Some r => if negb (private_lane r) && negb (history_lane r)
              then match work r with Event p => [p] | Watchdog => [] end else []
  | None => []
  end.

(** ** The scheduler *)

Record VirtualOwnerScheduler := mkScheduler {
  config : OwnerScheduleConfig;
  owners : list Owner }.

Definition new (n : nat) (cfg : OwnerScheduleConfig) : OwnerError + VirtualOwnerScheduler :=
  if (capacity cfg =? 0)%nat then inl CapacityNotPositive
  else if end_ns cfg <? start_ns cfg then inl EndPrecedesStart
  else inr (mkScheduler cfg (replicate n (new_owner cfg))).

(** [&mut self.owners[owner]]; an index out of range panics. *)
Definition on_owner {R} (self : VirtualOwnerScheduler) (owner : nat) (f : Owner → Owner * R)
    : option (VirtualOwnerScheduler * R) :=
  state ← owners self !! owner;
  let '(state', r) := f state in
  Some (self <| owners := <[owner := state']> (owners self) |>, r).

Definition enqueue_market self owner received k value :=
  on_owner self owner (owner_enqueue_market (config self) owner received k value).
Definition enqueue_private self owner received value :=
  on_owner self owner (owner_enqueue_private (config self) owner received value).
Definition prepend_market self owner received value :=
  on_owner self owner (owner_prepend_market (config self) owner received value).
Definition retire_owner_market self owner predicate :=
  on_owner self owner (λ state, (bump_epoch (retire predicate state), tt)).
Definition retire_market (self : VirtualOwnerScheduler) (should_retire : T → bool) : VirtualOwnerScheduler :=
  self <| owners := (λ state, retire should_retire (bump_epoch state)) <$> owners self |>.
Definition schedule_history self owner ready value :=
  on_owner self owner (λ state, (owner_schedule_history ready value state, tt)).
Definition suspend_owner self owner now_ns :=
  on_owner self owner (owner_suspend (config self) owner now_ns).
Definition rebase_private_recovery_receive self owner now_ns update :=
  on_owner self owner (λ state, (owner_rebase (config self) now_ns update state, tt)).
Definition resume_owner self owner now_ns :=
  on_owner self owner (λ state, (owner_resume (config self) now_ns state, tt)).
Definition discard_offline_market self owner :=
  on_owner self owner (λ state, (owner_discard state, tt)).
Definition private_matches self owner predicate : option bool :=
  owner_private_matches predicate <$> owners self !! owner.
Definition private_drained (self : VirtualOwnerScheduler) (owner : nat) : option bool :=
  owner_private_drained <$> owners self !! owner.

(** [visit] is called on each until it fails. *)
Fixpoint visit_all {S E} (visit : S → T → E + S) (l : list T) (s : S) : E + S :=
  match l with
  | [] => inr s
  | x :: l => match visit s x with inl e => inl e | inr s => visit_all visit l s end
  end.
Definition visit_unapplied_market {S E} (self : VirtualOwnerScheduler) (owner : nat)
    (visit : S → T → E + S) (s : S) : option (E + S) :=
  state ← owners self !! owner; Some (visit_all visit (unapplied_market state) s).

(** [iter().min()], and [None] for the time that never comes. *)
Definition peek_when (self : VirtualOwnerScheduler) : option Z :=
  match ready_for (config self) <$> owners self with
  | [] => None
  | r :: rs => let ts := fold_left Z.min rs r in
               if ts =? u64_max then None else Some ts
  end.

(** The owner with the least ready time by [now_ns], the first of them. *)
Fixpoint min_ready (now_ns : Z) (i : nat) (ready : list Z) : option (Z * nat) :=
  match ready with
  | [] => None
  | r :: ready =>
      let rest := min_ready now_ns (S i) ready in
      if r <=? now_ns
      then match rest with
           | Some (r', j) => if r <=? r' then Some (r, i) else Some (r', j)
           | None => Some (r, i)
           end
      else rest
  end.

Definition next_owner (self : VirtualOwnerScheduler) (now_ns : Z) : option nat :=
  snd <$> min_ready now_ns 0 (ready_for (config self) <$> owners self).

Definition step (self : VirtualOwnerScheduler) (now_ns : Z) : VirtualOwnerScheduler * option OwnerCompletion :=
  match next_owner self now_ns with
  | None => (self, None)
  | Some owner =>
      match on_owner self owner (owner_step (config self) owner now_ns) with
      | Some r => r
      | None => (self, None)
      end
  end.
End VirtualOwner.

Arguments Pending : clear implicits.
Arguments OwnerWork : clear implicits.
Arguments OwnerCompletion : clear implicits.
Arguments Owner : clear implicits.
Arguments VirtualOwnerScheduler : clear implicits.

(** ** Histories *)

Section histories.
Context {K T : Type} `{!EqDecision K}.
#[local] Abbreviation Scheduler := (VirtualOwnerScheduler K T).
#[local] Arguments Nat.ltb : simpl never.
#[local] Arguments Nat.eqb : simpl never.

Inductive Op :=
| OMarket (owner : nat) (received : Z) (k : option K) (value : T)
| OPrivate (owner : nat) (received : Z) (value : T)
| OPrepend (owner : nat) (received : Z) (value : T)
| ORetireOwner (owner : nat) (predicate : T → bool)
| ORetire (predicate : T → bool)
| OHistory (owner : nat) (ready : Z) (value : T)
| OSuspend (owner : nat) (now_ns : Z)
| ORebase (owner : nat) (now_ns : Z) (update : T → Z → T)
| OResume (owner : nat) (now_ns : Z)
| ODiscard (owner : nat)
| OStep (now_ns : Z).

Inductive Outcome := Done (error : option OwnerError) | Stepped (c : option (OwnerCompletion T)).

Definition quietly (r : option (Scheduler * unit)) : option (Scheduler * Outcome) :=
  '(s, _) ← r; Some (s, Done None).

Definition reported (r : option (Scheduler * option OwnerError)) : option (Scheduler * Outcome) :=
  '(s, e) ← r; Some (s, Done e).

Definition exec (s : Scheduler) (o : Op) : option (Scheduler * Outcome) :=
  match o with
  | OMarket owner received k value => reported (enqueue_market s owner received k value)
  | OPrivate owner received value => reported (enqueue_private s owner received value)
  | OPrepend owner received value => reported (prepend_market s owner received value)
  | ORetireOwner owner predicate => quietly (retire_owner_market s owner predicate)
  | ORetire predicate => Some (retire_market s predicate, Done None)
  | OHistory owner ready value => quietly (schedule_history s owner ready value)
  | OSuspend owner now_ns => reported (suspend_owner s owner now_ns)
  | ORebase owner now_ns update => quietly (rebase_private_recovery_receive s owner now_ns update)
  | OResume owner now_ns => quietly (resume_owner s owner now_ns)
  | ODiscard owner => quietly (discard_offline_market s owner)
  | OStep now_ns => let '(s, c) := step s now_ns in Some (s, Stepped c)
  end.

Fixpoint run (s : Scheduler) (ops : list Op) : option (Scheduler * list (Op * Outcome)) :=
  match ops with
  | [] => Some (s, [])
  | o :: ops => '(s, r) ← exec s o; '(s, log) ← run s ops; Some (s, (o, r) :: log)
  end.

(** The owner an operation names. *)
Definition target (o : Op) : option nat :=
  match o with
  | OMarket owner _ _ _ | OPrivate owner _ _ | OPrepend owner _ _ | ORetireOwner owner _ | OHistory owner _ _
  | OSuspend owner _ | ORebase owner _ _ | OResume owner _ | ODiscard owner => Some owner
  | ORetire _ | OStep _ => None
  end.

(** ** One owner at a time *)

(** What an operation other than a step does to the owner [i]. *)
Definition effect (cfg : OwnerScheduleConfig) (i : nat) (o : Op) (st : Owner K T) : Owner K T * option OwnerError :=
  match o with
  | OMarket _ received k value => owner_enqueue_market cfg i received k value st
  | OPrivate _ received value => owner_enqueue_private cfg i received value st
  | OPrepend _ received value => owner_prepend_market cfg i received value st
  | ORetireOwner _ predicate => (bump_epoch (retire predicate st), None)
  | ORetire predicate => (retire predicate (bump_epoch st), None)
  | OHistory _ ready value => (owner_schedule_history ready value st, None)
  | OSuspend _ now_ns => owner_suspend cfg i now_ns st
  | ORebase _ now_ns update => (owner_rebase cfg now_ns update st, None)
  | OResume _ now_ns => (owner_resume cfg now_ns st, None)
  | ODiscard _ => (owner_discard st, None)
  | OStep _ => (st, None)
  end.

Definition touches (o : Op) (i : nat) : Prop :=
  match o with OStep _ => False | ORetire _ => True | _ => target o = Some i end.

(** An event of the log that is not about the owner [i]. *)
Definition elsewhere (i : nat) (ev : Op * Outcome) : Prop :=
  match ev with
  | (OStep _, Stepped (Some c)) => c_owner c ≠ i
  | (OStep _, _) => True
  | (o, _) => ¬ touches o i
  end.

Lemma on_owner_lookup {R} (s s' : Scheduler) owner (f : Owner K T → Owner K T * R) r :
  on_owner s owner f = Some (s', r) →
  config s' = config s ∧ length (owners s') = length (owners s) ∧
  ∀ i st, owners s !! i = Some st →
    (owner = i ∧ owners s' !! i = Some (f st).1 ∧ r = (f st).2) ∨ (owner ≠ i ∧ owners s' !! i = Some st).
Proof.
  unfold on_owner. destruct (owners s !! owner) as [st|] eqn:Hst; [|done]. cbn.
  destruct (f st) as [st' r'] eqn:Hf. intros [= <- <-]. destruct s as [cfg os]. cbn in *.
  rewrite length_insert. do 2 (split; [done|]). intros i st1 Hi. destruct (decide (owner = i)) as [->|Hne].
  - left. rewrite Hst in Hi. injection Hi as <-. rewrite Hf.
    rewrite list_lookup_insert_eq by (by eapply lookup_lt_Some). done.
  - right. by rewrite list_lookup_insert_ne.
Qed.

Lemma exec_done s s' o r :
  exec s o = Some (s', r) → (∀ now, o ≠ OStep now) →
  config s' = config s ∧ length (owners s') = length (owners s) ∧
  ∀ i st, owners s !! i = Some st →
    (touches o i ∧ owners s' !! i = Some (effect (config s) i o st).1 ∧ r = Done (effect (config s) i o st).2)
    ∨ (¬ touches o i ∧ owners s' !! i = Some st).
Proof.
  intros E Hstep. destruct o; cbn in E; unfold reported, quietly in E; try (by destruct (Hstep now_ns));
    try (apply bind_Some in E as ([s1 e] & E & [= <- <-]); apply on_owner_lookup in E as (? & ? & H);
         do 2 (split; [done|]); intros i st Hi; destruct (H i st Hi) as [(-> & ? & ->)|[Hne ?]];
         [left; split; [done|]; split; done|right; split; [by intros [= ?]|done]]).
  injection E as <- <-. destruct s as [cfg os]. cbn. rewrite length_fmap. do 2 (split; [done|]).
  intros i st Hi. left. split; [done|]. by rewrite list_lookup_fmap, Hi.
Qed.

Lemma min_ready_spec now i l :
  match min_ready now i l with
  | Some (r, j) => ∃ k, j = (i + k)%nat ∧ l !! k = Some r ∧ r <= now ∧
      ∀ k' r', l !! k' = Some r' → r <= r' ∧ ((k' < k)%nat → r < r')
  | None => Forall (λ r, now < r) l
  end.
Proof.
  revert i. induction l as [|r l IH]; intros i; cbn [min_ready]; [done|]. specialize (IH (S i)).
  destruct (r <=? now) eqn:L; bool_hyps.
  - destruct (min_ready now (S i) l) as [[r1 j1]|].
    + destruct IH as (k & -> & Hk & Hr & Hmin). destruct (r <=? r1) eqn:C; bool_hyps.
      * exists 0%nat. rewrite Nat.add_0_r. do 3 (split; [done|]).
        intros [|k'] r' [= Hk'] || intros [|k'] r' Hk'; cbn in Hk'; [simplify_eq; lia|].
        apply Hmin in Hk' as [? _]. lia.
      * exists (S k). split; [lia|]. do 2 (split; [done|]).
        intros [|k'] r' Hk'; cbn in Hk'; [simplify_eq; lia|]. apply Hmin in Hk' as [? Hlt].
        split; [done|]. intros ?. apply Hlt. lia.
    + exists 0%nat. rewrite Nat.add_0_r. do 3 (split; [done|]).
      intros [|k'] r' Hk'; cbn in Hk'; [simplify_eq; lia|].
      rewrite Forall_lookup in IH. apply IH in Hk'. lia.
  - destruct (min_ready now (S i) l) as [[r1 j1]|]; [|by constructor].
    destruct IH as (k & -> & Hk & Hr & Hmin). exists (S k). split; [lia|]. do 2 (split; [done|]).
    intros [|k'] r' Hk'; cbn in Hk'; [simplify_eq; lia|]. apply Hmin in Hk' as [? Hlt].
    split; [done|]. intros ?. apply Hlt. lia.
Qed.

(** The owner served is ready, before every other and the first of its readiness. *)
Lemma next_owner_spec (s : Scheduler) now i :
  next_owner s now = Some i →
  ∃ st, owners s !! i = Some st ∧ ready_for (config s) st <= now ∧
    ∀ j st', owners s !! j = Some st' →
      ready_for (config s) st <= ready_for (config s) st' ∧
      ((j < i)%nat → ready_for (config s) st < ready_for (config s) st').
Proof.
  unfold next_owner. pose proof (min_ready_spec now 0 (ready_for (config s) <$> owners s)) as H.
  destruct (min_ready _ _ _) as [[r j]|]; [|done]. intros [= <-]. cbn in H.
  destruct H as (k & -> & Hk & Hr & Hmin). rewrite list_lookup_fmap in Hk.
  destruct (owners s !! k) as [st|] eqn:E; [|done]. injection Hk as <-.
  exists st. do 2 (split; [done|]). intros j st' Hj. apply (Hmin j). by rewrite list_lookup_fmap, Hj.
Qed.

Definition private_waits (now : Z) (st : Owner K T) : Prop := ∀ p ps, private st = p :: ps → now < ready_ns p.
Definition history_waits (now : Z) (st : Owner K T) : Prop := ∀ p, history st = Some p → now < ready_ns p.

(** Which lane is served, by priority. *)
Inductive served (cfg : OwnerScheduleConfig) (now : Z) (st : Owner K T)
    : Owner K T * option (Pending K T) * bool * bool → Prop :=
| ServePrivate p ps :
    private st = p :: ps → ready_ns p <= now → served cfg now st (st <| private := ps |>, Some p, true, false)
| ServeHistory p :
    private_waits now st → history st = Some p → ready_ns p <= now →
    served cfg now st (st <| history := None |>, Some p, false, true)
| ServeWatchdog :
    private_waits now st → history_waits now st → watchdog_due cfg now st = true →
    served cfg now st (st, None, false, false)
| ServeMarket :
    private_waits now st → history_waits now st → watchdog_due cfg now st = false →
    served cfg now st (st <| market := tail (market st) |>, head (market st), false, false).

Lemma take_input_served cfg now st : served cfg now st (take_input cfg now st).
Proof.
  unfold take_input. destruct (match private st with p :: _ => _ | [] => _ end) eqn:Ep.
  { destruct (private st) as [|p ps] eqn:E; [done|]. by apply ServePrivate; [|apply Z.leb_le]. }
  assert (private_waits now st) as Hp.
  { intros p ps E. rewrite E in Ep. by apply Z.leb_gt. }
  cbn [negb andb]. destruct (match history st with Some p => _ | None => _ end) eqn:Eh.
  { destruct (history st) as [p|] eqn:E; [|done]. by apply ServeHistory; [..|apply Z.leb_le]. }
  assert (history_waits now st) as Hh.
  { intros p E. rewrite E in Eh. by apply Z.leb_gt. }
  destruct (watchdog_due cfg now st) eqn:Ew; [by apply ServeWatchdog|by apply ServeMarket].
Qed.

Definition owned (s : Scheduler) : Prop :=
  ∀ i st r, owners s !! i = Some st → running st = Some r → c_owner r = i.

Lemma effect_running cfg i o (st : Owner K T) :
  running (effect cfg i o st).1 = running st ∨ running (effect cfg i o st).1 = None.
Proof.
  destruct o; cbn [effect fst]; try by left.
  - left. unfold owner_enqueue_market, push_market. repeat case_match; done.
  - left. unfold owner_enqueue_private. repeat case_match; done.
  - left. unfold owner_prepend_market. repeat case_match; done.
  - left. unfold owner_schedule_history. by case_match.
  - right. unfold owner_suspend, return_running. repeat case_match; done.
Qed.

Lemma effect_watchdog cfg i o (st : Owner K T) :
  (∀ j t, o ≠ OResume j t) → next_watchdog_ns (effect cfg i o st).1 = next_watchdog_ns st.
Proof.
  intros Ho. destruct o; cbn [effect fst]; try done; try (by destruct (Ho owner now_ns)).
  - unfold owner_enqueue_market, push_market. by repeat case_match.
  - unfold owner_enqueue_private. by repeat case_match.
  - unfold owner_prepend_market. by repeat case_match.
  - unfold owner_schedule_history. by case_match.
  - unfold owner_suspend, return_running. by repeat case_match.
Qed.

Lemma owner_step_owned cfg i now (st : Owner K T) :
  (∀ r, running st = Some r → c_owner r = i) →
  (∀ c, (owner_step cfg i now st).2 = Some c → c_owner c = i) ∧
  (∀ r, running (owner_step cfg i now st).1 = Some r → c_owner r = i).
Proof.
  intros H. unfold owner_step. destruct (running st) as [r0|] eqn:E; [split; [|done]; by intros c [= <-]; apply H|].
  assert (∀ received w pl hl (st0 : Owner K T), running st0 = None →
    (∀ c, (begin_service cfg i now received w pl hl st0).2 = Some c → c_owner c = i) ∧
    (∀ r, running (begin_service cfg i now received w pl hl st0).1 = Some r → c_owner r = i)) as Hb.
  { intros received w pl hl st0 E0. unfold begin_service. destruct (_ =? 0); cbn; split; intros ? ?; simplify_eq; done. }
  destruct (take_input_served cfg now st); try destruct (head _); by apply Hb.
Qed.

Lemma step_lookup (s s' : Scheduler) now c :
  owned s → step s now = (s', c) →
  config s' = config s ∧ length (owners s') = length (owners s) ∧
  ∀ i st, owners s !! i = Some st →
    (ready_for (config s) st <= now ∧ owners s' !! i = Some (owner_step (config s) i now st).1 ∧
     c = (owner_step (config s) i now st).2)
    ∨ (owners s' !! i = Some st ∧ ∀ c', c = Some c' → c_owner c' ≠ i).
Proof.
  intros Hown. unfold step. destruct (next_owner s now) as [j|] eqn:E.
  - apply next_owner_spec in E as (stj & Hj & Hr & _).
    destruct (on_owner _ _ _) as [[s1 c1]|] eqn:Ho.
    + intros [= <- <-]. pose proof (on_owner_lookup _ _ _ _ _ Ho) as (? & ? & Hl).
      do 2 (split; [done|]). intros i st Hi. destruct (Hl i st Hi) as [(-> & ? & ->)|[Hne ?]].
      * left. by rewrite Hi in Hj; simplify_eq.
      * right. split; [done|]. intros c' ->. destruct (Hl j stj Hj) as [(_ & _ & Hc)|[? _]]; [|done].
        destruct (owner_step_owned (config s) j now stj) as [Ho1 _]; [by intros r; apply Hown|].
        symmetry in Hc. apply Ho1 in Hc. congruence.
    + unfold on_owner in Ho. rewrite Hj in Ho. cbn in Ho. by destruct (owner_step _ _ _ _).
  - intros [= <- <-]. do 2 (split; [done|]). by right.
Qed.

Lemma step_or_not (o : Op) : (∃ now, o = OStep now) ∨ (∀ now, o ≠ OStep now).
Proof. destruct o; first [left; by eexists|right; by intros]. Qed.

Lemma exec_length s s' o r : owned s → exec s o = Some (s', r) → length (owners s') = length (owners s).
Proof.
  intros Hown E. destruct (step_or_not o) as [[now ->]|Ho].
  - cbn in E. destruct (step s now) as [s1 c] eqn:Es. injection E as <- <-. by apply step_lookup in Es as (? & ? & _).
  - by apply exec_done in E as (? & ? & _).
Qed.

Lemma run_ops s ops s' log : run s ops = Some (s', log) → log.*1 = ops.
Proof.
  revert s log. induction ops as [|o ops IH]; intros s log; cbn [run]; [by intros [= _ <-]|].
  intros E. apply bind_Some in E as ([s1 r] & _ & E). apply bind_Some in E as ([s2 log2] & E2 & [= -> <-]).
  cbn. f_equal. by eapply IH.
Qed.

(** *** Invariants of histories *)

Section invariant.
Context (cfg : OwnerScheduleConfig) (P : nat → Owner K T → list (Op * Outcome) → Prop).
Hypothesis Heffect : ∀ i st log o,
  P i st log → touches o i → P i (effect cfg i o st).1 (log ++ [(o, Done (effect cfg i o st).2)]).
Hypothesis Helsewhere : ∀ i st log ev, P i st log → elsewhere i ev → P i st (log ++ [ev]).
Hypothesis Hserve : ∀ i st log now,
  P i st log → ready_for cfg st <= now → (∀ c, (owner_step cfg i now st).2 = Some c → c_owner c = i) →
  P i (owner_step cfg i now st).1 (log ++ [(OStep now, Stepped (owner_step cfg i now st).2)]).

Definition holds (s : Scheduler) (log : list (Op * Outcome)) : Prop :=
  config s = cfg ∧ owned s ∧ ∀ i st, owners s !! i = Some st → P i st log.

Lemma lookup_back (s s' : Scheduler) i st' :
  length (owners s') = length (owners s) → owners s' !! i = Some st' → ∃ st, owners s !! i = Some st.
Proof. intros Hl Hi. apply lookup_lt_Some in Hi. rewrite Hl in Hi. by apply lookup_lt_is_Some_2 in Hi. Qed.

Lemma exec_holds s s' log o r :
  holds s log → exec s o = Some (s', r) → holds s' (log ++ [(o, r)]).
Proof.
  intros (Hcfg & Hown & HP) E.
  destruct (step_or_not o) as [[now ->]|Ho].
  - cbn in E. destruct (step s now) as [s1 c] eqn:Es. injection E as <- <-.
    apply step_lookup in Es as (Hc & Hl & Hs); [|done]. rewrite Hcfg in Hc, Hs. split; [done|].
    split; intros i st; [intros r1 Hi Hr|intros Hi]; destruct (lookup_back _ _ _ _ Hl Hi) as [st0 H0];
      destruct (Hs i st0 H0) as [(Hready & H1 & ->)|[H1 Hne]]; rewrite H1 in Hi; injection Hi as <-.
    + destruct (owner_step_owned cfg i now st0) as [_ H2]; [by intros ?; apply Hown|]. by apply H2.
    + by apply (Hown i st0).
    + apply Hserve; [by apply HP|done|].
      destruct (owner_step_owned cfg i now st0) as [H2 _]; [by intros ?; apply Hown|]. done.
    + apply Helsewhere; [by apply HP|]. cbn. destruct c as [c|]; [by apply Hne|done].
  - apply exec_done in E as (Hc & Hl & Hs); [|done]. rewrite Hcfg in Hc, Hs. split; [done|].
    split; intros i st; [intros r1 Hi Hr|intros Hi]; destruct (lookup_back _ _ _ _ Hl Hi) as [st0 H0];
      destruct (Hs i st0 H0) as [(Ht & H1 & ->)|[Ht H1]]; rewrite H1 in Hi; injection Hi as <-.
    + destruct (effect_running cfg i o st0) as [H2|H2]; rewrite H2 in Hr; [|done]. by apply (Hown i st0).
    + by apply (Hown i st0).
    + apply Heffect; [by apply HP|done].
    + apply Helsewhere; [by apply HP|]. destruct o; try done. by destruct (Ho now_ns).
Qed.

Lemma run_holds ops s s' log0 log :
  holds s log0 → run s ops = Some (s', log) → holds s' (log0 ++ log).
Proof.
  revert s log0 log. induction ops as [|o ops IH]; intros s log0 log H; cbn [run].
  - intros [= <- <-]. by rewrite app_nil_r.
  - intros E. apply bind_Some in E as ([s1 r] & E1 & E). apply bind_Some in E as ([s2 log2] & E2 & [= -> <-]).
    rewrite cons_middle, app_assoc. eapply IH; [|done]. by eapply exec_holds.
Qed.

Lemma run_new_holds n s ops s' log :
  new n cfg = inr s → (∀ i, P i (new_owner cfg) []) → run s ops = Some (s', log) → holds s' log.
Proof.
  intros Hn H0 E. apply (run_holds ops s s' []); [|done]. unfold new in Hn. repeat case_match; simplify_eq.
  split; [done|]. split; intros i st; [intros r|]; intros [-> _]%lookup_replicate; [done|]. apply H0.
Qed.
End invariant.

Lemma run_length s ops s' log : owned s → run s ops = Some (s', log) → length (owners s') = length (owners s).
Proof.
  revert s log. induction ops as [|o ops IH]; intros s log Hown; cbn [run]; [by intros [= <- _]|].
  intros E. apply bind_Some in E as ([s1 r] & E1 & E). apply bind_Some in E as ([s2 log2] & E2 & [= -> <-]).
  rewrite <- (exec_length s s1 o r) by done. eapply IH; [|done].
  by destruct (exec_holds (config s) (λ _ _ _, True) ltac:(done) ltac:(done) ltac:(done) s s1 [] o r) as (_ & ? & _).
Qed.

Lemma new_owned n cfg (s : Scheduler) : new n cfg = inr s → owned s ∧ length (owners s) = n.
Proof.
  unfold new. intros Hn. repeat case_match; simplify_eq. split; [|apply length_replicate].
  by intros i st r [-> _]%lookup_replicate.
Qed.

(** A history of operations on existing owners runs to its end. *)
Lemma run_total n ops s :
  length (owners s) = n → owned s → Forall (λ o, ∀ i, target o = Some i → (i < n)%nat) ops → is_Some (run s ops).
Proof.
  intros Hn Hown Hops. revert s Hn Hown. induction Hops as [|o ops Ho Hops IH]; intros s Hn Hown; [done|]. cbn [run].
  assert (is_Some (exec s o)) as [[s1 r] E].
  { assert (∀ R i (f : Owner K T → Owner K T * R), target o = Some i → is_Some (on_owner s i f)) as H.
    { intros R i f Hi. apply Ho in Hi. rewrite <- Hn in Hi. apply lookup_lt_is_Some_2 in Hi as [st Hi].
      unfold on_owner. rewrite Hi. cbn. by destruct (f st). }
    destruct o; cbn [exec]; unfold reported, quietly; try done;
      try (by destruct (step s _));
      (edestruct H as [[??] Hx]; [done|]; unfold enqueue_market, enqueue_private, prepend_market, retire_owner_market,
         schedule_history, suspend_owner, rebase_private_recovery_receive, resume_owner, discard_offline_market;
       rewrite Hx; done). }
  rewrite E. cbn.
  destruct (exec_holds (config s) (λ _ _ _, True) ltac:(done) ltac:(done) ltac:(done) s s1 [] o r) as (_ & Hown1 & _);
    [done|done|].
  destruct (IH s1) as [[s2 log] ->]; [|done|done]. by rewrite (exec_length s s1 o r).
Qed.

(** *** The private lane *)

Section private.
Context {I : Type} (ident : T → I).

Definition event_ident (w : OwnerWork T) : list I := match w with Event p => [ident p] | Watchdog => [] end.
Definition private_ident (c : OwnerCompletion T) : list I := if private_lane c then event_ident (work c) else [].
Definition in_service (st : Owner K T) : list I := match running st with Some r => private_ident r | None => [] end.
Definition waiting (st : Owner K T) : list I := (λ p, ident (payload p)) <$> private st.

(** The private events an owner accepted, and those whose callback completed. *)
Definition accepts (i : nat) (ev : Op * Outcome) : list I :=
  match ev with
  | (OPrivate j _ value, Done None) => if decide (j = i) then [ident value] else []
  | _ => []
  end.
Definition delivers (i : nat) (ev : Op * Outcome) : list I :=
  match ev with
  | (OStep _, Stepped (Some c)) => if decide (c_owner c = i) then private_ident c else []
  | _ => []
  end.
Definition accepted (i : nat) (log : list (Op * Outcome)) : list I := log ≫= accepts i.
Definition delivered (i : nat) (log : list (Op * Outcome)) : list I := log ≫= delivers i.

(** A recovery rewrites times, not identities. *)
Definition keeps_identity (o : Op) : Prop :=
  match o with ORebase _ _ update => ∀ p now, ident (update p now) = ident p | _ => True end.

(** The replay goes on: no suspension overflowed the spool. *)
Definition goes_on (ev : Op * Outcome) : Prop :=
  match ev with (OSuspend _ _, Done (Some _)) => False | _ => True end.

Lemma begin_private cfg i now received w pl hl st :
  running st = None →
  let r := begin_service cfg i now received w pl hl st in
  default [] (private_ident <$> r.2) ++ in_service r.1 ++ waiting r.1 = (if pl then event_ident w else []) ++ waiting st.
Proof.
  intros Hr. unfold begin_service, in_service. destruct (_ =? 0); cbn; rewrite ?Hr; done.
Qed.

Lemma owner_step_private cfg i now st :
  let r := owner_step cfg i now st in
  default [] (private_ident <$> r.2) ++ in_service r.1 ++ waiting r.1 = in_service st ++ waiting st.
Proof.
  unfold owner_step. destruct (running st) as [c|] eqn:Hr; [by unfold in_service; rewrite Hr|].
  assert (in_service st = []) as -> by (unfold in_service; by rewrite Hr).
  destruct (take_input_served cfg now st) as [p ps E|p|?|?]; try destruct (head _);
    rewrite begin_private by done; try done. unfold waiting. cbn. by rewrite E.
Qed.

Lemma push_market_private cfg i received k value (st : Owner K T) :
  running (push_market cfg i st received k value).1 = running st ∧
  private (push_market cfg i st received k value).1 = private st.
Proof. unfold push_market. by case_match. Qed.

Lemma effect_private cfg i o st :
  keeps_identity o → goes_on (o, Done (effect cfg i o st).2) → touches o i →
  in_service (effect cfg i o st).1 ++ waiting (effect cfg i o st).1 =
  in_service st ++ waiting st ++ accepts i (o, Done (effect cfg i o st).2).
Proof.
  intros Hk Hg Ht. unfold in_service, waiting. destruct o; cbn [effect fst snd accepts] in *;
    rewrite ?app_nil_r; try done.
  - unfold owner_enqueue_market. destruct k as [k|]; [destruct (coalesce _ _ _ _); [done|]|].
    + by destruct (push_market_private cfg i received (Some k) value (note_received st)) as [-> ->].
    + by destruct (push_market_private cfg i received None value (bump_epoch (note_received st))) as [-> ->].
  - unfold owner_enqueue_private. injection Ht as ->. destruct (_ =? _)%nat; cbn; [by rewrite app_nil_r|].
    rewrite decide_True, fmap_app by done. done.
  - unfold owner_prepend_market. by destruct (_ =? _)%nat.
  - unfold owner_schedule_history. by destruct (history st).
  - unfold owner_suspend in *. cbn in *. destruct (running st) as [c|] eqn:Er; [|cbn; by rewrite Er].
    unfold return_running, private_ident in *. cbn in *. destruct (private_lane c); [|destruct (history_lane c)].
    + destruct (_ <? _)%nat; [|done]. by destruct (work c).
    + by destruct (history st), (work c).
    + done.
  - unfold owner_rebase. cbn. f_equal. rewrite <- list_fmap_compose. apply list_fmap_ext. intros ? p _. apply Hk.
Qed.

(** The private lane of an owner after a history. *)
Definition lane_inv (i : nat) (st : Owner K T) (log : list (Op * Outcome)) : Prop :=
  Forall (λ ev, keeps_identity ev.1 ∧ goes_on ev) log →
  delivered i log ++ in_service st ++ waiting st = accepted i log.

Lemma elsewhere_private i ev : elsewhere i ev → accepts i ev = [] ∧ delivers i ev = [].
Proof.
  destruct ev as [o r]. destruct o, r as [[e|]|[c|]]; cbn; intros H; rewrite ?decide_False by congruence; done.
Qed.

Lemma lane_inv_holds n cfg s ops s' log :
  new n cfg = inr s → run s ops = Some (s', log) → holds cfg lane_inv s' log.
Proof.
  intros Hn Hrun. eapply (run_new_holds cfg lane_inv); [..|done| |done].
  - intros i st log0 o IH Ht Hall. apply Forall_app in Hall as [Hall [[Hk Hg] _]%Forall_cons].
    specialize (IH Hall). unfold accepted, delivered in *. rewrite !bind_app. cbn [mbind list_bind].
    assert (delivers i (o, Done (effect cfg i o st).2) = []) as -> by by destruct o.
    rewrite !app_nil_r, effect_private, <- IH by done. by rewrite <- !app_assoc.
  - intros i st log0 ev IH He Hall. unfold accepted, delivered. rewrite !bind_app. cbn [mbind list_bind].
    apply elsewhere_private in He as [-> ->]. rewrite !app_nil_r. apply IH. by apply Forall_app in Hall as [? _].
  - intros i st log0 now IH Hr Hc Hall. apply Forall_app in Hall as [Hall _]. specialize (IH Hall).
    unfold accepted, delivered in *. rewrite !bind_app. cbn [mbind list_bind accepts]. rewrite !app_nil_r.
    rewrite <- IH, <- app_assoc. f_equal.
    rewrite <- (owner_step_private cfg i now st). f_equal.
    destruct (owner_step cfg i now st).2 as [c|] eqn:Ec; [|done]. cbn. by rewrite decide_True by by apply Hc.
  - intros i _. done.
Qed.

Lemma replace_latest_length current received k value (l l' : list (Pending K T)) :
  replace_latest current received k value l = Some l' → length l' = length l.
Proof.
  revert l'. induction l as [|p l IH]; intros l'; cbn; [done|].
  destruct (_ =? _); [|done]. destruct (bool_decide _); [by intros [= <-]|].
  destruct (replace_latest _ _ _ _ _) as [l1|]; [|done]. intros [= <-]. cbn. by rewrite (IH l1).
Qed.

(** The lanes of an owner within their capacity. *)
Definition bounded (cfg : OwnerScheduleConfig) (st : Owner K T) : Prop :=
  (length (market st) <= capacity cfg)%nat ∧ (length (private st) <= capacity cfg)%nat.

Lemma push_market_bounded cfg i received k value (st : Owner K T) :
  bounded cfg st → bounded cfg (push_market cfg i st received k value).1.
Proof.
  intros [Hm Hp]. unfold push_market. destruct (_ =? _)%nat eqn:E; [done|].
  apply Nat.eqb_neq in E. split; cbn; rewrite ?length_app; cbn; lia.
Qed.

Lemma effect_bounded cfg i o (st : Owner K T) : bounded cfg st → bounded cfg (effect cfg i o st).1.
Proof.
  intros H. pose proof H as [Hm Hp]. destruct o; cbn [effect fst]; try done.
  - unfold owner_enqueue_market. destruct k as [k|]; [|by apply push_market_bounded].
    destruct (coalesce _ _ _ _) as [l|] eqn:E; [|by apply push_market_bounded]. split; [cbn|done].
    unfold coalesce in E. apply fmap_Some in E as (l1 & E & ->). apply replace_latest_length in E.
    rewrite !length_reverse in *. cbn in E. lia.
  - unfold owner_enqueue_private. destruct (_ =? _)%nat eqn:E; [done|]. apply Nat.eqb_neq in E.
    split; cbn in *; rewrite ?length_app; cbn; lia.
  - unfold owner_prepend_market. destruct (_ =? _)%nat eqn:E; [done|]. apply Nat.eqb_neq in E. split; cbn in *; lia.
  - split; [|done]. cbn. pose proof (List.filter_length_le (λ p, negb (predicate (payload p))) (market st)). lia.
  - split; [|done]. cbn. pose proof (List.filter_length_le (λ p, negb (predicate (payload p))) (market st)). lia.
  - unfold owner_schedule_history. by case_match.
  - unfold owner_suspend. cbn. destruct (running st) as [c|]; [|by split; cbn; [lia|]].
    unfold return_running. destruct (private_lane c); [|destruct (history_lane c)].
    + destruct (_ <? _)%nat eqn:E; [apply Nat.ltb_lt in E|]; destruct (work c); split; cbn in *; lia.
    + destruct (history _), (work c); split; cbn; lia.
    + split; cbn; lia.
  - split; cbn; rewrite ?length_fmap; done.
Qed.

Lemma begin_bounded cfg i now received w pl hl (st : Owner K T) :
  bounded cfg st → bounded cfg (begin_service cfg i now received w pl hl st).1.
Proof. intros H. unfold begin_service. by destruct (_ =? 0). Qed.

Lemma owner_step_bounded cfg i now (st : Owner K T) : bounded cfg st → bounded cfg (owner_step cfg i now st).1.
Proof.
  intros [Hm Hp]. unfold owner_step. destruct (running st) as [c|]; [done|].
  assert (bounded cfg (st <| market := tail (market st) |>)) as Ht.
  { split; [|done]. cbn. destruct (market st); cbn in *; lia. }
  destruct (take_input_served cfg now st) as [p ps E|p|?|?]; try destruct (head _); apply begin_bounded; try done.
  split; [done|]. cbn. rewrite E in Hp. cbn in Hp. lia.
Qed.

(** A callback of the private lane in service has an event. *)
Definition private_work (st : Owner K T) : Prop :=
  ∀ r, running st = Some r → private_lane r = true → ∃ p, work r = Event p.

Lemma owner_step_private_work cfg i now st : private_work st → private_work (owner_step cfg i now st).1.
Proof.
  intros H. unfold owner_step. destruct (running st) as [c|] eqn:E; [done|].
  assert (∀ received w hl (st0 : Owner K T) pl, running st0 = None → (pl = true → ∃ p, w = Event p) →
    private_work (begin_service cfg i now received w pl hl st0).1) as Hb.
  { intros received w hl st0 pl E0 Hw. unfold begin_service, private_work. destruct (_ =? 0); cbn; intros r Hr Hpl.
    - congruence.
    - simplify_eq. by apply Hw. }
  destruct (take_input_served cfg now st); try destruct (head _); apply Hb; eauto; done.
Qed.

Lemma lanes_hold n cfg s ops s' log :
  new n cfg = inr s → run s ops = Some (s', log) →
  holds cfg (λ _ st _, bounded cfg st ∧ private_work st) s' log.
Proof.
  intros Hn Hrun. eapply run_new_holds; [..|done| |done]; cbn.
  - intros i st _ o [Hb Hw] _. split; [by apply effect_bounded|]. intros r Hr.
    destruct (effect_running cfg i o st) as [E|E]; rewrite E in Hr; [by apply Hw|done].
  - done.
  - intros i st _ now [Hb Hw] _ _. split; [by apply owner_step_bounded|by apply owner_step_private_work].
  - intros _. split; [split; cbn; lia|done].
Qed.

Lemma drained_iff st :
  private_work st → owner_private_drained st = true ↔ in_service st ++ waiting st = [].
Proof.
  intros Hw. unfold owner_private_drained, in_service, waiting, private_ident.
  destruct (private st) as [|p ps]; cbn; [|split; [done|]; intros []%app_nil; done].
  rewrite app_nil_r, negb_true_iff. destruct (running st) as [r|] eqn:Er; [|done].
  destruct (private_lane r) eqn:Ep; [|done]. by destruct (Hw r Er Ep) as [x ->].
Qed.

(** C29: private events are delivered in order, each once, through suspensions.  A
    history of operations on existing owners runs to its end; unless a suspension
    overflows the spool, the private events an owner accepted are those it completed,
    the one in service and those that wait, in this order; [private_drained] says
    exactly that all are completed; and both lanes stay within their capacity. *)
Theorem private_lane_lossless n cfg s ops :
  new n cfg = inr s → Forall (λ o, ∀ i, target o = Some i → (i < n)%nat) ops → Forall keeps_identity ops →
  ∃ s' log, run s ops = Some (s', log) ∧
    ∀ i st, owners s' !! i = Some st →
      bounded cfg st ∧
      (Forall goes_on log →
        delivered i log ++ in_service st ++ waiting st = accepted i log ∧
        (private_drained s' i = Some true ↔ delivered i log = accepted i log)).
Proof.
  intros Hn Htarget Hk. destruct (new_owned n cfg s Hn) as [Hown Hlen].
  destruct (run_total n ops s) as [[s' log] Hrun]; [done..|].
  exists s', log. split; [done|]. intros i st Hi.
  pose proof (lanes_hold n cfg s ops s' log Hn Hrun) as (_ & _ & Hb). destruct (Hb i st Hi) as [Hbi Hw].
  split; [done|]. intros Hg.
  pose proof (lane_inv_holds n cfg s ops s' log Hn Hrun) as (_ & _ & Hl).
  assert (Forall (λ ev, keeps_identity ev.1 ∧ goes_on ev) log) as Hall.
  { apply Forall_and. split; [|done]. apply (Forall_fmap fst keeps_identity log). by rewrite (run_ops _ _ _ _ Hrun). }
  specialize (Hl i st Hi Hall). split; [done|]. unfold private_drained. rewrite Hi. cbn.
  rewrite (inj_iff Some), drained_iff, <- Hl by done. split; [by intros ->; rewrite app_nil_r|].
  intros E. symmetry in E. apply (app_inv_head (delivered i log)). by rewrite app_nil_r.
Qed.
End private.

(** *** Time *)

(** An owner is ready, and neither a private event, nor the history job, nor the
    watchdog is what made it so: its market head is eligible.  (An eligibility that
    saturated counts as none in [ready_for] but is served all the same.) *)
Lemma market_eligible cfg now (st : Owner K T) :
  now < u64_max → ready_for cfg st <= now → running st = None →
  private_waits now st → history_waits now st → watchdog_due cfg now st = false →
  ∃ p ps, market st = p :: ps ∧ (ready_ns p <= now ∨ ready_ns p = u64_max).
Proof.
  intros Hnow Hr Hrun Hp Hh Hw. unfold ready_for in Hr. rewrite Hrun in Hr.
  destruct (paused_until_ns st =? u64_max); [lia|].
  assert (now < front_ready (private st)) by (unfold front_ready; destruct (private st) eqn:E; [done|by eapply Hp]).
  assert (now < history_ready st) by (unfold history_ready; destruct (history st) eqn:E; [by apply Hh|done]).
  assert (front_ready (market st) <= now ∨ watchdog_ready cfg st <= now) as [Hm|Hm] by lia.
  - destruct (market st) as [|p ps]; cbn in Hm; [lia|]. eauto.
  - unfold watchdog_ready in Hm. destruct (_ <=? _) eqn:E1; [|lia]. unfold watchdog_due in Hw. rewrite E1 in Hw.
    assert (next_watchdog_ns st <= now) as E2 by (destruct (negb _); lia).
    apply Z.leb_le in E2. rewrite E2 in Hw. destruct (market st) as [|p ps]; [done|]. cbn in Hw, Hm.
    exists p, ps. split; [done|]. destruct (ready_ns p =? u64_max) eqn:E3; bool_hyps; [by right|]. exfalso.
    cbn in Hm. unfold saturating_sub, saturating_add in *. lia.
Qed.

(** The time an operation happens at; a history job is scheduled ahead. *)
Definition op_time (o : Op) : option Z :=
  match o with
  | OMarket _ t _ _ | OPrivate _ t _ | OPrepend _ t _ | OSuspend _ t | ORebase _ t _ | OResume _ t | OStep t => Some t
  | ORetireOwner _ _ | ORetire _ | OHistory _ _ _ | ODiscard _ => None
  end.

Definition clock (t : Z) (ops : list Op) : Z := fold_left (λ t o, default t (op_time o)) ops t.

(** The clock never goes back. *)
Fixpoint clocked (t : Z) (ops : list Op) : Prop :=
  match ops with
  | [] => True
  | o :: ops =>
      match op_time o with Some t' => t <= t' < u64_max | None => True end ∧ clocked (default t (op_time o)) ops
  end.

Lemma clocked_snoc t ops o :
  clocked t (ops ++ [o]) ↔
  clocked t ops ∧ match op_time o with Some t' => clock t ops <= t' < u64_max | None => True end.
Proof.
  revert t. induction ops as [|o' ops IH]; intros t; cbn; [tauto|]. rewrite IH. unfold clock. cbn. tauto.
Qed.

Lemma clock_snoc t ops o : clock t (ops ++ [o]) = default (clock t ops) (op_time o).
Proof. unfold clock. by rewrite fold_left_app. Qed.

(** The completions of an owner, with the time of the step that returned them. *)
Definition completes (i : nat) (ev : Op * Outcome) : list (Z * OwnerCompletion T) :=
  match ev with
  | (OStep now, Stepped (Some c)) => if decide (c_owner c = i) then [(now, c)] else []
  | _ => []
  end.
Definition completions (i : nat) (log : list (Op * Outcome)) : list (Z * OwnerCompletion T) := log ≫= completes i.

(** A callback took its input from the past and lasted the service time. *)
Definition timely (cfg : OwnerScheduleConfig) (x : Z * OwnerCompletion T) : Prop :=
  c_received_ns x.2 <= apply_ns x.2 ∧ completed_ns x.2 = apply_ns x.2 +s service_time_ns cfg ∧ completed_ns x.2 <= x.1.

Definition before (x y : Z * OwnerCompletion T) : Prop := x.1 <= apply_ns y.2.

Record timed (cfg : OwnerScheduleConfig) (t : Z) (cs : list (Z * OwnerCompletion T)) (st : Owner K T) : Prop := {
  timed_market : Forall (λ p, received_ns p <= t) (market st);
  timed_private : Forall (λ p, received_ns p <= t) (private st);
  timed_history : ∀ p, history st = Some p → received_ns p <= Z.max t (ready_ns p);
  timed_running : ∀ r, running st = Some r →
    c_received_ns r <= apply_ns r ∧ apply_ns r <= t ∧ completed_ns r = apply_ns r +s service_time_ns cfg ∧
    Forall (λ x, before x (0, r)) cs;
  timed_past : Forall (λ x, x.1 <= t) cs;
  timed_completions : Forall (timely cfg) cs ∧ StronglySorted before cs }.

Lemma timed_later cfg t t' cs st : t <= t' → timed cfg t cs st → timed cfg t' cs st.
Proof.
  intros Ht []. split; try done.
  - eapply Forall_impl; [done|]. cbn. lia.
  - eapply Forall_impl; [done|]. cbn. lia.
  - intros p Hp. apply timed_history0 in Hp. lia.
  - intros r Hr. apply timed_running0 in Hr as (? & ? & ? & ?). repeat split; [lia..|done].
  - eapply Forall_impl; [done|]. cbn. lia.
Qed.

(** A completion, if any, as the log will show it. *)
Definition shown (now : Z) (c : option (OwnerCompletion T)) : list (Z * OwnerCompletion T) :=
  match c with Some c => [(now, c)] | None => [] end.

Lemma timed_snoc cfg now c cs st :
  timed cfg now cs st → running st = None → timely cfg (now, c) → Forall (λ x, before x (0, c)) cs →
  timed cfg now (cs ++ [(now, c)]) st.
Proof.
  intros [] Hr Hc Hb. destruct timed_completions0. split; try done.
  - by rewrite Hr.
  - apply Forall_app. split; [done|]. constructor; [cbn; lia|done].
  - split; [apply Forall_app; split; [done|by constructor]|]. by apply StronglySorted_snoc.
Qed.

Lemma begin_timed cfg i now received w pl hl cs st :
  timed cfg now cs st → running st = None → received <= now →
  let r := begin_service cfg i now received w pl hl st in timed cfg now (cs ++ shown now r.2) r.1.
Proof.
  intros H Hr Hrec. pose proof (timed_past _ _ _ _ H) as Hp. unfold begin_service. destruct (_ =? 0) eqn:E; cbn.
  - apply timed_snoc; [by destruct H|done| |done]. apply Z.eqb_eq in E. unfold timely. cbn.
    rewrite E. unfold saturating_add. split; [done|]. split; [done|lia].
  - rewrite app_nil_r. destruct H. split; try done. cbn. intros r [= <-]. cbn. repeat split; [done..|lia|done].
Qed.

Lemma owner_step_timed cfg i now t cs st :
  t <= now < u64_max → timed cfg t cs st → ready_for cfg st <= now →
  timed cfg now (cs ++ shown now (owner_step cfg i now st).2) (owner_step cfg i now st).1.
Proof.
  intros [Ht Hnow] H0 Hready. pose proof (timed_later _ _ _ _ _ Ht H0) as H. clear H0.
  unfold owner_step. destruct (running st) as [c|] eqn:Hr.
  - cbn [fst snd shown]. destruct (timed_running _ _ _ _ H c Hr) as (H1 & H2 & H3 & H4).
    apply timed_snoc; [by destruct H|done| |done]. split; [done|]. split; [done|].
    unfold ready_for in Hready. rewrite Hr in Hready. cbn. destruct (_ =? _); lia.
  - destruct (take_input_served cfg now st) as [p ps E Hp|p Hp E Hh|Hp Hh Hw|Hp Hh Hw].
    + apply begin_timed; [|done|].
      * destruct H. split; try done. cbn. rewrite E in timed_private0. by apply Forall_cons in timed_private0 as [_ ?].
      * destruct H. rewrite E in timed_private0. by apply Forall_cons in timed_private0 as [? _].
    + apply begin_timed; [by destruct H; split|done|]. destruct H. apply timed_history0 in E. lia.
    + apply begin_timed; [by destruct H; split|done|]. unfold watchdog_due in Hw. bool_hyps. lia.
    + destruct (market_eligible cfg now st) as (p & ps & E & _); [done..|]. rewrite E. cbn [head tail].
      destruct H. rewrite E in timed_market0. apply Forall_cons in timed_market0 as [? ?].
      apply begin_timed; [by split|done|done].
Qed.

Lemma replace_latest_timed current received k value t (l l' : list (Pending K T)) :
  received <= t → Forall (λ p, received_ns p <= t) l → replace_latest current received k value l = Some l' →
  Forall (λ p, received_ns p <= t) l'.
Proof.
  intros Hr Hl. revert l'. induction Hl as [|p l Hp Hl IH]; intros l'; cbn; [done|].
  destruct (_ =? _); [|done]. destruct (bool_decide _); [intros [= <-]; by constructor|].
  destruct (replace_latest _ _ _ _ _) as [l1|]; [|done]. intros [= <-]. constructor; auto.
Qed.

Lemma Forall_List_filter {A} (P : A → Prop) (f : A → bool) l : Forall P l → Forall P (List.filter f l).
Proof. induction 1; cbn; [done|]. destruct (f x); [by constructor|done]. Qed.

Lemma push_market_timed cfg i received k value t cs st :
  received <= t → timed cfg t cs st → timed cfg t cs (push_market cfg i st received k value).1.
Proof.
  intros Hr []. unfold push_market. destruct (_ =? _)%nat; split; try done. cbn. apply Forall_app. split; [done|].
  by constructor.
Qed.

Lemma effect_timed cfg i o t cs st :
  (∀ t', op_time o = Some t' → t' = t) → timed cfg t cs st → timed cfg t cs (effect cfg i o st).1.
Proof.
  intros Ho H. destruct o; cbn [effect fst op_time] in *; try (specialize (Ho _ eq_refl)); try (by destruct H; split).
  - unfold owner_enqueue_market. destruct k as [k|]; [destruct (coalesce _ _ _ _) as [l|] eqn:E|].
    + destruct H. split; try done. cbn. unfold coalesce in E. apply fmap_Some in E as (l1 & E & ->).
      apply Forall_reverse. eapply replace_latest_timed; [..|exact E]; [lia|]. by apply Forall_reverse.
    + apply push_market_timed; [lia|by destruct H; split].
    + apply push_market_timed; [lia|by destruct H; split].
  - unfold owner_enqueue_private. destruct H. destruct (_ =? _)%nat; split; try done. cbn. apply Forall_app.
    split; [done|]. constructor; [cbn; lia|done].
  - unfold owner_prepend_market. destruct H. destruct (_ =? _)%nat; split; try done. cbn. constructor; [cbn; lia|done].
  - destruct H. split; try done. cbn. by apply Forall_List_filter.
  - destruct H. split; try done. cbn. by apply Forall_List_filter.
  - unfold owner_schedule_history. destruct H. destruct (history st); split; try done; cbn; intros q [= <-]; cbn; lia.
  - subst. unfold owner_suspend. cbn. destruct (running st) as [r|] eqn:Hr; [|by destruct H; split].
    destruct H. destruct (timed_running0 r Hr) as (? & ? & _). unfold return_running. cbn.
    destruct (private_lane r); [|destruct (history_lane r)].
    + destruct (_ <? _)%nat, (work r); split; try done; cbn; constructor; cbn; try done; lia.
    + destruct (history st) eqn:Hh, (work r); split; try done; cbn; rewrite ?Hh; try done. intros q [= <-]. cbn. lia.
    + by split.
  - subst. destruct H. split; try done. cbn. rewrite Forall_fmap. apply Forall_true. intros p. cbn. lia.
Qed.

Lemma elsewhere_completes i ev : elsewhere i ev → completes i ev = [].
Proof. destruct ev as [o r]. destruct o, r as [[e|]|[c|]]; cbn; intros H; rewrite ?decide_False by done; done. Qed.

Definition time_inv (cfg : OwnerScheduleConfig) (i : nat) (st : Owner K T) (log : list (Op * Outcome)) : Prop :=
  clocked 0 log.*1 → timed cfg (clock 0 log.*1) (completions i log) st.

Lemma time_holds n cfg s ops s' log :
  new n cfg = inr s → run s ops = Some (s', log) → holds cfg (time_inv cfg) s' log.
Proof.
  intros Hn Hrun. eapply run_new_holds; [..|done| |done]; unfold time_inv.
  - intros i st log0 o IH Ht. rewrite fmap_app. cbn [fmap list_fmap fst]. rewrite clocked_snoc, clock_snoc.
    intros [Hc Ho]. unfold completions in *. rewrite bind_app. cbn [mbind list_bind].
    assert (completes i (o, Done (effect cfg i o st).2) = []) as -> by by destruct o. rewrite !app_nil_r.
    apply effect_timed; [by intros t' ->|]. eapply timed_later; [|by apply IH]. destruct (op_time o); cbn; lia.
  - intros i st log0 ev IH He. rewrite fmap_app. cbn [fmap list_fmap]. rewrite clocked_snoc, clock_snoc.
    intros [Hc Ho]. unfold completions in *. rewrite bind_app. cbn [mbind list_bind].
    rewrite elsewhere_completes, !app_nil_r by done.
    eapply timed_later; [|by apply IH]. destruct (op_time ev.1); cbn; lia.
  - intros i st log0 now IH Hr Hc. rewrite fmap_app. cbn [fmap list_fmap fst]. rewrite clocked_snoc, clock_snoc.
    cbn [op_time default]. intros [Hl Ho]. unfold completions in *. rewrite bind_app. cbn [mbind list_bind].
    replace (completes i _ ++ []) with (shown now (owner_step cfg i now st).2).
    + eapply owner_step_timed; [done| |done]. by apply IH.
    + rewrite app_nil_r. cbn. destruct (owner_step cfg i now st).2 as [c|] eqn:E; [|done].
      cbn. by rewrite decide_True by by apply Hc.
  - intros i _. split; try done; cbn. by split; constructor.
Qed.

(** the callbacks of an owner do not overlap and see no data of their future.  For
    every history whose clock never goes back, a completed callback had received its
    input when it started, its service lasted the configured time, it is reported after
    its end, and the next callback of the owner starts after that. *)
Theorem callbacks_serial n cfg s ops s' log i :
  new n cfg = inr s → run s ops = Some (s', log) → clocked 0 ops → (i < n)%nat →
  Forall (timely cfg) (completions i log) ∧ StronglySorted before (completions i log).
Proof.
  intros Hn Hrun Hc Hi. pose proof (time_holds n cfg s ops s' log Hn Hrun) as (_ & _ & H).
  destruct (new_owned n cfg s Hn) as [Hown <-]. rewrite <- (run_length s ops s' log) in Hi by done.
  apply lookup_lt_is_Some_2 in Hi as [st Hi]. apply (timed_completions cfg (clock 0 log.*1) _ st). apply H; [done|]. by rewrite (run_ops _ _ _ _ Hrun).
Qed.

(** *** Progress *)

(** The steps an owner can still take at an instant: two for an input, one to start it
    and one to end it. *)
Definition load (cfg : OwnerScheduleConfig) (now : Z) (st : Owner K T) : nat :=
  2 * (length (market st) + length (private st) + (match history st with Some _ => 1 | None => 0 end)
       + (if (next_watchdog_ns st <=? now) && (next_watchdog_ns st <=? end_ns cfg) then 1 else 0))
  + (match running st with Some _ => 1 | None => 0 end).

(** Without a period there is no tick. *)
Definition ticking (cfg : OwnerScheduleConfig) (st : Owner K T) : Prop :=
  0 <= next_watchdog_ns st ∧ (watchdog_interval_ns cfg = 0 → next_watchdog_ns st = u64_max).

Lemma tick_later cfg now (st : Owner K T) :
  0 <= watchdog_interval_ns cfg → ticking cfg st → next_watchdog_ns st <= now < u64_max →
  now < next_watchdog_ns (tick cfg now st).
Proof.
  intros Hi [Hn Hz] Hnow. cbn. assert (watchdog_interval_ns cfg ≠ 0) as Hne by (intros E; apply Hz in E; lia).
  rewrite Z.max_l by lia. unfold saturating_sub. rewrite Z.max_r by lia.
  pose proof (Z.div_mod (now - next_watchdog_ns st) (watchdog_interval_ns cfg) Hne).
  pose proof (Z.mod_pos_bound (now - next_watchdog_ns st) (watchdog_interval_ns cfg)).
  set (q := (now - next_watchdog_ns st) / watchdog_interval_ns cfg) in *.
  assert (0 <= q < u64_max) by nia.
  unfold wrapping_add, saturating_add, saturating_mul, u64_max in *. rewrite Z.mod_small by lia. nia.
Qed.

Lemma begin_load cfg i now received w pl hl (st : Owner K T) :
  running st = None → (load cfg now (begin_service cfg i now received w pl hl st).1 <= S (load cfg now st))%nat.
Proof. intros Hr. unfold begin_service, load. destruct (_ =? 0); cbn; rewrite Hr; lia. Qed.

Lemma begin_ticking cfg i now received w pl hl (st : Owner K T) :
  ticking cfg st → ticking cfg (begin_service cfg i now received w pl hl st).1.
Proof. intros H. unfold begin_service. by destruct (_ =? 0). Qed.

Lemma owner_step_load cfg i now (st : Owner K T) :
  0 <= watchdog_interval_ns cfg → now < u64_max → ticking cfg st → ready_for cfg st <= now →
  (load cfg now (owner_step cfg i now st).1 < load cfg now st)%nat ∧ ticking cfg (owner_step cfg i now st).1.
Proof.
  intros Hi Hnow Htick Hready. unfold owner_step. destruct (running st) as [c|] eqn:Hr.
  { split; [|done]. unfold load. cbn. rewrite Hr. lia. }
  destruct (take_input_served cfg now st) as [p ps E Hp|p Hp E Hh|Hp Hh Hw|Hp Hh Hw].
  - split; [|by apply begin_ticking]. eapply Nat.le_lt_trans; [by apply begin_load|]. unfold load. cbn. rewrite E. cbn. lia.
  - split; [|by apply begin_ticking]. eapply Nat.le_lt_trans; [by apply begin_load|]. unfold load. cbn. rewrite E. lia.
  - pose proof Hw as Hw'. unfold watchdog_due in Hw. bool_hyps.
    pose proof (tick_later cfg now st Hi Htick ltac:(lia)) as Hl. split.
    + eapply Nat.le_lt_trans; [by apply begin_load|]. unfold load. cbn [running market private history tick].
      change (running (tick cfg now st)) with (running st). change (market (tick cfg now st)) with (market st).
      change (private (tick cfg now st)) with (private st). change (history (tick cfg now st)) with (history st).
      assert ((next_watchdog_ns (tick cfg now st) <=? now) = false) as -> by by apply Z.leb_gt.
      assert ((next_watchdog_ns st <=? now) = true) as -> by by apply Z.leb_le.
      assert ((next_watchdog_ns st <=? end_ns cfg) = true) as -> by by apply Z.leb_le. cbn. lia.
    + apply begin_ticking. destruct Htick as [? Hz]. split; [lia|]. intros E. apply Hz in E. lia.
  - destruct (market_eligible cfg now st) as (p & ps & E & _); [done..|]. rewrite E. cbn [head tail].
    split; [|by apply begin_ticking]. eapply Nat.le_lt_trans; [by apply begin_load|]. unfold load. cbn. rewrite E. cbn. lia.
Qed.

Definition total_load (s : Scheduler) (now : Z) : nat := sum_list (load (config s) now <$> owners s).

(** The steps of one instant, until none is due. *)
Fixpoint drain (fuel : nat) (s : Scheduler) (now : Z) : option (Scheduler * list (OwnerCompletion T)) :=
  match next_owner s now with
  | None => Some (s, [])
  | Some _ =>
      match fuel with
      | O => None
      | S fuel =>
          let '(s, c) := step s now in
          '(s, cs) ← drain fuel s now; Some (s, match c with Some c => c :: cs | None => cs end)
      end
  end.

Lemma sum_list_insert_lt (f : Owner K T → nat) l i x y :
  l !! i = Some x → (f y < f x)%nat → (sum_list (f <$> <[i := y]> l) < sum_list (f <$> l))%nat.
Proof.
  revert i. induction l as [|z l IH]; intros [|i] Hi Hlt; cbn in Hi; [done..| |]; cbn.
  - simplify_eq. by apply Nat.add_lt_mono_r.
  - apply Nat.add_lt_mono_l. by apply IH.
Qed.

(** A step is due exactly from the time [peek_when] tells. *)
Lemma next_owner_peek (s : Scheduler) now :
  now < u64_max →
  next_owner s now = None ↔ match peek_when s with Some t => now < t | None => True end.
Proof.
  intros Hnow. unfold next_owner, peek_when.
  pose proof (min_ready_spec now 0 (ready_for (config s) <$> owners s)) as H.
  destruct (ready_for (config s) <$> owners s) as [|r rs]; [done|].
  destruct (fold_select (λ _, True) (λ a b, b <= a) Z.min
    ltac:(intros; lia) ltac:(cbn; intros; lia) ltac:(cbn; intros; lia) ltac:(cbn; intros; lia) rs r I)
    as [Hin Hmin]; [by apply Forall_true|]. cbv zeta in *. set (m := fold_left Z.min rs r) in *.
  destruct (min_ready now 0 (r :: rs)) as [[r1 j]|] eqn:E; cbn [fmap option_fmap option_map].
  - destruct H as (k & _ & Hk & Hr & _). split; [done|]. apply list_elem_of_lookup_2, Hmin in Hk.
    destruct (m =? u64_max) eqn:Em; bool_hyps; lia.
  - split; [intros _|done]. rewrite Forall_forall in H. apply H in Hin. by destruct (m =? u64_max).
Qed.

Definition all_ticking (s : Scheduler) : Prop :=
  owned s ∧ ∀ i st, owners s !! i = Some st → ticking (config s) st.

Lemma step_load (s : Scheduler) now :
  0 <= watchdog_interval_ns (config s) → now < u64_max → all_ticking s → is_Some (next_owner s now) →
  (total_load (step s now).1 now < total_load s now)%nat ∧ all_ticking (step s now).1 ∧ config (step s now).1 = config s.
Proof.
  intros Hi Hnow [Hown Htick] [i Ho]. pose proof Ho as Ho'. apply next_owner_spec in Ho' as (st & Hst & Hr & _).
  destruct (owner_step_load (config s) i now st Hi Hnow (Htick i st Hst) Hr) as [Hlt Ht].
  destruct (owner_step_owned (config s) i now st) as [_ Hown']; [by intros ?; apply Hown|].
  unfold step. rewrite Ho. unfold on_owner. rewrite Hst. cbn. destruct (owner_step _ _ _ _) as [st' c]. cbn in *.
  split; [by eapply sum_list_insert_lt|]. split; [|done]. destruct s as [cfg os]. cbn in *.
  split; intros j st1; [intros r|]; intros [(-> & -> & _)|[_ Hj]]%list_lookup_insert_Some; eauto.
Qed.

Lemma drain_ends fuel (s : Scheduler) now :
  0 <= watchdog_interval_ns (config s) → now < u64_max → all_ticking s → (total_load s now <= fuel)%nat →
  ∃ s' cs, drain fuel s now = Some (s', cs) ∧ next_owner s' now = None.
Proof.
  revert s. induction fuel as [|fuel IH]; intros s Hi Hnow Ht Hl; cbn [drain];
    destruct (next_owner s now) as [i|] eqn:E; eauto;
    destruct (step_load s now Hi Hnow Ht) as (Hlt & Ht' & Hc); [by eexists|lia|by eexists|].
  destruct (step s now) as [s1 c]. cbn in *. destruct (IH s1) as (s' & cs & -> & Hn); [by rewrite Hc|done|done|lia|].
  cbn. eauto.
Qed.

Lemma ticking_holds n cfg s ops s' log :
  is_u64 (watchdog_interval_ns cfg) → is_u64 (start_ns cfg) → new n cfg = inr s → run s ops = Some (s', log) →
  holds cfg (λ _ st log, clocked 0 log.*1 → 0 <= clock 0 log.*1 ∧ ticking cfg st) s' log.
Proof.
  intros [Hi _] [Hs _] Hn Hrun. eapply run_new_holds; [..|done| |done]; cbn beta.
  - intros i st log0 o IH Ht. rewrite fmap_app. cbn [fmap list_fmap fst]. rewrite clocked_snoc, clock_snoc.
    intros [Hc Ho]. destruct (IH Hc) as [H0 Htick]. split; [destruct (op_time o); cbn; lia|].
    destruct o; try (unfold ticking; by rewrite effect_watchdog).
    + unfold ticking. cbn in *. destruct (_ =? 0) eqn:E; bool_hyps; [by split|].
      unfold saturating_add, u64_max in *. split; [lia|done].
  - intros i st log0 ev IH He. rewrite fmap_app. cbn [fmap list_fmap]. rewrite clocked_snoc, clock_snoc.
    intros [Hc Ho]. destruct (IH Hc) as [H0 Htick]. split; [destruct (op_time ev.1); cbn; lia|done].
  - intros i st log0 now IH Hr _. rewrite fmap_app. cbn [fmap list_fmap fst]. rewrite clocked_snoc, clock_snoc.
    cbn [op_time default]. intros [Hc Ho]. destruct (IH Hc) as [H0 Htick]. split; [cbn; lia|].
    apply owner_step_load; [done|lia|done|done].
  - intros _ _. split; [done|]. unfold ticking. cbn. destruct (_ =? 0) eqn:E; bool_hyps; [by split|].
    unfold saturating_add, u64_max in *. split; [lia|done].
Qed.

(** C37: the steps of one instant come to an end.  After any history whose clock never
    goes back, stepping at a time until no owner is due takes at most two steps for each
    input that waits, for each watchdog that is due and one for each callback in
    service; then [peek_when] is later than the time. *)
Theorem instant_ends n cfg s ops s' log now :
  is_u64 (watchdog_interval_ns cfg) → is_u64 (start_ns cfg) → new n cfg = inr s →
  run s ops = Some (s', log) → clocked 0 ops → now < u64_max →
  ∃ s'' cs, drain (total_load s' now) s' now = Some (s'', cs) ∧
    match peek_when s'' with Some t => now < t | None => True end.
Proof.
  intros Hi Hs Hn Hrun Hc Hnow.
  pose proof (ticking_holds n cfg s ops s' log Hi Hs Hn Hrun) as (Hcfg & Hown & Ht).
  destruct (drain_ends (total_load s' now) s' now) as (s'' & cs & E & Hnone); [|done| |done|].
  - rewrite Hcfg. apply Hi.
  - split; [done|]. intros i st Hst. rewrite Hcfg. apply (Ht i st Hst). by rewrite (run_ops _ _ _ _ Hrun).
  - exists s'', cs. split; [done|]. by apply next_owner_peek.
Qed.
End histories.

(** ** Quantiles *)

Section quantiles.

Lemma div_ceil_spec a b : 0 < b → a <= b * div_ceil a b < a + b.
Proof.
  intros Hb. unfold div_ceil. pose proof (Z.div_mod (- a) b ltac:(lia)). pose proof (Z.mod_pos_bound (- a) b Hb). nia.
Qed.

(** The bucket of a duration: its power of two, and its sixty-fourth of that. *)
Lemma bucket_spec ns :
  is_u64 ns →
  ∃ e f, bucket ns = 64 * e + f ∧ 0 <= e < 64 ∧ 0 <= f < 64 ∧ 2 ^ e <= Z.max ns 1 < 2 ^ (e + 1) ∧
    2 ^ e * f <= 64 * (Z.max ns 1 - 2 ^ e) < 2 ^ e * (f + 1).
Proof.
  intros [H0 H1]. unfold bucket, leading_zeros. set (x := Z.max ns 1). assert (1 <= x <= u64_max) by (unfold u64_max in *; lia).
  replace (63 - (63 - Z.log2 x)) with (Z.log2 x) by lia.
  destruct (Z.log2_spec x ltac:(lia)) as [Hlo Hhi]. rewrite <- Z.add_1_r in Hhi.
  pose proof (Z.log2_nonneg x). assert (Z.log2 x < 64) by (apply Z.log2_lt_pow2; [lia|unfold u64_max in *; lia]).
  rewrite Z.shiftl_1_l. set (e := Z.log2 x) in *. rewrite Z.pow_add_r in Hhi by lia. change (2 ^ 1) with 2 in Hhi.
  assert (0 < 2 ^ e) as Hb by (by apply Z.pow_pos_nonneg). set (b := 2 ^ e) in *.
  assert (saturating_sub ns b = x - b) as -> by (unfold saturating_sub; lia).
  pose proof (Z.div_mod ((x - b) * 64) b ltac:(lia)) as Hd. pose proof (Z.mod_pos_bound ((x - b) * 64) b Hb).
  set (f := (x - b) * 64 / b) in *. assert (0 <= f < 64) by nia.
  exists e, f. rewrite Z.min_l by lia. rewrite Z.pow_add_r by lia. repeat split; nia.
Qed.

Lemma bucket_upper_spec e f :
  0 <= e < 64 → 0 <= f < 64 →
  ∃ u, bucket_upper (64 * e + f) = Z.min u u64_max ∧ 2 ^ e * (f + 1) <= 64 * (u + 1 - 2 ^ e) < 2 ^ e * (f + 1) + 64 ∧
    2 ^ e <= u < 2 ^ (e + 1).
Proof.
  intros He Hf. unfold bucket_upper.
  rewrite <- (Z.div_unique (64 * e + f) 64 e f), <- (Z.mod_unique (64 * e + f) 64 e f), Z.shiftl_1_l by lia.
  assert (0 < 2 ^ e) as Hb by (apply Z.pow_pos_nonneg; lia). rewrite Z.pow_add_r by lia. change (2 ^ 1) with 2.
  set (b := 2 ^ e) in *. pose proof (div_ceil_spec (b * (f + 1)) 64 ltac:(lia)).
  set (c := div_ceil _ _) in *. exists (b + c - 1). split; [done|]. nia.
Qed.

Lemma bucket_below ns j : is_u64 ns → 0 <= j < 4096 → bucket ns <= j → ns <= bucket_upper j.
Proof.
  intros Hns Hj Hle. destruct (bucket_spec ns Hns) as (e & f & Eb & He & Hf & Hx & Hy). rewrite Eb in Hle.
  pose proof (Z.div_mod j 64 ltac:(lia)) as Hd. pose proof (Z.mod_pos_bound j 64 ltac:(lia)) as Hm. rewrite Hd in Hle |- *.
  destruct (bucket_upper_spec (j / 64) (j mod 64)) as (u & -> & Hu & Hu'); [lia..|].
  apply Z.min_glb; [|apply Hns]. destruct (Z.eq_dec e (j / 64)) as [->|Hne]; [nia|].
  assert (2 ^ (e + 1) <= 2 ^ (j / 64)) by (apply Z.pow_le_mono_r; lia). lia.
Qed.

(** A duration is far below [q]: by a sixty-fourth of its power of two or more. *)
Definition far (q ns : Z) : bool := 2 ^ Z.log2 (Z.max ns 1) <=? 64 * (q - Z.max ns 1).

Lemma bucket_close ns j q : is_u64 ns → 0 <= j < 4096 → j <= bucket ns → q <= bucket_upper j → far q ns = false.
Proof.
  intros Hns Hj Hle Hq. destruct (bucket_spec ns Hns) as (e & f & Eb & He & Hf & Hx & Hy). rewrite Eb in Hle.
  unfold far. rewrite (Z.log2_unique (Z.max ns 1) e) by (rewrite <- ?Z.add_1_r; lia). apply Z.leb_gt.
  pose proof (Z.div_mod j 64 ltac:(lia)) as Hd. pose proof (Z.mod_pos_bound j 64 ltac:(lia)) as Hm. rewrite Hd in Hle, Hq.
  destruct (bucket_upper_spec (j / 64) (j mod 64)) as (u & Eu & Hu & Hu'); [lia..|]. rewrite Eu in Hq.
  destruct (Z.eq_dec e (j / 64)) as [->|Hne]; [nia|].
  assert (2 ^ (j / 64 + 1) <= 2 ^ e) by (apply Z.pow_le_mono_r; lia). assert (0 < 2 ^ e) by lia. lia.
Qed.

Definition recorded (l : list Z) : TimingHistogram := fold_left record l default_histogram.

Lemma count_snoc {A} (p : A → bool) l x : Prelude.count p (l ++ [x]) = (Prelude.count p l + if p x then 1 else 0)%nat.
Proof. unfold Prelude.count. rewrite List.filter_app, length_app. cbn. by destruct (p x). Qed.

Lemma recorded_spec l :
  Forall is_u64 l → Z.of_nat (length l) < 2 ^ 64 →
  count (recorded l) = Z.of_nat (length l) ∧ length (buckets (recorded l)) = 4096%nat ∧
  Forall (λ v, v <= maximum_ns (recorded l)) l ∧ 0 <= maximum_ns (recorded l) <= u64_max ∧
  ∀ j, (j < 4096)%nat →
    buckets (recorded l) !! j = Some (Z.of_nat (Prelude.count (λ v, bucket v =? Z.of_nat j) l)).
Proof.
  induction l as [|x l IH] using rev_ind; intros Hl Hn.
  { cbn [recorded fold_left]. split; [done|]. split; [apply length_replicate|]. split; [done|]. split; [done|].
    intros j Hj. by apply lookup_replicate. }
  apply Forall_app in Hl as [Hl [Hx _]%Forall_cons]. rewrite length_app in *. cbn [length] in *.
  destruct (IH Hl ltac:(lia)) as (Hc & Hb & Hm & Hm0 & Hj). unfold recorded in *. rewrite fold_left_app. cbn [fold_left].
  set (h := fold_left record l default_histogram) in *. unfold record. cbn [count buckets maximum_ns].
  rewrite length_alter. split; [|split; [done|split; [|split]]].
  - rewrite Hc. unfold wrapping_add. rewrite Z.mod_small; lia.
  - apply Forall_app. split; [eapply Forall_impl; [done|]; cbn; lia|]. constructor; [lia|done].
  - destruct Hx. lia.
  - intros j Hlt. rewrite count_snoc.
    destruct (bucket_spec x Hx) as (e & f & Eb & He & Hf & _ & _).
    destruct (decide (Z.to_nat (bucket x) = j)) as [<-|Hne].
    + rewrite list_lookup_alter_eq, (Hj _ Hlt). cbn [fmap option_fmap option_map]. f_equal.
      rewrite Z2Nat.id by lia. rewrite Z.eqb_refl. unfold wrapping_add.
      pose proof (count_length (λ v, bucket v =? bucket x) l). rewrite Z.mod_small; lia.
    + rewrite list_lookup_alter_ne, (Hj _ Hlt) by done. do 2 f_equal.
      assert ((bucket x =? Z.of_nat j) = false) as -> by (apply Z.eqb_neq; lia). lia.
Qed.

(** The loop of [upper_quantile] stops in the bucket where the counts reach the target. *)
Lemma quantile_from_spec maximum target cs cumulative index :
  Forall (λ n, 0 <= n) cs → 0 <= cumulative → cumulative < target <= cumulative + foldr Z.add 0 cs →
  cumulative + foldr Z.add 0 cs < 2 ^ 64 →
  ∃ j, (j < length cs)%nat ∧
    quantile_from maximum target cumulative index cs = Z.min (bucket_upper (index + Z.of_nat j)) maximum ∧
    cumulative + foldr Z.add 0 (take j cs) < target <= cumulative + foldr Z.add 0 (take (S j) cs).
Proof.
  intros Hcs. revert cumulative index. induction Hcs as [|n cs Hn Hcs IH]; intros cumulative index H0 Ht Hb; cbn in Ht, Hb; [lia|].
  assert (0 <= foldr Z.add 0 cs) by (clear -Hcs; induction Hcs; cbn; lia).
  cbn [quantile_from]. unfold wrapping_add. rewrite Z.mod_small by lia. destruct (target <=? cumulative + n) eqn:E; bool_hyps.
  - exists 0%nat. replace (index + Z.of_nat 0) with index by lia. cbn [take foldr length].
    rewrite take_0. cbn [foldr]. split; [lia|]. split; [done|lia].
  - destruct (IH (cumulative + n) (index + 1)) as (j & Hj & -> & Hlo & Hhi); [lia..|].
    exists (S j). cbn [length take foldr] in *. split; [lia|]. split; [do 2 f_equal; lia|lia].
Qed.

Lemma prefix_count l j :
  Forall is_u64 l → Z.of_nat (length l) < 2 ^ 64 → (j <= 4096)%nat →
  foldr Z.add 0 (take j (buckets (recorded l))) = Z.of_nat (Prelude.count (λ v, bucket v <? Z.of_nat j) l).
Proof.
  intros Hl Hn. destruct (recorded_spec l Hl Hn) as (_ & Hb & _ & _ & Hj). induction j as [|j IH]; intros Hlt.
  - rewrite take_0. change (Z.of_nat 0) with 0. destruct (Prelude.count _ l) eqn:E; [done|].
    destruct (proj1 (count_pos (λ v, bucket v <? 0) l)) as (x & Hx & Hneg); [lia|]. rewrite Forall_forall in Hl.
    destruct (bucket_spec x (Hl x Hx)) as (e & f & Eb & ? & ? & _). lia.
  - rewrite (take_S_r _ _ _ (Hj j ltac:(lia))), foldr_app. cbn [foldr].
    assert (∀ z k, foldr Z.add z k = z + foldr Z.add 0 k) as Hz by (intros z k; induction k; cbn; lia).
    rewrite Hz, IH by lia. clear. unfold Prelude.count. induction l as [|x l IHl]; cbn [List.filter length]; [done|].
    destruct (bucket x =? Z.of_nat j) eqn:E1, (bucket x <? Z.of_nat j) eqn:E2, (bucket x <? Z.of_nat (S j)) eqn:E3;
      bool_hyps; cbn [length]; lia.
Qed.

(** the quantiles of a histogram are upper bounds, as tight as documented.  Of any
    fewer than 2^64 recorded durations, at least the requested share is at most
    [upper_quantile], and fewer than that share lie below it by a sixty-fourth of their
    power of two or more; it never exceeds the maximum. *)
Theorem upper_quantile_tight l numerator denominator :
  Forall is_u64 l → 0 < Z.of_nat (length l) < 2 ^ 64 → 0 < numerator <= denominator →
  let q := upper_quantile (recorded l) numerator denominator in
  let share := div_ceil (Z.of_nat (length l) * numerator) denominator in
  share <= Z.of_nat (Prelude.count (λ v, v <=? q) l) ∧ Z.of_nat (Prelude.count (far q) l) < share ∧
  q <= maximum_ns (recorded l).
Proof.
  intros Hl Hn Hnum. destruct (recorded_spec l Hl ltac:(lia)) as (Hc & Hb & Hm & Hm0 & Hj).
  pose proof (div_ceil_spec (Z.of_nat (length l) * numerator) denominator ltac:(lia)) as Hs.
  cbv zeta. unfold upper_quantile. rewrite Hc. set (share := div_ceil _ _) in *.
  assert (0 < share <= Z.of_nat (length l)) by nia. rewrite Z.mod_small by lia.
  assert ((Z.of_nat (length l) =? 0) = false) as -> by lia. cbn [orb].
  assert (∀ q j, 0 <= j < 4096 → q <= bucket_upper j →
    (Prelude.count (far q) l <= Prelude.count (λ v, (bucket v <? j)%Z) l)%nat) as Hfar.
  { intros q j Hj' Hq. apply count_le. intros v Hv Hfar. rewrite Forall_forall in Hl. apply Z.ltb_lt.
    destruct (Z.lt_ge_cases (bucket v) j); [done|]. rewrite (bucket_close v j q) in Hfar by (done || by apply Hl). done. }
  destruct (maximum_ns (recorded l) =? 0) eqn:Em; bool_hyps.
  - assert (Prelude.count (λ v, v <=? 0) l = length l) as ->.
    { apply count_all. intros v Hv. rewrite Forall_forall in Hm. apply Z.leb_le. rewrite <- Em. by apply Hm. }
    split; [lia|]. split; [|lia]. unfold Prelude.count. rewrite (Prelude.filter_none (far 0)); [cbn; lia|].
    intros v. apply Z.leb_gt. pose proof (Z.pow_pos_nonneg 2 (Z.log2 (Z.max v 1)) ltac:(lia) (Z.log2_nonneg _)). lia.
  - destruct (quantile_from_spec (maximum_ns (recorded l)) share (buckets (recorded l)) 0 0) as (j & Hlt & -> & Hlo & Hhi).
    + apply Forall_lookup. intros j n E. pose proof (lookup_lt_Some _ _ _ E) as Hlt. rewrite Hb in Hlt.
      rewrite (Hj j Hlt) in E. simplify_eq. lia.
    + lia.
    + pose proof (prefix_count l 4096 Hl ltac:(lia) ltac:(lia)) as Hall. rewrite take_ge in Hall by lia. rewrite Hall.
      assert (Prelude.count (λ v, bucket v <? Z.of_nat 4096) l = length l) as ->; [|lia].
      apply count_all. intros v Hv. rewrite Forall_forall in Hl. destruct (bucket_spec v (Hl v Hv)) as (e & f & -> & ? & ? & _).
      apply Z.ltb_lt. lia.
    + pose proof (prefix_count l 4096 Hl ltac:(lia) ltac:(lia)) as Hall. rewrite take_ge in Hall by lia. rewrite Hall.
      pose proof (count_length (λ v, bucket v <? Z.of_nat 4096) l). lia.
    + rewrite Hb in Hlt. rewrite Z.add_0_l in *. rewrite !prefix_count in * by (done || lia).
      split; [|split; [|lia]].
      * etransitivity; [apply Hhi|]. apply Nat2Z.inj_le, count_le. intros v Hv Hlt'%Z.ltb_lt. rewrite Forall_forall in Hl, Hm.
        apply Z.leb_le, Z.min_glb; [|by apply Hm]. apply bucket_below; [by apply Hl|lia|lia].
      * eapply Z.le_lt_trans; [|apply Hlo]. apply Nat2Z.inj_le, Hfar; [lia|]. apply Z.le_min_l.
Qed.
End quantiles.

(** ** Instances *)

Definition demo_config : OwnerScheduleConfig := mkConfig 2 3 4 100 0 1000.

(** Two owners; the first is suspended while it serves a private event. *)
Definition demo_ops : list (@Op nat Z) :=
  [OPrivate 0 1 7; OMarket 1 1 (Some 5%nat) 8; OStep 3; OPrivate 0 4 9; OSuspend 0 5;
   ORebase 0 10 (λ p _, p); OResume 0 10; OHistory 1 40 6; OStep 20; OStep 30; OStep 30; OStep 40].

Definition demo_scheduler : VirtualOwnerScheduler nat Z :=
  mkScheduler demo_config (replicate 2 (new_owner demo_config)).

Lemma private_lane_lossless_witness :
  ∃ s' log, run demo_scheduler demo_ops = Some (s', log) ∧
    ∀ i st, owners s' !! i = Some st →
      bounded demo_config st ∧
      (Forall goes_on log →
        delivered id i log ++ in_service id st ++ waiting id st = accepted id i log ∧
        (private_drained s' i = Some true ↔ delivered id i log = accepted id i log)).
Proof.
  apply (private_lane_lossless id 2 demo_config demo_scheduler demo_ops); [reflexivity| |].
  - repeat (apply Forall_cons; split; [by intros i Hi; cbn in Hi; simplify_eq; lia|]). by apply Forall_nil.
  - repeat constructor.
Defined.

Lemma callbacks_serial_witness :
  match run demo_scheduler demo_ops with
  | Some (_, log) => Forall (timely demo_config) (completions 0 log) ∧ StronglySorted before (completions 0 log)
  | None => False
  end.
Proof.
  destruct (run demo_scheduler demo_ops) as [[s' log]|] eqn:E; [|vm_compute in E; discriminate].
  apply (callbacks_serial 2 demo_config demo_scheduler demo_ops s' log 0); [reflexivity|exact E| |lia].
  cbn; unfold u64_max; lia.
Defined.

Lemma instant_ends_witness :
  match run demo_scheduler demo_ops with
  | Some (s', _) =>
      ∃ s'' cs, drain (total_load s' 500) s' 500 = Some (s'', cs) ∧
        match peek_when s'' with Some t => 500 < t | None => True end
  | None => False
  end.
Proof.
  destruct (run demo_scheduler demo_ops) as [[s' log]|] eqn:E; [|vm_compute in E; discriminate].
  apply (instant_ends 2 demo_config demo_scheduler demo_ops s' log 500);
    [cbn; unfold is_u64, u64_max; lia|cbn; unfold is_u64, u64_max; lia|reflexivity|exact E|cbn; unfold u64_max; lia|unfold u64_max; lia].
Defined.

Lemma upper_quantile_tight_witness :
  2 <= Z.of_nat (Prelude.count (λ v, v <=? upper_quantile (recorded [1000; 5; 70]) 1 2) [1000; 5; 70]) ∧
  Z.of_nat (Prelude.count (far (upper_quantile (recorded [1000; 5; 70]) 1 2)) [1000; 5; 70]) < 2 ∧
  upper_quantile (recorded [1000; 5; 70]) 1 2 <= maximum_ns (recorded [1000; 5; 70]).
Proof.
  apply (upper_quantile_tight [1000; 5; 70] 1 2); [|done|done].
  repeat constructor; unfold u64_max; lia.
Defined.
