(* ===== verification/VirtualRecovery.v ===== *)
(** * Warm recovery of virtual owners

    [RecoveryReplay] (hexagent-engine/src/virtual_recovery.rs): the journal of a backtest
    says when the process of an owner stopped and restarted.  The windows become a
    sorted list of edges (stop, restart, reconciliation complete) that drive the phase of
    each owner; an owner may quote again only when its private events are applied, its
    oracle history is complete and a fresh book was applied.  [RecoveryOracleHistory] and
    [RecoveryMetadata] keep what must not be lost meanwhile.

    The windows are parsed from JSON lines outside the model; the delivery watermark is
    a parameter, since it is only stored.  An [Arc] is the number that identifies it
    beside its value.

    Proved: after a stop an owner quotes only when every condition of its recovery has
    been met since, in whatever order and however often the events arrive; the edges of
    an owner follow each other window by window, unless a window begins at the instant
    the one before it is reconciled; nothing the recovery needs is dropped silently. *)

From S2P Require Import Prelude F64 Types.

Definition MAX_RECOVERY_WINDOWS : nat := Z.to_nat 16384.

Record Window := mkWindow {
  instance_id : string;
  stop_ns : Z;
  w_restart_ns : Z;
  evidence_class : string }.

Inductive RecoveryAction := Stop | Restart | ReconcileComplete.

#[export] Instance RecoveryAction_eq_dec : EqDecision RecoveryAction.
Proof. solve_decision. Defined.

Record RecoveryEdge := mkEdge {
  when_ns : Z;
  owner : nat;
  action : RecoveryAction }.

Inductive Phase := Ready | Offline | Reconciling | Catchup.

#[export] Instance Phase_eq_dec : EqDecision Phase.
Proof. solve_decision. Defined.

Inductive RecoveryError :=
| WindowCapacity
| UnknownOwner (instance : string)
| StopNotBeforeRestart
| UnobservedEvidence
| OverlappingWindows (instance : string)
| ReconcileTimeOverflow
| OracleHistoryCapacity (owner : nat)
| MetadataCapacity (owner : nat).

(** ** The edges *)

(** [sort_by_key] is stable: an element goes before the first greater one. *)
Fixpoint insert_by {A} (le : A → A → bool) (x : A) (l : list A) : list A :=
  match l with
  | [] => [x]
  | y :: l => if le x y then x :: y :: l else y :: insert_by le x l
  end.
Definition sort_by {A} (le : A → A → bool) (l : list A) : list A := foldr (insert_by le) [] l.

(** [(w.stop_ns, w.restart_ns)] *)
Definition window_le (a b : Window) : bool :=
  (stop_ns a <? stop_ns b) || ((stop_ns a =? stop_ns b) && (w_restart_ns a <=? w_restart_ns b)).

Definition action_code (a : RecoveryAction) : Z := match a with Stop => 0 | Restart => 1 | ReconcileComplete => 2 end.

(** [(e.when_ns, e.owner, code)] *)
Definition edge_le (a b : RecoveryEdge) : bool :=
  (when_ns a <? when_ns b)
  || ((when_ns a =? when_ns b)
      && ((owner a <? owner b)%nat || ((owner a =? owner b)%nat && (action_code (action a) <=? action_code (action b))))).

(** The edges of one window. *)
Definition window_edges (start_ns : Z) (w : Window) (o : nat) (reconciled : Z) : list RecoveryEdge :=
  [mkEdge (Z.max (stop_ns w) start_ns) o Stop; mkEdge (Z.max (w_restart_ns w) start_ns) o Restart;
   mkEdge reconciled o ReconcileComplete].

(** The loop over the sorted windows. *)
Fixpoint windows_edges (owners : gmap string nat) (delay start_ns end_ns : Z) (windows : list Window)
    (previous_end : gmap nat Z) (edges : list RecoveryEdge) : RecoveryError + list RecoveryEdge :=
  match windows with
  | [] => inr edges
  | w :: windows =>
      if (w_restart_ns w +s delay <? start_ns) || (end_ns <? stop_ns w)
      then windows_edges owners delay start_ns end_ns windows previous_end edges
      else
        match owners !! instance_id w with
        | None => inl (UnknownOwner (instance_id w))
        | Some o =>
            if negb (stop_ns w <? w_restart_ns w) then inl StopNotBeforeRestart
            else if negb (String.eqb (evidence_class w) "observed_log_boundary") then inl UnobservedEvidence
            else if negb match previous_end !! o with Some e => e <=? stop_ns w | None => true end
            then inl (OverlappingWindows (instance_id w))
            else match checked_add (w_restart_ns w) delay with
                 | None => inl ReconcileTimeOverflow
                 | Some reconciled =>
                     windows_edges owners delay start_ns end_ns windows (<[o := reconciled]> previous_end)
                       (edges ++ window_edges start_ns w o reconciled)
                 end
        end
  end.

(** ** The replay *)

Section replay.
Context {W : Type}.

Record State := mkState {
  phase : Phase;
  restart_ns : Z;
  fresh_book_applied : bool;
  fresh_until_ns : Z;
  stops : Z;
  ready_transitions : Z;
  ready_at_ns : Z;
  delivery_watermark : option W;
  oracle_history_pending : bool;
  oracle_history_rows_applied : Z;
  oracle_history_queries_completed : Z;
  oracle_history_queries_failed : Z;
  oracle_history_cutoff_ns : Z;
  oracle_history_applied_ns : Z;
  oracle_history_required_prices_ready : bool }.

Definition default_state : State := mkState Ready 0 false 0 0 0 0 None false 0 0 0 0 0 false.

Record OracleHistoryQueryAudit := mkAudit {
  q_owner : nat;
  cutoff_ns : Z;
  applied_ns : Z;
  input_rows : Z;
  applied_rows : Z;
  excluded_unavailable_rows : Z;
  max_observation_ns : Z;
  max_receive_ns : Z;
  boundary_prices_restored : Z;
  required_prices_ready : bool }.

Record RecoveryReplay := mkReplay {
  edges : list RecoveryEdge;
  cursor : nat;
  states : list State;
  oracle_queries : list OracleHistoryQueryAudit }.

(** [from_text_bounded] from the parsed windows on; [from_path] of an empty path. *)
Definition from_windows (windows : list Window) (owners : gmap string nat) (reconcile_delay_ns start_ns end_ns : Z)
    : RecoveryError + RecoveryReplay :=
  if (MAX_RECOVERY_WINDOWS <? length windows)%nat then inl WindowCapacity
  else match windows_edges owners reconcile_delay_ns start_ns end_ns (sort_by window_le windows) ∅ [] with
       | inl e => inl e
       | inr edges => inr (mkReplay (sort_by edge_le edges) 0 (replicate (size owners) default_state) [])
       end.

Definition without_journal (owners : gmap string nat) : RecoveryReplay :=
  mkReplay [] 0 (replicate (size owners) default_state) [].

Definition peek_when (self : RecoveryReplay) : option Z := when_ns <$> edges self !! cursor self.
Definition peek_action (self : RecoveryReplay) : option RecoveryAction := action <$> edges self !! cursor self.

(** [self.states[owner]]; an index out of range panics. *)
Definition on_state {R} (self : RecoveryReplay) (o : nat) (f : State → State * R) : option (RecoveryReplay * R) :=
  state ← states self !! o;
  let '(state', r) := f state in Some (self <| states := <[o := state']> (states self) |>, r).

Definition capture_watermark (self : RecoveryReplay) (o : nat) (w : W) : option (RecoveryReplay * unit) :=
  on_state self o (λ st, (st <| delivery_watermark := Some w |>, tt)).

Definition watermark (self : RecoveryReplay) (o : nat) : option (option W) :=
  st ← states self !! o;
  Some (if bool_decide (phase st = Catchup) then delivery_watermark st else None).

Definition apply_edge (edge : RecoveryEdge) (st : State) : State :=
  match action edge with
  | Stop =>
      st <| phase := Offline |> <| fresh_book_applied := false |> <| stops := stops st +w 1 |>
         <| delivery_watermark := None |> <| oracle_history_pending := true |>
         <| oracle_history_required_prices_ready := false |>
  | Restart =>
      st <| phase := Reconciling |> <| restart_ns := when_ns edge |> <| fresh_book_applied := false |>
  | ReconcileComplete => st <| phase := Catchup |>
  end.

Definition step (self : RecoveryReplay) (now_ns : Z) : option (RecoveryReplay * option RecoveryEdge) :=
  match edges self !! cursor self with
  | Some edge =>
      if when_ns edge <=? now_ns
      then on_state (self <| cursor := S (cursor self) |>) (owner edge) (λ st, (apply_edge edge st, Some edge))
      else Some (self, None)
  | None => Some (self, None)
  end.

Definition collecting_oracle_history (self : RecoveryReplay) (o : nat) : option bool :=
  st ← states self !! o; Some (bool_decide (phase st = Offline) || bool_decide (phase st = Reconciling)).

Definition apply_query (query : OracleHistoryQueryAudit) (st : State) : State :=
  let st := st <| oracle_history_cutoff_ns := cutoff_ns query |> <| oracle_history_applied_ns := applied_ns query |>
               <| oracle_history_required_prices_ready := required_prices_ready query |> in
  if required_prices_ready query
  then st <| oracle_history_pending := false |>
          <| oracle_history_rows_applied := oracle_history_rows_applied st +w applied_rows query |>
          <| oracle_history_queries_completed := oracle_history_queries_completed st +w 1 |>
  else st <| oracle_history_queries_failed := oracle_history_queries_failed st +w 1 |>.

(** Panics when the audit is full. *)
Definition complete_oracle_history (self : RecoveryReplay) (query : OracleHistoryQueryAudit)
    : option (RecoveryReplay * unit) :=
  if (length (oracle_queries self) <? MAX_RECOVERY_WINDOWS)%nat
  then on_state (self <| oracle_queries := oracle_queries self ++ [query] |>) (q_owner query)
         (λ st, (apply_query query st, tt))
  else None.

Definition discard_market (self : RecoveryReplay) (o : nat) : option bool :=
  st ← states self !! o; Some (bool_decide (phase st = Offline)).

Definition quote_allowed (self : RecoveryReplay) (o : nat) : option bool :=
  st ← states self !! o; Some (bool_decide (phase st = Ready)).

Definition fresh (st : State) (received_ns source_ns applied_ns : Z) (valid : bool) (max_age_ns : Z) : bool :=
  bool_decide (phase st = Catchup) && valid && (restart_ns st <=? received_ns) && negb (source_ns =? 0)
  && (applied_ns -s source_ns <=? max_age_ns).

Definition apply_book (received_ns source_ns applied_ns : Z) (valid : bool) (max_age_ns : Z) (st : State) : State :=
  let st' := if bool_decide (phase st = Catchup) then st <| fresh_book_applied := false |> else st in
  if fresh st' received_ns source_ns applied_ns valid max_age_ns
  then st' <| fresh_book_applied := true |> <| fresh_until_ns := source_ns +s max_age_ns |>
  else st'.

Definition observe_fresh_book (self : RecoveryReplay) (o : nat) (received_ns source_ns applied_ns : Z) (valid : bool)
    (max_age_ns : Z) : option (RecoveryReplay * unit) :=
  on_state self o (λ st, (apply_book received_ns source_ns applied_ns valid max_age_ns st, tt)).

Definition may_ready (st : State) (private_drained : bool) (now_ns : Z) : bool :=
  bool_decide (phase st = Catchup) && negb (oracle_history_pending st) && fresh_book_applied st
  && (now_ns <=? fresh_until_ns st) && private_drained.

Definition become_ready (private_drained : bool) (now_ns : Z) (st : State) : State * bool :=
  if may_ready st private_drained now_ns
  then (st <| phase := Ready |> <| ready_transitions := ready_transitions st +w 1 |> <| ready_at_ns := now_ns |>, true)
  else (st, false).

Definition try_ready (self : RecoveryReplay) (o : nat) (private_drained : bool) (now_ns : Z)
    : option (RecoveryReplay * bool) :=
  on_state self o (become_ready private_drained now_ns).
End replay.

Arguments State : clear implicits.
Arguments RecoveryReplay : clear implicits.

(** ** What is kept during an outage *)

Definition MAX_RECOVERY_ORACLE_REPORTS : nat := Z.to_nat 4096.
Definition MAX_PENDING_METADATA_PER_OWNER : nat := 64.

Record RecoveryOracleHistory := mkHistory {
  reports : list (list SpotPrice);
  captured : list Z;
  high_water : list nat }.

Definition new_history (n : nat) : RecoveryOracleHistory := mkHistory (replicate n []) (replicate n 0) (replicate n 0%nat).

Definition oracle_source (source : string) : bool :=
  String.eqb source "chainlink" || String.eqb source "chainlink_stream" || String.eqb source "rtds_chainlink".

(** An owner out of range panics. *)
Definition observe_report (self : RecoveryOracleHistory) (o : nat) (report : SpotPrice)
    : option (RecoveryOracleHistory * option RecoveryError) :=
  if negb (oracle_source (sp_source report)) then Some (self, None)
  else
    rs ← reports self !! o; c ← captured self !! o; h ← high_water self !! o;
    if (length rs <? MAX_RECOVERY_ORACLE_REPORTS)%nat
    then Some (mkHistory (<[o := rs ++ [report]]> (reports self)) (<[o := c +w 1]> (captured self))
                 (<[o := (h `max` S (length rs))%nat]> (high_water self)), None)
    else Some (self, Some (OracleHistoryCapacity o)).

Definition causal (cutoff : Z) (report : SpotPrice) : bool :=
  (0 <? sp_timestamp_ns report) && (sp_timestamp_ns report <=? cutoff)
  && (0 <? sp_local_timestamp_ns report) && (sp_local_timestamp_ns report <=? cutoff).

Definition causal_reports (self : RecoveryOracleHistory) (o : nat) (cutoff : Z) : option (list SpotPrice) :=
  rs ← reports self !! o; Some (List.filter (causal cutoff) rs).

Definition clear_applied (self : RecoveryOracleHistory) (o : nat) : option RecoveryOracleHistory :=
  _ ← reports self !! o; Some (self <| reports := <[o := []]> (reports self) |>).

Record SpotInstrument := mkSpot {
  si_exchange : Exchange;
  si_symbol : string;
  si_base_asset : string;
  si_quote_asset : string }.

Record BinaryOption := mkBinaryOption {
  bo_exchange : Exchange;
  bo_id : string;
  bo_question : string;
  bo_condition_id : string;
  bo_series_slug : string;
  bo_slug : string;
  bo_clob_token_ids : list string;
  bo_outcomes : list string;
  bo_outcome_prices : list string;
  bo_active : bool;
  bo_closed : bool;
  bo_volume : f64;
  bo_liquidity : f64;
  bo_tick_size : f64;
  bo_order_min_size : f64;
  bo_group_item_title : string;
  bo_event_start_time : string;
  bo_base_fee : Z;
  bo_fee_exponent : f64;
  bo_fee_rate : f64;
  bo_fee_settlement : FeeSettlement }.

Inductive Instrument := Spot (s : SpotInstrument) | BinaryOptionInstrument (b : BinaryOption).

(** A [MarketEvent]: of the others only that they are not instruments matters here. *)
Inductive MarketEvent := InstrumentEvent (i : Instrument) | OtherEvent.

(** [Arc<MarketEvent>]: the allocation and what it holds. *)
Definition SharedEvent : Type := nat * MarketEvent.

Record RecoveryMetadata := mkMetadata {
  pending : list (list SharedEvent);
  m_high_water : list nat }.

Definition new_metadata (n : nat) : RecoveryMetadata := mkMetadata (replicate n []) (replicate n 0%nat).

Definition same_instrument (incoming : Instrument) (previous : SharedEvent) : bool :=
  match previous.2, incoming with
  | InstrumentEvent (BinaryOptionInstrument a), BinaryOptionInstrument b =>
      bool_decide (bo_exchange a = bo_exchange b) && String.eqb (bo_condition_id a) (bo_condition_id b)
  | InstrumentEvent (Spot a), Spot b =>
      bool_decide (si_exchange a = si_exchange b) && String.eqb (si_symbol a) (si_symbol b)
  | _, _ => false
  end.

(** [iter_mut().find(..)]: the first entry of the instrument is replaced. *)
Fixpoint replace_first (same : SharedEvent → bool) (event : SharedEvent) (l : list SharedEvent)
    : option (list SharedEvent) :=
  match l with
  | [] => None
  | x :: l => if same x then Some (event :: l) else cons x <$> replace_first same event l
  end.

Definition observe_metadata (self : RecoveryMetadata) (o : nat) (event : SharedEvent)
    : option (RecoveryMetadata * option RecoveryError) :=
  match event.2 with
  | OtherEvent => Some (self, None)
  | InstrumentEvent incoming =>
      entries ← pending self !! o;
      match replace_first (same_instrument incoming) event entries with
      | Some entries' => Some (self <| pending := <[o := entries']> (pending self) |>, None)
      | None =>
          if (length entries <? MAX_PENDING_METADATA_PER_OWNER)%nat
          then h ← m_high_water self !! o;
               Some (mkMetadata (<[o := entries ++ [event]]> (pending self))
                       (<[o := (h `max` S (length entries))%nat]> (m_high_water self)), None)
          else Some (self, Some (MetadataCapacity o))
      end
  end.

(** [Arc::ptr_eq] *)
Definition applied (self : RecoveryMetadata) (o : nat) (event : SharedEvent) : option RecoveryMetadata :=
  entries ← pending self !! o;
  Some (self <| pending := <[o := List.filter (λ p, negb (p.1 =? event.1)%nat) entries]> (pending self) |>).

Definition trades_token (tokens : list string) (entry : SharedEvent) : bool :=
  match entry.2 with
  | InstrumentEvent (BinaryOptionInstrument bo) =>
      existsb (λ id, bool_decide (id ∈ tokens)) (bo_clob_token_ids bo)
  | _ => false
  end.

Definition retire_metadata (self : RecoveryMetadata) (tokens : list string) : RecoveryMetadata :=
  self <| pending := List.filter (λ entry, negb (trades_token tokens entry)) <$> pending self |>.

(** ** Histories *)

Section histories.
Context {W : Type}.

Inductive Op :=
| OStep (now_ns : Z)
| OWatermark (o : nat) (w : W)
| OQuery (q : OracleHistoryQueryAudit)
| OBook (o : nat) (received_ns source_ns applied_ns : Z) (valid : bool) (max_age_ns : Z)
| OReady (o : nat) (private_drained : bool) (now_ns : Z).

(** What happened to an owner. *)
Inductive Event :=
| Edge (e : RecoveryEdge)
| Query (q : OracleHistoryQueryAudit)
| Book (o : nat) (received_ns source_ns applied_ns : Z) (valid : bool) (max_age_ns : Z)
| Tried (o : nat) (private_drained : bool) (now_ns : Z) (ready : bool)
| Quiet.

Definition exec (s : RecoveryReplay W) (op : Op) : option (RecoveryReplay W * Event) :=
  match op with
  | OStep now_ns => '(s, e) ← step s now_ns; Some (s, match e with Some e => Edge e | None => Quiet end)
  | OWatermark o w => '(s, _) ← capture_watermark s o w; Some (s, Quiet)
  | OQuery q => '(s, _) ← complete_oracle_history s q; Some (s, Query q)
  | OBook o received source applied valid max_age =>
      '(s, _) ← observe_fresh_book s o received source applied valid max_age;
      Some (s, Book o received source applied valid max_age)
  | OReady o drained now_ns => '(s, ready) ← try_ready s o drained now_ns; Some (s, Tried o drained now_ns ready)
  end.

Fixpoint run (s : RecoveryReplay W) (ops : list Op) : option (RecoveryReplay W * list Event) :=
  match ops with
  | [] => Some (s, [])
  | op :: ops => '(s, ev) ← exec s op; '(s, log) ← run s ops; Some (s, ev :: log)
  end.

Definition edge_of (o : nat) (a : RecoveryAction) (ev : Event) : Prop :=
  match ev with Edge e => owner e = o ∧ action e = a | _ => False end.
Definition book_of (o : nat) (ev : Event) : Prop :=
  match ev with Book o' _ _ _ _ _ => o' = o | _ => False end.
Definition complete_query_of (o : nat) (ev : Event) : Prop :=
  match ev with Query q => q_owner q = o ∧ required_prices_ready q = true | _ => False end.

(** When the process of the owner last restarted. *)
Definition last_restart (o : nat) (log : list Event) : Z :=
  fold_left (λ t ev, match ev with
                     | Edge e => if decide (owner e = o ∧ action e = Restart) then when_ns e else t
                     | _ => t
                     end) log 0.

Definition ready_of (o : nat) (ev : Event) : Prop :=
  match ev with Tried o' _ _ true => o' = o | _ => False end.

(** Since the owner stopped, a book arrived during its catch-up that was received after
    the last restart, valid and recent when applied; no later book of the owner replaced
    it before the owner was ready. *)
Definition fresh_at (o : nat) (until : Z) (before since : list Event) (last : list Event → Prop) : Prop :=
  ∃ s1 s2 received source applied max_age,
    since = s1 ++ Book o received source applied true max_age :: s2 ∧
    Exists (edge_of o ReconcileComplete) s1 ∧ last s2 ∧
    last_restart o (before ++ s1) <= received ∧ source ≠ 0 ∧ applied -s source <= max_age ∧
    until = source +s max_age.

(** The owner became ready with all its conditions met since it stopped. *)
Definition recovered (o : nat) (before since : list Event) : Prop :=
  ∃ s1 s2 now until,
    since = s1 ++ Tried o true now true :: s2 ∧
    fresh_at o until before s1 (λ s, Forall (λ ev, ¬ book_of o ev) s ∨ Exists (ready_of o) s) ∧ now <= until ∧
    Exists (complete_query_of o) s1.

(** The state of an owner that stopped, against what happened before and since. *)
Record since_stop (o : nat) (st : State W) (before since : list Event) : Prop := {
  ss_ready : phase st = Ready → recovered o before since;
  ss_catchup : phase st = Catchup → Exists (edge_of o ReconcileComplete) since;
  ss_oracle : oracle_history_pending st = false → Exists (complete_query_of o) since;
  ss_fresh : fresh_book_applied st = true →
    fresh_at o (fresh_until_ns st) before since
      (λ s, (phase st = Catchup ∧ Forall (λ ev, ¬ book_of o ev) s) ∨ Exists (ready_of o) s) }.

Definition tracked (o : nat) (st : State W) (log : list Event) : Prop :=
  restart_ns st = last_restart o log ∧
  (Forall (λ ev, ¬ edge_of o Stop ev) log ∨
   ∃ before ev since, log = before ++ ev :: since ∧ edge_of o Stop ev ∧ Forall (λ ev, ¬ edge_of o Stop ev) since ∧
     since_stop o st (before ++ [ev]) since).

(** What an event does to the state of an owner. *)
Definition moved (o : nat) (ev : Event) (st st' : State W) : Prop :=
  match ev with
  | Edge e => st' = if decide (owner e = o) then apply_edge e st else st
  | Query q => st' = if decide (q_owner q = o) then apply_query q st else st
  | Book o' received source applied valid max_age =>
      st' = if decide (o' = o) then apply_book received source applied valid max_age st else st
  | Tried o' drained now ready =>
      if decide (o' = o) then (st', ready) = become_ready drained now st else st' = st
  | Quiet => st' = st ∨ ∃ w, st' = st <| delivery_watermark := Some w |>
  end.

Lemma on_state_lookup {R} (s s' : RecoveryReplay W) o (f : State W → State W * R) r :
  on_state s o f = Some (s', r) →
  ∀ i st, states s !! i = Some st →
    ∃ st', states s' !! i = Some st' ∧ if decide (o = i) then (st', r) = f st else st' = st.
Proof.
  unfold on_state. destruct (states s !! o) as [st0|] eqn:Hst; [|done]. cbn.
  destruct (f st0) as [st1 r1] eqn:Hf. intros [= <- <-] i st Hi. cbn. destruct (decide (o = i)) as [->|Hne].
  - rewrite Hst in Hi. injection Hi as <-. rewrite list_lookup_insert_eq by (by eapply lookup_lt_Some). eauto.
  - rewrite list_lookup_insert_ne by done. eauto.
Qed.

Lemma exec_moved (s s' : RecoveryReplay W) op ev i st :
  exec s op = Some (s', ev) → states s !! i = Some st → ∃ st', states s' !! i = Some st' ∧ moved i ev st st'.
Proof.
  intros E Hi. destruct op; cbn in E; apply bind_Some in E as ([s1 r] & E & [= <- <-]).
  - unfold step in E. destruct (edges s !! cursor s) as [e|]; [|simplify_eq; eexists; split; [done|by left]].
    destruct (_ <=? _); [|simplify_eq; eexists; split; [done|by left]].
    destruct (on_state_lookup _ _ _ _ _ E i st Hi) as (st' & H1 & H2). exists st'. split; [done|].
    assert (r = Some e) as ->.
    { unfold on_state in E. apply bind_Some in E as (? & _ & [= _ <-]). done. }
    cbn. by destruct (decide _); simplify_eq.
  - unfold capture_watermark in E.
    destruct (on_state_lookup _ _ _ _ _ E i st Hi) as (st' & H1 & H2). exists st'. split; [done|]. cbn.
    destruct (decide _); simplify_eq; eauto.
  - unfold complete_oracle_history in E. destruct (_ <? _)%nat; [|done].
    destruct (on_state_lookup _ _ _ _ _ E i st Hi) as (st' & H1 & H2). exists st'. split; [done|]. cbn.
    by destruct (decide _); simplify_eq.
  - unfold observe_fresh_book in E.
    destruct (on_state_lookup _ _ _ _ _ E i st Hi) as (st' & H1 & H2). exists st'. split; [done|]. cbn.
    by destruct (decide _); simplify_eq.
  - unfold try_ready in E. destruct (on_state_lookup _ _ _ _ _ E i st Hi) as (st' & H1 & H2). exists st'. by split.
Qed.

Lemma on_state_length {R} (s s' : RecoveryReplay W) o (f : State W → State W * R) r :
  on_state s o f = Some (s', r) → length (states s') = length (states s).
Proof.
  unfold on_state. destruct (states s !! o); [|done]. cbn. destruct (f _). intros [= <- _]. cbn. apply length_insert.
Qed.

Lemma replay_exec_length (s s' : RecoveryReplay W) op ev : exec s op = Some (s', ev) → length (states s') = length (states s).
Proof.
  intros E. destruct op; cbn in E; apply bind_Some in E as ([s1 r] & E & [= <- <-]).
  - unfold step in E. destruct (edges s !! cursor s) as [e|]; [|by simplify_eq].
    destruct (_ <=? _); [|by simplify_eq]. by apply on_state_length in E.
  - by eapply on_state_length.
  - unfold complete_oracle_history in E. destruct (_ <? _)%nat; [|done]. by apply on_state_length in E.
  - by eapply on_state_length.
  - by eapply on_state_length.
Qed.

Lemma exec_back (s s' : RecoveryReplay W) op ev i st' :
  exec s op = Some (s', ev) → states s' !! i = Some st' → ∃ st, states s !! i = Some st ∧ moved i ev st st'.
Proof.
  intros E Hi. assert (is_Some (states s !! i)) as [st Hst].
  { apply lookup_lt_is_Some. rewrite <- (replay_exec_length _ _ _ _ E). by eapply lookup_lt_Some. }
  destruct (exec_moved _ _ _ _ _ _ E Hst) as (st1 & H1 & H2). exists st. split; [done|]. congruence.
Qed.

Lemma recovered_snoc o before since ev : recovered o before since → recovered o before (since ++ [ev]).
Proof.
  intros (s1 & s2 & now & until & -> & H). exists s1, (s2 ++ [ev]), now, until. split; [|done]. by rewrite <- app_assoc.
Qed.

Lemma fresh_at_snoc o until before since ev (P Q : list Event → Prop) :
  (∀ s, P s → Q (s ++ [ev])) → fresh_at o until before since P → fresh_at o until before (since ++ [ev]) Q.
Proof.
  intros HPQ (s1 & s2 & ? & ? & ? & ? & -> & He & HP & H). eexists s1, (s2 ++ [ev]), _, _, _, _.
  split; [by rewrite <- app_assoc|]. split; [done|]. split; [by apply HPQ|]. exact H.
Qed.

Lemma last_restart_snoc o log ev :
  last_restart o (log ++ [ev]) =
  match ev with
  | Edge e => if decide (owner e = o ∧ action e = Restart) then when_ns e else last_restart o log
  | _ => last_restart o log
  end.
Proof. unfold last_restart. by rewrite fold_left_app. Qed.

(** An event that is no edge of the owner, no book of the owner in catch-up, and does not
    make it ready leaves the evidence as it is. *)
Lemma since_stop_snoc o st st' before since ev :
  since_stop o st before since →
  (phase st' = Ready → phase st = Ready) → (phase st' = Catchup → phase st = Catchup) →
  (oracle_history_pending st' = false → oracle_history_pending st = false ∨ complete_query_of o ev) →
  (fresh_book_applied st' = true → fresh_book_applied st = true ∧ fresh_until_ns st' = fresh_until_ns st ∧
     (phase st = Catchup → phase st' = Catchup ∧ ¬ book_of o ev)) →
  since_stop o st' before (since ++ [ev]).
Proof.
  intros [] H1 H2 H3 H4. split.
  - intros H. apply recovered_snoc; auto.
  - intros H. apply Exists_app. left. auto.
  - intros H. apply Exists_app. destruct (H3 H) as [H5|H5]; [left; auto|]. right. by apply Exists_cons_hd.
  - intros H. destruct (H4 H) as (H5 & -> & H6). eapply fresh_at_snoc; [|by apply ss_fresh0]. cbn.
    intros s [[Hc Hs]|Hs]; [left|right; apply Exists_app; by left]. destruct (H6 Hc) as [? ?].
    split; [done|]. apply Forall_app. split; [done|]. by constructor.
Qed.

Lemma moved_restart o st st' log ev :
  restart_ns st = last_restart o log → moved o ev st st' → restart_ns st' = last_restart o (log ++ [ev]).
Proof.
  intros Hr Hm. rewrite last_restart_snoc. destruct ev as [e|q|o' received source applied valid age|o' drained now ready|];
    cbn in Hm.
  - destruct (decide (owner e = o)) as [Ho|Ho]; subst st'; [|by rewrite decide_False by naive_solver].
    unfold apply_edge. destruct (action e) eqn:Ea; cbn;
      [by rewrite decide_False by naive_solver|by rewrite decide_True|by rewrite decide_False by naive_solver].
  - destruct (decide _); subst st'; [|done]. unfold apply_query. by destruct (required_prices_ready q).
  - destruct (decide _); subst st'; [|done]. unfold apply_book. repeat case_match; done.
  - destruct (decide _); [|by subst]. unfold become_ready in Hm. repeat case_match; simplify_eq; done.
  - destruct Hm as [->|[w ->]]; done.
Qed.

Lemma since_stop_edge o st before since e :
  since_stop o st before since → owner e = o → action e ≠ Stop → since_stop o (apply_edge e st) before (since ++ [Edge e]).
Proof.
  intros H Ho Ha. unfold apply_edge. destruct (action e) eqn:Ea; [done| |].
  - by apply (since_stop_snoc o st); cbn; auto.
  - destruct H. split; cbn.
    + done.
    + intros _. apply Exists_app. right. by apply Exists_cons_hd.
    + intros H. apply Exists_app. left. auto.
    + intros H. eapply fresh_at_snoc; [|by apply ss_fresh0]. cbn. intros s [[_ Hs]|Hs].
      * left. split; [done|]. apply Forall_app. split; [done|]. apply Forall_singleton. by intros [].
      * right. apply Exists_app. by left.
Qed.

Lemma since_stop_book o st before since received source applied valid age :
  since_stop o st before since → restart_ns st = last_restart o (before ++ since) →
  since_stop o (apply_book received source applied valid age st) before
    (since ++ [Book o received source applied valid age]).
Proof.
  intros H Hr. unfold apply_book, fresh. destruct (bool_decide (phase st = Catchup)) eqn:Ec; bool_hyps; cbn.
  - rewrite bool_decide_true by done. cbn. destruct (_ && _) eqn:Ef.
    + bool_hyps. subst valid. pose proof H as []. split; cbn.
      * rewrite Ec. done.
      * intros _. apply Exists_app. left. auto.
      * intros Ho. apply Exists_app. left. auto.
      * intros _. exists since, [], received, source, applied, age. repeat split; try done; [by auto|by left|lia].
    + apply (since_stop_snoc o st); cbn; auto. done.
  - rewrite bool_decide_false by done. cbn. apply (since_stop_snoc o st); cbn; auto. intros Hf. repeat split; done.
Qed.

Lemma since_stop_tried o st st' before since drained now ready :
  since_stop o st before since → (st', ready) = become_ready drained now st →
  since_stop o st' before (since ++ [Tried o drained now ready]).
Proof.
  intros H. unfold become_ready, may_ready. destruct (_ && _) eqn:E; intros [= -> ->].
  - bool_hyps. subst drained. destruct H. split; cbn.
    + intros _. exists since, [], now, (fresh_until_ns st). split; [done|]. split; [|by auto].
      destruct (ss_fresh0 ltac:(done)) as (s1 & s2 & rest). exists s1, s2.
      destruct rest as (? & ? & ? & ? & ? & ? & Hs & rest). do 4 eexists. split; [done|]. split; [done|]. split; [|exact rest].
      destruct Hs as [[_ ?]|?]; auto.
    + done.
    + intros _. apply Exists_app. left. auto.
    + intros Hf. eapply fresh_at_snoc; [|by apply ss_fresh0]. cbn. intros s _. right. apply Exists_app. right.
      by apply Exists_cons_hd.
  - apply (since_stop_snoc o st); cbn; auto.
Qed.

Lemma since_stop_moved o st st' before since ev :
  since_stop o st before since → restart_ns st = last_restart o (before ++ since) → moved o ev st st' →
  ¬ edge_of o Stop ev → since_stop o st' before (since ++ [ev]).
Proof.
  intros H Hr Hm Hne. destruct ev as [e|q|o' received source applied valid age|o' drained now ready|]; cbn in Hm.
  - destruct (decide (owner e = o)); subst st'.
    + apply since_stop_edge; [done..|]. intros Ha. by apply Hne.
    + apply (since_stop_snoc o st); cbn; auto.
  - destruct (decide (q_owner q = o)); subst st'; [|by apply (since_stop_snoc o st); cbn; auto].
    unfold apply_query. destruct (required_prices_ready q) eqn:Eq; apply (since_stop_snoc o st); cbn; auto.
  - destruct (decide (o' = o)) as [->|]; subst st'; [by apply since_stop_book|].
    apply (since_stop_snoc o st); cbn; auto.
  - destruct (decide (o' = o)) as [->|]; [by eapply since_stop_tried|]. subst st'. apply (since_stop_snoc o st); cbn; auto.
  - destruct Hm as [->|[w ->]]; apply (since_stop_snoc o st); cbn; auto.
Qed.

Lemma tracked_moved o st st' log ev : tracked o st log → moved o ev st st' → tracked o st' (log ++ [ev]).
Proof.
  intros [Hr Hlog] Hm. split; [by eapply moved_restart|].
  assert (edge_of o Stop ev ∨ ¬ edge_of o Stop ev) as [Hs|Hs].
  { destruct ev as [e| | | |]; cbn; try (right; by intros []).
    destruct (decide (owner e = o ∧ action e = Stop)); [by left|by right]. }
  - right. exists log, ev, []. do 2 (split; [done|]). split; [constructor|].
    destruct ev as [e| | | |]; try done. destruct Hs as [Ho Ha]. cbn in Hm. rewrite decide_True in Hm by done. subst st'.
    unfold apply_edge. rewrite Ha. by split.
  - destruct Hlog as [Hn|(before & ev0 & since & -> & He & Hn & Hss)].
    + left. apply Forall_app. split; [done|]. by constructor.
    + right. exists before, ev0, (since ++ [ev]). split; [by rewrite <- app_assoc|]. split; [done|].
      split; [apply Forall_app; split; [done|by constructor]|]. eapply since_stop_moved; try done. by rewrite <- app_assoc.
Qed.

Lemma run_tracked ops (s s' : RecoveryReplay W) log0 log o :
  (∀ st, states s !! o = Some st → tracked o st log0) → run s ops = Some (s', log) →
  ∀ st, states s' !! o = Some st → tracked o st (log0 ++ log).
Proof.
  revert s log0 log. induction ops as [|op ops IH]; intros s log0 log H; cbn [run].
  - intros [= <- <-]. by rewrite app_nil_r.
  - intros E. apply bind_Some in E as ([s1 ev] & E1 & E). apply bind_Some in E as ([s2 log2] & E2 & [= -> <-]).
    rewrite cons_middle, app_assoc. eapply IH; [|done]. intros st1 H1.
    destruct (exec_back _ _ _ _ _ _ E1 H1) as (st0 & H0 & Hm). eapply tracked_moved; [by apply H|done].
Qed.

End histories.

(** ** The order of the edges *)

Section order.
Context {A : Type} (le : A → A → bool).
Hypothesis le_total : ∀ x y, le x y = true ∨ le y x = true.
Hypothesis le_trans : ∀ x y z, le x y = true → le y z = true → le x z = true.

Lemma insert_by_perm x l : insert_by le x l ≡ₚ x :: l.
Proof.
  induction l as [|y l IH]; cbn; [done|]. destruct (le x y); [done|]. rewrite IH. apply Permutation_swap.
Qed.

Lemma sort_by_perm l : sort_by le l ≡ₚ l.
Proof. induction l as [|x l IH]; cbn; [done|]. unfold sort_by in IH. by rewrite insert_by_perm, IH. Qed.

Lemma insert_by_sorted x l :
  StronglySorted (λ a b, le a b = true) l → StronglySorted (λ a b, le a b = true) (insert_by le x l).
Proof.
  induction 1 as [|y l Hs IH Hall]; cbn; [by repeat constructor|]. destruct (le x y) eqn:E.
  - constructor; [by constructor|]. constructor; [done|]. eapply Forall_impl; [done|]. cbn. eauto.
  - constructor; [done|]. rewrite insert_by_perm. constructor; [|done]. destruct (le_total x y); congruence.
Qed.

Lemma sort_by_sorted l : StronglySorted (λ a b, le a b = true) (sort_by le l).
Proof. induction l as [|x l IH]; cbn; [constructor|]. by apply insert_by_sorted. Qed.

(** The elements of a kind keep the order they have, if that is the order of the keys. *)
Lemma filter_sort_by (P : A → Prop) `{!∀ x, Decision (P x)} l :
  (∀ x y, x ∈ l → y ∈ l → P x → P y → le x y = true → le y x = true → x = y) →
  StronglySorted (λ a b, le a b = true) (filter P l) → filter P (sort_by le l) = filter P l.
Proof.
  intros Hanti Hs. apply (StronglySorted_unique_strong (λ a b, le a b = true)).
  - intros x y [Px Hx]%list_elem_of_filter [Py Hy]%list_elem_of_filter. rewrite sort_by_perm in Hx. by apply Hanti.
  - pose proof (sort_by_sorted l) as Hl. clear -Hl. induction Hl as [|x k Hl IH Hall]; [constructor|]. rewrite filter_cons.
    destruct (decide (P x)); [|done]. constructor; [done|]. rewrite Forall_forall in *. intros y Hy. apply Hall.
    by apply list_elem_of_filter in Hy as [_ ?].
  - done.
  - by rewrite sort_by_perm.
Qed.
End order.

Lemma edge_le_iff a b :
  edge_le a b = true ↔
  when_ns a < when_ns b ∨
  (when_ns a = when_ns b ∧
   ((owner a < owner b)%nat ∨ (owner a = owner b ∧ action_code (action a) <= action_code (action b)))).
Proof.
  unfold edge_le. rewrite orb_true_iff, andb_true_iff, orb_true_iff, andb_true_iff.
  by rewrite Z.ltb_lt, Z.eqb_eq, Nat.ltb_lt, Nat.eqb_eq, Z.leb_le.
Qed.

Lemma edge_le_total a b : edge_le a b = true ∨ edge_le b a = true.
Proof. rewrite !edge_le_iff. lia. Qed.

Lemma edge_le_trans a b c : edge_le a b = true → edge_le b c = true → edge_le a c = true.
Proof. rewrite !edge_le_iff. lia. Qed.

(** Two edges of an owner in their order. *)
Definition edge_lt (a b : RecoveryEdge) : Prop :=
  when_ns a < when_ns b ∨ (when_ns a = when_ns b ∧ action_code (action a) < action_code (action b)).

Definition cycles (n : nat) : list RecoveryAction := concat (replicate n [Stop; Restart; ReconcileComplete]).

Lemma strongly_sorted_total {A} (R : A → A → Prop) l x y :
  StronglySorted R l → x ∈ l → y ∈ l → x = y ∨ R x y ∨ R y x.
Proof.
  induction 1 as [|z l Hl IH Hall]; [by intros ?%not_elem_of_nil|]. rewrite Forall_forall in Hall.
  intros [->|Hx]%elem_of_cons [->|Hy]%elem_of_cons; auto.
Qed.

Lemma cycles_app n m : cycles n ++ cycles m = cycles (n + m).
Proof. unfold cycles. by rewrite replicate_add, concat_app. Qed.

Section windows.
Context (owners : gmap string nat) (delay start_ns end_ns : Z) (all : list Window).
Hypothesis delay_nonneg : 0 <= delay.
(** No window of an owner begins at the instant another is reconciled. *)
Hypothesis apart : ∀ w w', w ∈ all → w' ∈ all → owners !! instance_id w = owners !! instance_id w' →
  w_restart_ns w + delay ≠ stop_ns w'.

Definition kept (o : nat) (w : Window) : Prop :=
  owners !! instance_id w = Some o ∧ start_ns <= w_restart_ns w +s delay ∧ stop_ns w <= end_ns.

#[local] Instance kept_decision o w : Decision (kept o w).
Proof. unfold kept. apply _. Defined.

Record laid_out (o : nat) (n : nat) (es : list RecoveryEdge) (previous_end : gmap nat Z) : Prop := {
  lo_actions : action <$> filter (λ e, owner e = o) es = cycles n;
  lo_sorted : StronglySorted edge_lt (filter (λ e, owner e = o) es);
  lo_end : match previous_end !! o with
           | Some t => Forall (λ e, when_ns e <= t) (filter (λ e, owner e = o) es) ∧
                       ∃ w, w ∈ all ∧ owners !! instance_id w = Some o ∧ t = w_restart_ns w + delay
           | None => filter (λ e, owner e = o) es = []
           end }.

Lemma strongly_sorted_app {A} (R : A → A → Prop) l1 l2 :
  StronglySorted R l1 → StronglySorted R l2 → (∀ x y, x ∈ l1 → y ∈ l2 → R x y) → StronglySorted R (l1 ++ l2).
Proof.
  induction 1 as [|x l1 Hl IH Hall]; intros H2 H; [done|]. cbn. constructor.
  - apply IH; [done|]. intros. apply H; [by right|done].
  - apply Forall_app. split; [done|]. apply Forall_forall. intros y Hy. apply H; [by left|done].
Qed.

Lemma laid_out_window o n es previous_end w t :
  laid_out o n es previous_end → w ∈ all → owners !! instance_id w = Some o →
  stop_ns w < w_restart_ns w → start_ns <= t → t = w_restart_ns w + delay →
  match previous_end !! o with Some e => e <= stop_ns w | None => True end →
  laid_out o (n + 1) (es ++ window_edges start_ns w o t) (<[o := t]> previous_end).
Proof.
  intros [Ha Hs He] Hw Ho Hlt Ht Et Hp.
  assert (filter (λ e, owner e = o) (window_edges start_ns w o t) = window_edges start_ns w o t) as Hf.
  { unfold window_edges. by rewrite !filter_cons_True by done. }
  assert (∀ x, x ∈ filter (λ e, owner e = o) es → when_ns x < stop_ns w) as Hbefore.
  { intros x Hx. destruct (previous_end !! o) as [e|]; [|rewrite He in Hx; by apply not_elem_of_nil in Hx].
    destruct He as [He (w0 & Hw0 & Ho0 & ->)]. rewrite Forall_forall in He. apply He in Hx.
    pose proof (apart w0 w Hw0 Hw ltac:(congruence)). lia. }
  split; rewrite filter_app, Hf.
  - by rewrite fmap_app, Ha, <- cycles_app.
  - apply strongly_sorted_app; [done| |].
    + unfold window_edges. repeat first [apply SSorted_nil|apply SSorted_cons|apply Forall_nil_2|apply Forall_cons_2];
        unfold edge_lt; cbn; lia.
    + intros x y Hx Hy. apply Hbefore in Hx. left. unfold window_edges in Hy.
      rewrite !elem_of_cons in Hy. destruct Hy as [->|[->|[->|Hy%not_elem_of_nil]]]; cbn; lia.
  - rewrite lookup_insert_eq. split; [|eauto]. apply Forall_app. split.
    + apply Forall_forall. intros x Hx. apply Hbefore in Hx. lia.
    + unfold window_edges. repeat first [apply Forall_nil_2|apply Forall_cons_2]; cbn; lia.
Qed.

Lemma laid_out_other o o' n es previous_end w t :
  o ≠ o' → laid_out o n es previous_end →
  laid_out o n (es ++ window_edges start_ns w o' t) (<[o' := t]> previous_end).
Proof.
  intros Hne [Ha Hs He].
  assert (filter (λ e, owner e = o) (window_edges start_ns w o' t) = []) as Hf.
  { unfold window_edges. by rewrite !filter_cons_False by (cbn; congruence). }
  split; rewrite filter_app, Hf, app_nil_r; [done..|]. by rewrite lookup_insert_ne by done.
Qed.

Lemma windows_edges_laid_out o ws n es previous_end es' :
  laid_out o n es previous_end → (∀ w, w ∈ ws → w ∈ all) →
  windows_edges owners delay start_ns end_ns ws previous_end es = inr es' →
  ∃ previous_end', laid_out o (n + length (filter (kept o) ws)) es' previous_end'.
Proof.
  revert n es previous_end. induction ws as [|w ws IH]; intros n es previous_end Hl Hin; cbn [windows_edges].
  { intros [= <-]. rewrite Nat.add_0_r. eauto. }
  assert (∀ w, w ∈ ws → w ∈ all) as Hin' by (intros; apply Hin; by right).
  rewrite filter_cons. destruct (_ || _) eqn:Ek.
  { intros E. rewrite decide_False; [by eapply IH|]. intros (_ & H1 & H2). apply orb_true_iff in Ek. lia. }
  bool_hyps. destruct (owners !! instance_id w) as [o'|] eqn:Eo; [|done].
  destruct (stop_ns w <? w_restart_ns w) eqn:Es; [|done]. destruct (String.eqb _ _); [|done]. cbn [negb].
  destruct (match previous_end !! o' with Some e => e <=? stop_ns w | None => true end) eqn:Ep; [|done]. cbn [negb].
  unfold checked_add. destruct (_ <=? _) eqn:Eadd; [|done]. bool_hyps. intros E.
  destruct (decide (o = o')) as [<-|Hne].
  - rewrite decide_True by (by split). cbn [length]. rewrite <- Nat.add_1_l, Nat.add_assoc. eapply IH; [|done|exact E].
    apply laid_out_window; try done; [apply Hin; by left|unfold saturating_add in *; lia|].
    destruct (previous_end !! o); [by apply Z.leb_le|done].
  - rewrite decide_False by (intros (? & _); congruence). eapply IH; [|done|exact E]. by apply laid_out_other.
Qed.
End windows.

Lemma sorted_weaken {A} (R R' : A → A → Prop) l :
  StronglySorted R l → (∀ x y, x ∈ l → y ∈ l → R x y → R' x y) → StronglySorted R' l.
Proof.
  induction 1 as [|x l Hl IH Hall]; intros H; [constructor|]. rewrite Forall_forall in Hall. constructor.
  - apply IH. intros. apply H; [by right..|done].
  - apply Forall_forall. intros y Hy. apply H; [by left|by right|by apply Hall].
Qed.

(** the edges follow the windows.  A journal that is accepted, in which no window of an
    owner begins at the instant another of its windows is reconciled, gives a list of
    edges in the order of time in which the edges of each owner are stop, restart and
    reconciliation, once for each of its windows that meets the replay. *)
Theorem edges_follow_windows {W} windows owners delay start_ns end_ns (replay : RecoveryReplay W) :
  0 <= delay →
  (∀ w w', w ∈ windows → w' ∈ windows → owners !! instance_id w = owners !! instance_id w' →
     w_restart_ns w + delay ≠ stop_ns w') →
  from_windows windows owners delay start_ns end_ns = inr replay →
  StronglySorted (λ a b, when_ns a <= when_ns b) (edges replay) ∧
  ∀ o, action <$> filter (λ e, owner e = o) (edges replay) =
       cycles (length (filter (kept owners delay start_ns end_ns o) windows)).
Proof.
  intros Hd Hapart. unfold from_windows. destruct (_ <? _)%nat; [done|].
  destruct (windows_edges _ _ _ _ _ _ _) as [|es] eqn:E; [done|]. intros [= <-]. cbn [edges]. split.
  - eapply sorted_weaken; [apply (sort_by_sorted edge_le edge_le_total edge_le_trans)|].
    intros a b _ _. rewrite edge_le_iff. lia.
  - intros o.
    destruct (windows_edges_laid_out owners delay start_ns end_ns windows Hd Hapart o (sort_by window_le windows) 0 [] ∅ es)
      as [previous_end [Ha Hs _]];
      [split; [done|constructor|by rewrite lookup_empty]|intros w; by rewrite sort_by_perm|done|].
    rewrite (filter_sort_by edge_le edge_le_total edge_le_trans).
    + rewrite Ha. cbn. by rewrite sort_by_perm.
    + intros x y Hx Hy Ox Oy L1 L2.
      destruct (strongly_sorted_total edge_lt (filter (λ e, owner e = o) es) x y Hs) as [?|Hlt];
        [by apply list_elem_of_filter..|done|]. exfalso. rewrite edge_le_iff in L1, L2. unfold edge_lt in Hlt. lia.
    + eapply sorted_weaken; [exact Hs|]. intros a b [Oa _]%list_elem_of_filter [Ob _]%list_elem_of_filter.
      rewrite edge_le_iff. unfold edge_lt. lia.
Qed.

(** ** Nothing is dropped silently *)

(** A report of the oracle is stored after those before it, or the error says that it is
    not; other sources are ignored. *)
Lemma observe_report_spec self o report self' e rs :
  observe_report self o report = Some (self', e) → reports self !! o = Some rs →
  reports self' !! o = Some (if oracle_source (sp_source report) then match e with None => rs ++ [report] | Some _ => rs end
                             else rs) ∧
  (e = None ∨ length rs = MAX_RECOVERY_ORACLE_REPORTS ∨ (MAX_RECOVERY_ORACLE_REPORTS < length rs)%nat).
Proof.
  unfold observe_report. destruct (oracle_source _); cbn [negb]; [|intros [= <- <-] ->; by split; [|left]].
  intros E Hrs. rewrite Hrs in E. cbn [mbind option_bind] in E. apply bind_Some in E as (c & _ & E). apply bind_Some in E as (h & _ & E).
  destruct (_ <? _)%nat eqn:L; simplify_eq.
  - cbn. rewrite list_lookup_insert_eq by (by eapply lookup_lt_Some). by split; [|left].
  - apply Nat.ltb_ge in L. rewrite Hrs. split; [done|]. right. lia.
Qed.

Lemma replace_first_spec same event es es' :
  replace_first same event es = Some es' → event ∈ es' ∧ ∀ x, x ∈ es → same x = false → x ∈ es'.
Proof.
  revert es'. induction es as [|y es IH]; intros es' H; cbn in H; [done|]. destruct (same y) eqn:Ey.
  - injection H as <-. split; [by left|]. intros x [->|Hx]%elem_of_cons; [congruence|]. intros _. by right.
  - destruct (replace_first _ _ _) as [es1|]; [|done]. injection H as <-. destruct (IH es1 eq_refl) as [H1 H2].
    split; [by right|]. intros x [->|Hx]%elem_of_cons Hs; [by left|]. right. by apply H2.
Qed.

(** An instrument that is observed is pending, unless the error says that it is not, and
    no other instrument leaves. *)
Lemma observe_metadata_spec self o id incoming self' entries :
  observe_metadata self o (id, InstrumentEvent incoming) = Some (self', None) → pending self !! o = Some entries →
  ∃ entries', pending self' !! o = Some entries' ∧ (id, InstrumentEvent incoming) ∈ entries' ∧
    ∀ x, x ∈ entries → same_instrument incoming x = false → x ∈ entries'.
Proof.
  unfold observe_metadata. cbn [snd]. intros E Hp. rewrite Hp in E. cbn [mbind option_bind] in E.
  destruct (replace_first _ _ _) as [es'|] eqn:Er.
  - injection E as <-. exists es'. cbn. rewrite list_lookup_insert_eq by (by eapply lookup_lt_Some).
    split; [done|]. by apply replace_first_spec.
  - destruct (_ <? _)%nat; [|done]. apply bind_Some in E as (h & _ & [= <-]). cbn.
    rewrite list_lookup_insert_eq by (by eapply lookup_lt_Some). eexists. split; [done|]. split; set_solver.
Qed.

(** ** Instances *)

Definition demo_window (stop restart : Z) : Window := mkWindow "btc01" stop restart "observed_log_boundary".
Definition demo_owners : gmap string nat := {["btc01"%string := 0%nat]}.
Definition demo_windows : list Window := [demo_window 40 50; demo_window 10 20].
Definition demo_replay : RecoveryReplay unit :=
  match from_windows demo_windows demo_owners 5 0 1000 with inr r => r | inl _ => without_journal demo_owners end.

(** The first outage of the owner, up to the moment it is ready again. *)
Definition demo_ops : list (@Op unit) :=
  [OStep 10; OReady 0 true 11; OStep 20; OStep 25; OBook 0 26 26 27 true 100;
   OQuery (mkAudit 0 25 27 3 3 0 24 24 2 true); OReady 0 true 30].

(** Two windows, the second beginning when the first is reconciled, are accepted; at that
    instant the owner stops and then enters its catch-up, while its process is down. *)
Lemma touching_windows_misordered :
  match from_windows (W := unit) [demo_window 10 20; demo_window 25 40] demo_owners 5 0 1000 with
  | inr r =>
      action <$> edges r = [Stop; Restart; Stop; ReconcileComplete; Restart; ReconcileComplete] ∧
      match run r [OStep 10; OStep 20; OStep 25; OStep 25] with
      | Some (s, _) => phase <$> states s = [Catchup] ∧ VirtualRecovery.peek_when s = Some 40
      | None => False
      end
  | inl _ => False
  end.
Proof. vm_compute. done. Qed.


Lemma edges_follow_windows_witness :
  from_windows demo_windows demo_owners 5 0 1000 = inr demo_replay ∧
  StronglySorted (λ a b, when_ns a <= when_ns b) (edges demo_replay) ∧
  ∀ o, action <$> filter (λ e, owner e = o) (edges demo_replay) =
       cycles (length (filter (kept demo_owners 5 0 1000 o) demo_windows)).
Proof.
  split; [reflexivity|].
  apply (edges_follow_windows demo_windows demo_owners 5 0 1000 demo_replay); [lia| |reflexivity].
  intros w w' Hw Hw' _. unfold demo_windows in *. rewrite !elem_of_cons, elem_of_nil in Hw, Hw'.
  destruct Hw as [->|[->|[]]], Hw' as [->|[->|[]]]; cbn; lia.
Defined.
