(* ===== verification/PrivateExecution.v ===== *)
(** * Private execution economics

    [private_execution_cache.rs] (hexagent-exchange/src/exchange/polymarket): the fixed
    table in which the owner of the private feed keeps, for every trade it delivered, the
    price and the fee it delivered, until the account has acknowledged the trade; the lane
    of completion words through which the account's writer acknowledges; and
    [PrivateRouteDedupe] of user_feed.rs, the window of lifecycle messages already routed,
    with the fingerprint both use.

    The capacity, 32,768 in the code, is a variable, so that the theorems hold for every
    capacity and the witnesses run on small ones.  The iteration order of the hash map,
    which decides in what order a scan queues rows, is a parameter.  Strings are ASCII.

    Proved: the slots of the table are never shared nor lost and no operation panics; a row
    leaves the table only after its own ticket was acknowledged and its economics were
    delivered; an insertion is refused exactly when no row may leave; a row's economics
    never change; and the window remembers exactly the last identities it accepted. *)

From Stdlib Require Import Ascii.
From S2P Require Import Prelude F64 Types.

#[local] Arguments Nat.ltb : simpl never.
#[local] Arguments Nat.leb : simpl never.

(** ** Identities *)

(** [str::trim] on ASCII text. *)
Definition is_white (a : Ascii.ascii) : bool :=
  let n := Z.of_N (Ascii.N_of_ascii a) in ((9 <=? n) && (n <=? 13)) || (n =? 32).

Fixpoint trim_start (l : list Ascii.ascii) : list Ascii.ascii :=
  match l with a :: l' => if is_white a then trim_start l' else l | [] => [] end.

Definition trim (l : list Ascii.ascii) : list Ascii.ascii := reverse (trim_start (reverse (trim_start l))).

Definition strip_prefix (p l : list Ascii.ascii) : option (list Ascii.ascii) :=
  if bool_decide (take (length p) l = p) then Some (drop (length p) l) else None.

(** [str::trim_start_matches] with a pattern of two bytes. *)
Fixpoint trim_start_matches (p0 p1 : Ascii.ascii) (l : list Ascii.ascii) : list Ascii.ascii :=
  match l with
  | a :: ((b :: l') as rest) => if bool_decide (a = p0) && bool_decide (b = p1) then trim_start_matches p0 p1 l' else a :: rest
  | _ => l
  end.

Definition to_ascii_lowercase (a : Ascii.ascii) : Z :=
  let n := Z.of_N (Ascii.N_of_ascii a) in if (65 <=? n) && (n <=? 90) then n + 32 else n.

Definition wrapping_mul (a b : Z) : Z := (a * b) mod 2 ^ 64.
Definition rotate_left (x k : Z) : Z := Z.lor (Z.shiftl x k mod 2 ^ 64) (Z.shiftr x (64 - k)).

Definition hex0x : list Ascii.ascii := String.list_ascii_of_string "0x".
Definition hex0X : list Ascii.ascii := String.list_ascii_of_string "0X".

Definition fingerprint_byte (h : Z * Z) (byte : Z) : Z * Z :=
  (wrapping_mul (Z.lxor h.1 byte) 0x100000001b3,
   wrapping_mul (rotate_left (Z.lxor h.2 (byte +w 0x9d)) 7) 0x9e3779b185ebca87).

Definition fingerprint_part (kind : Z) (h : Z * Z) (index : nat) (part : list Ascii.ascii) : Z * Z :=
  let part := trim part in
  let part :=
    if (kind =? 111) || ((kind =? 109) && (index =? 1)%nat)
    then match strip_prefix hex0x part with
         | Some p => p
         | None => default part (strip_prefix hex0X part)
         end
    else part in
  let h := fold_left fingerprint_byte (to_ascii_lowercase <$> part) h in
  (Z.lxor h.1 0xff, Z.lxor h.2 0xa5).

Definition private_route_fingerprint (kind : Z) (parts : list string) : Z :=
  let h := foldl (λ h p, fingerprint_part kind h p.1 (String.list_ascii_of_string p.2))
             (Z.lxor 0xcbf29ce484222325 kind, Z.lxor 0x9e3779b97f4a7c15 kind)
             (imap (λ i p, (i, p)) parts) in
  Z.lor (Z.shiftl h.1 64) h.2.

(** [b'e'], [b'm'], [b't'] *)
Definition identity (order token : string) : Z :=
  let order := trim (String.list_ascii_of_string order) in
  let order := trim_start_matches "0"%char "x"%char order in
  let order := trim_start_matches "0"%char "X"%char order in
  private_route_fingerprint 101 [String.string_of_list_ascii order; token].

Definition key (trade order : string) (is_maker : bool) : Z :=
  if is_maker then private_route_fingerprint 109 [trade; order] else private_route_fingerprint 116 [trade].

(** [trade_key.split(':').next()] *)
Fixpoint before_colon (s : string) : string :=
  match s with
  | String a s => if bool_decide (a = ":"%char) then EmptyString else String a (before_colon s)
  | EmptyString => EmptyString
  end.

(** ** Rows *)

Record FeeBasis := mkBasis { fb_settlement : FeeSettlement; rate : f64; exponent : f64 }.
Record TradeFee := mkFee { tf_settlement : FeeSettlement; usdc_fee : f64; shares_fee : f64 }.

Record FrozenTradeExecution := mkFrozen {
  raw_price : f64;
  price : f64;
  gross_notional : option f64;
  fee_basis : FeeBasis;
  fee : TradeFee }.

(** The derived [PartialEq], in which no NaN equals itself. *)
Definition option_f64_eq (a b : option f64) : bool :=
  match a, b with Some x, Some y => f64_eq x y | None, None => true | _, _ => false end.

Definition frozen_eq (a b : FrozenTradeExecution) : bool :=
  f64_eq (raw_price a) (raw_price b) && f64_eq (price a) (price b)
  && option_f64_eq (gross_notional a) (gross_notional b)
  && bool_decide (fb_settlement (fee_basis a) = fb_settlement (fee_basis b))
  && f64_eq (rate (fee_basis a)) (rate (fee_basis b)) && f64_eq (exponent (fee_basis a)) (exponent (fee_basis b))
  && bool_decide (tf_settlement (fee a) = tf_settlement (fee b))
  && f64_eq (usdc_fee (fee a)) (usdc_fee (fee b)) && f64_eq (shares_fee (fee a)) (shares_fee (fee b)).

Record TradeOwnership := mkOwnership {
  order_slot : Z;
  account_id : string;
  instance_id : string;
  trade_key : string;
  client_order_id : string;
  order_id : string;
  token_id : string;
  to_side : Side;
  to_quantity : f64;
  to_price : f64;
  status : string }.

Record PrivateExecutionSeed := mkSeed {
  ownership : TradeOwnership;
  ps_is_maker : bool;
  ps_execution : option FrozenTradeExecution }.

Record ExecutionAckTicket := mkTicket { slot : nat; tk_generation : Z }.

#[export] Instance ExecutionAckTicket_eq_dec : EqDecision ExecutionAckTicket.
Proof. solve_decision. Defined.

Record CachedExecution := mkRow {
  row_identity : Z;
  quantity : f64;
  side : Side;
  is_maker : bool;
  execution : option FrozenTradeExecution;
  terminal : bool;
  queued : bool;
  repair_delivery_pending : bool;
  repair_owner : option TradeOwnership;
  ticket : ExecutionAckTicket }.

(** [acknowledgements] are the words the cold writer shares; [free_slots] is the stack
    with its top first. *)
Record PrivateExecutionCache := mkCache {
  rows : gmap Z CachedExecution;
  reclaimable : list Z;
  acknowledgements : list Z;
  free_slots : list nat;
  generation : Z }.

Inductive CacheError :=
| SeedExceedsCapacity
| FrozenIdentityChanged
| FeeNotAttributed
| RawPriceChanged
| CapacityExhausted
| GenerationExhausted
| FeeProofPending
| RepairChangedIdentity
| RepairChangedEconomics.

(** ** The table *)

Section Cache.
Context (capacity : nat) (iter : gmap Z CachedExecution → list Z).

Definition seed_key (seed : PrivateExecutionSeed) : Z :=
  let trade := ownership seed in
  key (if ps_is_maker seed then before_colon (trade_key trade) else trade_key trade)
    (order_id trade) (ps_is_maker seed).

Definition seed_terminal (seed : PrivateExecutionSeed) : bool :=
  let status := status (ownership seed) in
  String.eqb status "CONFIRMED" || String.eqb status "FAILED".

Definition is_some {A} (x : option A) : bool := match x with Some _ => true | None => false end.

Definition insert_seed (self : PrivateExecutionCache) (seed : PrivateExecutionSeed) : option PrivateExecutionCache :=
  let trade := ownership seed in
  let terminal := seed_terminal seed in
  let reclaim := terminal && is_some (ps_execution seed) in
  match free_slots self with
  | [] => None
  | s :: free =>
      let generation := generation self +w 1 in
      let row := mkRow (identity (order_id trade) (token_id trade)) (to_quantity trade) (to_side trade)
                   (ps_is_maker seed) (ps_execution seed) terminal reclaim false None (mkTicket s generation) in
      Some (mkCache (<[seed_key seed := row]> (rows self))
              (if reclaim then reclaimable self ++ [seed_key seed] else reclaimable self)
              (acknowledgements self) free generation)
  end.

Fixpoint insert_seeds (self : PrivateExecutionCache) (seeds : list PrivateExecutionSeed) : option PrivateExecutionCache :=
  match seeds with
  | [] => Some self
  | seed :: seeds => match insert_seed self seed with Some self => insert_seeds self seeds | None => None end
  end.

Definition empty_cache : PrivateExecutionCache := mkCache ∅ [] (replicate capacity 0) (seq 0 capacity) 0.

Definition new (seeds : list PrivateExecutionSeed) : option (CacheError + PrivateExecutionCache) :=
  if (capacity <? length seeds)%nat then Some (inl SeedExceedsCapacity)
  else inr <$> insert_seeds empty_cache seeds.

(** [(row.quantity - quantity).abs() > quantity.abs().max(1.0) * 1e-8] *)
Definition quantity_changed (old q : f64) : bool :=
  f64_gt (f64_abs (f64_sub old q)) (f64_mul (f64_max (f64_abs q) f64_one) (f64_dec 1 8)).

Definition price_changed (old p : f64) : bool := f64_gt (f64_abs (f64_sub old p)) (f64_dec 1 7).

Definition lookup (self : PrivateExecutionCache) (trade order token : string) (sd : Side) (q raw : f64) (maker : bool)
    : CacheError + option FrozenTradeExecution :=
  match rows self !! key trade order maker with
  | None => inr None
  | Some row =>
      if negb (row_identity row =? identity order token) || negb (bool_decide (side row = sd))
         || negb (eqb (is_maker row) maker) || quantity_changed (quantity row) q
      then inl FrozenIdentityChanged
      else match execution row with
           | None => inl FeeNotAttributed
           | Some e =>
               if negb (is_some (gross_notional e)) && price_changed (raw_price e) raw && price_changed (price e) raw
               then inl RawPriceChanged
               else inr (Some e)
           end
  end.

(** One row of the scan at the capacity boundary. *)
Definition scan_row (self : PrivateExecutionCache) (k : Z) : option PrivateExecutionCache :=
  match rows self !! k with
  | None => Some self
  | Some row =>
      if negb (queued row) && is_some (execution row) && negb (repair_delivery_pending row)
      then match acknowledgements self !! slot (ticket row) with
           | None => None
           | Some word =>
               if word =? tk_generation (ticket row)
               then Some (self <| rows := <[k := row <| terminal := true |> <| queued := true |>]> (rows self) |>
                               <| reclaimable := reclaimable self ++ [k] |>)
               else Some self
           end
      else Some self
  end.

Fixpoint scan_rows (self : PrivateExecutionCache) (ks : list Z) : option PrivateExecutionCache :=
  match ks with
  | [] => Some self
  | k :: ks => match scan_row self k with Some self => scan_rows self ks | None => None end
  end.

Definition scan (self : PrivateExecutionCache) : option PrivateExecutionCache :=
  if (capacity <=? size (rows self))%nat && bool_decide (reclaimable self = [])
  then scan_rows self (iter (rows self)) else Some self.

(** [while self.rows.len() >= CAPACITY]; false when the queue runs out. *)
Fixpoint evict (self : PrivateExecutionCache) (queue : list Z) : PrivateExecutionCache * bool :=
  if (size (rows self) <? capacity)%nat then (self <| reclaimable := queue |>, true)
  else
    match queue with
    | [] => (self <| reclaimable := [] |>, false)
    | old :: queue =>
        match rows self !! old with
        | Some row =>
            if terminal row && queued row && negb (repair_delivery_pending row)
            then evict (self <| rows := delete old (rows self) |> <| free_slots := slot (ticket row) :: free_slots self |>) queue
            else evict (self <| rows := <[old := row <| queued := false |>]> (rows self) |>) queue
        | None => evict self queue
        end
    end.

Definition add_row (self : PrivateExecutionCache) (k : Z) (order token : string) (sd : Side) (q : f64)
    (maker : bool) (e : FrozenTradeExecution) : option (PrivateExecutionCache * option CacheError) :=
  match checked_add (generation self) 1 with
  | None => Some (self, Some GenerationExhausted)
  | Some g =>
      match free_slots self with
      | [] => None
      | s :: free =>
          let row := mkRow (identity order token) q sd maker (Some e) false false false None (mkTicket s g) in
          Some (self <| rows := <[k := row]> (rows self) |> <| free_slots := free |> <| generation := g |>, None)
      end
  end.

Definition insert (self : PrivateExecutionCache) (trade order token : string) (sd : Side) (q : f64)
    (maker : bool) (e : FrozenTradeExecution) : option (PrivateExecutionCache * option CacheError) :=
  let k := key trade order maker in
  match rows self !! k with
  | Some _ => Some (self, None)
  | None =>
      match scan self with
      | None => None
      | Some self =>
          match evict self (reclaimable self) with
          | (self, false) => Some (self, Some CapacityExhausted)
          | (self, true) => add_row self k order token sd q maker e
          end
      end
  end.

(** [PrivateRouteIdentity::TradeLifecycle] *)
Record PrivateRouteIdentity := TradeLifecycle { fingerprint : Z; id_rank : Z }.

Definition reclaim (self : PrivateExecutionCache) (k : Z) (row : CachedExecution) : PrivateExecutionCache :=
  self <| rows := <[k := row <| queued := true |>]> (rows self) |> <| reclaimable := reclaimable self ++ [k] |>.

Definition acknowledge (self : PrivateExecutionCache) (id : PrivateRouteIdentity) : PrivateExecutionCache :=
  if id_rank id <? 3 then self
  else
    match rows self !! fingerprint id with
    | None => self
    | Some row =>
        let row := row <| terminal := true |> in
        if negb (queued row) && negb (repair_delivery_pending row) && is_some (execution row)
        then reclaim self (fingerprint id) row
        else self <| rows := <[fingerprint id := row]> (rows self) |>
    end.

(** [ExecutionAckLane::acknowledge], by the cold writer: [fetch_max]. *)
Definition lane_acknowledge (self : PrivateExecutionCache) (t : ExecutionAckTicket) : option PrivateExecutionCache :=
  match acknowledgements self !! slot t with
  | None => None
  | Some word => Some (self <| acknowledgements := <[slot t := Z.max word (tk_generation t)]> (acknowledgements self) |>)
  end.

Definition get_ticket (self : PrivateExecutionCache) (id : PrivateRouteIdentity) : option ExecutionAckTicket :=
  ticket <$> rows self !! fingerprint id.

Definition needs_repair (self : PrivateExecutionCache) (trade order : string) (maker : bool) : bool :=
  match rows self !! key trade order maker with Some row => negb (is_some (execution row)) | None => false end.

Definition needs_delivery (self : PrivateExecutionCache) (trade order : string) (maker : bool) : bool :=
  match rows self !! key trade order maker with Some row => repair_delivery_pending row | None => false end.

Definition repair_ownership (self : PrivateExecutionCache) (trade order : string) : option TradeOwnership :=
  rows self !! key trade order false ≫= repair_owner.

Definition repair_instance (self : PrivateExecutionCache) (id : PrivateRouteIdentity) : option string :=
  instance_id <$> (rows self !! fingerprint id ≫= repair_owner).

Definition mark_delivered (self : PrivateExecutionCache) (id : PrivateRouteIdentity) : PrivateExecutionCache :=
  match rows self !! fingerprint id with
  | None => self
  | Some row =>
      let row := row <| repair_delivery_pending := false |> <| repair_owner := None |> in
      if terminal row && negb (queued row) && is_some (execution row)
      then reclaim self (fingerprint id) row
      else self <| rows := <[fingerprint id := row]> (rows self) |>
  end.

Definition repair (self : PrivateExecutionCache) (seed : PrivateExecutionSeed) : option (PrivateExecutionCache * option CacheError) :=
  let trade := ownership seed in
  match ps_execution seed with
  | None => Some (self, Some FeeProofPending)
  | Some e =>
      match rows self !! seed_key seed with
      | Some row =>
          if negb (row_identity row =? identity (order_id trade) (token_id trade))
             || negb (bool_decide (side row = to_side trade)) || quantity_changed (quantity row) (to_quantity trade)
          then Some (self, Some RepairChangedIdentity)
          else match execution row with
               | Some old => Some (self, if frozen_eq old e then None else Some RepairChangedEconomics)
               | None =>
                   Some (self <| rows := <[seed_key seed :=
                                   row <| repair_delivery_pending := true |> <| repair_owner := Some trade |>
                                       <| execution := Some e |>]> (rows self) |>, None)
               end
      | None =>
          insert self (if ps_is_maker seed then before_colon (trade_key trade) else trade_key trade)
            (order_id trade) (token_id trade) (to_side trade) (to_quantity trade) (ps_is_maker seed) e
      end
  end.

(** ** Histories

    A history starts from seeds with distinct keys.  The writer acknowledges tickets it
    was given.  [issued] are the tickets handed out, [settled] the generations whose rows
    the account has finished with: terminal at startup, acknowledged by their owner at a
    terminal rank, or acknowledged on the lane. *)

Inductive Op :=
| Insert (trade order token : string) (sd : Side) (q : f64) (maker : bool) (e : FrozenTradeExecution)
| Acknowledge (id : PrivateRouteIdentity)
| LaneAcknowledge (t : ExecutionAckTicket)
| MarkDelivered (id : PrivateRouteIdentity)
| Repair (seed : PrivateExecutionSeed).

Definition exec (c : PrivateExecutionCache) (o : Op) : option (PrivateExecutionCache * option CacheError) :=
  match o with
  | Insert trade order token sd q maker e => insert c trade order token sd q maker e
  | Acknowledge id => Some (acknowledge c id, None)
  | LaneAcknowledge t => c ← lane_acknowledge c t; Some (c, None)
  | MarkDelivered id => Some (mark_delivered c id, None)
  | Repair seed => repair c seed
  end.

Definition row_tickets (c : PrivateExecutionCache) : list ExecutionAckTicket :=
  (λ p, ticket p.2) <$> map_to_list (rows c).

Definition settled_by (c : PrivateExecutionCache) (o : Op) : list Z :=
  match o with
  | Acknowledge id =>
      if id_rank id <? 3 then []
      else match rows c !! fingerprint id with Some row => [tk_generation (ticket row)] | None => [] end
  | LaneAcknowledge t => [tk_generation t]
  | _ => []
  end.

Definition lane_ticket (o : Op) : list ExecutionAckTicket := match o with LaneAcknowledge t => [t] | _ => [] end.

Definition terminal_generations (c : PrivateExecutionCache) : list Z :=
  omap (λ p, if terminal p.2 then Some (tk_generation (ticket p.2)) else None) (map_to_list (rows c)).

Inductive history : PrivateExecutionCache → list ExecutionAckTicket → list Z → Prop :=
| hist_new seeds c :
    NoDup (seed_key <$> seeds) → new seeds = Some (inr c) → history c (row_tickets c) (terminal_generations c)
| hist_op c issued settled o c' err :
    history c issued settled → lane_ticket o ⊆ issued → exec c o = Some (c', err) →
    history c' (row_tickets c' ++ issued) (settled_by c o ++ settled).

(** ** The invariant *)

Definition row_slots (m : gmap Z CachedExecution) : list nat := (λ p, slot (ticket p.2)) <$> map_to_list m.

(** A row the account is done with, whose economics are known and delivered. *)
Definition releasable (row : CachedExecution) : Prop :=
  terminal row = true ∧ is_some (execution row) = true ∧ repair_delivery_pending row = false.

Record row_wf (c : PrivateExecutionCache) (issued : list ExecutionAckTicket) (settled : list Z) (k : Z)
    (row : CachedExecution) : Prop := {
  rw_queue : k ∈ reclaimable c ↔ queued row = true;
  rw_queued : queued row = true ↔ releasable row;
  rw_settled : tk_generation (ticket row) ∈ settled ↔
    terminal row = true ∨ acknowledgements c !! slot (ticket row) = Some (tk_generation (ticket row));
  rw_issued : ticket row ∈ issued;
  rw_latest : ∀ t, t ∈ issued → slot t = slot (ticket row) → tk_generation t ≤ tk_generation (ticket row) }.

Record wf (c : PrivateExecutionCache) (issued : list ExecutionAckTicket) (settled : list Z) : Prop := {
  wf_slots : row_slots (rows c) ++ free_slots c ≡ₚ seq 0 capacity;
  wf_words : length (acknowledgements c) = capacity;
  wf_queue : NoDup (reclaimable c) ∧ ∀ k, k ∈ reclaimable c → is_Some (rows c !! k);
  wf_rows : ∀ k row, rows c !! k = Some row → row_wf c issued settled k row;
  wf_issued : ∀ t, t ∈ issued → 0 < tk_generation t ≤ generation c ∧ (slot t < capacity)%nat;
  wf_unique : ∀ t t', t ∈ issued → t' ∈ issued → tk_generation t = tk_generation t' → t = t';
  wf_settled : ∀ g, g ∈ settled → g ≤ generation c;
  wf_word : ∀ s w, acknowledgements c !! s = Some w →
    w = 0 ∨ w ∈ settled ∧ ∃ t, t ∈ issued ∧ slot t = s ∧ tk_generation t = w;
  wf_generation : 0 ≤ generation c ≤ u64_max }.

Lemma row_slots_insert m k row : m !! k = None → row_slots (<[k := row]> m) ≡ₚ slot (ticket row) :: row_slots m.
Proof. intros E. unfold row_slots. by rewrite map_to_list_insert by done. Qed.

Lemma row_slots_delete m k row : m !! k = Some row → row_slots m ≡ₚ slot (ticket row) :: row_slots (delete k m).
Proof.
  intros E. rewrite <- (insert_delete_id m k row E) at 1. apply row_slots_insert. apply lookup_delete_eq.
Qed.

Lemma row_slots_update m k row row' :
  m !! k = Some row → ticket row' = ticket row → row_slots (<[k := row']> m) ≡ₚ row_slots m.
Proof.
  intros E Ht. rewrite (row_slots_delete _ k row' (lookup_insert_eq _ _ _)), (row_slots_delete m k row E), Ht.
  by rewrite delete_insert_eq.
Qed.

Section Wf.
Context (c : PrivateExecutionCache) (issued : list ExecutionAckTicket) (settled : list Z) (H : wf c issued settled).

Lemma slots_nodup : NoDup (row_slots (rows c) ++ free_slots c).
Proof. rewrite (wf_slots _ _ _ H). apply NoDup_seq. Qed.

Lemma slot_bound k row : rows c !! k = Some row → (slot (ticket row) < capacity)%nat.
Proof.
  intros E. assert (slot (ticket row) ∈ seq 0 capacity) as Hin; [|by apply elem_of_seq in Hin; lia].
  rewrite <- (wf_slots _ _ _ H), (row_slots_delete _ k row E). by left.
Qed.

Lemma slot_key k k' row row' :
  rows c !! k = Some row → rows c !! k' = Some row' → slot (ticket row) = slot (ticket row') → k = k'.
Proof.
  intros E E' Hs. destruct (decide (k = k')) as [|Hne]; [done|exfalso].
  pose proof slots_nodup as Hn. rewrite (row_slots_delete _ k row E) in Hn.
  rewrite (row_slots_delete _ k' row') in Hn by by rewrite lookup_delete_ne.
  rewrite Hs in Hn. cbn in Hn. apply NoDup_cons in Hn as [Hn _]. apply Hn. by left.
Qed.

Lemma slot_not_free k row s : rows c !! k = Some row → s ∈ free_slots c → slot (ticket row) ≠ s.
Proof.
  intros E Hs <-. pose proof slots_nodup as Hn. rewrite (row_slots_delete _ k row E) in Hn.
  cbn in Hn. apply NoDup_cons in Hn as [Hn _]. apply Hn, elem_of_app. by right.
Qed.

Lemma generation_key k k' row row' :
  rows c !! k = Some row → rows c !! k' = Some row' →
  tk_generation (ticket row) = tk_generation (ticket row') → k = k'.
Proof.
  intros E E' Hg. eapply slot_key; [done..|]. f_equal.
  apply (wf_unique _ _ _ H); [by eapply rw_issued, wf_rows..|done].
Qed.

Lemma rows_count : (size (rows c) + length (free_slots c) = capacity)%nat.
Proof.
  pose proof (Permutation_length (wf_slots _ _ _ H)) as Hl. rewrite length_app, length_seq in Hl.
  unfold row_slots in Hl. rewrite length_fmap, length_map_to_list in Hl. done.
Qed.

Lemma word_le k row w :
  rows c !! k = Some row → acknowledgements c !! slot (ticket row) = Some w → w ≤ tk_generation (ticket row).
Proof.
  intros E Ew. destruct (wf_word _ _ _ H _ _ Ew) as [->|(_ & t & Ht & Hs & <-)].
  - pose proof (wf_issued _ _ _ H _ (rw_issued _ _ _ _ _ (wf_rows _ _ _ H _ _ E))). lia.
  - by apply (rw_latest _ _ _ _ _ (wf_rows _ _ _ H _ _ E)).
Qed.

Lemma word_some k row : rows c !! k = Some row → is_Some (acknowledgements c !! slot (ticket row)).
Proof. intros E. apply lookup_lt_is_Some_2. rewrite (wf_words _ _ _ H). by eapply slot_bound. Qed.
End Wf.

Lemma wf_same_issued c issued issued' settled :
  wf c issued settled → (∀ t, t ∈ issued' ↔ t ∈ issued) → wf c issued' settled.
Proof.
  intros [H1 H2 H3 H4 H5 H6 H7 H8 H9] E. split; try done.
  - intros k row Hr. destruct (H4 k row Hr) as [R1 R2 R3 R4 R5].
    split; [done|done|done|by apply E|]. intros t Ht. by apply R5, E.
  - intros t Ht. by apply H5, E.
  - intros t t' Ht Ht'. by apply H6; apply E.
  - intros s' w Hw. destruct (H8 _ _ Hw) as [?|(? & t & ? & ?)]; [by left|right]. split; [done|]. exists t. by rewrite E.
Qed.

(** A row changes its flags or its economics. *)
Lemma wf_update c issued settled k row row' q extra :
  wf c issued settled → rows c !! k = Some row → ticket row' = ticket row →
  (q = reclaimable c ∧ queued row' = queued row
   ∨ q = reclaimable c ++ [k] ∧ queued row = false ∧ queued row' = true) →
  (queued row' = true ↔ releasable row') →
  (extra = [] ∨ extra = [tk_generation (ticket row)]) →
  (tk_generation (ticket row) ∈ extra ++ settled ↔
     terminal row' = true ∨ acknowledgements c !! slot (ticket row) = Some (tk_generation (ticket row))) →
  wf (c <| rows := <[k := row']> (rows c) |> <| reclaimable := q |>) issued (extra ++ settled).
Proof.
  intros H E Ht Hq Hrel Hex Hset. destruct (H) as [H1 H2 H3 H4 H5 H6 H7 H8 H9].
  destruct (H4 k row E) as [R1 R2 R3 R4 R5].
  assert (∀ k', k' ≠ k → k' ∈ q ↔ k' ∈ reclaimable c) as Hqk.
  { intros k' Hk. destruct Hq as [[-> _]|[-> _]]; [done|]. set_solver. }
  split; cbn; try done.
  - by rewrite (row_slots_update _ k row).
  - destruct H3 as [Hn Hi]. split.
    + destruct Hq as [[-> _]|(-> & Hf & _)]; [done|]. apply NoDup_app. split; [done|]. split; [|apply NoDup_singleton].
      intros x Hx ->%list_elem_of_singleton. apply R1 in Hx. congruence.
    + intros k' Hk'. destruct (decide (k' = k)) as [->|Hne]; [by rewrite lookup_insert_eq|].
      rewrite lookup_insert_ne by done. by apply Hi, Hqk.
  - intros k' r' E'. destruct (decide (k' = k)) as [->|Hne].
    + rewrite lookup_insert_eq in E'. injection E' as <-. split; cbn; rewrite ?Ht; try done.
      destruct Hq as [[-> ->]|(-> & Hf & ->)]; [done|]. split; [done|]. intros _. apply elem_of_app. right. by left.
    + rewrite lookup_insert_ne in E' by done. destruct (H4 k' r' E') as [Q1 Q2 Q3 Q4 Q5].
      split; cbn; try done; [by rewrite Hqk|]. rewrite <- Q3. destruct Hex as [->| ->]; [done|].
      rewrite elem_of_app, list_elem_of_singleton. split; [|by right]. intros [Hg|]; [|done].
      destruct Hne. by eapply generation_key.
  - intros g [Hg|Hg]%elem_of_app; [|by apply H7]. destruct Hex as [->| ->]; [by apply elem_of_nil in Hg|].
    apply list_elem_of_singleton in Hg as ->. by apply H5.
  - intros s' w Hw. destruct (H8 _ _ Hw) as [?|[Hs Hi]]; [by left|right]. split; [|done]. apply elem_of_app. by right.
Qed.

Lemma wf_update_row c issued settled k row row' extra :
  wf c issued settled → rows c !! k = Some row → ticket row' = ticket row → queued row' = queued row →
  (queued row' = true ↔ releasable row') →
  (extra = [] ∨ extra = [tk_generation (ticket row)]) →
  (tk_generation (ticket row) ∈ extra ++ settled ↔
     terminal row' = true ∨ acknowledgements c !! slot (ticket row) = Some (tk_generation (ticket row))) →
  wf (c <| rows := <[k := row']> (rows c) |>) issued (extra ++ settled).
Proof.
  intros H E Ht Hq Hrel Hex Hset.
  pose proof (wf_update c issued settled k row row' (reclaimable c) extra H E Ht (or_introl (conj eq_refl Hq)) Hrel Hex Hset) as Hw.
  by destruct c.
Qed.

(** A row enters with a fresh ticket. *)
Lemma wf_add c issued settled k s free row :
  wf c issued settled → rows c !! k = None → free_slots c = s :: free → generation c + 1 ≤ u64_max →
  ticket row = mkTicket s (generation c + 1) → (queued row = true ↔ releasable row) →
  wf (mkCache (<[k := row]> (rows c)) (if queued row then reclaimable c ++ [k] else reclaimable c)
        (acknowledgements c) free (generation c + 1))
    (ticket row :: issued) ((if terminal row then [generation c + 1] else []) ++ settled).
Proof.
  intros H E Ef Hg Ht Hrel. destruct (H) as [H1 H2 H3 H4 H5 H6 H7 H8 H9].
  assert (s ∈ free_slots c) as Hs by (rewrite Ef; by left).
  assert (s < capacity)%nat as Hsc.
  { assert (s ∈ seq 0 capacity) as Hin; [|by apply elem_of_seq in Hin; lia]. rewrite <- H1. apply elem_of_app. by right. }
  assert (k ∉ reclaimable c) as Hk. { intros Hk. destruct (proj2 H3 k Hk). congruence. }
  assert (∀ w, acknowledgements c !! s = Some w → w ≤ generation c) as Hw.
  { intros w Ew. destruct (H8 _ _ Ew) as [->|(_ & t & Hi & _ & <-)]; [lia|]. by apply H5. }
  split; cbn.
  - rewrite row_slots_insert by done. rewrite Ht, <- H1, Ef. cbn. by rewrite Permutation_middle.
  - done.
  - destruct H3 as [Hn Hi]. destruct (queued row); [split|split; [done|]].
    + apply NoDup_app. split; [done|]. split; [|apply NoDup_singleton]. by intros x Hx ->%list_elem_of_singleton.
    + intros k' [Hk'|Hk']%elem_of_app; [|apply list_elem_of_singleton in Hk' as ->; by rewrite lookup_insert_eq].
      rewrite lookup_insert_ne by (intros ->; done). by apply Hi.
    + intros k' Hk'. rewrite lookup_insert_ne by (intros ->; done). by apply Hi.
  - intros k' r' E'. destruct (decide (k' = k)) as [->|Hne].
    + rewrite lookup_insert_eq in E'. injection E' as <-. split; cbn; try done.
      * destruct (queued row); [|by split]. split; [done|]. intros _. apply elem_of_app. right. by left.
      * rewrite Ht. cbn. assert (acknowledgements c !! s ≠ Some (generation c + 1)) by (intros Ew%Hw; lia).
        assert (generation c + 1 ∉ settled) by (intros Hx%H7; lia).
        destruct (terminal row); cbn; [split; [by left|intros _; by left]|]. split; [done|by intros [|]].
      * by left.
      * rewrite Ht. intros t [->|Hi]%elem_of_cons Hsl; [cbn; lia|]. cbn. pose proof (H5 _ Hi). lia.
    + rewrite lookup_insert_ne in E' by done. destruct (H4 k' r' E') as [Q1 Q2 Q3 Q4 Q5].
      split; cbn; try done.
      * destruct (queued row); [|done]. rewrite <- Q1. set_solver.
      * rewrite <- Q3. destruct (terminal row); [|done]. cbn. rewrite elem_of_cons. split; [|by right].
        intros [Hx|]; [|done]. pose proof (H5 _ Q4). lia.
      * by right.
      * intros t [->|Hi]%elem_of_cons Hsl; [|by apply Q5]. rewrite Ht in Hsl. cbn in Hsl.
        destruct (slot_not_free _ _ _ H _ _ s E' Hs). done.
  - intros t [->|Hi]%elem_of_cons; [rewrite Ht; cbn; lia|]. pose proof (H5 _ Hi). lia.
  - intros t t' [->|Hi]%elem_of_cons [->|Hi']%elem_of_cons; rewrite ?Ht; cbn; intros Hx.
    + done.
    + pose proof (H5 _ Hi'). lia.
    + pose proof (H5 _ Hi). lia.
    + by apply H6.
  - intros g [Hx|Hx]%elem_of_app; [|pose proof (H7 _ Hx); lia].
    destruct (terminal row); [apply list_elem_of_singleton in Hx; lia|by apply elem_of_nil in Hx].
  - intros s' w Ew. destruct (H8 _ _ Ew) as [|(Hx & t & Hi & Hsl)]; [by left|right].
    split; [apply elem_of_app; by right|]. exists t. split; [by right|done].
  - lia.
Qed.

(** The first of the queue leaves. *)
Lemma wf_delete c issued settled k row q :
  wf c issued settled → rows c !! k = Some row → reclaimable c = k :: q →
  wf (c <| rows := delete k (rows c) |> <| free_slots := slot (ticket row) :: free_slots c |> <| reclaimable := q |>)
    issued settled.
Proof.
  intros H E Eq. destruct (H) as [H1 H2 H3 H4 H5 H6 H7 H8 H9]. rewrite Eq in H3. destruct H3 as [Hn Hi].
  apply NoDup_cons in Hn as [Hk Hn]. split; cbn; try done.
  - rewrite <- H1, (row_slots_delete _ k row E). cbn. by rewrite Permutation_middle.
  - split; [done|]. intros k' Hk'. rewrite lookup_delete_ne by (intros ->; done). apply Hi. by right.
  - intros k' r' E'. apply lookup_delete_Some in E' as [Hne E']. destruct (H4 k' r' E') as [Q1 Q2 Q3 Q4 Q5].
    split; cbn; try done. rewrite <- Q1, Eq, elem_of_cons. split; [by right|]. by intros [->|].
Qed.

Lemma wf_lane c issued settled t :
  wf c issued settled → t ∈ issued →
  ∃ c', lane_acknowledge c t = Some c' ∧ rows c' = rows c ∧ wf c' issued ([tk_generation t] ++ settled).
Proof.
  intros H Hi. destruct (H) as [H1 H2 H3 H4 H5 H6 H7 H8 H9]. unfold lane_acknowledge.
  destruct (lookup_lt_is_Some_2 (acknowledgements c) (slot t)) as [w Ew]; [rewrite H2; by apply H5|].
  rewrite Ew. eexists. split; [done|]. split; [done|]. split; cbn; try done.
  - by rewrite length_insert.
  - intros k row E. destruct (H4 k row E) as [R1 R2 R3 R4 R5]. split; try done. cbn.
    destruct (decide (slot t = slot (ticket row))) as [Hs|Hs].
    + rewrite Hs, list_lookup_insert_eq by (rewrite H2; by eapply slot_bound).
      rewrite Hs in Ew. pose proof (word_le _ _ _ H _ _ _ E Ew) as Hw. pose proof (R5 _ Hi Hs) as Hl.
      rewrite Ew in R3. rewrite elem_of_cons, R3. split.
      * intros [Hg|[Ht|[= Hg]]]; [right; f_equal; lia|by left|right; f_equal; lia].
      * intros [Ht|[= Hm]]; [by right; left|]. destruct (decide (tk_generation t = tk_generation (ticket row))); [by left|].
        right. right. f_equal. lia.
    + rewrite list_lookup_insert_ne by done. rewrite <- R3, elem_of_cons. split; [|by right].
      intros [Hg|]; [|done]. destruct Hs. f_equal. by apply H6.
  - intros g [->|Hg]%elem_of_cons; [by apply H5|by apply H7].
  - intros s' w' Ew'. destruct (decide (slot t = s')) as [<-|Hs].
    + rewrite list_lookup_insert_eq in Ew' by (rewrite H2; by apply H5). injection Ew' as <-. right.
      destruct (decide (tk_generation t ≤ w)).
      * rewrite Z.max_l by done. destruct (H8 _ _ Ew) as [->|[Hx Ht]]; [pose proof (H5 _ Hi); lia|]. split; [by right|done].
      * rewrite Z.max_r by lia. split; [by left|]. by exists t.
    + rewrite list_lookup_insert_ne in Ew' by done. destruct (H8 _ _ Ew') as [|[Hx Ht]]; [by left|right]. split; [by right|done].
Qed.

(** *** Making room *)

(** Two versions of a table that differ in flags only. *)
Definition same_but_flags (row row' : CachedExecution) : Prop :=
  row' = row <| terminal := terminal row' |> <| queued := queued row' |>.

Definition reflagged (c c' : PrivateExecutionCache) : Prop :=
  (∀ k, option_Forall2 same_but_flags (rows c !! k) (rows c' !! k))
  ∧ acknowledgements c' = acknowledgements c ∧ free_slots c' = free_slots c ∧ generation c' = generation c.

Lemma reflagged_refl c : reflagged c c.
Proof. split; [|done]. intros k. destruct (rows c !! k) as [[]|]; by constructor. Qed.

Lemma reflagged_trans c1 c2 c3 : reflagged c1 c2 → reflagged c2 c3 → reflagged c1 c3.
Proof.
  intros (A1 & A2 & A3 & A4) (B1 & B2 & B3 & B4). split; [|by rewrite B2, B3, B4].
  intros k. specialize (A1 k). specialize (B1 k). inversion A1 as [r r' Hr E1 E2|]; subst.
  - rewrite <- E2 in B1. inversion B1 as [? r'' Hr' E3 E4|]; subst. constructor.
    unfold same_but_flags in *. rewrite Hr', Hr. by destruct r.
  - match goal with E : None = rows c2 !! k |- _ => rewrite <- E in B1 end. inversion B1. constructor.
Qed.

(** Nothing more for the scan to do at this row. *)
Definition scanned (c : PrivateExecutionCache) (row : CachedExecution) : Prop :=
  queued row = true ∨ is_some (execution row) = false ∨ repair_delivery_pending row = true
  ∨ acknowledgements c !! slot (ticket row) ≠ Some (tk_generation (ticket row)).

Lemma scan_row_spec c issued settled k :
  wf c issued settled →
  ∃ c', scan_row c k = Some c' ∧ wf c' issued settled ∧ reflagged c c'
    ∧ (∀ k' row', rows c' !! k' = Some row' → scanned c row' ∨ k' ≠ k ∧ rows c !! k' = Some row').
Proof.
  intros H. unfold scan_row. destruct (rows c !! k) as [row|] eqn:E.
  2:{ eexists. split; [done|]. split; [done|]. split; [apply reflagged_refl|]. intros k' row' E'. right. split; congruence. }
  assert (∀ P : scanned c row, ∀ k' row', rows c !! k' = Some row' → scanned c row' ∨ k' ≠ k ∧ rows c !! k' = Some row') as Hdone.
  { intros P k' row' E'. destruct (decide (k' = k)) as [->|]; [left; congruence|by right]. }
  destruct (negb _ && _ && _) eqn:Ec.
  - bool_hyps. destruct (word_some _ _ _ H _ _ E) as [w Ew]. rewrite Ew.
    pose proof (wf_rows _ _ _ H _ _ E) as [R1 R2 R3 R4 R5].
    destruct (w =? tk_generation (ticket row)) eqn:Eg.
    + apply Z.eqb_eq in Eg. subst w. eexists. split; [done|]. split; [|split].
      * apply (wf_update c issued settled k row _ _ []); try done; [by right|by left|].
        split; [by left|]. intros _. apply R3. by right.
      * split; [|done]. intros k'. cbn. destruct (decide (k' = k)) as [->|].
        -- rewrite E, lookup_insert_eq. constructor. by destruct row.
        -- rewrite lookup_insert_ne by done. destruct (rows c !! k') as [[]|]; by constructor.
      * intros k' row' E'. cbn in E'. destruct (decide (k' = k)) as [->|].
        -- rewrite lookup_insert_eq in E'. injection E' as <-. left. by left.
        -- rewrite lookup_insert_ne in E' by done. by right.
    + apply Z.eqb_neq in Eg. eexists. split; [done|]. split; [done|]. split; [apply reflagged_refl|].
      apply Hdone. do 3 right. congruence.
  - eexists. split; [done|]. split; [done|]. split; [apply reflagged_refl|]. apply Hdone.
    unfold scanned. destruct (queued row), (is_some (execution row)), (repair_delivery_pending row); try done; auto.
Qed.

Lemma scan_rows_spec c issued settled ks :
  wf c issued settled →
  ∃ c', scan_rows c ks = Some c' ∧ wf c' issued settled ∧ reflagged c c'
    ∧ (∀ k row, rows c' !! k = Some row → scanned c row ∨ (k ∉ ks) ∧ rows c !! k = Some row).
Proof.
  revert c. induction ks as [|k ks IH]; intros c H; cbn.
  { exists c. split; [done|]. split; [done|]. split; [apply reflagged_refl|]. intros k row E. right. split; [set_solver|done]. }
  destruct (scan_row_spec c issued settled k H) as (c1 & -> & H1 & F1 & S1).
  destruct (IH c1 H1) as (c2 & -> & H2 & F2 & S2).
  exists c2. split; [done|]. split; [done|]. split; [by eapply reflagged_trans|]. intros k' row E.
  assert (scanned c1 row ↔ scanned c row) as Hsc by (unfold scanned; by rewrite (proj1 (proj2 F1))).
  destruct (S2 _ _ E) as [Hs|[Hk E1]]; [left; by apply Hsc|]. destruct (S1 _ _ E1) as [Hs|[Hne E0]]; [by left|right].
  split; [set_solver|done].
Qed.

Context (iter_all : ∀ m k, is_Some (m !! k) → k ∈ iter m).

Lemma scan_spec c issued settled :
  wf c issued settled →
  ∃ c', scan c = Some c' ∧ wf c' issued settled ∧ reflagged c c'
    ∧ ((capacity ≤ size (rows c))%nat → reclaimable c' = [] → ∀ k row, rows c' !! k = Some row → scanned c row).
Proof.
  intros H. unfold scan. destruct (_ && _) eqn:E.
  - destruct (scan_rows_spec c issued settled (iter (rows c)) H) as (c' & -> & H' & F & S).
    exists c'. split; [done|]. split; [done|]. split; [done|]. intros _ _ k row Er.
    destruct (S _ _ Er) as [|[Hn E0]]; [done|]. destruct Hn. apply iter_all. by eexists.
  - exists c. split; [done|]. split; [done|]. split; [apply reflagged_refl|]. intros Hle Hq.
    apply andb_false_iff in E as [E|E]; [apply Nat.leb_gt in E; lia|]. by rewrite bool_decide_eq_false in E.
Qed.

Lemma reflagged_size c c' : reflagged c c' → size (rows c') = size (rows c).
Proof.
  intros (F & _). rewrite <- !size_dom. f_equal. apply set_eq. intros k. rewrite !elem_of_dom.
  specialize (F k). inversion F; split; intros []; by eauto || congruence.
Qed.

(** *** What becomes of a row *)

Definition continues (row row' : CachedExecution) : Prop :=
  ticket row' = ticket row ∧ row_identity row' = row_identity row ∧ quantity row' = quantity row
  ∧ side row' = side row ∧ is_maker row' = is_maker row
  ∧ (execution row' = execution row ∨ execution row = None).

Definition released (settled : list Z) (row : CachedExecution) : Prop :=
  tk_generation (ticket row) ∈ settled ∧ is_some (execution row) = true ∧ repair_delivery_pending row = false.

Definition keeps (settled : list Z) (c c' : PrivateExecutionCache) : Prop :=
  ∀ k row, rows c !! k = Some row → (∃ row', rows c' !! k = Some row' ∧ continues row row') ∨ released settled row.

Lemma continues_refl row : continues row row.
Proof. by repeat split; auto. Qed.

Lemma keeps_refl settled c : keeps settled c c.
Proof. intros k row E. left. exists row. split; [done|apply continues_refl]. Qed.

Lemma keeps_reflagged settled c c' c'' : reflagged c c' → keeps settled c' c'' → keeps settled c c''.
Proof.
  intros (F & _) K k row E. specialize (F k). rewrite E in F. inversion F as [r0 row1 Hr E0 E1|]; subst r0. symmetry in E1.
  unfold same_but_flags in Hr. destruct (K _ _ E1) as [(row2 & E2 & C)|R].
  - left. exists row2. split; [done|]. rewrite Hr in C. by destruct row.
  - right. rewrite Hr in R. by destruct row.
Qed.

Lemma keeps_update settled c c' k row row' :
  rows c !! k = Some row → rows c' = <[k := row']> (rows c) → continues row row' → keeps settled c c'.
Proof.
  intros E E' Hc k' r Er. left. rewrite E'. destruct (decide (k' = k)) as [->|Hne].
  - exists row'. rewrite lookup_insert_eq. split; [done|]. congruence.
  - exists r. rewrite lookup_insert_ne by done. split; [done|apply continues_refl].
Qed.

(** The queue runs out only when it was empty; else one row leaves and there is room. *)
Lemma evict_spec c issued settled :
  wf c issued settled →
  let r := evict c (reclaimable c) in
  wf r.1 issued settled ∧ keeps settled c r.1 ∧ generation r.1 = generation c ∧ rows r.1 ⊆ rows c
  ∧ (r.2 = true ↔ (size (rows r.1) < capacity)%nat)
  ∧ (r.2 = false ↔ (capacity ≤ size (rows c))%nat ∧ reclaimable c = []).
Proof.
  intros H. assert (∀ q, reclaimable c = q → c <| reclaimable := q |> = c) as Hc by (intros q <-; by destruct c).
  destruct (reclaimable c) as [|k q] eqn:Eq; cbn.
  - specialize (Hc [] eq_refl). rewrite Hc. destruct (size (rows c) <? capacity)%nat eqn:El; cbn.
    + apply Nat.ltb_lt in El. split; [done|]. split; [apply keeps_refl|]. repeat split; try done. intros []. lia.
    + apply Nat.ltb_ge in El. split; [done|]. split; [apply keeps_refl|]. repeat split; try done. lia.
  - destruct (size (rows c) <? capacity)%nat eqn:El.
    { rewrite (Hc _ eq_refl). apply Nat.ltb_lt in El. split; [done|]. split; [apply keeps_refl|]. cbn. repeat split; try done. by intros []. }
    apply Nat.ltb_ge in El. pose proof (proj2 (wf_queue _ _ _ H) k) as [row E]; [rewrite Eq; by left|]. rewrite E.
    pose proof (wf_rows _ _ _ H _ _ E) as [R1 R2 R3 R4 R5].
    assert (queued row = true) as Hq by (apply R1; rewrite Eq; by left).
    destruct (proj1 R2 Hq) as (Ht & He & Hd). rewrite Ht, Hq, Hd. cbn.
    pose proof (wf_delete _ _ _ _ _ _ H E Eq) as Hw. pose proof (rows_count _ _ _ H) as Hn.
    assert (size (delete k (rows c)) = pred (size (rows c))) as Hsz by by apply map_size_delete_Some.
    assert (0 < size (rows c))%nat as Hpos.
    { destruct (size (rows c)) eqn:E0; [|lia]. apply map_size_empty_inv in E0. rewrite E0, lookup_empty in E. done. }
    assert ((size (delete k (rows c)) < capacity)%nat) as Hlt by lia.
    assert (keeps settled c (c <| rows := delete k (rows c) |> <| free_slots := slot (ticket row) :: free_slots c |> <| reclaimable := q |>)) as Hk.
    { intros k' r Er. destruct (decide (k' = k)) as [->|Hne]; [right|left].
      - rewrite E in Er. injection Er as <-. split; [apply R3; by left|done].
      - exists r. cbn. rewrite lookup_delete_ne by done. split; [done|apply continues_refl]. }
    assert (evict (c <| rows := delete k (rows c) |> <| free_slots := slot (ticket row) :: free_slots c |>) q
            = (c <| rows := delete k (rows c) |> <| free_slots := slot (ticket row) :: free_slots c |> <| reclaimable := q |>, true)) as ->.
    { apply Nat.ltb_lt in Hlt. destruct q; cbn; by rewrite Hlt. }
    split; [exact Hw|]. split; [exact Hk|]. cbn. split; [done|]. split; [apply delete_subseteq|]. split; [done|]. split; [done|]. by intros [].
Qed.

(** *** Operations *)

Lemma elem_of_row_tickets c t : t ∈ row_tickets c ↔ ∃ k row, rows c !! k = Some row ∧ ticket row = t.
Proof.
  unfold row_tickets. rewrite list_elem_of_fmap. split.
  - intros ([k row] & -> & Hin). apply elem_of_map_to_list in Hin. by exists k, row.
  - intros (k & row & E & <-). exists (k, row). split; [done|]. by apply elem_of_map_to_list.
Qed.

Lemma wf_tickets c issued issued' settled :
  wf c issued' settled → (∀ t, t ∈ issued' → t ∈ issued ∨ t ∈ row_tickets c) → (∀ t, t ∈ issued → t ∈ issued') →
  wf c (row_tickets c ++ issued) settled.
Proof.
  intros H H1 H2. eapply wf_same_issued; [done|]. intros t. rewrite elem_of_app. split.
  - intros [(k & row & E & <-)%elem_of_row_tickets|]; [by eapply rw_issued, wf_rows|by apply H2].
  - intros Ht. destruct (H1 t Ht); auto.
Qed.

Lemma wf_no_ticket c issued settled : wf c issued settled → wf c (row_tickets c ++ issued) settled.
Proof. intros H. eapply wf_tickets; [done|by left|done]. Qed.

Lemma reflagged_lookup c c' k row :
  reflagged c c' → rows c !! k = Some row → ∃ row', rows c' !! k = Some row' ∧ same_but_flags row row'.
Proof. intros (F & _) E. specialize (F k). rewrite E in F. inversion F. by eexists. Qed.

Lemma reflagged_back c c' k row' :
  reflagged c c' → rows c' !! k = Some row' → ∃ row, rows c !! k = Some row ∧ same_but_flags row row'.
Proof. intros (F & _) E. specialize (F k). rewrite E in F. inversion F. by eexists. Qed.

(** After the scan the queue is empty exactly when no row may leave. *)
Lemma scan_empty c issued settled c' :
  wf c issued settled → wf c' issued settled → reflagged c c' → size (rows c) = capacity →
  ((capacity ≤ size (rows c))%nat → reclaimable c' = [] → ∀ k row, rows c' !! k = Some row → scanned c row) →
  reclaimable c' = [] ↔ ∀ k row, rows c !! k = Some row → ¬ released settled row.
Proof.
  intros H H' F Hsz Hsc. split.
  - intros Hq k row E (Hg & He & Hd). destruct (reflagged_lookup _ _ _ _ F E) as (row' & E' & Hs).
    unfold same_but_flags in Hs. pose proof (wf_rows _ _ _ H' _ _ E') as [R1 R2 R3 R4 R5].
    assert (ticket row' = ticket row ∧ execution row' = execution row
            ∧ repair_delivery_pending row' = repair_delivery_pending row) as (T1 & T2 & T3) by (rewrite Hs; by destruct row).
    assert (queued row' = true) as Hqd.
    { destruct (Hsc ltac:(lia) Hq _ _ E') as [|[Hx|[Hx|Hx]]]; [done|congruence..|].
      apply R2. split; [|by rewrite T2, T3]. rewrite <- T1 in Hg. apply R3 in Hg as [|Hw]; [done|].
      by rewrite (proj1 (proj2 F)) in Hw. }
    apply R1 in Hqd. rewrite Hq in Hqd. by apply elem_of_nil in Hqd.
  - intros Hno. destruct (reclaimable c') as [|k q] eqn:Eq; [done|exfalso].
    destruct (proj2 (wf_queue _ _ _ H') k) as [row' E']; [rewrite Eq; by left|].
    destruct (reflagged_back _ _ _ _ F E') as (row & E & Hs). unfold same_but_flags in Hs.
    pose proof (wf_rows _ _ _ H' _ _ E') as [R1 R2 R3 R4 R5].
    destruct (proj1 R2 (proj1 R1 ltac:(rewrite Eq; by left))) as (Ht & He & Hd).
    apply (Hno _ _ E). rewrite Hs in R3, He, Hd. destruct row; cbn in *. split; [|done]. apply R3. left.
    by rewrite Hs in Ht.
Qed.

(** The row an insertion adds. *)
Definition fresh_row (order token : string) (sd : Side) (q : f64) (maker : bool) (e : FrozenTradeExecution)
    (row : CachedExecution) : Prop :=
  row_identity row = identity order token ∧ quantity row = q ∧ side row = sd ∧ is_maker row = maker
  ∧ execution row = Some e.

Lemma insert_spec c issued settled trade order token sd q maker e :
  wf c issued settled → rows c !! key trade order maker = None →
  ∃ c' err, insert c trade order token sd q maker e = Some (c', err)
    ∧ wf c' (row_tickets c' ++ issued) settled ∧ keeps settled c c'
    ∧ match err with
      | None => ∃ row, rows c' !! key trade order maker = Some row ∧ fresh_row order token sd q maker e row
      | Some err =>
          err = GenerationExhausted ∧ generation c = u64_max
          ∨ err = CapacityExhausted ∧ size (rows c) = capacity
            ∧ ∀ k row, rows c !! k = Some row → ¬ released settled row
      end
    ∧ (size (rows c) = capacity → (∀ k row, rows c !! k = Some row → ¬ released settled row) →
       err = Some CapacityExhausted).
Proof.
  intros H E. unfold insert. rewrite E.
  destruct (scan_spec c issued settled H) as (c1 & -> & H1 & F & Hsc).
  pose proof (reflagged_size _ _ F) as Hsz. pose proof (rows_count _ _ _ H) as Hcount.
  pose proof (evict_spec c1 issued settled H1) as Hev. cbn zeta in Hev.
  destruct (evict c1 (reclaimable c1)) as [c2 room]. cbn in Hev. destruct Hev as (H2 & K2 & G2 & Sub & Ht & Hf).
  pose proof (keeps_reflagged settled _ _ _ F K2) as K.
  assert (room = false ↔ size (rows c) = capacity ∧ ∀ k row, rows c !! k = Some row → ¬ released settled row) as Hroom.
  { rewrite Hf, Hsz. split.
    - intros [Hle Hq]. assert (size (rows c) = capacity) as Hs by lia. split; [done|].
      by apply (scan_empty c issued settled c1).
    - intros [Hs Hno]. split; [lia|]. by apply (scan_empty c issued settled c1). }
  destruct room.
  2:{ eexists _, _. split; [done|]. split; [by apply wf_no_ticket|]. split; [done|]. split; [|done].
      right. split; [done|]. by apply Hroom. }
  assert (rows c2 !! key trade order maker = None) as E2.
  { destruct (rows c2 !! _) as [r|] eqn:E2; [|done]. eapply lookup_weaken in E2; [|exact Sub].
    destruct (reflagged_back _ _ _ _ F E2) as (? & ? & _). congruence. }
  assert (generation c2 = generation c) as Hg by (rewrite G2; apply F).
  unfold add_row, checked_add. rewrite Hg. destruct (generation c + 1 <=? u64_max) eqn:Eg.
  - apply Z.leb_le in Eg. destruct (free_slots c2) as [|s free] eqn:Ef.
    { pose proof (rows_count _ _ _ H2) as Hn. rewrite Ef in Hn. cbn in Hn. pose proof (proj1 Ht eq_refl). lia. }
    eexists _, None. split; [done|]. set (row := mkRow _ _ _ _ _ _ _ _ _ _).
    split; [|split; [|split]].
    + assert (wf (mkCache (<[key trade order maker := row]> (rows c2)) (reclaimable c2) (acknowledgements c2) free (generation c2 + 1))
                (ticket row :: issued) settled) as Hw.
      { apply (wf_add c2 issued settled (key trade order maker) s free row); try done; [by rewrite Hg|by rewrite Hg|].
        split; [done|]. by intros [? _]. }
      rewrite Hg in Hw. eapply wf_tickets; [exact Hw| |by right].
      intros t [->|]%elem_of_cons; [right|by left]. apply elem_of_row_tickets. eexists _, row. split; [apply lookup_insert_eq|done].
    + intros k' r Er. destruct (K _ _ Er) as [(r' & Er' & Hc)|]; [left|by right]. exists r'. split; [|done].
      cbn. rewrite lookup_insert_ne; [done|]. congruence.
    + exists row. split; [apply lookup_insert_eq|done].
    + intros Hs Hno. assert (true = false); [|done]. by apply Hroom.
  - apply Z.leb_gt in Eg. eexists _, _. split; [done|]. split; [by apply wf_no_ticket|]. split; [done|]. split.
    + left. split; [done|]. pose proof (wf_generation _ _ _ H). lia.
    + intros Hs Hno. assert (true = false); [|done]. by apply Hroom.
Qed.

Lemma acknowledge_spec c issued settled id :
  wf c issued settled →
  wf (acknowledge c id) issued (settled_by c (Acknowledge id) ++ settled) ∧ keeps settled c (acknowledge c id).
Proof.
  intros H. unfold acknowledge. cbn. destruct (id_rank id <? 3); [split; [done|apply keeps_refl]|].
  destruct (rows c !! fingerprint id) as [row|] eqn:E; [|split; [done|apply keeps_refl]].
  pose proof (wf_rows _ _ _ H _ _ E) as [R1 R2 R3 R4 R5]. destruct (_ && _ && _) eqn:Ec.
  - bool_hyps. cbn in *. split.
    + apply (wf_update c issued settled _ row _ _ [tk_generation (ticket row)]); try done; [by right|by right|].
      split; [by left|]. intros _. by left.
    + eapply keeps_update; [done|done|]. by repeat split; auto.
  - split.
    + apply (wf_update_row c issued settled _ row _ [tk_generation (ticket row)]); try done; [|by right|].
      * cbn in *. unfold releasable in *. cbn. destruct (queued row).
        -- split; [|done]. intros _. destruct (proj1 R2 eq_refl) as (_ & ? & ?). done.
        -- split; [done|]. intros (_ & He & Hd). by rewrite He, Hd in Ec.
      * split; [by left|]. intros _. by left.
    + eapply keeps_update; [done|done|]. by repeat split; auto.
Qed.

Lemma mark_delivered_spec c issued settled id :
  wf c issued settled → wf (mark_delivered c id) issued settled ∧ keeps settled c (mark_delivered c id).
Proof.
  intros H. unfold mark_delivered. destruct (rows c !! fingerprint id) as [row|] eqn:E; [|split; [done|apply keeps_refl]].
  pose proof (wf_rows _ _ _ H _ _ E) as [R1 R2 R3 R4 R5]. cbn zeta. destruct (_ && _ && _) eqn:Ec.
  - bool_hyps. cbn in *. split.
    + apply (wf_update c issued settled _ row _ _ []); try done; [by right|by left].
    + eapply keeps_update; [done|done|]. by repeat split; auto.
  - split.
    + apply (wf_update_row c issued settled _ row _ []); try done; [|by left].
      cbn in *. unfold releasable in *. cbn. destruct (queued row).
      * split; [|done]. intros _. destruct (proj1 R2 eq_refl) as (? & ? & ?). done.
      * split; [done|]. intros (Ht & He & _). by rewrite Ht, He in Ec.
    + eapply keeps_update; [done|done|]. by repeat split; auto.
Qed.

(** Every operation runs, keeps the invariant, and lets rows go only when released. *)
Lemma exec_spec c issued settled o :
  wf c issued settled → (∀ t, t ∈ lane_ticket o → t ∈ issued) →
  ∃ c' err, exec c o = Some (c', err) ∧ wf c' (row_tickets c' ++ issued) (settled_by c o ++ settled) ∧ keeps settled c c'.
Proof.
  intros H Hl. destruct o as [trade order token sd q maker e|id|t|id|seed]; cbn [exec].
  - destruct (rows c !! key trade order maker) eqn:E.
    + exists c, None. unfold insert. rewrite E. split; [done|]. split; [by apply wf_no_ticket|apply keeps_refl].
    + destruct (insert_spec c issued settled trade order token sd q maker e H E) as (c' & err & Ei & Hw & K & _). by exists c', err.
  - destruct (acknowledge_spec c issued settled id H) as [Hw K]. eexists _, _. split; [done|]. split; [by apply wf_no_ticket|done].
  - destruct (wf_lane c issued settled t H) as (c' & -> & Er & Hw); [apply Hl; by left|]. eexists _, _. split; [done|].
    split; [by apply wf_no_ticket|]. intros k row E. left. exists row. rewrite Er. split; [done|apply continues_refl].
  - destruct (mark_delivered_spec c issued settled id H) as [Hw K]. eexists _, _. split; [done|]. split; [by apply wf_no_ticket|done].
  - cbn. unfold repair. destruct (ps_execution seed) as [e|]; [|eexists _, _; split; [done|]; split; [by apply wf_no_ticket|apply keeps_refl]].
    destruct (rows c !! seed_key seed) as [row|] eqn:E.
    + destruct (_ || _ || _); [eexists _, _; split; [done|]; split; [by apply wf_no_ticket|apply keeps_refl]|].
      destruct (execution row) as [old|] eqn:Ee; [eexists _, _; split; [done|]; split; [by apply wf_no_ticket|apply keeps_refl]|].
      pose proof (wf_rows _ _ _ H _ _ E) as [R1 R2 R3 R4 R5]. eexists _, _. split; [done|]. split.
      * apply wf_no_ticket. apply (wf_update_row c issued settled _ row _ []); try done; [|by left].
        rewrite R2. unfold releasable. cbn. rewrite Ee. cbn. by split; intros (_ & ? & ?).
      * eapply keeps_update; [done|done|]. by repeat split; auto.
    + edestruct (insert_spec c issued settled) as (c' & err & Ei & Hw & K & _); [done|exact E|]. by exists c', err.
Qed.

(** *** Startup *)

Lemma elem_of_terminal_generations c g :
  g ∈ terminal_generations c ↔ ∃ k row, rows c !! k = Some row ∧ terminal row = true ∧ tk_generation (ticket row) = g.
Proof.
  unfold terminal_generations. rewrite list_elem_of_omap. split.
  - intros ([k row] & Hin & E). apply elem_of_map_to_list in Hin. cbn in E. exists k, row.
    destruct (terminal row); [|done]. injection E as <-. done.
  - intros (k & row & E & Ht & <-). exists (k, row). split; [by apply elem_of_map_to_list|]. cbn. by rewrite Ht.
Qed.

Lemma wf_same_settled c issued settled settled' :
  wf c issued settled → (∀ g, g ∈ settled' ↔ g ∈ settled) → wf c issued settled'.
Proof.
  intros [H1 H2 H3 H4 H5 H6 H7 H8 H9] E. split; try done.
  - intros k row Hr. destruct (H4 k row Hr) as [R1 R2 R3 R4 R5]. split; try done. by rewrite E.
  - intros g Hg. by apply H7, E.
  - intros s' w Hw. destruct (H8 _ _ Hw) as [?|(? & Ht)]; [by left|right]. split; [by apply E|done].
Qed.

Lemma empty_wf : wf empty_cache [] [].
Proof.
  split; cbn; try done.
  - by rewrite length_replicate.
  - split; [constructor|]. intros k Hk. by apply elem_of_nil in Hk.
  - intros t Ht. by apply elem_of_nil in Ht.
  - intros t t' Ht. by apply elem_of_nil in Ht.
  - intros g Hg. by apply elem_of_nil in Hg.
  - intros s' w Hw. left. by apply lookup_replicate in Hw as [-> _].
Qed.

Context (capacity_u64 : Z.of_nat capacity ≤ u64_max).

Lemma insert_seeds_spec seeds c issued settled :
  wf c issued settled → NoDup (seed_key <$> seeds) → (∀ seed, seed ∈ seeds → rows c !! seed_key seed = None) →
  generation c + Z.of_nat (length (free_slots c)) = Z.of_nat capacity → (length seeds ≤ length (free_slots c))%nat →
  (∀ t, t ∈ issued → t ∈ row_tickets c) → (∀ g, g ∈ settled → g ∈ terminal_generations c) →
  ∃ c', insert_seeds c seeds = Some c' ∧ wf c' (row_tickets c') (terminal_generations c').
Proof.
  revert c issued settled. induction seeds as [|seed seeds IH]; intros c issued settled H Hn Hk Hg Hl Hi Hs; cbn.
  { exists c. split; [done|]. eapply wf_same_settled; [eapply wf_same_issued; [done|]|].
    - intros t. split; [|by apply Hi]. intros (k & row & E & <-)%elem_of_row_tickets. by eapply rw_issued, wf_rows.
    - intros g. split; [|by apply Hs]. intros (k & row & E & Ht & <-)%elem_of_terminal_generations.
      eapply rw_settled; [by eapply wf_rows|by left]. }
  cbn in Hn. apply NoDup_cons in Hn as [Hnk Hn]. cbn in Hl. unfold insert_seed.
  destruct (free_slots c) as [|s free] eqn:Ef; [cbn in Hl; lia|]. cbn in Hg, Hl.
  assert (generation c +w 1 = generation c + 1) as ->.
  { unfold wrapping_add. pose proof (wf_generation _ _ _ H). apply Z.mod_small. unfold u64_max in *. lia. }
  set (row := mkRow _ _ _ _ _ _ _ _ _ _). assert (rows c !! seed_key seed = None) as E by (apply Hk; by left).
  assert (queued row = true ↔ releasable row) as Hrel.
  { subst row. unfold releasable. cbn. destruct (seed_terminal seed), (is_some (ps_execution seed)); naive_solver. }
  pose proof (wf_add c issued settled (seed_key seed) s free row H E Ef ltac:(lia) eq_refl Hrel) as Hw.
  change (queued row) with (seed_terminal seed && is_some (ps_execution seed)) in Hw. apply (IH _ _ _ Hw); cbn; try (done || lia).
  - intros seed' Hin. rewrite lookup_insert_ne; [apply Hk; by right|].
    intros Heq. apply Hnk. rewrite Heq. by apply list_elem_of_fmap_2.
  - intros t [->|Ht]%elem_of_cons; apply elem_of_row_tickets.
    + exists (seed_key seed), row. split; [apply lookup_insert_eq|done].
    + apply Hi, elem_of_row_tickets in Ht as (k & r & Er & <-). exists k, r. cbn. rewrite lookup_insert_ne by congruence. done.
  - intros g [Hgx|Hgx]%elem_of_app; apply elem_of_terminal_generations.
    + exists (seed_key seed), row. split; [apply lookup_insert_eq|]. cbn in Hgx |- *.
      destruct (seed_terminal seed); [|by apply elem_of_nil in Hgx]. by apply list_elem_of_singleton in Hgx as ->.
    + apply Hs, elem_of_terminal_generations in Hgx as (k & r & Er & Ht & <-). exists k, r. cbn. rewrite lookup_insert_ne by congruence. done.
Qed.

Lemma cache_history_wf c issued settled : history c issued settled → wf c issued settled.
Proof.
  induction 1 as [seeds c Hn Hc|c issued settled o c' err Hh IH Hl Ho].
  - unfold new in Hc. destruct (capacity <? length seeds)%nat eqn:El; [done|]. apply Nat.ltb_ge in El.
    destruct (insert_seeds_spec seeds empty_cache [] [] empty_wf Hn) as (c' & E & Hw); cbn; try done.
    + by rewrite length_seq.
    + by rewrite length_seq.
    + rewrite E in Hc. by injection Hc as <-.
  - destruct (exec_spec c issued settled o IH Hl) as (c1 & err1 & E & Hw & _). rewrite Ho in E. by injection E as <- <-.
Qed.

(** ** Theorems *)

(** C33: the completion slots are never shared, lost or reused too early.  After any history of
    insertions, acknowledgements on either path, deliveries and repairs, the slots of the
    rows and the free slots are exactly the slots of the lane; the queue of rows to reclaim
    holds each of its rows once; and every further operation runs to its end: no slot is
    missing, no word is out of range. *)
Theorem cache_slots_exact c issued settled :
  history c issued settled →
  row_slots (rows c) ++ free_slots c ≡ₚ seq 0 capacity ∧ NoDup (reclaimable c)
  ∧ ∀ o, lane_ticket o ⊆ issued → is_Some (exec c o).
Proof.
  intros Hh. apply cache_history_wf in Hh. split; [by apply (wf_slots _ _ _ Hh)|]. split; [apply (wf_queue _ _ _ Hh)|].
  intros o Hl. destruct (exec_spec c issued settled o Hh Hl) as (c' & err & -> & _). done.
Qed.

(** C20: economics are frozen and kept until the account is done with them.  Across any
    operation a row stays with its ticket, identity, quantity, side and role, and its
    execution unchanged (a missing one may be repaired once), or it leaves: then its own
    generation was settled before, its execution was known and nothing of it was waiting to
    be delivered.  An acknowledgement of an earlier row of the same slot settles nothing. *)
Theorem rows_kept_until_settled c issued settled o c' err k row :
  history c issued settled → lane_ticket o ⊆ issued → exec c o = Some (c', err) → rows c !! k = Some row →
  (∃ row', rows c' !! k = Some row' ∧ continues row row') ∨ released settled row.
Proof.
  intros Hh Hl E Er. apply cache_history_wf in Hh. destruct (exec_spec c issued settled o Hh Hl) as (c1 & err1 & E1 & _ & K).
  rewrite E in E1. injection E1 as <- <-. by apply K.
Qed.

(** an insertion is refused only when nothing can make room.  The insertion of a trade
    that is not cached ends with its row in the table, or, with the tickets not used up,
    fails exactly when the table is full of rows that are not settled, whose fee is not
    known, or whose repair is not delivered. *)
Theorem insert_refused_iff c issued settled trade order token sd q maker e :
  history c issued settled → rows c !! key trade order maker = None → generation c < u64_max →
  ∃ c' err, insert c trade order token sd q maker e = Some (c', err)
    ∧ (err = None ∨ err = Some CapacityExhausted)
    ∧ (err = None → ∃ row, rows c' !! key trade order maker = Some row ∧ fresh_row order token sd q maker e row)
    ∧ (err = Some CapacityExhausted ↔
         size (rows c) = capacity ∧ ∀ k row, rows c !! k = Some row → ¬ released settled row).
Proof.
  intros Hh E Hg. apply cache_history_wf in Hh.
  destruct (insert_spec c issued settled trade order token sd q maker e Hh E) as (c' & err & Ei & _ & _ & Hr & Hf).
  exists c', err. split; [done|]. destruct err as [err|].
  - destruct Hr as [[-> Hx]|(-> & Hs & Hno)]; [lia|]. split; [by right|]. split; [done|]. done.
  - split; [by left|]. split; [done|]. split; [done|]. intros [Hs Hno]. by apply Hf.
Qed.
End Cache.

(** ** The window of routed identities *)

Definition TERMINAL_GAP_REPLAY_DEDUPE_CAPACITY : nat := Z.to_nat 32768.

(** The other two fields belong to the repair of the cache. *)
Record PrivateRouteDedupe := mkDedupe {
  dd_capacity : nat;
  ranks : gmap Z Z;
  order : list (Z * Z) }.

Definition new_dedupe : PrivateRouteDedupe := mkDedupe TERMINAL_GAP_REPLAY_DEDUPE_CAPACITY ∅ [].

Definition seen (self : PrivateRouteDedupe) (id : PrivateRouteIdentity) : bool :=
  match ranks self !! fingerprint id with Some existing => id_rank id <=? existing | None => false end.

(** [while self.order.len() > self.capacity] *)
Fixpoint expire (capacity : nat) (rs : gmap Z Z) (l : list (Z * Z)) : gmap Z Z * list (Z * Z) :=
  if (length l <=? capacity)%nat then (rs, l)
  else
    match l with
    | [] => (rs, [])
    | (expired, expired_rank) :: l =>
        expire capacity (if bool_decide (rs !! expired = Some expired_rank) then delete expired rs else rs) l
    end.

Definition remember (self : PrivateRouteDedupe) (id : PrivateRouteIdentity) : PrivateRouteDedupe :=
  if seen self id then self
  else
    let '(rs, l) := expire (dd_capacity self) (<[fingerprint id := id_rank id]> (ranks self))
                      (order self ++ [(fingerprint id, id_rank id)]) in
    self <| ranks := rs |> <| order := l |>.

(** What it means: the last identities accepted, and whether one of them covers this one. *)
Definition covers (w : list (Z * Z)) (id : PrivateRouteIdentity) : bool :=
  existsb (λ e, (e.1 =? fingerprint id) && (id_rank id <=? e.2)) w.

Definition accept (capacity : nat) (w : list (Z * Z)) (id : PrivateRouteIdentity) : list (Z * Z) :=
  if covers w id then w
  else let w := w ++ [(fingerprint id, id_rank id)] in drop (length w - capacity) w.

Definition ranks_of (fp : Z) (l : list (Z * Z)) : list Z :=
  omap (λ e, if e.1 =? fp then Some e.2 else None) l.

(** Ranks of one trade only rise within the window, and the map holds the last. *)
Definition window_wf (rs : gmap Z Z) (l : list (Z * Z)) : Prop :=
  ∀ fp, StronglySorted Z.lt (ranks_of fp l) ∧ rs !! fp = last (ranks_of fp l).

Lemma sorted_last_max l x y : StronglySorted Z.lt l → last l = Some x → y ∈ l → y ≤ x.
Proof.
  intros Hs. induction Hs as [|a l Hs IH Ha]; [done|]. destruct l as [|b l].
  - intros [= ->] ->%list_elem_of_singleton. lia.
  - intros Hl [->|Hy]%elem_of_cons; [|by apply IH].
    rewrite Forall_forall in Ha. assert (x ∈ b :: l) as Hx by (by eapply last_Some_elem_of). specialize (Ha _ Hx). lia.
Qed.

Lemma window_seen rs l fp rank :
  window_wf rs l →
  match rs !! fp with Some existing => rank <=? existing | None => false end
  = existsb (λ e, (e.1 =? fp) && (rank <=? e.2)) l.
Proof.
  intros Hw. destruct (Hw fp) as [Hs ->]. apply eq_bool_prop_intro. rewrite !Is_true_true, existsb_exists.
  assert (∀ r, r ∈ ranks_of fp l ↔ (fp, r) ∈ l) as Hin.
  { intros r. unfold ranks_of. rewrite list_elem_of_omap. split.
    - intros ([k r'] & Hi & E). cbn in E. destruct (Z.eqb_spec k fp); [|done]. by simplify_eq.
    - intros Hi. exists (fp, r). split; [done|]. cbn. by rewrite Z.eqb_refl. }
  destruct (last (ranks_of fp l)) as [x|] eqn:El.
  - split.
    + intros Hx. exists (fp, x). split; [|cbn; by rewrite Z.eqb_refl]. apply list_elem_of_In, Hin. by eapply last_Some_elem_of.
    + intros ([k r] & Hi & Hb). cbn in Hb. bool_hyps. subst k. apply list_elem_of_In, Hin in Hi.
      pose proof (sorted_last_max _ _ _ Hs El Hi). apply Z.leb_le. lia.
  - split; [done|]. intros ([k r] & Hi & Hb). cbn in Hb. bool_hyps. subst k. apply list_elem_of_In, Hin in Hi.
    apply last_None in El. rewrite El in Hi. by apply elem_of_nil in Hi.
Qed.

Lemma expire_spec cap rs l :
  window_wf rs l → (expire cap rs l).2 = drop (length l - cap) l ∧ window_wf (expire cap rs l).1 (drop (length l - cap) l).
Proof.
  revert rs. induction l as [|[k r] l IH]; intros rs Hw; cbn [expire].
  { by destruct (length _ <=? cap)%nat. }
  destruct (length ((k, r) :: l) <=? cap)%nat eqn:El.
  - apply Nat.leb_le in El. replace (length ((k, r) :: l) - cap)%nat with 0%nat by lia. done.
  - apply Nat.leb_gt in El. cbn in El. replace (length ((k, r) :: l) - cap)%nat with (S (length l - cap))%nat by (cbn; lia).
    cbn [drop]. apply IH. intros fp. destruct (Hw fp) as [Hs Hl]. unfold ranks_of in Hs, Hl. cbn in Hs, Hl.
    fold (ranks_of fp l) in Hs, Hl. destruct (Z.eqb_spec k fp) as [->|Hne].
    + apply StronglySorted_inv in Hs as [Hs Ha]. split; [done|]. rewrite Hl.
      destruct (ranks_of fp l) as [|a l'] eqn:E.
      * cbn. rewrite bool_decide_true by done. apply lookup_delete_eq.
      * change (last (r :: a :: l')) with (last (a :: l')) in *. rewrite bool_decide_false; [done|]. intros Hx.
        rewrite Forall_forall in Ha. specialize (Ha r (last_Some_elem_of _ _ Hx)). lia.
    + split; [done|]. destruct (bool_decide _); [by rewrite lookup_delete_ne|done].
Qed.

Lemma remember_spec d id :
  window_wf (ranks d) (order d) →
  seen d id = covers (order d) id ∧ order (remember d id) = accept (dd_capacity d) (order d) id
  ∧ window_wf (ranks (remember d id)) (order (remember d id)) ∧ dd_capacity (remember d id) = dd_capacity d.
Proof.
  intros Hw. assert (seen d id = covers (order d) id) as Hs by by apply window_seen. split; [done|].
  unfold remember, accept. rewrite Hs. destruct (covers (order d) id) eqn:Ec; [done|].
  assert (window_wf (<[fingerprint id := id_rank id]> (ranks d)) (order d ++ [(fingerprint id, id_rank id)])) as Hw'.
  { intros fp. destruct (Hw fp) as [Hso Hl]. unfold ranks_of in *. rewrite omap_app. cbn.
    destruct (Z.eqb_spec (fingerprint id) fp) as [<-|Hne].
    - rewrite lookup_insert_eq, last_snoc. split; [|done]. fold (ranks_of (fingerprint id) (order d)) in *.
      apply StronglySorted_snoc; [done|]. apply Forall_forall. intros y Hy. unfold seen in Hs. rewrite Hl in Hs.
      destruct (last (ranks_of (fingerprint id) (order d))) as [x|] eqn:El.
      + pose proof (sorted_last_max _ _ _ Hso El Hy). apply Z.leb_gt in Hs. lia.
      + apply last_None in El. rewrite El in Hy. by apply elem_of_nil in Hy.
    - rewrite app_nil_r, lookup_insert_ne by done. done. }
  pose proof (expire_spec (dd_capacity d) _ _ Hw') as [E1 E2].
  destruct (expire _ _ _) as [rs l]. cbn in *. by rewrite E1.
Qed.

(** the window is exact.  Whatever identities are remembered, it holds the last ones
    accepted, as many as its capacity, and [seen] says whether one of them has the
    fingerprint and at least the rank asked for. *)
Theorem dedupe_is_window capacity ids id :
  let d := foldl remember (new_dedupe <| dd_capacity := capacity |>) ids in
  order d = foldl (accept capacity) [] ids ∧ seen d id = covers (order d) id.
Proof.
  assert (∀ ids d, window_wf (ranks d) (order d) → dd_capacity d = capacity →
    order (foldl remember d ids) = foldl (accept capacity) (order d) ids
    ∧ seen (foldl remember d ids) id = covers (order (foldl remember d ids)) id) as Hgen.
  { clear ids. induction ids as [|i ids IH]; intros d Hw Hc; cbn.
    - split; [done|]. by apply remember_spec.
    - destruct (remember_spec d i Hw) as (_ & E & Hw' & Hc'). rewrite <- Hc, <- E. rewrite Hc. apply IH; [done|by rewrite Hc']. }
  apply Hgen; [|done]. intros fp. split; [constructor|done].
Qed.

(** ** Witnesses

    A table of one row: the second trade is refused until the first is acknowledged on the
    lane, then takes its slot. *)

Definition keys_of (m : gmap Z CachedExecution) : list Z := (map_to_list m).*1.

Lemma keys_of_all m k : is_Some (m !! k) → k ∈ keys_of m.
Proof.
  intros [row E]. unfold keys_of. apply list_elem_of_fmap. exists (k, row). split; [done|]. by apply elem_of_map_to_list.
Qed.

Fixpoint run (capacity : nat) (c : PrivateExecutionCache) (issued : list ExecutionAckTicket) (settled : list Z)
    (ops : list Op) : option (PrivateExecutionCache * list ExecutionAckTicket * list Z) :=
  match ops with
  | [] => Some (c, issued, settled)
  | o :: ops =>
      if bool_decide (lane_ticket o ⊆ issued)
      then match exec capacity keys_of c o with
           | Some (c', _) => run capacity c' (row_tickets c' ++ issued) (settled_by c o ++ settled) ops
           | None => None
           end
      else None
  end.

Lemma run_history capacity c issued settled ops c' issued' settled' :
  history capacity keys_of c issued settled → run capacity c issued settled ops = Some (c', issued', settled') →
  history capacity keys_of c' issued' settled'.
Proof.
  revert c issued settled. induction ops as [|o ops IH]; intros c issued settled Hh E; cbn in E; [by simplify_eq|].
  case_bool_decide; [|done]. destruct (exec _ _ c o) as [[c1 err]|] eqn:Eo; [|done].
  eapply IH; [|done]. by eapply hist_op.
Qed.

Definition demo_execution : FrozenTradeExecution :=
  mkFrozen f64_one f64_one None (mkBasis CollateralV2 f64_zero f64_one) (mkFee CollateralV2 f64_zero f64_zero).
Definition demo_insert (trade : string) : Op := Insert trade "0xA" "7" Buy f64_one false demo_execution.
Definition demo_start : PrivateExecutionCache := empty_cache 1.

Lemma demo_history ops c issued settled :
  run 1 demo_start [] [] ops = Some (c, issued, settled) → history 1 keys_of c issued settled.
Proof. apply run_history. apply (hist_new 1 keys_of []); [constructor|done]. Qed.

Lemma cache_slots_exact_witness :
  match run 1 demo_start [] [] [demo_insert "t1"; LaneAcknowledge (mkTicket 0 1); demo_insert "t2"] with
  | Some (c, issued, settled) => row_slots (rows c) ++ free_slots c ≡ₚ seq 0 1
  | None => False
  end.
Proof.
  destruct (run 1 _ _ _ _) as [[[c issued] settled]|] eqn:E; [|vm_compute in E; discriminate].
  apply demo_history in E.
  exact (proj1 (cache_slots_exact 1 keys_of keys_of_all ltac:(unfold u64_max; lia) c issued settled E)).
Defined.

Lemma rows_kept_until_settled_witness :
  match run 1 demo_start [] [] [demo_insert "t1"; LaneAcknowledge (mkTicket 0 1)] with
  | Some (c, issued, settled) =>
      ∃ row, rows c !! key "t1" "0xA" false = Some row ∧ released settled row
  | None => False
  end.
Proof.
  destruct (run 1 _ _ _ _) as [[[c issued] settled]|] eqn:E; [|vm_compute in E; discriminate].
  pose proof (demo_history _ _ _ _ E) as Hh.
  destruct (rows c !! key "t1" "0xA" false) as [row|] eqn:Er; [|vm_compute in E; injection E as <- <- <-; vm_compute in Er; discriminate].
  exists row. split; [reflexivity|].
  assert (Hl : lane_ticket (demo_insert "t2") ⊆ issued) by (clear; intros t Ht; by apply elem_of_nil in Ht).
  destruct (exec_spec 1 keys_of keys_of_all c issued settled (demo_insert "t2")
    (cache_history_wf 1 keys_of keys_of_all ltac:(unfold u64_max; lia) c issued settled Hh) Hl) as (c' & err & Eo & _).
  destruct (rows_kept_until_settled 1 keys_of keys_of_all ltac:(unfold u64_max; lia) c issued settled (demo_insert "t2") c' err
    (key "t1" "0xA" false) row Hh Hl Eo Er) as [(row' & Er' & _)|H]; [|exact H].
  exfalso. vm_compute in E. injection E as <- <- <-. vm_compute in Eo. injection Eo as <- <-. vm_compute in Er'. discriminate.
Defined.

Lemma insert_refused_iff_witness :
  match run 1 demo_start [] [] [demo_insert "t1"] with
  | Some (c, issued, settled) =>
      ∃ c', insert 1 keys_of c "t2" "0xA" "7" Buy f64_one false demo_execution = Some (c', Some CapacityExhausted)
        ∧ ∀ k row, rows c !! k = Some row → ¬ released settled row
  | None => False
  end.
Proof.
  destruct (run 1 _ _ _ _) as [[[c issued] settled]|] eqn:E; [|vm_compute in E; discriminate].
  pose proof (demo_history _ _ _ _ E) as Hh.
  destruct (insert_refused_iff 1 keys_of keys_of_all ltac:(unfold u64_max; lia) c issued settled "t2" "0xA" "7" Buy f64_one false
    demo_execution Hh) as (c' & err & Ei & _ & _ & Hiff); [vm_compute in E; injection E as <- <- <-; vm_compute; reflexivity..|].
  assert (err = Some CapacityExhausted) as ->.
  { vm_compute in E. injection E as <- <- <-. vm_compute in Ei. by injection Ei as <- <-. }
  exists c'. split; [exact Ei|]. apply Hiff. reflexivity.
Defined.

(** Seeds with equal keys would leak a slot: a table of two rows with one row in it panics
    at the next insertion. *)
Definition demo_seed : PrivateExecutionSeed :=
  mkSeed (mkOwnership 0 "a" "i" "t1" "c" "0xA" "7" Buy f64_one f64_one "MINED") false (Some demo_execution).

Lemma duplicate_seed_leaks_slot :
  match new 2 [demo_seed; demo_seed] with
  | Some (inr c) => size (rows c) = 1%nat ∧ exec 2 keys_of c (demo_insert "t2") = None
  | _ => False
  end.
Proof. vm_compute. split; reflexivity. Qed.
