(* ===== verification/TakerExecution.v ===== *)
(** * Private taker executions

    [normalize_taker_execution] (hexagent-exchange/src/exchange/polymarket/taker_execution.rs)
    reduces a trade of the private feed to the quantity and the notional it really had,
    from its maker legs, or rejects the whole record.  The identities of the legs are kept
    in [SeenOrders], an open-addressing table of 128 slots on the stack.

    The JSON values are serde_json's and reached through the accessors of [JsonValue]; the
    callback that proves a binary pair is a parameter.  Text is ASCII.  [parse_f64] is
    [str::parse::<f64>]: the decimal grammar and the correctly rounded value.

    Proved: the table finds every repeated identity, ignoring case, and no other, and a
    search always ends; and the whole reduction is the plain one that keeps its identities
    in a list and adds with compensation. *)

From Stdlib Require Import Ascii Floats.SpecFloat.
From S2P Require Import Prelude F64 Types PrivateExecution.

(** ** Numbers *)

Definition is_digit (a : Ascii.ascii) : bool := let n := byte_at a in (48 <=? n) && (n <=? 57).
Definition digit (a : Ascii.ascii) : Z := byte_at a - 48.

(** The digits at the front: their number, their value, the rest. *)
Fixpoint digits (l : list Ascii.ascii) (count value : Z) : Z * Z * list Ascii.ascii :=
  match l with
  | a :: l' => if is_digit a then digits l' (count + 1) (10 * value + digit a) else (count, value, l)
  | [] => (count, value, l)
  end.

Definition sign_of (l : list Ascii.ascii) : bool * list Ascii.ascii :=
  match l with
  | a :: l' => if byte_at a =? 45 then (true, l') else if byte_at a =? 43 then (false, l') else (false, l)
  | [] => (false, [])
  end.

(** The exponent after the mantissa, if the text ends there. *)
Definition exponent_of (l : list Ascii.ascii) : option Z :=
  match l with
  | [] => Some 0
  | a :: l =>
      if (byte_at a =? 101) || (byte_at a =? 69)
      then let '(neg, l) := sign_of l in
           let '(n, v, rest) := digits l 0 0 in
           if (0 <? n) && (length rest =? 0)%nat then Some (if neg then - v else v) else None
      else None
  end.

(** [m / 10^k] rounded to nearest: the quotient to 66 bits or more, its last bit sticky. *)
Definition f64_ratio (m k : Z) : f64 :=
  let d := 10 ^ k in
  let s := Z.max 0 (66 + Z.log2 d - Z.log2 m) in
  let q := Z.shiftl m s / d in
  let sticky := if Z.shiftl m s mod d =? 0 then 0 else 1 in
  binary_normalize prec64 emax64 (2 * q + sticky) (- s - 1) false.

(** [m * 10^e], [m] having at most [n] digits; exponents out of reach are not computed. *)
Definition f64_decimal (m n e : Z) : f64 :=
  if m =? 0 then f64_zero
  else if 400 <? e then f64_infinity
  else if n + e <? -400 then f64_zero
  else if 0 <=? e then f64_of_Z (m * 10 ^ e) else f64_ratio m (- e).

Definition lower (l : list Ascii.ascii) : list Z := to_ascii_lowercase <$> l.
Definition text (s : string) : list Ascii.ascii := String.list_ascii_of_string s.

Definition parse_magnitude (l : list Ascii.ascii) : option f64 :=
  if bool_decide (lower l = lower (text "inf")) || bool_decide (lower l = lower (text "infinity")) then Some f64_infinity
  else if bool_decide (lower l = lower (text "nan")) then Some S754_nan
  else
    let '(n, v, rest) := digits l 0 0 in
    let '(k, v, rest) :=
      match rest with
      | a :: rest' => if byte_at a =? 46 then let '(k, v, rest') := digits rest' 0 v in (k, v, rest') else (0, v, rest)
      | [] => (0, v, rest)
      end in
    if n + k =? 0 then None
    else match exponent_of rest with
         | Some e => Some (f64_decimal v (n + k) (e - k))
         | None => None
         end.

Definition parse_f64 (s : string) : option f64 :=
  let '(neg, l) := sign_of (text s) in
  (λ x, if neg then f64_neg x else x) <$> parse_magnitude l.

Lemma parse_examples :
  parse_f64 "0.1" = Some (f64_dec 1 1) ∧ parse_f64 "-12.5e-1" = Some (f64_neg (f64_dec 125 2)) ∧ parse_f64 "7" = Some (f64_of_Z 7)
  ∧ parse_f64 "1e999" = Some f64_infinity ∧ parse_f64 "5e-324" = Some (S754_finite false 1 (-1074)) ∧ parse_f64 "2e-324" = Some f64_zero
  ∧ parse_f64 "9007199254740993" = Some (f64_of_Z 9007199254740992) ∧ parse_f64 "." = None ∧ parse_f64 "1_0" = None ∧ parse_f64 "e5" = None
  ∧ parse_f64 "0.12345678901234567890123" = Some (S754_finite false 8895999183877727 (-56)).
Proof. vm_compute. done. Qed.

(** ** The table of identities *)

Definition MAX_TAKER_EXECUTION_LEGS : nat := 64.
Definition slots : nat := MAX_TAKER_EXECUTION_LEGS * 2.

Record SeenOrders := mkSeen { hashes : list Z; ids : list (option (list Ascii.ascii)) }.

Definition seen_new : SeenOrders := mkSeen (replicate slots 0) (replicate slots None).

Definition order_fingerprint (id : list Ascii.ascii) : Z :=
  fold_left (λ h byte, wrapping_mul (Z.lxor h byte) 0x100000001b3) (lower id) 0xcbf29ce484222325.

Definition eq_ignore_ascii_case (a b : list Ascii.ascii) : bool := bool_decide (lower a = lower b).

(** [x & (self.ids.len() - 1)] *)
Definition masked (x : Z) : nat := Z.to_nat (Z.land x (Z.of_nat slots - 1)).

(** The loop of [insert]; [None] when it does not end. *)
Fixpoint probe (fuel : nat) (self : SeenOrders) (id : list Ascii.ascii) (hash : Z) (slot : nat) : option (SeenOrders * bool) :=
  match fuel with
  | O => None
  | S fuel =>
      match ids self !! slot, hashes self !! slot with
      | Some None, _ => Some (mkSeen (<[slot := hash]> (hashes self)) (<[slot := Some id]> (ids self)), true)
      | Some (Some prior), Some h =>
          if (h =? hash) && eq_ignore_ascii_case id prior then Some (self, false)
          else probe fuel self id hash (masked (Z.of_nat slot + 1))
      | _, _ => None
      end
  end.

Definition seen_insert (self : SeenOrders) (id : list Ascii.ascii) : option (SeenOrders * bool) :=
  let hash := order_fingerprint id in probe (S slots) self id hash (masked hash).

(** ** The reduction *)

Inductive TakerExecutionError :=
| MissingLegs
| TooManyLegs
| InvalidIdentity
| InvalidNumber
| InvalidPair
| DuplicateLeg
| QuantityMismatch.

Record TakerExecution := mkExecution { te_quantity : f64; te_gross_notional : f64 }.

Record Sum := mkSum { value : f64; correction : f64 }.
Definition default_sum : Sum := mkSum f64_zero f64_zero.

Definition sum_add (self : Sum) (x : f64) : Sum :=
  let corrected := f64_sub x (correction self) in
  let next := f64_add (value self) corrected in
  mkSum next (f64_sub (f64_sub next (value self)) corrected).

(** The [?] of the code. *)
#[local] Instance result_bind {E : Type} : MBind (sum E) := λ A B f r, match r with inl e => inl e | inr x => f x end.

(** The accessors of [serde_json::Value] the code uses. *)
Class JsonValue (V : Type) := {
  get : V → string → option V;
  as_str : V → option string;
  as_array : V → option (list V);
  as_f64 : V → option f64 }.

Section Normalize.
Context `{JsonValue V} (is_binary_pair : list Ascii.ascii → list Ascii.ascii → list Ascii.ascii → bool).

Definition identity (v : option V) : TakerExecutionError + list Ascii.ascii :=
  match v ≫= as_str with
  | Some s => let s := trim (text s) in if bool_decide (s = []) then inl InvalidIdentity else inr s
  | None => inl InvalidIdentity
  end.

Definition positive_number (v : option V) : TakerExecutionError + f64 :=
  let x := match v with
           | Some v => match as_str v with Some s => parse_f64 s | None => as_f64 v end
           | None => None
           end in
  match x with
  | Some x => if is_finite x && f64_gt x f64_zero then inr x else inl InvalidNumber
  | None => inl InvalidNumber
  end.

Definition price (v : option V) : TakerExecutionError + f64 :=
  x ← positive_number v;
  if f64_ge x f64_one then inl InvalidNumber else inr x.

Definition buy_side (v : option V) : TakerExecutionError + bool :=
  s ← identity v;
  if eq_ignore_ascii_case s (text "BUY") then inr true
  else if eq_ignore_ascii_case s (text "SELL") then inr false
  else inl InvalidIdentity.

Definition order_hash (s : list Ascii.ascii) : list Ascii.ascii :=
  match strip_prefix hex0x s with Some p => p | None => default s (strip_prefix hex0X s) end.

Definition or_get (v : V) (a b : string) : option V := match get v a with Some x => Some x | None => get v b end.

(** What the record says of the whole trade. *)
Record Trade := mkTrade { condition : list Ascii.ascii; asset : list Ascii.ascii; buy : bool; size : f64 }.

Definition trade_of (data : V) : TakerExecutionError + Trade :=
  condition ← identity (get data "market");
  asset ← identity (or_get data "asset_id" "token_id");
  side ← buy_side (get data "side");
  quantity ← positive_number (or_get data "size" "matched_amount");
  _ ← price (get data "price");
  inr (mkTrade condition asset side quantity).

Definition leg_id (leg : V) : TakerExecutionError + list Ascii.ascii :=
  id ← identity (get leg "order_id");
  let id := order_hash id in
  if bool_decide (id = []) then inl InvalidIdentity else inr id.

(** The quantity and the execution price of a leg whose identity is new. *)
Definition leg_execution (t : Trade) (leg : V) : TakerExecutionError + f64 * f64 :=
  leg_asset ← identity (get leg "asset_id");
  leg_side ← buy_side (get leg "side");
  leg_quantity ← positive_number (get leg "matched_amount");
  leg_price ← price (get leg "price");
  execution_price ←
    (if bool_decide (leg_asset = asset t)
     then if eqb (buy t) leg_side then inl InvalidPair else inr leg_price
     else if negb (eqb (buy t) leg_side) || negb (is_binary_pair (condition t) (asset t) leg_asset) then inl InvalidPair
     else inr (f64_sub f64_one leg_price));
  if f64_le execution_price f64_zero then inl InvalidNumber else inr (leg_quantity, execution_price).

Definition add_leg (sums : Sum * Sum) (x : f64 * f64) : Sum * Sum := (sum_add sums.1 x.1, sum_add sums.2 (f64_mul x.1 x.2)).

Fixpoint legs_loop (t : Trade) (seen : SeenOrders) (sums : Sum * Sum) (legs : list V) : option (TakerExecutionError + Sum * Sum) :=
  match legs with
  | [] => Some (inr sums)
  | leg :: legs =>
      match leg_id leg with
      | inl e => Some (inl e)
      | inr id =>
          match seen_insert seen id with
          | None => None
          | Some (_, false) => Some (inl DuplicateLeg)
          | Some (seen, true) =>
              match leg_execution t leg with
              | inl e => Some (inl e)
              | inr x => legs_loop t seen (add_leg sums x) legs
              end
          end
      end
  end.

Definition conclude (t : Trade) (sums : Sum * Sum) : TakerExecutionError + TakerExecution :=
  let total := value sums.1 in
  let gross := value sums.2 in
  if negb (is_finite total) || negb (is_finite gross) then inl InvalidNumber
  else if f64_gt (f64_abs (f64_sub total (size t))) (f64_max (f64_dec 1 8) (f64_mul (f64_abs (size t)) (f64_dec 1 8))) then inl QuantityMismatch
  else if f64_le gross f64_zero || f64_gt gross (f64_add (size t) (f64_dec 1 8)) then inl InvalidNumber
  else inr (mkExecution (size t) gross).

Definition legs_of (data : V) : TakerExecutionError + list V :=
  match get data "maker_orders" ≫= as_array with
  | Some legs =>
      if bool_decide (legs = []) then inl MissingLegs
      else if (MAX_TAKER_EXECUTION_LEGS <? length legs)%nat then inl TooManyLegs else inr legs
  | None => inl MissingLegs
  end.

Definition normalize_taker_execution (data : V) : option (TakerExecutionError + TakerExecution) :=
  match legs_of data with
  | inl e => Some (inl e)
  | inr legs =>
      match trade_of data with
      | inl e => Some (inl e)
      | inr t =>
          match legs_loop t seen_new (default_sum, default_sum) legs with
          | None => None
          | Some (inl e) => Some (inl e)
          | Some (inr sums) => Some (conclude t sums)
          end
      end
  end.
End Normalize.

(** ** The table is a set *)

Lemma masked_mod x : 0 <= x → masked x = (Z.to_nat x mod slots)%nat.
Proof.
  intros Hx. unfold masked. change (Z.of_nat slots - 1) with (Z.ones 7). rewrite Z.land_ones by lia.
  change (2 ^ 7) with (Z.of_nat slots). rewrite Z2Nat.inj_mod by (unfold slots; lia). by rewrite Nat2Z.id.
Qed.

Lemma fingerprint_nonneg id : 0 <= order_fingerprint id.
Proof.
  unfold order_fingerprint. assert (∀ l h, 0 <= h → 0 <= fold_left (λ h byte, wrapping_mul (Z.lxor h byte) 0x100000001b3) l h) as Hl.
  { induction l as [|b l IH]; intros h Hh; [done|]. apply IH. unfold wrapping_mul. apply Z.mod_pos_bound. lia. }
  apply Hl. lia.
Qed.

Definition home (id : list Ascii.ascii) : nat := masked (order_fingerprint id).
Definition nth_slot (start d : nat) : nat := ((start + d) mod slots)%nat.

Lemma slots_pos : slots ≠ 0%nat.
Proof. done. Qed.

Lemma home_lt id : (home id < slots)%nat.
Proof. unfold home. rewrite masked_mod by apply fingerprint_nonneg. by apply Nat.mod_upper_bound. Qed.

Lemma next_slot start d : masked (Z.of_nat (nth_slot start d) + 1) = nth_slot start (S d).
Proof.
  rewrite masked_mod by lia. unfold nth_slot. rewrite Z2Nat.inj_add, Nat2Z.id by lia. change (Z.to_nat 1) with 1%nat.
  rewrite Nat.Div0.add_mod_idemp_l. f_equal. lia.
Qed.

Lemma nth_slot_lt start d : (nth_slot start d < slots)%nat.
Proof. by apply Nat.mod_upper_bound. Qed.

(** Every slot is reached from every start. *)
Lemma nth_slot_onto start slot : (start < slots)%nat → (slot < slots)%nat → ∃ d, (d < slots)%nat ∧ nth_slot start d = slot.
Proof.
  intros Hs Ht. unfold nth_slot. destruct (decide (start <= slot)%nat).
  - exists (slot - start)%nat. split; [lia|]. rewrite Nat.mod_small; lia.
  - exists (slots - start + slot)%nat. split; [lia|]. replace (start + (slots - start + slot))%nat with (slot + 1 * slots)%nat by lia.
    rewrite Nat.Div0.mod_add, Nat.mod_small; lia.
Qed.

Definition occupied (self : SeenOrders) (slot : nat) : Prop := ∃ id, ids self !! slot = Some (Some id).

(** An identity is at the first free slot after its home at the time it came. *)
Record table_wf (self : SeenOrders) (seen : list (list Z)) : Prop := {
  tw_hashes : length (hashes self) = slots;
  tw_ids : length (ids self) = slots;
  tw_hash slot id : ids self !! slot = Some (Some id) → hashes self !! slot = Some (order_fingerprint id);
  tw_path slot id : ids self !! slot = Some (Some id) →
    ∃ d, slot = nth_slot (home id) d ∧ ∀ e, (e < d)%nat → occupied self (nth_slot (home id) e);
  tw_seen x : x ∈ seen ↔ ∃ slot id, ids self !! slot = Some (Some id) ∧ lower id = x;
  tw_count : count is_some (ids self) = length seen }.

Lemma fingerprint_lower a b : lower a = lower b → order_fingerprint a = order_fingerprint b ∧ home a = home b.
Proof. intros E. unfold home, order_fingerprint. by rewrite E. Qed.

Lemma count_insert {A} (p : A → bool) l i x y :
  l !! i = Some y → p y = false → p x = true → count p (<[i := x]> l) = S (count p l).
Proof.
  intros E Hy Hx. rewrite insert_take_drop by (by eapply lookup_lt_Some). rewrite <- (take_drop_middle l i y) at 3 by done.
  unfold count. rewrite !List.filter_app, !length_app. cbn. rewrite Hy, Hx. cbn. lia.
Qed.

Lemma free_slot self seen : table_wf self seen → (length seen < slots)%nat → ∃ slot, (slot < slots)%nat ∧ ids self !! slot = Some None.
Proof.
  intros Hw Hl. destruct (decide (Exists (λ o, o = None) (ids self))) as [He|Hn].
  - apply Exists_exists in He as (o & Ho & ->). apply list_elem_of_lookup in Ho as [slot Ho]. exists slot. split; [|done].
    rewrite <- (tw_ids _ _ Hw). by eapply lookup_lt_Some.
  - assert (count is_some (ids self) = length (ids self)) as Hc.
    { apply count_all. intros [o|] Ho; [done|]. destruct Hn. apply Exists_exists. by exists None. }
    rewrite (tw_count _ _ Hw), (tw_ids _ _ Hw) in Hc. lia.
Qed.

(** The search, [d] slots after the home, all of them taken by others. *)
Lemma probe_spec fuel self seen id d :
  table_wf self seen → (∃ e, (d <= e < slots)%nat ∧ ids self !! nth_slot (home id) e = Some None) → (slots < d + fuel)%nat →
  (∀ e, (e < d)%nat → ∃ prior, ids self !! nth_slot (home id) e = Some (Some prior) ∧ lower prior ≠ lower id) →
  (∃ slot prior, ids self !! slot = Some (Some prior) ∧ lower prior = lower id
     ∧ probe fuel self id (order_fingerprint id) (nth_slot (home id) d) = Some (self, false))
  ∨ (∃ e, ids self !! nth_slot (home id) e = Some None
     ∧ (∀ f, (f < e)%nat → ∃ prior, ids self !! nth_slot (home id) f = Some (Some prior) ∧ lower prior ≠ lower id)
     ∧ probe fuel self id (order_fingerprint id) (nth_slot (home id) d)
       = Some (mkSeen (<[nth_slot (home id) e := order_fingerprint id]> (hashes self)) (<[nth_slot (home id) e := Some id]> (ids self)), true)).
Proof.
  intros Hw. revert d. induction fuel as [|fuel IH]; intros d (e0 & He0 & Hfree) Hf Hbefore; [lia|]. cbn [probe].
  pose proof (nth_slot_lt (home id) d) as Hlt. rewrite <- (tw_ids _ _ Hw) in Hlt. apply lookup_lt_is_Some in Hlt as [[prior|] Ei].
  - rewrite Ei, (tw_hash _ _ Hw _ _ Ei). unfold eq_ignore_ascii_case. destruct (decide (lower id = lower prior)) as [El|Hne].
    + left. exists (nth_slot (home id) d), prior. split; [done|]. split; [done|].
      destruct (fingerprint_lower id prior El) as [-> _]. by rewrite Z.eqb_refl, bool_decide_true.
    + rewrite (bool_decide_false _ Hne), andb_false_r, next_slot. apply IH.
      * exists e0. split; [|done]. destruct (decide (e0 = d)) as [->|]; [congruence|lia].
      * lia.
      * intros e He. destruct (decide (e = d)) as [->|]; [|apply Hbefore; lia]. exists prior. split; [done|]. congruence.
  - right. exists d. by rewrite Ei.
Qed.

(** An identity met on no occupied slot before the first free one is nowhere. *)
Lemma not_stored self seen id e :
  table_wf self seen → ids self !! nth_slot (home id) e = Some None →
  (∀ f, (f < e)%nat → ∃ prior, ids self !! nth_slot (home id) f = Some (Some prior) ∧ lower prior ≠ lower id) → lower id ∉ seen.
Proof.
  intros Hw Hfree Hbefore (slot & prior & Hp & El)%(tw_seen _ _ Hw). destruct (fingerprint_lower prior id El) as [_ Eh].
  destruct (tw_path _ _ Hw _ _ Hp) as (d & -> & Hpath). rewrite Eh in *.
  destruct (lt_eq_lt_dec d e) as [[Hlt|Heq]|Hgt].
  - destruct (Hbefore d Hlt) as (q & Hq & Hne). congruence.
  - congruence.
  - destruct (Hpath e Hgt) as [q Hq]. congruence.
Qed.

(** One insertion: the table answers as the set does, and goes on representing it. *)
Lemma seen_insert_spec self seen id :
  table_wf self seen → (length seen < slots)%nat →
  if decide (lower id ∈ seen) then seen_insert self id = Some (self, false)
  else ∃ self', seen_insert self id = Some (self', true) ∧ table_wf self' (lower id :: seen).
Proof.
  intros Hw Hl. unfold seen_insert. assert (masked (order_fingerprint id) = nth_slot (home id) 0) as ->
    by (unfold nth_slot; rewrite Nat.add_0_r; symmetry; apply Nat.mod_small, home_lt).
  destruct (free_slot _ _ Hw Hl) as (slot0 & Hs0 & Hfree0). destruct (nth_slot_onto (home id) slot0 (home_lt id) Hs0) as (e0 & He0 & <-).
  destruct (probe_spec (S slots) self seen id 0 Hw) as [(slot & prior & Hp & El & ->)|(e & He & Hbefore & ->)];
    [exists e0; split; [lia|done]|lia|intros e He; lia| |].
  - rewrite decide_True; [done|]. apply (tw_seen _ _ Hw). by exists slot, prior.
  - pose proof (not_stored _ _ _ _ Hw He Hbefore) as Hn. rewrite decide_False by done. eexists. split; [done|].
    destruct Hw as [W1 W2 W3 W4 W5 W6]. set (slot := nth_slot (home id) e) in *.
    assert (slot < length (ids self))%nat as Hlt by (by eapply lookup_lt_Some).
    assert (∀ j o, ids self !! j = Some (Some o) → j ≠ slot) as Hne by (intros j o Hj ->; congruence).
    split; cbn [hashes ids].
    + by rewrite length_insert.
    + by rewrite length_insert.
    + intros j o Hj. apply list_lookup_insert_Some in Hj as [(<- & [= <-] & _)|[Hj' Hj]].
      * apply list_lookup_insert_eq. lia.
      * rewrite list_lookup_insert_ne by done. by apply W3.
    + assert (∀ j, occupied self j → occupied (mkSeen (<[slot := order_fingerprint id]> (hashes self)) (<[slot := Some id]> (ids self))) j) as Hocc.
      { intros j [o Ho]. exists o. cbn. rewrite list_lookup_insert_ne; [done|]. intros <-. by eapply Hne. }
      intros j o Hj. apply list_lookup_insert_Some in Hj as [(<- & [= <-] & _)|[Hj' Hj]].
      * exists e. split; [done|]. intros f Hf. apply Hocc. destruct (Hbefore f Hf) as (q & Hq & _). by exists q.
      * destruct (W4 j o Hj) as (d & -> & Hd). exists d. split; [done|]. intros f Hf. apply Hocc. by apply Hd.
    + intros x. rewrite elem_of_cons, W5. split.
      * intros [->|(j & o & Hj & Eo)]; [exists slot, id; split; [by apply list_lookup_insert_eq|done]|].
        exists j, o. split; [|done]. rewrite list_lookup_insert_ne; [done|]. intros <-. by eapply Hne.
      * intros (j & o & Hj & Eo). apply list_lookup_insert_Some in Hj as [(_ & [= <-] & _)|[_ Hj]]; [by left|right]. by exists j, o.
    + cbn. rewrite (count_insert _ _ _ _ None) by done. by rewrite W6.
Qed.

Lemma seen_new_wf : table_wf seen_new [].
Proof.
  split; [by vm_compute|by vm_compute| | | |by vm_compute].
  - intros slot id [? _]%lookup_replicate. done.
  - intros slot id [? _]%lookup_replicate. done.
  - intros x. split; [by intros ?%not_elem_of_nil|]. intros (slot & id & [? _]%lookup_replicate & _). done.
Qed.

(** ** The plain reduction *)

#[local] Arguments seen_insert : simpl never.

Section Plain.
Context `{JsonValue V} (is_binary_pair : list Ascii.ascii → list Ascii.ascii → list Ascii.ascii → bool).

(** The legs one by one, the identities in a list. *)
Fixpoint plain_legs (t : Trade) (seen : list (list Z)) (sums : Sum * Sum) (legs : list V) : TakerExecutionError + Sum * Sum :=
  match legs with
  | [] => inr sums
  | leg :: legs =>
      id ← leg_id leg;
      if decide (lower id ∈ seen) then inl DuplicateLeg
      else (x ← leg_execution is_binary_pair t leg; plain_legs t (lower id :: seen) (add_leg sums x) legs)
  end.

Definition plain_normalize (data : V) : TakerExecutionError + TakerExecution :=
  legs ← legs_of data;
  t ← trade_of data;
  sums ← plain_legs t [] (default_sum, default_sum) legs;
  conclude t sums.

Lemma legs_loop_plain t legs self seen sums :
  table_wf self seen → (length seen + length legs <= MAX_TAKER_EXECUTION_LEGS)%nat →
  legs_loop is_binary_pair t self sums legs = Some (plain_legs t seen sums legs).
Proof.
  revert self seen sums. induction legs as [|leg legs IH]; intros self seen sums Hw Hl; [done|]. cbn in Hl. cbn [legs_loop plain_legs].
  destruct (leg_id leg) as [e|id]; [done|]. cbn.
  assert (length seen < slots)%nat as Hs by (unfold slots; lia).
  pose proof (seen_insert_spec self seen id Hw Hs) as Hi. case_decide.
  - by rewrite Hi.
  - destruct Hi as (self' & -> & Hw'). destruct (leg_execution is_binary_pair t leg) as [e|x]; [done|]. cbn.
    apply IH; [done|]. cbn [length]. lia.
Qed.
End Plain.

(** the table detects duplicates exactly.  After any insertions of fewer than 128
    distinct identities the search for the next one ends, and says new exactly when no
    identity equal up to case was inserted before. *)
Theorem seen_orders_exact (before : list (list Ascii.ascii)) (id : list Ascii.ascii) :
  (length before < slots)%nat →
  ∃ table table' fresh,
    foldl (λ t i, t ≫= λ t, fst <$> seen_insert t i) (Some seen_new) before = Some table
    ∧ seen_insert table id = Some (table', fresh)
    ∧ (fresh = true ↔ lower id ∉ lower <$> before).
Proof.
  intros Hl.
  assert (∀ l t seen, table_wf t seen → (length seen + length l < slots)%nat →
    ∃ t' seen', foldl (λ t i, t ≫= λ t, fst <$> seen_insert t i) (Some t) l = Some t' ∧ table_wf t' seen'
      ∧ (length seen' <= length seen + length l)%nat ∧ ∀ x, x ∈ seen' ↔ x ∈ seen ∨ x ∈ lower <$> l) as Hfold.
  { induction l as [|i l IH]; intros t seen Hw Hlen; cbn [length] in Hlen.
    - exists t, seen. cbn. split; [done|]. split; [done|]. split; [lia|]. intros x. rewrite elem_of_nil. tauto.
    - pose proof (seen_insert_spec t seen i Hw ltac:(lia)) as Hi. cbn. case_decide as Hd.
      + rewrite Hi. cbn. destruct (IH t seen Hw ltac:(lia)) as (t' & seen' & E & Hw' & Hle & Hx). exists t', seen'.
        split; [done|]. split; [done|]. split; [lia|]. intros x. rewrite Hx, elem_of_cons. naive_solver.
      + destruct Hi as (t1 & -> & Hw1). cbn. destruct (IH t1 (lower i :: seen) Hw1 ltac:(cbn [length]; lia)) as (t' & seen' & E & Hw' & Hle & Hx).
        exists t', seen'. split; [done|]. split; [done|]. cbn in Hle. split; [lia|]. intros x. rewrite Hx, !elem_of_cons. tauto. }
  destruct (Hfold before seen_new [] seen_new_wf ltac:(cbn [length]; lia)) as (t & seen & E & Hw & Hle & Hx). cbn in Hle.
  pose proof (seen_insert_spec t seen id Hw ltac:(lia)) as Hi. exists t. case_decide as Hd.
  - exists t, false. split; [done|]. split; [done|]. split; [done|]. intros Hn. destruct Hn. apply Hx in Hd as [?%not_elem_of_nil|?]; done.
  - destruct Hi as (t' & -> & _). exists t', true. split; [done|]. split; [done|]. split; [|done]. intros _ Hin. destruct Hd. apply Hx. by right.
Qed.

(** C24: a taker execution is the plain sum of its legs.  The reduction with the fixed table
    always ends and gives, on every record, the result or the error of the plain reduction:
    the legs in order, each with a new identity up to case, on the other side of the same
    token or on the same side of the proven complement, and the compensated sums of their
    quantities and notionals checked against the record. *)
Theorem normalize_is_plain `{JsonValue V} is_binary_pair (data : V) :
  normalize_taker_execution is_binary_pair data = Some (plain_normalize is_binary_pair data).
Proof.
  unfold normalize_taker_execution, plain_normalize. destruct (legs_of data) as [e|legs] eqn:El; [done|]. cbn.
  destruct (trade_of data) as [e|t]; [done|]. cbn. rewrite (legs_loop_plain is_binary_pair t legs seen_new [] _ seen_new_wf).
  - by destruct (plain_legs _ _ _ _ legs).
  - unfold legs_of in El. destruct (_ ≫= as_array) as [l|]; [|done]. case_bool_decide; [done|].
    destruct (MAX_TAKER_EXECUTION_LEGS <? length l)%nat eqn:Elt; [done|]. injection El as ->. apply Nat.ltb_ge in Elt. done.
Qed.

(** ** Runs *)

Inductive Json := JString (s : string) | JNumber (x : f64) | JArray (l : list Json) | JObject (l : list (string * Json)).

#[local] Instance json_value : JsonValue Json := {|
  get v k := match v with JObject l => snd <$> List.find (λ p, String.eqb p.1 k) l | _ => None end;
  as_str v := match v with JString s => Some s | _ => None end;
  as_array v := match v with JArray l => Some l | _ => None end;
  as_f64 v := match v with JNumber x => Some x | _ => None end |}.

Definition demo_leg (order token side amount price : string) : Json :=
  JObject [("order_id", JString order); ("asset_id", JString token); ("side", JString side);
           ("matched_amount", JString amount); ("price", JString price)].
Definition demo_trade (legs : list Json) : Json :=
  JObject [("market", JString "0xc"); ("asset_id", JString "up"); ("side", JString "BUY"); ("size", JString "10");
           ("price", JString "0.9"); ("maker_orders", JArray legs)].

(** A leg on the same token and a minted one: 4 * 0.5 + 6 * (1 - 0.25); the same order
    twice in different case; a leg on an unproven token. *)
Lemma normalize_examples :
  normalize_taker_execution (λ _ a b, bool_decide (b = text "down"))
    (demo_trade [demo_leg "0xAB" "up" "sell" "4" "0.5"; demo_leg "0xCD" "down" "BUY" "6" "0.25"])
    = Some (inr (mkExecution (f64_of_Z 10) (f64_dec 65 1)))
  ∧ normalize_taker_execution (λ _ _ _, true) (demo_trade [demo_leg "0xAB" "up" "sell" "4" "0.5"; demo_leg "0Xab" "up" "SELL" "6" "0.5"])
    = Some (inl DuplicateLeg)
  ∧ normalize_taker_execution (λ _ _ _, false) (demo_trade [demo_leg "0xCD" "down" "BUY" "10" "0.25"]) = Some (inl InvalidPair).
Proof. vm_compute. done. Qed.

Lemma seen_orders_exact_witness :
  ∃ table table' fresh,
    foldl (λ t i, t ≫= λ t, fst <$> seen_insert t i) (Some seen_new) [text "ab"; text "cd"] = Some table
    ∧ seen_insert table (text "AB") = Some (table', fresh)
    ∧ (fresh = true ↔ lower (text "AB") ∉ lower <$> [text "ab"; text "cd"]).
Proof. apply (seen_orders_exact [text "ab"; text "cd"] (text "AB")). by vm_compute; lia. Defined.
