(* ===== verification/Channel.v ===== *)
(** * Bounded channels

    The bounded channels of the crossbeam library, which the code uses and does not
    define: an interface with the behaviour their documentation states, a first-in
    first-out buffer that holds at most its capacity.  The components that use such
    channels ([Shutdown], [ProtocolLane]) are written and proved against the interface;
    [buffer_channel] shows that it can be met and runs the witnesses. *)

From S2P Require Import Prelude.

(** [ch_send] is [try_send] and [ch_recv] is [try_recv] while both ends are alive:
    [None] is [Full] and [Empty].  Disconnection is kept by the component that drops the
    ends. *)
Class BoundedChannel (Ch : Type → Type) := {
  ch_new {A} : nat → Ch A;
  ch_send {A} : Ch A → A → option (Ch A);
  ch_recv {A} : Ch A → option (A * Ch A);
  ch_content {A} : Ch A → list A;
  ch_capacity {A} : Ch A → nat;
  ch_new_content A n : (0 < n)%nat → ch_content (ch_new (A := A) n) = [];
  ch_new_capacity A n : (0 < n)%nat → ch_capacity (ch_new (A := A) n) = n;
  ch_send_some A (c c' : Ch A) x :
    ch_send c x = Some c' →
    (length (ch_content c) < ch_capacity c)%nat ∧ ch_content c' = ch_content c ++ [x] ∧ ch_capacity c' = ch_capacity c;
  ch_send_none A (c : Ch A) x : ch_send c x = None → (ch_capacity c <= length (ch_content c))%nat;
  ch_recv_some A (c c' : Ch A) x :
    ch_recv c = Some (x, c') → ch_content c = x :: ch_content c' ∧ ch_capacity c' = ch_capacity c;
  ch_recv_none A (c : Ch A) : ch_recv c = None → ch_content c = [] }.

(** A buffer and its capacity. *)
Record Buffer (A : Type) := mkBuffer { items : list A; room : nat }.
Arguments mkBuffer {A}. Arguments items {A}. Arguments room {A}.

#[refine, export] Instance buffer_channel : BoundedChannel Buffer := {|
  ch_new A n := mkBuffer [] n;
  ch_send A c x := if (length (items c) <? room c)%nat then Some (mkBuffer (items c ++ [x]) (room c)) else None;
  ch_recv A c := match items c with x :: l => Some (x, mkBuffer l (room c)) | [] => None end;
  ch_content A c := items c;
  ch_capacity A c := room c |}.
Proof.
  all: intros A; try done.
  - intros c c' x H. case_match eqn:E; [|done]. apply Nat.ltb_lt in E. injection H as <-. done.
  - intros c x H. case_match eqn:E; [done|]. by apply Nat.ltb_ge in E.
  - intros [[|y l] n] c' x H; [done|]. by injection H as <- <-.
  - intros [[|y l] n] H; done.
Defined.

Section Laws.
Context `{BoundedChannel Ch} {A : Type}.
Implicit Types c : Ch A.

(** A message is taken exactly when the buffer has room for it. *)
Lemma ch_send_cases c x :
  (∃ c', ch_send c x = Some c' ∧ (length (ch_content c) < ch_capacity c)%nat
     ∧ ch_content c' = ch_content c ++ [x] ∧ ch_capacity c' = ch_capacity c)
  ∨ (ch_send c x = None ∧ (ch_capacity c <= length (ch_content c))%nat).
Proof.
  destruct (ch_send c x) as [c'|] eqn:E; [left|right; eauto using ch_send_none].
  exists c'. split; [done|]. by apply (ch_send_some A c c' x).
Qed.

Lemma ch_recv_cases c :
  (∃ x c', ch_recv c = Some (x, c') ∧ ch_content c = x :: ch_content c' ∧ ch_capacity c' = ch_capacity c)
  ∨ (ch_recv c = None ∧ ch_content c = []).
Proof.
  destruct (ch_recv c) as [[x c']|] eqn:E; [left|right; eauto using ch_recv_none].
  exists x, c'. split; [done|]. by apply (ch_recv_some A c c' x).
Qed.
End Laws.
