(* ===== verification/Shutdown.v ===== *)
(** * Coordinated shutdown

    [ShutdownToken] (hexagent-runtime/src/shutdown.rs): a phase that goes from running to
    requested to finished, a flag, and a list of subscribers, each with a channel of two
    messages.  [subscribe], [request] and [finish] run on any threads: the phase and the
    flag are atomic words, the list is under a mutex, and the phase is changed outside the
    mutex.  The model has one step per access: to the phase, to the flag, to the mutex, and
    to a subscriber's channel.  [Vec::retain] empties the vector while it runs, so the
    subscribers are held by the thread that has the mutex.  Poisoned mutexes are entered as
    the code does.

    Proved for every interleaving: a subscriber receives the phases in order; once a
    [finish] has returned, no subscriber is left waiting, and each one that still listens
    has received [Finished] or had its channel full of two [Requested]; that
    last case can happen ([finished_lost]), although the code announces that every
    subscriber gets both phases. *)

From S2P Require Import Prelude Channel.

#[local] Arguments count : simpl never.

Definition RUNNING : Z := 0.
Definition REQUESTED : Z := 1.
Definition FINISHED : Z := 2.

Inductive ShutdownPhase := Requested | Finished.

#[export] Instance ShutdownPhase_eq_dec : EqDecision ShutdownPhase.
Proof. solve_decision. Defined.

Definition as_u8 (self : ShutdownPhase) : Z := match self with Requested => REQUESTED | Finished => FINISHED end.

Definition from_u8 (value : Z) : option ShutdownPhase :=
  if value =? REQUESTED then Some Requested else if value =? FINISHED then Some Finished else None.

Section Token.
Context `{BoundedChannel Ch}.

(** A subscriber's channel.  [taken] is what its receiver has received; the receiver
    belongs to the subscriber once [subscribe] has returned it. *)
Record Lane := mkLane {
  chan : Ch ShutdownPhase;
  sender : bool;
  receiver : bool;
  returned : bool;
  taken : list ShutdownPhase }.

Record ShutdownState := mkState {
  phase : Z;
  requested : bool;
  mutex : bool;
  subscribers : list nat;
  lanes : list Lane }.

Definition new : ShutdownState := mkState RUNNING false false [] [].

Definition is_requested (s : ShutdownState) : bool := requested s.
Definition is_finished (s : ShutdownState) : bool := FINISHED <=? phase s.

(** Where a thread is in [subscribe] or [advance]. *)
Inductive Pc :=
| SubscribeChannel
| SubscribeLock (id : nat)
| SubscribeLoad (id : nat)
| SubscribePush (id : nat) (phase : Z)
| AdvanceStore (target : ShutdownPhase)
| AdvanceMax (target : ShutdownPhase)
| AdvanceLock (target : ShutdownPhase)
| AdvanceRetain (target : ShutdownPhase) (todo kept : list nat)
| Done.

Definition on_lane (s : ShutdownState) (id : nat) (f : Lane → Lane) : ShutdownState :=
  s <| lanes := alter f id (lanes s) |>.

Definition drop_sender (l : Lane) : Lane := l <| sender := false |>.

(** [subscriber.try_send(phase)]: refused when the channel is full or its receiver gone. *)
Definition try_send (l : Lane) (p : ShutdownPhase) : option Lane :=
  if receiver l then match ch_send (chan l) p with Some c => Some (l <| chan := c |>) | None => None end
  else None.

Definition send_ignoring (p : option ShutdownPhase) (l : Lane) : Lane :=
  match p with Some p => default l (try_send l p) | None => l end.

(** One access of a thread; [None] when it waits for the mutex or has returned. *)
Definition access (s : ShutdownState) (pc : Pc) : option (ShutdownState * Pc) :=
  match pc with
  | SubscribeChannel =>
      Some (s <| lanes := lanes s ++ [mkLane (ch_new 2) true true false []] |>, SubscribeLock (length (lanes s)))
  | SubscribeLock id =>
      if mutex s then None else Some (s <| mutex := true |>, SubscribeLoad id)
  | SubscribeLoad id => Some (s, SubscribePush id (phase s))
  | SubscribePush id p =>
      let s := on_lane s id (λ l, (send_ignoring (from_u8 p) l) <| returned := true |>) in
      let s := if p <? FINISHED then s <| subscribers := subscribers s ++ [id] |> else on_lane s id drop_sender in
      Some (s <| mutex := false |>, Done)
  | AdvanceStore target => Some (s <| requested := true |>, AdvanceMax target)
  | AdvanceMax target =>
      let previous := phase s in
      Some (s <| phase := Z.max previous (as_u8 target) |>,
            if as_u8 target <=? previous then Done else AdvanceLock target)
  | AdvanceLock target =>
      if mutex s then None
      else Some (s <| mutex := true |> <| subscribers := [] |>, AdvanceRetain target (subscribers s) [])
  | AdvanceRetain target (id :: todo) kept =>
      match lanes s !! id ≫= λ l, try_send l target with
      | Some l => Some (s <| lanes := <[id := l]> (lanes s) |>, AdvanceRetain target todo (kept ++ [id]))
      | None => Some (on_lane s id drop_sender, AdvanceRetain target todo kept)
      end
  | AdvanceRetain target [] kept =>
      let s := if decide (target = Finished) then foldl (λ s id, on_lane s id drop_sender) s kept
               else s <| subscribers := kept |> in
      Some (s <| mutex := false |>, Done)
  | Done => None
  end.

(** The calls of the interface. *)
Inductive Call := Subscribe | Request | Finish.
Definition start (c : Call) : Pc :=
  match c with Subscribe => SubscribeChannel | Request => AdvanceStore Requested | Finish => AdvanceStore Finished end.

(** [recv] of a subscriber. *)
Definition lane_recv (l : Lane) : option Lane :=
  match ch_recv (chan l) with
  | Some (p, c) => Some (l <| chan := c |> <| taken := taken l ++ [p] |>)
  | None => None
  end.

(** What a blocking [recv] meets: a message, the end, or nothing. *)
Inductive Received := Message (p : ShutdownPhase) | Disconnected | Waiting.
Definition recv_outcome (l : Lane) : Received :=
  match ch_recv (chan l) with
  | Some (p, _) => Message p
  | None => if sender l then Waiting else Disconnected
  end.

(** ** Interleavings *)

Record Sys := mkSys { state : ShutdownState; threads : list Pc }.

Inductive Event := Begin (c : Call) | Run (t : nat) | Recv (id : nat) | DropReceiver (id : nat).

Definition with_lane (y : Sys) (id : nat) (f : Lane → option Lane) : option Sys :=
  match lanes (state y) !! id with
  | Some l => if returned l && receiver l
              then match f l with Some l => Some (mkSys ((state y) <| lanes := <[id := l]> (lanes (state y)) |>) (threads y)) | None => None end
              else None
  | None => None
  end.

Definition event (y : Sys) (e : Event) : option Sys :=
  match e with
  | Begin c => Some (mkSys (state y) (threads y ++ [start c]))
  | Run t =>
      match threads y !! t with
      | Some pc => match access (state y) pc with
                   | Some (s, pc) => Some (mkSys s (<[t := pc]> (threads y)))
                   | None => None
                   end
      | None => None
      end
  | Recv id => with_lane y id lane_recv
  | DropReceiver id => with_lane y id (λ l, Some (l <| receiver := false |>))
  end.

Inductive reachable : Sys → Prop :=
| reachable_new : reachable (mkSys new [])
| reachable_event y e y' : reachable y → event y e = Some y' → reachable y'.

(** ** Invariant *)

(** Everything a subscriber was sent: what it has taken, then what waits. *)
Definition stream (l : Lane) : list ShutdownPhase := taken l ++ ch_content (chan l).
#[local] Arguments stream : simpl never.

(** The senders a thread holds: of a subscription under way, or of the list it retains. *)
Definition fresh_ids (pc : Pc) : list nat :=
  match pc with SubscribeLock id | SubscribeLoad id | SubscribePush id _ => [id] | _ => [] end.
Definition retained_ids (pc : Pc) : list nat :=
  match pc with AdvanceRetain _ todo kept => todo ++ kept | _ => [] end.
Definition unsent_ids (pc : Pc) : list nat :=
  match pc with
  | AdvanceRetain Requested todo kept => todo ++ kept
  | AdvanceRetain Finished todo _ => todo
  | _ => []
  end.

Definition fresh (y : Sys) : list nat := flat_map fresh_ids (threads y).
Definition listed (y : Sys) : list nat := subscribers (state y) ++ flat_map retained_ids (threads y).
Definition unsent (y : Sys) : list nat := subscribers (state y) ++ flat_map unsent_ids (threads y).

Definition critical (pc : Pc) : bool :=
  match pc with SubscribeLoad _ | SubscribePush _ _ | AdvanceRetain _ _ _ => true | _ => false end.
Definition announces (t : ShutdownPhase) (pc : Pc) : bool :=
  match pc with AdvanceLock t' | AdvanceRetain t' _ _ => bool_decide (t = t') | _ => false end.

(** A thread that will still send the phase to the lane. *)
Definition owes (t : ShutdownPhase) (id : nat) (pc : Pc) : Prop :=
  match pc with
  | AdvanceLock t' => t' = t
  | AdvanceRetain t' todo _ => t' = t ∧ id ∈ todo
  | _ => False
  end.
Definition owed (ths : list Pc) (t : ShutdownPhase) (id : nat) : Prop := ∃ pc, pc ∈ ths ∧ owes t id pc.

(** [Requested] at most twice, then perhaps [Finished]. *)
Definition ordered (l : Lane) : Prop :=
  ∃ n, (n <= 2)%nat ∧ (stream l = replicate n Requested ∨ stream l = replicate n Requested ++ [Finished]).

(** A lane whose sender is gone: told of the end, deaf, or full. *)
Definition settled (l : Lane) : Prop :=
  receiver l = false ∨ Finished ∈ stream l ∨ stream l = [Requested; Requested].

Record unsent_ok (y : Sys) (id : nat) (l : Lane) : Prop := {
  uo_requests : ∃ n, (n <= 2)%nat ∧ stream l = replicate n Requested;
  uo_running : phase (state y) = 0 → stream l = [];
  uo_finished : phase (state y) = 2 → owed (threads y) Finished id;
  uo_empty : stream l = [] → phase (state y) = 0 ∨ owed (threads y) Requested id ∨ owed (threads y) Finished id;
  uo_room : owed (threads y) Requested id → (length (stream l) <= 1)%nat }.

Record lane_ok (y : Sys) (id : nat) (l : Lane) : Prop := {
  lo_capacity : ch_capacity (chan l) = 2%nat;
  lo_ordered : ordered l;
  lo_fresh : id ∈ fresh y → returned l = false ∧ receiver l = true ∧ stream l = [];
  lo_returned : id ∉ fresh y → returned l = true;
  lo_unsent : id ∈ unsent y → unsent_ok y id l;
  lo_settled : (id ∉ fresh y) → (id ∉ unsent y) → settled l;
  lo_sender : sender l = true ↔ id ∈ fresh y ++ listed y }.

(** What a subscriber about to enter the list has read. *)
Definition push_ok (y : Sys) (pc : Pc) : Prop :=
  match pc with
  | SubscribePush _ p =>
      0 <= p <= phase (state y)
      ∧ (phase (state y) = 2 → p = 2 ∨ AdvanceLock Finished ∈ threads y)
      ∧ (1 <= phase (state y) → 1 <= p ∨ AdvanceLock Requested ∈ threads y ∨ AdvanceLock Finished ∈ threads y)
  | AdvanceMax _ => requested (state y) = true
  | AdvanceLock t => as_u8 t <= phase (state y)
  | AdvanceRetain t _ _ => as_u8 t <= phase (state y) ∧ subscribers (state y) = []
  | _ => True
  end.

Record inv (y : Sys) : Prop := {
  iv_phase : phase (state y) = 0 ∨ phase (state y) = 1 ∨ phase (state y) = 2;
  iv_requested : 1 <= phase (state y) → requested (state y) = true;
  iv_mutex : count critical (threads y) = if mutex (state y) then 1%nat else 0%nat;
  iv_announces t : (count (announces t) (threads y) <= 1)%nat;
  iv_pcs pc : pc ∈ threads y → push_ok y pc;
  iv_nodup : NoDup (fresh y ++ listed y);
  iv_bound id : id ∈ fresh y ++ listed y → (id < length (lanes (state y)))%nat;
  iv_lanes id l : lanes (state y) !! id = Some l → lane_ok y id l }.

(** Threads are taken in any order. *)
#[local] Instance flat_map_perm {A B} (f : A → list B) : Proper ((≡ₚ) ==> (≡ₚ)) (flat_map f).
Proof. intros l l' Hl. by apply Permutation_flat_map. Qed.
#[local] Instance count_perm {A} (p : A → bool) : Proper ((≡ₚ) ==> (=)) (count p).
Proof. induction 1; unfold count in *; cbn in *; repeat case_match; cbn; congruence. Qed.

Lemma inv_perm s ths ths' : ths ≡ₚ ths' → inv (mkSys s ths) → inv (mkSys s ths').
Proof.
  intros Hp [A1 A2 A3 A4 A5 A6 A7 A8]. cbn in *.
  assert (fresh (mkSys s ths) ≡ₚ fresh (mkSys s ths')) as Ef by (unfold fresh; cbn; by rewrite Hp).
  assert (listed (mkSys s ths) ≡ₚ listed (mkSys s ths')) as El by (unfold listed; cbn; by rewrite Hp).
  assert (unsent (mkSys s ths) ≡ₚ unsent (mkSys s ths')) as Eu by (unfold unsent; cbn; by rewrite Hp).
  assert (∀ t id, owed ths t id ↔ owed ths' t id) as Eo by (intros; unfold owed; by setoid_rewrite Hp).
  split; cbn; try done.
  - by rewrite <- Hp.
  - intros t. by rewrite <- Hp.
  - intros pc Hpc. rewrite <- Hp in Hpc. specialize (A5 pc Hpc). destruct pc; cbn in *; try done. by rewrite <- Hp.
  - by rewrite <- Ef, <- El.
  - intros id. rewrite <- Ef, <- El. apply A7.
  - intros id l Hl. destruct (A8 id l Hl) as [B1 B2 B3 B4 B5 B6 B7]. split; try done; rewrite <- ?Ef, <- ?El, <- ?Eu; try done.
    intros Hu. destruct (B5 Hu) as [C1 C2 C3 C4 C5]. cbn in *. split; cbn; try done; rewrite <- ?Eo; done.
Qed.

Lemma count_cons {A} (p : A → bool) a l : count p (a :: l) = ((if p a then 1 else 0) + count p l)%nat.
Proof. unfold count. cbn. by destruct (p a). Qed.

Lemma count_0 {A} (p : A → bool) a l : count p l = 0%nat → a ∈ l → p a = false.
Proof.
  intros Hc Ha. destruct (p a) eqn:E; [|done]. assert (0 < count p l)%nat; [|lia].
  apply count_pos. by exists a.
Qed.

Lemma owed_cons pc ths t id : owed (pc :: ths) t id ↔ owes t id pc ∨ owed ths t id.
Proof. unfold owed. setoid_rewrite elem_of_cons. naive_solver. Qed.

Lemma unsent_listed y id : id ∈ unsent y → id ∈ listed y.
Proof.
  unfold unsent, listed. rewrite !elem_of_app, !list_elem_of_In, !in_flat_map.
  intros [?|(pc & Hpc & Hid)]; [by left|right]. exists pc. split; [done|].
  destruct pc as [| | | | | | |[] todo kept|]; cbn in *; try done. rewrite <- list_elem_of_In in *. set_solver.
Qed.

(** A lane the step leaves alone. *)
Lemma lane_frame y y' id l :
  lane_ok y id l → (id ∈ fresh y' ↔ id ∈ fresh y) → (id ∈ listed y' ↔ id ∈ listed y) →
  (id ∈ unsent y' ↔ id ∈ unsent y) → (id ∈ unsent y → unsent_ok y id l → unsent_ok y' id l) → lane_ok y' id l.
Proof.
  intros [B1 B2 B3 B4 B5 B6 B7] Ef El Eu Ho. split; rewrite ?elem_of_app, ?Ef, ?El, ?Eu, <- ?elem_of_app; auto.
Qed.

Lemma unsent_frame y y' id l :
  unsent_ok y id l → phase (state y') = phase (state y) →
  (∀ t, owed (threads y') t id ↔ owed (threads y) t id) → unsent_ok y' id l.
Proof. intros [C1 C2 C3 C4 C5] Ep Eo. split; rewrite ?Ep, ?Eo; done. Qed.

Lemma push_frame y y' pc :
  push_ok y pc → phase (state y') = phase (state y) → (requested (state y) = true → requested (state y') = true) →
  (subscribers (state y) = [] → subscribers (state y') = []) →
  (∀ t, AdvanceLock t ∈ threads y → AdvanceLock t ∈ threads y') → push_ok y' pc.
Proof. intros Hq Ep Er Es Ht. destruct pc; cbn in *; rewrite ?Ep; auto; naive_solver. Qed.

Lemma elem_of_cons_ne {A} (x y : A) l : x ≠ y → x ∈ y :: l → x ∈ l.
Proof. by intros Hn [->|?]%elem_of_cons. Qed.

(** ** Every access keeps the invariant *)

Ltac open_inv H := destruct H as [A1 A2 A3 A4 A5 A6 A7 A8]; unfold fresh, listed, unsent in *; cbn in *.

Ltac phase_lia := unfold as_u8, REQUESTED, FINISHED in *; cbn in *; lia.

(** A step that leaves lanes, lists and phase alone, up to the thread's own position. *)
Lemma step_quiet s s' pc pc' ths :
  inv (mkSys s (pc :: ths)) →
  phase s' = phase s → subscribers s' = subscribers s → lanes s' = lanes s →
  (requested s = true → requested s' = true) →
  fresh_ids pc' = fresh_ids pc → retained_ids pc' = retained_ids pc → unsent_ids pc' = unsent_ids pc →
  (∀ t, announces t pc' = announces t pc) → (∀ t id, owes t id pc' ↔ owes t id pc) →
  (∀ t, pc ≠ AdvanceLock t) → (∀ t, pc' ≠ AdvanceLock t) →
  count critical (pc' :: ths) = (if mutex s' then 1%nat else 0%nat) → push_ok (mkSys s' (pc' :: ths)) pc' →
  inv (mkSys s' (pc' :: ths)).
Proof.
  intros Hi Ep Es El Er Ef Et Eu Ea Eo N N' Hm Hpc. open_inv Hi.
  assert (∀ t id, owed (pc' :: ths) t id ↔ owed (pc :: ths) t id) as Eow by (intros; rewrite !owed_cons; by rewrite Eo).
  split; unfold fresh, listed, unsent; cbn; rewrite ?Ep, ?Es, ?El, ?Ef, ?Et; auto.
  - intros t. specialize (A4 t). by rewrite count_cons, ?Ea, <- count_cons in *.
  - intros q [->|Hq]%elem_of_cons; [done|]. eapply push_frame; [apply A5; by right|done|done|cbn; by rewrite Es|].
    intros t Ht%elem_of_cons_ne; [by right|done].
  - intros id l Hl. eapply lane_frame; [by apply A8|unfold fresh, listed, unsent; cbn..|].
    + by rewrite Ef. + by rewrite Es, Et. + by rewrite Es, Eu.
    + intros _ Ho. eapply unsent_frame; [done|done|]. intros t. apply Eow.
Qed.

Lemma step_channel s ths :
  inv (mkSys s (SubscribeChannel :: ths)) →
  inv (mkSys (s <| lanes := lanes s ++ [mkLane (ch_new 2) true true false []] |>) (SubscribeLock (length (lanes s)) :: ths)).
Proof.
  intros Hi. open_inv Hi.
  assert (∀ id, id ∈ flat_map fresh_ids ths ++ subscribers s ++ flat_map retained_ids ths → id ≠ length (lanes s)) as Hne
    by (intros id Hid ->; specialize (A7 _ Hid); lia).
  split; unfold fresh, listed, unsent; cbn; auto.
  - intros q [->|Hq]%elem_of_cons; [done|]. eapply push_frame; [apply A5; by right|done|done|done|].
    intros t Ht%elem_of_cons_ne; [by right|done].
  - constructor; [|done]. intros Hin. by apply Hne in Hin.
  - rewrite length_app. cbn. intros id [->|Hid]%elem_of_cons; [lia|]. specialize (A7 _ Hid). lia.
  - intros id l Hl. apply lookup_snoc_Some in Hl as [[Hlt Hl]|[-> <-]].
    + eapply lane_frame; [by apply A8|unfold fresh, listed, unsent; cbn; set_solver by lia..|].
      intros _ Ho. eapply unsent_frame; [done|done|]. intros t. cbn. rewrite !owed_cons. done.
    + assert (length (lanes s) ∉ subscribers s ++ flat_map unsent_ids ths) as Hnu.
      { intros Hu. apply (unsent_listed (mkSys s ths)) in Hu. unfold listed in Hu. cbn in Hu.
        apply (Hne (length (lanes s))); [|done]. rewrite elem_of_app. by right. }
      assert (stream (mkLane (ch_new 2) true true false []) = []) as Est by (unfold stream; cbn; by rewrite ch_new_content by lia).
      split; unfold fresh, listed, unsent; cbn; try done.
      * by rewrite ch_new_capacity by lia.
      * exists 0%nat. split; [lia|]. by left.
      * intros []. left.
      * intros []. left.
      * split; [left|done].
Qed.

Lemma step_max s target ths :
  inv (mkSys s (AdvanceMax target :: ths)) →
  inv (mkSys (s <| phase := Z.max (phase s) (as_u8 target) |>)
         ((if as_u8 target <=? phase s then Done else AdvanceLock target) :: ths)).
Proof.
  intros Hi. open_inv Hi. pose proof (A5 (AdvanceMax target) ltac:(by left)) as Hreq. cbn in Hreq.
  destruct (as_u8 target <=? phase s) eqn:E; [apply Z.leb_le in E|apply Z.leb_gt in E].
  { rewrite Z.max_l by done. apply (step_quiet s _ (AdvanceMax target)); cbn; try done. }
  rewrite Z.max_r by lia.
  assert (∀ t id, owed (AdvanceLock target :: ths) t id ↔ t = target ∨ owed (AdvanceMax target :: ths) t id) as Eo
    by (intros; rewrite !owed_cons; cbn; naive_solver).
  assert (∀ pc, pc ∈ ths → ∀ t, announces t pc = true → as_u8 t <= phase s) as Hann.
  { intros pc Hpc t Ht. specialize (A5 pc ltac:(by right)). destruct pc; cbn in *; try done; apply bool_decide_eq_true in Ht; subst; tauto. }
  split; unfold fresh, listed, unsent; cbn; auto.
  - destruct target; cbn; tauto.
  - intros t. specialize (A4 t). rewrite count_cons in *. cbn in *. case_bool_decide as Ht; [subst t|lia].
    assert (count (announces target) ths = 0%nat); [|lia].
    destruct (count (announces target) ths) eqn:Ec; [done|].
    assert (0 < count (announces target) ths)%nat as (pc & Hpc & Ha)%count_pos by lia. specialize (Hann _ Hpc _ Ha). lia.
  - intros q [->|Hq]%elem_of_cons; [cbn; lia|]. specialize (A5 q ltac:(by right)). destruct q; cbn in *; try done; [|lia|split; [lia|tauto]].
    destruct A5 as ((? & ?) & B1 & B2). split; [lia|]. destruct target; cbn in *.
    + split; [phase_lia|]. intros _. right; left. left.
    + split; [intros _; right; left|]. intros _. right; right. left.
  - intros id l Hl. eapply lane_frame; [by apply A8|unfold fresh, listed, unsent; cbn; done..|].
    intros _ [C1 C2 C3 C4 C5]. cbn in *. split; cbn; try done.
    + destruct target; phase_lia.
    + rewrite Eo. destruct target; [phase_lia|]. by left.
    + rewrite !Eo. intros [?|[?|?]]%C4; [|tauto..]. destruct target; tauto.
    + rewrite Eo. intros [Ht|?]; [|auto]. subst target. rewrite C2; [cbn; lia|]. destruct A1 as [?|[?|?]]; phase_lia.
Qed.

Lemma step_lock s target ths :
  inv (mkSys s (AdvanceLock target :: ths)) → mutex s = false →
  inv (mkSys (s <| mutex := true |> <| subscribers := [] |>) (AdvanceRetain target (subscribers s) [] :: ths)).
Proof.
  intros Hi Hm. open_inv Hi. rewrite Hm, count_cons in A3. cbn in A3.
  assert (∀ pc, pc ∈ ths → retained_ids pc = [] ∧ unsent_ids pc = [] ∧ ∀ id p, pc ≠ SubscribePush id p) as Hno.
  { intros pc Hpc. pose proof (count_0 _ _ _ A3 Hpc) as Hc. by destruct pc. }
  assert (flat_map retained_ids ths = []) as Er.
  { clear -Hno. induction ths as [|pc ths IH]; [done|]. cbn. destruct (Hno pc ltac:(by left)) as (-> & _).
    apply IH. intros q Hq. apply Hno. by right. }
  assert (flat_map unsent_ids ths = []) as Eu.
  { clear -Hno. induction ths as [|pc ths IH]; [done|]. cbn. destruct (Hno pc ltac:(by left)) as (_ & -> & _).
    apply IH. intros q Hq. apply Hno. by right. }
  rewrite Er, app_nil_r in A6, A7.
  split; unfold fresh, listed, unsent; cbn; rewrite ?Er, ?Eu, ?app_nil_r; auto.
  - by rewrite count_cons, A3.
  - intros t. specialize (A4 t). by rewrite count_cons in *.
  - intros q [->|Hq]%elem_of_cons; [split; [apply (A5 (AdvanceLock target)); left|done]|].
    specialize (A5 q ltac:(by right)). destruct (Hno q Hq) as (_ & _ & Hp). destruct q; cbn in *; try tauto. by destruct (Hp id phase0).
  - intros id l Hl. eapply lane_frame; [by apply A8|unfold fresh, listed, unsent; cbn; rewrite ?Er, ?Eu, ?app_nil_r; try done..|].
    { by destruct target. }
    intros Hu [C1 C2 C3 C4 C5].
    assert (∀ t, owed (AdvanceRetain target (subscribers s) [] :: ths) t id ↔ owed (AdvanceLock target :: ths) t id) as Eo.
    { intros t. rewrite !owed_cons. cbn. unfold unsent in Hu. cbn in Hu. rewrite Eu, app_nil_r in Hu. tauto. }
    cbn in *. split; cbn; rewrite ?Eo; done.
Qed.

(** What a message does to a lane. *)
Lemma try_send_spec l p :
  match try_send l p with
  | Some l' => receiver l = true ∧ (length (ch_content (chan l)) < ch_capacity (chan l))%nat
      ∧ stream l' = stream l ++ [p] ∧ ch_capacity (chan l') = ch_capacity (chan l)
      ∧ sender l' = sender l ∧ receiver l' = receiver l ∧ returned l' = returned l
  | None => receiver l = false ∨ (ch_capacity (chan l) <= length (ch_content (chan l)))%nat
  end.
Proof.
  unfold try_send, stream. destruct (receiver l) eqn:Er; [|by left].
  destruct (ch_send_cases (chan l) p) as [(c & -> & Hr & Ec & Ek)|[-> Hf]]; [|by right].
  cbn. rewrite Ec. split_and!; auto. by rewrite (assoc_L (++)).
Qed.

Lemma replicate_snoc {A} n (x : A) : replicate n x ++ [x] = replicate (S n) x.
Proof. induction n as [|n IH]; [done|]. cbn. by rewrite IH. Qed.

Lemma not_finished n : Finished ∉ replicate n Requested.
Proof. by intros [? _]%elem_of_replicate. Qed.

Section Retain.
Context (s : ShutdownState) (target : ShutdownPhase) (id : nat) (todo kept : list nat) (ths : list Pc) (l : Lane).
Context (Hi : inv (mkSys s (AdvanceRetain target (id :: todo) kept :: ths))) (Hl : lanes s !! id = Some l).

(** The only announcer of the phase is the one that sends. *)
Lemma retain_owed_other t i : owed ths t i → t ≠ target.
Proof.
  intros (pc & Hpc & Ho) ->. pose proof (iv_announces _ Hi target) as Hc. cbn in Hc. rewrite count_cons in Hc. cbn in Hc.
  rewrite bool_decide_eq_true_2 in Hc by done.
  assert (0 < count (announces target) ths)%nat; [|lia]. apply count_pos. exists pc. split; [done|].
  destruct pc; cbn in *; try done; apply bool_decide_eq_true; naive_solver.
Qed.

Lemma retain_facts :
  (id ∉ fresh (mkSys s ths)) ∧ (id ∉ todo) ∧ (id ∉ kept) ∧ (id ∉ listed (mkSys s ths)) ∧ (id ∉ unsent (mkSys s ths))
  ∧ unsent_ok (mkSys s (AdvanceRetain target (id :: todo) kept :: ths)) id l
  ∧ returned l = true ∧ sender l = true ∧ ch_capacity (chan l) = 2%nat.
Proof.
  pose proof (iv_nodup _ Hi) as (_ & Hf & (_ & Hs & (Hn & Hr & _)%NoDup_app)%NoDup_app)%NoDup_app.
  unfold fresh, listed in *. cbn in *. apply NoDup_cons in Hn as [Hn _]. rewrite elem_of_app in Hn.
  assert (id ∉ flat_map fresh_ids ths) as Hnf by (intros Hx; apply (Hf id Hx); set_solver).
  assert (id ∉ subscribers s) as Hns by (intros Hx; apply (Hs id Hx); set_solver).
  assert (id ∉ flat_map retained_ids ths) as Hnr by (apply Hr; set_solver).
  assert (id ∉ listed (mkSys s ths)) as Hnl by (unfold listed; cbn; set_solver).
  destruct (iv_lanes _ Hi id l Hl) as [B1 _ _ B4 B5 _ B7]. unfold fresh, listed, unsent in B4, B5, B7. cbn in *.
  split_and!; auto.
  - by intros ?%unsent_listed.
  - apply B5. destruct target; set_solver.
  - apply B7. set_solver.
Qed.

(** The lane after its message: on the kept list, or dropped. *)
Lemma retain_lane l' (kept' := if sender l' then kept ++ [id] else kept)
    (y' := mkSys (s <| lanes := <[id := l']> (lanes s) |>) (AdvanceRetain target todo kept' :: ths)) :
  ch_capacity (chan l') = 2%nat → returned l' = true → ordered l' →
  (target = Requested → sender l' = true → unsent_ok y' id l') →
  (target = Finished ∨ sender l' = false → settled l') → inv y'.
Proof.
  intros Hc Hret Ho Hun Hset. destruct retain_facts as (F1 & F2 & F3 & F4 & F5 & F6 & F7 & F8 & F9).
  assert (Hi' := Hi). open_inv Hi'.
  assert (∀ i, i ∈ kept' ↔ i ∈ kept ∨ sender l' = true ∧ i = id) as Hk
    by (intros i; unfold kept'; destruct (sender l'); set_solver).
  assert (∀ i t, i ≠ id → owed (AdvanceRetain target todo kept' :: ths) t i ↔ owed (AdvanceRetain target (id :: todo) kept :: ths) t i) as Eo.
  { intros i t Hne. rewrite !owed_cons. cbn. rewrite elem_of_cons. tauto. }
  assert (NoDup (id :: flat_map fresh_ids ths ++ subscribers s ++ (todo ++ kept) ++ flat_map retained_ids ths)) as Hn.
  { rewrite (Permutation_middle (flat_map _ _)), (Permutation_middle (subscribers s)). exact A6. }
  split; subst y'; unfold fresh, listed, unsent; cbn; auto.
  - intros t. specialize (A4 t). rewrite count_cons in A4 |- *. exact A4.
  - intros q [->|Hq]%elem_of_cons; [apply (A5 (AdvanceRetain target (id :: todo) kept)); left|].
    eapply push_frame; [apply A5; by right|done|done|done|]. intros t Ht%elem_of_cons_ne; [by right|done].
  - unfold kept'. destruct (sender l'); [|by apply NoDup_cons in Hn as [_ ?]].
    assert (todo ++ kept ++ [id] ≡ₚ id :: todo ++ kept) as -> by (rewrite (assoc_L (++)); apply Permutation_app_comm).
    exact A6.
  - rewrite length_insert. intros i. rewrite !elem_of_app, Hk. intros Hx. apply A7.
    rewrite !elem_of_app, elem_of_cons, !elem_of_app. clear -Hx. destruct Hx as [?|[?|[[?|[?|[_ ?]]]|?]]]; tauto.
  - intros i k Hik. destruct (decide (i = id)) as [->|Hne].
    + apply list_lookup_insert_Some in Hik as [(_ & <- & _)|[? _]]; [|done].
      unfold fresh, listed, unsent in F1, F4, F5. cbn in F1, F4, F5. rewrite elem_of_app in F4, F5.
      split; unfold fresh, listed, unsent; cbn; auto.
      * done.
      * rewrite !elem_of_app. intros [?|[Hx|?]]; [tauto| |tauto]. apply Hun.
        -- destruct target; [done|]. by destruct F2.
        -- destruct target; [|by destruct F2]. rewrite elem_of_app, Hk in Hx. tauto.
      * intros _. rewrite !elem_of_app. intros Hx. apply Hset. destruct target; [right|by left].
        destruct (sender l') eqn:Es; [|done]. destruct Hx. right; left. rewrite elem_of_app, Hk. tauto.
      * rewrite !elem_of_app, Hk. split; [tauto|]. intros [?|[?|[[?|[?|[? _]]]|?]]]; tauto.
    + rewrite list_lookup_insert_ne in Hik by done.
      eapply lane_frame; [by apply A8|unfold fresh, listed, unsent; cbn..|].
      * done.
      * rewrite !elem_of_app, elem_of_cons, !elem_of_app, Hk. tauto.
      * destruct target; cbn; rewrite !elem_of_app, elem_of_cons, ?elem_of_app, ?Hk; tauto.
      * intros _ Hu. eapply unsent_frame; [done|done|]. intros t. by apply Eo.
Qed.
End Retain.

Lemma on_lane_insert s id l f : lanes s !! id = Some l → on_lane s id f = s <| lanes := <[id := f l]> (lanes s) |>.
Proof.
  intros Hl. unfold on_lane. enough (alter f id (lanes s) = <[id := f l]> (lanes s)) as -> by done.
  apply list_eq. intros i. destruct (decide (i = id)) as [->|Hne].
  - rewrite list_lookup_alter_eq, Hl, list_lookup_insert_eq; [done|]. by eapply lookup_lt_Some.
  - by rewrite list_lookup_alter_ne, list_lookup_insert_ne by done.
Qed.

Lemma replicate_full n (k : list ShutdownPhase) :
  (n <= 2)%nat → (2 <= length k)%nat → ∀ m, m ++ k = replicate n Requested → m ++ k = [Requested; Requested].
Proof.
  intros Hn Hk m E. assert (length (m ++ k) = n) as El by (by rewrite E, length_replicate). rewrite length_app in El.
  rewrite E. by replace n with 2%nat by lia.
Qed.

Lemma step_retain s target id todo kept ths s' pc' :
  inv (mkSys s (AdvanceRetain target (id :: todo) kept :: ths)) →
  access s (AdvanceRetain target (id :: todo) kept) = Some (s', pc') → inv (mkSys s' (pc' :: ths)).
Proof.
  intros Hi. cbn. assert (is_Some (lanes s !! id)) as [l Hl].
  { apply lookup_lt_is_Some. apply (iv_bound _ Hi). unfold fresh, listed. cbn. set_solver. }
  rewrite Hl. cbn.
  destruct (retain_facts s target id todo kept ths l Hi Hl) as (F1 & F2 & F3 & F4 & F5 & F6 & F7 & F8 & F9).
  destruct F6 as [(n & Hn & Est) C2 C3 C4 C5]. cbn in *.
  assert (target = Requested → (length (stream l) <= 1)%nat) as Hroom.
  { intros ->. apply C5. exists (AdvanceRetain Requested (id :: todo) kept). split; [left|]. split; [done|left]. }
  pose proof (iv_pcs _ Hi _ ltac:(left)) as [Hph _]. cbn in Hph.
  pose proof (try_send_spec l target) as Hs. destruct (try_send l target) as [l'|].
  - destruct Hs as (Hr & Hroom' & Es & Ec & E1 & E2 & E3). intros [= <- <-].
    pose proof (retain_lane s target id todo kept ths l Hi Hl l') as Hlane. rewrite E1, F8 in Hlane. apply Hlane; clear Hlane.
    + congruence.
    + congruence.
    + rewrite Est in *. rewrite length_replicate in Hroom. unfold ordered. rewrite Es. destruct target.
      * exists (S n). split; [by apply le_n_S, Hroom|]. left. apply replicate_snoc.
      * exists n. split; [done|]. by right.
    + intros -> _. rewrite Est in *. rewrite length_replicate in Hroom. split; cbn; rewrite ?Es.
      * exists (S n). split; [by apply le_n_S, Hroom|]. apply replicate_snoc.
      * intros. phase_lia.
      * intros [[? _]|Ho]%C3%owed_cons; [done|]. apply owed_cons. by right.
      * by intros [_ ?]%app_nil.
      * intros [[_ ?]|Ho]%owed_cons; [done|]. by apply (retain_owed_other s Requested id todo kept ths Hi) in Ho.
    + intros [->|?]; [|done]. right; left. rewrite Es. set_solver.
  - intros [= <- <-]. rewrite (on_lane_insert _ _ l) by done.
    apply (retain_lane s target id todo kept ths l Hi Hl (drop_sender l)); cbn; try done.
    + exists n. split; [done|]. by left.
    + intros _. destruct Hs as [Hr|Hf]; [by left|]. right; right. rewrite F9 in Hf. unfold stream in *. cbn.
      by eapply replicate_full.
Qed.

(** The list after the last message. *)
Lemma drop_all_spec ids s :
  (∀ id, lanes (foldl (λ s id, on_lane s id drop_sender) s ids) !! id = (λ l, if decide (id ∈ ids) then drop_sender l else l) <$> lanes s !! id)
  ∧ (foldl (λ s id, on_lane s id drop_sender) s ids) <| lanes := lanes s |> = s.
Proof.
  revert s. induction ids as [|i ids IH]; intros s.
  - split; [|by destruct s]. intros id. cbn. destruct (lanes s !! id); [|done]. cbn. by rewrite decide_False by apply not_elem_of_nil.
  - cbn. destruct (IH (on_lane s i drop_sender)) as [I1 I2]. split.
    + intros id. rewrite I1. cbn. destruct (decide (i = id)) as [->|Hne].
      * rewrite list_lookup_alter_eq. destruct (lanes s !! id); [|done]. cbn. rewrite (decide_True (P := id ∈ id :: ids)) by left. by case_decide.
      * rewrite list_lookup_alter_ne by done. destruct (lanes s !! id); [|done]. cbn. f_equal. apply decide_ext. set_solver.
    + destruct (foldl _ _ ids). unfold on_lane in *. destruct s. cbn in *. by simplify_eq.
Qed.

(** The thread that holds the mutex is alone in its section. *)
Lemma critical_alone s pc ths :
  inv (mkSys s (pc :: ths)) → critical pc = true → mutex s = true ∧ ∀ q, q ∈ ths → critical q = false.
Proof.
  intros Hi Hc. pose proof (iv_mutex _ Hi) as Hm. cbn in Hm. rewrite count_cons, Hc in Hm.
  destruct (mutex s); [|lia]. split; [done|]. intros q Hq. eapply count_0; [|done]. lia.
Qed.

Lemma not_critical_ids ths : (∀ q, q ∈ ths → critical q = false) → flat_map retained_ids ths = [] ∧ flat_map unsent_ids ths = [].
Proof.
  induction ths as [|q ths IH]; intros Hq; [done|]. cbn. pose proof (Hq q ltac:(left)) as Hc.
  destruct IH as [-> ->]; [intros; apply Hq; by right|]. by destruct q.
Qed.

(** What no one else in a critical section means for the other threads. *)
Lemma push_alone y y' pc :
  critical pc = false → push_ok y pc → phase (state y') = phase (state y) →
  (requested (state y) = true → requested (state y') = true) → push_ok y' pc.
Proof. intros Hc Hq Ep Er. destruct pc; cbn in *; rewrite ?Ep; auto; done. Qed.

Lemma step_release_requested s kept ths :
  inv (mkSys s (AdvanceRetain Requested [] kept :: ths)) →
  inv (mkSys (s <| subscribers := kept |> <| mutex := false |>) (Done :: ths)).
Proof.
  intros Hi. destruct (critical_alone _ _ _ Hi eq_refl) as [Hm Hq]. destruct (not_critical_ids _ Hq) as [Er Eu].
  open_inv Hi. destruct (A5 _ ltac:(left)) as [Hph Hsub]. cbn in Hph, Hsub. rewrite Hsub, Er, app_nil_r in A6, A7. cbn in A6, A7.
  rewrite Hm, count_cons in A3. cbn in A3.
  split; unfold fresh, listed, unsent; cbn; rewrite ?Er, ?app_nil_r; auto.
  - intros t. specialize (A4 t). rewrite count_cons in *. cbn in *. lia.
  - intros q [->|Hin]%elem_of_cons; [done|]. eapply push_alone; [by apply Hq|apply A5; by right|done|done].
  - intros id l Hl. eapply lane_frame; [by apply A8|unfold fresh, listed, unsent; cbn; rewrite ?Hsub, ?Er, ?Eu, ?app_nil_r; done..|].
    intros _ Hu. eapply unsent_frame; [done|done|]. intros t. cbn. rewrite !owed_cons. cbn. split; [tauto|].
    intros [[_ ?%not_elem_of_nil]|?]; [done|by right].
Qed.

Lemma step_release_finished s kept ths (s' := foldl (λ s id, on_lane s id drop_sender) s kept) :
  inv (mkSys s (AdvanceRetain Finished [] kept :: ths)) → inv (mkSys (s' <| mutex := false |>) (Done :: ths)).
Proof.
  intros Hi. destruct (critical_alone _ _ _ Hi eq_refl) as [Hm Hq]. destruct (not_critical_ids _ Hq) as [Er Eu].
  destruct (drop_all_spec kept s) as [Hlanes Hrest]. fold s' in Hlanes, Hrest.
  assert (phase s' = phase s ∧ requested s' = requested s ∧ subscribers s' = subscribers s) as (Ep & Eq & Es) by (by rewrite <- Hrest).
  open_inv Hi. destruct (A5 _ ltac:(left)) as [Hph Hsub]. cbn in Hph, Hsub. rewrite Hsub, Er, app_nil_r in A6, A7. cbn in A6, A7.
  rewrite Hm, count_cons in A3. cbn in A3.
  split; unfold fresh, listed, unsent; cbn; rewrite ?Ep, ?Eq, ?Es, ?Hsub, ?Er, ?Eu; cbn; auto.
  - intros t. specialize (A4 t). rewrite count_cons in *. cbn in *. lia.
  - intros q [->|Hin]%elem_of_cons; [done|]. eapply push_alone; [by apply Hq|apply A5; by right|done|cbn; by rewrite Eq].
  - rewrite app_nil_r. by apply NoDup_app in A6 as [? _].
  - rewrite app_nil_r. intros id Hid. assert (id < length (lanes s))%nat as Hb by (apply A7; set_solver).
    apply lookup_lt_is_Some. rewrite Hlanes. apply lookup_lt_is_Some in Hb as [l ->]. done.
  - intros id l' Hl'. rewrite Hlanes in Hl'. apply fmap_Some in Hl' as (l & Hl & ->).
    destruct (A8 id l Hl) as [B1 B2 B3 B4 B5 B6 B7]. unfold fresh, listed, unsent in *. cbn in *. rewrite Hsub, ?Er, ?Eu in *. cbn in *.
    apply NoDup_app in A6 as (_ & Hdis & _). rewrite app_nil_r in B7.
    split; unfold fresh, listed, unsent; cbn; rewrite ?Es, ?Hsub, ?Er, ?Eu, ?app_nil_r; cbn; case_decide as Hk; cbn; auto.
    + intros ?%not_elem_of_nil. done.
    + intros ?%not_elem_of_nil. done.
    + split; [done|]. intros Hf. by apply Hdis in Hf.
    + rewrite B7, elem_of_app. tauto.
Qed.

(** A subscription enters the list, or keeps its sender to itself. *)
Lemma push_lane s id p ths l' (more := if sender l' then [id] else [])
    (y' := mkSys (s <| lanes := <[id := l']> (lanes s) |> <| subscribers := subscribers s ++ more |> <| mutex := false |>) (Done :: ths)) :
  inv (mkSys s (SubscribePush id p :: ths)) →
  ch_capacity (chan l') = 2%nat → ordered l' → returned l' = true →
  (sender l' = true → unsent_ok y' id l') → (sender l' = false → settled l') → inv y'.
Proof.
  intros Hi Hc Ho Hret Hun Hset. destruct (critical_alone _ _ _ Hi eq_refl) as [Hm Hq]. destruct (not_critical_ids _ Hq) as [Er Eu].
  open_inv Hi. rewrite Er, app_nil_r in A6, A7. apply NoDup_cons in A6 as [Hni Hnd]. rewrite elem_of_app in Hni.
  rewrite Hm, count_cons in A3. cbn in A3. apply Decidable.not_or in Hni as [Hnf Hns].
  assert (∀ i, i ∈ more ↔ sender l' = true ∧ i = id) as Hmore by (intros i; unfold more; destruct (sender l'); set_solver).
  split; subst y'; unfold fresh, listed, unsent; cbn; rewrite ?Er, ?app_nil_r; auto.
  - intros q [->|Hin]%elem_of_cons; [done|]. eapply push_alone; [by apply Hq|apply A5; by right|done|done].
  - rewrite (assoc_L (++)). unfold more. destruct (sender l'); [|by rewrite app_nil_r].
    rewrite <- Permutation_cons_append. constructor; [|done]. rewrite elem_of_app. tauto.
  - rewrite length_insert. intros i. rewrite !elem_of_app, Hmore. intros Hx. apply A7. rewrite elem_of_cons, elem_of_app. tauto.
  - intros i k Hik. destruct (decide (i = id)) as [->|Hne].
    + apply list_lookup_insert_Some in Hik as [(_ & <- & _)|[? _]]; [|done].
      split; unfold fresh, listed, unsent; cbn; rewrite ?Er, ?Eu, ?app_nil_r; auto.
      * done.
      * rewrite elem_of_app, Hmore. intros [?|[? _]]; [done|]. auto.
      * intros _. rewrite elem_of_app, Hmore. intros Hx. apply Hset. destruct (sender l'); [|done]. tauto.
      * rewrite !elem_of_app, Hmore. tauto.
    + rewrite list_lookup_insert_ne in Hik by done.
      eapply lane_frame; [by apply A8|unfold fresh, listed, unsent; cbn; rewrite ?Er, ?Eu, ?app_nil_r, ?elem_of_cons, ?elem_of_app, ?Hmore; tauto..|].
      intros _ Hu. eapply unsent_frame; [done|done|]. intros t. cbn. by rewrite !owed_cons.
Qed.

Lemma send_empty l p :
  receiver l = true → stream l = [] → ch_capacity (chan l) = 2%nat →
  ∃ l', try_send l p = Some l' ∧ stream l' = [p] ∧ ch_capacity (chan l') = 2%nat ∧ sender l' = sender l.
Proof.
  intros Hr Hs Hc. pose proof (try_send_spec l p) as H'. assert (ch_content (chan l) = []) as E by (by apply app_nil in Hs as [_ ?]).
  destruct (try_send l p) as [l'|]; [|rewrite E, Hr, Hc in H'; cbn in H'; destruct H'; [done|lia]].
  rewrite Hs, Hc in H'. exists l'. naive_solver.
Qed.

Lemma step_push s id p ths s' pc' :
  inv (mkSys s (SubscribePush id p :: ths)) → access s (SubscribePush id p) = Some (s', pc') → inv (mkSys s' (pc' :: ths)).
Proof.
  intros Hi. assert (Hi' := Hi). destruct Hi' as [A1 A2 A3 A4 A5 A6 A7 A8].
  destruct (A5 _ ltac:(left)) as (Hp & P1 & P2). cbn in Hp, P1, P2.
  assert (is_Some (lanes s !! id)) as [l Hl]. { apply lookup_lt_is_Some. apply A7. unfold fresh. cbn. set_solver. }
  destruct (A8 id l Hl) as [B1 B2 B3 _ _ _ B7]. destruct B3 as (_ & Hr & Hst); [unfold fresh; cbn; set_solver|].
  assert (sender l = true) as Hsd by (apply B7; unfold fresh; cbn; set_solver). cbn in *.
  assert (p = 0 ∨ p = 1 ∨ p = 2) as Hp' by lia. destruct (send_empty l Requested Hr Hst B1) as (lr & Er & Sr & Cr & Dr).
  destruct (send_empty l Finished Hr Hst B1) as (lf & Ef & Sf & Cf & Df).
  intros [= <- <-]. rewrite (on_lane_insert _ _ l) by done.
  destruct Hp' as [-> | [-> | ->]]; cbn.
  - pose proof (push_lane s id 0 ths (l <| returned := true |>) Hi) as Hl'. cbn in Hl'. rewrite Hsd in Hl'.
    apply Hl'; try done. intros _. split; cbn; try done.
    + by exists 0%nat; split; [lia|].
    + intros ?. destruct (P1 ltac:(done)) as [?|?%elem_of_cons_ne]; [lia| |done]. apply owed_cons; right. by exists (AdvanceLock Finished).
    + intros _. destruct A1 as [?|A1]; [by left|]. right.
      destruct (P2 ltac:(lia)) as [?|[?%elem_of_cons_ne|?%elem_of_cons_ne]]; [lia|left|done|right|done]; apply owed_cons; right;
        [by exists (AdvanceLock Requested)|by exists (AdvanceLock Finished)].
    + intros _. change (length (stream l) <= 1)%nat. rewrite Hst. cbn. lia.
  - unfold send_ignoring, from_u8. cbn. rewrite Er. cbn.
    pose proof (push_lane s id 1 ths (lr <| returned := true |>) Hi) as Hl'. cbn in Hl'. rewrite Dr, Hsd in Hl'.
    assert (stream (lr <| returned := true |>) = [Requested]) as Est by done.
    apply Hl'; try done.
    + exists 1%nat. split; [lia|]. by left.
    + intros _. split; cbn; rewrite ?Est; cbn; try done; try lia.
      * by exists 1%nat; split; [lia|].
      * intros ?. destruct (P1 ltac:(done)) as [?|?%elem_of_cons_ne]; [lia| |done]. apply owed_cons; right. by exists (AdvanceLock Finished).
  - unfold send_ignoring, from_u8. cbn. rewrite Ef. cbn. rewrite (on_lane_insert _ _ (lf <| returned := true |>)).
    + cbn. rewrite list_insert_insert_eq.
      pose proof (push_lane s id 2 ths (drop_sender (lf <| returned := true |>)) Hi) as Hl'. cbn in Hl'. rewrite app_nil_r in Hl'.
      assert (stream (drop_sender (lf <| returned := true |>)) = [Finished]) as Est by done.
      apply Hl'; try done.
      * exists 0%nat. split; [lia|]. by right.
      * intros _. right; left. rewrite Est. left.
    + cbn. rewrite list_lookup_insert_eq; [done|]. by eapply lookup_lt_Some.
Qed.

Lemma shutdown_step_inv s pc ths s' pc' :
  inv (mkSys s (pc :: ths)) → access s pc = Some (s', pc') → inv (mkSys s' (pc' :: ths)).
Proof.
  intros Hi E. assert (Hi' := Hi). open_inv Hi'. pose proof (A5 pc ltac:(left)) as Hpc. rewrite count_cons in A3.
  destruct pc as [|id|id|id p|t|t|t|t [|id todo] kept|]; cbn in E, A3; simplify_eq.
  - by apply step_channel.
  - destruct (mutex s) eqn:Em; simplify_eq. eapply step_quiet; cbn; eauto; try done. by rewrite count_cons, A3.
  - eapply step_quiet; cbn; eauto; try done. split; [lia|]. split; intros ?; by left.
  - by eapply step_push.
  - eapply step_quiet; cbn; eauto; try done.
  - by apply step_max.
  - destruct (mutex s) eqn:Em; simplify_eq. by apply step_lock.
  - case_decide as Ht.
    + subst t. by apply step_release_finished.
    + destruct t; [|done]. by apply step_release_requested.
  - by eapply step_retain.
Qed.

(** A receiver's own steps change neither what it was sent nor who holds the sender. *)
Lemma lane_inv s ths id l l' :
  inv (mkSys s ths) → lanes s !! id = Some l → returned l = true →
  stream l' = stream l → ch_capacity (chan l') = ch_capacity (chan l) → sender l' = sender l → returned l' = true →
  (receiver l = false → receiver l' = false) → inv (mkSys (s <| lanes := <[id := l']> (lanes s) |>) ths).
Proof.
  intros [A1 A2 A3 A4 A5 A6 A7 A8] Hl Hr Es Ec Ed Er Ev. split; cbn; auto.
  - intros i Hi. rewrite length_insert. by apply A7.
  - intros i k Hik. apply list_lookup_insert_Some in Hik as [(<- & <- & _)|[Hne Hik]]; [|].
    + destruct (A8 id l Hl) as [B1 B2 B3 B4 B5 B6 B7]. assert (id ∉ fresh (mkSys s ths)) as Hnf by (intros [? _]%B3; congruence).
      split; try congruence; try done.
      * unfold ordered in *. by rewrite Es.
      * intros Hu. destruct (B5 Hu) as [C1 C2 C3 C4 C5]. cbn in *. split; cbn; rewrite ?Es; done.
      * intros Hf Hu. destruct (B6 Hf Hu) as [?|Hs]; [left; auto|right]. by rewrite Es.
      * by rewrite Ed.
    + eapply lane_frame; [by apply A8|done..|]. intros _ Hu. by eapply unsent_frame.
Qed.

Lemma shutdown_reachable_inv y : reachable y → inv y.
Proof.
  induction 1 as [|[s ths] e y' _ Hi E].
  - split; cbn; try done.
    + by left.
    + intros t. apply Nat.le_0_l.
    + by intros pc ?%not_elem_of_nil.
    + constructor.
    + by intros id ?%not_elem_of_nil.
  - destruct e as [c|t|id|id]; cbn in E.
    + injection E as <-. apply (inv_perm _ (start c :: ths)); [by rewrite Permutation_cons_append|]. open_inv Hi.
      split; unfold fresh, listed, unsent; cbn; auto.
      * rewrite count_cons. by destruct c.
      * intros t. rewrite count_cons. by destruct c; cbn.
      * intros q [->|Hq]%elem_of_cons; [by destruct c|]. eapply push_frame; [by apply A5|done|done|done|]. intros t Ht. by right.
      * by destruct c.
      * by destruct c.
      * intros id l Hl. eapply lane_frame; [by apply A8|unfold fresh, listed, unsent; cbn; by destruct c..|].
        intros _ Hu. eapply unsent_frame; [done|done|]. intros t. cbn. rewrite owed_cons. destruct c; cbn; tauto.
    + destruct (ths !! t) as [pc|] eqn:Et; [|done]. destruct (access s pc) as [[s' pc']|] eqn:Ea; [|done]. injection E as <-.
      pose proof (lookup_lt_Some _ _ _ Et) as Hlt.
      apply (inv_perm _ (pc' :: delete t ths)).
      { rewrite insert_take_drop, delete_take_drop by done. apply Permutation_middle. }
      eapply shutdown_step_inv; [|done]. eapply inv_perm; [|done]. by apply delete_Permutation.
    + unfold with_lane in E. cbn in E. destruct (lanes s !! id) as [l|] eqn:El; [|done].
      destruct (returned l && receiver l) eqn:Er; [|done]. apply andb_true_iff in Er as [Er Ev].
      unfold lane_recv in E. destruct (ch_recv_cases (chan l)) as [(p & c & Ec & E1 & E2)|[Ec _]]; rewrite Ec in E; [|done].
      injection E as <-. eapply lane_inv; cbn; eauto. unfold stream. cbn. by rewrite E1, <- (assoc_L (++)).
    + unfold with_lane in E. cbn in E. destruct (lanes s !! id) as [l|] eqn:El; [|done].
      destruct (returned l && receiver l) eqn:Er; [|done]. apply andb_true_iff in Er as [Er Ev]. injection E as <-.
      by eapply lane_inv.
Qed.

(** No [finish] is between its change of the phase and its return. *)
Definition announced (y : Sys) (t : ShutdownPhase) : Prop := ∀ pc, pc ∈ threads y → announces t pc = false.

Lemma announced_not_owed y t id : announced y t → ¬ owed (threads y) t id.
Proof.
  intros Ha (pc & Hpc & Ho). specialize (Ha pc Hpc). destruct pc; cbn in *; try done;
    apply bool_decide_eq_false in Ha; destruct Ha; naive_solver.
Qed.

(** ** Theorems *)

(** a subscriber sees the phases in order.  In every interleaving of subscriptions,
    requests, finishes and receives, what a subscriber was sent is [Requested], at most
    twice, then at most once [Finished]; and a token that is finished is requested. *)
Theorem phases_in_order y id l :
  reachable y → lanes (state y) !! id = Some l →
  (∃ n, (n <= 2)%nat ∧ (stream l = replicate n Requested ∨ stream l = replicate n Requested ++ [Finished]))
  ∧ (is_finished (state y) = true → is_requested (state y) = true).
Proof.
  intros Hr Hl. apply shutdown_reachable_inv in Hr. split; [by apply (iv_lanes _ Hr id l Hl)|].
  unfold is_finished, is_requested, FINISHED. intros ?%Z.leb_le. apply (iv_requested _ Hr). lia.
Qed.

(** C31: no worker is stranded.  Once the token is finished and the [finish] that made it so
    has returned, a subscriber that still listens never waits: it meets a message or the
    end of its channel; and it was sent [Finished], except when two [Requested] filled its
    channel. *)
Theorem finish_strands_nobody y id l :
  reachable y → is_finished (state y) = true → announced y Finished →
  lanes (state y) !! id = Some l → returned l = true →
  recv_outcome l ≠ Waiting ∧ (receiver l = true → Finished ∈ stream l ∨ stream l = [Requested; Requested]).
Proof.
  intros Hr Hf Ha Hl Hret. apply shutdown_reachable_inv in Hr. destruct (iv_lanes _ Hr id l Hl) as [_ _ B3 _ B5 B6 B7].
  assert (phase (state y) = 2) as Hph.
  { unfold is_finished, FINISHED in Hf. apply Z.leb_le in Hf. destruct (iv_phase _ Hr); lia. }
  assert (id ∉ fresh y) as Hnf by (intros [? _]%B3; congruence).
  assert (id ∉ unsent y) as Hnu by (intros Hu; eapply announced_not_owed; [exact Ha|]; by apply (uo_finished _ _ _ (B5 Hu))).
  assert (id ∉ listed y) as Hnl.
  { unfold unsent in Hnu. unfold listed. rewrite elem_of_app in *. intros [?|Hx]; [tauto|]. apply Hnu. right.
    rewrite list_elem_of_In, in_flat_map in *. destruct Hx as (pc & Hpc & Hx). exists pc. split; [done|].
    rewrite <- list_elem_of_In in Hpc. specialize (Ha pc Hpc). destruct pc as [| | | | | | |[] ? ?|]; done. }
  split.
  - unfold recv_outcome. destruct (ch_recv (chan l)) as [[]|]; [done|]. destruct (sender l) eqn:Es; [|done].
    destruct B7 as [B7 _]. specialize (B7 eq_refl). rewrite elem_of_app in B7. tauto.
  - intros Hv. destruct (B6 Hnf Hnu) as [?|?]; [congruence|done].
Qed.

(** a late subscriber is told.  When the token is not running and no call is between
    its change of the phase and its return, every subscriber that still listens was sent
    a phase, whenever it subscribed. *)
Theorem late_subscriber_told y id l :
  reachable y → phase (state y) ≠ RUNNING → (∀ t, announced y t) →
  lanes (state y) !! id = Some l → returned l = true → receiver l = true → stream l ≠ [].
Proof.
  intros Hr Hph Ha Hl Hret Hv Hs. apply shutdown_reachable_inv in Hr. destruct (iv_lanes _ Hr id l Hl) as [_ _ B3 _ B5 B6 _].
  assert (id ∉ fresh y) as Hnf by (intros [? _]%B3; congruence).
  destruct (decide (id ∈ unsent y)) as [Hu|Hu].
  - destruct (uo_empty _ _ _ (B5 Hu) Hs) as [?|[Ho|Ho]]; [done|..]; by eapply announced_not_owed in Ho.
  - destruct (B6 Hnf Hu) as [?|[Hx|?]]; [congruence|rewrite Hs in Hx; by apply not_elem_of_nil in Hx|congruence].
Qed.
End Token.

(** ** Runs *)

Fixpoint run (y : Sys (Ch := Buffer)) (es : list Event) : option Sys :=
  match es with [] => Some y | e :: es => match event y e with Some y => run y es | None => None end end.

Lemma shutdown_run_reachable y es y' : reachable y → run y es = Some y' → reachable y'.
Proof.
  revert y. induction es as [|e es IH]; intros y Hy E; cbn in E; [by simplify_eq|].
  destruct (event y e) as [y1|] eqn:Ee; [|done]. eapply IH; [|done]. by econstructor.
Qed.

Definition begun : Sys (Ch := Buffer) := mkSys new [].

(** A subscription, then a request and a finish, one after the other. *)
Definition orderly : list Event :=
  [Begin Subscribe; Run 0; Run 0; Run 0; Run 0; Begin Request; Run 1; Run 1; Run 1; Run 1; Run 1;
   Begin Finish; Run 2; Run 2; Run 2; Run 2; Run 2].

(** The subscription falls between the request's change of the phase and its messages. *)
Definition overlapping : list Event :=
  [Begin Request; Run 0; Run 0; Begin Subscribe; Run 1; Run 1; Run 1; Run 1; Run 0; Run 0; Run 0;
   Begin Finish; Run 2; Run 2; Run 2; Run 2; Run 2].

(** A [finish] that overtakes the [request]. *)
Definition overtaking : list Event :=
  [Begin Subscribe; Run 0; Run 0; Run 0; Run 0; Begin Request; Run 1; Run 1;
   Begin Finish; Run 2; Run 2; Run 2; Run 2; Run 2; Run 1; Run 1].

Definition streams (y : option (Sys (Ch := Buffer))) : option (list (list ShutdownPhase * bool)) :=
  (λ y, (λ l, (stream l, sender l)) <$> lanes (state y)) <$> y.

(** Every subscriber gets both phases when nothing overlaps; otherwise a subscriber can
    lose [Finished], its channel being full of two [Requested], or never see
    [Requested]. *)
Lemma finished_lost :
  streams (run begun orderly) = Some [([Requested; Finished], false)]
  ∧ streams (run begun overlapping) = Some [([Requested; Requested], false)]
  ∧ streams (run begun overtaking) = Some [([Finished], false)].
Proof. vm_compute. done. Qed.


Definition end_of (es : list Event) : Sys (Ch := Buffer) := default begun (run begun es).
Definition lane_of (es : list Event) : Lane (Ch := Buffer) := default (mkLane (mkBuffer [] 2) true true false []) (lanes (state (end_of es)) !! 0%nat).

Lemma shutdown_end_reachable es : is_Some (run begun es) → reachable (end_of es).
Proof. intros [y E]. unfold end_of. rewrite E. eapply shutdown_run_reachable; [|done]. constructor. Qed.

Lemma phases_in_order_witness :
  stream (lane_of orderly) = [Requested; Finished]
  ∧ ∃ n, (n <= 2)%nat ∧ (stream (lane_of orderly) = replicate n Requested ∨ stream (lane_of orderly) = replicate n Requested ++ [Finished]).
Proof.
  split; [by vm_compute|].
  apply (phases_in_order (end_of orderly) 0); [apply shutdown_end_reachable; vm_compute; by eexists|by vm_compute].
Defined.

Lemma finish_strands_nobody_witness :
  recv_outcome (lane_of overlapping) ≠ Waiting
  ∧ (Finished ∈ stream (lane_of overlapping) ∨ stream (lane_of overlapping) = [Requested; Requested]).
Proof.
  destruct (finish_strands_nobody (end_of overlapping) 0 (lane_of overlapping)) as [Hw Hs];
    [apply shutdown_end_reachable; vm_compute; by eexists|by vm_compute|..|by vm_compute|by vm_compute|].
  - intros pc Hpc. vm_compute in Hpc. by repeat (apply elem_of_cons in Hpc as [->|Hpc]; [done|]); apply not_elem_of_nil in Hpc.
  - split; [exact Hw|]. apply Hs. by vm_compute.
Defined.

Lemma late_subscriber_told_witness : stream (lane_of overtaking) ≠ [].
Proof.
  apply (late_subscriber_told (end_of overtaking) 0);
    [apply shutdown_end_reachable; vm_compute; by eexists|by vm_compute|..|by vm_compute|by vm_compute|by vm_compute].
  intros t pc Hpc. vm_compute in Hpc. by repeat (apply elem_of_cons in Hpc as [->|Hpc]; [done|]); apply not_elem_of_nil in Hpc.
Defined.
