(* ===== verification/ProtocolLane.v ===== *)
(** * Protocol evidence of the recorder

    [BookProtocolRecord] (hexagent-exchange/src/recorder/protocol.rs), the lane that brings
    raw frames and protocol records of the market-data connections to the recorder
    (recorder/protocol_lane.rs), and the branch of [record_book_protocol]
    (recorder/writer.rs) the lane uses.  A session of a connection numbers its records and
    frames, copies a frame into one of 64 pooled buffers, and enqueues; the consumer drains
    the queue into two files and at the end writes a manifest that says whether the archive
    is complete.

    Each method is one step; the methods of any number of sessions and of the consumer
    interleave, and the consumer's wait is split into its check and its sleep.  The queue,
    the pool and the wake-up are bounded channels of the interface of [Channel].  The
    outcome of a write or of a flush is an input.  JSON text is not modelled: a line is its
    fields.  [attempts] is not in the code: it lists what the sessions had to say, with
    [None] for what could not even be said.

    Proved for every interleaving: the buffers are never lost and a reused buffer is empty;
    the consumer never sleeps on queued evidence; and the manifest is right: once every
    session is closed and the queue is drained it says complete exactly when the archive
    holds everything the sessions had to say, in order, so that the records and the frames
    of a connection are numbered without a gap. *)

From S2P Require Import Prelude Channel.

(** ** Records *)

Inductive BookProtocolKind := Snapshot | Delta | SequenceHeartbeat | Gap | Reconnect.
Inductive BookProtocolOwnerScope := StrategyInstance | PublicFeed.

#[export] Instance BookProtocolKind_eq_dec : EqDecision BookProtocolKind.
Proof. solve_decision. Defined.
#[export] Instance BookProtocolOwnerScope_eq_dec : EqDecision BookProtocolOwnerScope.
Proof. solve_decision. Defined.

Record BookProtocolRecord := mkRecord {
  owner_scope : BookProtocolOwnerScope;
  iid : string;
  token : string;
  event_epoch : Z;
  connection_id : Z;
  session_id : Z;
  kind : BookProtocolKind;
  wire_message_type : string;
  venue_sequence : option Z;
  venue_previous_sequence : option Z;
  recorder_sequence : Z;
  exchange_timestamp_ns : option Z;
  local_timestamp_ns : Z;
  venue_book_hash : option string;
  event_id : option string;
  raw_exchange_timestamp : option Z;
  frame_sequence : Z }.

Inductive RecordError := InvalidRecord | UnsequencedHeartbeat | PublicFeedEvidence | UnrecognizedFeed | WriterNotInitialized | WriteFailed.

Definition bounded_text (s : string) : bool := negb (String.eqb s "") && (String.length s <=? 128)%nat.

Definition validate (self : BookProtocolRecord) : option RecordError :=
  if negb (bounded_text (iid self)) || negb (bounded_text (token self)) || negb (bounded_text (wire_message_type self))
     || (connection_id self =? 0) || (session_id self =? 0) || (recorder_sequence self =? 0) || (local_timestamp_ns self =? 0)
     || match venue_book_hash self with Some hash => (256 <? String.length hash)%nat | None => false end
     || bool_decide (exchange_timestamp_ns self = Some 0)
  then Some InvalidRecord
  else if bool_decide (kind self = SequenceHeartbeat) && bool_decide (venue_sequence self = None) then Some UnsequencedHeartbeat
  else None.

Definition validate_strategy_owner (self : BookProtocolRecord) (owner : string) : option RecordError :=
  match validate self with
  | Some e => Some e
  | None =>
      if negb (bool_decide (owner_scope self = StrategyInstance)) || negb (String.eqb (iid self) owner)
      then Some PublicFeedEvidence else None
  end.

(** ** Messages *)

Definition BOOK_PROTOCOL_CAPACITY : nat := Z.to_nat 8192.
Definition RAW_POOL_CAPACITY : nat := 64.
Definition RAW_FRAME_CAPACITY : Z := 128 * 1024.
Definition TOKEN_CAPACITY : nat := 128.

Record BookProtocolRoute := mkRoute { rt_token : string; rt_event_id : string; rt_epoch : Z }.

#[export] Instance BookProtocolRoute_eq_dec : EqDecision BookProtocolRoute.
Proof. solve_decision. Defined.

(** [ArrayString::<n>::from] *)
Definition array_string (n : nat) (s : string) : option string := if (String.length s <=? n)%nat then Some s else None.

Definition route_new (tok event : string) (epoch : option Z) : option BookProtocolRoute :=
  if String.eqb tok "" then None
  else match array_string 128 tok, array_string 128 event with
       | Some tok, Some event => Some (mkRoute tok event (default 0 epoch))
       | _, _ => None
       end.

Record CompactProtocol := mkCompact {
  cp_token : string;
  cp_event_id : string;
  cp_epoch : Z;
  cp_connection : Z;
  cp_kind : BookProtocolKind;
  cp_wire : string;
  cp_sequence : option Z;
  cp_previous : option Z;
  cp_recorder_sequence : Z;
  cp_source_ns : option Z;
  cp_raw_timestamp : option Z;
  cp_receive_ns : Z;
  cp_hash : option string;
  cp_frame_sequence : Z }.

Definition feed_id : string := "feed:polymarket".

Definition into_record (self : CompactProtocol) : BookProtocolRecord :=
  mkRecord PublicFeed feed_id (cp_token self) (cp_epoch self) (cp_connection self) (cp_connection self) (cp_kind self)
    (cp_wire self) (cp_sequence self) (cp_previous self) (cp_recorder_sequence self) (cp_source_ns self) (cp_receive_ns self)
    (cp_hash self) (if String.eqb (cp_event_id self) "" then None else Some (cp_event_id self))
    (cp_raw_timestamp self) (cp_frame_sequence self).

Inductive ProtocolMessage :=
| Record_ (record : CompactProtocol)
| Raw (connection frame receive_ns : Z) (role : string) (bytes : list Z).

(** A line of one of the two files. *)
Inductive Line :=
| RecordLine (record : BookProtocolRecord)
| FrameLine (connection frame receive_ns : Z) (role : string) (payload : list Z).

Definition line_of (m : ProtocolMessage) : Line :=
  match m with Record_ r => RecordLine (into_record r) | Raw c f t role bytes => FrameLine c f t role bytes end.

(** [std::str::from_utf8(..).is_ok()] *)
Definition in_range (lo hi b : Z) : bool := (lo <=? b) && (b <=? hi).
Definition continuation (b : Z) : bool := in_range 128 191 b.

Fixpoint from_utf8 (l : list Z) : bool :=
  match l with
  | [] => true
  | a :: l1 =>
      if in_range 0 127 a then from_utf8 l1
      else match l1 with
           | b :: l2 =>
               if in_range 194 223 a then continuation b && from_utf8 l2
               else match l2 with
                    | c :: l3 =>
                        let second := if a =? 224 then in_range 160 191 b
                                      else if a =? 237 then in_range 128 159 b else continuation b in
                        if in_range 224 239 a then second && continuation c && from_utf8 l3
                        else match l3 with
                             | d :: l4 =>
                                 let second := if a =? 240 then in_range 144 191 b
                                               else if a =? 244 then in_range 128 143 b else continuation b in
                                 in_range 240 244 a && second && continuation c && continuation d && from_utf8 l4
                             | [] => false
                             end
                    | [] => false
                    end
           | [] => false
           end
  end.

(** ** The lane *)

Section Lane.
Context `{BoundedChannel Ch}.

Record LaneStats := mkStats {
  claimed : bool;
  next_connection : Z;
  active_sessions : Z;
  enqueued : Z;
  consumed : Z;
  high_water : Z;
  overflow : Z;
  queue_overflow : Z;
  raw_pool_overflow : Z;
  raw_pool_high_water : Z;
  raw_pool_in_use : Z;
  oversize : Z;
  invalid : Z;
  gaps : Z;
  write_errors : Z }.

Definition default_stats : LaneStats := mkStats false 0 0 0 0 0 0 0 0 0 0 0 0 0 0.

Record BookProtocolSink := mkSink {
  tx : Ch ProtocolMessage;
  free : Ch (list Z);
  wake : Ch unit;
  stats : LaneStats;
  attempts : list (option ProtocolMessage) }.

Fixpoint fill (n : nat) (pool : Ch (list Z)) : Ch (list Z) :=
  match n with O => pool | S n => fill n (default pool (ch_send pool [])) end.

Definition new : BookProtocolSink :=
  mkSink (ch_new BOOK_PROTOCOL_CAPACITY) (fill RAW_POOL_CAPACITY (ch_new RAW_POOL_CAPACITY)) (ch_new 1) default_stats [].

Definition count_stats (f : LaneStats → LaneStats) (self : BookProtocolSink) : BookProtocolSink := self <| stats := f (stats self) |>.
Definition attempt (a : option ProtocolMessage) (self : BookProtocolSink) : BookProtocolSink := self <| attempts := attempts self ++ [a] |>.

Definition add_invalid (s : LaneStats) : LaneStats := s <| invalid := invalid s +w 1 |>.
Definition add_gap (s : LaneStats) : LaneStats := s <| gaps := gaps s +w 1 |>.
Definition add_oversize (s : LaneStats) : LaneStats := s <| oversize := oversize s +w 1 |>.
Definition add_pool_overflow (s : LaneStats) : LaneStats :=
  s <| overflow := overflow s +w 1 |> <| raw_pool_overflow := raw_pool_overflow s +w 1 |>.
Definition add_queue_overflow (s : LaneStats) : LaneStats :=
  s <| overflow := overflow s +w 1 |> <| queue_overflow := queue_overflow s +w 1 |>.
Definition add_enqueued (len : Z) (s : LaneStats) : LaneStats :=
  s <| enqueued := enqueued s +w 1 |> <| high_water := Z.max (high_water s) len |>.
Definition take_buffer (s : LaneStats) : LaneStats :=
  s <| raw_pool_in_use := raw_pool_in_use s +w 1 |> <| raw_pool_high_water := Z.max (raw_pool_high_water s) (raw_pool_in_use s +w 1) |>.
Definition release_buffer (s : LaneStats) : LaneStats := s <| raw_pool_in_use := raw_pool_in_use s +w (-1) |>.

Definition enqueue (self : BookProtocolSink) (message : ProtocolMessage) : BookProtocolSink :=
  let self :=
    match ch_send (tx self) message with
    | Some q => count_stats (add_enqueued (Z.of_nat (length (ch_content q)))) (self <| tx := q |>)
    | None =>
        let self := count_stats add_queue_overflow self in
        match message with
        | Raw _ _ _ _ _ => (count_stats release_buffer self) <| free := default (free self) (ch_send (free self) []) |>
        | Record_ _ => self
        end
    end in
  self <| wake := default (wake self) (ch_send (wake self) tt) |>.

Record BookProtocolSession := mkSession {
  connection : Z;
  sequence : Z;
  frame : Z;
  routes : list BookProtocolRoute;
  last_receive_ns : Z }.

Definition receive_ns (self : BookProtocolSession) : Z := last_receive_ns self.

Definition record (sink : BookProtocolSink) (self : BookProtocolSession) (tok : string) (k : BookProtocolKind) (wire : string)
    (seq previous raw_timestamp source_ns : option Z) (now : Z) (hash : option string) : BookProtocolSink * BookProtocolSession :=
  let invalid := (attempt None (count_stats add_invalid sink), self) in
  match List.find (λ r, String.eqb (rt_token r) tok) (routes self) with
  | None => invalid
  | Some route =>
      match array_string 128 wire, match hash with Some h => Some <$> array_string 256 h | None => Some None end with
      | Some wire, Some hash =>
          let self := self <| sequence := sequence self +s 1 |> <| last_receive_ns := Z.max now 1 |> in
          let message := Record_ (mkCompact (rt_token route) (rt_event_id route) (rt_epoch route) (connection self) k wire
                                    seq previous (sequence self) source_ns raw_timestamp (Z.max now 1) hash (frame self)) in
          (enqueue (attempt (Some message) sink) message, self)
      | _, _ => invalid
      end
  end.

(** [for index in 0..self.routes.len()] *)
Fixpoint control_routes (sink : BookProtocolSink) (self : BookProtocolSession) (k : BookProtocolKind) (reason : string) (now : Z)
    (rs : list BookProtocolRoute) : BookProtocolSink * BookProtocolSession :=
  match rs with
  | [] => (sink, self)
  | r :: rs =>
      let '(sink, self) := record sink self (rt_token r) k reason None None None None now None in
      control_routes sink self k reason now rs
  end.

Definition control (sink : BookProtocolSink) (self : BookProtocolSession) (k : BookProtocolKind) (reason : string) (now : Z) :=
  control_routes sink self k reason now (routes self).

Definition gap (sink : BookProtocolSink) (self : BookProtocolSession) (reason : string) (now : Z) :=
  control (count_stats add_gap sink) self Gap reason (Z.max now 1).

Definition invalid_frame (sink : BookProtocolSink) (self : BookProtocolSession) (now : Z) :=
  gap (attempt None (count_stats add_invalid sink)) self "malformed_or_unsupported_protocol_frame" now.

Definition capture_raw (sink : BookProtocolSink) (self : BookProtocolSession) (text : list Z) (now : Z) (role : string) :=
  let self := self <| frame := frame self +s 1 |> <| last_receive_ns := Z.max now 1 |> in
  let sink := attempt (Some (Raw (connection self) (frame self) now role text)) sink in
  if RAW_FRAME_CAPACITY <? Z.of_nat (length text)
  then gap (count_stats add_invalid (count_stats add_oversize sink)) self "raw_frame_capacity_exceeded" now
  else
    match ch_recv (free sink) with
    | None => gap (count_stats add_pool_overflow sink) self "raw_buffer_pool_exhausted" now
    | Some (bytes, pool) =>
        let sink := count_stats take_buffer (sink <| free := pool |>) in
        (enqueue sink (Raw (connection self) (frame self) now role (bytes ++ text)), self)
    end.

(** The routes a session keeps: one per token, at most 128. *)
Fixpoint add_routes (sink : BookProtocolSink) (kept rs : list BookProtocolRoute) : BookProtocolSink * list BookProtocolRoute :=
  match rs with
  | [] => (sink, kept)
  | r :: rs =>
      match List.find (λ k, String.eqb (rt_token k) (rt_token r)) kept with
      | Some existing =>
          if bool_decide (existing = r) then add_routes sink kept rs
          else add_routes (attempt None (count_stats add_invalid sink)) kept rs
      | None =>
          if (length kept <? TOKEN_CAPACITY)%nat then add_routes sink (kept ++ [r]) rs
          else add_routes (attempt None (count_stats add_invalid sink)) kept rs
      end
  end.

Definition open_session (s : LaneStats) : LaneStats :=
  s <| next_connection := next_connection s +w 1 |> <| active_sessions := active_sessions s +w 1 |>.
Definition close_session (s : LaneStats) : LaneStats := s <| active_sessions := active_sessions s +w (-1) |>.

Definition session (sink : BookProtocolSink) (rs : list BookProtocolRoute) (now : Z) : BookProtocolSink * BookProtocolSession :=
  let connection := next_connection (stats sink) +w 1 in
  let '(sink, rs) := add_routes (count_stats open_session sink) [] rs in
  control sink (mkSession connection 0 0 rs (Z.max now 1)) Reconnect "ws_connection_opened" (Z.max now 1).

Definition drop_session (sink : BookProtocolSink) (self : BookProtocolSession) (now : Z) : BookProtocolSink * BookProtocolSession :=
  let '(sink, self) := gap sink self "ws_session_closed_or_retired" now in
  (count_stats close_session sink, self).

(** ** The consumer *)

Record Manifest := mkManifest { m_closed : bool; m_complete : bool; m_queued : nat; m_stats : LaneStats }.

(** [lines] are the two files, in the order of their writes; [output] says that the
    recorder has opened the file of records; [waiting] that the consumer is at its select. *)
Record BookProtocolConsumer := mkConsumer {
  initialized : bool;
  finished : bool;
  output : bool;
  waiting : bool;
  lines : list Line;
  manifests : list Manifest }.

Definition write_manifest (sink : BookProtocolSink) (closed : bool) (self : BookProtocolConsumer) : BookProtocolConsumer :=
  let s := stats sink in
  let queued := length (ch_content (tx sink)) in
  let complete := closed && (active_sessions s =? 0) && (raw_pool_in_use s =? 0) && (queued =? 0)%nat && (enqueued s =? consumed s)
                  && (overflow s =? 0) && (invalid s =? 0) && (write_errors s =? 0) in
  self <| manifests := manifests self ++ [mkManifest closed complete queued s] |>.

(** [BookProtocolLane::consumer] *)
Definition claim (sink : BookProtocolSink) : option (BookProtocolSink * BookProtocolConsumer) :=
  if claimed (stats sink) then None
  else let sink := count_stats (λ s, s <| claimed := true |>) sink in
       Some (sink, write_manifest sink false (mkConsumer false false false false [] [])).

(** [MarketRecorder::record_book_protocol] on a record of the public feed; [ok] is the
    outcome of the write. *)
Definition record_book_protocol (out : bool) (r : BookProtocolRecord) (ok : bool) : option RecordError :=
  match validate r with
  | Some e => Some e
  | None =>
      if negb (String.eqb (iid r) feed_id) then Some UnrecognizedFeed
      else if negb out then Some WriterNotInitialized
      else if ok then None else Some WriteFailed
  end.

Definition write_line (out ok : bool) (m : ProtocolMessage) : bool :=
  match m with
  | Record_ r => bool_decide (record_book_protocol out (into_record r) ok = None)
  | Raw _ _ _ _ bytes => from_utf8 bytes && ok
  end.

Definition return_buffer (sink : BookProtocolSink) (m : ProtocolMessage) : BookProtocolSink :=
  match m with
  | Raw _ _ _ _ _ =>
      let sink := count_stats release_buffer sink in
      match ch_send (free sink) [] with
      | Some pool => sink <| free := pool |>
      | None => attempt None (count_stats add_invalid sink)
      end
  | Record_ _ => sink
  end.

Definition add_consumed (s : LaneStats) : LaneStats := s <| consumed := consumed s +w 1 |>.
Definition add_write_error (s : LaneStats) : LaneStats := s <| write_errors := write_errors s +w 1 |>.

(** One message; false when its write failed. *)
Definition consume (sink : BookProtocolSink) (self : BookProtocolConsumer) (m : ProtocolMessage) (q : Ch ProtocolMessage) (ok : bool)
    : BookProtocolSink * BookProtocolConsumer * bool :=
  let written := write_line (output self) ok m in
  let sink := count_stats add_consumed (return_buffer (sink <| tx := q |>) m) in
  if written then (sink, self <| lines := lines self ++ [line_of m] |>, true)
  else let sink := count_stats add_write_error sink in (sink, write_manifest sink false self, false).

(** [oks] are the outcomes of the writes. *)
Fixpoint drain_loop (sink : BookProtocolSink) (self : BookProtocolConsumer) (limit : nat) (oks : list bool)
    : BookProtocolSink * BookProtocolConsumer * bool :=
  match limit with
  | O => (sink, self, true)
  | S limit =>
      match ch_recv (tx sink) with
      | None => (sink, self, true)
      | Some (m, q) =>
          match consume sink self m q (default true (head oks)) with
          | (sink, self, true) => drain_loop sink self limit (tail oks)
          | (sink, self, false) => (sink, self, false)
          end
      end
  end.

(** [opened] is the outcome of creating the file of records. *)
Definition drain (sink : BookProtocolSink) (self : BookProtocolConsumer) (limit : nat) (opened : bool) (oks : list bool)
    : BookProtocolSink * BookProtocolConsumer * bool :=
  if initialized self then drain_loop sink self limit oks
  else if negb (output self) && opened then drain_loop sink (self <| output := true |> <| initialized := true |>) limit oks
  else (sink, self, false).

(** [flushed] is the outcome of flushing both files. *)
Definition checkpoint (sink : BookProtocolSink) (self : BookProtocolConsumer) (flushed : bool) : BookProtocolSink * BookProtocolConsumer * bool :=
  if flushed then (sink, write_manifest sink false self, true)
  else let sink := attempt None (count_stats add_write_error sink) in (sink, write_manifest sink false self, false).

(** [finish] after its last turn of draining. *)
Definition finish_close (sink : BookProtocolSink) (self : BookProtocolConsumer) (flushed : bool) : BookProtocolSink * BookProtocolConsumer * bool :=
  match checkpoint sink self flushed with
  | (sink, self, false) => (sink, self, false)
  | (sink, self, true) =>
      if negb (active_sessions (stats sink) =? 0) then (sink, write_manifest sink false self, false)
      else (sink, (write_manifest sink true self) <| finished := true |>, true)
  end.

(** [drop] *)
Definition drop_consumer (sink : BookProtocolSink) (self : BookProtocolConsumer) : BookProtocolConsumer :=
  if finished self then self else write_manifest sink false self.

(** [recv_market]: take a market event, or go back to the evidence, or wait. *)
Definition recv_check (sink : BookProtocolSink) (self : BookProtocolConsumer) (market_ready : bool) : BookProtocolConsumer :=
  if market_ready then self
  else if negb (length (ch_content (tx sink)) =? 0)%nat then self
  else self <| waiting := true |>.

Inductive Woken := ByMarket | ByWake | ByTimeout.

(** The select: [None] while it sleeps. *)
Definition recv_select (sink : BookProtocolSink) (self : BookProtocolConsumer) (w : Woken) : option (BookProtocolSink * BookProtocolConsumer) :=
  if waiting self
  then let self := self <| waiting := false |> in
       match w with
       | ByWake => match ch_recv (wake sink) with Some (_, c) => Some (sink <| wake := c |>, self) | None => None end
       | ByMarket | ByTimeout => Some (sink, self)
       end
  else None.

(** ** Interleavings *)

Record Sys := mkSys {
  sink : BookProtocolSink;
  sessions : list (option BookProtocolSession);
  consumer : option BookProtocolConsumer }.

Inductive Event :=
| Open (rs : list BookProtocolRoute) (now : Z)
| CaptureRaw (i : nat) (text : list Z) (now : Z) (role : string)
| Record (i : nat) (tok : string) (k : BookProtocolKind) (wire : string) (seq previous raw_timestamp source_ns : option Z)
    (now : Z) (hash : option string)
| DeclareGap (i : nat) (reason : string) (now : Z)
| InvalidFrame (i : nat) (now : Z)
| Close (i : nat) (now : Z)
| Claim
| Drain (limit : nat) (opened : bool) (oks : list bool)
| Checkpoint (flushed : bool)
| FinishClose (flushed : bool)
| RecvCheck (market_ready : bool)
| RecvSelect (w : Woken).

Definition on_session (y : Sys) (i : nat) (f : BookProtocolSink → BookProtocolSession → BookProtocolSink * BookProtocolSession) (keep : bool) : option Sys :=
  match sessions y !! i with
  | Some (Some s) => let '(k, s) := f (sink y) s in Some (mkSys k (<[i := if keep then Some s else None]> (sessions y)) (consumer y))
  | _ => None
  end.

Definition on_consumer (y : Sys) (f : BookProtocolSink → BookProtocolConsumer → option (BookProtocolSink * BookProtocolConsumer)) : option Sys :=
  match consumer y with
  | Some c => match f (sink y) c with Some (k, c) => Some (mkSys k (sessions y) (Some c)) | None => None end
  | None => None
  end.

(** The consumer's methods run one after the other. *)
Definition busy (f : BookProtocolSink → BookProtocolConsumer → BookProtocolSink * BookProtocolConsumer * bool)
    (k : BookProtocolSink) (c : BookProtocolConsumer) : option (BookProtocolSink * BookProtocolConsumer) :=
  if waiting c then None else Some (f k c).1.

Definition event (y : Sys) (e : Event) : option Sys :=
  match e with
  | Open rs now => let '(k, s) := session (sink y) rs now in Some (mkSys k (sessions y ++ [Some s]) (consumer y))
  | CaptureRaw i text now role => on_session y i (λ k s, capture_raw k s text now role) true
  | Record i tok k wire seq previous raw_timestamp source_ns now hash =>
      on_session y i (λ sk s, record sk s tok k wire seq previous raw_timestamp source_ns now hash) true
  | DeclareGap i reason now => on_session y i (λ k s, gap k s reason now) true
  | InvalidFrame i now => on_session y i (λ k s, invalid_frame k s now) true
  | Close i now => on_session y i (λ k s, drop_session k s now) false
  | Claim =>
      match claim (sink y) with
      | Some (k, c) => Some (mkSys k (sessions y) (Some c))
      | None => None
      end
  | Drain limit opened oks => on_consumer y (busy (λ k c, drain k c limit opened oks))
  | Checkpoint flushed => on_consumer y (busy (λ k c, checkpoint k c flushed))
  | FinishClose flushed => on_consumer y (busy (λ k c, finish_close k c flushed))
  | RecvCheck ready => on_consumer y (busy (λ k c, (k, recv_check k c ready, true)))
  | RecvSelect w => on_consumer y (λ k c, recv_select k c w)
  end.

Inductive reachable : Sys → Prop :=
| reachable_new : reachable (mkSys new [] None)
| reachable_event y e y' : reachable y → event y e = Some y' → reachable y'.

(** ** Invariant of the sink *)

#[local] Arguments ch_send : simpl never.
#[local] Arguments ch_recv : simpl never.
#[local] Arguments Nat.ltb : simpl never.
#[local] Arguments enqueue : simpl never.
#[local] Arguments gap : simpl never.

Definition is_raw (m : ProtocolMessage) : bool := match m with Raw _ _ _ _ _ => true | Record_ _ => false end.
Definition raws (l : list ProtocolMessage) : nat := count is_raw l.
#[local] Arguments raws : simpl never.

Definition faults (k : BookProtocolSink) : Z := overflow (stats k) + invalid (stats k) + write_errors (stats k).
Definition attempted (k : BookProtocolSink) : Z := Z.of_nat (length (attempts k)).

(** Nothing is lost uncounted: what was attempted is queued, on a line, or a fault. *)
Record sink_ok (ls : list Line) (k : BookProtocolSink) : Prop := {
  so_tx : ch_capacity (tx k) = BOOK_PROTOCOL_CAPACITY;
  so_free : ch_capacity (free k) = RAW_POOL_CAPACITY;
  so_wake : ch_capacity (wake k) = 1%nat;
  so_bound : (length (ch_content (tx k)) <= BOOK_PROTOCOL_CAPACITY)%nat;
  so_clean : Forall (λ b, b = []) (ch_content (free k));
  so_pool : (length (ch_content (free k)) + raws (ch_content (tx k)) = RAW_POOL_CAPACITY)%nat;
  so_in_use : raw_pool_in_use (stats k) = Z.of_nat (raws (ch_content (tx k)));
  so_enqueued : enqueued (stats k) = consumed (stats k) +w Z.of_nat (length (ch_content (tx k)));
  so_consumed : is_u64 (consumed (stats k));
  so_counted : attempted k < 2 ^ 64 →
    0 <= overflow (stats k) ∧ 0 <= invalid (stats k) ∧ 0 <= write_errors (stats k)
    ∧ attempted k = Z.of_nat (length (ch_content (tx k))) + Z.of_nat (length ls) + faults k;
  so_exact : attempted k < 2 ^ 64 → faults k = 0 →
    (λ a, line_of <$> a) <$> attempts k = Some <$> ls ++ (line_of <$> ch_content (tx k)) }.

Lemma wrap_id x : 0 <= x < 2 ^ 64 → 0 +w x = x.
Proof. intros Hx. unfold wrapping_add. by rewrite Z.mod_small. Qed.

Lemma add_one_small x : 0 <= x < 2 ^ 64 - 1 → x +w 1 = x + 1.
Proof. intros Hx. unfold wrapping_add. rewrite Z.mod_small; lia. Qed.

Lemma raws_snoc l m : raws (l ++ [m]) = (raws l + if is_raw m then 1 else 0)%nat.
Proof. unfold raws, count. rewrite List.filter_app, length_app. cbn. destruct (is_raw m); cbn; lia. Qed.

Lemma raws_cons l m : raws (m :: l) = ((if is_raw m then 1 else 0) + raws l)%nat.
Proof. unfold raws, count. cbn. by destruct (is_raw m). Qed.

Lemma sink_ok_wake ls k : sink_ok ls k → sink_ok ls (k <| wake := default (wake k) (ch_send (wake k) tt) |>).
Proof.
  intros [A1 A2 A3 A4 A5 A6 A7 A8 A9 A10 A11]. split; try done. cbn.
  destruct (ch_send_cases (wake k) tt) as [(c & -> & _ & _ & E)|[-> _]]; cbn; congruence.
Qed.

(** One more fault, and one more attempt that is neither queued nor on a line. *)
Lemma sink_ok_fault ls k k' a :
  sink_ok ls k → tx k' = tx k → free k' = free k → wake k' = wake k → attempts k' = attempts k ++ [a] →
  raw_pool_in_use (stats k') = raw_pool_in_use (stats k) → enqueued (stats k') = enqueued (stats k) →
  consumed (stats k') = consumed (stats k) →
  (overflow (stats k'), invalid (stats k'), write_errors (stats k'))
    ∈ [(overflow (stats k) +w 1, invalid (stats k), write_errors (stats k));
       (overflow (stats k), invalid (stats k) +w 1, write_errors (stats k));
       (overflow (stats k), invalid (stats k), write_errors (stats k) +w 1)] →
  sink_ok ls k'.
Proof.
  intros [A1 A2 A3 A4 A5 A6 A7 A8 A9 A10 A11] Et Ef Ew Ea Ei Ee Ec Hf.
  assert (attempted k' = attempted k + 1) as El by (unfold attempted; rewrite Ea, length_app; cbn; lia).
  assert (attempted k' < 2 ^ 64 → 0 <= overflow (stats k') ∧ 0 <= invalid (stats k') ∧ 0 <= write_errors (stats k')
    ∧ faults k' = faults k + 1) as Hc.
  { rewrite El. intros Hlt. destruct (A10 ltac:(lia)) as (H1 & H2 & H3 & H4). unfold faults in *.
    rewrite !elem_of_cons, elem_of_nil in Hf. destruct Hf as [[= -> -> ->]|[[= -> -> ->]|[[= -> -> ->]|[]]]];
      rewrite ?add_one_small by lia; lia. }
  split; rewrite ?Et, ?Ef, ?Ew, ?Ei, ?Ee, ?Ec; try done.
  - intros Hlt. destruct (Hc Hlt) as (? & ? & ? & ->). rewrite El in *. destruct (A10 ltac:(lia)) as (_ & _ & _ & ->). lia.
  - intros Hlt Hz. destruct (Hc Hlt) as (_ & _ & _ & Hk). rewrite El in Hlt. destruct (A10 ltac:(lia)) as (? & ? & ? & _).
    unfold faults in *. lia.
Qed.

Lemma enqueue_record_ok ls k r :
  sink_ok ls k → sink_ok ls (enqueue (attempt (Some (Record_ r)) k) (Record_ r)).
Proof.
  intros Hk. unfold enqueue. cbn. apply sink_ok_wake.
  destruct (ch_send_cases (tx k) (Record_ r)) as [(q & -> & Hroom & Ec & Eq)|[-> _]].
  - destruct Hk as [A1 A2 A3 A4 A5 A6 A7 A8 A9 A10 A11]. rewrite A1 in Hroom.
    assert (attempted (attempt (Some (Record_ r)) k) = attempted k + 1) as El by (unfold attempted; cbn; rewrite length_app; cbn; lia).
    split; cbn; rewrite ?Ec, ?Eq, ?length_app; cbn; try done.
    + lia.
    + rewrite raws_snoc. cbn. lia.
    + rewrite raws_snoc. cbn. rewrite A7. f_equal. lia.
    + rewrite A8. unfold wrapping_add. rewrite Zplus_mod_idemp_l. f_equal. lia.
    + unfold attempted in *. cbn in *. rewrite El. intros Hlt. destruct (A10 ltac:(lia)) as (? & ? & ? & ->).
      split_and!; try done. unfold faults. cbn. lia.
    + unfold attempted in *. cbn in *. rewrite El. intros Hlt Hf. rewrite fmap_app, A11 by (try lia; exact Hf).
      by rewrite !fmap_app, (assoc_L (++)).
  - eapply sink_ok_fault; [exact Hk|done..|]. cbn. by left.
Qed.

(** A buffer taken from the pool is empty, and goes back empty when the queue is full. *)
Lemma enqueue_raw_ok ls k c f t role text bytes pool :
  sink_ok ls k → ch_recv (free k) = Some (bytes, pool) →
  bytes = [] ∧
  sink_ok ls (enqueue (count_stats take_buffer ((attempt (Some (Raw c f t role text)) k) <| free := pool |>)) (Raw c f t role (bytes ++ text))).
Proof.
  intros Hk Er. destruct (ch_recv_some _ _ _ _ Er) as [Ef Ep]. assert (Hk' := Hk).
  destruct Hk as [A1 A2 A3 A4 A5 A6 A7 A8 A9 A10 A11]. rewrite Ef in A5, A6. apply Forall_cons in A5 as [-> A5]. cbn in A6.
  split; [done|]. unfold enqueue. cbn. apply sink_ok_wake.
  assert (raw_pool_in_use (stats k) +w 1 = raw_pool_in_use (stats k) + 1) as Ei
    by (apply add_one_small; rewrite A7; unfold RAW_POOL_CAPACITY in A6; lia).
  destruct (ch_send_cases (tx k) (Raw c f t role text)) as [(q & -> & Hroom & Ec & Eq)|[-> _]].
  - rewrite A1 in Hroom.
    assert (attempted (attempt (Some (Raw c f t role text)) k) = attempted k + 1) as El by (unfold attempted; cbn; rewrite length_app; cbn; lia).
    split; cbn; rewrite ?Ec, ?Eq, ?Ep, ?length_app, ?Ei; cbn; try done.
    + lia.
    + rewrite raws_snoc. cbn. lia.
    + rewrite raws_snoc. cbn. lia.
    + rewrite A8. unfold wrapping_add. rewrite Zplus_mod_idemp_l. f_equal. lia.
    + unfold attempted in *. cbn in *. rewrite El. intros Hlt. destruct (A10 ltac:(lia)) as (? & ? & ? & ->).
      split_and!; try done. unfold faults. cbn. lia.
    + unfold attempted in *. cbn in *. rewrite El. intros Hlt Hf. rewrite fmap_app, A11 by (try lia; exact Hf).
      by rewrite !fmap_app, (assoc_L (++)).
  - destruct (ch_send_cases pool []) as [(p & -> & _ & Ec & Eq)|[-> Hfull]]; [|rewrite Ep, A2 in Hfull; lia]. cbn.
    assert (sink_ok ls (k <| free := p |>)) as Hk1.
    { split; cbn; rewrite ?Ec, ?Eq, ?Ep, ?length_app; cbn; try done; [|lia]. apply Forall_app. split; [done|]. by constructor. }
    eapply sink_ok_fault; [exact Hk1|done..| | | |]; cbn; [|done..|by left].
    rewrite Ei. unfold wrapping_add. rewrite Z.mod_small; [lia|]. rewrite A7. unfold RAW_POOL_CAPACITY in A6. lia.
Qed.

(** ** What a session's methods do *)

(** The numbers of the records and of the frames of a connection. *)
Definition record_numbers (c : Z) (l : list (option ProtocolMessage)) : list Z :=
  omap (λ a, match a with Some (Record_ r) => if cp_connection r =? c then Some (cp_recorder_sequence r) else None | _ => None end) l.
Definition frame_numbers (c : Z) (l : list (option ProtocolMessage)) : list Z :=
  omap (λ a, match a with Some (Raw c' f _ _ _) => if c' =? c then Some f else None | _ => None end) l.

Definition fits (k : BookProtocolSink) (s : BookProtocolSession) : Prop :=
  0 <= sequence s <= attempted k ∧ 0 <= frame s <= attempted k.

Record numbered (s : BookProtocolSession) (s' : BookProtocolSession) (more : list (option ProtocolMessage)) : Prop := {
  nb_records : record_numbers (connection s) more = seqZ (sequence s + 1) (sequence s' - sequence s);
  nb_frames : frame_numbers (connection s) more = seqZ (frame s + 1) (frame s' - frame s);
  nb_le : sequence s <= sequence s' <= sequence s + Z.of_nat (length more) ∧ frame s <= frame s' <= frame s + Z.of_nat (length more);
  nb_others c : c ≠ connection s → record_numbers c more = [] ∧ frame_numbers c more = [] }.

(** A method of a session: numbered attempts, the invariant, and a wake-up for what it
    queued. *)
Record advances (k : BookProtocolSink) (s : BookProtocolSession) (k' : BookProtocolSink) (s' : BookProtocolSession) : Prop := {
  ad_connection : connection s' = connection s;
  ad_routes : routes s' = routes s;
  ad_attempts : ∃ more, attempts k' = attempts k ++ more ∧ (attempted k' < 2 ^ 64 → fits k s → numbered s s' more);
  ad_active : active_sessions (stats k') = active_sessions (stats k);
  ad_next : next_connection (stats k') = next_connection (stats k);
  ad_claimed : claimed (stats k') = claimed (stats k);
  ad_ok ls : sink_ok ls k → sink_ok ls k';
  ad_wake ls : sink_ok ls k → ch_content (tx k') = ch_content (tx k) ∨ ch_content (wake k') ≠ [];
  ad_awake : ch_content (wake k) ≠ [] → ch_content (wake k') ≠ [] }.

Lemma advances_refl k s : advances k s k s.
Proof.
  split; try done; [|by left]. exists []. split; [by rewrite app_nil_r|]. intros _ _. split; cbn; try done; try lia.
  all: by rewrite Z.sub_diag.
Qed.

Lemma attempted_app k k' more : attempts k' = attempts k ++ more → attempted k' = attempted k + Z.of_nat (length more).
Proof. intros E. unfold attempted. rewrite E, length_app. lia. Qed.

Lemma advances_trans k1 s1 k2 s2 k3 s3 : advances k1 s1 k2 s2 → advances k2 s2 k3 s3 → advances k1 s1 k3 s3.
Proof.
  intros [A1 A2 (m1 & E1 & N1) A4 A5 A6 A7 A8 A9] [B1 B2 (m2 & E2 & N2) B4 B5 B6 B7 B8 B9]. split; try congruence; auto.
  - exists (m1 ++ m2). split; [by rewrite E2, E1, (assoc_L (++))|]. intros Hlt Hf.
    pose proof (attempted_app _ _ _ E1) as L1. pose proof (attempted_app _ _ _ E2) as L2.
    destruct (N1 ltac:(lia) Hf) as [C1 C2 C3 C4]. destruct Hf as [Hf1 Hf2].
    destruct (N2 Hlt ltac:(split; lia)) as [D1 D2 D3 D4]. rewrite A1 in D1, D2, D4. unfold record_numbers, frame_numbers in *.
    split; unfold record_numbers, frame_numbers; rewrite ?omap_app, ?length_app.
    + rewrite C1, D1. replace (sequence s3 - sequence s1) with ((sequence s2 - sequence s1) + (sequence s3 - sequence s2)) by lia.
      rewrite seqZ_app by lia. by replace (sequence s2 + 1) with (sequence s1 + 1 + (sequence s2 - sequence s1)) by lia.
    + rewrite C2, D2. replace (frame s3 - frame s1) with ((frame s2 - frame s1) + (frame s3 - frame s2)) by lia.
      rewrite seqZ_app by lia. by replace (frame s2 + 1) with (frame s1 + 1 + (frame s2 - frame s1)) by lia.
    + lia.
    + intros c Hc. rewrite !omap_app. destruct (C4 c Hc) as [-> ->]. by destruct (D4 c Hc) as [-> ->].
  - intros ls Hk. destruct (A8 ls Hk) as [Ea|Hw]; [|right; auto]. destruct (B8 ls (A7 ls Hk)) as [Eb|?]; [left; congruence|by right].
Qed.

Lemma enqueue_frame k m :
  attempts (enqueue k m) = attempts k ∧ active_sessions (stats (enqueue k m)) = active_sessions (stats k)
  ∧ next_connection (stats (enqueue k m)) = next_connection (stats k) ∧ claimed (stats (enqueue k m)) = claimed (stats k)
  ∧ (ch_capacity (wake k) = 1%nat → ch_content (wake (enqueue k m)) ≠ []) ∧ (ch_content (wake k) ≠ [] → ch_content (wake (enqueue k m)) ≠ []).
Proof.
  assert (∀ k1, wake k1 = wake k →
    (ch_capacity (wake k) = 1%nat → ch_content (default (wake k1) (ch_send (wake k1) tt)) ≠ [])
    ∧ (ch_content (wake k) ≠ [] → ch_content (default (wake k1) (ch_send (wake k1) tt)) ≠ [])) as Hw.
  { intros k1 ->. destruct (ch_send_cases (wake k) tt) as [(c & -> & _ & E & _)|[-> Hf]]; cbn.
    - rewrite E. by split; intros _ [_ ?]%app_nil.
    - split; [|done]. intros Ec E. rewrite Ec, E in Hf. cbn in Hf. lia. }
  unfold enqueue. destruct (ch_send (tx k) m) as [q|]; [|destruct m]; cbn; split_and!; try done; by apply Hw.
Qed.

(** Counting something that is neither queued nor missing. *)
Lemma advances_count k s f :
  (∀ st, raw_pool_in_use (f st) = raw_pool_in_use st ∧ enqueued (f st) = enqueued st ∧ consumed (f st) = consumed st
     ∧ overflow (f st) = overflow st ∧ invalid (f st) = invalid st ∧ write_errors (f st) = write_errors st
     ∧ active_sessions (f st) = active_sessions st ∧ next_connection (f st) = next_connection st ∧ claimed (f st) = claimed st) →
  advances k s (count_stats f k) s.
Proof.
  intros Hf. destruct (Hf (stats k)) as (F1 & F2 & F3 & F4 & F5 & F6 & F7 & F8 & F9).
  destruct (advances_refl k s) as [_ _ A3 _ _ _ _ _ _]. split; try done; [|by left].
  intros ls [B1 B2 B3 B4 B5 B6 B7 B8 B9 B10 B11]. unfold faults in *.
  split; unfold faults; cbn; rewrite ?F1, ?F2, ?F3, ?F4, ?F5, ?F6; done.
Qed.

(** An attempt that fails before it has a number. *)
Lemma advances_invalid k s : advances k s (attempt None (count_stats add_invalid k)) s.
Proof.
  split; try done; [| |by left].
  - exists [None]. split; [done|]. intros _ _. split; cbn; try done; try lia. all: by rewrite Z.sub_diag.
  - intros ls Hk. eapply sink_ok_fault; [exact Hk|done..|]. cbn. right; left.
Qed.

Lemma advances_record k s tok kd wire sq pv rt sn now h :
  advances k s (record k s tok kd wire sq pv rt sn now h).1 (record k s tok kd wire sq pv rt sn now h).2.
Proof.
  unfold record. destruct (List.find _ _) as [r|]; [|apply advances_invalid].
  destruct (array_string 128 wire) as [w|]; [|apply advances_invalid].
  destruct (match h with Some _ => _ | None => _ end) as [h'|]; [|apply advances_invalid]. cbn.
  match goal with |- advances _ _ (enqueue ?a ?b) _ => destruct (enqueue_frame a b) as (E1 & E2 & E3 & E4 & E5 & E6) end.
  cbn in *. split; try done.
  - rewrite E1. eexists [_]. split; [done|]. unfold attempted. rewrite E1, length_app. cbn. intros Hlt [Hf Hf'].
    unfold attempted in Hf, Hf'. assert (sequence s +s 1 = sequence s + 1) as Es by (unfold saturating_add, u64_max; lia).
    split; cbn; rewrite ?Es, ?Z.eqb_refl, ?Z.sub_diag; try done.
    + by replace (sequence s + 1 - sequence s) with 1 by lia.
    + lia.
    + intros c Hc. rewrite (proj2 (Z.eqb_neq _ _)) by done. done.
  - intros ls Hk. by apply enqueue_record_ok.
  - intros ls Hk. right. apply E5. by apply (so_wake ls k Hk).
Qed.

Lemma advances_control k s kd reason now rs :
  advances k s (control_routes k s kd reason now rs).1 (control_routes k s kd reason now rs).2.
Proof.
  revert k s. induction rs as [|r rs IH]; intros k s; [apply advances_refl|]. cbn.
  pose proof (advances_record k s (rt_token r) kd reason None None None None now None) as Hr.
  destruct (record _ _ _ _ _ _ _ _ _ _ _) as [k1 s1]. eapply advances_trans; [exact Hr|]. apply IH.
Qed.

Lemma advances_gap k s reason now : advances k s (gap k s reason now).1 (gap k s reason now).2.
Proof. eapply advances_trans; [|apply advances_control]. by apply (advances_count k s add_gap). Qed.

Lemma advances_invalid_frame k s now : advances k s (invalid_frame k s now).1 (invalid_frame k s now).2.
Proof. eapply advances_trans; [|apply advances_gap]. apply advances_invalid. Qed.

(** A frame refused before it is queued. *)
Lemma advances_refused k s text now role f (s' := s <| frame := frame s +s 1 |> <| last_receive_ns := Z.max now 1 |>) :
  (∀ st, raw_pool_in_use (f st) = raw_pool_in_use st ∧ enqueued (f st) = enqueued st ∧ consumed (f st) = consumed st
     ∧ (overflow (f st) = overflow st +w 1 ∧ invalid (f st) = invalid st ∨ overflow (f st) = overflow st ∧ invalid (f st) = invalid st +w 1)
     ∧ write_errors (f st) = write_errors st
     ∧ active_sessions (f st) = active_sessions st ∧ next_connection (f st) = next_connection st ∧ claimed (f st) = claimed st) →
  advances k s (count_stats f (attempt (Some (Raw (connection s) (frame s +s 1) now role text)) k)) s'.
Proof.
  intros Hf. destruct (Hf (stats k)) as (F1 & F2 & F3 & F4 & F5 & F6 & F7 & F8). split; try done; [| |by left].
  - eexists [_]. split; [done|]. unfold attempted. cbn. rewrite length_app. cbn. intros Hlt [Hs Hs']. unfold attempted in *.
    assert (frame s +s 1 = frame s + 1) as Es by (unfold saturating_add, u64_max; lia).
    split; cbn; rewrite ?Es, ?Z.eqb_refl, ?Z.sub_diag; try done.
    + by replace (frame s + 1 - frame s) with 1 by lia.
    + lia.
    + intros c Hc. by rewrite (proj2 (Z.eqb_neq _ _)).
  - intros ls Hk. eapply sink_ok_fault; [exact Hk|done..|]. cbn. rewrite F5. destruct F4 as [[-> ->]|[-> ->]]; set_solver.
Qed.

Lemma advances_capture k s text now role :
  advances k s (capture_raw k s text now role).1 (capture_raw k s text now role).2.
Proof.
  unfold capture_raw. cbn. destruct (_ <? _).
  - eapply advances_trans; [|apply advances_gap].
    apply (advances_refused k s text now role (λ st, add_invalid (add_oversize st))). intros st. cbn. tauto.
  - destruct (ch_recv (free k)) as [[bytes pool]|] eqn:Er; cbn.
    + match goal with |- advances _ _ (enqueue ?a ?b) _ => destruct (enqueue_frame a b) as (E1 & E2 & E3 & E4 & E5 & E6) end.
      cbn in *. split; try done.
      * rewrite E1. eexists [_]. split; [done|]. unfold attempted. rewrite E1, length_app. cbn. intros Hlt [Hs Hs']. unfold attempted in *.
        assert (frame s +s 1 = frame s + 1) as Es by (unfold saturating_add, u64_max; lia).
        split; cbn; rewrite ?Es, ?Z.eqb_refl, ?Z.sub_diag; try done.
        -- by replace (frame s + 1 - frame s) with 1 by lia.
        -- lia.
        -- intros c Hc. by rewrite (proj2 (Z.eqb_neq _ _)).
      * intros ls Hk. by apply enqueue_raw_ok.
      * intros ls Hk. right. apply E5. by apply (so_wake ls k Hk).
    + eapply advances_trans; [|apply advances_gap]. apply (advances_refused k s text now role add_pool_overflow). intros st. cbn. tauto.
Qed.

(** ** What the consumer's methods do *)

(** A method of the consumer: it says nothing itself, except that a flush failed. *)
Record serves (k : BookProtocolSink) (c : BookProtocolConsumer) (k' : BookProtocolSink) (c' : BookProtocolConsumer) : Prop := {
  sv_attempts : ∃ n, attempts k' = attempts k ++ replicate n None;
  sv_active : active_sessions (stats k') = active_sessions (stats k);
  sv_next : next_connection (stats k') = next_connection (stats k);
  sv_claimed : claimed (stats k') = claimed (stats k);
  sv_ok : sink_ok (lines c) k → sink_ok (lines c') k';
  sv_waiting : waiting c' = waiting c }.

Lemma serves_refl k c : serves k c k c.
Proof. split; try done. exists 0%nat. by rewrite app_nil_r. Qed.

Lemma serves_trans k1 c1 k2 c2 k3 c3 : serves k1 c1 k2 c2 → serves k2 c2 k3 c3 → serves k1 c1 k3 c3.
Proof.
  intros [(n & E1) A2 A3 A4 A5 A6] [(m & E2) B2 B3 B4 B5 B6]. split; try congruence; auto.
  exists (n + m)%nat. by rewrite E2, E1, <- (assoc_L (++)), replicate_add.
Qed.

Lemma serves_manifest k c b : serves k c k (write_manifest k b c).
Proof. split; try done. exists 0%nat. by rewrite app_nil_r. Qed.

(** The message leaves the queue, its buffer goes back. *)
Lemma return_buffer_ok ls k m q :
  sink_ok ls k → ch_recv (tx k) = Some (m, q) →
  ∃ pool, return_buffer (k <| tx := q |>) m = k <| tx := q |> <| free := pool |>
      <| stats := if is_raw m then release_buffer (stats k) else stats k |>
    ∧ ch_capacity pool = RAW_POOL_CAPACITY ∧ Forall (λ b, b = []) (ch_content pool)
    ∧ (length (ch_content pool) + raws (ch_content q) = RAW_POOL_CAPACITY)%nat.
Proof.
  intros [A1 A2 A3 A4 A5 A6 A7 A8 A9 A10 A11] Er. destruct (ch_recv_some _ _ _ _ Er) as [Et Ec]. rewrite Et, raws_cons in A6.
  destruct m as [r|c f t role bytes]; cbn in *.
  - exists (free k). split; [by destruct k|]. done.
  - destruct (ch_send_cases (free k) []) as [(p & -> & _ & E1 & E2)|[-> Hf]]; [|rewrite A2 in Hf; lia].
    exists p. split; [done|]. rewrite E1, E2, length_app. cbn. split_and!; [done| |lia]. apply Forall_app. split; [done|]. by constructor.
Qed.

Lemma serves_consume k c m q ok :
  ch_recv (tx k) = Some (m, q) → sink_ok (lines c) k →
  serves k c (consume k c m q ok).1.1 (consume k c m q ok).1.2 ∧ ch_content (tx (consume k c m q ok).1.1) = ch_content q.
Proof.
  intros Er Hk. destruct (return_buffer_ok _ _ _ _ Hk Er) as (pool & Eb & P1 & P2 & P3).
  destruct (ch_recv_some _ _ _ _ Er) as [Et Ec]. unfold consume. rewrite Eb.
  assert (∀ ls' (we : bool), length ls' = (length (lines c) + if we then 0 else 1)%nat →
    (we = false → ls' = lines c ++ [line_of m]) →
    sink_ok ls' (k <| tx := q |> <| free := pool |> <| stats := (if we then add_write_error else λ s, s) (add_consumed (if is_raw m then release_buffer (stats k) else stats k)) |>)) as Hok.
  { destruct Hk as [A1 A2 A3 A4 A5 A6 A7 A8 A9 A10 A11]. rewrite Et in *. cbn in *. rewrite raws_cons in A6, A7. unfold faults, attempted in *.
    intros ls' we Hlen Hls.
    assert (enqueued (stats k) = (consumed (stats k) +w 1) +w Z.of_nat (length (ch_content q))) as Ee.
    { rewrite A8. unfold wrapping_add. rewrite Zplus_mod_idemp_l. f_equal. lia. }
    assert (is_u64 (consumed (stats k) +w 1)) as Eu.
    { unfold is_u64, u64_max, wrapping_add. pose proof (Z.mod_pos_bound (consumed (stats k) + 1) (2 ^ 64) ltac:(lia)). lia. }
    assert (raw_pool_in_use (stats k) <= 64) as Hiu by (rewrite A7; unfold RAW_POOL_CAPACITY in *; lia).
    split; unfold faults, attempted; cbn; try done; try congruence.
    - lia.
    - destruct we, (is_raw m); cbn in *; rewrite A7; unfold wrapping_add; rewrite ?Z.mod_small; lia.
    - by destruct we, (is_raw m).
    - by destruct we, (is_raw m).
    - intros Hlt. destruct (A10 Hlt) as (? & ? & ? & E). destruct we, (is_raw m); cbn in *; rewrite ?add_one_small by lia; lia.
    - intros Hlt Hf. destruct (A10 Hlt) as (? & ? & ? & E).
      assert (write_errors (stats k) +w 1 = write_errors (stats k) + 1) as Ew by (apply add_one_small; lia).
      destruct we; [destruct (is_raw m); cbn in Hf; lia|]. rewrite Hls by done. rewrite <- (assoc_L (++)). apply A11; [done|].
      by destruct (is_raw m). }
  destruct (write_line (output c) ok m); cbn.
  - split; [|done]. split; cbn; try (by destruct (is_raw m)).
    + exists 0%nat. by rewrite app_nil_r.
    + intros _. apply (Hok _ false); [by rewrite length_app|done].
  - split; [|done]. split; cbn; try (by destruct (is_raw m)).
    + exists 0%nat. by rewrite app_nil_r.
    + intros _. apply (Hok _ true); [lia|done].
Qed.

(** A drain that reports no error has taken its limit, or everything. *)
Lemma serves_drain_loop limit k c oks :
  sink_ok (lines c) k →
  serves k c (drain_loop k c limit oks).1.1 (drain_loop k c limit oks).1.2
  ∧ ((drain_loop k c limit oks).2 = true → length (ch_content (tx (drain_loop k c limit oks).1.1)) = (length (ch_content (tx k)) - limit)%nat).
Proof.
  revert k c oks. induction limit as [|limit IH]; intros k c oks Hk; cbn.
  { split; [apply serves_refl|lia]. }
  destruct (ch_recv_cases (tx k)) as [(m & q & Er & Et & _)|[Er Et]]; rewrite Er.
  - destruct (serves_consume k c m q (default true (head oks)) Er Hk) as [Hs Hq].
    destruct (consume k c m q _) as [[k1 c1] b]. cbn in Hs, Hq. destruct b; [|by split].
    destruct (IH k1 c1 (tail oks) (sv_ok _ _ _ _ Hs Hk)) as [Hs' Hl]. split; [by eapply serves_trans|].
    intros Hb. rewrite Hl, Hq, Et by done. cbn. lia.
  - split; [apply serves_refl|]. cbn. rewrite Et. cbn. lia.
Qed.

Lemma serves_drain limit opened k c oks :
  sink_ok (lines c) k →
  serves k c (drain k c limit opened oks).1.1 (drain k c limit opened oks).1.2
  ∧ ((drain k c limit opened oks).2 = true → length (ch_content (tx (drain k c limit opened oks).1.1)) = (length (ch_content (tx k)) - limit)%nat).
Proof.
  intros Hk. unfold drain. set (c1 := c <| output := true |> <| initialized := true |>).
  destruct (initialized c); [by apply serves_drain_loop|]. destruct (_ && _); [|split; [apply serves_refl|done]].
  destruct (serves_drain_loop limit k c1 oks Hk) as [[S1 S2 S3 S4 S5 S6] Hl]. split; [|exact Hl].
  split; [exact S1|exact S2|exact S3|exact S4|exact S5|exact S6].
Qed.

Lemma serves_checkpoint k c flushed : serves k c (checkpoint k c flushed).1.1 (checkpoint k c flushed).1.2.
Proof.
  unfold checkpoint. destruct flushed; cbn; [apply serves_manifest|]. split; try done.
  - by exists 1%nat.
  - intros Hk. eapply sink_ok_fault; [exact Hk|done..|]. cbn. right; right; left.
Qed.

Lemma serves_finish k c flushed : serves k c (finish_close k c flushed).1.1 (finish_close k c flushed).1.2.
Proof.
  unfold finish_close. pose proof (serves_checkpoint k c flushed) as Hs. destruct (checkpoint k c flushed) as [[k1 c1] []]; [|done].
  cbn in Hs. destruct (negb _); cbn; (eapply serves_trans; [exact Hs|]); [apply serves_manifest|].
  destruct (serves_manifest k1 c1 true) as [S1 S2 S3 S4 S5 S6]. by split.
Qed.

(** ** Invariant of the system *)

Definition lines_of (y : Sys) : list Line := match consumer y with Some c => lines c | None => [] end.
Definition budget (y : Sys) : Z := attempted (sink y) + Z.of_nat (length (sessions y)).

Fixpoint live (l : list (option BookProtocolSession)) : nat :=
  match l with [] => 0 | Some _ :: l => S (live l) | None :: l => live l end.

Record numbers_ok (y : Sys) : Prop := {
  no_next : next_connection (stats (sink y)) = Z.of_nat (length (sessions y));
  no_active : active_sessions (stats (sink y)) = Z.of_nat (live (sessions y));
  no_live i s : sessions y !! i = Some (Some s) →
    connection s = Z.of_nat i + 1 ∧ fits (sink y) s
    ∧ record_numbers (connection s) (attempts (sink y)) = seqZ 1 (sequence s)
    ∧ frame_numbers (connection s) (attempts (sink y)) = seqZ 1 (frame s);
  no_all c : ∃ n m, record_numbers c (attempts (sink y)) = seqZ 1 n ∧ frame_numbers c (attempts (sink y)) = seqZ 1 m;
  no_new c : Z.of_nat (length (sessions y)) < c → record_numbers c (attempts (sink y)) = [] ∧ frame_numbers c (attempts (sink y)) = [] }.

Record inv (y : Sys) : Prop := {
  iv_sink : sink_ok (lines_of y) (sink y);
  iv_claimed : is_Some (consumer y) → claimed (stats (sink y)) = true;
  iv_wait c : consumer y = Some c → waiting c = true → ch_content (tx (sink y)) = [] ∨ ch_content (wake (sink y)) ≠ [];
  iv_numbers : budget y < 2 ^ 64 → numbers_ok y }.

Lemma live_keep l i s s' : l !! i = Some (Some s) → live (<[i := Some s']> l) = live l.
Proof. revert i. induction l as [|[] l IH]; intros [|i]; cbn; intros E; try done; by rewrite IH. Qed.
Lemma live_drop l i s : l !! i = Some (Some s) → S (live (<[i := None]> l)) = live l.
Proof. revert i. induction l as [|[] l IH]; intros [|i]; cbn; intros E; try done; by rewrite IH. Qed.
Lemma live_snoc l s : live (l ++ [Some s]) = S (live l).
Proof. induction l as [|[] l IH]; cbn; by rewrite ?IH. Qed.
Lemma live_length l : (live l <= length l)%nat.
Proof. induction l as [|[] l IH]; cbn; lia. Qed.

Lemma numbers_app c l l' :
  record_numbers c (l ++ l') = record_numbers c l ++ record_numbers c l' ∧ frame_numbers c (l ++ l') = frame_numbers c l ++ frame_numbers c l'.
Proof. unfold record_numbers, frame_numbers. by rewrite !omap_app. Qed.

Lemma numbers_none c n : record_numbers c (replicate n None) = [] ∧ frame_numbers c (replicate n None) = [].
Proof. induction n as [|n [IH1 IH2]]; [done|]. done. Qed.

(** The numbers a session adds continue the ones of its connection. *)
Lemma numbered_app k s s' more :
  numbered s s' more → fits k s →
  record_numbers (connection s) (attempts k) = seqZ 1 (sequence s) → frame_numbers (connection s) (attempts k) = seqZ 1 (frame s) →
  record_numbers (connection s) (attempts k ++ more) = seqZ 1 (sequence s') ∧ frame_numbers (connection s) (attempts k ++ more) = seqZ 1 (frame s').
Proof.
  intros [N1 N2 N3 N4] [F1 F2] R1 R2. destruct (numbers_app (connection s) (attempts k) more) as [-> ->]. rewrite N1, N2, R1, R2. split.
  - replace (sequence s') with (sequence s + (sequence s' - sequence s)) at 2 by lia. rewrite seqZ_app by lia. by rewrite (Z.add_comm 1).
  - replace (frame s') with (frame s + (frame s' - frame s)) at 2 by lia. rewrite seqZ_app by lia. by rewrite (Z.add_comm 1).
Qed.

Lemma numbered_other c s s' more l : numbered s s' more → c ≠ connection s →
  record_numbers c (l ++ more) = record_numbers c l ∧ frame_numbers c (l ++ more) = frame_numbers c l.
Proof.
  intros N Hc. destruct (numbers_app c l more) as [-> ->]. destruct (nb_others _ _ _ N c Hc) as [-> ->]. by rewrite !app_nil_r.
Qed.

Lemma sink_ok_count ls k f :
  raw_pool_in_use (f (stats k)) = raw_pool_in_use (stats k) → enqueued (f (stats k)) = enqueued (stats k) →
  consumed (f (stats k)) = consumed (stats k) → overflow (f (stats k)) = overflow (stats k) →
  invalid (f (stats k)) = invalid (stats k) → write_errors (f (stats k)) = write_errors (stats k) →
  sink_ok ls k → sink_ok ls (count_stats f k).
Proof.
  intros F1 F2 F3 F4 F5 F6 [A1 A2 A3 A4 A5 A6 A7 A8 A9 A10 A11]. unfold faults in *.
  split; unfold faults; cbn; rewrite ?F1, ?F2, ?F3, ?F4, ?F5, ?F6; done.
Qed.

(** A session's method, and its last one. *)
Lemma inv_session y i s k s' (keep : bool) :
  inv y → sessions y !! i = Some (Some s) → advances (sink y) s k s' →
  inv (mkSys (if keep then k else count_stats close_session k) (<[i := if keep then Some s' else None]> (sessions y)) (consumer y)).
Proof.
  intros [I1 I2 I3 I4] Hi [A1 A2 (more & Ea & An) A4 A5 A6 A7 A8 A9].
  assert (attempts (if keep then k else count_stats close_session k) = attempts k ∧ tx (if keep then k else count_stats close_session k) = tx k
    ∧ wake (if keep then k else count_stats close_session k) = wake k ∧ claimed (stats (if keep then k else count_stats close_session k)) = claimed (stats k)
    ∧ next_connection (stats (if keep then k else count_stats close_session k)) = next_connection (stats k)) as (K1 & K2 & K3 & K4 & K5) by (by destruct keep).
  split; cbn.
  - destruct keep; [by apply A7|]. apply sink_ok_count; try done. by apply A7.
  - rewrite K4, A6. apply I2.
  - intros c Hc Hw. rewrite K2, K3. destruct (A8 _ I1) as [->|?]; [|by right]. destruct (I3 c Hc Hw); [by left|right; auto].
  - unfold budget, attempted. cbn. rewrite K1, length_insert. intros Hb.
    pose proof (attempted_app _ _ _ Ea) as El. unfold attempted in El.
    destruct I4 as [N1 N2 N3 N4 N5]; [unfold budget, attempted; lia|]. destruct (N3 i s Hi) as (C1 & C2 & C3 & C4).
    specialize (An ltac:(unfold attempted; lia) C2). destruct (numbered_app _ _ _ _ An C2 C3 C4) as [D1 D2].
    pose proof (nb_le _ _ _ An) as Hle. destruct C2 as [C21 C22]. unfold attempted in *.
    split; unfold fits, attempted; cbn; rewrite ?K1, ?Ea, ?length_insert.
    + by rewrite K5, A5.
    + destruct keep; cbn; [by rewrite A4, N2, (live_keep _ _ s)|]. rewrite A4, N2. rewrite <- (live_drop _ _ _ Hi).
      unfold wrapping_add. rewrite Z.mod_small; [lia|]. pose proof (live_length (sessions y)) as Hl. rewrite <- (live_drop _ _ _ Hi) in Hl. lia.
    + intros j t Hj. apply list_lookup_insert_Some in Hj as [(<- & Et & _)|[Hne Hj]].
      * destruct keep; [|done]. injection Et as <-. rewrite A1. split; [done|]. rewrite length_app. split; [lia|done].
      * destruct (N3 j t Hj) as (B1 & [B2 B2'] & B3 & B4). unfold attempted in *. rewrite length_app. split; [done|]. split; [lia|].
        assert (connection t ≠ connection s) as Hn by (rewrite B1, C1; lia).
        destruct (numbered_other _ _ _ _ (attempts (sink y)) An Hn) as [-> ->]. done.
    + intros c. destruct (decide (c = connection s)) as [->|Hn]; [by exists (sequence s'), (frame s')|].
      destruct (numbered_other _ _ _ _ (attempts (sink y)) An Hn) as [-> ->]. apply N4.
    + intros c Hc. assert (c ≠ connection s) as Hn. { rewrite C1. apply lookup_lt_Some in Hi. lia. }
      destruct (numbered_other _ _ _ _ (attempts (sink y)) An Hn) as [-> ->]. by apply N5.
Qed.

Lemma advances_routes k s kept rs : advances k s (add_routes k kept rs).1 s.
Proof.
  revert k kept. induction rs as [|r rs IH]; intros k kept; cbn; [apply advances_refl|].
  destruct (List.find _ kept); [case_bool_decide|destruct (length kept <? TOKEN_CAPACITY)%nat]; try apply IH;
    (eapply advances_trans; [apply advances_invalid|apply IH]).
Qed.

Lemma session_spec k rs now :
  ∃ s0, connection s0 = next_connection (stats k) +w 1 ∧ sequence s0 = 0 ∧ frame s0 = 0
    ∧ advances (count_stats open_session k) s0 (session k rs now).1 (session k rs now).2.
Proof.
  unfold session. destruct (add_routes (count_stats open_session k) [] rs) as [k1 rs1] eqn:E.
  eexists (mkSession _ 0 0 rs1 (Z.max now 1)). split; [done|]. split; [done|]. split; [done|].
  eapply advances_trans; [|apply advances_control]. replace k1 with (add_routes (count_stats open_session k) [] rs).1 by (by rewrite E).
  apply advances_routes.
Qed.

Lemma inv_open y rs now :
  inv y → inv (mkSys (session (sink y) rs now).1 (sessions y ++ [Some (session (sink y) rs now).2]) (consumer y)).
Proof.
  intros [I1 I2 I3 I4]. destruct (session_spec (sink y) rs now) as (s0 & Ec & Es & Ef & [A1 A2 (more & Ea & An) A4 A5 A6 A7 A8 A9]).
  destruct (session (sink y) rs now) as [k s']. cbn in *.
  assert (sink_ok (lines_of y) (count_stats open_session (sink y))) as Hk by (by apply sink_ok_count).
  split; cbn.
  - by apply A7.
  - rewrite A6. apply I2.
  - intros c Hc Hw. destruct (A8 _ Hk) as [->|?]; [|by right]. destruct (I3 c Hc Hw); [by left|right; auto].
  - unfold budget, attempted. cbn. rewrite length_app. cbn. intros Hb.
    assert (length (attempts k) = length (attempts (sink y)) + length more)%nat as El by (by rewrite Ea, length_app).
    destruct I4 as [N1 N2 N3 N4 N5]; [unfold budget, attempted; lia|].
    assert (connection s0 = Z.of_nat (length (sessions y)) + 1) as Ec' by (rewrite Ec, N1; apply add_one_small; lia).
    assert (fits (count_stats open_session (sink y)) s0) as Hfit by (unfold fits, attempted; cbn; lia).
    specialize (An ltac:(unfold attempted; lia) Hfit). destruct (N5 (connection s0) ltac:(lia)) as [R1 R2].
    destruct (numbered_app _ _ _ _ An Hfit) as [D1 D2]; [by rewrite Es|by rewrite Ef|]. cbn in D1, D2.
    pose proof (nb_le _ _ _ An) as Hle.
    split; unfold fits, attempted; cbn; rewrite ?Ea, ?length_app; cbn.
    + rewrite A5, N1, add_one_small; lia.
    + rewrite A4, N2, live_snoc, add_one_small; [lia|]. pose proof (live_length (sessions y)). lia.
    + intros j t Hj. apply lookup_snoc_Some in Hj as [[Hlt Hj]|[-> [= <-]]].
      * destruct (N3 j t Hj) as (B1 & [B2 B2'] & B3 & B4). unfold attempted in *. split; [done|]. split; [lia|].
        assert (connection t ≠ connection s0) as Hn by (rewrite B1, Ec'; lia).
        destruct (numbered_other _ _ _ _ (attempts (sink y)) An Hn) as [-> ->]. done.
      * rewrite A1. split; [lia|]. split; [lia|done].
    + intros c. destruct (decide (c = connection s0)) as [->|Hn]; [by exists (sequence s'), (frame s')|].
      destruct (numbered_other _ _ _ _ (attempts (sink y)) An Hn) as [-> ->]. apply N4.
    + intros c Hc. assert (c ≠ connection s0) as Hn by lia.
      destruct (numbered_other _ _ _ _ (attempts (sink y)) An Hn) as [-> ->]. apply N5. lia.
Qed.

(** A method of the consumer, which is not waiting. *)
Lemma inv_consumer y c k c' :
  inv y → consumer y = Some c → waiting c = false → (sink_ok (lines c) (sink y) → serves (sink y) c k c') →
  inv (mkSys k (sessions y) (Some c')).
Proof.
  intros [I1 I2 I3 I4] Hc Hw Hs. unfold lines_of in I1. rewrite Hc in I1. destruct (Hs I1) as [(n & Ea) S2 S3 S4 S5 S6].
  split; cbn.
  - by apply S5.
  - intros _. rewrite S4. by apply I2.
  - intros c1 [= <-] Hw'. congruence.
  - unfold budget, attempted. cbn. intros Hb. pose proof (attempted_app _ _ _ Ea) as El. unfold attempted in El.
    destruct I4 as [N1 N2 N3 N4 N5]; [unfold budget, attempted; lia|].
    assert (∀ c, record_numbers c (attempts k) = record_numbers c (attempts (sink y)) ∧ frame_numbers c (attempts k) = frame_numbers c (attempts (sink y))) as En.
    { intros d. rewrite Ea. destruct (numbers_app d (attempts (sink y)) (replicate n None)) as [-> ->].
      destruct (numbers_none d n) as [-> ->]. by rewrite !app_nil_r. }
    split; cbn.
    + by rewrite S3.
    + by rewrite S2.
    + intros i s Hi. destruct (N3 i s Hi) as (B1 & [B2 B2'] & B3 & B4). destruct (En (connection s)) as [-> ->].
      split; [done|]. split; [|done]. unfold fits, attempted in *. lia.
    + intros d. destruct (En d) as [-> ->]. apply N4.
    + intros d Hd. destruct (En d) as [-> ->]. by apply N5.
Qed.

Lemma fill_spec n pool :
  (n + length (ch_content pool) <= ch_capacity pool)%nat →
  ch_content (fill n pool) = ch_content pool ++ replicate n [] ∧ ch_capacity (fill n pool) = ch_capacity pool.
Proof.
  revert pool. induction n as [|n IH]; intros pool Hn; cbn; [by rewrite app_nil_r|].
  destruct (ch_send_cases pool []) as [(p & -> & _ & Ec & Eq)|[-> Hf]]; [|lia]. cbn.
  destruct (IH p) as [-> ->]; [rewrite Ec, Eq, length_app; cbn; lia|]. rewrite Ec, Eq. by rewrite <- (assoc_L (++)).
Qed.

Lemma inv_new : inv (mkSys new [] None).
Proof.
  assert (0 < RAW_POOL_CAPACITY)%nat as Hpool by (unfold RAW_POOL_CAPACITY; lia).
  destruct (fill_spec RAW_POOL_CAPACITY (ch_new RAW_POOL_CAPACITY)) as [Ef Eq].
  { rewrite ch_new_content, ch_new_capacity by done. cbn [length]. lia. }
  rewrite ch_new_content in Ef by done. rewrite ch_new_capacity in Eq by done.
  assert (0 < BOOK_PROTOCOL_CAPACITY)%nat as Hcap by (unfold BOOK_PROTOCOL_CAPACITY; lia).
  split; cbn; try done.
  - split; cbn -[fill BOOK_PROTOCOL_CAPACITY]; rewrite ?ch_new_content, ?ch_new_capacity, ?Ef, ?Eq by (done || lia); cbn -[BOOK_PROTOCOL_CAPACITY]; try done; try lia. by repeat constructor.
  - intros _. split; cbn; try done. intros c. by exists 0, 0.
Qed.

Lemma lane_reachable_inv y : reachable y → inv y.
Proof.
  induction 1 as [|y e y' _ Hi E]; [apply inv_new|].
  assert (∀ i f, (∀ s, advances (sink y) s (f (sink y) s).1 (f (sink y) s).2) → on_session y i f true = Some y' → inv y') as Hsess.
  { intros i f Hf. unfold on_session. destruct (sessions y !! i) as [[s|]|] eqn:Es; try done. specialize (Hf s).
    destruct (f (sink y) s) as [k s']. intros [= <-]. apply (inv_session y i s k s' true Hi Es Hf). }
  assert (∀ f, (∀ c, sink_ok (lines c) (sink y) → serves (sink y) c (f (sink y) c).1.1 (f (sink y) c).1.2) →
    on_consumer y (busy f) = Some y' → inv y') as Hcons.
  { intros f Hf. unfold on_consumer, busy. destruct (consumer y) as [c|] eqn:Ec; [|done]. destruct (waiting c) eqn:Ew; [done|].
    specialize (Hf c). destruct (f (sink y) c) as [[k c'] b]. cbn. intros [= <-]. by eapply inv_consumer. }
  destruct e as [rs now|i text now role|i tok kd wire sq pv rt sn now h|i reason now|i now|i now| |limit opened oks|flushed|flushed|ready|w]; cbn in E.
  - pose proof (inv_open y rs now Hi) as Ho. destruct (session (sink y) rs now). by injection E as <-.
  - eapply (Hsess i); [|exact E]. intros s. apply advances_capture.
  - eapply (Hsess i); [|exact E]. intros s. apply advances_record.
  - eapply (Hsess i); [|exact E]. intros s. apply advances_gap.
  - eapply (Hsess i); [|exact E]. intros s. apply advances_invalid_frame.
  - unfold on_session in E. destruct (sessions y !! i) as [[s|]|] eqn:Es; try done. unfold drop_session in E.
    pose proof (advances_gap (sink y) s "ws_session_closed_or_retired" now) as Ha. destruct (gap _ _ _ _) as [k s'].
    injection E as <-. apply (inv_session y i s k s' false Hi Es Ha).
  - unfold claim in E. destruct (claimed (stats (sink y))) eqn:Ecl; [done|]. injection E as <-.
    destruct Hi as [I1 I2 I3 I4]. destruct (consumer y) eqn:Ec; [by rewrite I2 in Ecl|].
    split; cbn; [|done|by intros c [= <-]|].
    + unfold lines_of in I1. rewrite Ec in I1. by apply sink_ok_count.
    + intros Hb. destruct (I4 Hb) as [N1 N2 N3 N4 N5]. by split.
  - eapply Hcons; [|exact E]. intros c Hk. by apply (serves_drain limit opened (sink y) c oks).
  - eapply Hcons; [|exact E]. intros c _. apply serves_checkpoint.
  - eapply Hcons; [|exact E]. intros c _. apply serves_finish.
  - unfold on_consumer, busy in E. destruct (consumer y) as [c|] eqn:Ec; [|done]. destruct (waiting c) eqn:Ew; [done|]. injection E as <-.
    destruct Hi as [I1 I2 I3 I4]. unfold lines_of in I1. rewrite Ec in I1, I2. split; cbn; [|auto| |].
    + unfold recv_check. destruct ready; [done|]. by destruct (negb _).
    + intros c1 [= <-] Hw. unfold recv_check in Hw. destruct ready; [congruence|].
      destruct (length (ch_content (tx (sink y))) =? 0)%nat eqn:El; cbn in Hw; [|congruence]. left. by apply Nat.eqb_eq, length_zero_iff_nil in El.
    + intros Hb. destruct (I4 Hb) as [N1 N2 N3 N4 N5]. by split.
  - unfold on_consumer, recv_select in E. destruct (consumer y) as [c|] eqn:Ec; [|done]. destruct (waiting c) eqn:Ew; [|done].
    destruct Hi as [I1 I2 I3 I4]. unfold lines_of in I1. rewrite Ec in I1, I2. destruct w; cbn in E.
    + injection E as <-. split; cbn; [done|auto|by intros c1 [= <-]|]. intros Hb. destruct (I4 Hb) as [N1 N2 N3 N4 N5]. by split.
    + destruct (ch_recv_cases (wake (sink y))) as [([] & q & Er & _ & Eq)|[Er _]]; rewrite Er in E; [|done]. injection E as <-.
      split; cbn; [|auto|by intros c1 [= <-]|].
      * destruct I1 as [A1 A2 A3 A4 A5 A6 A7 A8 A9 A10 A11]. split; try done. cbn. congruence.
      * intros Hb. destruct (I4 Hb) as [N1 N2 N3 N4 N5]. by split.
    + injection E as <-. split; cbn; [done|auto|by intros c1 [= <-]|]. intros Hb. destruct (I4 Hb) as [N1 N2 N3 N4 N5]. by split.
Qed.

(** ** Theorems *)

(** What the archive says of a connection: the numbers of its records and of its frames. *)
Definition archived_records (c : Z) (ls : list Line) : list Z :=
  omap (λ l, match l with RecordLine r => if connection_id r =? c then Some (recorder_sequence r) else None | _ => None end) ls.
Definition archived_frames (c : Z) (ls : list Line) : list Z :=
  omap (λ l, match l with FrameLine c' f _ _ _ => if c' =? c then Some f else None | _ => None end) ls.

Lemma archived_numbers c (l : list (option ProtocolMessage)) ls :
  (λ a, line_of <$> a) <$> l = Some <$> ls →
  archived_records c ls = record_numbers c l ∧ archived_frames c ls = frame_numbers c l.
Proof.
  revert ls. induction l as [|a l IH]; intros [|x ls] E; try done. cbn in E. injection E as Ea El. destruct (IH ls El) as [I1 I2].
  unfold archived_records, archived_frames, record_numbers, frame_numbers in *. destruct a as [m|]; [|done]. cbn in Ea.
  injection Ea as <-. destruct m as [r|c' f t role bytes]; cbn; rewrite I1, I2; by repeat case_match.
Qed.


End Lane.

(** ** Runs *)

Fixpoint run (y : Sys (Ch := Buffer)) (es : list Event) : option Sys :=
  match es with [] => Some y | e :: es => match event y e with Some y => run y es | None => None end end.

Definition begun : Sys (Ch := Buffer) := mkSys new [] None.
Definition end_of (es : list Event) : Sys (Ch := Buffer) := default begun (run begun es).

Lemma lane_run_reachable y es y' : reachable y → run y es = Some y' → reachable y'.
Proof.
  revert y. induction es as [|e es IH]; intros y Hy E; cbn in E; [by simplify_eq|].
  destruct (event y e) as [y1|] eqn:Ee; [|done]. eapply IH; [|done]. by econstructor.
Qed.

Lemma lane_end_reachable es : is_Some (run begun es) → reachable (end_of es).
Proof. intros [y E]. unfold end_of. rewrite E. eapply lane_run_reachable; [|done]. constructor. Qed.

(** Two connections, a frame and a book on the first, and a malformed frame at the end of
    the second run. *)
Definition capture : list Event :=
  [Claim; Open [mkRoute "up" "cid" 300] 5; CaptureRaw 0 [123; 125] 6 "active";
   Record 0 "up" Snapshot "book" None None (Some 7) (Some 7000000) 6 (Some "h"); Drain 2 true [];
   Open [mkRoute "down" "cid" 300] 8; CaptureRaw 1 [91; 93] 9 "standby"; Close 0 10; Close 1 11].
Definition whole : list Event := capture ++ [Drain BOOK_PROTOCOL_CAPACITY true []].
Definition spoiled : list Event := [Open [mkRoute "up" "cid" 300] 5; InvalidFrame 0 6; Close 0 7; Claim; Drain BOOK_PROTOCOL_CAPACITY true []].

Definition consumer_of (y : Sys (Ch := Buffer)) : BookProtocolConsumer := default (mkConsumer false false false false [] []) (consumer y).
Abbreviation closing es := (finish_close (sink (end_of es)) (consumer_of (end_of es)) true).

(** What the manifest of a whole capture says, and of one with a malformed frame. *)
Lemma captures_judged :
  (λ m, (m_closed m, m_complete m)) <$> last (manifests (closing whole).1.2) = Some (true, true)
  ∧ archived_records 1 (lines (closing whole).1.2) = [1; 2; 3] ∧ archived_frames 2 (lines (closing whole).1.2) = [1]
  ∧ (λ m, (m_closed m, m_complete m)) <$> last (manifests (closing spoiled).1.2) = Some (true, false).
Proof. vm_compute. done. Qed.

Lemma consumer_some (y : Sys (Ch := Buffer)) : is_Some (consumer y) → consumer y = Some (consumer_of y).
Proof. intros [c E]. unfold consumer_of. by rewrite E. Qed.

Lemma pair_true {A B} (t : A * B * bool) : t.2 = true → t = (t.1.1, t.1.2, true).
Proof. destruct t as [[a b] c]. cbn. by intros ->. Qed.


