(* ===== verification/OrderLedger.v ===== *)
(** The order ownership of an account's instances, from
    [src/crates/hexagent-account/src/account/shared_account.rs]: preparing, reserving,
    registering, restoring, rebinding, releasing and cancelling orders, the availability an
    instance is told, and the reservation of a split or merge.

    This is the code of the lifecycle owner's thread; the counters are the cells of
    [AtomicCell], each operation one step, and the two route maps are the maps that [Routes]
    shows the sharded snapshots to be.  The flags of the gates are those after
    [refresh_trade_persistence_blocker], and every instance of the cold state has its
    account.  Left out: the hop from other threads to the owner, what the persistence worker
    is sent, the hints of recent mutations, the anomalies of private events, the empty quota
    entry that asking for the availability makes, and the orders that only the cold state
    has. *)

From Stdlib Require Import Ascii SpecFloat ssreflect.
From S2P Require Import Prelude F64 Types PrivateExecution AtomicCell.

#[local] Open Scope Z_scope.

(** ** Data *)

Record OrderOwnership := mkOrder {
  inferred_cancel : bool; order_slot : Z; o_account_id : string; instance_id : string; client_order_id : string; order_id : string;
  token_id : string; side : Side; quantity : f64; filled_quantity : f64; terminal_matched_quantity : option f64;
  terminal_trade_ids : list string; terminal_trade_ids_authoritative : bool; price : f64; fee_rate_bps : Z;
  cash_fee_per_share : option f64; o_reserved_cash : f64; o_reserved_quantity : f64; status : OrderStatus
}.

Inductive ReservationError :=
  | AccountNotSeeded | AccountUncertain
  | AccountInstanceBlocked (instance : string) (client_order_ids : list string)
  | PersistenceUnavailable (message : string) | UnknownInstance (instance : string)
  | DuplicateClientOrderId (coid : string) | InvalidOrder (message : string)
  | InsufficientVirtualCash (required available : f64) | InsufficientPhysicalCash (required available : f64)
  | InsufficientVirtualPosition (token : string) (required available : f64)
  | InsufficientPhysicalPosition (token : string) (required available : f64).

Record Quota := mkQuota { balance : f64; reserved : f64 }.

(** [VirtualAccount] with the order rows of its lifecycle. *)
Record Account := mkAccount {
  cash : f64; reserved_cash : f64; maintenance_reserved_cash : f64;
  positions : gmap string Quota; maintenance_reserved_positions : gmap string f64;
  orders : gmap string OrderOwnership;
  routine_cancel_audits : gset string; recovery_pending_orders : gset string; startup_query_repair_orders : gset string;
  reservation_epoch : Z; trade_epoch : Z
}.

Inductive MaintenanceOperationKind := Split | Merge.

(** A pending operation with its intent; its progress is left out. *)
Record MaintenanceOperation := mkOperation {
  kind : MaintenanceOperationKind; condition_id : string; up_token_id : string; down_token_id : string; allocations : gmap string f64
}.

(** What the cold state holds of an instance besides what it refreshes from the account: the
    reservations of orders as the lifecycle owner last mirrored them. *)
Record Mirror := mkMirror { mirror_cash : f64; mirror_positions : gmap string f64 }.

(** [SharedAccount]: the flags of the gates, the instances' accounts, the two route maps, and
    of the cold state the instances in key order with their mirrors, the wallet, the pending
    operations and the keys of the ownership anomalies. *)
Record Ledger := mkLedger {
  account_id : string; seeded_fast : bool; admission_fast : bool; passive_admission_fast : bool; persistence_failed : bool;
  accounts : gmap string Account;
  coid_routes : gmap string string; oid_routes : gmap (list Z) string;
  seeded : bool; uncertain : bool; instances : list (string * Mirror);
  physical_cash : f64; physical_positions : gmap string f64;
  maintenance_ops : gmap string MaintenanceOperation; ownership_anomalies : gset string
}.

Definition normalize_order_id (s : string) : list Z :=
  let t := trim (String.list_ascii_of_string s) in
  to_ascii_lowercase <$> match strip_prefix hex0x t with Some r => r | None => match strip_prefix hex0X t with Some r => r | None => t end end.

Definition is_empty (s : string) : bool := String.eqb s "".
Definition positive (x : f64) : bool := is_finite x && negb (f64_le x f64_zero).

(** [quantity * price * (1.0 + fee_rate_bps as f64 / 10_000.0)]. *)
Definition fee_share (bps : Z) : f64 := f64_div (f64_of_Z bps) (f64_of_Z 10000).
Definition buy_cost (quantity price : f64) (bps : Z) : f64 := f64_mul (f64_mul quantity price) (f64_add f64_one (fee_share bps)).
Definition fee_per_share (sd : Side) (price : f64) (bps : Z) : f64 :=
  match sd with Buy => f64_div (f64_mul price (f64_of_Z bps)) (f64_of_Z 10000) | Sell => f64_zero end.

Definition cost_of (sd : Side) (quantity price : f64) (bps : Z) : f64 := match sd with Buy => buy_cost quantity price bps | Sell => f64_zero end.
Definition shares_of (sd : Side) (quantity : f64) : f64 := match sd with Sell => quantity | Buy => f64_zero end.

Definition fresh_order (account slot_owner coid oid token : string) (sd : Side) (qty px : f64) (bps slot : Z) : OrderOwnership :=
  mkOrder false slot account slot_owner coid oid token sd qty f64_zero None [] false px bps (Some (fee_per_share sd px bps))
          (cost_of sd qty px bps) (shares_of sd qty) Pending.

(** ** Preparing an order *)

Definition prepare_order_ownership_in_slot (l : Ledger) (instance coid oid token : string) (sd : Side) (qty px : f64) (bps slot : Z)
    : ReservationError + OrderOwnership :=
  if is_empty instance || is_empty coid || is_empty oid || is_empty token || negb (positive qty) || negb (positive px)
  then inl (InvalidOrder "instance/coid/oid/token must be present and quantity/price must be positive")
  else if negb (is_finite (cost_of sd qty px bps)) then inl (InvalidOrder "order reservation is not finite")
  else inr (fresh_order (account_id l) instance coid oid token sd qty px bps slot).

Definition prepare_order_ownership (l : Ledger) (instance coid oid token : string) (sd : Side) (qty px : f64) (bps : Z) :=
  prepare_order_ownership_in_slot l instance coid oid token sd qty px bps OrderSlot.UNASSIGNED.

(** ** Accounts *)

Definition virtual_account (l : Ledger) (instance : string) : option Account := accounts l !! instance.
Definition virtual_account_for_coid (l : Ledger) (coid : string) : option (string * Account) :=
  match coid_routes l !! coid with Some i => (λ a, (i, a)) <$> accounts l !! i | None => None end.

(** [account.position(token)]: the entry is made when there is none. *)
Definition position (a : Account) (token : string) : Quota := default (mkQuota f64_zero f64_zero) (positions a !! token).
Definition set_position (a : Account) (token : string) (q : Quota) : Account := a <| positions := <[token := q]> (positions a) |>.
Definition set_account (l : Ledger) (instance : string) (a : Account) : Ledger := l <| accounts := <[instance := a]> (accounts l) |>.

Definition adjust_reservation (a : Account) (token : string) (cash_delta position_delta : f64) : Account :=
  let a := if f64_gt (f64_abs cash_delta) EPS then a <| reserved_cash := added (reserved_cash a) cash_delta |> else a in
  if f64_gt (f64_abs position_delta) EPS
  then let q := position a token in set_position a token (q <| reserved := added (reserved q) position_delta |>)
  else a.

(** [try_reserve] as one step: the new value of the counter, or what is available. *)
Definition try_reserve (current limit amount : f64) : f64 + f64 :=
  match atomically (TryReserve amount) limit current with
  | (_, Refused available) => inl available
  | (next, _) => inr next
  end.

(** ** Admission *)

Definition admitted (l : Ledger) (allow_fee_degraded : bool) : bool := if allow_fee_degraded then passive_admission_fast l else admission_fast l.

Record AccountAvailability := mkAvailability {
  virtual_cash : f64; av_physical_cash : f64; effective_cash : f64;
  virtual_position : f64; av_physical_position : f64; effective_position : f64
}.

Definition mkAvailable (c p : f64) : AccountAvailability := mkAvailability c c c p p p.

Definition availability_with_fee_policy (l : Ledger) (instance token : string) (allow_fee_degraded : bool) : option AccountAvailability :=
  match virtual_account l instance with
  | None => None
  | Some a =>
      if persistence_failed l || negb (admitted l allow_fee_degraded) then Some (mkAvailable f64_zero f64_zero)
      else
        let q := position a token in
        let maintenance := default f64_zero (maintenance_reserved_positions a !! token) in
        Some (mkAvailable (f64_max (f64_sub (f64_sub (cash a) (reserved_cash a)) (maintenance_reserved_cash a)) f64_zero)
                          (f64_max (f64_sub (f64_sub (balance q) (reserved q)) maintenance) f64_zero))
  end.

(** The two counters of an order, all or nothing. *)
Definition reserve_counters (a : Account) (token : string) (reserve_cash reserve_qty : f64) : Account * option ReservationError :=
  let cash_step :=
    if f64_gt reserve_cash f64_zero
    then match try_reserve (reserved_cash a) (cash a) reserve_cash with
         | inl available => inl (InsufficientVirtualCash reserve_cash available)
         | inr next => inr (a <| reserved_cash := next |>)
         end
    else inr a in
  match cash_step with
  | inl e => (a, Some e)
  | inr a =>
      if f64_gt reserve_qty f64_zero then
        let q := position a token in
        let a := set_position a token q in
        match try_reserve (reserved q) (balance q) reserve_qty with
        | inl available =>
            ((if f64_gt reserve_cash f64_zero then a <| reserved_cash := added (reserved_cash a) (f64_neg reserve_cash) |> else a),
             Some (InsufficientVirtualPosition token reserve_qty available))
        | inr next => (set_position a token (q <| reserved := next |>), None)
        end
      else (a, None)
  end.

(** A new row and its two routes. *)
Definition install (l : Ledger) (instance : string) (a : Account) (o : OrderOwnership) : Ledger :=
  (set_account l instance (a <| orders := <[client_order_id o := o]> (orders a) |> <| reservation_epoch := reservation_epoch a +w 1 |>))
    <| coid_routes := <[client_order_id o := instance]> (coid_routes l) |>
    <| oid_routes := <[normalize_order_id (order_id o) := instance]> (oid_routes l) |>.

Definition reserve_order_with_fee_policy (l : Ledger) (instance coid oid token : string) (sd : Side) (qty px : f64) (bps : Z)
    (allow_fee_degraded : bool) : Ledger * (ReservationError + OrderOwnership) :=
  if is_empty coid || is_empty oid || is_empty token || negb (positive qty) || negb (positive px)
  then (l, inl (InvalidOrder "coid/oid/token must be present and quantity/price must be positive"))
  else if negb (seeded_fast l) then (l, inl AccountNotSeeded)
  else if negb (admitted l allow_fee_degraded) then (l, inl AccountUncertain)
  else
    match virtual_account l instance with
    | None => (l, inl (UnknownInstance instance))
    | Some a =>
        let normalized := normalize_order_id oid in
        match orders a !! coid with
        | Some existing =>
            if bool_decide (normalize_order_id (order_id existing) = normalized) && String.eqb (instance_id existing) instance
            then (l, inr existing) else (l, inl (DuplicateClientOrderId coid))
        | None =>
            if bool_decide (is_Some (coid_routes l !! coid)) then (l, inl (DuplicateClientOrderId coid))
            else if bool_decide (is_Some (oid_routes l !! normalized)) then (l, inl (InvalidOrder (String.append "order_id `" (String.append oid "` is already owned by another order"))))
            else
              let o := fresh_order (account_id l) instance coid oid token sd qty px bps OrderSlot.UNASSIGNED in
              match reserve_counters a token (cost_of sd qty px bps) (shares_of sd qty) with
              | (a, Some e) => (set_account l instance a, inl e)
              | (a, None) => (install l instance a o, inr o)
              end
        end
    end.

Definition reserve_order (l : Ledger) (instance coid oid token : string) (sd : Side) (qty px : f64) (bps : Z) :=
  reserve_order_with_fee_policy l instance coid oid token sd qty px bps false.
Definition reserve_passive_order (l : Ledger) (instance coid oid token : string) (sd : Side) (qty px : f64) (bps : Z) :=
  reserve_order_with_fee_policy l instance coid oid token sd qty px bps true.

(** ** Registration and restoration *)

Definition reservation_cash_per_share (o : OrderOwnership) : f64 :=
  f64_add (price o) (default (f64_div (f64_mul (price o) (f64_of_Z (fee_rate_bps o))) (f64_of_Z 10000)) (cash_fee_per_share o)).

Definition desired_order_reservation (o : OrderOwnership) : f64 * f64 :=
  if inferred_cancel o then (f64_zero, f64_zero)
  else
    let target := f64_min (default (quantity o) (terminal_matched_quantity o)) (quantity o) in
    let remaining := f64_max (f64_sub target (filled_quantity o)) f64_zero in
    match side o with
    | Buy => (f64_mul remaining (reservation_cash_per_share o), f64_zero)
    | Sell => (f64_zero, remaining)
    end.

Definition nonnegative (x : f64) : bool := is_finite x && negb (f64_lt x f64_zero).
Definition near (x y : f64) : bool := negb (f64_gt (f64_abs (f64_sub x y)) EPS).

(** The shape a prepared row has to have. *)
Definition prepared (l : Ledger) (o : OrderOwnership) : bool :=
  String.eqb (o_account_id o) (account_id l) && negb (is_empty (client_order_id o)) && negb (is_empty (order_id o)) && negb (is_empty (token_id o))
  && bool_decide (status o = Pending) && f64_eq (filled_quantity o) f64_zero && bool_decide (terminal_matched_quantity o = None)
  && bool_decide (terminal_trade_ids o = []) && negb (terminal_trade_ids_authoritative o)
  && positive (quantity o) && positive (price o) && nonnegative (o_reserved_cash o) && nonnegative (o_reserved_quantity o).

Definition same_order (existing o : OrderOwnership) : bool :=
  String.eqb (o_account_id existing) (o_account_id o) && String.eqb (instance_id existing) (instance_id o)
  && bool_decide (normalize_order_id (order_id existing) = normalize_order_id (order_id o)) && String.eqb (token_id existing) (token_id o)
  && bool_decide (side existing = side o) && (order_slot existing =? order_slot o) && f64_eq (quantity existing) (quantity o)
  && f64_eq (price existing) (price o) && (fee_rate_bps existing =? fee_rate_bps o)
  && match cash_fee_per_share existing, cash_fee_per_share o with
     | Some x, Some y => f64_eq x y
     | None, None => true
     | _, _ => false
     end.

Definition register_prepared_order (l : Ledger) (o : OrderOwnership) : Ledger * option OrderOwnership :=
  let '(cash, quantity) := desired_order_reservation o in
  if negb (prepared l o) then (l, None)
  else if negb (is_finite cash) || negb (is_finite quantity) || negb (near cash (o_reserved_cash o)) || negb (near quantity (o_reserved_quantity o))
  then (l, None)
  else
    match virtual_account l (instance_id o) with
    | None => (l, None)
    | Some a =>
        match orders a !! client_order_id o with
        | Some existing => (l, if same_order existing o then Some existing else None)
        | None =>
            if bool_decide (is_Some (coid_routes l !! client_order_id o)) || bool_decide (is_Some (oid_routes l !! normalize_order_id (order_id o)))
            then (l, None)
            else (install l (instance_id o) (adjust_reservation a (token_id o) (o_reserved_cash o) (o_reserved_quantity o)) o, Some o)
        end
    end.

(** [ensure_at_least] as one step. *)
Definition ensure_at_least (current minimum : f64) : f64 := (atomically (EnsureAtLeast minimum) f64_zero current).1.

Section Backfill.
(** The order in which [HashMap::values] visits the rows. *)
Context (values : gmap string OrderOwnership → list OrderOwnership).

Definition backfill_order_ownership (l : Ledger) (o : OrderOwnership) : Ledger * option OrderOwnership :=
  if negb (String.eqb (o_account_id o) (account_id l)) || is_empty (client_order_id o) || is_empty (order_id o) then (l, None)
  else
    match virtual_account l (instance_id o) with
    | None => (l, None)
    | Some a =>
        let normalized := normalize_order_id (order_id o) in
        let existing := orders a !! client_order_id o in
        let elsewhere owner := match owner with Some i => negb (String.eqb i (instance_id o)) | None => false end in
        if match existing with
           | Some e => negb (bool_decide (normalize_order_id (order_id e) = normalized)) || negb (String.eqb (instance_id e) (instance_id o))
           | None => false
           end then (l, None)
        else if elsewhere (coid_routes l !! client_order_id o) || elsewhere (oid_routes l !! normalized) then (l, None)
        else
          match existing with
          | Some e =>
              (l <| coid_routes := <[client_order_id o := instance_id o]> (coid_routes l) |>
                 <| oid_routes := <[normalized := instance_id o]> (oid_routes l) |>, Some e)
          | None =>
              let rows := values (<[client_order_id o := o]> (orders a)) in
              let a := a <| reserved_cash := ensure_at_least (reserved_cash a) (f64_sum (o_reserved_cash <$> rows)) |> in
              let q := position a (token_id o) in
              let minimum := f64_sum (o_reserved_quantity <$> filter (λ r, String.eqb (token_id r) (token_id o) = true) rows) in
              (install l (instance_id o) (set_position a (token_id o) (q <| reserved := ensure_at_least (reserved q) minimum |>)) o, Some o)
          end
    end.
End Backfill.

(** ** Rebinding, release, inferred cancellation *)

(** [record_virtual_trade_mutation] advances the epoch; its hints are left out. *)
Definition mutated (a : Account) : Account := a <| trade_epoch := trade_epoch a +w 1 |>.

Definition record_order_binding_anomaly (l : Ledger) (coid : string) : Ledger :=
  l <| ownership_anomalies := {[ String.append "order_binding:" coid ]} ∪ ownership_anomalies l |> <| uncertain := true |>.

(** [None] when no account is routed: the code goes on with the rows of the cold state. *)
Definition rebind_order_id (l : Ledger) (coid oid : string) : Ledger * option bool :=
  if is_empty coid || is_empty oid then (l, Some false)
  else
    match virtual_account_for_coid l coid with
    | None => (l, None)
    | Some (i, a) =>
        match orders a !! coid with
        | None => (record_order_binding_anomaly l coid, Some false)
        | Some o =>
            let normalized := normalize_order_id oid in
            let normalized_old := normalize_order_id (order_id o) in
            if bool_decide (normalized_old = normalized) then (l, Some true)
            else
              let conflicts := existsb (λ '(c, r), negb (String.eqb c coid) && bool_decide (normalize_order_id (order_id r) = normalized)) (map_to_list (orders a)) in
              let routed_elsewhere := match oid_routes l !! normalized with Some owner => negb (String.eqb owner i) | None => false end in
              if conflicts || routed_elsewhere then (record_order_binding_anomaly l coid, Some false)
              else
                ((set_account l i (mutated (a <| orders := <[coid := o <| order_id := oid |>]> (orders a) |>)))
                   <| oid_routes := delete normalized_old (<[normalized := i]> (oid_routes l)) |>, Some true)
        end
    end.

Definition released (o : OrderOwnership) (st : OrderStatus) : OrderOwnership :=
  o <| o_reserved_cash := f64_zero |> <| o_reserved_quantity := f64_zero |> <| status := st |>.

Definition give_back (a : Account) (o : OrderOwnership) : Account :=
  adjust_reservation a (token_id o) (f64_neg (o_reserved_cash o)) (f64_neg (o_reserved_quantity o)).

Definition release_order (l : Ledger) (coid : string) (st : OrderStatus) : Ledger :=
  match virtual_account_for_coid l coid with
  | None => l
  | Some (i, a) =>
      match orders a !! coid with
      | None => l
      | Some o =>
          let a := give_back a o in
          set_account l i (mutated (a <| orders := <[coid := released o st]> (orders a) |>
                                      <| routine_cancel_audits := routine_cancel_audits a ∖ {[coid]} |>))
      end
  end.

Definition release_all_orders (l : Ledger) (keys : list string) : Ledger :=
  fold_left (λ l coid, release_order l coid Cancelled) keys l.

Definition infer_null_cancellation (l : Ledger) (expected : OrderOwnership) : Ledger * (string + OrderOwnership) :=
  let coid := client_order_id expected in
  match virtual_account_for_coid l coid with
  | None => (l, inl "inferred cancel owner missing"%string)
  | Some (i, a) =>
      match orders a !! coid with
      | None => (l, inl "inferred cancel order missing"%string)
      | Some o =>
          if negb (String.eqb (o_account_id o) (o_account_id expected)) || negb (String.eqb (instance_id o) (instance_id expected))
             || negb (String.eqb (order_id o) (order_id expected)) || is_empty (order_id o) || negb (order_slot o =? order_slot expected)
             || negb (String.eqb (token_id o) (token_id expected)) || negb (bool_decide (side o = side expected))
             || negb (f64_eq (quantity o) (quantity expected)) || negb (f64_eq (price o) (price expected))
          then (l, inl "inferred cancel identity changed"%string)
          else
            match status o with
            | Filled | Failed | Rejected | ExecutorRejected => (l, inr o)
            | _ =>
                let o' := (released o Cancelled) <| inferred_cancel := true |> in
                let a := give_back a o in
                (set_account l i (mutated (a <| orders := <[coid := o']> (orders a) |>
                                            <| routine_cancel_audits := routine_cancel_audits a ∖ {[coid]} |>
                                            <| recovery_pending_orders := recovery_pending_orders a ∖ {[coid]} |>
                                            <| startup_query_repair_orders := startup_query_repair_orders a ∖ {[coid]} |>)), inr o')
            end
      end
  end.

(** ** Maintenance reservations *)

(** The scoped view of an instance under [lock_economic_state]: balances and maintenance
    reservations are read from the account, the reservations of orders are the mirror's. *)
Record View := mkView {
  v_cash : f64; v_reserved_cash : f64; v_maintenance_cash : f64;
  v_position : string → f64; v_reserved_position : string → f64; v_maintenance_position : string → f64
}.

Definition view (a : Account) (m : Mirror) : View :=
  mkView (cash a) (mirror_cash m) (maintenance_reserved_cash a)
         (λ t, default f64_zero (balance <$> positions a !! t)) (λ t, default f64_zero (mirror_positions m !! t))
         (λ t, default f64_zero (maintenance_reserved_positions a !! t)).

Definition total_reserved_cash (v : View) : f64 := f64_add (v_reserved_cash v) (v_maintenance_cash v).
Definition total_reserved_position (v : View) (token : string) : f64 := f64_add (v_reserved_position v token) (v_maintenance_position v token).

Definition views (l : Ledger) : list (string * View) :=
  omap (λ '(i, m), (λ a, (i, view a m)) <$> accounts l !! i) (instances l).

Definition instance_view (l : Ledger) (i : string) : option View := snd <$> find (λ e, String.eqb e.1 i) (views l).

(** Every allocation against one resource, in order: the first that does not fit fails. *)
Fixpoint check_allocations (l : Ledger) (left_of : View → f64) (short : f64 → f64 → ReservationError) (allocs : list (string * f64)) : option ReservationError :=
  match allocs with
  | [] => None
  | (i, amount) :: rest =>
      match instance_view l i with
      | None => Some (UnknownInstance i)
      | Some v => if f64_gt amount (f64_add (left_of v) EPS) then Some (short amount (left_of v)) else check_allocations l left_of short rest
      end
  end.

Definition check_split (l : Ledger) (allocs : list (string * f64)) : option ReservationError :=
  let total := f64_sum (snd <$> allocs) in
  let available := f64_max (f64_sub (physical_cash l) (f64_sum ((λ e, total_reserved_cash e.2) <$> views l))) f64_zero in
  if f64_gt total (f64_add available EPS) then Some (InsufficientPhysicalCash total available)
  else check_allocations l (λ v, f64_max (f64_sub (v_cash v) (total_reserved_cash v)) f64_zero) InsufficientVirtualCash allocs.

Definition check_merge (l : Ledger) (allocs : list (string * f64)) (token : string) : option ReservationError :=
  let total := f64_sum (snd <$> allocs) in
  let available :=
    f64_max (f64_sub (default f64_zero (physical_positions l !! token)) (f64_sum ((λ e, total_reserved_position e.2 token) <$> views l))) f64_zero in
  if f64_gt total (f64_add available EPS) then Some (InsufficientPhysicalPosition token total available)
  else check_allocations l (λ v, f64_max (f64_sub (v_position v token) (total_reserved_position v token)) f64_zero) (InsufficientVirtualPosition token) allocs.

(** What the guard publishes when it is dropped: the difference to what it read. *)
Definition publish_cash (amount : f64) (a : Account) : Account :=
  let before := maintenance_reserved_cash a in
  let delta := f64_sub (f64_add before amount) before in
  if f64_gt (f64_abs delta) EPS then a <| maintenance_reserved_cash := added before delta |> else a.

Definition publish_position (token : string) (after_of : f64 → f64) (a : Account) : Account :=
  let before := default f64_zero (maintenance_reserved_positions a !! token) in
  let delta := f64_sub (after_of before) before in
  if f64_gt (f64_abs delta) EPS
  then a <| maintenance_reserved_positions := <[token := f64_max (f64_add before delta) f64_zero]> (maintenance_reserved_positions a) |> else a.

Definition publish_merge (up down : string) (amount : f64) (a : Account) : Account :=
  if String.eqb up down then publish_position up (λ x, f64_add (f64_add x amount) amount) a
  else publish_position down (λ x, f64_add x amount) (publish_position up (λ x, f64_add x amount) a).

Definition publish_allocations (f : f64 → Account → Account) (allocs : list (string * f64)) (accs : gmap string Account) : gmap string Account :=
  fold_left (λ accs '(i, amount), alter (f amount) i accs) allocs accs.

(** [f64] equality of two maps of amounts. *)
Definition same_allocations (m m' : gmap string f64) : bool :=
  bool_decide (dom m = dom m') && forallb (λ '(k, x), match m' !! k with Some y => f64_eq x y | None => false end) (map_to_list m).

Definition same_intent (existing op : MaintenanceOperation) : bool :=
  match kind existing, kind op with Split, Split | Merge, Merge => true | _, _ => false end
  && String.eqb (condition_id existing) (condition_id op) && String.eqb (up_token_id existing) (up_token_id op)
  && String.eqb (down_token_id existing) (down_token_id op) && same_allocations (allocations existing) (allocations op).

(** [audit_blocker] is the refusal of an instance whose orders are under audit, if any.  The
    allocations come in the order in which their map visits them. *)
Definition reserve_maintenance_operation (l : Ledger) (audit_blocker : option ReservationError) (operation_id : string)
    (k : MaintenanceOperationKind) (condition up down : string) (allocs : list (string * f64)) : Ledger * option ReservationError :=
  if is_empty operation_id || is_empty condition || is_empty up || is_empty down || bool_decide (allocs = [])
     || existsb (λ '(_, amount), negb (positive amount)) allocs
  then (l, Some (InvalidOrder "invalid maintenance operation identity/tokens/allocations"))
  else
    let op := mkOperation k condition up down (list_to_map allocs) in
    match maintenance_ops l !! operation_id with
    | Some existing =>
        (l, if same_intent existing op then None
            else Some (InvalidOrder (String.append "maintenance operation id `" (String.append operation_id "` was reused with different intent"))))
    | None =>
        if negb (seeded l) then (l, Some AccountNotSeeded)
        else if uncertain l then (l, Some AccountUncertain)
        else
          match audit_blocker with
          | Some e => (l, Some e)
          | None =>
              let refused :=
                match k with
                | Split => check_split l allocs
                | Merge => match check_merge l allocs up with Some e => Some e | None => check_merge l allocs down end
                end in
              match refused with
              | Some e => (l, Some e)
              | None =>
                  let publish := match k with Split => publish_cash | Merge => publish_merge up down end in
                  (l <| accounts := publish_allocations publish allocs (accounts l) |>
                     <| maintenance_ops := <[operation_id := op]> (maintenance_ops l) |>, None)
              end
          end
    end.

(** ** Histories *)

Inductive Event :=
  | ReserveOrder (instance coid oid token : string) (sd : Side) (qty px : f64) (bps : Z) (passive : bool)
  | RegisterOrder (o : OrderOwnership)
  | BackfillOrder (o : OrderOwnership)
  | RebindOrder (coid oid : string)
  | ReleaseOrder (coid : string) (st : OrderStatus)
  | InferCancel (expected : OrderOwnership)
  | ReserveMaintenance (blocker : option ReservationError) (operation_id : string) (k : MaintenanceOperationKind) (condition up down : string)
      (allocs : list (string * f64)).

Definition event (values : gmap string OrderOwnership → list OrderOwnership) (l : Ledger) (e : Event) : Ledger :=
  match e with
  | ReserveOrder i c x t sd q p b passive => (reserve_order_with_fee_policy l i c x t sd q p b passive).1
  | RegisterOrder o => (register_prepared_order l o).1
  | BackfillOrder o => (backfill_order_ownership values l o).1
  | RebindOrder c x => (rebind_order_id l c x).1
  | ReleaseOrder c st => release_order l c st
  | InferCancel o => (infer_null_cancellation l o).1
  | ReserveMaintenance b x k c u d al => (reserve_maintenance_operation l b x k c u d al).1
  end.

(** The row an instance restores does not carry the order id of another of its rows. *)
Definition own_id (l : Ledger) (e : Event) : bool :=
  match e with
  | BackfillOrder o =>
      match accounts l !! instance_id o with
      | Some a =>
          forallb (λ '(c, r), String.eqb c (client_order_id o) || negb (bool_decide (normalize_order_id (order_id r) = normalize_order_id (order_id o))))
                  (map_to_list (orders a))
      | None => true
      end
  | _ => true
  end.

Inductive history (values : gmap string OrderOwnership → list OrderOwnership) (l0 : Ledger) : Ledger → Prop :=
  | history_start : history values l0 l0
  | history_step l e : history values l0 l → own_id l e = true → history values l0 (event values l e).

Definition no_orders (l : Ledger) : Prop := ∀ i a, accounts l !! i = Some a → orders a = ∅.

(** ** Invariant *)

Record wf (l : Ledger) : Prop := {
  wf_row i a c o : accounts l !! i = Some a → orders a !! c = Some o →
    client_order_id o = c ∧ instance_id o = i ∧ coid_routes l !! c = Some i ∧ oid_routes l !! normalize_order_id (order_id o) = Some i;
  wf_oid i a c c' o o' : accounts l !! i = Some a → orders a !! c = Some o → orders a !! c' = Some o' →
    normalize_order_id (order_id o) = normalize_order_id (order_id o') → c = c'
}.

#[local] Arguments normalize_order_id : simpl never.

Lemma wf_start l : no_orders l → wf l.
Proof. intros Hno. constructor; intros i a * Ha; rw (Hno _ _ Ha) lookup_empty; discriminate. Qed.

(** Only the rows and routes matter: accounts with the same rows behave alike. *)
Definition same_rows (m m' : gmap string Account) : Prop := ∀ i, orders <$> m !! i = orders <$> m' !! i.

Lemma wf_same_rows l l' :
  same_rows (accounts l) (accounts l') → coid_routes l' = coid_routes l → oid_routes l' = oid_routes l → wf l → wf l'.
Proof.
  intros Hr Hc Ho [H1 H2].
  assert (Hback : ∀ i a, accounts l' !! i = Some a → ∃ a0, accounts l !! i = Some a0 ∧ orders a0 = orders a).
  { intros i a Ha. specialize (Hr i). rw Ha in Hr. destruct (accounts l !! i) as [a0|]; simpl in Hr; [|discriminate].
    injection Hr as Hr. eauto. }
  constructor.
  - intros i a c o Ha Hco. destruct (Hback _ _ Ha) as (a0 & Ha0 & E). rw Hc Ho. apply (H1 i a0 c o Ha0). by rw E.
  - intros i a c c' o o' Ha Hco Hco'. destruct (Hback _ _ Ha) as (a0 & Ha0 & E). rw -E in Hco Hco'. by apply (H2 i a0).
Qed.

Lemma same_rows_set l i a a' : accounts l !! i = Some a → orders a' = orders a → same_rows (accounts l) (accounts (set_account l i a')).
Proof.
  intros Ha E j. cbn. destruct (decide (j = i)) as [->|Hj].
  - rw lookup_insert_eq Ha /=. by rw E.
  - by rw lookup_insert_ne.
Qed.

Lemma same_rows_refl m : same_rows m m.
Proof. by intros i. Qed.

Lemma orders_adjust a t c p : orders (adjust_reservation a t c p) = orders a.
Proof. rw /adjust_reservation. by repeat case_match. Qed.

Lemma orders_give_back a o : orders (give_back a o) = orders a.
Proof. rw /give_back. exact (orders_adjust _ _ _ _). Qed.

Lemma orders_reserve_counters a t c q : orders (reserve_counters a t c q).1 = orders a.
Proof.
  rw /reserve_counters. destruct (f64_gt c f64_zero); [destruct (try_reserve _ _ c)|]; cbn; try done;
    (destruct (f64_gt q f64_zero); [|done]); destruct (try_reserve _ _ q); reflexivity.
Qed.

(** A fresh row in an account that is as before otherwise. *)
Lemma install_wf l i a a' o :
  wf l → accounts l !! i = Some a → orders a' = orders a → orders a !! client_order_id o = None → instance_id o = i →
  (coid_routes l !! client_order_id o = None ∨ coid_routes l !! client_order_id o = Some i) →
  (oid_routes l !! normalize_order_id (order_id o) = None ∨ oid_routes l !! normalize_order_id (order_id o) = Some i) →
  (∀ c r, orders a !! c = Some r → normalize_order_id (order_id r) ≠ normalize_order_id (order_id o)) →
  wf (install l i a' o).
Proof.
  intros [H1 H2] Ha E Hnew Hi Hc Ho Hid. constructor; cbn.
  - intros j b c r Hb Hr. destruct (decide (j = i)) as [->|Hj].
    + rw lookup_insert_eq in Hb. injection Hb as <-. cbn in Hr. rw E in Hr.
      destruct (decide (c = client_order_id o)) as [->|Hcne].
      * rw lookup_insert_eq in Hr. injection Hr as <-. by rw !lookup_insert_eq.
      * rw lookup_insert_ne // in Hr. destruct (H1 _ _ _ _ Ha Hr) as (? & ? & ? & ?).
        rw !lookup_insert_ne //. intros Heq. by apply (Hid _ _ Hr).
    + rw lookup_insert_ne // in Hb. destruct (H1 _ _ _ _ Hb Hr) as (? & ? & Hcr & Hor).
      assert (client_order_id o ≠ c) by (intros Heq; subst c; destruct Hc; congruence).
      assert (normalize_order_id (order_id o) ≠ normalize_order_id (order_id r)) by (intros Heq; rw -Heq in Hor; destruct Ho; congruence).
      by rw !lookup_insert_ne.
  - intros j b c c' r r' Hb Hr Hr' Heq. destruct (decide (j = i)) as [->|Hj]; [|rw lookup_insert_ne // in Hb; by apply (H2 j b c c' r r')].
    rw lookup_insert_eq in Hb. injection Hb as <-. cbn in Hr, Hr'. rw E in Hr. rw E in Hr'.
    destruct (decide (c = client_order_id o)) as [->|Hc1], (decide (c' = client_order_id o)) as [->|Hc2]; [done| | |].
    + rw lookup_insert_eq in Hr. rw lookup_insert_ne // in Hr'. injection Hr as <-. by destruct (Hid _ _ Hr').
    + rw lookup_insert_eq in Hr'. rw lookup_insert_ne // in Hr. injection Hr' as <-. by destruct (Hid _ _ Hr).
    + rw lookup_insert_ne // in Hr. rw lookup_insert_ne // in Hr'. by apply (H2 i a c c' r r').
Qed.

(** No row carries an id that has no route. *)
Lemma unrouted_id l i a x : wf l → accounts l !! i = Some a → oid_routes l !! x = None →
  ∀ c r, orders a !! c = Some r → normalize_order_id (order_id r) ≠ x.
Proof. intros [H1 _] Ha Hx c r Hr <-. destruct (H1 _ _ _ _ Ha Hr) as (_ & _ & _ & ?). congruence. Qed.

(** A row replaced by one with its identity. *)
Lemma keep_wf l i a a' c o o' :
  wf l → accounts l !! i = Some a → orders a !! c = Some o → orders a' = <[c := o']> (orders a) →
  client_order_id o' = client_order_id o → instance_id o' = instance_id o → order_id o' = order_id o → wf (set_account l i a').
Proof.
  intros [H1 H2] Ha Ho E E1 E2 E3. destruct (H1 _ _ _ _ Ha Ho) as (? & ? & ? & ?).
  assert (Hback : ∀ d r, orders a' !! d = Some r → ∃ r0, orders a !! d = Some r0 ∧ client_order_id r = client_order_id r0 ∧
                      instance_id r = instance_id r0 ∧ order_id r = order_id r0).
  { intros d r. rw E. destruct (decide (d = c)) as [->|Hd]; [rw lookup_insert_eq; intros [= <-]; eauto|rw lookup_insert_ne //; eauto]. }
  constructor; cbn.
  - intros j b d r Hb Hr. destruct (decide (j = i)) as [->|Hj]; [|rw lookup_insert_ne // in Hb; by apply (H1 j b)].
    rw lookup_insert_eq in Hb. injection Hb as <-. destruct (Hback _ _ Hr) as (r0 & Hr0 & -> & -> & ->). by apply (H1 i a).
  - intros j b d d' r r' Hb Hr Hr' Heq. destruct (decide (j = i)) as [->|Hj]; [|rw lookup_insert_ne // in Hb; by apply (H2 j b d d' r r')].
    rw lookup_insert_eq in Hb. injection Hb as <-.
    destruct (Hback _ _ Hr) as (r0 & Hr0 & _ & _ & E4), (Hback _ _ Hr') as (r0' & Hr0' & _ & _ & E5). rw E4 E5 in Heq. by apply (H2 i a d d' r0 r0').
Qed.

(** The outermost test of the goal. *)
#[local] Ltac test H := match goal with |- context [if ?b then (_, _) else _] => destruct b eqn:H end.

Lemma bool_decide_none {A} (x : option A) : bool_decide (is_Some x) = false → x = None.
Proof. intros H%bool_decide_eq_false. by apply eq_None_not_Some. Qed.

Lemma reserve_wf l i c x t sd q p b passive : wf l → wf (reserve_order_with_fee_policy l i c x t sd q p b passive).1.
Proof.
  intros Hwf. rw /reserve_order_with_fee_policy /virtual_account. do 3 (case_match; [done|]).
  destruct (accounts l !! i) as [a|] eqn:Ha; [|done].
  destruct (orders a !! c) as [e|] eqn:He; [by case_match|].
  case_match; [done|]. case_match; [done|].
  destruct (reserve_counters a t _ _) as [a' [e|]] eqn:Hr.
  all: assert (E : orders a' = orders a) by (pose proof (orders_reserve_counters a t (cost_of sd q p b) (shares_of sd q)) as E; by rw Hr in E).
  - eapply (wf_same_rows l); [by apply (same_rows_set _ _ a)|done..].
  - apply (install_wf l i a); try done; [left; by apply bool_decide_none..|]. eapply unrouted_id; eauto. by apply bool_decide_none.
Qed.

Lemma ledger_register_wf l o : wf l → wf (register_prepared_order l o).1.
Proof.
  intros Hwf. rw /register_prepared_order /virtual_account. destruct (desired_order_reservation o). do 2 (test Hp; [done|clear Hp]).
  destruct (accounts l !! instance_id o) as [a|] eqn:Ha; [|done].
  destruct (orders a !! client_order_id o) as [e|] eqn:He; [done|].
  test Hno; [done|]. apply orb_false_iff in Hno as [H1%bool_decide_none H2%bool_decide_none].
  apply (install_wf l (instance_id o) a); auto using orders_adjust. eapply unrouted_id; eauto.
Qed.

Lemma not_elsewhere (x : option string) i :
  match x with Some j => negb (String.eqb j i) | None => false end = false → x = None ∨ x = Some i.
Proof. destruct x as [j|]; [|by left]. intros H%negb_false_iff%String.eqb_eq. right. by subst. Qed.

Lemma own_id_rows l o a c r : own_id l (BackfillOrder o) = true → accounts l !! instance_id o = Some a → orders a !! client_order_id o = None →
  orders a !! c = Some r → normalize_order_id (order_id r) ≠ normalize_order_id (order_id o).
Proof.
  cbn. intros H Ha Hn Hr Heq. rw Ha in H. rw forallb_forall in H.
  specialize (H (c, r)). cbn in H. rw bool_decide_true // orb_false_r in H.
  assert (Hc : c = client_order_id o) by (apply String.eqb_eq, H, list_elem_of_In, elem_of_map_to_list, Hr). congruence.
Qed.

Lemma routes_again l c x i : coid_routes l !! c = Some i → oid_routes l !! x = Some i →
  l <| coid_routes := <[c := i]> (coid_routes l) |> <| oid_routes := <[x := i]> (oid_routes l) |> = l.
Proof. intros Hc Hx. destruct l. cbn in *. by rw !insert_id. Qed.

Lemma backfill_wf values l o : wf l → own_id l (BackfillOrder o) = true → wf (backfill_order_ownership values l o).1.
Proof.
  intros Hwf Hown. rw /backfill_order_ownership /virtual_account. test Hp; [done|].
  destruct (accounts l !! instance_id o) as [a|] eqn:Ha; [|done].
  destruct (orders a !! client_order_id o) as [e|] eqn:He.
  - test Hsame; [done|]. apply orb_false_iff in Hsame as [Hid%negb_false_iff%bool_decide_eq_true Hin].
    test Hel; [done|]. destruct (wf_row _ Hwf _ _ _ _ Ha He) as (_ & _ & Hc & Hx). rw Hid in Hx. cbn. by rw routes_again.
  - test Hel; [done|]. apply orb_false_iff in Hel as [Hc%not_elsewhere Hx%not_elsewhere]. cbn.
    apply (install_wf l (instance_id o) a); eauto using own_id_rows.
Qed.

Lemma for_coid l c i a : virtual_account_for_coid l c = Some (i, a) → coid_routes l !! c = Some i ∧ accounts l !! i = Some a.
Proof.
  rw /virtual_account_for_coid. destruct (coid_routes l !! c) as [j|]; [|done]. destruct (accounts l !! j) eqn:E; [|done]. by intros [= <- <-].
Qed.

Lemma conflict_free (m : gmap string OrderOwnership) c x d r :
  existsb (λ '(c', r), negb (String.eqb c' c) && bool_decide (normalize_order_id (order_id r) = x)) (map_to_list m) = false →
  m !! d = Some r → d ≠ c → normalize_order_id (order_id r) ≠ x.
Proof.
  intros H Hd Hne Hx. apply not_true_iff_false in H. apply H, existsb_exists. exists (d, r).
  split; [by apply list_elem_of_In, elem_of_map_to_list|]. apply andb_true_iff; split; [by apply negb_true_iff, String.eqb_neq|by apply bool_decide_eq_true].
Qed.

Lemma rebound_wf l i a a' c o x :
  wf l → accounts l !! i = Some a → orders a !! c = Some o → normalize_order_id (order_id o) ≠ normalize_order_id x →
  (∀ d r, orders a !! d = Some r → d ≠ c → normalize_order_id (order_id r) ≠ normalize_order_id x) →
  (oid_routes l !! normalize_order_id x = None ∨ oid_routes l !! normalize_order_id x = Some i) →
  orders a' = <[c := o <| order_id := x |>]> (orders a) →
  wf ((set_account l i a') <| oid_routes := delete (normalize_order_id (order_id o)) (<[normalize_order_id x := i]> (oid_routes l)) |>).
Proof.
  intros [H1 H2] Ha Ho Hne Hfree Hx E. destruct (H1 _ _ _ _ Ha Ho) as (Hc & Hi & Hcr & Hor).
  constructor; cbn.
  - intros j b d r Hb Hr. destruct (decide (j = i)) as [->|Hj].
    + rw lookup_insert_eq in Hb. injection Hb as <-. rw E in Hr. destruct (decide (d = c)) as [->|Hd].
      * rw lookup_insert_eq in Hr. injection Hr as <-. cbn. by rw lookup_delete_ne // lookup_insert_eq.
      * rw lookup_insert_ne // in Hr. destruct (H1 _ _ _ _ Ha Hr) as (? & ? & ? & ?).
        assert (normalize_order_id (order_id o) ≠ normalize_order_id (order_id r)) by (intros Heq; by apply Hd, (H2 i a d c r o)).
        assert (normalize_order_id x ≠ normalize_order_id (order_id r)) by (by apply not_eq_sym, (Hfree d)).
        by rw lookup_delete_ne // lookup_insert_ne.
    + rw lookup_insert_ne // in Hb. destruct (H1 _ _ _ _ Hb Hr) as (? & ? & ? & Hjr).
      assert (normalize_order_id (order_id o) ≠ normalize_order_id (order_id r)) by (intros Heq; rw -Heq in Hjr; congruence).
      assert (normalize_order_id x ≠ normalize_order_id (order_id r)) by (intros Heq; rw -Heq in Hjr; destruct Hx; congruence).
      by rw lookup_delete_ne // lookup_insert_ne.
  - intros j b d d' r r' Hb Hr Hr' Heq. destruct (decide (j = i)) as [->|Hj]; [|rw lookup_insert_ne // in Hb; by apply (H2 j b d d' r r')].
    rw lookup_insert_eq in Hb. injection Hb as <-. rw E in Hr. rw E in Hr'.
    destruct (decide (d = c)) as [->|Hd], (decide (d' = c)) as [->|Hd']; [done| | |].
    + rw lookup_insert_eq in Hr. rw lookup_insert_ne // in Hr'. injection Hr as <-. cbn in Heq. by destruct (Hfree _ _ Hr' Hd').
    + rw lookup_insert_eq in Hr'. rw lookup_insert_ne // in Hr. injection Hr' as <-. cbn in Heq. by destruct (Hfree _ _ Hr Hd).
    + rw lookup_insert_ne // in Hr. rw lookup_insert_ne // in Hr'. by apply (H2 i a d d' r r').
Qed.

Lemma anomaly_wf l c : wf l → wf (record_order_binding_anomaly l c).
Proof. by apply wf_same_rows. Qed.

Lemma rebind_wf l c x : wf l → wf (rebind_order_id l c x).1.
Proof.
  intros Hwf. rw /rebind_order_id. case_match; [done|].
  destruct (virtual_account_for_coid l c) as [[i a]|] eqn:Hv; [|done]. apply for_coid in Hv as [Hc Ha].
  destruct (orders a !! c) as [o|] eqn:Ho; [|by apply anomaly_wf].
  case_bool_decide as Hsame; [done|].
  test Hb; [by apply anomaly_wf|]. apply orb_false_iff in Hb as [Hcf Hel%not_elsewhere].
  eapply (rebound_wf l i a); eauto using conflict_free.
Qed.

Lemma release_wf l c st : wf l → wf (release_order l c st).
Proof.
  intros Hwf. rw /release_order. destruct (virtual_account_for_coid l c) as [[i a]|] eqn:Hv; [|done]. apply for_coid in Hv as [Hc Ha].
  destruct (orders a !! c) as [o|] eqn:Ho; [|done]. eapply (keep_wf l i a _ c o (released o st)); eauto. cbn. by rw orders_give_back.
Qed.

Lemma infer_wf l e : wf l → wf (infer_null_cancellation l e).1.
Proof.
  intros Hwf. rw /infer_null_cancellation. destruct (virtual_account_for_coid l _) as [[i a]|] eqn:Hv; [|done]. apply for_coid in Hv as [Hc Ha].
  destruct (orders a !! client_order_id e) as [o|] eqn:Ho; [|done]. test Hp; [done|].
  destruct (status o); try done;
    eapply (keep_wf l i a _ (client_order_id e) o ((released o Cancelled) <| inferred_cancel := true |>)); eauto; cbn; by rw orders_give_back.
Qed.

Lemma publish_rows f allocs : (∀ x a, orders (f x a) = orders a) → ∀ m, same_rows m (publish_allocations f allocs m).
Proof.
  intros Hf. induction allocs as [|[i x] allocs IH]; intros m j; [done|]. rw /publish_allocations /= -/(publish_allocations f allocs _) -IH.
  destruct (decide (j = i)) as [->|Hj]; [|by rw lookup_alter_ne]. rw lookup_alter_eq. destruct (m !! i); cbn; [by rw Hf|done].
Qed.

Lemma orders_publish_cash x a : orders (publish_cash x a) = orders a.
Proof. rw /publish_cash. by case_match. Qed.

Lemma orders_publish_position t f a : orders (publish_position t f a) = orders a.
Proof. rw /publish_position. by case_match. Qed.

Lemma orders_publish_merge u d x a : orders (publish_merge u d x a) = orders a.
Proof.
  rw /publish_merge. destruct (String.eqb u d); [exact (orders_publish_position _ _ _)|].
  exact (eq_trans (orders_publish_position _ _ _) (orders_publish_position _ _ _)).
Qed.

Lemma maintenance_wf l b x k c u d al : wf l → wf (reserve_maintenance_operation l b x k c u d al).1.
Proof.
  intros Hwf. rw /reserve_maintenance_operation. test Hp; [done|]. case_match; [done|]. test Hs; [done|]. test Hu; [done|]. destruct b; [done|].
  case_match; [done|]. eapply (wf_same_rows l); try done. cbn. apply publish_rows. destruct k; auto using orders_publish_cash, orders_publish_merge.
Qed.

Lemma event_wf values l e : wf l → own_id l e = true → wf (event values l e).
Proof.
  intros Hwf Hown. destruct e; cbn [event]; auto using reserve_wf, ledger_register_wf, backfill_wf, rebind_wf, release_wf, infer_wf, maintenance_wf.
Qed.

Lemma ledger_history_wf values l0 l : no_orders l0 → history values l0 l → wf l.
Proof. intros H0 Hh. induction Hh; auto using wf_start, event_wf. Qed.


(** ** Reservation *)

(** The reference: what an order needs is affordable, and what it charges. *)
Definition affordable (a : Account) (token : string) (sd : Side) (qty px : f64) (bps : Z) : bool :=
  match sd with
  | Buy => negb (f64_gt (buy_cost qty px bps) f64_zero && too_much (buy_cost qty px bps) (free (cash a) (reserved_cash a)))
  | Sell => negb (too_much qty (free (balance (position a token)) (reserved (position a token))))
  end.

Definition charged (a : Account) (token : string) (sd : Side) (qty px : f64) (bps : Z) : Account :=
  match sd with
  | Buy => if f64_gt (buy_cost qty px bps) f64_zero then a <| reserved_cash := f64_add (reserved_cash a) (buy_cost qty px bps) |> else a
  | Sell => set_position a token ((position a token) <| reserved := f64_add (reserved (position a token)) qty |>)
  end.

Lemma positive_gt x : positive x = true → f64_gt x f64_zero = true.
Proof.
  rw /positive. intros [Hf Hn%negb_true_iff]%andb_true_iff. apply is_finite_not_nan in Hf.
  apply f64_le_false in Hn as [Hn|[Hn|Hn]]; [congruence|done|]. by apply f64_lt_iff.
Qed.

Lemma set_position_twice a t q q' : set_position (set_position a t q) t q' = set_position a t q'.
Proof. destruct a. rw /set_position /=. by rw insert_insert_eq. Qed.

Lemma reserve_counters_exact a t sd q p b : positive q = true →
  ((reserve_counters a t (cost_of sd q p b) (shares_of sd q)).2 = None ↔ affordable a t sd q p b = true) ∧
  (reserve_counters a t (cost_of sd q p b) (shares_of sd q)).1 =
    (if affordable a t sd q p b then charged a t sd q p b else match sd with Buy => a | Sell => set_position a t (position a t) end).
Proof.
  intros Hq%positive_gt. rw /reserve_counters /affordable /charged /try_reserve. destruct sd; cbn [cost_of shares_of atomically].
  - assert (f64_gt f64_zero f64_zero = false) as -> by reflexivity. destruct (f64_gt (buy_cost q p b) f64_zero); [|done].
    by destruct (too_much _ _).
  - assert (f64_gt f64_zero f64_zero = false) as -> by reflexivity. rw Hq. destruct (too_much _ _); cbn; [done|]. by rw set_position_twice.
Qed.

Lemma set_account_same l i a : accounts l !! i = Some a → set_account l i a = l.
Proof. intros Ha. destruct l. rw /set_account /=. cbn in Ha. by rw insert_id. Qed.

(** C21: an order is reserved all or nothing.  A refusal leaves every counter, order, route and
    epoch as it was (a sell that is refused for its position has its token's empty quota
    entry made).  An accepted order is either the row its instance already has under that
    client order id, and nothing changes, or a new one: then its instance had no such row,
    the order was affordable by the unreserved cash (a buy, fees included) or shares (a
    sell), exactly that is added to the reservation of its instance and nothing to any
    other, and the row and both routes are installed. *)
Theorem reserve_order_exact l i c x t sd q p b passive :
  match reserve_order_with_fee_policy l i c x t sd q p b passive with
  | (l', inl _) => l' = l ∨ sd = Sell ∧ ∃ a, accounts l !! i = Some a ∧ l' = set_account l i (set_position a t (position a t))
  | (l', inr o) =>
      ∃ a, accounts l !! i = Some a ∧
        (orders a !! c = Some o ∧ normalize_order_id (order_id o) = normalize_order_id x ∧ l' = l ∨
         orders a !! c = None ∧ coid_routes l !! c = None ∧ oid_routes l !! normalize_order_id x = None ∧
         affordable a t sd q p b = true ∧ o = fresh_order (account_id l) i c x t sd q p b OrderSlot.UNASSIGNED ∧
         l' = install l i (charged a t sd q p b) o)
  end.
Proof.
  rw /reserve_order_with_fee_policy /virtual_account. test Hp; [by left|]. do 2 (test H; [by left|clear H]).
  destruct (accounts l !! i) as [a|] eqn:Ha; [|by left].
  destruct (orders a !! c) as [e|] eqn:He.
  { test H; [|by left]. apply andb_true_iff in H as [H%bool_decide_eq_true _]. exists a. split; [done|]. by left. }
  test Hc; [by left|]. test Hx; [by left|]. apply bool_decide_none in Hc, Hx.
  assert (Hq : positive q = true) by (repeat apply orb_false_iff in Hp as [Hp ?]; by apply negb_false_iff).
  destruct (reserve_counters_exact a t sd q p b Hq) as [Hok Hnew].
  destruct (reserve_counters a t _ _) as [a' [e|]]; cbn in Hok, Hnew.
  - assert (Hna : affordable a t sd q p b = false) by (apply not_true_iff_false; intros Hy; by apply Hok in Hy).
    rw Hna in Hnew. subst a'. destruct sd; [left; by apply set_account_same|right; eauto].
  - assert (Hya : affordable a t sd q p b = true) by (by apply Hok). rw Hya in Hnew. subst a'.
    exists a. split; [done|]. right. by split_and!.
Qed.

(** ** Retries *)

Lemma f64_eq_self x : is_finite x = true → f64_eq x x = true.
Proof.
  destruct x as [b| | |b m e]; try done. intros _. rw /f64_eq /SFeqb /=.
  by destruct b; rw Z.compare_refl /= ?Pos.compare_cont_refl.
Qed.

Lemma install_row l i a o : accounts (install l i a o) !! i =
  Some (a <| orders := <[client_order_id o := o]> (orders a) |> <| reservation_epoch := reservation_epoch a +w 1 |>).
Proof. cbn. by rw lookup_insert_eq. Qed.

Lemma reserve_again l i c x t sd q p b passive l' o :
  reserve_order_with_fee_policy l i c x t sd q p b passive = (l', inr o) →
  reserve_order_with_fee_policy l' i c x t sd q p b passive = (l', inr o).
Proof.
  intros H. rw /reserve_order_with_fee_policy in H |- *. rw /virtual_account in H |- *. revert H. test Hp; [done|]. test Hs; [done|]. test Hd; [done|].
  destruct (accounts l !! i) as [a|] eqn:Ha; [|done].
  destruct (orders a !! c) as [e|] eqn:He.
  { test H; [|done]. intros [= <- <-]. by rw Hs Hd Ha He H. }
  test Hc; [done|]. test Hx; [done|]. destruct (reserve_counters a t _ _) as [a' [e|]]; [done|]. intros [= <- <-].
  assert (Hs' : negb (seeded_fast (install l i a' (fresh_order (account_id l) i c x t sd q p b OrderSlot.UNASSIGNED))) = false) by done.
  assert (Hd' : negb (admitted (install l i a' (fresh_order (account_id l) i c x t sd q p b OrderSlot.UNASSIGNED)) passive) = false) by done.
  rw Hs' Hd' install_row. cbn [orders client_order_id fresh_order]. rw lookup_insert_eq. cbn [order_id instance_id fresh_order].
  by rw bool_decide_true // String.eqb_refl.
Qed.

Definition fee_known (o : OrderOwnership) : bool := match cash_fee_per_share o with Some f => is_finite f | None => true end.

Lemma same_order_self l o : prepared l o = true → fee_known o = true → same_order o o = true.
Proof.
  rw /prepared /fee_known /same_order. intros Hp Hf. repeat (apply andb_true_iff in Hp as [Hp ?]).
  assert (is_finite (quantity o) = true ∧ is_finite (price o) = true) as [Hq Hx]
    by (rw /positive in H1 H2; repeat match goal with H : _ && _ = true |- _ => apply andb_true_iff in H as [? ?] end; done).
  rw !String.eqb_refl !bool_decide_true // !Z.eqb_refl !f64_eq_self //. destruct (cash_fee_per_share o); [by apply f64_eq_self|done].
Qed.

Lemma register_again l o l' r : fee_known o = true →
  register_prepared_order l o = (l', Some r) → register_prepared_order l' o = (l', Some r).
Proof.
  intros Hf H. rw /register_prepared_order in H |- *. rw /virtual_account in H |- *. revert H. destruct (desired_order_reservation o) as [x y].
  test Hp; [done|]. test Hd; [done|]. destruct (accounts l !! instance_id o) as [a|] eqn:Ha; [|done].
  destruct (orders a !! client_order_id o) as [e|] eqn:He.
  { destruct (same_order e o) eqn:Hso; [|done]. intros [= <- <-]. by rw Hp Ha He Hso. }
  test Hc; [done|]. intros [= <- <-].
  assert (Hp' : ∀ a', negb (prepared (install l (instance_id o) a' o) o) = false) by done.
  rw Hp' install_row. cbn [orders]. rw lookup_insert_eq. apply negb_false_iff in Hp. by rw (same_order_self l).
Qed.

Lemma backfill_again values l o l' r :
  backfill_order_ownership values l o = (l', Some r) → backfill_order_ownership values l' o = (l', Some r).
Proof.
  intros H. rw /backfill_order_ownership in H |- *. rw /virtual_account in H |- *. revert H. test Hp; [done|].
  destruct (accounts l !! instance_id o) as [a|] eqn:Ha; [|done].
  destruct (orders a !! client_order_id o) as [e|] eqn:He.
  - test Hs; [done|]. test Hel; [done|]. intros [= <- <-]. cbn. rw Hp Ha He Hs !lookup_insert_eq !String.eqb_refl /=.
    by rw !insert_insert_eq.
  - test Hel; [done|]. intros [= <- <-]. rw install_row. cbn [orders set_position]. rw lookup_insert_eq. cbn [install coid_routes oid_routes account_id set_account].
    rw Hp bool_decide_true // String.eqb_refl !lookup_insert_eq String.eqb_refl /=. by rw !insert_insert_eq.
Qed.

Lemma rebind_again l c x l' : rebind_order_id l c x = (l', Some true) → rebind_order_id l' c x = (l', Some true).
Proof.
  intros H. pose proof H as H0. rw /rebind_order_id in H |- *. revert H. test Hp; [done|].
  destruct (virtual_account_for_coid l c) as [[i a]|] eqn:Hv; [|done]. pose proof (for_coid _ _ _ _ Hv) as [Hc Ha].
  destruct (orders a !! c) as [o|] eqn:Ho; [|done].
  case_bool_decide as Hs; [intros [= <-]; rw Hv Ho; by rw bool_decide_true|].
  test Hb; [done|]. intros [= <-]. rw /virtual_account_for_coid /=. rw Hc lookup_insert_eq /= lookup_insert_eq /=. by rw bool_decide_true.
Qed.

(** C22: retries change nothing.  An order that was reserved, registered, restored or rebound
    can be reserved, registered, restored or rebound again any number of times: the answer
    is the same row and the ledger stays as it is, so no cash or position is reserved a
    second time. *)
Theorem retries_change_nothing values l :
  (∀ i c x t sd q p b passive l' o, reserve_order_with_fee_policy l i c x t sd q p b passive = (l', inr o) →
     reserve_order_with_fee_policy l' i c x t sd q p b passive = (l', inr o)) ∧
  (∀ o l' r, fee_known o = true → register_prepared_order l o = (l', Some r) → register_prepared_order l' o = (l', Some r)) ∧
  (∀ o l' r, backfill_order_ownership values l o = (l', Some r) → backfill_order_ownership values l' o = (l', Some r)) ∧
  (∀ c x l', rebind_order_id l c x = (l', Some true) → rebind_order_id l' c x = (l', Some true)).
Proof. split_and!; eauto using reserve_again, register_again, backfill_again, rebind_again. Qed.

(** ** A split and an order *)

Definition cents (n : Z) : f64 := f64_div (f64_of_Z n) (f64_of_Z 100).

(** One instance with 100 dollars, nothing reserved. *)
Definition funded : Account :=
  mkAccount (dollars 100) f64_zero f64_zero ∅ ∅ ∅ ∅ ∅ ∅ 0 0.
Definition opening : Ledger :=
  mkLedger "acct" true true true false {["a" := funded]} ∅ ∅ true false [("a"%string, mkMirror f64_zero ∅)] (dollars 100) ∅ ∅ ∅.


(** ** Examples *)

Definition rows_in_order (m : gmap string OrderOwnership) : list OrderOwnership := snd <$> map_to_list m.

Definition first_order : Event := ReserveOrder "a" "c1" "0xAB" "UP" Buy (dollars 100) (cents 50) 0 false.
Definition reserved_once : Ledger := event rows_in_order opening first_order.
Definition reserved_row : OrderOwnership := fresh_order "acct" "a" "c1" "0xAB" "UP" Buy (dollars 100) (cents 50) 0 OrderSlot.UNASSIGNED.

Lemma opening_empty : no_orders opening.
Proof. intros i a. cbn. intros [_ <-]%lookup_singleton_Some. done. Qed.

Lemma reserved_once_eq : reserve_order_with_fee_policy opening "a" "c1" "0xAB" "UP" Buy (dollars 100) (cents 50) 0 false = (reserved_once, inr reserved_row).
Proof. vm_compute. reflexivity. Qed.

Lemma reserved_once_row : ∃ a, accounts reserved_once !! "a"%string = Some a ∧ orders a !! "c1"%string = Some reserved_row.
Proof. eexists. split; vm_compute; reflexivity. Qed.

(** Why a restored row must have its own id: restored under the id of another order of the
    instance and then rebound, it takes that order's route with it. *)
Lemma restored_id_loses_route :
  let l := event rows_in_order (event rows_in_order reserved_once (BackfillOrder (reserved_row <| client_order_id := "c2"%string |>))) (RebindOrder "c2" "0xCD") in
  own_id reserved_once (BackfillOrder (reserved_row <| client_order_id := "c2"%string |>)) = false ∧
  oid_routes l !! normalize_order_id "0xAB" = None ∧ coid_routes l !! "c1"%string = Some "a"%string.
Proof. vm_compute. by split_and!. Qed.


Lemma retries_change_nothing_witness :
  reserve_order_with_fee_policy reserved_once "a" "c1" "0xAB" "UP" Buy (dollars 100) (cents 50) 0 false = (reserved_once, inr reserved_row).
Proof. exact (proj1 (retries_change_nothing rows_in_order opening) _ _ _ _ _ _ _ _ _ _ _ reserved_once_eq). Defined.
