(* ===== verification/BTree.v ===== *)
(** * Ordered collections

    A [BTreeSet<String>] is a [gset string] and a [BTreeMap<String, V>] a
    [gmap string V]; where the source iterates one, the order of the iteration is
    the byte order of the keys.  [btree_iter] is that iteration. *)

From S2P Require Import Prelude.

(** ** The order of [str] *)

Definition str_le (a b : string) : Prop := String.leb a b = true.

#[export] Instance str_le_dec : RelDecision str_le.
Proof. unfold str_le. intros a b. apply _. Defined.

(** [BTreeSet::iter] *)
Definition btree_iter (X : gset string) : list string := merge_sort str_le (elements X).

(** [BTreeMap::values] *)
Definition btree_values {V} (m : gmap string V) : list V := omap (m !!.) (btree_iter (dom m)).

(** [BTreeMap::iter] *)
Definition btree_entries {V} (m : gmap string V) : list (string * V) :=
  omap (λ k, pair k <$> m !! k) (btree_iter (dom m)).

Lemma ascii_compare_N a b :
  Ascii.compare a b = (Ascii.N_of_ascii a ?= Ascii.N_of_ascii b)%N.
Proof. done. Qed.

Lemma str_compare_lt_trans a b c :
  String.compare a b = Lt → String.compare b c = Lt → String.compare a c = Lt.
Proof.
  revert b c. induction a as [|x a IH]; intros [|y b] [|z c]; simpl; try done.
  rewrite !ascii_compare_N.
  destruct (N.compare_spec (Ascii.N_of_ascii x) (Ascii.N_of_ascii y)) as [Hxy|Hxy|Hxy]; [| |done].
  - rewrite Hxy. destruct (Ascii.N_of_ascii y ?= Ascii.N_of_ascii z)%N; eauto.
  - intros _. destruct (N.compare_spec (Ascii.N_of_ascii y) (Ascii.N_of_ascii z)) as [Hyz|Hyz|Hyz];
      [| |done]; intros _.
    + rewrite <- Hyz. by rewrite (proj2 (N.compare_lt_iff _ _) Hxy).
    + rewrite (proj2 (N.compare_lt_iff (Ascii.N_of_ascii x) (Ascii.N_of_ascii z))); [done|].
      by etrans.
Qed.

Lemma str_le_cases a b : str_le a b ↔ a = b ∨ String.compare a b = Lt.
Proof.
  unfold str_le, String.leb. destruct (String.compare a b) eqn:E.
  - apply String.compare_eq_iff in E. subst. tauto.
  - tauto.
  - split; [done|]. intros [->|]; [|done].
    pose proof (String.compare_antisym b b) as H. rewrite E in H. done.
Qed.

#[export] Instance str_le_trans : Transitive str_le.
Proof.
  intros a b c. rewrite !str_le_cases. intros [->|Hab] [->|Hbc]; auto.
  right. by apply (str_compare_lt_trans a b c).
Qed.

#[export] Instance str_le_total : Total str_le.
Proof. intros a b. unfold str_le. destruct (String.leb_total a b); auto. Qed.

#[export] Instance str_le_antisym : AntiSymm eq str_le.
Proof. intros a b. unfold str_le. apply String.leb_antisym. Qed.

Lemma btree_iter_Permutation X : btree_iter X ≡ₚ elements X.
Proof. apply merge_sort_Permutation. Qed.

Lemma elem_of_btree_iter X x : x ∈ btree_iter X ↔ x ∈ X.
Proof. by rewrite btree_iter_Permutation, elem_of_elements. Qed.

Lemma NoDup_btree_iter X : NoDup (btree_iter X).
Proof. rewrite btree_iter_Permutation. apply NoDup_elements. Qed.

Lemma btree_iter_sorted X : StronglySorted str_le (btree_iter X).
Proof. apply StronglySorted_merge_sort; apply _. Qed.

(** Two sorted lists without duplicates and with the same elements are equal. *)
Lemma btree_iter_unique X l :
  StronglySorted str_le l → NoDup l → (∀ x, x ∈ l ↔ x ∈ X) → btree_iter X = l.
Proof.
  intros Hs Hnd Hl. apply (StronglySorted_unique str_le); [apply btree_iter_sorted|done|].
  apply NoDup_Permutation; [apply NoDup_btree_iter|done|].
  intros x. by rewrite elem_of_btree_iter, Hl.
Qed.

Lemma StronglySorted_filter {A} (R : A → A → Prop) (p : A → bool) l :
  StronglySorted R l → StronglySorted R (List.filter p l).
Proof.
  induction 1 as [|x l Hs IH Hall]; simpl; [constructor|].
  destruct (p x); [|done]. constructor; [done|].
  apply List.Forall_forall. intros y [Hy _]%filter_In. rewrite List.Forall_forall in Hall. auto.
Qed.

Lemma elem_of_btree_values {V} (m : gmap string V) v :
  v ∈ btree_values m ↔ ∃ k, m !! k = Some v.
Proof.
  unfold btree_values. rewrite list_elem_of_omap.
  split; [intros (k & _ & ?); eauto|]. intros (k & Hk). exists k. split; [|done].
  apply elem_of_btree_iter, elem_of_dom. by eexists.
Qed.
