(* ===== verification/AccountAdmission.v ===== *)
(** * Account-local execution admission (hexagent-engine/src/execution_admission.rs)

    The execution router of an account keeps one [LaneState] per connection
    owner, fed by sequenced observations, and derives from them how many new
    orders may be placed.  [AccountExecutionAdmission] is the router's state;
    each method is a function on it.  Methods of the source that return
    [ExecutionAdmission] return [self.admission] of the resulting state, so the
    model returns the state alone.

    Proved: the cached fast path of [refresh] computes exactly what a full
    recomputation would; placing is only admitted on fresh, ready, idle capacity
    with a usable cancel route; lane evidence is monotone; a delivery fault or a
    recovery can only be left through the evidence the code asks for. *)

From S2P Require Import Prelude Types.

(** ** http1_pool.rs: what connection owners publish *)

Inductive Role := Fast | Cancel | Reconcile | Query | GapReplay.

#[export] Instance Role_eq_dec : EqDecision Role.
Proof. solve_decision. Defined.

Inductive BusinessHttpOutcome :=
  | HttpHealthy | SlowResponded | Failure | TransportUncertain | SlowRetired.

#[export] Instance BusinessHttpOutcome_eq_dec : EqDecision BusinessHttpOutcome.
Proof. solve_decision. Defined.

Record BusinessHttpOutcomeSnapshot := mkBusiness {
  attempt_id : Z;
  bo_pool_generation : Z;
  elapsed_ns : Z;
  outcome : BusinessHttpOutcome;
  status_code : Z }.

Record PermitHealthSnapshot := mkHealth {
  pool_generation : Z;
  quarantined : bool }.

Record TransportRepairSnapshot := mkRepair {
  old_generation : Z;
  new_generation : Z;
  trigger_attempt : Z;
  cause : Z;
  claimed_mono_ns : Z;
  prewarm_started_mono_ns : Z;
  ready_mono_ns : Z;
  notified_mono_ns : Z;
  owner_observed_mono_ns : Z;
  owner_observed_busy : bool;
  attempts : Z }.

Inductive IpAddr := V4 (addr : Z) | V6 (addr : Z).

(** ** Configuration, observations and lanes *)

Definition SLOW_HTTP_NS : Z := 500000000.
Definition CANCEL_PROBATION_WAIT_NS : Z := 30000000000.

Record AdmissionConfig := mkConfig {
  stale_after_ns : Z;
  failure_cluster_window_ns : Z;
  recovery_pause_ns : Z;
  max_recovery_pause_ns : Z;
  cfg_recovery_successes : Z }.

Definition default_config : AdmissionConfig :=
  mkConfig 3000000000 750000000 250000000 2000000000 3.

Record LaneObservation := mkObservation {
  lo_sequence : Z;
  lo_repair : option TransportRepairSnapshot;
  lo_observed_at_ns : Z;
  lo_observed_mono_ns : Z;
  lo_health : PermitHealthSnapshot;
  lo_business : option BusinessHttpOutcomeSnapshot;
  lo_busy : bool;
  lo_cumulative_failures : Z;
  lo_cumulative_slow : Z;
  lo_cumulative_no_response : Z;
  lo_cumulative_slow_retired : Z;
  lo_slow_retired_generation : Z;
  lo_no_response_generation : Z;
  lo_no_response_peer : option IpAddr }.

Record LaneState := mkLane {
  repair_key : Z * Z * Z;
  sequence : Z;
  observed_at_ns : Z;
  generation : Z;
  lane_quarantined : bool;
  busy : bool;
  dispatched_at_ns : option Z;
  business_attempt : Z;
  cumulative_failures : Z;
  cumulative_slow : Z;
  cumulative_no_response : Z;
  cumulative_slow_retired : Z;
  retired_generation : option Z;
  verified : bool;
  delivery_fault : bool;
  lane_failure_window : Z;
  reserved_cancel : bool;
  business_failed : bool;
  failure_eligible_after_ns : Z;
  lane_failure_streak : Z }.

Definition default_lane : LaneState :=
  mkLane (0, 0, 0) 0 0 0 false false None 0 0 0 0 0 None false false 0 false false 0 0.

Definition fresh (self : LaneState) (now_ns stale_after : Z) : bool :=
  negb (sequence self =? 0) && negb (delivery_fault self)
  && (observed_at_ns self <=? now_ns)
  && (now_ns -s observed_at_ns self <=? stale_after).

(** [Option<u64>] comparisons of the source *)
Definition option_eqb (a : option Z) (b : Z) : bool :=
  match a with Some a => a =? b | None => false end.

Definition ready (self : LaneState) : bool :=
  negb (lane_quarantined self) && negb (option_eqb (retired_generation self) (generation self)).

Definition cancel_ready (self : LaneState) : bool := ready self && negb (business_failed self).

Definition cancel_probe_eligible (self : LaneState) (now_ns : Z) : bool :=
  ready self && (negb (business_failed self) || (failure_eligible_after_ns self <=? now_ns)).

Record RecoveryProbe := mkProbe {
  probe_slot : nat;
  probe_generation : Z;
  after_attempt : Z;
  probe_dispatched_at_ns : Z }.

(** ** The account's admission state *)

Record AccountExecutionAdmission := mkAccount {
  config : AdmissionConfig;
  fast : list LaneState;
  cancel : list LaneState;
  admission : ExecutionAdmission;
  dirty : bool;
  next_change_ns : Z;
  probation_busy : bool;
  recovery_required : bool;
  recovery_successes : Z;
  probe : option RecoveryProbe;
  pause_until_ns : Z;
  failure_streak : Z;
  failure_window : Z;
  failure_window_started_ns : Z;
  failure_window_lanes : Z;
  transport_reset_pending : bool;
  transport_reset_peer : option IpAddr;
  no_response_resets : Z }.

Definition with_config (fast_slots cancel_slots : nat) (now_ns : Z) (config : AdmissionConfig) :
    AccountExecutionAdmission :=
  {| config := config;
     fast := replicate fast_slots default_lane;
     cancel := replicate cancel_slots default_lane;
     admission := mkExecutionAdmission Polymarket 0 Paused 0 now_ns;
     dirty := true; next_change_ns := 0; probation_busy := false;
     recovery_required := true;
     recovery_successes := 0;
     probe := None;
     pause_until_ns := 0;
     failure_streak := 0;
     failure_window := 0;
     failure_window_started_ns := 0;
     failure_window_lanes := 0;
     transport_reset_pending := false;
     transport_reset_peer := None;
     no_response_resets := 0 |}.

Definition new (fast_slots cancel_slots : nat) (now_ns : Z) : AccountExecutionAdmission :=
  with_config fast_slots cancel_slots now_ns default_config.

Definition lane (self : AccountExecutionAdmission) (role : Role) (slot : nat) : option LaneState :=
  match role with
  | Fast => fast self !! slot
  | Cancel => cancel self !! slot
  | Reconcile | Query | GapReplay => None
  end.

(** [if let Some(lane) = self.lane_mut(role, slot) { f(lane) }]: taking the
    mutable reference marks the cache dirty whether or not the lane exists. *)
Definition lane_mut (self : AccountExecutionAdmission) (role : Role) (slot : nat)
    (f : LaneState → LaneState) : AccountExecutionAdmission :=
  match role with
  | Fast => self <| dirty := true |> <| fast := alter f slot (fast self) |>
  | Cancel => self <| dirty := true |> <| cancel := alter f slot (cancel self) |>
  | Reconcile | Query | GapReplay => self <| dirty := true |>
  end.

(** [recovery_pause_ns * 2^min(streak, 3)], capped. *)
Definition pause_duration (config : AdmissionConfig) (streak : Z) : Z :=
  Z.min (recovery_pause_ns config *s Z.shiftl 1 (Z.min streak 3)) (max_recovery_pause_ns config).

Definition pause_for_recovery (self : AccountExecutionAdmission) (now_ns : Z) :
    AccountExecutionAdmission :=
  let duration := pause_duration (config self) (failure_streak self) in
  self <| dirty := true |>
       <| failure_streak := Z.min u32_max (failure_streak self + 1) |>
       <| pause_until_ns := now_ns +s duration |>
       <| recovery_required := true |>
       <| recovery_successes := 0 |>
       <| probe := None |>.

Definition retire_lane (lane : LaneState) : LaneState :=
  lane <| retired_generation := Some (generation lane) |> <| verified := false |>.

Definition retire_transport_generations (self : AccountExecutionAdmission) (now_ns : Z) :
    AccountExecutionAdmission :=
  let self := self <| dirty := true |>
                   <| transport_reset_peer := None |>
                   <| fast := map retire_lane (fast self) |>
                   <| cancel := map retire_lane (cancel self) |>
                   <| probe := None |>
                   <| recovery_successes := 0 |>
                   <| transport_reset_pending := true |> in
  pause_for_recovery self now_ns.

Definition retire_transport_generations_avoiding (self : AccountExecutionAdmission)
    (now_ns : Z) (peer : option IpAddr) : AccountExecutionAdmission :=
  (retire_transport_generations self now_ns) <| transport_reset_peer := peer |>.

Definition take_transport_reset (self : AccountExecutionAdmission) :
    bool * AccountExecutionAdmission :=
  (transport_reset_pending self, self <| transport_reset_pending := false |>).

(** A failure outside the current cluster window opens a new one. *)
Definition open_failure_window (self : AccountExecutionAdmission) (now_ns : Z) :
    AccountExecutionAdmission :=
  if (failure_window self =? 0)
     || (failure_cluster_window_ns (config self) <? now_ns -s failure_window_started_ns self)
  then self <| failure_window := failure_window self +s 1 |>
            <| failure_window_started_ns := now_ns |>
            <| failure_window_lanes := 0 |>
  else self.

(** The lane is counted once per window. *)
Definition count_failed_lane (self : AccountExecutionAdmission) (role : Role) (slot : nat) :
    AccountExecutionAdmission :=
  let window := failure_window self in
  match lane self role slot with
  | Some l =>
      if lane_failure_window l =? window then self <| dirty := true |>
      else (lane_mut self role slot (λ l, l <| lane_failure_window := window |>))
             <| failure_window_lanes := failure_window_lanes self + 1 |>
  | None => self <| dirty := true |>
  end.

Definition note_failure (self : AccountExecutionAdmission) (role : Role) (slot : nat)
    (now_ns : Z) : AccountExecutionAdmission :=
  let self := count_failed_lane (open_failure_window self now_ns) role slot in
  if failure_window_lanes self =? 2
  then pause_for_recovery (self <| failure_window_lanes := failure_window_lanes self + 1 |>) now_ns
  else self.

(** ** refresh *)

Definition lanes (self : AccountExecutionAdmission) : list LaneState := fast self ++ cancel self.

(** The instants at which a lane's contribution can change. *)
Definition lane_deadlines (config : AdmissionConfig) (lane : LaneState) : list Z :=
  [observed_at_ns lane;
   observed_at_ns lane +s stale_after_ns config +s 1;
   failure_eligible_after_ns lane].

Definition deadlines (self : AccountExecutionAdmission) : list Z :=
  concat (map (lane_deadlines (config self)) (lanes self)) ++ [pause_until_ns self].

(** The loop over deadlines: the first one after [now_ns], [u64::MAX] if none. *)
Definition earliest_after (now_ns : Z) (ds : list Z) : Z :=
  fold_left (λ next d, if now_ns <? d then Z.min next d else next) ds u64_max.

(** The counts [refresh] takes over the lane tables. *)
Record Capacity := mkCapacity {
  all_fresh : bool;
  ready_fast : nat;
  ready_cancel : nat;
  eligible_cancel : nat;
  total_cancel : nat;
  busy_fast : nat;
  n_probation_busy : nat;
  free_fast : nat;
  verified_free : nat;
  all_verified : bool;
  backoff : bool }.

Definition capacity (self : AccountExecutionAdmission) (now_ns : Z) : Capacity :=
  let fr l := fresh l now_ns (stale_after_ns (config self)) in
  {| all_fresh := forallb fr (lanes self);
     ready_fast := count (λ l, fr l && ready l) (fast self);
     ready_cancel := count (λ l, negb (reserved_cancel l) && fr l && cancel_ready l) (cancel self);
     eligible_cancel :=
       count (λ l, negb (reserved_cancel l) && fr l && cancel_probe_eligible l now_ns) (cancel self);
     total_cancel := count (λ l, negb (reserved_cancel l)) (cancel self);
     busy_fast := count busy (fast self);
     n_probation_busy := count (λ l, fr l && ready l && negb (verified l) && busy l) (fast self);
     free_fast := count (λ l, fr l && ready l && negb (busy l)) (fast self);
     verified_free := count (λ l, fr l && ready l && verified l && negb (busy l)) (fast self);
     all_verified := forallb verified (fast self);
     backoff := now_ns <? pause_until_ns self |}.

Definition cap_paused (c : Capacity) : bool :=
  (ready_fast c =? 0)%nat || (eligible_cancel c =? 0)%nat || backoff c.

Definition nat_of_bool (b : bool) : nat := if b then 1 else 0.

(** [(state, slots)] of the four branches, [recovery_required] being the value
    after the [ready_cancel == 0] update. *)
Definition decide_state (c : Capacity) (n_fast : nat) (recovery_required : bool)
    (probe : option RecoveryProbe) : ExecutionAdmissionState * nat :=
  if cap_paused c then (Paused, 0%nat)
  else if recovery_required then
    (Recovering,
     nat_of_bool ((busy_fast c =? 0)%nat && bool_decide (probe = None) && (0 <? free_fast c)%nat))
  else if all_fresh c && (ready_fast c =? n_fast)%nat && (ready_cancel c =? total_cancel c)%nat
          && all_verified c
  then (Healthy, free_fast c)
  else
    let probation_free := (free_fast c - verified_free c)%nat in
    (Degraded,
     (verified_free c
      + nat_of_bool ((n_probation_busy c =? 0)%nat && (0 <? probation_free)%nat))%nat).

(** The body of [refresh] after the cache test. *)
Definition recompute (self : AccountExecutionAdmission) (now_ns : Z) : AccountExecutionAdmission :=
  let c := capacity self now_ns in
  let paused := cap_paused c in
  let required := recovery_required self || (ready_cancel c =? 0)%nat || paused in
  let successes := if paused then 0 else recovery_successes self in
  let probe' := if paused then None else probe self in
  let '(st, n) := decide_state c (length (fast self)) required (probe self) in
  let slots := Z.min u16_max (Z.of_nat n) in
  let adm := admission self in
  let epoch :=
    if bool_decide (adm_state adm = st) && (available_place_slots adm =? slots)
    then adm_epoch adm else adm_epoch adm +s 1 in
  self <| dirty := false |>
       <| next_change_ns := earliest_after now_ns (deadlines self) |>
       <| probation_busy := (0 <? n_probation_busy c)%nat |>
       <| recovery_required := required |>
       <| recovery_successes := successes |>
       <| probe := probe' |>
       <| admission := mkExecutionAdmission (adm_exchange adm) epoch st slots now_ns |>.

Definition set_observed (self : AccountExecutionAdmission) (now_ns : Z) :
    AccountExecutionAdmission :=
  let adm := admission self in
  self <| admission := mkExecutionAdmission (adm_exchange adm) (adm_epoch adm) (adm_state adm)
                         (available_place_slots adm) now_ns |>.

Definition refresh (self : AccountExecutionAdmission) (now_ns : Z) : AccountExecutionAdmission :=
  if negb (dirty self) && (adm_observed_at_ns (admission self) <=? now_ns)
     && (now_ns <? next_change_ns self)
  then set_observed self now_ns
  else recompute self now_ns.

Definition can_place (self : AccountExecutionAdmission) (now_ns : Z) :
    bool * AccountExecutionAdmission :=
  let self := refresh self now_ns in (allows_place (admission self), self).

Definition lane_place_allowed (self : AccountExecutionAdmission) (slot : nat) (now_ns : Z) :
    bool * AccountExecutionAdmission :=
  let '(can, self) := can_place self now_ns in
  (can && match fast self !! slot with
          | Some lane =>
              fresh lane now_ns (stale_after_ns (config self)) && ready lane && negb (busy lane)
              && (recovery_required self || verified lane || negb (probation_busy self))
          | None => false
          end, self).

Definition reserve_cancel_slot (self : AccountExecutionAdmission) (slot : nat) :
    AccountExecutionAdmission :=
  let self := self <| dirty := true |>
                   <| cancel := alter (λ l, l <| reserved_cancel := true |>) slot (cancel self) |> in
  refresh self (adm_observed_at_ns (admission self)).

Definition mark_delivery_fault (self : AccountExecutionAdmission) (role : Role) (slot : nat)
    (now_ns : Z) : AccountExecutionAdmission :=
  refresh (lane_mut self role slot (λ l, l <| delivery_fault := true |>)) now_ns.

Definition lane_generation (self : AccountExecutionAdmission) (slot : nat) : option Z :=
  match fast self !! slot with
  | Some lane =>
      if fresh lane (adm_observed_at_ns (admission self)) (stale_after_ns (config self))
      then Some (generation lane) else None
  | None => None
  end.

Definition place_dispatched (self : AccountExecutionAdmission) (slot : nat) (now_ns : Z) :
    AccountExecutionAdmission :=
  let self := self <| dirty := true |> in
  let self :=
    match fast self !! slot with
    | Some lane =>
        let self :=
          if recovery_required self && bool_decide (probe self = None)
          then self <| probe := Some (mkProbe slot (generation lane) (business_attempt lane) now_ns) |>
          else self in
        self <| fast := alter (λ l, l <| busy := true |> <| dispatched_at_ns := Some now_ns |>)
                          slot (fast self) |>
    | None => self
    end in
  refresh self now_ns.

Definition place_not_sent (self : AccountExecutionAdmission) (slot : nat) (now_ns : Z) :
    AccountExecutionAdmission :=
  let self := self <| dirty := true |>
                   <| fast := alter (λ l, l <| busy := false |> <| dispatched_at_ns := None |>)
                                slot (fast self) |> in
  let self :=
    match probe self with
    | Some p => if (probe_slot p =? slot)%nat then self <| probe := None |> else self
    | None => self
    end in
  refresh self now_ns.

(** ** observe *)

(** Out of order: the message is ignored. *)
Definition obs_out_of_order (o : LaneObservation) (previous : LaneState) : bool :=
  (lo_sequence o <=? sequence previous)
  || (pool_generation (lo_health o) <? generation previous).

(** Newer but inconsistent: the lane is put in delivery fault. *)
Definition obs_invalid (o : LaneObservation) (previous : LaneState) (now_ns : Z) : bool :=
  (now_ns <? lo_observed_at_ns o)
  || (lo_observed_at_ns o <? observed_at_ns previous)
  || (lo_cumulative_failures o <? cumulative_failures previous)
  || (lo_cumulative_slow o <? cumulative_slow previous)
  || (lo_cumulative_slow_retired o <? cumulative_slow_retired previous)
  || (lo_cumulative_slow o <? lo_cumulative_slow_retired o)
  || ((0 <? lo_cumulative_slow_retired o)
      && (pool_generation (lo_health o) <? lo_slow_retired_generation o))
  || (lo_cumulative_no_response o <? cumulative_no_response previous)
  || (lo_cumulative_failures o <? lo_cumulative_no_response o)
  || ((0 <? lo_cumulative_no_response o)
      && (pool_generation (lo_health o) <? lo_no_response_generation o)).

(** What one accepted observation says, relative to the lane's previous state. *)
Record Evidence := mkEvidence {
  ev_transport_reset : bool;
  ev_slow : bool;
  ev_business : option BusinessHttpOutcomeSnapshot;
  ev_healthy : bool;
  ev_failure : bool;
  ev_business_slow : bool;
  ev_failed_probe : bool }.

Definition is_some_and {A} (o : option A) (f : A → bool) : bool :=
  match o with Some x => f x | None => false end.

Definition is_none_or {A} (o : option A) (f : A → bool) : bool :=
  match o with Some x => f x | None => true end.

Definition classify (role : Role) (slot : nat) (o : LaneObservation) (previous : LaneState)
    (probe : option RecoveryProbe) : Evidence :=
  let business :=
    match lo_business o with
    | Some b => if (business_attempt previous <? attempt_id b)
                   && (bo_pool_generation b =? pool_generation (lo_health o))
                then Some b else None
    | None => None
    end in
  let failure :=
    (cumulative_failures previous <? lo_cumulative_failures o)
    || is_some_and business (λ b, bool_decide (outcome b = Failure)
                                  || bool_decide (outcome b = TransportUncertain)) in
  {| ev_transport_reset :=
       (cumulative_no_response previous <? lo_cumulative_no_response o)
       && is_none_or (retired_generation previous) (λ r, r <? lo_no_response_generation o);
     ev_slow := cumulative_slow previous <? lo_cumulative_slow o;
     ev_business := business;
     ev_healthy :=
       is_some_and business (λ b, bool_decide (outcome b = HttpHealthy)
                                  && (elapsed_ns b <? SLOW_HTTP_NS));
     ev_failure := failure;
     ev_business_slow :=
       is_some_and business (λ b, bool_decide (outcome b = SlowResponded)
                                  || bool_decide (outcome b = SlowRetired)
                                  || (bool_decide (outcome b = HttpHealthy)
                                      && (SLOW_HTTP_NS <=? elapsed_ns b)));
     ev_failed_probe :=
       failure && is_some_and probe (λ p, bool_decide (role = Fast)
                                          && (slot =? probe_slot p)%nat
                                          && (probe_dispatched_at_ns p <=? lo_observed_at_ns o)) |}.

Definition ev_adverse (e : Evidence) : bool := ev_failure e || ev_slow e || ev_business_slow e.

(** The update of the observed lane, in the order of the source: its evidence
    fields, its occupancy, the adverse outcome, the healthy outcome, and the
    final verdict (retire the generation, or verify the lane). *)
Definition lane_stamp (o : LaneObservation) (lane : LaneState) : LaneState :=
  let lane :=
    if pool_generation (lo_health o) =? generation lane then lane
    else lane <| verified := false |> in
  lane <| repair_key := match lo_repair o with
                        | Some r => (claimed_mono_ns r, ready_mono_ns r, attempts r)
                        | None => (0, 0, 0) end |>
       <| sequence := lo_sequence o |>
       <| observed_at_ns := lo_observed_at_ns o |>
       <| generation := pool_generation (lo_health o) |>
       <| lane_quarantined := quarantined (lo_health o) |>
       <| cumulative_failures := lo_cumulative_failures o |>
       <| cumulative_slow := lo_cumulative_slow o |>
       <| cumulative_no_response := lo_cumulative_no_response o |>
       <| cumulative_slow_retired := lo_cumulative_slow_retired o |>
       <| delivery_fault := false |>
       <| business_attempt := match lo_business o with
                              | Some b => Z.max (business_attempt lane) (attempt_id b)
                              | None => business_attempt lane end |>.

(** An idle heartbeat queued before a dispatch cannot clear the dispatch. *)
Definition lane_occupancy (o : LaneObservation) (lane : LaneState) : LaneState :=
  if is_none_or (dispatched_at_ns lane) (λ d, d <=? lo_observed_at_ns o) then
    let lane := lane <| busy := lo_busy o |> in
    if lo_busy o then lane else lane <| dispatched_at_ns := None |>
  else lane.

Definition lane_adverse (config : AdmissionConfig) (e : Evidence) (now_ns : Z)
    (lane : LaneState) : LaneState :=
  if ev_adverse e then
    let pause := pause_duration config (lane_failure_streak lane) in
    lane <| verified := false |>
         <| business_failed := true |>
         <| lane_failure_streak := Z.min u32_max (lane_failure_streak lane + 1) |>
         <| failure_eligible_after_ns := now_ns +s pause |>
  else lane.

Definition lane_heal (e : Evidence) (lane : LaneState) : LaneState :=
  if ev_healthy e && negb (ev_slow e)
     && negb (option_eqb (retired_generation lane) (generation lane))
  then lane <| business_failed := false |>
            <| lane_failure_streak := 0 |>
            <| failure_eligible_after_ns := 0 |>
  else lane.

Definition lane_verdict (o : LaneObservation) (previous : LaneState) (e : Evidence)
    (lane : LaneState) : LaneState :=
  if is_some_and (ev_business e) (λ b, bool_decide (outcome b = SlowRetired))
     || ((cumulative_slow_retired previous <? lo_cumulative_slow_retired o)
         && (lo_slow_retired_generation o =? generation lane))
  then lane <| retired_generation := Some (generation lane) |>
  else if ev_healthy e && negb (ev_failure e) && negb (ev_slow e) && ready lane
  then lane <| verified := true |>
  else lane.

Definition lane_observe (config : AdmissionConfig) (o : LaneObservation) (previous : LaneState)
    (e : Evidence) (now_ns : Z) (lane : LaneState) : LaneState :=
  lane_verdict o previous e
    (lane_heal e (lane_adverse config e now_ns (lane_occupancy o (lane_stamp o lane)))).

(** A probe is resolved by an idle observation of its lane made after its
    dispatch, and succeeds on a newer healthy result of the same generation. *)
Definition probe_resolved (role : Role) (slot : nat) (o : LaneObservation) (p : RecoveryProbe) :
    bool :=
  bool_decide (role = Fast) && (slot =? probe_slot p)%nat
  && (probe_dispatched_at_ns p <=? lo_observed_at_ns o) && negb (lo_busy o).

Definition probe_success (o : LaneObservation) (e : Evidence) (p : RecoveryProbe) : bool :=
  ev_healthy e && negb (ev_failure e) && negb (ev_slow e)
  && (pool_generation (lo_health o) =? probe_generation p)
  && is_some_and (ev_business e) (λ b, after_attempt p <? attempt_id b).

(** The account-wide consequences, in the order of the source. *)
Definition apply_reset (self : AccountExecutionAdmission) (o : LaneObservation) (e : Evidence)
    (now_ns : Z) : AccountExecutionAdmission :=
  if ev_transport_reset e
  then (retire_transport_generations
          (self <| no_response_resets := no_response_resets self +s 1 |>) now_ns)
         <| transport_reset_peer := lo_no_response_peer o |>
  else self.

Definition apply_failure (self : AccountExecutionAdmission) (role : Role) (slot : nat)
    (e : Evidence) (now_ns : Z) : AccountExecutionAdmission :=
  let self := if ev_failure e then note_failure self role slot now_ns else self in
  let self := if ev_failed_probe e && (pause_until_ns self <=? now_ns)
              then pause_for_recovery self now_ns else self in
  if ev_adverse e
  then self <| recovery_successes := 0 |> <| probe := None |>
  else self.

Definition apply_probe (self : AccountExecutionAdmission) (role : Role) (slot : nat)
    (o : LaneObservation) (e : Evidence) : AccountExecutionAdmission :=
  match probe self with
  | Some p =>
      if probe_resolved role slot o p then
        let self := self <| probe := None |> in
        if probe_success o e p
        then self <| recovery_successes := Z.min u8_max (recovery_successes self + 1) |>
        else self
      else self
  | None => self
  end.

Definition apply_recovery (self : AccountExecutionAdmission) (now_ns : Z) :
    AccountExecutionAdmission :=
  if (Z.max (cfg_recovery_successes (config self)) 1 <=? recovery_successes self)
     && existsb (λ l, negb (reserved_cancel l)
                      && fresh l now_ns (stale_after_ns (config self)) && cancel_ready l)
          (cancel self)
  then self <| recovery_required := false |> <| failure_streak := 0 |>
  else self.

Definition accept (self : AccountExecutionAdmission) (role : Role) (slot : nat)
    (o : LaneObservation) (previous : LaneState) (now_ns : Z) : AccountExecutionAdmission :=
  let e := classify role slot o previous (probe self) in
  let self := lane_mut self role slot (lane_observe (config self) o previous e now_ns) in
  let self := apply_reset self o e now_ns in
  let self := apply_failure self role slot e now_ns in
  let self := apply_probe self role slot o e in
  apply_recovery self now_ns.

Definition observe (self : AccountExecutionAdmission) (role : Role) (slot : nat)
    (o : LaneObservation) (now_ns : Z) : AccountExecutionAdmission :=
  match lane self role slot with
  | None => refresh self now_ns
  | Some previous =>
      if obs_out_of_order o previous then refresh self now_ns
      else if obs_invalid o previous now_ns then mark_delivery_fault self role slot now_ns
      else refresh (accept self role slot o previous now_ns) now_ns
  end.

(** ** Cancel routing and diagnostics *)

Definition enumerate {A} (l : list A) : list (nat * A) := imap (λ i x, (i, x)) l.

Definition cancel_verified (self : AccountExecutionAdmission) (now_ns : Z) (l : LaneState) : bool :=
  fresh l now_ns (stale_after_ns (config self)) && cancel_ready l && verified l.

Definition cancel_trial (self : AccountExecutionAdmission) (now_ns : Z) (l : LaneState) : bool :=
  negb (reserved_cancel l) && business_failed l
  && fresh l now_ns (stale_after_ns (config self)) && cancel_probe_eligible l now_ns
  && (failure_eligible_after_ns l +s CANCEL_PROBATION_WAIT_NS <=? now_ns).

(** [(lane.failure_eligible_after_ns, slot)] in lexicographic order. *)
Definition trial_key_cmp (a b : nat * LaneState) : comparison :=
  match failure_eligible_after_ns (snd a) ?= failure_eligible_after_ns (snd b) with
  | Eq => Nat.compare (fst a) (fst b)
  | c => c
  end.

Definition cancel_probation_slot (self : AccountExecutionAdmission) (now_ns : Z) : option nat :=
  if negb (existsb (λ l, negb (reserved_cancel l) && cancel_verified self now_ns l) (cancel self))
  then None
  else fst <$> min_by trial_key_cmp
                 (List.filter (λ p, cancel_trial self now_ns (snd p)) (enumerate (cancel self))).

Definition cancel_lane_rank (self : AccountExecutionAdmission) (slot : nat) (now_ns : Z) : Z :=
  match cancel self !! slot with
  | Some l =>
      if cancel_verified self now_ns l then 0
      else if bool_decide (cancel_probation_slot self now_ns = Some slot) then 0
      else if fresh l now_ns (stale_after_ns (config self)) && cancel_probe_eligible l now_ns then 1
      else 2
  | None => 2
  end.

Definition evidence_changed (self : AccountExecutionAdmission) (role : Role) (slot : nat)
    (o : LaneObservation) : bool :=
  match lane self role slot with
  | None => false
  | Some old =>
      (sequence old <? lo_sequence o)
      && (negb (bool_decide (repair_key old = match lo_repair o with
                             | Some r => (claimed_mono_ns r, ready_mono_ns r, attempts r)
                             | None => (0, 0, 0) end))
          || negb (generation old =? pool_generation (lo_health o))
          || negb (Bool.eqb (lane_quarantined old) (quarantined (lo_health o)))
          || negb (Bool.eqb (busy old) (lo_busy o))
          || (business_attempt old <? match lo_business o with Some b => attempt_id b | None => 0 end)
          || negb (cumulative_failures old =? lo_cumulative_failures o)
          || negb (cumulative_slow old =? lo_cumulative_slow o)
          || negb (cumulative_no_response old =? lo_cumulative_no_response o)
          || negb (cumulative_slow_retired old =? lo_cumulative_slow_retired o))
  end.

(** [u8::from(b) << k] and the slot masks, which cover the first 64 lanes. *)
Definition bit (b : bool) (k : Z) : Z := Z.shiftl (Z.b2z b) k.

Definition mask (p : LaneState → bool) (ls : list LaneState) : Z :=
  fold_left (λ m '(slot, l), if (slot <? 64)%nat then Z.lor m (bit (p l) (Z.of_nat slot)) else m)
    (enumerate ls) 0.

Record AdmissionCapacityDetail := mkDetail {
  d_ready_fast : Z;
  d_verified_free : Z;
  d_probation_free : Z;
  d_probation_busy : Z;
  d_eligible_cancel : Z;
  d_ready_cancel : Z;
  d_failed_cancel_mask : Z;
  d_unready_cancel_mask : Z;
  d_unverified_fast_mask : Z;
  d_failed_fast_mask : Z;
  d_ready_mask : Z;
  d_verified_mask : Z;
  d_busy_mask : Z;
  d_reason : string;
  d_health_blockers : Z;
  d_health_reason : string;
  d_blockers : Z;
  d_pause_until_ns : Z;
  d_recovery_successes : Z;
  d_recovery_required : bool;
  d_probe_dispatched_at_ns : Z;
  d_probe_attempt_after : Z }.

Definition fast_health_bits (fr : LaneState → bool) (l : LaneState) : Z :=
  Z.lor (Z.lor (bit (negb (fr l)) 0) (bit (negb (ready l)) 1)) (bit (negb (verified l)) 2).

Definition cancel_health_bits (fr : LaneState → bool) (l : LaneState) : Z :=
  if reserved_cancel l then bit (negb (fr l)) 6
  else Z.lor (Z.lor (bit (negb (fr l)) 3) (bit (negb (ready l)) 4)) (bit (business_failed l) 5).

Definition health_blockers (fr : LaneState → bool) (fast cancel : list LaneState) : Z :=
  fold_left (λ b l, Z.lor b (cancel_health_bits fr l)) cancel
    (fold_left (λ b l, Z.lor b (fast_health_bits fr l)) fast 0).

Definition health_reason (blockers : Z) : string :=
  match blockers with
  | 0 => "none"
  | 1 => "fast_stale"
  | 2 => "fast_transport_unready"
  | 4 => "fast_business_unverified"
  | 8 => "cancel_stale"
  | 16 => "cancel_transport_unready"
  | 32 => "cancel_business_failed"
  | 64 => "reserved_cancel_stale"
  | _ => "multiple"
  end.

(** A [u16] counter incremented once per matching lane. *)
Definition count_u16 (p : LaneState → bool) (ls : list LaneState) : Z :=
  Z.of_nat (count p ls) mod 2 ^ 16.

Definition capacity_detail (self : AccountExecutionAdmission) (now_ns : Z) :
    AdmissionCapacityDetail :=
  let fr l := fresh l now_ns (stale_after_ns (config self)) in
  let ready_fast := count_u16 (λ l, fr l && ready l) (fast self) in
  let eligible_cancel := Z.min u16_max (Z.of_nat
    (count (λ l, negb (reserved_cancel l) && fr l && cancel_probe_eligible l now_ns) (cancel self))) in
  let health := health_blockers fr (fast self) (cancel self) in
  {| d_ready_fast := ready_fast;
     d_verified_free := count_u16 (λ l, fr l && ready l && verified l && negb (busy l)) (fast self);
     d_probation_free :=
       count_u16 (λ l, fr l && ready l && negb (verified l) && negb (busy l)) (fast self);
     d_probation_busy :=
       count_u16 (λ l, fr l && ready l && negb (verified l) && busy l) (fast self);
     d_eligible_cancel := eligible_cancel;
     d_ready_cancel := Z.min u16_max (Z.of_nat
       (count (λ l, negb (reserved_cancel l) && fr l && cancel_ready l) (cancel self)));
     d_failed_cancel_mask := mask (λ l, negb (reserved_cancel l) && business_failed l) (cancel self);
     d_unready_cancel_mask :=
       mask (λ l, negb (reserved_cancel l) && (negb (fr l) || negb (ready l))) (cancel self);
     d_unverified_fast_mask := mask (λ l, negb (verified l)) (fast self);
     d_failed_fast_mask := mask business_failed (fast self);
     d_ready_mask := mask (λ l, fr l && ready l) (fast self);
     d_verified_mask := mask (λ l, fr l && ready l && verified l) (fast self);
     d_busy_mask := mask busy (fast self);
     d_reason :=
       if allows_place (admission self) then "open"
       else if ready_fast =? 0 then "no_ready_fast"
       else if eligible_cancel =? 0 then "no_ordinary_cancel"
       else if now_ns <? pause_until_ns self then "recovery_backoff"
       else if recovery_required self then "recovery_inflight"
       else "eligible_capacity_inflight";
     d_health_blockers := health;
     d_health_reason := health_reason health;
     d_blockers :=
       Z.lor (Z.lor (Z.lor (Z.lor (Z.lor
         (bit (ready_fast =? 0) 0) (bit (eligible_cancel =? 0) 1))
         (bit (now_ns <? pause_until_ns self) 2)) (bit (existsb busy (fast self)) 3))
         (bit (negb (bool_decide (probe self = None))) 4)) (bit (recovery_required self) 5);
     d_pause_until_ns := pause_until_ns self;
     d_recovery_successes := recovery_successes self;
     d_recovery_required := recovery_required self;
     d_probe_dispatched_at_ns :=
       match probe self with Some p => probe_dispatched_at_ns p | None => 0 end;
     d_probe_attempt_after := match probe self with Some p => after_attempt p | None => 0 end |}.

(** ** Steps of the router *)

Inductive Op :=
  | OpObserve (role : Role) (slot : nat) (o : LaneObservation) (now_ns : Z)
  | OpDeliveryFault (role : Role) (slot : nat) (now_ns : Z)
  | OpRefresh (now_ns : Z)
  | OpPlaceAllowed (slot : nat) (now_ns : Z)
  | OpDispatched (slot : nat) (now_ns : Z)
  | OpNotSent (slot : nat) (now_ns : Z)
  | OpReserveCancel (slot : nat)
  | OpRetire (now_ns : Z) (peer : option IpAddr)
  | OpTakeReset.

Definition apply_op (self : AccountExecutionAdmission) (op : Op) : AccountExecutionAdmission :=
  match op with
  | OpObserve role slot o now => observe self role slot o now
  | OpDeliveryFault role slot now => mark_delivery_fault self role slot now
  | OpRefresh now => refresh self now
  | OpPlaceAllowed slot now => (lane_place_allowed self slot now).2
  | OpDispatched slot now => place_dispatched self slot now
  | OpNotSent slot now => place_not_sent self slot now
  | OpReserveCancel slot => reserve_cancel_slot self slot
  | OpRetire now peer => retire_transport_generations_avoiding self now peer
  | OpTakeReset => (take_transport_reset self).2
  end.

Definition run (self : AccountExecutionAdmission) (ops : list Op) : AccountExecutionAdmission :=
  fold_left apply_op ops self.

Definition reachable (self : AccountExecutionAdmission) : Prop :=
  ∃ nf nc now cfg ops, self = run (with_config nf nc now cfg) ops.

(** ** The cache of [refresh] *)

Arguments decide_state : simpl never.
Arguments cap_paused : simpl never.
Arguments capacity : simpl never.
Arguments deadlines : simpl never.
Arguments saturating_add : simpl never.
Arguments saturating_sub : simpl never.
Arguments saturating_mul : simpl never.
Arguments fresh : simpl never.
Arguments ready : simpl never.

Lemma earliest_after_fold now ds acc :
  let next := fold_left (λ next d, if now <? d then Z.min next d else next) ds acc in
  next ≤ acc ∧ ∀ d, d ∈ ds → now < d → next ≤ d.
Proof.
  simpl. revert acc. induction ds as [|x ds IH]; intros acc; simpl.
  { split; [lia|]. intros d Hd. by apply not_elem_of_nil in Hd. }
  destruct (IH (if now <? x then Z.min acc x else acc)) as [H1 H2].
  split; [destruct (now <? x); lia|]. intros d [->|Hd]%elem_of_cons Hlt; [|by apply H2].
  replace (now <? x) with true in * by (symmetry; lia). lia.
Qed.

Lemma earliest_after_max now ds : earliest_after now ds ≤ u64_max.
Proof. exact (proj1 (earliest_after_fold now ds u64_max)). Qed.

Lemma earliest_after_lt now ds d : d ∈ ds → now < d → earliest_after now ds ≤ d.
Proof. exact (proj2 (earliest_after_fold now ds u64_max) d). Qed.

(** No deadline separates [now] from [t]. *)
Definition quiet (ds : list Z) (now t : Z) : Prop :=
  now ≤ t < u64_max ∧ ∀ d, d ∈ ds → (now <? d) = (t <? d).

Lemma quiet_before_earliest ds now t :
  now ≤ t < earliest_after now ds → quiet ds now t.
Proof.
  intros Ht. pose proof (earliest_after_max now ds). split; [lia|].
  intros d Hd. destruct (now <? d) eqn:E; bool_hyps; symmetry.
  - pose proof (earliest_after_lt now ds d Hd E). lia.
  - lia.
Qed.

Lemma earliest_after_quiet ds now t :
  quiet ds now t → earliest_after t ds = earliest_after now ds.
Proof.
  intros [_ H]. unfold earliest_after. generalize u64_max.
  induction ds as [|d ds IH]; intros acc; simpl; [done|].
  rewrite (H d) by left. apply IH. intros d' Hd'. apply H. by right.
Qed.

Lemma quiet_lane s now t l :
  quiet (deadlines s) now t → l ∈ lanes s → quiet (lane_deadlines (config s) l) now t.
Proof.
  intros [Hr H] Hl. split; [done|]. intros d Hd. apply H. unfold deadlines.
  rewrite elem_of_app. left. rewrite list_elem_of_In, in_concat.
  exists (lane_deadlines (config s) l). split; [|by apply list_elem_of_In].
  apply in_map. by apply list_elem_of_In.
Qed.

Lemma fresh_quiet cfg now t l :
  quiet (lane_deadlines cfg l) now t →
  fresh l t (stale_after_ns cfg) = fresh l now (stale_after_ns cfg).
Proof.
  intros [Hr H]. unfold fresh.
  pose proof (H (observed_at_ns l) ltac:(left)) as H1.
  pose proof (H (observed_at_ns l +s stale_after_ns cfg +s 1) ltac:(right; left)) as H2.
  rewrite <- !andb_assoc. do 2 f_equal. apply eq_bool_prop_intro.
  rewrite !andb_True, !Is_true_true, !Z.leb_le. clear H.
  destruct (now <? observed_at_ns l) eqn:?, (t <? observed_at_ns l) eqn:?; try done;
  destruct (now <? _ +s 1) eqn:?, (t <? _ +s 1) eqn:?; try done; bool_hyps; word.
Qed.

Lemma eligible_quiet cfg now t l :
  quiet (lane_deadlines cfg l) now t → cancel_probe_eligible l t = cancel_probe_eligible l now.
Proof.
  intros [_ H]. unfold cancel_probe_eligible.
  pose proof (H (failure_eligible_after_ns l) ltac:(do 2 right; left)) as H1.
  do 2 f_equal. destruct (now <? _) eqn:?, (t <? _) eqn:?; try done; bool_hyps;
    apply eq_bool_prop_intro; rewrite !Is_true_true, !Z.leb_le; lia.
Qed.

Lemma forallb_ext_in {A} (p q : A → bool) (l : list A) :
  (∀ x, x ∈ l → p x = q x) → forallb p l = forallb q l.
Proof.
  induction l as [|x l IH]; intros H; simpl; [done|].
  rewrite H by left. f_equal. apply IH. intros y Hy. apply H. by right.
Qed.

Lemma capacity_quiet s now t :
  quiet (deadlines s) now t → capacity s t = capacity s now.
Proof.
  intros Hq.
  assert (∀ l, l ∈ lanes s →
    fresh l t (stale_after_ns (config s)) = fresh l now (stale_after_ns (config s))) as Hfr
    by (intros l Hl; by apply fresh_quiet, (quiet_lane s)).
  assert (∀ l, l ∈ fast s → l ∈ lanes s) as Hfast by (intros; apply elem_of_app; auto).
  assert (∀ l, l ∈ cancel s → l ∈ lanes s) as Hcancel by (intros; apply elem_of_app; auto).
  unfold capacity. f_equal.
  - by apply forallb_ext_in.
  - apply count_ext_in. intros. by rewrite Hfr by auto.
  - apply count_ext_in. intros. by rewrite Hfr by auto.
  - apply count_ext_in. intros l Hl. rewrite Hfr by auto.
    by rewrite (eligible_quiet (config s) now t) by (apply (quiet_lane s); auto).
  - apply count_ext_in. intros. by rewrite Hfr by auto.
  - apply count_ext_in. intros. by rewrite Hfr by auto.
  - apply count_ext_in. intros. by rewrite Hfr by auto.
  - destruct Hq as [_ Hq]. rewrite (Hq (pause_until_ns s)); [done|].
    apply elem_of_app. right. by left.
Qed.

(** Recomputing after a recomputation only moves the observation time. *)
Lemma decide_state_idem c n r p :
  decide_state c n ((r || (ready_cancel c =? 0)%nat || cap_paused c)
                    || (ready_cancel c =? 0)%nat || cap_paused c)
    (if cap_paused c then None else p)
  = decide_state c n (r || (ready_cancel c =? 0)%nat || cap_paused c) p.
Proof.
  unfold decide_state. destruct (cap_paused c); [done|].
  by destruct r, (ready_cancel c =? 0)%nat.
Qed.

Lemma recompute_recompute s now t :
  quiet (deadlines s) now t → recompute (recompute s now) t = set_observed (recompute s now) t.
Proof.
  intros Hq. set (s1 := recompute s now).
  assert (capacity s1 t = capacity s now ∧ deadlines s1 = deadlines s
          ∧ length (fast s1) = length (fast s)) as (Hc & Hd & Hl).
  { rewrite <- (capacity_quiet s now t) by done.
    unfold s1, recompute. by destruct (decide_state _ _ _ _). }
  unfold recompute at 1. rewrite Hc, Hd, Hl, (earliest_after_quiet _ now t Hq).
  unfold s1, recompute.
  destruct (decide_state (capacity s now) _
    (recovery_required s || _ || cap_paused _) (probe s)) as [st n] eqn:E. cbn.
  rewrite decide_state_idem, E. unfold set_observed. cbn.
  rewrite bool_decide_eq_true_2, Z.eqb_refl by done. cbn.
  destruct (cap_paused _), (recovery_required s), (ready_cancel _ =? 0)%nat; done.
Qed.

Definition cache_ok (s : AccountExecutionAdmission) : Prop :=
  dirty s = false →
  ∀ t, adm_observed_at_ns (admission s) ≤ t < next_change_ns s → recompute s t = set_observed s t.

Lemma cache_ok_dirty s : dirty s = true → cache_ok s.
Proof. intros H ?. congruence. Qed.

Lemma cache_ok_recompute s now : cache_ok (recompute s now).
Proof.
  intros _ t Ht. apply recompute_recompute, quiet_before_earliest.
  unfold recompute in Ht. by destruct (decide_state _ _ _ _).
Qed.

Lemma recompute_set_observed s t0 t :
  recompute (set_observed s t0) t = recompute s t.
Proof. done. Qed.

Lemma cache_ok_set_observed s now :
  cache_ok s → adm_observed_at_ns (admission s) ≤ now → cache_ok (set_observed s now).
Proof.
  intros H Hle Hd t Ht. rewrite recompute_set_observed.
  change (set_observed (set_observed s now) t) with (set_observed s t).
  apply H; [done|]. cbn in Ht. lia.
Qed.

Lemma cache_ok_refresh s now : cache_ok s → cache_ok (refresh s now).
Proof.
  intros H. unfold refresh. destruct (_ && _) eqn:E; [|apply cache_ok_recompute].
  bool_hyps. by apply cache_ok_set_observed.
Qed.

Lemma refresh_recompute s now : cache_ok s → refresh s now = recompute s now.
Proof.
  intros H. unfold refresh. destruct (_ && _) eqn:E; [|done].
  bool_hyps. symmetry. by apply H.
Qed.

(** ** Every operation keeps the cache sound *)

Lemma lane_mut_dirty s role slot f : dirty (lane_mut s role slot f) = true.
Proof. by destruct role. Qed.

Lemma apply_reset_dirty s o e now : dirty s = true → dirty (apply_reset s o e now) = true.
Proof. intros. unfold apply_reset. by case_match. Qed.

Lemma count_failed_lane_dirty s role slot : dirty (count_failed_lane s role slot) = true.
Proof. unfold count_failed_lane. repeat case_match; try done. apply lane_mut_dirty. Qed.

Lemma note_failure_dirty s role slot now : dirty (note_failure s role slot now) = true.
Proof. unfold note_failure. case_match; [done|]. apply count_failed_lane_dirty. Qed.

Lemma apply_failure_dirty s role slot e now :
  dirty s = true → dirty (apply_failure s role slot e now) = true.
Proof.
  intros H. unfold apply_failure.
  set (s1 := if ev_failure e then _ else _).
  assert (dirty s1 = true) by (unfold s1; case_match; [apply note_failure_dirty|done]).
  repeat case_match; done.
Qed.

Lemma apply_probe_dirty s role slot o e : dirty (apply_probe s role slot o e) = dirty s.
Proof. unfold apply_probe. repeat case_match; done. Qed.

Lemma apply_recovery_dirty s now : dirty (apply_recovery s now) = dirty s.
Proof. unfold apply_recovery. by case_match. Qed.

Lemma accept_dirty s role slot o l now : dirty (accept s role slot o l now) = true.
Proof.
  unfold accept. cbv zeta. rewrite apply_recovery_dirty, apply_probe_dirty.
  apply apply_failure_dirty, apply_reset_dirty, lane_mut_dirty.
Qed.

#[local] Hint Resolve cache_ok_refresh cache_ok_dirty lane_mut_dirty accept_dirty : hex.

Lemma cache_ok_take_reset s : cache_ok s → cache_ok (take_transport_reset s).2.
Proof.
  intros H Hd t Ht. specialize (H Hd t Ht).
  assert (recompute (take_transport_reset s).2 t
          = (recompute s t) <| transport_reset_pending := false |>) as ->.
  { unfold recompute. cbn. by destruct (decide_state _ _ _ _). }
  by rewrite H.
Qed.

Lemma cache_ok_op s op : cache_ok s → cache_ok (apply_op s op).
Proof.
  intros H. destruct op; simpl; auto with hex.
  - unfold observe, mark_delivery_fault. destruct (lane s role slot); auto with hex.
    destruct (obs_out_of_order _ _); auto with hex. destruct (obs_invalid _ _ _); auto with hex.
  - unfold mark_delivery_fault. auto with hex.
  - unfold place_dispatched. apply cache_ok_refresh, cache_ok_dirty. repeat case_match; done.
  - unfold place_not_sent. apply cache_ok_refresh, cache_ok_dirty. repeat case_match; done.
  - unfold reserve_cancel_slot. apply cache_ok_refresh, cache_ok_dirty. done.
  - apply cache_ok_take_reset, H.
Qed.

Lemma run_invariant (P : AccountExecutionAdmission → Prop) :
  (∀ s op, P s → P (apply_op s op)) → ∀ ops s, P s → P (run s ops).
Proof. intros Hop ops. induction ops as [|op ops IH]; intros s Hs; simpl; auto. Qed.

Lemma reachable_cache_ok s : reachable s → cache_ok s.
Proof.
  intros (nf & nc & now & cfg & ops & ->). apply run_invariant; [apply cache_ok_op|].
  by apply cache_ok_dirty.
Qed.

(** C4: The fast path of [refresh], which returns the cached decision while no
    lane lease, failure timer or pause deadline has been crossed, produces
    exactly the state a full recomputation would, on every state the router can
    reach and for every clock reading, also one that runs backwards. *)
Theorem refresh_cache_exact s now_ns : reachable s → refresh s now_ns = recompute s now_ns.
Proof. intros H. by apply refresh_recompute, reachable_cache_ok. Qed.

Lemma refresh_cache_exact_witness :
  refresh (refresh (new 2 1 5) 6) 7 = recompute (refresh (new 2 1 5) 6) 7.
Proof.
  apply (refresh_cache_exact (refresh (new 2 1 5) 6) 7).
  exists 2%nat, 1%nat, 5, default_config, [OpRefresh 6]. reflexivity.
Defined.

(** ** What a decision guarantees *)

Lemma recompute_fields s now :
  let c := capacity s now in
  let s' := recompute s now in
  let required := recovery_required s || (ready_cancel c =? 0)%nat || cap_paused c in
  let d := decide_state c (length (fast s)) required (probe s) in
  fast s' = fast s ∧ cancel s' = cancel s ∧ config s' = config s
  ∧ pause_until_ns s' = pause_until_ns s
  ∧ recovery_required s' = required
  ∧ probe s' = (if cap_paused c then None else probe s)
  ∧ probation_busy s' = (0 <? n_probation_busy c)%nat
  ∧ adm_state (admission s') = d.1
  ∧ available_place_slots (admission s') = Z.min u16_max (Z.of_nat d.2)
  ∧ adm_observed_at_ns (admission s') = now.
Proof. cbv zeta. unfold recompute. by destruct (decide_state _ _ _ _). Qed.

Lemma cap_paused_false c :
  cap_paused c = false ↔ (0 < ready_fast c)%nat ∧ (0 < eligible_cancel c)%nat ∧ backoff c = false.
Proof. unfold cap_paused. rewrite !orb_false_iff, !Nat.eqb_neq, <- !Nat.neq_0_lt_0. tauto. Qed.

(** The hypotheses under which new orders may be placed at all. *)
Definition cancel_route (s : AccountExecutionAdmission) (now_ns : Z) : Prop :=
  ∃ l, l ∈ cancel s ∧ reserved_cancel l = false
       ∧ fresh l now_ns (stale_after_ns (config s)) = true ∧ cancel_probe_eligible l now_ns = true.

Definition fast_route (s : AccountExecutionAdmission) (now_ns : Z) : Prop :=
  ∃ l, l ∈ fast s ∧ fresh l now_ns (stale_after_ns (config s)) = true ∧ ready l = true.

Lemma open_capacity s now :
  cap_paused (capacity s now) = false
  ↔ fast_route s now ∧ cancel_route s now ∧ pause_until_ns s ≤ now.
Proof.
  rewrite cap_paused_false. unfold capacity; simpl. rewrite !count_pos, Z.ltb_ge.
  unfold fast_route, cancel_route. split.
  - intros ((l & Hl & H1) & (l' & Hl' & H2) & ?). bool_hyps. eauto 10.
  - intros ((l & Hl & H1 & H2) & (l' & Hl' & H3 & H4 & H5) & ?). split_and!; [| |done].
    + exists l. by rewrite H1, H2.
    + exists l'. by rewrite H3, H4, H5.
Qed.

Lemma count_zero {A} (p : A → bool) l : count p l = 0%nat ↔ ∀ x, x ∈ l → p x = false.
Proof.
  split.
  - intros H x Hx. destruct (p x) eqn:E; [|done]. exfalso.
    assert (0 < count p l)%nat by (apply count_pos; eauto). lia.
  - intros H. destruct (decide (count p l = 0%nat)); [done|].
    destruct (proj1 (count_pos p l)) as (x & Hx & Hp); [lia|]. by rewrite H in Hp.
Qed.

Lemma decide_recovering c n p :
  cap_paused c = false → (0 < (decide_state c n true p).2)%nat →
  busy_fast c = 0%nat ∧ p = None ∧ (0 < free_fast c)%nat.
Proof.
  intros Hp. unfold decide_state. rewrite Hp. cbn.
  destruct (_ && _ && _) eqn:E; cbn; [|lia]. intros _. bool_hyps.
  by rewrite <- Nat.eqb_eq, <- Nat.ltb_lt.
Qed.

Lemma decide_not_paused c n r p :
  (decide_state c n r p).1 ≠ Paused → cap_paused c = false.
Proof. unfold decide_state. by destruct (cap_paused c). Qed.

(** C8: Admitting an order on a lane is fail closed.  Whenever
    [lane_place_allowed] says yes, the lane exists, its lease is fresh, its
    transport generation is usable and it is idle; an ordinary cancel route is
    available and no recovery pause is running.  While recovering, nothing at
    all is in flight; otherwise an unverified lane is used only when no other
    unverified lane is busy. *)
Theorem lane_place_allowed_sound s slot now_ns :
  reachable s →
  (lane_place_allowed s slot now_ns).1 = true →
  let s' := (lane_place_allowed s slot now_ns).2 in
  let fr l := fresh l now_ns (stale_after_ns (config s)) in
  (∃ l, fast s !! slot = Some l ∧ fr l = true ∧ ready l = true ∧ busy l = false
        ∧ (recovery_required s' = false → verified l = true
           ∨ ∀ l', l' ∈ fast s → fr l' && ready l' && negb (verified l') && busy l' = false))
  ∧ cancel_route s now_ns ∧ pause_until_ns s ≤ now_ns
  ∧ (recovery_required s' = true → probe s' = None ∧ ∀ l, l ∈ fast s → busy l = false).
Proof.
  intros Hr. unfold lane_place_allowed, can_place. rewrite refresh_recompute by (by apply reachable_cache_ok). simpl.
  destruct (recompute_fields s now_ns) as (-> & _ & -> & _ & -> & -> & -> & Hst & Hsl & _).
  unfold allows_place. rewrite Hst, Hsl. clear Hst Hsl.
  set (c := capacity s now_ns). intros H. bool_hyps.
  assert (Hp : cap_paused c = false) by eauto using decide_not_paused.
  rewrite Hp, orb_false_r in *. pose proof (proj1 (open_capacity s now_ns) Hp) as (_ & ? & ?).
  destruct (fast s !! slot) as [l|]; [|done]. bool_hyps.
  split; [exists l|]; split_and!; try done.
  - intros Hrec. destruct (verified l); [by left|right]. rewrite Hrec in *. simpl in *. bool_hyps.
    apply (count_zero (λ l', _)). fold c. fold (n_probation_busy c).
    match goal with H : (0 <? _)%nat = false |- _ => apply Nat.ltb_ge in H; simpl in H end. lia.
  - intros Hrec. rewrite Hrec in *.
    destruct (decide_recovering c (length (fast s)) (probe s) Hp) as (Hb & ? & _); [lia|].
    split; [done|]. by apply (count_zero busy).
Qed.

(** A heartbeat of an idle, usable lane. *)
Definition heartbeat (seq now_ns : Z) : LaneObservation :=
  {| lo_sequence := seq; lo_repair := None; lo_observed_at_ns := now_ns;
     lo_observed_mono_ns := now_ns; lo_health := mkHealth 1 false; lo_business := None;
     lo_busy := false; lo_cumulative_failures := 0; lo_cumulative_slow := 0;
     lo_cumulative_no_response := 0; lo_cumulative_slow_retired := 0;
     lo_slow_retired_generation := 0; lo_no_response_generation := 0;
     lo_no_response_peer := None |}.

Definition warm : AccountExecutionAdmission :=
  run (new 1 1 0) [OpObserve Fast 0 (heartbeat 1 10) 10; OpObserve Cancel 0 (heartbeat 1 10) 10].

Lemma warm_reachable : reachable warm.
Proof.
  exists 1%nat, 1%nat, 0, default_config,
    [OpObserve Fast 0 (heartbeat 1 10) 10; OpObserve Cancel 0 (heartbeat 1 10) 10]. reflexivity.
Qed.

Lemma lane_place_allowed_sound_witness :
  (lane_place_allowed warm 0 11).1 = true ∧ cancel_route warm 11.
Proof.
  assert (H : (lane_place_allowed warm 0 11).1 = true) by (vm_compute; reflexivity).
  split; [exact H|].
  exact (proj1 (proj2 (lane_place_allowed_sound warm 0 11 warm_reachable H))).
Defined.

Lemma decide_healthy c n r p :
  (decide_state c n r p).1 = Healthy →
  all_fresh c = true ∧ ready_fast c = n ∧ ready_cancel c = total_cancel c ∧ all_verified c = true
  ∧ (decide_state c n r p).2 = free_fast c.
Proof.
  unfold decide_state. destruct (cap_paused c), r; try done.
  destruct (_ && _) eqn:E; [|done]. intros _. bool_hyps.
  split_and!; [done|by apply Nat.eqb_eq|by apply Nat.eqb_eq|done|done].
Qed.

Lemma decide_degraded_free c n p :
  cap_paused c = false → (0 < verified_free c ≤ free_fast c)%nat →
  (0 < (decide_state c n false p).2)%nat.
Proof. intros Hp Hv. unfold decide_state. rewrite Hp. destruct (_ && _ && _); simpl; lia. Qed.

Lemma count_and_eq {A} (p q : A → bool) l :
  count (λ x, p x && q x) l = count p l → ∀ x, x ∈ l → p x = true → q x = true.
Proof.
  unfold count. induction l as [|y l IH]; intros H x Hx Hp.
  { by apply not_elem_of_nil in Hx. }
  assert (count (λ x, p x && q x) l ≤ count p l)%nat as Hle
    by (apply count_le; intros z _ Hz; by bool_hyps).
  unfold count in Hle. simpl in H. apply elem_of_cons in Hx as [->|Hx].
  - rewrite Hp in H. destruct (q y); [done|]. simpl in H. lia.
  - apply IH; try done. destruct (p y), (q y); simpl in H; lia.
Qed.

(** The published decision says what it means.  It is [Paused], with no
    slot, exactly when there is no usable placement lane, no usable ordinary
    cancel lane, or a recovery pause is running.  [Healthy] is published only
    when every owner's lease is fresh, every placement lane is usable and
    verified by real business traffic and every ordinary cancel lane is usable
    and free of business failures.  Outside recovery, a verified idle lane is
    never withheld. *)
Theorem refresh_decision_exact s now_ns :
  reachable s →
  let s' := refresh s now_ns in
  let fr l := fresh l now_ns (stale_after_ns (config s)) in
  (adm_state (admission s') = Paused
   ↔ ¬ (fast_route s now_ns ∧ cancel_route s now_ns ∧ pause_until_ns s ≤ now_ns))
  ∧ (adm_state (admission s') = Paused → available_place_slots (admission s') = 0)
  ∧ (adm_state (admission s') = Healthy →
     (∀ l, l ∈ fast s → fr l = true ∧ ready l = true ∧ verified l = true)
     ∧ (∀ l, l ∈ cancel s → fr l = true ∧ (reserved_cancel l = false → cancel_ready l = true)))
  ∧ (adm_state (admission s') ≠ Paused → recovery_required s' = false →
     ∀ l, l ∈ fast s → fr l = true → ready l = true → verified l = true → busy l = false →
     0 < available_place_slots (admission s')).
Proof.
  intros Hr. rewrite refresh_recompute by (by apply reachable_cache_ok). cbv zeta.
  destruct (recompute_fields s now_ns) as (_ & _ & _ & _ & -> & _ & _ & -> & -> & _).
  rewrite <- open_capacity. set (c := capacity s now_ns).
  set (r := _ || cap_paused c). split_and!.
  - unfold decide_state. destruct (cap_paused c); [done|]. split; [|done].
    destruct r; [done|]. by destruct (_ && _ && _ && _).
  - unfold decide_state. destruct (cap_paused c); [done|].
    destruct r; [done|]. by destruct (_ && _ && _ && _).
  - intros (Hf & Hrf & Hrc & Hv & _)%decide_healthy.
    assert (∀ l, l ∈ lanes s → fresh l now_ns (stale_after_ns (config s)) = true) as Hfr.
    { intros l Hl. eapply forallb_forall in Hf; [done|]. by apply list_elem_of_In. }
    split; intros l Hl.
    + apply (count_all _ (fast s)) with (x := l) in Hrf; [|done]. bool_hyps. split_and!; try done.
      eapply forallb_forall in Hv; [done|]. by apply list_elem_of_In.
    + split; [apply Hfr, elem_of_app; by right|]. intros Hres.
      eapply (count_and_eq (λ l, negb (reserved_cancel l)) (λ l, fresh l now_ns _ && cancel_ready l))
        with (x := l) in Hl; [by bool_hyps| |by rewrite Hres].
      change (count (λ l, negb (reserved_cancel l)) (cancel s)) with (total_cancel c).
      rewrite <- Hrc. apply count_ext_in. intros. by rewrite andb_assoc.
  - intros Hst Hrec l Hl H1 H2 H3 H4. rewrite Hrec in *.
    apply decide_not_paused in Hst.
    assert (0 < verified_free c ≤ free_fast c)%nat as Hv.
    { split; [apply count_pos; exists l; by rewrite H1, H2, H3, H4|].
      apply count_le. intros x _ Hx. bool_solve. }
    pose proof (decide_degraded_free c (length (fast s)) (probe s) Hst Hv). unfold u16_max. lia.
Qed.

Lemma refresh_decision_exact_witness :
  adm_state (admission (refresh warm 4000000000)) = Paused
  ∧ available_place_slots (admission (refresh warm 4000000000)) = 0.
Proof.
  assert (H : adm_state (admission (refresh warm 4000000000)) = Paused) by (vm_compute; reflexivity).
  destruct (refresh_decision_exact warm 4000000000 warm_reachable) as (_ & Hslots & _).
  split; [exact H|]. exact (Hslots H).
Defined.

(** ** Relations between a lane before and after an operation *)

Lemma lane_lane_mut s role slot f role' slot' :
  lane (lane_mut s role slot f) role' slot'
  = (if bool_decide ((role, slot) = (role', slot')) then f <$> lane s role' slot'
     else lane s role' slot').
Proof.
  case_bool_decide as E.
  - simplify_eq. destruct role'; simpl; try done; apply list_lookup_alter_eq.
  - destruct role, role'; simpl; try done; apply list_lookup_alter_ne; congruence.
Qed.

Lemma lane_refresh s now role slot : lane (refresh s now) role slot = lane s role slot.
Proof.
  unfold refresh. destruct (_ && _); [by destruct role|].
  destruct (recompute_fields s now) as (Hf & Hc & _). destruct role; simpl; congruence.
Qed.

Lemma lane_retire s now role slot :
  lane (retire_transport_generations s now) role slot = retire_lane <$> lane s role slot.
Proof. destruct role; simpl; try done; apply list_lookup_fmap. Qed.

Lemma lane_recovery s now role slot : lane (apply_recovery s now) role slot = lane s role slot.
Proof. unfold apply_recovery. destruct (_ && _); by destruct role. Qed.

Lemma lane_probe s role slot o e role' slot' :
  lane (apply_probe s role slot o e) role' slot' = lane s role' slot'.
Proof.
  unfold apply_probe. destruct (probe s) as [p|]; [|done].
  destruct (probe_resolved role slot o p), (probe_success o e p); by destruct role'.
Qed.

Lemma lane_set_peer s peer role slot :
  lane (s <| transport_reset_peer := peer |>) role slot = lane s role slot.
Proof. by destruct role. Qed.

(** [lanes_rel R s s']: every lane of [s] is still there in [s'], related by [R]. *)
Section lane_relation.
Context (R : Role → nat → LaneState → LaneState → Prop).

Definition lanes_rel (s s' : AccountExecutionAdmission) : Prop :=
  ∀ role slot l, lane s role slot = Some l →
  ∃ l', lane s' role slot = Some l' ∧ R role slot l l'.

Context (R_refl : ∀ role slot l, R role slot l l)
  (R_trans : ∀ role slot a b c, R role slot a b → R role slot b c → R role slot a c)
  (R_window : ∀ role slot l w, R role slot l (l <| lane_failure_window := w |>))
  (R_retire : ∀ role slot l, R role slot l (retire_lane l))
  (R_fault : ∀ role slot l, R role slot l (l <| delivery_fault := true |>))
  (R_reserve : ∀ role slot l, R role slot l (l <| reserved_cancel := true |>))
  (R_busy : ∀ role slot l b d, R role slot l (l <| busy := b |> <| dispatched_at_ns := d |>)).

Lemma lanes_rel_refl s : lanes_rel s s.
Proof. intros role slot l H. eauto. Qed.

Lemma lanes_rel_trans s1 s2 s3 : lanes_rel s1 s2 → lanes_rel s2 s3 → lanes_rel s1 s3.
Proof. intros H1 H2 role slot l (l' & Hl' & ?)%H1. apply H2 in Hl' as (l'' & ? & ?). eauto. Qed.

Lemma lanes_rel_eq s s' : (∀ role slot, lane s' role slot = lane s role slot) → lanes_rel s s'.
Proof. intros H role slot l Hl. exists l. by rewrite H. Qed.

Lemma lanes_rel_mut s role slot f :
  (∀ l, lane s role slot = Some l → R role slot l (f l)) → lanes_rel s (lane_mut s role slot f).
Proof.
  intros Hf r i l Hl. rewrite lane_lane_mut, Hl. case_bool_decide; simplify_eq/=; eauto.
Qed.

Lemma lanes_rel_refresh s s' now : lanes_rel s s' → lanes_rel s (refresh s' now).
Proof. intros H role slot l Hl. rewrite lane_refresh. by apply H. Qed.

Lemma lanes_rel_retire s now : lanes_rel s (retire_transport_generations s now).
Proof. intros role slot l Hl. rewrite lane_retire, Hl. simpl. eauto. Qed.

Lemma lanes_rel_note_failure s role slot now : lanes_rel s (note_failure s role slot now).
Proof.
  unfold note_failure. set (s1 := open_failure_window s now).
  apply (lanes_rel_trans _ s1).
  { apply lanes_rel_eq. intros r i. unfold s1, open_failure_window. by destruct (_ || _), r. }
  apply (lanes_rel_trans _ (count_failed_lane s1 role slot)).
  - unfold count_failed_lane. destruct (lane s1 role slot) as [l|];
      [destruct (_ =? _)|]; try (apply lanes_rel_eq; by intros []).
    eapply lanes_rel_trans; [apply (lanes_rel_mut s1 role slot); intros; apply R_window|].
    apply lanes_rel_eq. intros []; done.
  - apply lanes_rel_eq. intros r i. by destruct (_ =? 2), r.
Qed.

Lemma lanes_rel_reset s o e now : lanes_rel s (apply_reset s o e now).
Proof.
  unfold apply_reset. case_match; [|apply lanes_rel_refl].
  set (s1 := s <| no_response_resets := _ |>).
  apply (lanes_rel_trans _ s1); [apply lanes_rel_eq; by intros []|].
  eapply lanes_rel_trans; [apply (lanes_rel_retire s1 now)|].
  apply lanes_rel_eq. intros. apply lane_set_peer.
Qed.

Lemma lanes_rel_failure s role slot e now : lanes_rel s (apply_failure s role slot e now).
Proof.
  unfold apply_failure. set (s1 := if ev_failure e then note_failure s role slot now else s).
  apply (lanes_rel_trans _ s1).
  - unfold s1. case_match; [apply lanes_rel_note_failure|apply lanes_rel_refl].
  - apply lanes_rel_eq. intros []; by destruct (_ && _), (ev_adverse e).
Qed.

Lemma lanes_rel_accept s role slot o l now :
  lane s role slot = Some l →
  R role slot l (lane_observe (config s) o l (classify role slot o l (probe s)) now l) →
  lanes_rel s (accept s role slot o l now).
Proof.
  intros Hl HR. unfold accept. cbv zeta.
  eapply lanes_rel_trans.
  { apply (lanes_rel_mut _ role slot). intros l' Hl'. simplify_eq. exact HR. }
  eapply lanes_rel_trans; [apply lanes_rel_reset|].
  eapply lanes_rel_trans; [apply lanes_rel_failure|].
  apply lanes_rel_eq. intros. by rewrite lane_recovery, lane_probe.
Qed.

(** Any operation relates all lanes, provided an accepted observation relates
    the observed one. *)
Lemma lanes_rel_op s op :
  (∀ role slot o now l, op = OpObserve role slot o now → lane s role slot = Some l →
     obs_out_of_order o l = false → obs_invalid o l now = false →
     R role slot l (lane_observe (config s) o l (classify role slot o l (probe s)) now l)) →
  lanes_rel s (apply_op s op).
Proof.
  intros Hobs. destruct op as [role slot o now|role slot now|now|slot now|slot now|slot now|slot|now peer|].
  - simpl. unfold observe. destruct (lane s role slot) as [l|] eqn:Hl;
      [|apply lanes_rel_refresh, lanes_rel_refl].
    destruct (obs_out_of_order o l) eqn:H1; [apply lanes_rel_refresh, lanes_rel_refl|].
    destruct (obs_invalid o l now) eqn:H2; apply lanes_rel_refresh.
    + apply lanes_rel_mut; intros; apply R_fault.
    + apply lanes_rel_accept; [done|]. by apply Hobs.
  - apply lanes_rel_refresh, lanes_rel_mut; intros; apply R_fault.
  - apply lanes_rel_refresh, lanes_rel_refl.
  - apply (lanes_rel_refresh s s), lanes_rel_refl.
  - apply lanes_rel_refresh. cbn. destruct (fast s !! slot) as [l|] eqn:Hl;
      [|apply lanes_rel_eq; by intros []].
    eapply lanes_rel_trans; [apply (lanes_rel_mut s Fast slot); intros; apply R_busy|].
    apply lanes_rel_eq. intros []; by destruct (_ && _).
  - apply lanes_rel_refresh.
    eapply lanes_rel_trans; [apply (lanes_rel_mut s Fast slot); intros; apply R_busy|].
    apply lanes_rel_eq. cbn. intros r i. destruct (probe s) as [p|]; [destruct (_ =? _)%nat|];
      by destruct r.
  - apply lanes_rel_refresh, (lanes_rel_mut s Cancel slot); intros; apply R_reserve.
  - simpl. eapply lanes_rel_trans; [apply (lanes_rel_retire s now)|].
    apply lanes_rel_eq. intros. apply lane_set_peer.
  - apply lanes_rel_eq; by intros [].
Qed.
End lane_relation.

(** ** Monotone evidence *)

Record lane_le (l l' : LaneState) : Prop := {
  le_sequence : sequence l ≤ sequence l';
  le_observed : observed_at_ns l ≤ observed_at_ns l';
  le_generation : generation l ≤ generation l';
  le_attempt : business_attempt l ≤ business_attempt l';
  le_failures : cumulative_failures l ≤ cumulative_failures l';
  le_slow : cumulative_slow l ≤ cumulative_slow l';
  le_no_response : cumulative_no_response l ≤ cumulative_no_response l';
  le_slow_retired : cumulative_slow_retired l ≤ cumulative_slow_retired l' }.

Lemma lane_le_refl l : lane_le l l.
Proof. by constructor. Qed.

Lemma lane_le_trans a b c : lane_le a b → lane_le b c → lane_le a c.
Proof. intros [] []. constructor; lia. Qed.

(** The evidence fields; the stages after [lane_stamp] do not touch them. *)
Definition evidence_of (l : LaneState) :=
  (sequence l, observed_at_ns l, generation l, business_attempt l, cumulative_failures l,
   cumulative_slow l, cumulative_no_response l, cumulative_slow_retired l, delivery_fault l).

Lemma evidence_occupancy o l : evidence_of (lane_occupancy o l) = evidence_of l.
Proof. unfold lane_occupancy. by destruct (is_none_or _ _), (lo_busy o). Qed.

Lemma evidence_adverse cfg e now l : evidence_of (lane_adverse cfg e now l) = evidence_of l.
Proof. unfold lane_adverse. by destruct (ev_adverse e). Qed.

Lemma evidence_heal e l : evidence_of (lane_heal e l) = evidence_of l.
Proof. unfold lane_heal. by destruct (_ && _). Qed.

Lemma evidence_verdict o p e l : evidence_of (lane_verdict o p e l) = evidence_of l.
Proof. unfold lane_verdict. destruct (_ || _); [done|]. by destruct (_ && _). Qed.

Lemma lane_observe_evidence cfg o p e now l :
  evidence_of (lane_observe cfg o p e now l)
  = (lo_sequence o, lo_observed_at_ns o, pool_generation (lo_health o),
     match lo_business o with
     | Some b => Z.max (business_attempt l) (attempt_id b) | None => business_attempt l end,
     lo_cumulative_failures o, lo_cumulative_slow o, lo_cumulative_no_response o,
     lo_cumulative_slow_retired o, false).
Proof.
  unfold lane_observe.
  rewrite evidence_verdict, evidence_heal, evidence_adverse, evidence_occupancy.
  unfold lane_stamp, evidence_of. cbv zeta. by destruct (_ =? _).
Qed.

Lemma lane_observe_le cfg o e now l :
  obs_out_of_order o l = false → obs_invalid o l now = false →
  lane_le l (lane_observe cfg o l e now l).
Proof.
  intros H1 H2. unfold obs_out_of_order, obs_invalid in *. bool_hyps.
  pose proof (lane_observe_evidence cfg o l e now l) as He. unfold evidence_of in He.
  injection He as ? ? ? ? ? ? ? ? ?. constructor; try lia. destruct (lo_business o); lia.
Qed.

(** Lane evidence only moves forward.  Along any sequence of router
    operations, with any observations and clock readings, no lane disappears
    and none of its sequence number, observation time, pool generation, last
    business attempt or cumulative outcome counters ever decreases. *)
Theorem lane_evidence_monotone s ops role slot l :
  lane s role slot = Some l →
  ∃ l', lane (run s ops) role slot = Some l' ∧ lane_le l l'.
Proof.
  revert s l. induction ops as [|op ops IH]; intros s l Hl; simpl.
  { exists l. split; [done|apply lane_le_refl]. }
  destruct (lanes_rel_op (λ _ _, lane_le)) with (s := s) (op := op) (role := role) (slot := slot)
    (l := l) as (l1 & Hl1 & Hle); try done.
  all: try (intros; by constructor).
  - intros; eapply lane_le_trans; eauto.
  - intros. by apply lane_observe_le.
  - destruct (IH _ _ Hl1) as (l2 & ? & ?). eauto using lane_le_trans.
Qed.

Lemma lane_evidence_monotone_witness :
  ∃ l', lane (run warm [OpRefresh 20; OpDispatched 0 21]) Fast 0 = Some l'
        ∧ lane_le (default default_lane (lane warm Fast 0)) l'.
Proof.
  apply (lane_evidence_monotone warm [OpRefresh 20; OpDispatched 0 21] Fast 0).
  vm_compute. reflexivity.
Defined.

(** A lane in delivery fault is never counted as usable, and only one thing
    repairs it: an accepted observation of that very lane, strictly newer than
    the last one and consistent with all its counters.  No timer, refresh,
    dispatch, reset or observation of another lane does. *)
Theorem delivery_fault_sticky s op role slot l l' :
  lane s role slot = Some l → delivery_fault l = true →
  lane (apply_op s op) role slot = Some l' →
  (∀ now stale, fresh l now stale = false)
  ∧ (delivery_fault l' = true
     ∨ ∃ o now, op = OpObserve role slot o now ∧ sequence l < lo_sequence o
                ∧ generation l ≤ pool_generation (lo_health o) ∧ obs_invalid o l now = false).
Proof.
  intros Hl Hf Hl'. split.
  { intros. unfold fresh. rewrite Hf. by destruct (sequence l =? 0). }
  set (R r i a b := (r, i) = (role, slot) → delivery_fault a = true → delivery_fault b = true).
  destruct (decide (delivery_fault l' = true)) as [|Hn]; [by left|right].
  assert ((∃ o now, op = OpObserve role slot o now) ∨ ∀ o now, op ≠ OpObserve role slot o now)
    as [(o & now & ->)|Hop].
  { destruct op as [r i o now| | | | | | | |]; try (right; done).
    destruct (decide ((r, i) = (role, slot))) as [[= -> ->]|]; [left; eauto|right; congruence]. }
  - exists o, now.
    destruct (obs_out_of_order o l) eqn:H1, (obs_invalid o l now) eqn:H2;
      simpl in Hl'; unfold observe in Hl'; rewrite Hl, H1, ?H2 in Hl'.
    all: try (rewrite lane_refresh in Hl'; congruence).
    + unfold mark_delivery_fault in Hl'. rewrite lane_refresh, lane_lane_mut in Hl'.
      rewrite bool_decide_eq_true_2, Hl in Hl' by done. by simplify_eq/=.
    + unfold obs_out_of_order in H1. bool_hyps. by split_and!.
  - assert (lanes_rel R s (apply_op s op)) as Hrel.
    { apply lanes_rel_op; unfold R; auto.
      intros r i o now ? -> ??? [= -> ->]. by destruct (Hop o now). }
    destruct (Hrel _ _ _ Hl) as (l1 & Hl1 & HR). simplify_eq. destruct Hn. by apply HR.
Qed.

Lemma delivery_fault_sticky_witness :
  let s := mark_delivery_fault warm Fast 0 12 in
  delivery_fault (default default_lane (lane (refresh s 13) Fast 0)) = true.
Proof.
  destruct (delivery_fault_sticky (mark_delivery_fault warm Fast 0 12) (OpRefresh 13) Fast 0
    (default default_lane (lane (mark_delivery_fault warm Fast 0 12) Fast 0))
    (default default_lane (lane (refresh (mark_delivery_fault warm Fast 0 12) 13) Fast 0)))
    as [_ [H|(o & now & H & _)]].
  - vm_compute. reflexivity.
  - vm_compute. reflexivity.
  - vm_compute. reflexivity.
  - exact H.
  - discriminate H.
Defined.

(** ** Leaving recovery *)

(** [op] is the accepted observation that resolves the probe in flight with a
    newer healthy result of the probed generation. *)
Definition is_probe_success (s : AccountExecutionAdmission) (op : Op) : bool :=
  match op with
  | OpObserve role slot o now =>
      match lane s role slot, probe s with
      | Some l, Some p =>
          negb (obs_out_of_order o l) && negb (obs_invalid o l now)
          && probe_resolved role slot o p
          && probe_success o (classify role slot o l (probe s)) p
      | _, _ => false
      end
  | _ => false
  end.

Fixpoint probe_successes (s : AccountExecutionAdmission) (ops : list Op) : Z :=
  match ops with
  | [] => 0
  | op :: ops => Z.b2z (is_probe_success s op) + probe_successes (apply_op s op) ops
  end.

(** Everything but resolving a probe and the final recovery test keeps the probe
    or drops it, keeps the success count or resets it, and keeps recovery on. *)
Record no_progress (s s' : AccountExecutionAdmission) : Prop := {
  np_probe : probe s' = probe s ∨ probe s' = None;
  np_succ : recovery_successes s' = recovery_successes s ∨ recovery_successes s' = 0;
  np_rec : recovery_required s = true → recovery_required s' = true;
  np_config : config s' = config s }.

Lemma no_progress_refl s : no_progress s s.
Proof. constructor; auto. Qed.

Lemma no_progress_trans s1 s2 s3 : no_progress s1 s2 → no_progress s2 s3 → no_progress s1 s3.
Proof. intros [P1 S1 R1 C1] [P2 S2 R2 C2]. constructor; [|intuition congruence|auto|congruence].
  destruct P2 as [->| ->]; auto. Qed.

#[local] Hint Resolve no_progress_refl : hex.

Lemma no_progress_mut s role slot f : no_progress s (lane_mut s role slot f).
Proof. destruct role; constructor; auto. Qed.

Lemma no_progress_pause s now : no_progress s (pause_for_recovery s now).
Proof. constructor; auto. Qed.

Lemma no_progress_refresh s now : no_progress s (refresh s now).
Proof.
  unfold refresh. destruct (_ && _); [constructor; auto|].
  unfold recompute. destruct (decide_state _ _ _ _).
  constructor; cbn; [| |by intros ->|done]; destruct (cap_paused _); auto.
Qed.

Lemma no_progress_note_failure s role slot now : no_progress s (note_failure s role slot now).
Proof.
  unfold note_failure. set (s1 := open_failure_window s now).
  apply (no_progress_trans _ s1).
  { unfold s1, open_failure_window. destruct (_ || _); constructor; auto. }
  set (s2 := count_failed_lane s1 role slot).
  apply (no_progress_trans _ s2).
  { unfold s2, count_failed_lane. destruct (lane _ _ _) as [l|]; [|constructor; auto].
    destruct (_ =? _); [constructor; auto|].
    eapply no_progress_trans; [apply (no_progress_mut s1 role slot)|]. constructor; auto. }
  destruct (_ =? 2); [|auto with hex]. constructor; auto.
Qed.

Lemma no_progress_reset s o e now : no_progress s (apply_reset s o e now).
Proof. unfold apply_reset. destruct (ev_transport_reset e); constructor; auto. Qed.

Lemma no_progress_failure s role slot e now : no_progress s (apply_failure s role slot e now).
Proof.
  unfold apply_failure. set (s1 := if ev_failure e then note_failure s role slot now else s).
  apply (no_progress_trans _ s1).
  { unfold s1. destruct (ev_failure e); auto using no_progress_note_failure with hex. }
  set (s2 := if _ && _ then _ else s1).
  apply (no_progress_trans _ s2).
  { unfold s2. destruct (_ && _); auto using no_progress_pause with hex. }
  destruct (ev_adverse e); [constructor; auto|auto with hex].
Qed.

Definition required_successes (s : AccountExecutionAdmission) : Z :=
  Z.max (cfg_recovery_successes (config s)) 1.

(** One operation adds at most one success, only for a resolved probe, and
    leaves recovery only with enough of them. *)
Record progress (s s' : AccountExecutionAdmission) (gain : bool) : Prop := {
  pr_succ : 0 ≤ recovery_successes s → 0 ≤ recovery_successes s' ≤ recovery_successes s + Z.b2z gain;
  pr_rec : 0 ≤ recovery_successes s → recovery_required s = true → recovery_required s' = true
           ∨ required_successes s ≤ recovery_successes s + Z.b2z gain;
  pr_config : config s' = config s }.

Lemma progress_none s s' gain : no_progress s s' → progress s s' gain.
Proof. intros [? Hs ? ?]. constructor; [|auto|done]. intros. destruct gain; simpl; lia. Qed.

Lemma progress_then s s1 s2 gain : progress s s1 gain → no_progress s1 s2 → progress s s2 gain.
Proof.
  intros [P1 R1 C1] [? P2 R2 C2]. constructor; [| |congruence].
  - intros H. specialize (P1 H). lia.
  - intros H Hr. destruct (R1 H Hr); auto.
Qed.

Lemma progress_probe s s1 role slot o e :
  no_progress s s1 →
  progress s (apply_probe s1 role slot o e)
    (match probe s with
     | Some p => probe_resolved role slot o p && probe_success o e p | None => false end).
Proof.
  intros H. unfold apply_probe. destruct (probe s1) as [p|] eqn:Hp; [|by apply progress_none].
  assert (probe s = Some p) as -> by (destruct H as [[] _ _ _]; congruence).
  destruct (probe_resolved role slot o p); [|by apply progress_none].
  destruct (probe_success o e p); simpl.
  - destruct H as [? Hs Hr Hc]. constructor; [|auto|done]. cbn. unfold u8_max. lia.
  - apply progress_none. destruct H as [? Hs Hr Hc]. constructor; auto.
Qed.

Lemma progress_recovery s s1 gain now :
  progress s s1 gain → progress s (apply_recovery s1 now) gain.
Proof.
  intros [P1 R1 C1]. unfold apply_recovery. destruct (_ && _) eqn:E; [|by constructor].
  bool_hyps. constructor; cbn; [done| |done]. intros Hn _. right.
  specialize (P1 Hn). unfold required_successes. rewrite <- C1. lia.
Qed.

Lemma progress_accept s role slot o l now :
  progress s (accept s role slot o l now)
    (match probe s with
     | Some p => probe_resolved role slot o p
                 && probe_success o (classify role slot o l (probe s)) p
     | None => false end).
Proof.
  unfold accept. cbv zeta. apply progress_recovery, progress_probe.
  eapply no_progress_trans; [apply no_progress_mut|].
  eapply no_progress_trans; [apply no_progress_reset|]. apply no_progress_failure.
Qed.

Lemma progress_op s op : progress s (apply_op s op) (is_probe_success s op).
Proof.
  destruct op as [role slot o now|role slot now|now|slot now|slot now|slot now|slot|now peer|]; simpl.
  - unfold observe. destruct (lane s role slot) as [l|]; [|apply progress_none, no_progress_refresh].
    destruct (obs_out_of_order o l); [apply progress_none, no_progress_refresh|].
    destruct (obs_invalid o l now); simpl.
    + apply progress_none. eapply no_progress_trans; [apply no_progress_mut|].
      apply no_progress_refresh.
    + eapply progress_then; [|apply no_progress_refresh]. apply progress_accept.
  - apply progress_none. eapply no_progress_trans; [apply no_progress_mut|]. apply no_progress_refresh.
  - apply progress_none, no_progress_refresh.
  - apply progress_none, no_progress_refresh.
  - eapply progress_then; [|apply no_progress_refresh]. cbn.
    destruct (fast s !! slot) as [l|]; [destruct (_ && _)|]; constructor; cbn; auto; lia.
  - eapply progress_then; [|apply no_progress_refresh]. cbn.
    destruct (probe s) as [p|]; [destruct (_ =? _)%nat|]; constructor; cbn; auto; lia.
  - apply progress_none. eapply no_progress_trans; [|apply no_progress_refresh]. constructor; auto.
  - apply progress_none. constructor; auto.
  - apply progress_none. constructor; auto.
Qed.

Lemma probe_successes_nonneg s ops : 0 ≤ probe_successes s ops.
Proof.
  revert s. induction ops as [|op ops IH]; intros s; simpl; [lia|].
  specialize (IH (apply_op s op)). destruct (is_probe_success s op); simpl; lia.
Qed.

Lemma recovery_budget ops s :
  0 ≤ recovery_successes s → recovery_required s = true → recovery_required (run s ops) = false →
  required_successes s ≤ recovery_successes s + probe_successes s ops.
Proof.
  revert s. induction ops as [|op ops IH]; intros s H0 Hr Hend; simpl in *; [congruence|].
  destruct (progress_op s op) as [Hs Hq Hc].
  specialize (Hs H0). pose proof (probe_successes_nonneg (apply_op s op) ops).
  destruct (Hq H0 Hr) as [Hr'|]; [|lia].
  specialize (IH (apply_op s op) ltac:(lia) Hr' Hend).
  unfold required_successes in *. rewrite Hc in IH. lia.
Qed.

(** Recovery is left only on evidence.  From any state in recovery whose
    success count is zero (a new account, or any state after a pause or an
    adverse outcome), whatever operations follow and however long the router
    waits, if recovery is over then at least the configured number of recovery
    probes were answered in that time by a fresh healthy business response on
    the very lane and pool generation that was probed. *)
Theorem recovery_needs_probes s ops :
  recovery_required s = true → recovery_successes s = 0 →
  recovery_required (run s ops) = false →
  Z.max (cfg_recovery_successes (config s)) 1 ≤ probe_successes s ops.
Proof.
  intros Hr H0 Hend. pose proof (recovery_budget ops s ltac:(lia) Hr Hend) as H.
  unfold required_successes in H. lia.
Qed.

(** A healthy business response to attempt [seq], after [seq] observations. *)
Definition healthy_response (seq now_ns : Z) : LaneObservation :=
  {| lo_sequence := seq; lo_repair := None; lo_observed_at_ns := now_ns;
     lo_observed_mono_ns := now_ns; lo_health := mkHealth 1 false;
     lo_business := Some (mkBusiness seq 1 1000000 HttpHealthy 200);
     lo_busy := false; lo_cumulative_failures := 0; lo_cumulative_slow := 0;
     lo_cumulative_no_response := 0; lo_cumulative_slow_retired := 0;
     lo_slow_retired_generation := 0; lo_no_response_generation := 0;
     lo_no_response_peer := None |}.

Definition three_probes : list Op :=
  [OpObserve Fast 0 (heartbeat 1 10) 10; OpObserve Cancel 0 (heartbeat 1 10) 10;
   OpDispatched 0 20; OpObserve Fast 0 (healthy_response 2 30) 30;
   OpDispatched 0 40; OpObserve Fast 0 (healthy_response 3 50) 50;
   OpDispatched 0 60; OpObserve Fast 0 (healthy_response 4 70) 70].

Lemma recovery_needs_probes_witness :
  probe_successes (new 1 1 0) three_probes = 3
  ∧ Z.max (cfg_recovery_successes default_config) 1 ≤ probe_successes (new 1 1 0) three_probes.
Proof.
  split; [vm_compute; reflexivity|].
  apply (recovery_needs_probes (new 1 1 0) three_probes); vm_compute; reflexivity.
Defined.

(** ** Epochs and failure clusters *)

(** The steps before [refresh] keep the published decision, and never leave the
    failure cluster counter at the value that triggers a pause. *)
Record unpublished (s s' : AccountExecutionAdmission) : Prop := {
  un_admission : admission s' = admission s;
  un_cluster : failure_window_lanes s ≠ 2 → failure_window_lanes s' ≠ 2 }.

Lemma unpublished_trans s1 s2 s3 : unpublished s1 s2 → unpublished s2 s3 → unpublished s1 s3.
Proof. intros [] []. constructor; [congruence|auto]. Qed.

Lemma unpublished_mut s role slot f : unpublished s (lane_mut s role slot f).
Proof. by destruct role; constructor. Qed.

Lemma count_failed_lane_admission s role slot :
  admission (count_failed_lane s role slot) = admission s.
Proof.
  unfold count_failed_lane. destruct (lane s role slot); [|done].
  destruct (_ =? _); [done|]. by destruct role.
Qed.

Lemma unpublished_note_failure s role slot now : unpublished s (note_failure s role slot now).
Proof.
  unfold note_failure. set (s2 := count_failed_lane _ role slot).
  assert (admission s2 = admission s) as Ha.
  { unfold s2. rewrite count_failed_lane_admission. unfold open_failure_window. by destruct (_ || _). }
  destruct (failure_window_lanes s2 =? 2) eqn:E; bool_hyps; constructor; cbn; auto; lia.
Qed.

Lemma unpublished_reset s o e now : unpublished s (apply_reset s o e now).
Proof. unfold apply_reset. by destruct (ev_transport_reset e); constructor. Qed.

Lemma unpublished_failure s role slot e now : unpublished s (apply_failure s role slot e now).
Proof.
  unfold apply_failure. set (s1 := if ev_failure e then note_failure s role slot now else s).
  apply (unpublished_trans _ s1).
  - unfold s1. destruct (ev_failure e); [apply unpublished_note_failure|by constructor].
  - by destruct (_ && _), (ev_adverse e); constructor.
Qed.

Lemma unpublished_probe s role slot o e : unpublished s (apply_probe s role slot o e).
Proof.
  unfold apply_probe. destruct (probe s) as [p|]; [|by constructor].
  by destruct (probe_resolved role slot o p), (probe_success o e p); constructor.
Qed.

Lemma unpublished_accept s role slot o l now : unpublished s (accept s role slot o l now).
Proof.
  unfold accept. cbv zeta. eapply unpublished_trans; [apply unpublished_mut|].
  eapply unpublished_trans; [apply unpublished_reset|].
  eapply unpublished_trans; [apply unpublished_failure|].
  eapply unpublished_trans; [apply unpublished_probe|].
  unfold apply_recovery. by destruct (_ && _); constructor.
Qed.

(** Every operation is such a step, followed by at most one [refresh]. *)
Lemma op_decompose s op :
  ∃ s1, unpublished s s1 ∧ (apply_op s op = s1 ∨ ∃ now, apply_op s op = refresh s1 now).
Proof.
  assert (unpublished s s) by (by constructor).
  destruct op as [role slot o now|role slot now|now|slot now|slot now|slot now|slot|now peer|]; simpl.
  - unfold observe, mark_delivery_fault.
    destruct (lane s role slot) as [l|]; [|eauto]. destruct (obs_out_of_order o l); [eauto|].
    destruct (obs_invalid o l now); eauto using unpublished_mut, unpublished_accept.
  - unfold mark_delivery_fault. eauto using unpublished_mut.
  - eauto.
  - exists s. split; [done|]. right. by exists now.
  - unfold place_dispatched. eexists. split; [|right; by exists now].
    cbn. destruct (fast s !! slot); [destruct (_ && _)|]; by constructor.
  - unfold place_not_sent. eexists. split; [|right; by exists now].
    cbn. destruct (probe s) as [p|]; [destruct (_ =? _)%nat|]; by constructor.
  - eexists. split; [|right; eexists; reflexivity]. by constructor.
  - eexists. split; [|by left]. by constructor.
  - eexists. split; [|by left]. by constructor.
Qed.

Definition same_decision (a b : ExecutionAdmission) : bool :=
  bool_decide (adm_state a = adm_state b)
  && (available_place_slots a =? available_place_slots b).

Lemma same_decision_refl a : same_decision a a = true.
Proof. unfold same_decision. by rewrite bool_decide_eq_true_2, Z.eqb_refl. Qed.

Lemma refresh_epoch s now :
  adm_epoch (admission s) < u64_max →
  adm_epoch (admission (refresh s now))
  = adm_epoch (admission s)
    + Z.b2z (negb (same_decision (admission s) (admission (refresh s now)))).
Proof.
  intros H. unfold refresh. destruct (_ && _).
  - assert (same_decision (admission s) (admission (set_observed s now)) = true) as ->
      by exact (same_decision_refl (admission s)).
    cbn. lia.
  - unfold recompute, same_decision. destruct (decide_state _ _ _ _) as [st n]. cbn.
    destruct (bool_decide _ && _); cbn; [lia|]. unfold u64_max in H. word.
Qed.

(** The epoch of the published decision is a change counter: each router
    operation advances it by one if it changes the state or the number of
    slots, and leaves it alone otherwise, so a consumer that ignores repeated
    epochs misses nothing. *)
Theorem epoch_counts_changes s op :
  adm_epoch (admission s) < u64_max →
  let a := admission s in
  let a' := admission (apply_op s op) in
  adm_epoch a' = adm_epoch a + (if same_decision a a' then 0 else 1).
Proof.
  intros H. destruct (op_decompose s op) as (s1 & [Ha _] & [->|[now ->]]); cbv zeta.
  - rewrite Ha, same_decision_refl. lia.
  - rewrite refresh_epoch by (by rewrite Ha). rewrite Ha. by destruct (same_decision _ _).
Qed.

Lemma epoch_counts_changes_witness :
  adm_epoch (admission (apply_op (new 1 1 0) (OpRefresh 4)))
  = 0 + (if same_decision (admission (new 1 1 0)) (admission (refresh (new 1 1 0) 4)) then 0 else 1).
Proof. apply (epoch_counts_changes (new 1 1 0) (OpRefresh 4)). reflexivity. Defined.

Lemma cluster_ne_2 s : reachable s → failure_window_lanes s ≠ 2.
Proof.
  intros (nf & nc & now & cfg & ops & ->).
  apply (run_invariant (λ s, failure_window_lanes s ≠ 2)); [|done].
  clear. intros s op H. destruct (op_decompose s op) as (s1 & [_ Hc] & [->|[now ->]]); [auto|].
  unfold refresh. destruct (_ && _); [by apply Hc|].
  unfold recompute. destruct (decide_state _ _ _ _). by apply Hc.
Qed.

(** One noisy connection cannot pause the account.  Once a lane has been
    counted in the current failure window, any further failure of that lane
    inside the window leaves the pause deadline and the pause streak as they
    are: only a second, different lane can trigger the pause. *)
Theorem noisy_lane_never_pauses s role slot l now_ns :
  reachable s → lane s role slot = Some l →
  failure_window s ≠ 0 → lane_failure_window l = failure_window s →
  now_ns -s failure_window_started_ns s ≤ failure_cluster_window_ns (config s) →
  let s' := note_failure s role slot now_ns in
  pause_until_ns s' = pause_until_ns s ∧ failure_streak s' = failure_streak s
  ∧ recovery_required s' = recovery_required s.
Proof.
  intros Hr Hl Hw Hlw Hopen. pose proof (cluster_ne_2 s Hr) as H2.
  unfold note_failure, open_failure_window.
  replace ((failure_window s =? 0) || _) with false by (symmetry; apply orb_false_iff; lia).
  unfold count_failed_lane. rewrite Hl, Hlw, Z.eqb_refl. cbn.
  by destruct (failure_window_lanes s =? 2) eqn:E; bool_hyps.
Qed.

Definition failed_response (seq now_ns failures : Z) : LaneObservation :=
  {| lo_sequence := seq; lo_repair := None; lo_observed_at_ns := now_ns;
     lo_observed_mono_ns := now_ns; lo_health := mkHealth 1 false;
     lo_business := Some (mkBusiness seq 1 1000000 Failure 500);
     lo_busy := false; lo_cumulative_failures := failures; lo_cumulative_slow := 0;
     lo_cumulative_no_response := 0; lo_cumulative_slow_retired := 0;
     lo_slow_retired_generation := 0; lo_no_response_generation := 0;
     lo_no_response_peer := None |}.

Definition one_failure : list Op := [OpObserve Fast 0 (failed_response 1 10 1) 10].

Lemma noisy_lane_never_pauses_witness :
  let s := run (new 2 1 0) one_failure in
  pause_until_ns (note_failure s Fast 0 20) = pause_until_ns s.
Proof.
  refine (proj1 (noisy_lane_never_pauses (run (new 2 1 0) one_failure) Fast 0
    (default default_lane (lane (run (new 2 1 0) one_failure) Fast 0)) 20 _ _ _ _ _)).
  - exists 2%nat, 1%nat, 0, default_config, one_failure. reflexivity.
  - vm_compute. reflexivity.
  - vm_compute. discriminate.
  - vm_compute. reflexivity.
  - vm_compute. discriminate.
Defined.

(** ** Diagnostics agree with the decision *)

Lemma bit_zero b k : 0 ≤ k → bit b k = 0 ↔ b = false.
Proof.
  intros Hk. unfold bit. rewrite Z.shiftl_mul_pow2 by done.
  pose proof (Z.pow_pos_nonneg 2 k ltac:(lia) Hk). destruct b; simpl; split; try done; lia.
Qed.

Lemma fold_lor_zero {A} (f : A → Z) (l : list A) acc :
  fold_left (λ b x, Z.lor b (f x)) l acc = 0 ↔ acc = 0 ∧ ∀ x, x ∈ l → f x = 0.
Proof.
  revert acc. induction l as [|x l IH]; intros acc; simpl.
  { split; [|by intros []]. intros ->. split; [done|]. intros x Hx. by apply not_elem_of_nil in Hx. }
  rewrite IH, Z.lor_eq_0_iff. split.
  - intros [[-> Hx] Hl]. split; [done|]. intros y [->|Hy]%elem_of_cons; auto.
  - intros [-> Hl]. split_and!; [done|apply Hl; left|]. intros y Hy. apply Hl. by right.
Qed.

Definition lane_healthy (fr : LaneState → bool) (l : LaneState) : Prop :=
  fr l = true ∧ ready l = true ∧ verified l = true.

Definition cancel_healthy (fr : LaneState → bool) (l : LaneState) : Prop :=
  fr l = true ∧ (reserved_cancel l = false → cancel_ready l = true).

Lemma health_blockers_zero fr fast cancel :
  health_blockers fr fast cancel = 0
  ↔ (∀ l, l ∈ fast → lane_healthy fr l) ∧ (∀ l, l ∈ cancel → cancel_healthy fr l).
Proof.
  unfold health_blockers. rewrite !fold_lor_zero.
  assert (∀ l, fast_health_bits fr l = 0 ↔ lane_healthy fr l) as Hf.
  { intros l. unfold fast_health_bits, lane_healthy.
    rewrite !Z.lor_eq_0_iff, !bit_zero, !negb_false_iff by lia. tauto. }
  assert (∀ l, cancel_health_bits fr l = 0 ↔ cancel_healthy fr l) as Hc.
  { intros l. unfold cancel_health_bits, cancel_healthy, cancel_ready.
    destruct (reserved_cancel l); rewrite ?Z.lor_eq_0_iff, !bit_zero, ?negb_false_iff by lia.
    - split; [|by intros []]. done.
    - rewrite andb_true_iff, negb_true_iff. tauto. }
  setoid_rewrite Hf. setoid_rewrite Hc. tauto.
Qed.

Lemma count_and_all {A} (p q : A → bool) l :
  (∀ x, x ∈ l → p x = true → q x = true) → count (λ x, p x && q x) l = count p l.
Proof.
  intros H. apply count_ext_in. intros x Hx. specialize (H x Hx).
  destruct (p x); [by rewrite H|done].
Qed.

Lemma healthy_capacity s now :
  let fr l := fresh l now (stale_after_ns (config s)) in
  let c := capacity s now in
  all_fresh c && (ready_fast c =? length (fast s))%nat && (ready_cancel c =? total_cancel c)%nat
    && all_verified c = true
  ↔ (∀ l, l ∈ fast s → lane_healthy fr l) ∧ (∀ l, l ∈ cancel s → cancel_healthy fr l).
Proof.
  cbv zeta. rewrite !andb_true_iff, !Nat.eqb_eq. unfold capacity; simpl.
  rewrite !forallb_forall, count_all. setoid_rewrite <- list_elem_of_In.
  assert (∀ P : LaneState → Prop, (∀ l, l ∈ lanes s → P l)
    ↔ (∀ l, l ∈ fast s → P l) ∧ (∀ l, l ∈ cancel s → P l)) as Hlanes.
  { intros P. unfold lanes. setoid_rewrite elem_of_app.
    split; [intros H; split; auto|intros [] l []; auto]. }
  rewrite Hlanes.
  assert (∀ l, negb (reserved_cancel l) && fresh l now (stale_after_ns (config s)) && cancel_ready l
    = negb (reserved_cancel l) && (fresh l now (stale_after_ns (config s)) && cancel_ready l)) as Ha
    by (intros; by rewrite andb_assoc).
  rewrite (count_ext_in _ _ (cancel s) (λ l _, Ha l)). unfold lane_healthy, cancel_healthy.
  split.
  - intros [[[[Hf Hc] Hr] Ht] Hv]. split; intros l Hl.
    + specialize (Hr l Hl). bool_hyps. auto.
    + split; [auto|]. intros Hres. eapply (count_and_eq (λ l, negb (reserved_cancel l))) in Ht;
        [|done|by rewrite Hres]. by bool_hyps.
  - intros [Hf Hc]. split_and!.
    + intros l Hl. by apply Hf.
    + intros l Hl. by apply Hc.
    + intros l Hl. destruct (Hf l Hl) as (-> & -> & _). done.
    + apply (count_and_all (λ l, negb (reserved_cancel l))). intros l Hl Hres. bool_hyps.
      destruct (Hc l Hl) as [-> Hcr]. by rewrite Hcr.
    + intros l Hl. by apply Hf.
Qed.

Lemma decide_healthy_iff c n r p :
  (decide_state c n r p).1 = Healthy
  ↔ cap_paused c = false ∧ r = false
    ∧ all_fresh c && (ready_fast c =? n)%nat && (ready_cancel c =? total_cancel c)%nat
      && all_verified c = true.
Proof.
  unfold decide_state. destruct (cap_paused c), r; try (split; [done|by intros (? & ? & ?)]).
  by destruct (_ && _ && _ && _); split; try done; intros (? & ? & ?).
Qed.

Lemma count_u16_small p ls :
  Z.of_nat (length ls) ≤ u16_max → count_u16 p ls = Z.of_nat (count p ls).
Proof.
  intros H. unfold count_u16. pose proof (count_length p ls). apply Z.mod_small.
  unfold u16_max in H. lia.
Qed.

(** The diagnostic record explains the decision it is published with.
    Taken at the instant of a refresh, on pools of at most 65535 lanes, its
    reason is [open] exactly when placing is allowed; one of the three hard
    blocker bits (no usable placement lane, no usable cancel lane, backoff) is
    set exactly when the account is paused; and no health blocker is set, on an
    account that is neither paused nor recovering, exactly when it is healthy. *)
Theorem capacity_detail_explains s now_ns :
  reachable s →
  Z.of_nat (length (fast s)) ≤ u16_max →
  let s' := refresh s now_ns in
  let a := admission s' in
  let d := capacity_detail s' now_ns in
  (d_reason d = "open" ↔ allows_place a = true)
  ∧ (Z.land (d_blockers d) 7 = 0 ↔ adm_state a ≠ Paused)
  ∧ (adm_state a = Healthy
     ↔ adm_state a ≠ Paused ∧ recovery_required s' = false ∧ d_health_blockers d = 0).
Proof.
  intros Hr Hlen. rewrite refresh_recompute by (by apply reachable_cache_ok). cbv zeta.
  destruct (recompute_fields s now_ns) as (Hf & Hc & Hcfg & Hpu & Hrec & _ & _ & Hst & _).
  split_and!.
  - cbn. destruct (allows_place _); [done|]. split; [|done]. by repeat case_match.
  - assert (adm_state (admission (recompute s now_ns)) = Paused
            ↔ cap_paused (capacity s now_ns) = true) as ->.
    { rewrite Hst. unfold decide_state. destruct (cap_paused _); [done|]. split; [|done].
      destruct (_ || _ || _); [done|]. by destruct (_ && _ && _ && _). }
    cbn. rewrite Hf, Hc, Hcfg, Hpu, count_u16_small by done.
    unfold cap_paused, capacity; simpl.
    set (a := count _ (fast s)). set (b := count _ (cancel s)).
    replace (Z.of_nat a =? 0) with (a =? 0)%nat by (destruct a; done).
    replace (u16_max `min` Z.of_nat b =? 0) with (b =? 0)%nat.
    2: { destruct b as [|b]; [done|]. symmetry. apply Z.eqb_neq. unfold u16_max. lia. }
    destruct (a =? 0)%nat, (b =? 0)%nat, (now_ns <? pause_until_ns s), (existsb busy (fast s)),
      (bool_decide (probe (recompute s now_ns) = None)), (recovery_required (recompute s now_ns));
      done.
  - rewrite Hst, decide_healthy_iff, healthy_capacity, <- health_blockers_zero, Hrec.
    cbn. rewrite Hf, Hc, Hcfg.
    assert (∀ r, (decide_state (capacity s now_ns) (length (fast s)) r (probe s)).1 ≠ Paused
            ↔ cap_paused (capacity s now_ns) = false) as ->; [|done].
    intros r. split; [apply decide_not_paused|]. intros Hp. unfold decide_state. rewrite Hp.
    destruct r; [done|]. by destruct (_ && _ && _ && _).
Qed.

Lemma capacity_detail_explains_witness :
  d_reason (capacity_detail (refresh warm 11) 11) = "open"
  ∧ allows_place (admission (refresh warm 11)) = true.
Proof.
  assert (H : d_reason (capacity_detail (refresh warm 11) 11) = "open") by (vm_compute; reflexivity).
  split; [exact H|].
  refine (proj1 (proj1 (capacity_detail_explains warm 11 warm_reachable _)) H).
  vm_compute. discriminate.
Defined.

(** ** Cancel probation *)

Definition older (a b : nat * LaneState) : Prop :=
  failure_eligible_after_ns a.2 < failure_eligible_after_ns b.2
  ∨ (failure_eligible_after_ns a.2 = failure_eligible_after_ns b.2 ∧ (a.1 ≤ b.1)%nat).

Lemma trial_min ps m :
  min_by trial_key_cmp ps = Some m → m ∈ ps ∧ ∀ p, p ∈ ps → older m p.
Proof.
  destruct ps as [|x ps]; simpl; [done|]. intros [= <-].
  apply (fold_select (λ _, True) (λ a b, older b a)); try done; unfold older, trial_key_cmp.
  - intros a b. destruct (_ ?= _); [destruct (_ ?= _)%nat| |]; auto.
  - intros a b _ _. destruct (Z.compare_spec (failure_eligible_after_ns a.2)
      (failure_eligible_after_ns b.2)); [destruct (Nat.compare_spec a.1 b.1)| |]; lia.
  - intros. lia.
  - intros. lia.
  - by apply Forall_true.
Qed.

Lemma elem_of_enumerate {A} (l : list A) i x : (i, x) ∈ enumerate l ↔ l !! i = Some x.
Proof.
  unfold enumerate. rewrite list_elem_of_lookup. setoid_rewrite list_lookup_imap.
  setoid_rewrite fmap_Some. split.
  - intros (j & y & ? & ?). by simplify_eq.
  - intros H. eauto.
Qed.

(** A cancel lane whose last business outcome was a failure competes with
    the verified lanes (rank 0) only as the single trial lane: some ordinary
    verified lane exists, its own backoff has been over for thirty seconds, and
    it is the one whose backoff ended first among all lanes that qualify.  Two
    failed lanes are therefore never on trial at the same time. *)
Theorem cancel_trial_unique s slot l now_ns :
  cancel s !! slot = Some l → business_failed l = true → cancel_lane_rank s slot now_ns = 0 →
  cancel_trial s now_ns l = true
  ∧ (∃ v, v ∈ cancel s ∧ reserved_cancel v = false ∧ cancel_verified s now_ns v = true)
  ∧ ∀ slot' l', cancel s !! slot' = Some l' → cancel_trial s now_ns l' = true →
    older (slot, l) (slot', l')
    ∧ (slot' ≠ slot → business_failed l' = true → cancel_lane_rank s slot' now_ns ≠ 0).
Proof.
  intros Hl Hfail Hrank.
  assert (∀ i li, cancel s !! i = Some li → business_failed li = true →
    cancel_lane_rank s i now_ns = 0 → cancel_probation_slot s now_ns = Some i) as Hslot.
  { intros i li Hli Hf. unfold cancel_lane_rank. rewrite Hli.
    unfold cancel_verified, cancel_ready. rewrite Hf, andb_false_r, andb_false_r. simpl.
    case_bool_decide; [done|]. by destruct (_ && _). }
  pose proof (Hslot _ _ Hl Hfail Hrank) as Hps. unfold cancel_probation_slot in Hps.
  destruct (existsb _ _) eqn:Hex; [|done]. simpl in Hps.
  apply fmap_Some in Hps as ([i li] & Hmin & ->). simpl in *.
  apply trial_min in Hmin as [Hin Hold].
  assert (∀ j lj, (j, lj) ∈ List.filter (λ p, cancel_trial s now_ns p.2) (enumerate (cancel s))
    ↔ cancel s !! j = Some lj ∧ cancel_trial s now_ns lj = true) as Hmem.
  { intros j lj. rewrite list_elem_of_In, filter_In, <- list_elem_of_In, elem_of_enumerate. done. }
  apply Hmem in Hin as [Hli Ht]. simplify_eq. split_and!; [done| |].
  - apply existsb_exists in Hex as (v & Hv & ?). exists v. bool_hyps.
    split_and!; try done. by apply list_elem_of_In.
  - intros j lj Hj Htj. split; [by apply Hold, Hmem|].
    intros Hne Hfj Hrj. apply Hne. apply (Hslot _ _ Hj Hfj) in Hrj.
    rewrite (Hslot _ _ Hl Hfail Hrank) in Hrj. by simplify_eq.
Qed.

(** Cancel lane 0 failed once and has been idle for forty seconds; lane 1 is
    verified. *)
Definition one_on_trial : AccountExecutionAdmission :=
  run (new 1 3 0)
    [OpObserve Cancel 0 (failed_response 1 10 1) 10;
     OpObserve Cancel 1 (healthy_response 1 10) 10;
     OpObserve Cancel 0 ((heartbeat 2 40000000000) <| lo_cumulative_failures := 1 |>) 40000000000;
     OpObserve Cancel 1 (heartbeat 2 40000000000) 40000000000].

Lemma cancel_trial_unique_witness :
  cancel_trial one_on_trial 40000000001
    (default default_lane (cancel one_on_trial !! 0%nat)) = true.
Proof.
  refine (proj1 (cancel_trial_unique one_on_trial 0
    (default default_lane (cancel one_on_trial !! 0%nat)) 40000000001 _ _ _));
    vm_compute; reflexivity.
Defined.
