(* ===== verification/CancelPath.v ===== *)
(** The normal-cancel path of one account: the execution dispatcher of
    [src/crates/hexagent-engine/src/engine.rs] with its outbox and its coalescing of
    repeated cancels, the connection lanes it sends on, and the connection owners and
    their control workers of [cancel_reactor.rs].

    Dispatcher, owners and control workers are interleaved one shared access at a time.
    A lane is two words, [occupied] and [cancel_reply_pending], and an inbox; the inbox is
    the queue that [TryQueue] and [PollChannel] show the polling channel to be.  What the
    network and the rest of the account do is the input of a step: whether a route exists,
    whether a reply has come, what the lifecycle outbox answers, what the admission knows
    and which connections it wants refreshed.  The dispatcher keeps its senders, so no
    inbox is closed; closing at the end of the process is not part of the model, nor are
    the gauges and latency records of a lane. *)

From Stdlib Require Import Ascii.
From S2P Require Import Prelude Types AccountAdmission.

#[local] Open Scope Z_scope.

(** ** Commands and their identity *)

(** [tag] stands for the rest of a command: its trigger, its times, its reply channel. *)
Inductive Command :=
  | Cancel (tag : Z) (instance_id client_order_id : string) (owner : Z)
  | RefreshTransport
  | ProbeHttp (tag : Z) (excluded_slot : option nat)
  | Fallback (tag : Z).

#[export] Instance Command_eq_dec : EqDecision Command.
Proof. solve_decision. Defined.

Record CancelKey := mkKey { ck_owner : Z; iid_len : Z; coid_len : Z; iid : list Z; coid : list Z }.

#[export] Instance CancelKey_eq_dec : EqDecision CancelKey.
Proof. solve_decision. Defined.

#[export] Instance CancelKey_countable : Countable CancelKey.
Proof.
  apply (inj_countable' (λ k, (ck_owner k, iid_len k, coid_len k, iid k, coid k))
    (λ '(a, b, c, d, e), mkKey a b c d e)). by intros [].
Defined.

Definition bytes (s : string) : list Z := (λ a, Z.of_nat (nat_of_ascii a)) <$> String.list_ascii_of_string s.

(** A byte array of fixed size with a prefix written. *)
Definition padded (n : nat) (l : list Z) : list Z := l ++ replicate (n - length l) 0.

Definition cancel_key (c : Command) : option CancelKey :=
  match c with
  | Cancel _ instance_id client_order_id owner =>
      if (64 <? String.length instance_id)%nat || (128 <? String.length client_order_id)%nat then None
      else Some (mkKey owner (Z.of_nat (String.length instance_id) `mod` 2 ^ 8) (Z.of_nat (String.length client_order_id) `mod` 2 ^ 8)
                       (padded 64 (bytes instance_id)) (padded 128 (bytes client_order_id)))
  | _ => None
  end.

Definition is_cancel (c : Command) : bool := match c with Cancel _ _ _ _ => true | _ => false end.

(** ** A lane and its owner *)

Definition POLY_CANCEL_OWNER_QUEUE_CAPACITY : nat := 256.

(** Where an owner is: at the head of [poll], with a command it took, or in the two stores
    of [release]. *)
Inductive OwnerPc := Poll | Handle (c : Command) | ClearReply | ClearOccupied.

Inductive ControlPc := Listen | Execute (c : Command) | ControlClearReply | ControlClearOccupied | Return | Exited.

Record Lane := mkLane {
  slot : nat; occupied : bool; cancel_reply_pending : bool; inbox : list Command;
  (** the owner's fields *)
  context : bool; pending : option Command; delivery : option Command; occupancy : bool; owner_pc : OwnerPc;
  (** the control worker and the two channels between them *)
  jobs : list Command; returned : nat; control_pc : ControlPc;
  panicked : bool
}.

Definition new_lane (slot : nat) : Lane :=
  mkLane slot false false [] true None None false Poll [] 0 Listen false.

(** How a command ended: its update was published, the lifecycle receiver was gone, or
    it was one that has no update to retain. *)
Inductive Outcome := Published | ReceiverGone | Served.

(** What the lifecycle outbox answers to an attempt. *)
Inductive Sent := SentOk | SentFull | SentDisconnected.

Record OwnerInput := mkInput { reply_ready : bool; route_ok : bool; outbox_answer : Sent; maintenance : bool }.

(** The owner lets the lane go: [drop] of the guard is [release]. *)
Definition drop_occupancy (l : Lane) : Lane :=
  if occupancy l then l <| occupancy := false |> <| owner_pc := ClearReply |> else l <| owner_pc := Poll |>.

(** One access of [Owner::poll]; with the lane, the commands that ended. *)
Definition owner_poll (l : Lane) (i : OwnerInput) : Lane * list (Command * Outcome) :=
  if negb (context l) then
    match returned l with
    | S n => (l <| returned := n |> <| context := true |>, [])
    | O => match control_pc l with Exited => (l <| panicked := true |>, []) | _ => (l, []) end
    end
  else
    match delivery l with
    | Some c =>
        match outbox_answer i with
        | SentFull => (l, [])
        | SentOk => (drop_occupancy (l <| delivery := None |>), [(c, Published)])
        | SentDisconnected => (drop_occupancy (l <| delivery := None |>), [(c, ReceiverGone)])
        end
    | None =>
        match pending l with
        | Some c =>
            if reply_ready i
            then (l <| pending := None |> <| cancel_reply_pending := false |> <| delivery := Some c |>, [])
            else (l, [])
        | None =>
            if maintenance i then (l, [])
            else match inbox l with
                 | [] => (l, [])
                 | c :: rest => (l <| inbox := rest |> <| owner_pc := Handle c |>, [])
                 end
        end
    end.

Definition owner_handle (l : Lane) (c : Command) (i : OwnerInput) : Lane * list (Command * Outcome) :=
  match c with
  | Cancel _ _ _ _ =>
      if route_ok i
      then (l <| occupancy := true |> <| pending := Some c |> <| owner_pc := Poll |>, [])
      else (l <| cancel_reply_pending := false |> <| occupancy := true |> <| delivery := Some c |> <| owner_pc := Poll |>, [])
  | RefreshTransport => (l <| owner_pc := ClearReply |>, [(c, Served)])
  | ProbeHttp _ _ | Fallback _ =>
      match jobs l with
      | [] => (l <| context := false |> <| jobs := [c] |> <| owner_pc := Poll |>, [])
      | _ => (l <| panicked := true |>, [])
      end
  end.

Definition owner_access (l : Lane) (i : OwnerInput) : Lane * list (Command * Outcome) :=
  match owner_pc l with
  | Poll => owner_poll l i
  | Handle c => owner_handle l c i
  | ClearReply => (l <| cancel_reply_pending := false |> <| owner_pc := ClearOccupied |>, [])
  | ClearOccupied => (l <| occupied := false |> <| owner_pc := Poll |>, [])
  end.

(** One access of the control worker's loop. *)
Definition control_access (l : Lane) : Lane * list (Command * Outcome) :=
  match control_pc l with
  | Listen => match jobs l with [] => (l, []) | c :: rest => (l <| jobs := rest |> <| control_pc := Execute c |>, []) end
  | Execute c =>
      match c with
      | ProbeHttp _ _ | Fallback _ => (l <| control_pc := ControlClearReply |>, [(c, Served)])
      | _ => (l <| panicked := true |> <| control_pc := Exited |>, [])
      end
  | ControlClearReply => (l <| cancel_reply_pending := false |> <| control_pc := ControlClearOccupied |>, [])
  | ControlClearOccupied => (l <| occupied := false |> <| control_pc := Return |>, [])
  | Return => match returned l with O => (l <| returned := 1%nat |> <| control_pc := Listen |>, []) | _ => (l <| control_pc := Exited |>, []) end
  | Exited => (l, [])
  end.

(** ** The dispatcher *)

Definition POLY_CANCEL_OUTBOX_CAPACITY : nat := Z.to_nat 4096.

Record Stats := mkStats { high_water : nat; coalesced : Z; overflow : Z }.

(** Who waits for [try_send_poly_owner]: the flush of the outbox, itself called for a new
    command or from the maintenance loop, or [send_poly_owner_lossless]. *)
Inductive Caller := FromFlush (fresh : option Command) | FromSend.

(** The accesses of [try_send_slot]. *)
Inductive Stage := Claim | Mark | Send | Unmark | Unclaim.

Inductive Pc :=
  | Idle
  | CheckOccupied (c : Command) (k : CancelKey) (i : nat)
  | CheckReply (c : Command) (k : CancelKey) (i : nat)
  | Flush (fresh : option Command)
  | Prepare (c : Command) (r : Caller)
  | Refresh (todo : list nat) (after : option (Command * Caller))
  | RefreshSlot (i : nat) (st : Stage) (todo : list nat) (after : option (Command * Caller))
  | Select (c : Command) (r : Caller)
  | TrySlot (c : Command) (i : nat) (st : Stage) (todo : list nat) (r : Caller).

Record Routes := mkRoutes {
  outbox : list Command; outbox_keys : gset CancelKey; lane_keys : list (option CancelKey);
  rr : Z; health : option AccountExecutionAdmission; maintenance_pending : bool; stats : Stats
}.

(** The system, with what has become of the commands: those that were taken on, those
    handed back as refused, those that ended, and those answered for by an earlier one. *)
Record Sys := mkSys {
  lanes : list Lane; routes : Routes; pc : Pc;
  entered : list Command; refused : list Command; ended : list (Command * Outcome); merged : list Command
}.

Definition new_sys (slots : list nat) (h : option AccountExecutionAdmission) : Sys :=
  mkSys (new_lane <$> slots) (mkRoutes [] ∅ (replicate (length slots) None) 0 h false (mkStats 0 0 0)) Idle [] [] [] [].

(** [*rr % lanes.len()] and the lanes from there on, round. *)
Definition ring (n start : nat) : list nat := (λ offset, ((start + offset) mod n)%nat) <$> seq 0 n.

(** The lanes the passes of [try_send_poly_owner] for the cancel role visit, in order. *)
Definition admits (y : Sys) (c : Command) (rank : Z) (now : Z) (i : nat) : bool :=
  match lanes y !! i with
  | None => false
  | Some l =>
      match health (routes y) with Some h => cancel_lane_rank h (slot l) now =? rank | None => true end
      && match c with ProbeHttp _ (Some s) => negb (s =? slot l)%nat | _ => true end
  end.

Definition plan (y : Sys) (c : Command) (now : Z) : list nat :=
  let n := length (lanes y) in
  match n with
  | O => []
  | _ =>
      let start := Z.to_nat (rr (routes y) `mod` Z.of_nat n) in
      flat_map (λ rank, List.filter (admits y c rank now) (ring n start))
               (match health (routes y) with Some _ => [0; 1; 2] | None => [0] end)
  end.

Definition on_routes (f : Routes → Routes) (y : Sys) : Sys := y <| routes := f (routes y) |>.

(** The tail of [send_poly_owner_lossless]: the command is parked, or handed back. *)
Definition park (y : Sys) (c : Command) : Sys :=
  let r := routes y in
  if (POLY_CANCEL_OUTBOX_CAPACITY <=? length (outbox r))%nat then
    (on_routes (λ r, r <| stats := (stats r) <| overflow := overflow (stats r) +w 1 |> |>) y)
      <| refused := refused y ++ [c] |> <| pc := Idle |>
  else
    (on_routes (λ r,
       let r := match cancel_key c with Some k => r <| outbox_keys := {[k]} ∪ outbox_keys r |> | None => r end in
       let r := r <| outbox := outbox r ++ [c] |> in
       r <| stats := (stats r) <| high_water := Nat.max (high_water (stats r)) (length (outbox r)) |> |>) y)
      <| pc := Idle |>.

(** [try_send_poly_owner] returned the command. *)
Definition send_failed (y : Sys) (c : Command) (r : Caller) : Sys :=
  match r with
  | FromSend => park y c
  | FromFlush fresh =>
      let y := on_routes (λ r, r <| outbox := c :: outbox r |>) y in
      match fresh with Some f => park y f | None => y <| pc := Idle |> end
  end.

(** It returned [Ok]. *)
Definition send_done (y : Sys) (c : Command) (i : nat) (r : Caller) : Sys :=
  let y := on_routes (λ r, r <| maintenance_pending := true |> <| rr := Z.of_nat i +w 1 |> <| lane_keys := <[i := cancel_key c]> (lane_keys r) |>) y in
  match r with
  | FromSend => y <| pc := Idle |>
  | FromFlush fresh =>
      (on_routes (λ r, match cancel_key c with Some k => r <| outbox_keys := outbox_keys r ∖ {[k]} |> | None => r end) y)
        <| pc := Flush fresh |>
  end.

Definition try_next (y : Sys) (c : Command) (todo : list nat) (r : Caller) : Sys :=
  match todo with
  | [] => send_failed y c r
  | i :: todo => y <| pc := TrySlot c i Claim todo r |>
  end.

Definition after_refresh (y : Sys) (after : option (Command * Caller)) : Sys :=
  y <| pc := match after with Some (c, r) => Select c r | None => Flush None end |>.

(** One access of [try_send_slot] to a lane: the lane, and where it goes on, or the
    result. *)
Definition slot_access (l : Lane) (c : Command) (st : Stage) : Lane * (Stage + bool) :=
  match st with
  | Claim => if occupied l then (l, inr false) else (l <| occupied := true |>, inl Mark)
  | Mark => (l <| cancel_reply_pending := is_cancel c |>, inl Send)
  | Send => if (length (inbox l) <? POLY_CANCEL_OWNER_QUEUE_CAPACITY)%nat then (l <| inbox := inbox l ++ [c] |>, inr true) else (l, inl Unmark)
  | Unmark => (l <| cancel_reply_pending := false |>, inl Unclaim)
  | Unclaim => (l <| occupied := false |>, inr false)
  end.

(** The dispatcher asks the next lane with this key, from [i] on. *)
Fixpoint keyed (ks : list (option CancelKey)) (k : CancelKey) (i : nat) : option nat :=
  match ks with
  | [] => None
  | x :: ks => if decide (x = Some k) then Some i else keyed ks k (S i)
  end.

Definition check_from (y : Sys) (c : Command) (k : CancelKey) (i : nat) : Sys :=
  match keyed (drop i (lane_keys (routes y))) k i with
  | Some j => y <| pc := CheckOccupied c k j |>
  | None => y <| entered := entered y ++ [c] |> <| pc := Flush (Some c) |>
  end.

Definition coalesce (y : Sys) (c : Command) : Sys :=
  (on_routes (λ r, r <| stats := (stats r) <| coalesced := coalesced (stats r) +w 1 |> |>) y)
    <| merged := merged y ++ [c] |> <| pc := Idle |>.

(** [send_poly_owner_lossless(routes, Role::Cancel, c)]. *)
Definition submit (y : Sys) (c : Command) : Sys :=
  match cancel_key c with
  | Some k => if decide (k ∈ outbox_keys (routes y)) then coalesce y c else check_from y c k 0
  | None => y <| entered := entered y ++ [c] |> <| pc := Flush (Some c) |>
  end.

Definition with_lane (y : Sys) (i : nat) (f : Lane → Sys) : option Sys := f <$> lanes y !! i.

Definition dispatch (y : Sys) (now : Z) : option Sys :=
  match pc y with
  | Idle | Prepare _ _ => None
  | CheckOccupied c k i =>
      with_lane y i (λ l, if occupied l then y <| pc := CheckReply c k i |> else check_from y c k (S i))
  | CheckReply c k i =>
      with_lane y i (λ l, if cancel_reply_pending l then coalesce y c else check_from y c k (S i))
  | Flush fresh =>
      match outbox (routes y) with
      | c :: rest => Some ((on_routes (λ r, r <| outbox := rest |>) y) <| pc := Prepare c (FromFlush fresh) |>)
      | [] => Some (y <| pc := match fresh with Some f => Prepare f FromSend | None => Idle end |>)
      end
  | Refresh [] after => Some (after_refresh y after)
  | Refresh (i :: todo) after =>
      with_lane y i (λ l, if occupied l then y <| pc := Refresh todo after |> else y <| pc := RefreshSlot i Claim todo after |>)
  | RefreshSlot i st todo after =>
      with_lane y i (λ l,
        let '(l, next) := slot_access l RefreshTransport st in
        let y := y <| lanes := <[i := l]> (lanes y) |> in
        match next with
        | inl st => y <| pc := RefreshSlot i st todo after |>
        | inr sent => (if sent then y <| entered := entered y ++ [RefreshTransport] |> else y) <| pc := Refresh todo after |>
        end)
  | Select c r => Some (try_next y c (plan y c now) r)
  | TrySlot c i st todo r =>
      with_lane y i (λ l,
        let '(l, next) := slot_access l c st in
        let y := y <| lanes := <[i := l]> (lanes y) |> in
        match next with
        | inl st => y <| pc := TrySlot c i st todo r |>
        | inr true => send_done y c i r
        | inr false => try_next y c todo r
        end)
  end.

(** [refresh_health]: the admission after it, and the lanes whose retired connections are
    to be refreshed; called before a selection and from the maintenance loop. *)
Definition refresh_health (y : Sys) (h : AccountExecutionAdmission) (todo : list nat) : option Sys :=
  let y' := on_routes (λ r, r <| health := health r ≫= (λ _, Some h) |> <| maintenance_pending := false |>) y in
  let todo := match health (routes y) with Some _ => todo | None => [] end in
  match pc y with
  | Prepare c r => Some (y' <| pc := Refresh todo (Some (c, r)) |>)
  | Idle => Some (y' <| pc := Refresh todo None |>)
  | _ => None
  end.

(** ** Runs *)

Inductive Event :=
  | Submit (c : Command)
  | Maintain (h : AccountExecutionAdmission) (todo : list nat)
  | SkipRefresh
  | Dispatch (now : Z)
  | Own (i : nat) (input : OwnerInput)
  | Control (i : nat).

Definition lane_event (y : Sys) (i : nat) (f : Lane → Lane * list (Command * Outcome)) : option Sys :=
  with_lane y i (λ l, let '(l, es) := f l in y <| lanes := <[i := l]> (lanes y) |> <| ended := ended y ++ es |>).

Definition event (y : Sys) (e : Event) : option Sys :=
  match e with
  | Submit c => match pc y with Idle => if decide (c = RefreshTransport) then None else Some (submit y c) | _ => None end
  | Maintain h todo => if decide (Forall (λ i, (i < length (lanes y))%nat) todo) then refresh_health y h todo else None
  | SkipRefresh => match pc y with Prepare c r => Some (y <| pc := Select c r |>) | _ => None end
  | Dispatch now => dispatch y now
  | Own i input => lane_event y i (λ l, owner_access l input)
  | Control i => lane_event y i control_access
  end.

Inductive reachable : Sys → Prop :=
  | reachable_new slots h : reachable (new_sys slots h)
  | reachable_event y e y' : reachable y → event y e = Some y' → reachable y'.

(** ** One lane *)

Definition b2n (b : bool) : nat := if b then 1 else 0.

(** The commands a lane holds: those whose cancel has no answer yet, then the others. *)
Definition handled (l : Lane) : list Command := match owner_pc l with Handle c => [c] | _ => [] end.
Definition unanswered (l : Lane) : list Command := inbox l ++ handled l ++ option_list (pending l).
Definition executing (l : Lane) : list Command := match control_pc l with Execute c => [c] | _ => [] end.
Definition settled (l : Lane) : list Command := option_list (delivery l) ++ jobs l ++ executing l.
Definition held_by (l : Lane) : list Command := unanswered l ++ settled l.

(** The releases under way. *)
Definition releasing (l : Lane) : nat :=
  (match owner_pc l with ClearReply | ClearOccupied => 1 | _ => 0 end
   + match control_pc l with ControlClearReply | ControlClearOccupied => 1 | _ => 0 end)%nat.

Definition away (l : Lane) : nat :=
  match control_pc l with Execute _ | ControlClearReply | ControlClearOccupied | Return => 1 | _ => 0 end.

(** The dispatcher's part in a claimed lane: the command it is to send there. *)
Definition claim_tokens (h : option (Command * Stage)) : nat := match h with Some (_, Claim) | None => 0 | Some _ => 1 end.
Definition claim_marked (h : option (Command * Stage)) : list Command := match h with Some (c, Send) | Some (c, Unmark) => [c] | _ => [] end.

Definition polling (l : Lane) : bool := match owner_pc l with Poll => true | _ => false end.
Definition is_some {A} (o : option A) : bool := match o with Some _ => true | None => false end.
Definition is_job (c : Command) : bool := match c with ProbeHttp _ _ | Fallback _ => true | _ => false end.
Definition keyed_by (key : option CancelKey) (c : Command) : bool := negb (is_cancel c) || bool_decide (key = cancel_key c).

(** One holder at a time: the word [occupied] counts the claim of the dispatcher, the
    commands in the lane and the releases.  The context is in one place.  A set
    [cancel_reply_pending] announces a cancel that has no answer. *)
Record lane_ok (h : option (Command * Stage)) (key : option CancelKey) (l : Lane) : Prop := {
  lo_tokens : (claim_tokens h + length (held_by l) + releasing l = b2n (occupied l))%nat;
  lo_context : (b2n (context l) + length (jobs l) + away l + returned l = 1)%nat;
  lo_alive : control_pc l ≠ Exited;
  lo_present : negb (polling l) || is_some (pending l) || is_some (delivery l) = true → context l = true;
  lo_occupancy : occupancy l = is_some (pending l) || is_some (delivery l);
  lo_cancels : forallb is_cancel (option_list (pending l) ++ option_list (delivery l)) = true;
  lo_jobs : forallb is_job (jobs l ++ executing l) = true;
  lo_reply : cancel_reply_pending l = true → existsb is_cancel (claim_marked h ++ unanswered l) = true;
  lo_key : forallb (keyed_by key) (unanswered l) = true;
  lo_panicked : panicked l = false
}.

Lemma b2n_le b : (b2n b <= 1)%nat.
Proof. destruct b; cbn; lia. Qed.

Lemma new_lane_ok s : lane_ok None None (new_lane s).
Proof. split; cbn; try done; naive_solver. Qed.


#[local] Arguments cancel_key : simpl never.
#[local] Arguments keyed_by : simpl never.

(** Opens a lane and its invariant. *)
Ltac lane_open l :=
  let sl := fresh "sl" in let occ := fresh "occ" in let rep := fresh "rep" in let inb := fresh "inb" in
  let ctx := fresh "ctx" in let pen := fresh "pen" in let del := fresh "del" in let ocy := fresh "ocy" in
  let opc := fresh "opc" in let jb := fresh "jb" in let ret := fresh "ret" in let cpc := fresh "cpc" in
  let pan := fresh "pan" in
  intros [H1 H2 H3 H4 H5 H6 H7 H8 H9 H10];
  destruct l as [sl occ rep inb ctx pen del ocy opc jb ret cpc pan]; cbn in *; subst pan ocy;
  pose proof (b2n_le occ) as Hle;
  unfold held_by, unanswered, settled, handled, executing, releasing, away, polling in *;
  rewrite !length_app in H1; rewrite existsb_app in H8; cbn in *.

(** The places that the count of holders shows to be empty. *)
Ltac lane_empty H :=
  repeat match type of H with
  | context [length ?l] => is_var l; assert (l = []) by (apply nil_length_inv; lia); subst l; cbn in H
  | context [length (option_list ?o)] => is_var o; assert (o = None) by (destruct o; [cbn in H; lia|done]); subst o; cbn in H
  end.

(** The fields of the invariant after a step. *)
Ltac lane_fields :=
  (split; [split; unfold held_by, settled, polling; cbn in *|split; [|done]]); cbn in *;
  rewrite ?length_app, ?existsb_app, ?andb_true_r, ?orb_false_r, ?orb_true_r, ?app_nil_r in *; cbn in *;
  rewrite ?orb_false_r; try done; try lia;
  match goal with
  | occ : bool, H : (b2n ?occ <= 1)%nat |- (_ = b2n _)%nat => destruct occ; cbn in *; done || lia
  | ctx : bool |- _ = true → ?ctx = true => by destruct ctx
  | H : true = true → ?ctx = true |- _ => specialize (H eq_refl); subst ctx; cbn in *; lia
  end.

Lemma owner_access_ok h k l i l' es :
  lane_ok h k l → owner_access l i = (l', es) → lane_ok h k l' ∧ held_by l ≡ₚ held_by l' ++ es.*1 ∧ slot l' = slot l.
Proof.
  lane_open l. unfold owner_access, owner_poll, owner_handle, drop_occupancy. cbn. intros E.
  repeat (case_match; cbn in *; simplify_eq; try (exfalso; lia)).
  all: try lane_empty H1. all: lane_fields.
Qed.

Lemma control_access_ok h k l l' es :
  lane_ok h k l → control_access l = (l', es) → lane_ok h k l' ∧ held_by l ≡ₚ held_by l' ++ es.*1 ∧ slot l' = slot l.
Proof.
  lane_open l. unfold control_access. cbn. intros E.
  repeat (case_match; cbn in *; simplify_eq; try (exfalso; lia)).
  all: try lane_empty H1. all: lane_fields.
Qed.

Lemma slot_access_ok c st k k' l l' next :
  lane_ok (Some (c, st)) k l → keyed_by k' c = true → slot_access l c st = (l', next) →
  match next with
  | inl st' => lane_ok (Some (c, st')) k l' ∧ held_by l' ≡ₚ held_by l ∧ slot l' = slot l
  | inr true => lane_ok None k' l' ∧ held_by l' ≡ₚ held_by l ++ [c] ∧ slot l' = slot l
  | inr false => lane_ok None k l' ∧ held_by l' ≡ₚ held_by l ∧ slot l' = slot l
  end ∧ (st = Send → next = inr true).
Proof.
  lane_open l. unfold slot_access. cbn. intros Hk E.
  repeat (case_match; cbn in *; simplify_eq; try (exfalso; lia)).
  all: try lane_empty H1. all: try done.
  all: split; [|done]. all: lane_fields.
Qed.

(** A lane the dispatcher has only in view is as one it does not deal with. *)
Lemma lane_ok_view c k l : lane_ok (Some (c, Claim)) k l ↔ lane_ok None k l.
Proof. split; intros []; by split. Qed.

(** ** The ledger of the dispatcher *)

(** The selection under way, the command taken from the outbox and the new one. *)
Definition job (p : Pc) : option (Command * Caller) :=
  match p with
  | Prepare c r | Select c r | TrySlot c _ _ _ r => Some (c, r)
  | Refresh _ after | RefreshSlot _ _ _ after => after
  | _ => None
  end.
Definition flushing_of (j : option (Command * Caller)) : list Command := match j with Some (c, FromFlush _) => [c] | _ => [] end.
Definition fresh_of (j : option (Command * Caller)) : list Command :=
  match j with Some (c, FromSend) => [c] | Some (_, FromFlush (Some f)) => [f] | _ => [] end.
Definition flushing (p : Pc) : list Command := flushing_of (job p).
Definition fresh (p : Pc) : list Command := match p with Flush (Some f) => [f] | _ => fresh_of (job p) end.

Definition parked_keys (l : list Command) : list CancelKey := omap cancel_key l.

Record keys_ok (fl fr : list Command) (r : Routes) : Prop := {
  ko_once : NoDup (parked_keys (fl ++ outbox r));
  ko_exact : outbox_keys r = list_to_set (parked_keys (fl ++ outbox r));
  ko_fresh : ∀ c k, c ∈ fr → cancel_key c = Some k → k ∉ outbox_keys r;
  ko_room : (length (fl ++ outbox r) <= POLY_CANCEL_OUTBOX_CAPACITY)%nat
}.

#[local] Arguments POLY_CANCEL_OUTBOX_CAPACITY : simpl never.

Lemma keys_park c r :
  keys_ok [] [c] r → (length (outbox r) < POLY_CANCEL_OUTBOX_CAPACITY)%nat →
  keys_ok [] [] (let r := match cancel_key c with Some k => r <| outbox_keys := {[k]} ∪ outbox_keys r |> | None => r end in
                 r <| outbox := outbox r ++ [c] |>).
Proof.
  intros [K1 K2 K3 K4] Hlt. cbn in *. unfold parked_keys in *.
  destruct (cancel_key c) as [k|] eqn:Ek; split; cbn; unfold parked_keys; rewrite ?omap_app, ?length_app; cbn; rewrite ?Ek; try set_solver; try lia.
  - apply NoDup_app. split; [done|]. split; [|apply NoDup_singleton].
    intros x Hx Hk. apply list_elem_of_singleton in Hk as ->. apply (K3 c k); [set_solver|done|]. rewrite K2. by apply elem_of_list_to_set.
  - by rewrite app_nil_r.
Qed.

Lemma keys_done c fr r :
  keys_ok [c] fr r → keys_ok [] fr (match cancel_key c with Some k => r <| outbox_keys := outbox_keys r ∖ {[k]} |> | None => r end).
Proof.
  intros [K1 K2 K3 K4]. cbn in *. unfold parked_keys in *. cbn in *. destruct (cancel_key c) as [k|] eqn:Ek; split; cbn; unfold parked_keys; try done; try lia.
  - by apply NoDup_cons in K1 as [_ ?].
  - rewrite K2. cbn. apply NoDup_cons in K1 as [K1 _]. apply leibniz_equiv. intros x. rewrite elem_of_difference, elem_of_union, !elem_of_singleton, !elem_of_list_to_set.
    split; [tauto|]. intros Hx. split; [tauto|]. by intros ->.
  - intros c' k' Hc' Hk'. specialize (K3 _ _ Hc' Hk'). set_solver.
Qed.

Lemma keys_routes fl fr r r' :
  keys_ok fl fr r → outbox r' = outbox r → outbox_keys r' = outbox_keys r → keys_ok fl fr r'.
Proof. intros [] E1 E2. split; by rewrite ?E1, ?E2. Qed.

Lemma keys_weaken fl fr fr' r : keys_ok fl fr r → fr' ⊆ fr → keys_ok fl fr' r.
Proof. intros [? ? K ?] Hs. split; try done. intros c k Hc. by apply K, Hs. Qed.

(** ** The invariant *)

Definition cnt (x : Command) (l : list Command) : nat := count_occ Command_eq_dec l x.
#[local] Arguments cnt : simpl never.
#[local] Arguments held_by : simpl never.

Lemma cnt_app x l k : cnt x (l ++ k) = (cnt x l + cnt x k)%nat.
Proof. apply count_occ_app. Qed.

Lemma cnt_cons x a l : cnt x (a :: l) = (cnt x [a] + cnt x l)%nat.
Proof. apply (cnt_app x [a]). Qed.

Lemma cnt_nil x : cnt x [] = 0%nat.
Proof. done. Qed.

Lemma cnt_perm x l k : l ≡ₚ k → cnt x l = cnt x k.
Proof. intros Hp. by apply (Permutation_count_occ Command_eq_dec). Qed.

Lemma cnt_insert x (ls : list Lane) i l l' :
  ls !! i = Some l →
  (cnt x (flat_map held_by (<[i := l']> ls)) + cnt x (held_by l) = cnt x (flat_map held_by ls) + cnt x (held_by l'))%nat.
Proof.
  intros E. rewrite <- (take_drop_middle ls i l E) at 2. rewrite insert_take_drop by by apply lookup_lt_Some in E.
  rewrite !flat_map_app. cbn. rewrite !cnt_app. lia.
Qed.

(** What the dispatcher has at a lane, and the lanes it is to visit. *)
Definition claim_at (p : Pc) (i : nat) : option (Command * Stage) :=
  match p with
  | TrySlot c j st _ _ => if decide (i = j) then Some (c, st) else None
  | RefreshSlot j st _ _ => if decide (i = j) then Some (RefreshTransport, st) else None
  | _ => None
  end.

Definition visits (p : Pc) : list nat :=
  match p with
  | CheckOccupied _ _ i | CheckReply _ _ i => [i]
  | Refresh todo _ => todo
  | RefreshSlot i _ todo _ | TrySlot _ i _ todo _ => i :: todo
  | _ => []
  end.

Definition key_at (r : Routes) (i : nat) : option CancelKey := mjoin (lane_keys r !! i).

Definition lanes_ok (p : Pc) (ls : list Lane) (r : Routes) : Prop :=
  ∀ i l, ls !! i = Some l → lane_ok (claim_at p i) (key_at r i) l.

Definition in_lanes (y : Sys) : list Command := flat_map held_by (lanes y).

Definition counted (fl fr : list Command) (y : Sys) : Prop :=
  ∀ x, cnt x (entered y) = (cnt x fl + cnt x fr + cnt x (outbox (routes y)) + cnt x (in_lanes y) + cnt x ((ended y).*1) + cnt x (refused y))%nat.

Definition asking (p : Pc) : option (Command * CancelKey * nat) :=
  match p with CheckOccupied c k i | CheckReply c k i => Some (c, k, i) | _ => None end.

Record inv (y : Sys) : Prop := {
  iv_lanes : lanes_ok (pc y) (lanes y) (routes y);
  iv_slots : length (lane_keys (routes y)) = length (lanes y);
  iv_visits : Forall (λ i, (i < length (lanes y))%nat) (visits (pc y));
  iv_asking : ∀ c k i, asking (pc y) = Some (c, k, i) → cancel_key c = Some k ∧ (k ∉ outbox_keys (routes y)) ∧ key_at (routes y) i = Some k;
  iv_keys : keys_ok (flushing (pc y)) (fresh (pc y)) (routes y);
  iv_counted : counted (flushing (pc y)) (fresh (pc y)) y
}.

Lemma cancel_new_inv slots h : inv (new_sys slots h).
Proof.
  split; cbn; try done.
  - intros i l Hl. cbn in *. rewrite list_lookup_fmap in Hl. destruct (slots !! i) as [s|] eqn:Es; [|done]. injection Hl as <-.
    unfold key_at. cbn. rewrite lookup_replicate_2; [apply new_lane_ok|]. by apply lookup_lt_Some in Es.
  - by rewrite length_replicate, length_fmap.
  - split; cbn; try done; [constructor|lia].
  - intros x. unfold in_lanes. cbn. induction slots; [done|]. cbn. done.
Qed.

(** Balances the ledger for one command. *)
Ltac ledger B :=
  let x := fresh "x" in intros x; specialize (B x); unfold in_lanes in *; cbn in *;
  rewrite ?fmap_app, ?cnt_app, ?cnt_nil, ?(cnt_cons x _ (outbox _)) in *; lia.

Lemma keyed_spec k ks i j :
  keyed ks k i = Some j → (i <= j)%nat ∧ ks !! (j - i)%nat = Some (Some k).
Proof.
  revert i. induction ks as [|x ks IH]; intros i E; cbn in E; [done|]. case_decide as Hx.
  - injection E as <-. subst x. rewrite Nat.sub_diag. split; [lia|done].
  - apply IH in E as [Hle E]. split; [lia|]. replace (j - i)%nat with (S (j - S i)) by lia. done.
Qed.

(** The parts of the invariant that the dispatcher's own bookkeeping starts from. *)
Record base (fl fr : list Command) (y : Sys) : Prop := {
  ba_lanes : lanes_ok Idle (lanes y) (routes y);
  ba_slots : length (lane_keys (routes y)) = length (lanes y);
  ba_keys : keys_ok fl fr (routes y);
  ba_counted : counted fl fr y
}.

Lemma base_inv p y :
  base (flushing p) (fresh p) y → lanes_ok p (lanes y) (routes y) → visits p = [] → asking p = None → inv (y <| pc := p |>).
Proof. intros [_ ? ? ?] ? Hv Ha. split; cbn; try done; [by rewrite Hv|by rewrite Ha]. Qed.

Lemma park_inv y c : base [] [c] y → inv (park y c).
Proof.
  intros [B1 B2 B3 B4]. unfold park. destruct (Nat.leb_spec POLY_CANCEL_OUTBOX_CAPACITY (length (outbox (routes y)))) as [Hf|Hf].
  - split; cbn; try done; [by eapply keys_weaken, list_subseteq_nil; eapply keys_routes|].
    ledger B4.
  - pose proof (keys_park c (routes y) B3 Hf) as Hk. destruct (cancel_key c) as [k|] eqn:Ek; split; cbn in *; try done.
    all: try by eapply keys_routes.
    all: ledger B4.
Qed.

Lemma send_failed_inv y c r : base (flushing_of (Some (c, r))) (fresh_of (Some (c, r))) y → inv (send_failed y c r).
Proof.
  intros B. unfold send_failed. destruct r as [fresh|]; [|by apply park_inv].
  assert (base [] (fresh_of (Some (c, FromFlush fresh))) (on_routes (λ r, r <| outbox := c :: outbox r |>) y)) as B'.
  { destruct B as [B1 B2 [K1 K2 K3 K4] B4]. split; [done|done|by split|]. ledger B4. }
  destruct fresh as [f|]; [by apply park_inv|]. apply (base_inv Idle); [exact B'|apply B'|done..].
Qed.

Definition left_by (r : Caller) : list Command := match r with FromFlush (Some f) => [f] | _ => [] end.

Lemma send_done_inv y c i r :
  lanes_ok Idle (lanes y) ((routes y) <| lane_keys := <[i := cancel_key c]> (lane_keys (routes y)) |>) →
  length (lane_keys (routes y)) = length (lanes y) →
  keys_ok (flushing_of (Some (c, r))) (fresh_of (Some (c, r))) (routes y) → counted [] (left_by r) y → inv (send_done y c i r).
Proof.
  intros B1 B2 B3 B4. unfold send_done. destruct r as [fresh|].
  - apply (keys_done c) in B3. split; cbn; destruct (cancel_key c) eqn:Ek; cbn in *; rewrite ?length_insert; try done.
    all: try by destruct fresh. all: by eapply keys_routes; [eapply keys_weaken; [exact B3|]|..]; destruct fresh.
  - split; cbn; rewrite ?length_insert; try done. eapply keys_routes; [eapply keys_weaken; [exact B3|]|..]; [apply list_subseteq_nil|done..].
Qed.

Lemma check_from_inv y c k i :
  base [] [] y → cancel_key c = Some k → k ∉ outbox_keys (routes y) → inv (check_from y c k i).
Proof.
  intros [B1 B2 B3 B4] Ek Hk. unfold check_from. destruct (keyed _ _ _) as [j|] eqn:Ej.
  - apply keyed_spec in Ej as [Hle Ej]. rewrite lookup_drop in Ej. replace (i + (j - i))%nat with j in Ej by lia.
    split; cbn; try done.
    + constructor; [|done]. apply lookup_lt_Some in Ej. lia.
    + intros ? ? ? [= <- <- <-]. unfold key_at. by rewrite Ej.
  - split; cbn; try done.
    + destruct B3. split; try done. intros c' k' ->%list_elem_of_singleton. by rewrite Ek; intros [= <-].
    + ledger B4.
Qed.

(** ** Steps *)

Lemma inv_base y : inv y → (∀ i, claim_at (pc y) i = None) → base (flushing (pc y)) (fresh (pc y)) y.
Proof. intros [I1 I2 _ _ I5 I6] Hn. split; try done. intros i l Hl. specialize (I1 i l Hl). by rewrite Hn in I1. Qed.

Lemma lane_event_inv y i f y' :
  (∀ h k l l' es, lane_ok h k l → f l = (l', es) → lane_ok h k l' ∧ held_by l ≡ₚ held_by l' ++ es.*1 ∧ slot l' = slot l) →
  inv y → lane_event y i f = Some y' → inv y'.
Proof.
  intros Hf [I1 I2 I3 I4 I5 I6] E. unfold lane_event, with_lane in E. apply fmap_Some in E as (l & Hl & ->).
  destruct (f l) as [l' es] eqn:Ef. destruct (Hf _ _ _ _ _ (I1 i l Hl) Ef) as (Hok & Hp & _).
  split; cbn; rewrite ?length_insert; try done.
  - intros j l2 Hj. apply list_lookup_insert_Some in Hj as [(<- & <- & _)|[_ Hj]]; [done|by apply I1].
  - intros x. specialize (I6 x). pose proof (cnt_insert x _ _ _ l' Hl) as Hi. apply (cnt_perm x) in Hp.
    unfold in_lanes in *. cbn in *. rewrite ?fmap_app, ?cnt_app in *. lia.
Qed.

(** One access of a send: the lane is updated and the rest of the ledger is untouched. *)
Lemma slot_step y c st i l l' next r' :
  inv y → claim_at (pc y) i = Some (c, st) → lanes y !! i = Some l → slot_access l c st = (l', next) →
  keyed_by (key_at r' i) c = true →
  (∀ j, j ≠ i → claim_at (pc y) j = None ∧ key_at r' j = key_at (routes y) j) →
  let ls := <[i := l']> (lanes y) in
  match next with
  | inl st' => lane_ok (Some (c, st')) (key_at (routes y) i) l' ∧ (∀ x, cnt x (flat_map held_by ls) = cnt x (in_lanes y))
  | inr true => lanes_ok Idle ls r' ∧ (∀ x, cnt x (flat_map held_by ls) = cnt x (in_lanes y) + cnt x [c])%nat
  | inr false => lanes_ok Idle ls (routes y) ∧ (∀ x, cnt x (flat_map held_by ls) = cnt x (in_lanes y))
  end.
Proof.
  intros I Hc Hl E Hk Ho ls. pose proof (iv_lanes _ I i l Hl) as Hok. rewrite Hc in Hok.
  destruct (slot_access_ok _ _ _ _ _ _ _ Hok Hk E) as [H _].
  assert (∀ x, cnt x (flat_map held_by ls) + cnt x (held_by l) = cnt x (in_lanes y) + cnt x (held_by l'))%nat as Hcnt
    by (intros x; by apply cnt_insert).
  assert (∀ r'' k', lane_ok None k' l' → k' = key_at r'' i → (∀ j, j ≠ i → key_at r'' j = key_at (routes y) j) → lanes_ok Idle ls r'') as Hidle.
  { intros r'' k' Hl' -> Hsame j l2 Hj. apply list_lookup_insert_Some in Hj as [(<- & <- & _)|[Hne Hj]]; [done|].
    pose proof (iv_lanes _ I j l2 Hj) as H2. destruct (Ho j ltac:(done)) as [E' _]. rewrite E' in H2. cbn. by rewrite Hsame. }
  destruct next as [st'|[]]; destruct H as (H1 & H2 & _); split; try done.
  all: try (intros x; specialize (Hcnt x); apply (cnt_perm x) in H2; rewrite ?cnt_app in H2; lia).
  - eapply Hidle; [exact H1|done|]. intros j Hj. by apply Ho.
  - by eapply Hidle.
Qed.

Lemma try_next_inv y c todo r :
  base (flushing_of (Some (c, r))) (fresh_of (Some (c, r))) y → Forall (λ i, (i < length (lanes y))%nat) todo → inv (try_next y c todo r).
Proof.
  intros B Ht. unfold try_next. destruct todo as [|i todo]; [by apply send_failed_inv|]. destruct B as [B1 B2 B3 B4].
  split; cbn; try done. intros j l Hl. specialize (B1 j l Hl). cbn in *. case_decide; [by apply lane_ok_view|done].
Qed.

Lemma elem_of_ring n start i : i ∈ ring n start → (i < n)%nat.
Proof.
  unfold ring. intros (o & -> & Ho)%list_elem_of_fmap. apply elem_of_seq in Ho. apply Nat.mod_upper_bound. lia.
Qed.

Lemma plan_range y c now : Forall (λ i, (i < length (lanes y))%nat) (plan y c now).
Proof.
  apply Forall_forall. intros i Hi. unfold plan in Hi. destruct (length (lanes y)) as [|n] eqn:En; [by apply not_elem_of_nil in Hi|].
  rewrite list_elem_of_In, in_flat_map in Hi. destruct Hi as (rank & _ & Hi). apply filter_In in Hi as [Hi _].
  rewrite <- list_elem_of_In in Hi. by apply elem_of_ring in Hi.
Qed.

Lemma key_at_insert r i x j :
  key_at (r <| lane_keys := <[i := x]> (lane_keys r) |>) j = if decide (j = i ∧ (i < length (lane_keys r))%nat) then x else key_at r j.
Proof.
  unfold key_at. cbn. case_decide as Hd; [destruct Hd as [-> Hd]; by rewrite list_lookup_insert_eq|].
  destruct (decide (i = j)) as [->|]; [|by rewrite list_lookup_insert_ne]. rewrite list_insert_ge; [done|]. lia.
Qed.

Lemma refresh_slot_inv y i st todo after l l' next :
  inv y → pc y = RefreshSlot i st todo after → lanes y !! i = Some l → slot_access l RefreshTransport st = (l', next) →
  let y1 := y <| lanes := <[i := l']> (lanes y) |> in
  inv (match next with
       | inl st => y1 <| pc := RefreshSlot i st todo after |>
       | inr sent => (if sent then y1 <| entered := entered y ++ [RefreshTransport] |> else y1) <| pc := Refresh todo after |>
       end).
Proof.
  intros I Ep Hl E y1. pose proof (iv_visits _ I) as Hv. rewrite Ep in Hv. cbn in Hv.
  assert (∀ j, j ≠ i → claim_at (pc y) j = None) as Hj by (intros j Hj; rewrite Ep; cbn; by case_decide).
  assert (claim_at (pc y) i = Some (RefreshTransport, st)) as Hc by (rewrite Ep; cbn; by case_decide).
  pose proof (slot_step y _ st i l l' next (routes y) I Hc Hl E eq_refl (λ j H, conj (Hj j H) eq_refl)) as Hs.
  pose proof (iv_lanes _ I) as I1. destruct I as [_ I2 I3 _ I5 I6]. rewrite Ep in I5, I6. cbn in Hs.
  destruct next as [st'|[]]; destruct Hs as [H1 H2]; split; cbn; rewrite ?length_insert; try done.
  all: try (intros x; specialize (I6 x); specialize (H2 x); unfold in_lanes, flushing, fresh in *; cbn in *; rewrite ?cnt_app; lia).
  all: try by apply Forall_cons in Hv as [_ Hv].
  intros j l2 Hj2. cbn. apply list_lookup_insert_Some in Hj2 as [(<- & <- & _)|[Hne Hj2]]; case_decide; try done.
  specialize (I1 j l2 Hj2). by rewrite Hj in I1.
Qed.

Lemma try_slot_inv y c i st todo r l l' next :
  inv y → pc y = TrySlot c i st todo r → lanes y !! i = Some l → slot_access l c st = (l', next) →
  let y1 := y <| lanes := <[i := l']> (lanes y) |> in
  inv (match next with
       | inl st => y1 <| pc := TrySlot c i st todo r |>
       | inr true => send_done y1 c i r
       | inr false => try_next y1 c todo r
       end).
Proof.
  intros I Ep Hl E y1. pose proof (iv_visits _ I) as Hv. rewrite Ep in Hv. cbn in Hv.
  assert (∀ j, j ≠ i → claim_at (pc y) j = None) as Hj by (intros j Hj; rewrite Ep; cbn; by case_decide).
  assert (claim_at (pc y) i = Some (c, st)) as Hc by (rewrite Ep; cbn; by case_decide).
  set (r' := (routes y) <| lane_keys := <[i := cancel_key c]> (lane_keys (routes y)) |>).
  assert (keyed_by (key_at r' i) c = true) as Hk.
  { unfold r'. rewrite key_at_insert. case_decide as Hd; [|destruct Hd; split; [done|]; rewrite (iv_slots _ I); by apply lookup_lt_Some in Hl].
    unfold keyed_by. rewrite bool_decide_true by done. apply orb_true_r. }
  assert (∀ j, j ≠ i → claim_at (pc y) j = None ∧ key_at r' j = key_at (routes y) j) as Ho.
  { intros j Hne. split; [by apply Hj|]. unfold r'. rewrite key_at_insert. case_decide; naive_solver. }
  pose proof (slot_step y _ st i l l' next r' I Hc Hl E Hk Ho) as Hs.
  pose proof (iv_lanes _ I) as I1. destruct I as [_ I2 I3 _ I5 I6]. rewrite Ep in I5, I6. cbn in Hs.
  destruct next as [st'|[]]; destruct Hs as [H1 H2].
  - split; cbn; rewrite ?length_insert; try done.
    + intros j l2 Hj2. cbn. apply list_lookup_insert_Some in Hj2 as [(<- & <- & _)|[Hne Hj2]]; case_decide; try done.
      specialize (I1 j l2 Hj2). by rewrite Hj in I1.
    + intros x. specialize (I6 x). specialize (H2 x). unfold in_lanes, flushing, fresh in *. cbn in *. lia.
  - apply send_done_inv; cbn; rewrite ?length_insert; try done. intros x. specialize (I6 x). specialize (H2 x).
    unfold in_lanes, flushing, fresh in *. cbn in *. destruct r as [[f|]|]; cbn in *; rewrite ?cnt_nil in *; lia.
  - apply try_next_inv; cbn; rewrite ?length_insert; [|by apply Forall_cons in Hv as [_ Hv]]. split; cbn; rewrite ?length_insert; try done.
    intros x. specialize (I6 x). specialize (H2 x). unfold in_lanes, flushing, fresh in *. cbn in *. lia.
Qed.

(** The invariant where the dispatcher has no lane in hand. *)
Ltac quiet y I Ep B := pose proof (inv_base y I) as B; rewrite Ep in B; specialize (B ltac:(done)).

Lemma flush_inv y fr :
  inv y → pc y = Flush fr →
  inv (match outbox (routes y) with
       | c :: rest => (on_routes (λ r, r <| outbox := rest |>) y) <| pc := Prepare c (FromFlush fr) |>
       | [] => y <| pc := match fr with Some f => Prepare f FromSend | None => Idle end |>
       end).
Proof.
  intros I Ep. quiet y I Ep B. destruct B as [B1 B2 B3 B4]. destruct (outbox (routes y)) as [|c rest] eqn:Eo.
  - destruct fr as [f|]; (apply base_inv; [by split|done..]).
  - assert (keys_ok [c] (fresh (Flush fr)) ((routes y) <| outbox := rest |>)) as K.
    { destruct B3 as [K1 K2 K3 K4]. rewrite Eo in *. by split. }
    destruct fr as [f|]; split; cbn; try done; intros x; specialize (B4 x); rewrite Eo, (cnt_cons x c rest) in B4;
      unfold in_lanes in *; cbn in *; rewrite ?cnt_nil in *; lia.
Qed.

Lemma dispatch_inv y now y' : inv y → dispatch y now = Some y' → inv y'.
Proof.
  intros I E. unfold dispatch in E. pose proof (iv_visits _ I) as Hv.
  destruct (pc y) as [|c k i|c k i|fr|c r|[|i todo] after|i st todo after|c r|c i st todo r] eqn:Ep; try done; cbn in Hv.
  - apply fmap_Some in E as (l & Hl & ->). quiet y I Ep B. destruct (iv_asking _ I c k i) as (Hk & Hn & Ha); [by rewrite Ep|].
    destruct (occupied l); [|by apply check_from_inv]. destruct B as [B1 B2 B3 B4]. split; cbn; try done. by intros ? ? ? [= <- <- <-].
  - apply fmap_Some in E as (l & Hl & ->). quiet y I Ep B. destruct (iv_asking _ I c k i) as (Hk & Hn & Ha); [by rewrite Ep|].
    destruct (cancel_reply_pending l); [|by apply check_from_inv]. destruct B as [B1 B2 B3 B4]. split; cbn; try done. by eapply keys_routes.
  - pose proof (flush_inv y fr I Ep) as H. destruct (outbox (routes y)); by injection E as <-.
  - injection E as <-. quiet y I Ep B. unfold after_refresh. destruct after as [[c r]|]; apply base_inv; done || apply B.
  - apply fmap_Some in E as (l & Hl & ->). quiet y I Ep B. destruct B as [B1 B2 B3 B4]. pose proof Hv as [Hi Ht]%Forall_cons.
    destruct (occupied l); split; cbn; try done. intros j l2 Hj. specialize (B1 j l2 Hj). cbn in *. case_decide; [by apply lane_ok_view|done].
  - apply fmap_Some in E as (l & Hl & ->). destruct (slot_access _ _ _) as [l' next] eqn:Es. pose proof (refresh_slot_inv _ _ _ _ _ _ _ _ I Ep Hl Es) as H.
    by destruct next as [st'|[]].
  - injection E as <-. quiet y I Ep B. apply try_next_inv; [exact B|apply plan_range].
  - apply fmap_Some in E as (l & Hl & ->). destruct (slot_access _ _ _) as [l' next] eqn:Es. pose proof (try_slot_inv _ _ _ _ _ _ _ _ _ I Ep Hl Es) as H.
    by destruct next as [st'|[]].
Qed.

Lemma submit_inv y c : inv y → pc y = Idle → inv (submit y c).
Proof.
  intros I Ep. quiet y I Ep B. unfold submit. destruct (cancel_key c) as [k|] eqn:Ek.
  - case_decide as Hd; [|by apply check_from_inv]. destruct B as [B1 B2 B3 B4]. split; cbn; try done. by eapply keys_routes.
  - destruct B as [B1 B2 B3 B4]. split; cbn; try done; [|ledger B4]. destruct B3. split; try done.
    intros c' k' ->%list_elem_of_singleton. by rewrite Ek.
Qed.

Lemma event_inv y e y' : inv y → event y e = Some y' → inv y'.
Proof.
  intros I E. destruct e as [c|h todo| |now|i input|i]; cbn in E.
  - destruct (pc y) eqn:Ep; try done. case_decide; [done|]. injection E as <-. by apply submit_inv.
  - case_decide as Ht; [|done]. unfold refresh_health in E.
    destruct (pc y) eqn:Ep; try done; injection E as <-; quiet y I Ep B; destruct B as [B1 B2 B3 B4]; (split; cbn; try done).
    all: try by eapply keys_routes. all: by destruct (health (routes y)); cbn.
  - destruct (pc y) eqn:Ep; try done. injection E as <-. quiet y I Ep B. apply base_inv; try done. apply B.
  - by eapply dispatch_inv.
  - eapply lane_event_inv; [|exact I|exact E]. intros h k l l' es Hok Hf. by apply (owner_access_ok h k l input).
  - eapply lane_event_inv; [|exact I|exact E]. intros h k l l' es Hok Hf. by apply (control_access_ok h k l).
Qed.

Lemma cancel_reachable_inv y : reachable y → inv y.
Proof. induction 1; [apply cancel_new_inv|by eapply event_inv]. Qed.

(** ** The identity of a cancel *)

Lemma bytes_inj s t : bytes s = bytes t → s = t.
Proof.
  unfold bytes. intros E.
  assert (String.list_ascii_of_string s = String.list_ascii_of_string t) as El.
  { eapply (list_fmap_eq_inj (λ a, Z.of_nat (nat_of_ascii a))); [|exact E]. intros a b Hab. apply Nat2Z.inj in Hab.
    by rewrite <- (ascii_nat_embedding a), <- (ascii_nat_embedding b), Hab. }
  by rewrite <- (String.string_of_list_ascii_of_string s), <- (String.string_of_list_ascii_of_string t), El.
Qed.

Lemma length_bytes s : length (bytes s) = String.length s.
Proof. unfold bytes. rewrite length_fmap. induction s; cbn; by f_equal. Qed.

Lemma padded_inj n l k : length l = length k → padded n l = padded n k → l = k.
Proof. unfold padded. intros Hl E. by apply app_inj_1 in E as [? _]. Qed.

(** Two cancels with one key are for the same order of the same instance and reply owner. *)
Lemma cancel_key_exact c c' k :
  cancel_key c = Some k → cancel_key c' = Some k → ∃ t t' i o w, c = Cancel t i o w ∧ c' = Cancel t' i o w.
Proof.
  unfold cancel_key. destruct c as [t i o w| | |], c' as [t' i' o' w'| | |]; try done.
  destruct (Nat.ltb_spec 64 (String.length i)), (Nat.ltb_spec 128 (String.length o)); try done.
  destruct (Nat.ltb_spec 64 (String.length i')), (Nat.ltb_spec 128 (String.length o')); try done. cbn.
  intros [= <-] [= -> Hi Ho Bi Bo].
  change (2 ^ 8) with 256 in *. rewrite !Z.mod_small in Hi by lia. rewrite !Z.mod_small in Ho by lia.
  apply padded_inj, bytes_inj in Bi; [|rewrite !length_bytes; lia]. apply padded_inj, bytes_inj in Bo; [|rewrite !length_bytes; lia].
  subst. eauto 10.
Qed.

(** ** Selection *)

Lemma ring_perm n start : (0 < n)%nat → ring n start ≡ₚ seq 0 n.
Proof.
  intros Hn. symmetry. apply submseteq_length_Permutation; [|unfold ring; by rewrite length_fmap].
  apply NoDup_submseteq; [apply NoDup_seq|]. intros i Hi. apply elem_of_seq in Hi. unfold ring. apply list_elem_of_fmap.
  exists ((i + (n - start mod n)) mod n)%nat. split.
  - rewrite Nat.Div0.add_mod_idemp_r, <- Nat.Div0.add_mod_idemp_l.
    pose proof (Nat.mod_upper_bound start n ltac:(lia)).
    replace (start mod n + (i + (n - start mod n)))%nat with (i + 1 * n)%nat by lia. rewrite Nat.Div0.mod_add, Nat.mod_small; lia.
  - apply elem_of_seq. pose proof (Nat.mod_upper_bound (i + (n - start mod n)) n ltac:(lia)). lia.
Qed.

Lemma rank_range h slot now : cancel_lane_rank h slot now ∈ [0; 1; 2].
Proof. unfold cancel_lane_rank. repeat case_match; set_solver. Qed.

(** Passes over a list by rank visit each of its elements once. *)
Lemma passes_perm {A} (f : Z → A → bool) (rank : A → Z) l ranks :
  NoDup ranks → NoDup l → (∀ k i, i ∈ l → k ∈ ranks → f k i = (rank i =? k)) → (∀ i, i ∈ l → rank i ∈ ranks) →
  flat_map (λ k, List.filter (f k) l) ranks ≡ₚ l.
Proof.
  intros Hr Hl Hf Hin.
  assert (∀ ks i, ks ⊆ ranks → i ∈ flat_map (λ k, List.filter (f k) l) ks ↔ i ∈ l ∧ rank i ∈ ks) as Hm.
  { intros ks i Hs. rewrite list_elem_of_In, in_flat_map. split.
    - intros (k & Hk & [Hi Hfk]%filter_In). rewrite <- list_elem_of_In in Hk. rewrite <- list_elem_of_In in Hi. rewrite Hf in Hfk by (done || by apply Hs). apply Z.eqb_eq in Hfk. by subst k.
    - intros [Hi Hk]. exists (rank i). split; [by apply list_elem_of_In|]. apply filter_In. rewrite <- list_elem_of_In, Hf, Z.eqb_refl by (done || by apply Hs). done. }
  apply NoDup_Permutation; [|done|intros i; rewrite Hm by done; naive_solver].
  assert (∀ ks, ks ⊆ ranks → NoDup ks → NoDup (flat_map (λ k, List.filter (f k) l) ks)) as H; [|by apply H].
  induction ks as [|k ks IH]; intros Hs Hks; [constructor|]. apply NoDup_cons in Hks as [Hk Hks]. cbn. apply NoDup_app. split; [|split].
  - apply NoDup_ListNoDup, List.NoDup_filter. by apply NoDup_ListNoDup.
  - intros i Hi Hi'. apply Hm in Hi' as [_ Hi']; [|set_solver]. rewrite list_elem_of_In in Hi. apply filter_In in Hi as [Hi Hfk].
    rewrite <- list_elem_of_In in Hi. rewrite Hf in Hfk by set_solver. apply Z.eqb_eq in Hfk. by subst k.
  - apply IH; [set_solver|done].
Qed.

(** The passes visit every lane once, whatever the health of the connections: a cancel is
    parked only after each of them was found occupied. *)
Lemma plan_covers y c now : is_cancel c = true → plan y c now ≡ₚ seq 0 (length (lanes y)).
Proof.
  intros Hc. unfold plan. destruct (length (lanes y)) as [|n] eqn:En; [done|]. set (rg := ring (S n) _).
  assert (rg ≡ₚ seq 0 (S n)) as Hr by (apply ring_perm; lia). rewrite <- Hr.
  set (rank i := match lanes y !! i, health (routes y) with Some l, Some h => cancel_lane_rank h (slot l) now | _, _ => 0 end).
  apply (passes_perm _ rank).
  - destruct (health (routes y)); repeat constructor; set_solver.
  - rewrite Hr. apply NoDup_seq.
  - intros k i Hi Hk. rewrite Hr, elem_of_seq in Hi. destruct (lookup_lt_is_Some_2 (lanes y) i ltac:(lia)) as [l E].
    unfold admits, rank. rewrite E. destruct (health (routes y)); [|assert (k = 0) as -> by set_solver].
    all: destruct c; try done; by rewrite andb_true_r.
  - intros i _. unfold rank. destruct (lanes y !! i), (health (routes y)); try apply rank_range; set_solver.
Qed.

(** ** Serving a lane *)

(** The accesses of a lane's owner and control worker when its route exists, its reply has
    come and the lifecycle outbox has room. *)
Definition good : OwnerInput := mkInput true true SentOk false.
Definition serve (l : Lane) : Lane * list (Command * Outcome) :=
  match control_pc l, jobs l with Listen, [] => owner_access l good | _, _ => control_access l end.

Fixpoint serve_n (n : nat) (l : Lane) : Lane * list (Command * Outcome) :=
  match n with
  | O => (l, [])
  | S n => let '(l, es) := serve l in let '(l, es') := serve_n n l in (l, es ++ es')
  end.

Lemma serve_n_ok n h k l l' es :
  lane_ok h k l → serve_n n l = (l', es) → lane_ok h k l' ∧ held_by l ≡ₚ held_by l' ++ es.*1.
Proof.
  revert l l' es. induction n as [|n IH]; intros l l' es Hok E; cbn in E; [injection E as <- <-; split; [done|]; by rewrite app_nil_r|].
  destruct (serve l) as [l1 es1] eqn:E1. destruct (serve_n n l1) as [l2 es2] eqn:E2. injection E as <- <-.
  assert (lane_ok h k l1 ∧ held_by l ≡ₚ held_by l1 ++ es1.*1) as [H1 P1].
  { unfold serve in E1. repeat case_match; (apply (owner_access_ok h k) in E1 || apply (control_access_ok h k) in E1); naive_solver. }
  destruct (IH _ _ _ H1 E2) as [H2 P2]. split; [done|]. rewrite P1, P2, fmap_app. solve_Permutation || (rewrite <- !app_assoc; f_equiv; apply Permutation_app_comm).
Qed.

#[local] Arguments serve_n : simpl never.

Lemma serve_frees k l : lane_ok None k l → occupied (serve_n 8 l).1 = false.
Proof.
  lane_open l.
  destruct opc as [|[]| |], cpc as [|[]| | | |]; cbn in *; try done; try lia.
  all: destruct ctx, ret as [|[|]]; cbn in *; try lia.
  all: destruct jb as [|[] [|]]; cbn in *; try done; try lia.
  all: destruct del as [[]|]; cbn in *; try done; try lia; try (by specialize (H4 eq_refl)); try reflexivity.
  all: destruct pen as [[]|]; cbn in *; try done; try lia; try (by specialize (H4 eq_refl)); try reflexivity.
  all: destruct inb as [|[] [|]]; cbn in *; try done; try lia; try reflexivity.
  all: destruct occ; cbn in *; try lia; reflexivity.
Qed.

Fixpoint run (y : Sys) (es : list Event) : option Sys :=
  match es with [] => Some y | e :: es => match event y e with Some y => run y es | None => None end end.

Lemma cancel_run_reachable y es y' : reachable y → run y es = Some y' → reachable y'.
Proof.
  revert y. induction es as [|e es IH]; intros y Hr E; cbn in E; [by injection E as <-|].
  destruct (event y e) as [y1|] eqn:E1; [|done]. by eapply IH; [eapply reachable_event|].
Qed.

Definition on_lane (i : nat) (e : Event) : Prop := match e with Own j _ | Control j => j = i | _ => False end.

Lemma serve_run n y i l l' es :
  lanes y !! i = Some l → serve_n n l = (l', es) →
  ∃ evs y', Forall (on_lane i) evs ∧ length evs = n ∧ run y evs = Some y' ∧ lanes y' !! i = Some l' ∧ ended y' = ended y ++ es.
Proof.
  revert y l l' es. induction n as [|n IH]; intros y l l' es Hl E; unfold serve_n in E; fold serve_n in E.
  - injection E as <- <-. exists [], y. rewrite app_nil_r. by split_and!.
  - destruct (serve l) as [l1 es1] eqn:E1. destruct (serve_n n l1) as [l2 es2] eqn:E2. injection E as <- <-.
    set (y1 := y <| lanes := <[i := l1]> (lanes y) |> <| ended := ended y ++ es1 |>).
    assert (∃ e, on_lane i e ∧ event y e = Some y1) as (e & He & Ee).
    { unfold serve in E1.
      assert (owner_access l good = (l1, es1) ∨ control_access l = (l1, es1)) as [Ea|Ea] by (repeat case_match; eauto).
      - exists (Own i good). split; [done|]. unfold event, lane_event, with_lane. rewrite Hl. unfold fmap, option_fmap, option_map. by rewrite Ea.
      - exists (Control i). split; [done|]. unfold event, lane_event, with_lane. rewrite Hl. unfold fmap, option_fmap, option_map. by rewrite Ea. }
    destruct (IH y1 l1 l2 es2) as (evs & y' & H1 & H2 & H3 & H4 & H5); [|done|].
    { cbn. apply list_lookup_insert_eq. by apply lookup_lt_Some in Hl. }
    exists (e :: evs), y'. cbn [run]. rewrite Ee. split_and!; try done; [by constructor|cbn; by f_equal|]. by rewrite H5, (assoc_L (++)).
Qed.

(** ** What coalescing rests on *)

Lemma park_merged y c : merged (park y c) = merged y.
Proof. unfold park. by case_match. Qed.

Lemma try_next_merged y c todo r : merged (try_next y c todo r) = merged y.
Proof. unfold try_next, send_failed. repeat case_match; try done; by rewrite park_merged. Qed.

Lemma send_done_merged y c i r : merged (send_done y c i r) = merged y.
Proof. unfold send_done. by repeat case_match. Qed.

Lemma check_from_merged y c k i : merged (check_from y c k i) = merged y.
Proof. unfold check_from. by case_match. Qed.

(** The two places where a command is dropped for an earlier one. *)
Lemma merged_by_coalesce y e y' :
  event y e = Some y' → merged y' ≠ merged y →
  ∃ c, y' = coalesce y c
    ∧ ((pc y = Idle ∧ ∃ k, cancel_key c = Some k ∧ k ∈ outbox_keys (routes y))
       ∨ ∃ k i l, pc y = CheckReply c k i ∧ lanes y !! i = Some l ∧ cancel_reply_pending l = true).
Proof.
  intros E Hm. destruct e as [c|h todo| |now|i input|i]; cbn in E.
  - destruct (pc y) eqn:Ep; try done. case_decide; [done|]. injection E as <-. unfold submit in *.
    destruct (cancel_key c) as [k|] eqn:Ek; [|done]. case_decide as Hd; [|by rewrite check_from_merged in Hm]. exists c. split; [done|]. left. eauto.
  - unfold refresh_health in E. repeat case_match; simplify_eq; done.
  - repeat case_match; simplify_eq; done.
  - unfold dispatch, with_lane in E. destruct (pc y) as [|c k i|c k i|fr|c r|[|i todo] after|i st todo after|c r|c i st todo r] eqn:Ep; try done.
    all: try (apply fmap_Some in E as (l & Hl & ->)); try (injection E as <-).
    all: try (destruct (slot_access _ _ _) as [l' [st'|[]]]); rewrite ?try_next_merged, ?send_done_merged in Hm; try done.
    + destruct (occupied l); [done|]. by rewrite check_from_merged in Hm.
    + destruct (cancel_reply_pending l) eqn:Er; [|by rewrite check_from_merged in Hm]. exists c. split; [done|]. right. by exists k, i, l.
    + destruct (outbox (routes y)); by injection E as <-.
    + by destruct (occupied l).
  - unfold lane_event, with_lane in E. apply fmap_Some in E as (l & _ & ->). by destruct (owner_access l input).
  - unfold lane_event, with_lane in E. apply fmap_Some in E as (l & _ & ->). by destruct (control_access l).
Qed.

(** ** Theorems *)

(** C18: every cancel is accounted for.  In every interleaving of dispatcher, owners and
    control workers, the commands taken on are, each once: in the dispatcher's hands, in
    the outbox, in a lane, ended, or handed back as refused.  The outbox keeps to its
    bound, and its index holds exactly the keys of what is parked, each once.  When nothing
    is under way, all that was taken on has ended or was refused. *)
Theorem cancels_accounted y :
  reachable y →
  entered y ≡ₚ flushing (pc y) ++ fresh (pc y) ++ outbox (routes y) ++ in_lanes y ++ (ended y).*1 ++ refused y
  ∧ (length (outbox (routes y)) <= POLY_CANCEL_OUTBOX_CAPACITY)%nat
  ∧ NoDup (parked_keys (flushing (pc y) ++ outbox (routes y)))
  ∧ outbox_keys (routes y) = list_to_set (parked_keys (flushing (pc y) ++ outbox (routes y)))
  ∧ (pc y = Idle → outbox (routes y) = [] → Forall (λ l, occupied l = false) (lanes y) → entered y ≡ₚ (ended y).*1 ++ refused y).
Proof.
  intros I%cancel_reachable_inv. pose proof (iv_keys _ I) as [K1 K2 _ K4]. pose proof (iv_counted _ I) as Hc.
  assert (entered y ≡ₚ flushing (pc y) ++ fresh (pc y) ++ outbox (routes y) ++ in_lanes y ++ (ended y).*1 ++ refused y) as Hp.
  { apply (Permutation_count_occ Command_eq_dec). intros x. specialize (Hc x). change (count_occ Command_eq_dec ?l x) with (cnt x l) in *.
    rewrite !cnt_app. lia. }
  rewrite length_app in K4. split_and!; try done; [lia|]. intros Ep Eo Hf. rewrite Hp, Ep, Eo. cbn.
  assert (in_lanes y = []) as ->; [|done]. unfold in_lanes.
  assert (∀ l, l ∈ lanes y → held_by l = []) as Hnil.
  { intros l Hl. rewrite Forall_forall in Hf. specialize (Hf l Hl). apply list_elem_of_lookup in Hl as [i Hl].
    pose proof (lo_tokens _ _ _ (iv_lanes _ I i l Hl)) as Ht. rewrite Hf in Ht. cbn in Ht. apply nil_length_inv. lia. }
  clear -Hnil. induction (lanes y) as [|l ls IH]; [done|]. cbn. rewrite Hnil by apply list_elem_of_here. apply IH. intros l' Hl'. apply Hnil. by right.
Qed.

(** C27: a cancel is answered for only by one that has no answer yet.  Whenever the
    dispatcher drops a repeated cancel, a cancel of the same order, for the same instance
    and the same reply owner, is parked or is in a lane with its reply still to come. *)
Theorem coalesced_unanswered y e y' :
  reachable y → event y e = Some y' → merged y' ≠ merged y →
  ∃ t t' i o w, merged y' = merged y ++ [Cancel t i o w]
    ∧ Cancel t' i o w ∈ outbox (routes y') ++ flat_map unanswered (lanes y').
Proof.
  intros I%cancel_reachable_inv E Hm. destruct (merged_by_coalesce y e y' E Hm) as (c & -> & [(Ep & k & Ek & Hk)|(k & i & l & Ep & Hl & Hrep)]); cbn.
  - pose proof (ko_exact _ _ _ (iv_keys _ I)) as Hx. rewrite Ep in Hx. cbn in Hx. rewrite Hx, elem_of_list_to_set in Hk.
    apply list_elem_of_omap in Hk as (c' & Hc' & Ek'). destruct (cancel_key_exact c c' k Ek Ek') as (t & t' & i & o & w & -> & ->).
    exists t, t', i, o, w. split; [done|]. apply elem_of_app. by left.
  - destruct (iv_asking _ I c k i) as (Ek & _ & Ha); [by rewrite Ep|]. pose proof (iv_lanes _ I i l Hl) as Hok. rewrite Ep in Hok. cbn in Hok.
    pose proof (lo_reply _ _ _ Hok Hrep) as He. apply existsb_exists in He as (c' & Hin & Hcan). cbn in Hin.
    pose proof (proj1 (forallb_forall _ _) (lo_key _ _ _ Hok) c' Hin) as Hkey. unfold keyed_by in Hkey. rewrite Hcan in Hkey. cbn in Hkey.
    apply bool_decide_eq_true in Hkey. rewrite Ha in Hkey. destruct (cancel_key_exact c c' k Ek (eq_sym Hkey)) as (t & t' & i' & o & w & -> & ->).
    exists t, t', i', o, w. split; [done|]. apply elem_of_app. right. apply list_elem_of_In, in_flat_map. exists l. split; [|done].
    by eapply list_elem_of_In, list_elem_of_lookup_2.
Qed.

(** a connection serves one command at a time.  In every interleaving a lane holds at
    most one command and none unless it is occupied; the send that follows a claim always
    finds room; the reply of a cancel is marked as come before its update is published; and
    neither the transfer of a connection to its control worker nor its return can fail. *)
Theorem lane_exclusive y i l :
  reachable y → lanes y !! i = Some l →
  (length (held_by l) <= b2n (occupied l))%nat
  ∧ (∀ c todo r, pc y = TrySlot c i Send todo r → (slot_access l c Send).2 = inr true)
  ∧ (is_some (delivery l) = true → cancel_reply_pending l = false)
  ∧ panicked l = false ∧ control_pc l ≠ Exited.
Proof.
  intros I%cancel_reachable_inv Hl. pose proof (iv_lanes _ I i l Hl) as Hok. pose proof Hok as [H1 _ H3 _ _ _ _ H8 _ H10].
  split_and!; try done; [lia|..].
  - intros c todo r Ep. rewrite Ep in Hok. cbn in Hok. rewrite decide_True in Hok by done.
    destruct (slot_access l c Send) as [l' next] eqn:Es.
    destruct (slot_access_ok c Send (key_at (routes y) i) (cancel_key c) l l' next Hok) as [_ Hn]; [|done|by apply Hn].
    unfold keyed_by. rewrite bool_decide_true by done. apply orb_true_r.
  - intros Hd. destruct (cancel_reply_pending l); [|done]. specialize (H8 eq_refl). exfalso.
    destruct (delivery l) as [d|] eqn:Ed; [|done]. pose proof (b2n_le (occupied l)). unfold held_by, settled in H1. rewrite Ed, !length_app in H1. cbn in H1.
    assert (unanswered l = []) as Eu by (apply nil_length_inv; lia). rewrite Eu, app_nil_r in H8.
    destruct (claim_at (pc y) i) as [[c []]|]; cbn in *; done || lia.
Qed.

(** a lane always comes free.  From every reachable state, eight accesses of a lane's
    owner and control worker, with the reply come and room for its update, leave the lane
    unoccupied, and end the command it held, if it held one. *)
Theorem lane_frees y i l :
  reachable y → lanes y !! i = Some l → claim_tokens (claim_at (pc y) i) = 0%nat →
  ∃ evs y' l' es, Forall (on_lane i) evs ∧ length evs = 8%nat ∧ run y evs = Some y' ∧ lanes y' !! i = Some l' ∧ occupied l' = false
    ∧ ended y' = ended y ++ es ∧ es.*1 ≡ₚ held_by l.
Proof.
  intros I%cancel_reachable_inv Hl Hc. pose proof (iv_lanes _ I i l Hl) as Hok.
  assert (lane_ok None (key_at (routes y) i) l) as Hok'.
  { destruct (claim_at (pc y) i) as [[c []]|]; try done. by apply lane_ok_view in Hok. }
  destruct (serve_n 8 l) as [l' es] eqn:Es. pose proof (serve_frees _ _ Hok') as Hf. rewrite Es in Hf. cbn in Hf.
  destruct (serve_n_ok 8 _ _ _ _ _ Hok' Es) as [Hl' Hp]. destruct (serve_run 8 y i l l' es Hl Es) as (evs & y' & H1 & H2 & H3 & H4 & H5).
  exists evs, y', l', es. split_and!; try done. rewrite Hp.
  pose proof (lo_tokens _ _ _ Hl') as Ht. rewrite Hf in Ht. cbn in Ht. by rewrite (nil_length_inv (held_by l')) by lia.
Qed.

(** ** Runs *)

Definition begun : Sys := new_sys [1; 2]%nat None.
Definition end_of (es : list Event) : Sys := default begun (run begun es).

Lemma cancel_end_reachable es : is_Some (run begun es) → reachable (end_of es).
Proof. intros [y E]. unfold end_of. rewrite E. eapply cancel_run_reachable; [|done]. constructor. Qed.

Lemma run_snoc y d es e : is_Some (run y (es ++ [e])) → event (default d (run y es)) e = Some (default d (run y (es ++ [e]))).
Proof.
  revert y. induction es as [|x es IH]; intros y [z E]; cbn in *; [by destruct (event y e)|].
  destruct (event y x) as [y1|]; [|done]. apply IH. by exists z.
Qed.

Definition order (tag : Z) (id : string) : Command := Cancel tag "desk" id 7.
Definition steps (n : nat) : list Event := replicate n (Dispatch 0).
Definition select (n : nat) : list Event := [Dispatch 0; SkipRefresh] ++ steps n.

(** Two cancels take the two lanes, a third is parked, and a repetition of the first and
    one of the third are dropped. *)
Definition dropped_for_parked : list Event :=
  [Submit (order 1 "a")] ++ select 4 ++ [Submit (order 2 "b")] ++ select 4 ++ [Submit (order 3 "c")] ++ select 3.
Definition asked : list Event := dropped_for_parked ++ [Submit (order 5 "c"); Submit (order 4 "a"); Dispatch 0].
Definition crowded : list Event := asked ++ [Dispatch 0].

(** The first two are answered, and a control command finds the outbox flushed before it. *)
Definition answered : list Event :=
  crowded ++ replicate 6 (Own 0 good) ++ replicate 6 (Own 1 good)
  ++ [Submit (Fallback 6)] ++ select 4 ++ select 4.
Definition whole : list Event := answered ++ replicate 6 (Own 0 good) ++ replicate 2 (Own 1 good) ++ replicate 5 (Control 1).

Lemma run_counts :
  (λ y, (length (outbox (routes y)), merged y)) <$> run begun crowded = Some (1%nat, [order 5 "c"; order 4 "a"])
  ∧ (λ y, (length (entered y), (ended y).*2, refused y, occupied <$> lanes y)) <$> run begun whole
    = Some (4%nat, [Published; Published; Published; Served], [], [false; false]).
Proof. vm_compute. done. Qed.

Lemma cancels_accounted_witness : entered (end_of whole) ≡ₚ (ended (end_of whole)).*1 ++ refused (end_of whole).
Proof.
  apply (cancels_accounted (end_of whole)); [apply cancel_end_reachable; vm_compute; by eexists|by vm_compute..|].
  vm_compute. by repeat constructor.
Defined.

Lemma coalesced_unanswered_witness :
  ∃ t t' i o w, merged (end_of crowded) = merged (end_of asked) ++ [Cancel t i o w]
    ∧ Cancel t' i o w ∈ outbox (routes (end_of crowded)) ++ flat_map unanswered (lanes (end_of crowded)).
Proof.
  apply (coalesced_unanswered (end_of asked) (Dispatch 0)); [apply cancel_end_reachable; vm_compute; by eexists|apply run_snoc; vm_compute; by eexists|].
  vm_compute. discriminate.
Defined.

Definition lane_of (es : list Event) (i : nat) : Lane := default (new_lane 0) (lanes (end_of es) !! i).

Lemma lane_some es i : is_Some (lanes (end_of es) !! i) → lanes (end_of es) !! i = Some (lane_of es i).
Proof. intros [l E]. unfold lane_of. by rewrite E. Qed.

Lemma lane_exclusive_witness :
  (length (held_by (lane_of crowded 0)) <= b2n (occupied (lane_of crowded 0)))%nat ∧ held_by (lane_of crowded 0) = [order 1 "a"].
Proof.
  split; [|by vm_compute].
  refine (proj1 (lane_exclusive (end_of crowded) 0 (lane_of crowded 0) _ _)); [apply cancel_end_reachable; vm_compute; by eexists|apply lane_some; vm_compute; by eexists].
Defined.

Lemma lane_frees_witness :
  ∃ evs y' l' es, Forall (on_lane 1) evs ∧ length evs = 8%nat ∧ run (end_of answered) evs = Some y' ∧ lanes y' !! 1%nat = Some l' ∧ occupied l' = false
    ∧ ended y' = ended (end_of answered) ++ es ∧ es.*1 ≡ₚ held_by (lane_of answered 1).
Proof.
  apply (lane_frees (end_of answered) 1); [apply cancel_end_reachable; vm_compute; by eexists|apply lane_some; vm_compute; by eexists|by vm_compute].
Defined.
