(* ===== verification/Reactor.v ===== *)
(** The round-robin service of connection owners: [Cursor] of
    [src/crates/hexagent-runtime/src/bounded_reactor.rs] and the time [idle_wait] of
    [cancel_reactor.rs] lets a reactor sleep.  The actors are any state with a [poll]. *)

From S2P Require Import Prelude.

#[local] Open Scope nat_scope.

(** ** The cursor *)

Record Cursor := mkCursor { next : nat; lanes : nat; budget : nat }.
Record Turn := mkTurn { visited : nat; progressed : nat }.

(** The two assertions of [Cursor::new]; [None] is a panic. *)
Definition new (lanes budget : nat) : option Cursor :=
  if (1 <=? lanes) && (lanes <=? 64) && (1 <=? budget) && (budget <=? lanes) then Some (mkCursor 0 lanes budget) else None.

(** ** The sleep of an idle reactor *)

(** What [idle_wait] reads of an owner; the context is away during control work. *)
Record OwnerView := mkView { closed : bool; is_pending : bool; is_delivering : bool; next_maintenance : option Z }.

Definition HEARTBEAT : Z := 100000000.
Definition OUTBOX_RETRY : Z := 50000.

Definition shorten (now wait : Z) (o : OwnerView) : Z :=
  if closed o || is_pending o || is_delivering o then wait
  else match next_maintenance o with Some due => Z.min wait (due -s now) | None => wait end.

Definition idle_wait (owners : list OwnerView) (now : Z) : Z :=
  foldl (shorten now) (if existsb is_delivering owners then OUTBOX_RETRY else HEARTBEAT) owners.

(** ** Turns *)

Section Poll.
  Context {S : Type} (poll_actor : nat → S → S * bool).

(** [for _ in 0..self.lanes] from the [n]-th to last round on. *)
Fixpoint rounds (n : nat) (self : Cursor) (turn : Turn) (s : S) : Cursor * Turn * S :=
  match n with
  | O => (self, turn, s)
  | Datatypes.S n =>
      let slot := next self in
      let self := self <| next := (next self + 1) mod lanes self |> in
      let turn := turn <| visited := visited turn + 1 |> in
      let '(s, progress) := poll_actor slot s in
      if progress then
        let turn := turn <| progressed := progressed turn + 1 |> in
        if progressed turn =? budget self then (self, turn, s) else rounds n self turn s
      else rounds n self turn s
  end.

Definition poll (self : Cursor) (s : S) : Cursor * Turn * S := rounds (lanes self) self (mkTurn 0 0) s.

(** A number of turns one after the other. *)
Fixpoint turns (n : nat) (self : Cursor) (s : S) : Cursor * S :=
  match n with
  | O => (self, s)
  | Datatypes.S n => let '(self, _, s) := poll self s in turns n self s
  end.
End Poll.

(** An actor state that notes who is polled. *)
Definition noting {S} (poll_actor : nat → S → S * bool) (slot : nat) (s : S * list nat) : S * list nat * bool :=
  let '(s', progress) := poll_actor slot s.1 in (s', s.2 ++ [slot], progress).

(** The actors from [start] on, round. *)
Definition consecutive (start n k : nat) : list nat := (λ j, (start + j) mod n) <$> seq 0 k.

Definition cursor_wf (c : Cursor) : Prop := next c < lanes c ∧ 1 <= budget c <= lanes c.

(** ** Lemmas *)

Lemma cursor_new_wf l b c : new l b = Some c → cursor_wf c.
Proof.
  unfold new, cursor_wf. destruct (_ && _) eqn:E; [|done]. intros [= <-]. cbn. rewrite !andb_true_iff, !Nat.leb_le in E. lia.
Qed.

Lemma consecutive_S start n k : 0 < n → consecutive start n (1 + k) = start mod n :: consecutive ((start + 1) mod n) n k.
Proof.
  intros Hn. unfold consecutive. cbn. f_equal; [by rewrite Nat.add_0_r|]. rewrite <- (fmap_S_seq 0 k), <- list_fmap_compose.
  apply list_fmap_ext. intros _ j _. cbn. rewrite Nat.Div0.add_mod_idemp_l. f_equal. lia.
Qed.

Section Lemmas.
  Context {S : Type} (poll_actor : nat → S → S * bool).

(** What a turn does from the middle of its loop on. *)
Lemma rounds_spec n c t s c' t' s' log log' :
  cursor_wf c → progressed t < budget c →
  rounds (noting poll_actor) n c t (s, log) = (c', t', (s', log')) →
  ∃ k, log' = log ++ consecutive (next c) (lanes c) k ∧ k <= n
    ∧ c' = c <| next := (next c + k) mod lanes c |>
    ∧ visited t' = visited t + k ∧ progressed t <= progressed t' <= progressed t + k ∧ progressed t' <= budget c
    ∧ (k < n → progressed t' = budget c).
Proof.
  revert c t s log. induction n as [|n IH]; intros c t s log Hwf Hp E; cbn in E.
  - injection E as <- <- <- <-. exists 0. cbn. rewrite app_nil_r, Nat.add_0_r, Nat.mod_small by apply Hwf. destruct c. cbn in *. split_and!; try done; lia.
  - unfold noting at 1 in E. cbn in E. destruct (poll_actor (next c) s) as [s1 b]. destruct Hwf as [Hn Hb].
    set (c1 := c <| next := (next c + 1) mod lanes c |>) in *.
    assert (cursor_wf c1) as Hwf1 by (split; cbn; [apply Nat.mod_upper_bound; lia|lia]).
    assert (next c mod lanes c = next c) as Hs by (by apply Nat.mod_small).
    destruct b; [destruct (Nat.eqb_spec (progressed t + 1) (budget c)) as [Hq|Hq]|]; cbn in E.
    1: { injection E as <- <- <- <-. exists 1. cbn. rewrite Nat.add_0_r, Hs. split_and!; try done; lia. }
    all: apply IH in E as (k & -> & Hk & -> & Hv & Hpr & Hbu & Hlt); [|done|cbn; lia]; cbn in *.
    all: exists (1 + k); rewrite consecutive_S, Hs by lia; rewrite <- app_assoc; cbn.
    all: (split_and!; try done; try lia). all: rewrite Nat.Div0.add_mod_idemp_l; by replace (next c + 1 + k) with (next c + Datatypes.S k) by lia.
Qed.

Lemma poll_spec c s c' t s' log log' :
  cursor_wf c → poll (noting poll_actor) c (s, log) = (c', t, (s', log')) →
  log' = log ++ consecutive (next c) (lanes c) (visited t) ∧ c' = c <| next := (next c + visited t) mod lanes c |>
  ∧ budget c <= visited t <= lanes c ∧ progressed t <= budget c ∧ (progressed t < budget c → visited t = lanes c).
Proof.
  intros Hwf E. pose proof Hwf as [Hn Hb]. apply rounds_spec in E as (k & -> & Hk & -> & Hv & Hp & Hbu & Hlt); [|done|cbn; lia].
  cbn in Hv. subst k. cbn in *. split_and!; done || lia.
Qed.

Lemma next_wf c k : cursor_wf c → cursor_wf (c <| next := (next c + k) mod lanes c |>).
Proof. intros [Hn Hb]. split; cbn; [apply Nat.mod_upper_bound; lia|lia]. Qed.

Lemma consecutive_app start n j k : 0 < n → consecutive start n (j + k) = consecutive start n j ++ consecutive ((start + j) mod n) n k.
Proof.
  intros Hn. unfold consecutive. rewrite seq_app, fmap_app. f_equal. cbn.
  apply list_eq. intros i. rewrite !list_lookup_fmap. destruct (decide (i < k)) as [Hi|Hi].
  - rewrite !lookup_seq_lt by done. cbn. f_equal. rewrite Nat.Div0.add_mod_idemp_l. f_equal. lia.
  - rewrite !lookup_seq_ge by lia. done.
Qed.

Lemma turns_spec n c s c' s' log log' :
  cursor_wf c → turns (noting poll_actor) n c (s, log) = (c', (s', log')) →
  ∃ k, n * budget c <= k ∧ log' = log ++ consecutive (next c) (lanes c) k.
Proof.
  revert c s log. induction n as [|n IH]; intros c s log Hwf E; cbn in E.
  - injection E as <- <- <-. exists 0. cbn. by rewrite app_nil_r.
  - destruct (poll _ c (s, log)) as [[c1 t] [s1 log1]] eqn:Ep. apply poll_spec in Ep as (-> & -> & [Hb _] & _); [|done].
    apply IH in E as (k & Hk & ->); [|by apply next_wf]. exists (visited t + k). cbn in *. split; [lia|].
    rewrite consecutive_app, <- app_assoc by (destruct Hwf; lia). done.
Qed.

Lemma elem_of_consecutive start n k i : i < n → n <= k → i ∈ consecutive start n k.
Proof.
  intros Hi Hk. unfold consecutive. apply list_elem_of_fmap. exists ((i + (n - start mod n)) mod n). split.
  - rewrite Nat.Div0.add_mod_idemp_r, <- Nat.Div0.add_mod_idemp_l. pose proof (Nat.mod_upper_bound start n ltac:(lia)).
    replace (start mod n + (i + (n - start mod n))) with (i + 1 * n) by lia. rewrite Nat.Div0.mod_add, Nat.mod_small; lia.
  - apply elem_of_seq. pose proof (Nat.mod_upper_bound (i + (n - start mod n)) n ltac:(lia)). lia.
Qed.
End Lemmas.

(** An idle reactor sleeps no longer than a heartbeat, than the retry of a full outbox while
    an update is retained, or than until the maintenance of any owner at rest is due. *)
Lemma idle_wait_prompt owners now :
  (idle_wait owners now <= HEARTBEAT)%Z
  ∧ (∀ o, o ∈ owners → is_delivering o = true → (idle_wait owners now <= OUTBOX_RETRY)%Z)
  ∧ (∀ o due, o ∈ owners → closed o || is_pending o || is_delivering o = false → next_maintenance o = Some due →
       (idle_wait owners now <= due -s now)%Z).
Proof.
  unfold idle_wait. set (w := if existsb is_delivering owners then OUTBOX_RETRY else HEARTBEAT).
  assert (∀ l v, (foldl (shorten now) v l <= v)%Z) as Hle.
  { induction l as [|o l IH]; intros v; cbn; [lia|]. specialize (IH (shorten now v o)). unfold shorten in *. repeat case_match; lia. }
  split_and!.
  - specialize (Hle owners w). unfold w, HEARTBEAT, OUTBOX_RETRY in *. case_match; lia.
  - intros o Ho Hd. specialize (Hle owners w). assert (existsb is_delivering owners = true) as Hx.
    { apply existsb_exists. exists o. by rewrite <- list_elem_of_In. }
    unfold w in *. by rewrite Hx in *.
  - intros o due Ho Hr Hm. apply list_elem_of_split in Ho as (l1 & l2 & E). rewrite E at 1. rewrite foldl_app. cbn.
    specialize (Hle l2 (shorten now (foldl (shorten now) w l1) o)). etransitivity; [exact Hle|]. unfold shorten at 1. rewrite Hr, Hm. lia.
Qed.

(** the reactor starves nobody and never sleeps on work.  A turn polls the actors in
    order from where the last one stopped, at least as many as its budget and each at most
    once, and makes at most the budget of transitions; one that used less than its budget,
    an idle one in particular, has polled them all.  And in any turns whose budgets add up
    to the number of actors, every actor is polled. *)
Theorem cursor_fair {S : Type} (poll_actor : nat → S → S * bool) c s :
  cursor_wf c →
  (∀ c' t s' log, poll (noting poll_actor) c (s, []) = (c', t, (s', log)) →
     log = consecutive (next c) (lanes c) (visited t) ∧ budget c <= visited t <= lanes c ∧ progressed t <= budget c
     ∧ (progressed t < budget c → ∀ i, i < lanes c → i ∈ log) ∧ cursor_wf c')
  ∧ (∀ n c' s' log, turns (noting poll_actor) n c (s, []) = (c', (s', log)) → lanes c <= n * budget c → ∀ i, i < lanes c → i ∈ log).
Proof.
  intros Hwf. split.
  - intros c' t s' log E. apply poll_spec in E as (-> & -> & Hv & Hp & Hi); [|done]. cbn. split_and!; try done; try lia; [|by apply next_wf].
    intros Hlt i Hi'. rewrite Hi by done. by apply elem_of_consecutive.
  - intros n c' s' log E Hn i Hi. apply turns_spec in E as (k & Hk & ->); [|done]. cbn. apply elem_of_consecutive; lia.
Qed.

Lemma cursor_fair_witness : 8 ∈ (turns (noting (λ i (s : nat), (s + 1, true))) 5 (mkCursor 7 9 2) (0, [])).2.2.
Proof.
  destruct (cursor_fair (λ i (s : nat), (s + 1, true)) (mkCursor 7 9 2) 0) as [_ H]; [unfold cursor_wf; cbn; lia|].
  eapply (H 5); [reflexivity|cbn; lia|cbn; lia].
Defined.
