(* ===== verification/OrderManager.v ===== *)
(** * The local order ledger (hexagent-account/src/account/order_manager.rs)

    [OrderManager] tracks the orders of one outcome token and turns reconcile
    decisions into signals.  Terminal orders stay in [orders] for late-update
    races, so the manager keeps two compact indices of the live ones, and parks
    cancel requests for orders whose placement is not yet acknowledged.

    The process-wide order-id counter is an explicit argument and result.  The
    iteration order of the [HashMap] of fills is unspecified in the source; it is
    the section parameter [hash_values].  Log lines are not modelled.

    Proved: the indices always agree with the ledger, also after an output error
    in the middle of a cancellation; a DELETE is sent only for an acknowledged
    order and only once; what cancellation, updates, dropped signals and
    reconcile decisions do to every order. *)

From S2P Require Import Prelude F64 Types BTree.

Inductive LocalOrderStatus :=
  | LSubmitted | LActive | LCancelling | LRejected | LCancelled | LMatched.

#[export] Instance LocalOrderStatus_eq_dec : EqDecision LocalOrderStatus.
Proof. solve_decision. Defined.

Inductive DroppedSignalOutcome := PlaceRemoved | CancelReverted | NotTracked.

Record LocalOrder := mkLocalOrder {
  lo_client_order_id : string;
  lo_symbol : string;
  lo_side : Side;
  lo_price : f64;
  lo_quantity : f64;
  lo_status : LocalOrderStatus;
  lo_created_ns : Z;
  lo_filled_by_trade : gmap string f64 }.

Record OrderManager := mkOrderManager {
  om_exchange : Exchange;
  om_symbol : string;
  om_tick_size : f64;
  om_instance_id : string;
  om_coid_prefix : bool;
  om_fee_rate_bps : Z;
  om_min_order_size : f64;
  om_min_marketable_notional : f64;
  om_requote_min_ticks : f64;
  om_orders : gmap string LocalOrder;
  om_cancelable : gset string;
  om_live : gset string;
  om_intents : gset string;
  om_cancel_before_ack_count : Z }.

Record ReconcileCfg := mkReconcileCfg {
  rc_tick_size : f64;
  rc_requote_min_ticks : f64;
  rc_min_order_size : f64;
  rc_min_marketable_notional : f64 }.

Inductive ReconcileAction :=
  | Place (side : Side) (price quantity : f64) (order_type : OrderType) (post_only : bool)
  | CancelAction (client_order_id : string).

(** ** Construction and configuration *)

Definition new (exchange : Exchange) (symbol : string) (tick_size : f64) (instance_id : string) :
    OrderManager :=
  {| om_exchange := exchange;
     om_symbol := symbol;
     om_tick_size := tick_size;
     om_instance_id := instance_id;
     om_coid_prefix := false;
     om_fee_rate_bps := 0;
     om_min_order_size := f64_zero;
     om_min_marketable_notional := f64_zero;
     om_requote_min_ticks := f64_zero;
     om_orders := ∅;
     om_cancelable := ∅;
     om_live := ∅;
     om_intents := ∅;
     om_cancel_before_ack_count := 0 |}.

Definition set_fee_rate_bps (self : OrderManager) (v : Z) : OrderManager :=
  self <| om_fee_rate_bps := v |>.
Definition set_min_order_size (self : OrderManager) (v : f64) : OrderManager :=
  self <| om_min_order_size := f64_max v f64_zero |>.
Definition set_min_marketable_notional (self : OrderManager) (v : f64) : OrderManager :=
  self <| om_min_marketable_notional := f64_max v f64_zero |>.
Definition set_requote_min_ticks (self : OrderManager) (v : f64) : OrderManager :=
  self <| om_requote_min_ticks := f64_max v f64_zero |>.
Definition set_tick_size (self : OrderManager) (v : f64) : OrderManager :=
  self <| om_tick_size := v |>.
Definition set_coid_prefix (self : OrderManager) (v : bool) : OrderManager :=
  self <| om_coid_prefix := v |>.

Definition reconcile_cfg (self : OrderManager) : ReconcileCfg :=
  mkReconcileCfg (om_tick_size self) (om_requote_min_ticks self) (om_min_order_size self)
    (om_min_marketable_notional self).

(** ** Indices *)

Definition cancelable_status (s : LocalOrderStatus) : bool :=
  match s with LSubmitted | LActive => true | _ => false end.

Definition live_status (s : LocalOrderStatus) : bool :=
  match s with LSubmitted | LActive | LCancelling => true | _ => false end.

Definition reindex_order (self : OrderManager) (coid : string) : OrderManager :=
  let cancelable := om_cancelable self ∖ {[coid]} in
  let live := om_live self ∖ {[coid]} in
  match om_orders self !! coid with
  | None => self <| om_cancelable := cancelable |> <| om_live := live |>
  | Some order =>
      self <| om_cancelable :=
                if cancelable_status (lo_status order) then {[coid]} ∪ cancelable else cancelable |>
           <| om_live :=
                if live_status (lo_status order) then {[coid]} ∪ live else live |>
  end.

Definition set_order (self : OrderManager) (coid : string) (order : LocalOrder) : OrderManager :=
  self <| om_orders := <[coid := order]> (om_orders self) |>.

Definition clear_intent (self : OrderManager) (coid : string) : OrderManager :=
  self <| om_intents := om_intents self ∖ {[coid]} |>.

Definition inject_open_order (self : OrderManager) (coid : string) (side : Side)
    (price quantity : f64) (now_ns : Z) : OrderManager :=
  reindex_order
    (set_order self coid (mkLocalOrder coid (om_symbol self) side price quantity LActive now_ns ∅))
    coid.

(** [GLOBAL_ORDER_ID.fetch_add(1)] returns the old value and wraps. *)
Definition next_id (self : OrderManager) (global : Z) : string * Z :=
  let n := pretty (Z.to_N global) in
  (if om_coid_prefix self && negb (String.eqb (om_instance_id self) "")
   then om_instance_id self +:+ "-" +:+ n else n,
   global +w 1).

Definition cancel_signal (self : OrderManager) (coid : string) (timestamp_ns : Z) : Signal :=
  CancelOrder default_cancel_trigger (om_exchange self) coid (om_instance_id self) timestamp_ns.

(** ** Cancellation of one order *)

Definition park_intent (self : OrderManager) (coid : string) : OrderManager :=
  if decide (coid ∈ om_intents self) then self
  else self <| om_intents := {[coid]} ∪ om_intents self |>
            <| om_cancel_before_ack_count := om_cancel_before_ack_count self +s 1 |>.

Definition request_cancel (self : OrderManager) (coid : string) (timestamp_ns : Z) :
    OrderManager * option Signal :=
  match om_orders self !! coid with
  | None => (self, None)
  | Some order =>
      match lo_status order with
      | LSubmitted => (park_intent self coid, None)
      | LActive =>
          let self := clear_intent self coid in
          let self := set_order self coid (order <| lo_status := LCancelling |>) in
          let self := reindex_order self coid in
          (self, Some (cancel_signal self coid timestamp_ns))
      | LCancelling | LRejected | LCancelled | LMatched => (self, None)
      end
  end.

(** ** Updates from the exchange *)

(** [update.filled_quantity > 0.0] with a non-empty trade id *)
Definition private_trade (u : OrderUpdate) : bool :=
  (ou_filled_quantity u >? f64_zero)%f64 && has_trade_id u.

(** Authoritative evidence that the placement exists. *)
Definition proves_placement (u : OrderUpdate) : bool :=
  match ou_status u with
  | Accepted | PartiallyFilled => true
  | Failed => private_trade u
  | _ => false
  end.

Definition flush_cancel_intent (self : OrderManager) (u : OrderUpdate) :
    OrderManager * option Signal :=
  let coid := ou_client_order_id u in
  if proves_placement u && bool_decide (coid ∈ om_intents self) then
    let self := clear_intent self coid in
    match om_orders self !! coid with
    | None => (self, None)
    | Some order =>
        let self := set_order self coid (order <| lo_status := LCancelling |>) in
        let self := reindex_order self coid in
        (self, Some (cancel_signal self coid (ou_timestamp_ns u)))
    end
  else (self, None).

(** [(quantity * 0.01).max(1e-9)] *)
Definition fill_tolerance (quantity : f64) : f64 :=
  f64_max (quantity * f64_dec 1 2)%f64 (f64_dec 1 9).

Section Updates.

(** [HashMap::values]: the values of the map in an unspecified order. *)
Context (hash_values : gmap string f64 → list f64).

Definition cumulative (order : LocalOrder) : f64 :=
  f64_sum (hash_values (lo_filled_by_trade order)).

(** [cumulative >= quantity - tolerance] *)
Definition fills_cover (order : LocalOrder) : bool :=
  (cumulative order >=? lo_quantity order - fill_tolerance (lo_quantity order))%f64.

(** The arm of [PartiallyFilled] and of a private-trade [Filled]; the second
    component tells whether a parked cancel intent is dropped. *)
Definition on_fill (order : LocalOrder) (u : OrderUpdate) : LocalOrder * bool :=
  let order :=
    if bool_decide (lo_status order = LCancelled) then order
    else order <| lo_status := LActive |> in
  let order :=
    match ou_trade_id u with
    | Some tid =>
        order <| lo_filled_by_trade :=
                   <[tid := ou_filled_quantity u]> (lo_filled_by_trade order) |>
    | None => order
    end in
  let single_event_full :=
    match ou_trade_id u with
    | None => (ou_filled_quantity u >=? lo_quantity order - fill_tolerance (lo_quantity order))%f64
    | Some _ => false
    end in
  if fills_cover order || single_event_full
  then (order <| lo_status := LMatched |>, true)
  else (order, false).

(** The arm of [Failed] with a trade id: the trade's fill is taken back. *)
Definition on_failed_trade (order : LocalOrder) (u : OrderUpdate) : LocalOrder :=
  let order :=
    order <| lo_filled_by_trade :=
               delete (default EmptyString (ou_trade_id u)) (lo_filled_by_trade order) |> in
  match lo_status order with
  | LCancelled | LRejected => order
  | _ => order <| lo_status := if fills_cover order then LMatched else LActive |>
  end.

(** The match over [update.status]: the order afterwards ([None] when it is
    removed from the ledger), and whether a parked cancel intent is dropped. *)
Definition order_transition (order : LocalOrder) (u : OrderUpdate) : option LocalOrder * bool :=
  match ou_status u with
  | Accepted =>
      match lo_status order with
      | LCancelling | LMatched => (Some order, false)
      | _ => (Some (order <| lo_status := LActive |>), false)
      end
  | PartiallyFilled => let '(order, clear) := on_fill order u in (Some order, clear)
  | Filled =>
      if private_trade u then let '(order, clear) := on_fill order u in (Some order, clear)
      else (None, true)
  | Rejected => (Some (order <| lo_status := LRejected |>), true)
  | Failed =>
      if private_trade u then (Some (on_failed_trade order u), false) else (None, true)
  | Cancelled => (Some (order <| lo_status := LCancelled |>), true)
  | Pending | ExecutorRejected | NewOrderTimeout | CancelOrderTimeout | CancelUncertain =>
      (Some order, false)
  end.

Definition put_order (self : OrderManager) (coid : string) (order : option LocalOrder) :
    OrderManager :=
  match order with
  | Some order => set_order self coid order
  | None => self <| om_orders := delete coid (om_orders self) |>
  end.

Definition on_order_update (self : OrderManager) (u : OrderUpdate) : OrderManager * option Signal :=
  let coid := ou_client_order_id u in
  match om_orders self !! coid with
  | None => (clear_intent self coid, None)
  | Some order =>
      let '(order, clear) := order_transition order u in
      let self := put_order self coid order in
      let self := if clear then clear_intent self coid else self in
      let self := reindex_order self coid in
      let '(self, signal) := flush_cancel_intent self u in
      (reindex_order self coid, signal)
  end.

End Updates.

(** ** Dropped signals *)

Definition on_signal_dropped (self : OrderManager) (coid : string) :
    OrderManager * DroppedSignalOutcome :=
  let '(self, outcome) :=
    match om_orders self !! coid with
    | Some order =>
        match lo_status order with
        | LSubmitted => (clear_intent (put_order self coid None) coid, PlaceRemoved)
        | LCancelling => (set_order self coid (order <| lo_status := LActive |>), CancelReverted)
        | _ => (self, NotTracked)
        end
    | None => (self, NotTracked)
    end in
  (reindex_order self coid, outcome).

(** ** Queries *)

Definition active_orders (self : OrderManager) : list LocalOrder :=
  omap (om_orders self !!.) (btree_iter (om_cancelable self)).

Definition active_order (self : OrderManager) (side : Side) : option LocalOrder :=
  List.find (λ o, side_eqb (lo_side o) side) (active_orders self).

Definition active_by_side (self : OrderManager) (side : Side) : list LocalOrder :=
  List.filter (λ o, side_eqb (lo_side o) side) (active_orders self).

Definition live_count (self : OrderManager) (side : Side) : nat :=
  count (λ o, side_eqb (lo_side o) side) (omap (om_orders self !!.) (btree_iter (om_live self))).

Definition active_coids (self : OrderManager) : list string := btree_iter (dom (om_orders self)).

Definition open_count (self : OrderManager) : nat := size (om_orders self).
Definition active_count (self : OrderManager) : nat := size (om_cancelable self).

Definition locked_sell_qty (self : OrderManager) : f64 :=
  f64_sum (map lo_quantity
    (List.filter (λ o, side_eqb (lo_side o) Sell && live_status (lo_status o))
       (btree_values (om_orders self)))).

Definition locked_buy_cost (self : OrderManager) : f64 :=
  f64_sum (map (λ o, lo_price o * lo_quantity o)%f64
    (List.filter (λ o, side_eqb (lo_side o) Buy && live_status (lo_status o))
       (btree_values (om_orders self)))).

(** ** Cancelling a side *)

Section Cancel.

(** The output callback: its state [A] and its error [E]. *)
Context {A E : Type} (emit : A → Signal → A * option E).

(** The loop over the cancelable index taken out of the manager; [pending] is
    what has not been visited yet. *)
Fixpoint cancel_walk (self : OrderManager) (side : Side) (ts_event : Z) (pending : list string)
    (acc : A) : OrderManager * A * option E :=
  match pending with
  | [] => (self, acc, None)
  | coid :: pending =>
      match om_orders self !! coid with
      | None => cancel_walk self side ts_event pending acc
      | Some order =>
          if negb (side_eqb (lo_side order) side) then
            cancel_walk (self <| om_cancelable := {[coid]} ∪ om_cancelable self |>)
              side ts_event pending acc
          else
            match lo_status order with
            | LSubmitted =>
                let self := park_intent self coid in
                cancel_walk (self <| om_cancelable := {[coid]} ∪ om_cancelable self |>)
                  side ts_event pending acc
            | LActive =>
                let self := clear_intent self coid in
                let self := set_order self coid (order <| lo_status := LCancelling |>) in
                match emit acc (cancel_signal self coid ts_event) with
                | (acc, None) => cancel_walk self side ts_event pending acc
                | (acc, Some error) =>
                    (self <| om_cancelable := om_cancelable self ∪ list_to_set pending |>,
                     acc, Some error)
                end
            | LCancelling | LRejected | LCancelled | LMatched =>
                cancel_walk self side ts_event pending acc
            end
      end
  end.

Definition needs_cancel (self : OrderManager) (side : Side) : bool :=
  existsb (λ coid,
    match om_orders self !! coid with
    | Some o =>
        side_eqb (lo_side o) side
        && (bool_decide (lo_status o = LActive)
            || (bool_decide (lo_status o = LSubmitted)
                && negb (bool_decide (coid ∈ om_intents self))))
    | None => false
    end) (btree_iter (om_cancelable self)).

Definition cancel_orders_by_side_with (self : OrderManager) (side : Side) (ts_event : Z) (acc : A) :
    OrderManager * A * option E :=
  if negb (needs_cancel self side) then (self, acc, None)
  else cancel_walk (self <| om_cancelable := ∅ |>) side ts_event
         (btree_iter (om_cancelable self)) acc.

Definition cancel_all_with (self : OrderManager) (ts_event : Z) (acc : A) :
    OrderManager * A * option E :=
  match cancel_orders_by_side_with self Buy ts_event acc with
  | (self, acc, Some error) => (self, acc, Some error)
  | (self, acc, None) => cancel_orders_by_side_with self Sell ts_event acc
  end.

End Cancel.

(** The infallible sink of the [Vec]-returning variants. *)
Definition push_signal (signals : list Signal) (s : Signal) : list Signal * option Empty_set :=
  (signals ++ [s], None).

Definition cancel_orders_by_side (self : OrderManager) (side : Side) (ts_event : Z) :
    OrderManager * list Signal :=
  let '(self, signals, _) := cancel_orders_by_side_with push_signal self side ts_event [] in
  (self, signals).

Definition cancel_all (self : OrderManager) (ts_event : Z) : OrderManager * list Signal :=
  let '(self, signals, _) := cancel_all_with push_signal self ts_event [] in (self, signals).

(** ** Applying reconcile decisions *)

(** A same-side order still awaiting its placement result is being cancelled. *)
Definition defer_place (self : OrderManager) (actions : list ReconcileAction) (side : Side) : bool :=
  existsb (λ action,
    match action with
    | CancelAction coid =>
        match om_orders self !! coid with
        | Some o => side_eqb (lo_side o) side && bool_decide (lo_status o = LSubmitted)
        | None => false
        end
    | Place _ _ _ _ _ => false
    end) actions.

Definition new_order_request (self : OrderManager) (coid : string) (side : Side)
    (price quantity : f64) (order_type : OrderType) (post_only : bool) (ts_event : Z) :
    OrderRequest :=
  {| or_prepared_token := None;
     or_order_slot := OrderSlot.UNASSIGNED;
     or_client_order_id := coid;
     or_exchange := om_exchange self;
     or_symbol := om_symbol self;
     or_side := side;
     or_order_type := order_type;
     or_price := Some price;
     or_quantity := quantity;
     or_quote_trigger_exchange_timestamp_ns := 0;
     or_quote_trigger_local_timestamp_ns := ts_event;
     or_quote_event_id := "";
     or_quote_trigger_source := StrategyCallback;
     or_timestamp_ns := ts_event;
     or_instance_id := om_instance_id self;
     or_fee_rate_bps := om_fee_rate_bps self;
     or_post_only := post_only;
     or_reduce_only := false;
     or_outcome_label := "" |}.

(** [clock n] is the [now_ns()] reading taken when order number [n] is created. *)
Fixpoint apply_actions (self : OrderManager) (global : Z) (clock : Z → Z) (defer : Side → bool)
    (actions : list ReconcileAction) (ts_event : Z) : OrderManager * Z * list Signal :=
  match actions with
  | [] => (self, global, [])
  | Place side price quantity order_type post_only :: actions =>
      if defer side then apply_actions self global clock defer actions ts_event
      else
        let '(coid, global') := next_id self global in
        let self :=
          reindex_order
            (set_order self coid
               (mkLocalOrder coid (om_symbol self) side price quantity LSubmitted (clock global) ∅))
            coid in
        let request := new_order_request self coid side price quantity order_type post_only ts_event in
        let '(self, global, signals) := apply_actions self global' clock defer actions ts_event in
        (self, global, NewOrder request :: signals)
  | CancelAction coid :: actions =>
      let '(self, signal) := request_cancel self coid ts_event in
      let '(self, global, signals) := apply_actions self global clock defer actions ts_event in
      (self, global, match signal with Some s => s :: signals | None => signals end)
  end.

Definition apply_reconcile (self : OrderManager) (global : Z) (clock : Z → Z)
    (actions : list ReconcileAction) (ts_event : Z) : OrderManager * Z * list Signal :=
  apply_actions self global clock (defer_place self actions) actions ts_event.

(** ** The ledger invariant *)

Definition has_status (p : LocalOrderStatus → bool) (m : OrderManager) (k : string) : Prop :=
  ∃ o, om_orders m !! k = Some o ∧ p (lo_status o) = true.

(** Both indices agree with the ledger at [k]. *)
Definition indexed (m : OrderManager) (k : string) : Prop :=
  (k ∈ om_cancelable m ↔ has_status cancelable_status m k)
  ∧ (k ∈ om_live m ↔ has_status live_status m k).

(** A parked cancel belongs to a tracked order that is not yet being cancelled. *)
Definition intent_ok (m : OrderManager) (k : string) : Prop :=
  k ∈ om_intents m → has_status cancelable_status m k.

Definition keyed (m : OrderManager) (k : string) : Prop :=
  ∀ o, om_orders m !! k = Some o → lo_client_order_id o = k.

Definition om_wf (m : OrderManager) : Prop := ∀ k, indexed m k ∧ intent_ok m k ∧ keyed m k.

Lemma has_status_Some p m k o :
  om_orders m !! k = Some o → has_status p m k ↔ p (lo_status o) = true.
Proof. unfold has_status. intros ->. split; [by intros (? & [= ->] & ?)|eauto]. Qed.

Lemma has_status_None p m k : om_orders m !! k = None → has_status p m k ↔ False.
Proof. unfold has_status. intros ->. split; [by intros (? & ? & ?)|done]. Qed.

Lemma has_status_ext p m m' k :
  om_orders m' !! k = om_orders m !! k → has_status p m' k ↔ has_status p m k.
Proof. unfold has_status. by intros ->. Qed.

(** Pointwise agreement transports the invariant. *)
Lemma wf_ext m m' k :
  om_orders m' !! k = om_orders m !! k →
  (k ∈ om_cancelable m' ↔ k ∈ om_cancelable m) → (k ∈ om_live m' ↔ k ∈ om_live m) →
  (k ∈ om_intents m' → k ∈ om_intents m) →
  indexed m k ∧ intent_ok m k ∧ keyed m k → indexed m' k ∧ intent_ok m' k ∧ keyed m' k.
Proof.
  intros Ho Hc Hl Hi. unfold indexed, intent_ok, keyed.
  rewrite Hc, Hl, Ho, !(has_status_ext _ m m') by done. tauto.
Qed.

Lemma reindex_fields m c :
  om_orders (reindex_order m c) = om_orders m ∧ om_intents (reindex_order m c) = om_intents m
  ∧ om_exchange (reindex_order m c) = om_exchange m
  ∧ om_instance_id (reindex_order m c) = om_instance_id m
  ∧ om_coid_prefix (reindex_order m c) = om_coid_prefix m.
Proof. unfold reindex_order. by destruct (om_orders m !! c). Qed.

Lemma reindex_indexed m c k : (k ≠ c → indexed m k) → indexed (reindex_order m c) k.
Proof.
  intros H. unfold reindex_order. destruct (decide (k = c)) as [->|Hne].
  - unfold indexed. destruct (om_orders m !! c) as [o|] eqn:Ho.
    + rewrite !(has_status_Some _ _ c o) by done. cbn.
      destruct (lo_status o); cbn; split; split; intros; set_solver.
    + rewrite !has_status_None by done. cbn. split; split; intros; set_solver.
  - destruct (H Hne) as [H1 H2]. clear H.
    destruct (om_orders m !! c) as [o|]; unfold indexed; cbn.
    + rewrite !(has_status_ext _ m) by done. rewrite <- H1, <- H2.
      split; [destruct (cancelable_status _)|destruct (live_status _)]; set_solver.
    + rewrite !(has_status_ext _ m) by done. rewrite <- H1, <- H2. split; set_solver.
Qed.

(** Replacing one order and reindexing it keeps the invariant, if a parked
    cancel of that order is still allowed afterwards. *)
Lemma wf_reindex m m' c :
  om_wf m →
  (∀ k, k ≠ c → om_orders m' !! k = om_orders m !! k ∧ (k ∈ om_intents m' → k ∈ om_intents m)
                ∧ (k ∈ om_cancelable m' ↔ k ∈ om_cancelable m) ∧ (k ∈ om_live m' ↔ k ∈ om_live m)) →
  intent_ok m' c → keyed m' c → om_wf (reindex_order m' c).
Proof.
  intros Hwf Hk Hi Hkey k. destruct (reindex_fields m' c) as (Ho & Hint & _).
  assert (k ≠ c → indexed m' k ∧ intent_ok m' k ∧ keyed m' k) as Hne.
  { intros Hne. destruct (Hk k Hne) as (? & ? & ? & ?). by apply (wf_ext m). }
  split; [apply reindex_indexed; intros Hx; apply (Hne Hx)|].
  assert (intent_ok m' k ∧ keyed m' k) as [H1 H2].
  { destruct (decide (k = c)) as [->|Hx]; [done|]. apply (Hne Hx). }
  unfold intent_ok, keyed. rewrite Ho, Hint, (has_status_ext _ m') by (by rewrite Ho). done.
Qed.

(** ** Every operation keeps the invariant *)

Lemma wf_unchanged m m' :
  om_wf m → om_orders m' = om_orders m → om_cancelable m' = om_cancelable m →
  om_live m' = om_live m → (∀ k, k ∈ om_intents m' → k ∈ om_intents m) → om_wf m'.
Proof. intros Hwf Ho Hc Hl Hi k. apply (wf_ext m m' k); rewrite ?Ho, ?Hc, ?Hl; auto. Qed.

Lemma new_wf e s t i : om_wf (new e s t i).
Proof.
  intros k. unfold indexed, intent_ok, keyed, has_status. cbn.
  split_and!; try split; try set_solver; intros (o & Ho & _); by rewrite lookup_empty in Ho.
Qed.

Lemma park_intent_wf m c o :
  om_wf m → om_orders m !! c = Some o → cancelable_status (lo_status o) = true →
  om_wf (park_intent m c).
Proof.
  intros Hwf Ho Hs k. unfold park_intent. destruct (decide (c ∈ om_intents m)); [apply Hwf|].
  destruct (decide (k = c)) as [->|Hne].
  - destruct (Hwf c) as (? & _ & ?). split_and!; try done. intros _. by exists o.
  - apply (wf_ext m); cbn; try done. set_solver.
Qed.

(** [m'] differs from [m] only in the order and the intent of [c]. *)
Definition only_at (c : string) (m m' : OrderManager) : Prop :=
  (∀ k, k ≠ c → om_orders m' !! k = om_orders m !! k)
  ∧ (∀ k, k ≠ c → k ∈ om_intents m' ↔ k ∈ om_intents m)
  ∧ (∀ k, k ≠ c → k ∈ om_cancelable m' ↔ k ∈ om_cancelable m)
  ∧ (∀ k, k ≠ c → k ∈ om_live m' ↔ k ∈ om_live m)
  ∧ om_exchange m' = om_exchange m ∧ om_instance_id m' = om_instance_id m
  ∧ om_coid_prefix m' = om_coid_prefix m.

Lemma only_at_refl c m : only_at c m m.
Proof. by split_and!. Qed.

Lemma only_at_trans c m1 m2 m3 : only_at c m1 m2 → only_at c m2 m3 → only_at c m1 m3.
Proof.
  intros (A1 & B1 & C1 & D1 & E1 & F1 & G1) (A2 & B2 & C2 & D2 & E2 & F2 & G2).
  split_and!; try congruence; intros k Hk.
  - by rewrite A2, A1.
  - by rewrite B2, B1.
  - by rewrite C2, C1.
  - by rewrite D2, D1.
Qed.

Lemma only_at_reindex c m : only_at c m (reindex_order m c).
Proof.
  unfold reindex_order. destruct (om_orders m !! c) as [o|]; split_and!; cbn; try done; intros k Hk.
  - destruct (cancelable_status _); set_solver.
  - destruct (live_status _); set_solver.
  - set_solver.
  - set_solver.
Qed.

Lemma only_at_set c m o : only_at c m (set_order m c o).
Proof. split_and!; try done. intros k Hk. cbn. by rewrite lookup_insert_ne. Qed.

Lemma only_at_put c m o : only_at c m (put_order m c o).
Proof.
  destruct o as [o|]; [apply only_at_set|]. split_and!; try done.
  intros k Hk. cbn. by rewrite lookup_delete_ne.
Qed.

Lemma only_at_clear c m : only_at c m (clear_intent m c).
Proof. split_and!; try done. cbn. set_solver. Qed.

#[local] Hint Resolve only_at_refl only_at_reindex only_at_set only_at_put only_at_clear : hex.

Lemma wf_only_at m m' c :
  om_wf m → only_at c m m' → intent_ok m' c → keyed m' c → om_wf (reindex_order m' c).
Proof.
  intros Hwf (A & B & C & D & _). apply (wf_reindex m); [done|]. intros k Hk.
  split_and!; auto. by apply B.
Qed.

Lemma request_cancel_wf m c ts : om_wf m → om_wf (request_cancel m c ts).1.
Proof.
  intros Hwf. unfold request_cancel. destruct (om_orders m !! c) as [o|] eqn:Ho; [|done].
  destruct (lo_status o) eqn:Hs; try done; simpl.
  - eapply park_intent_wf; [done..|]. by rewrite Hs.
  - apply (wf_only_at m).
    + done.
    + eapply only_at_trans; auto with hex.
    + intros Hi. cbn in Hi. set_solver.
    + intros o'. cbn. rewrite lookup_insert_eq. intros [= <-]. cbn. by apply Hwf.
Qed.

Section UpdateProofs.
Context (hash_values : gmap string f64 → list f64).

(** An update never changes what the order is, only how far it got. *)
Definition same_terms (o o' : LocalOrder) : Prop :=
  lo_client_order_id o' = lo_client_order_id o ∧ lo_symbol o' = lo_symbol o
  ∧ lo_side o' = lo_side o ∧ lo_price o' = lo_price o ∧ lo_quantity o' = lo_quantity o.

Lemma on_fill_terms o u : same_terms o (on_fill hash_values o u).1.
Proof.
  unfold on_fill. destruct (bool_decide _), (ou_trade_id u); destruct (_ || _); by split_and!.
Qed.

Lemma transition_terms o u o' clear :
  order_transition hash_values o u = (Some o', clear) → same_terms o o'.
Proof.
  unfold order_transition. pose proof (on_fill_terms o u) as Hf.
  destruct (on_fill hash_values o u) as [o1 c1]. cbn in Hf.
  destruct (ou_status u); try (destruct (private_trade u)); intros H; simplify_eq/=; try done.
  1,2: destruct (lo_status o); by simplify_eq.
  unfold on_failed_trade. cbn. by destruct (lo_status o).
Qed.

(** A parked cancel survives an update only while the order can still be
    cancelled. *)
Lemma transition_keeps_intent o u o' :
  cancelable_status (lo_status o) = true → proves_placement u = false →
  order_transition hash_values o u = (o', false) →
  ∃ o'', o' = Some o'' ∧ cancelable_status (lo_status o'') = true.
Proof.
  unfold order_transition, proves_placement. intros Hc He.
  destruct (ou_status u) eqn:Hs; try done; try (intros [= <-]; by exists o).
  - destruct (private_trade u) eqn:Hp; [|done].
    unfold on_fill. rewrite bool_decide_eq_false_2 by (by intros E; rewrite E in Hc).
    destruct (_ || _); [done|]. intros [= <-]. eexists. split; [done|].
    by destruct (ou_trade_id u).
  - by rewrite He.
Qed.

(** The manager before the parked cancel is looked at. *)
Definition settle (m : OrderManager) (c : string) (o : option LocalOrder) (clear : bool) :
    OrderManager :=
  let m := put_order m c o in
  reindex_order (if clear then clear_intent m c else m) c.

Lemma settle_only_at m c o clear : only_at c m (settle m c o clear).
Proof.
  unfold settle. eapply only_at_trans; [|apply only_at_reindex].
  eapply only_at_trans; [apply (only_at_put c m o)|]. destruct clear; auto with hex.
Qed.

Lemma settle_order m c o clear : om_orders (settle m c o clear) !! c = o.
Proof.
  unfold settle. destruct (reindex_fields (if clear then clear_intent (put_order m c o) c
    else put_order m c o) c) as (-> & _).
  destruct clear, o; cbn; by rewrite ?lookup_insert_eq, ?lookup_delete_eq.
Qed.

Lemma settle_intents m c o clear k :
  k ∈ om_intents (settle m c o clear) ↔ k ∈ om_intents m ∧ (clear = true → k ≠ c).
Proof.
  unfold settle. destruct (reindex_fields (if clear then clear_intent (put_order m c o) c
    else put_order m c o) c) as (_ & -> & _).
  destruct clear, o; cbn; set_solver.
Qed.

Lemma on_order_update_unfold m u o o' clear :
  om_orders m !! ou_client_order_id u = Some o →
  order_transition hash_values o u = (o', clear) →
  on_order_update hash_values m u
  = (let '(m1, signal) := flush_cancel_intent (settle m (ou_client_order_id u) o' clear) u in
     (reindex_order m1 (ou_client_order_id u), signal)).
Proof. intros Ho Ht. unfold on_order_update. by rewrite Ho, Ht. Qed.

(** The outcome of releasing a parked cancel. *)
Lemma flush_cases m u :
  let c := ou_client_order_id u in
  (flush_cancel_intent m u = (m, None) ∧ (proves_placement u = false ∨ c ∉ om_intents m))
  ∨ (proves_placement u = true ∧ c ∈ om_intents m
     ∧ ((om_orders m !! c = None ∧ flush_cancel_intent m u = (clear_intent m c, None))
        ∨ ∃ o, om_orders m !! c = Some o
             ∧ flush_cancel_intent m u
               = (reindex_order (set_order (clear_intent m c) c (o <| lo_status := LCancelling |>)) c,
                  Some (cancel_signal m c (ou_timestamp_ns u))))).
Proof.
  cbv zeta. unfold flush_cancel_intent. destruct (proves_placement u); [|by left; auto].
  case_bool_decide; [|by left; auto]. right. split_and!; [done|done|]. cbn.
  destruct (om_orders m !! ou_client_order_id u) as [o|] eqn:Ho; [|by left]. right. exists o.
  split; [done|]. unfold cancel_signal. cbn.
  destruct (reindex_fields (set_order (clear_intent m (ou_client_order_id u))
    (ou_client_order_id u) (o <| lo_status := LCancelling |>)) (ou_client_order_id u))
    as (_ & _ & -> & -> & _). done.
Qed.

Lemma on_order_update_wf m u : om_wf m → om_wf (on_order_update hash_values m u).1.
Proof.
  intros Hwf. set (c := ou_client_order_id u).
  destruct (om_orders m !! c) as [o|] eqn:Ho.
  2: { unfold on_order_update. fold c. rewrite Ho. apply (wf_unchanged m); cbn; try done. set_solver. }
  destruct (order_transition hash_values o u) as [o' clear] eqn:Ht.
  rewrite (on_order_update_unfold m u o o' clear) by done. fold c.
  set (m1 := settle m c o' clear). pose proof (settle_only_at m c o' clear) as Hat.
  assert (Hkey : ∀ o1, o' = Some o1 → lo_client_order_id o1 = c).
  { intros o1 ->. apply transition_terms in Ht as [-> _]. by apply Hwf. }
  destruct (flush_cases m1 u) as [[-> Hno]|(Hev & Hin & [[Hn ->]|(o1 & Ho1 & ->)])];
    try fold c in Hno; try fold c in Hin; try fold c in Hn; try fold c in Ho1;
    fold c; simpl; apply (wf_only_at m); try done.
  - intros Hi. unfold m1 in *. destruct Hno as [Hev|?]; [|done].
    apply settle_intents in Hi as [Hi Hcl]. destruct clear; [by destruct Hcl|].
    destruct (Hwf c) as (_ & Hok & _). destruct (Hok Hi) as (o2 & Ho2 & Hs). simplify_eq.
    destruct (transition_keeps_intent o u o' Hs Hev Ht) as (o3 & -> & ?).
    exists o3. by rewrite settle_order.
  - intros o1. unfold m1. rewrite settle_order. apply Hkey.
  - eapply only_at_trans; [done|]. auto with hex.
  - intros Hi. cbn in Hi. set_solver.
  - intros o1. cbn. unfold m1. rewrite settle_order. apply Hkey.
  - eapply only_at_trans; [done|]. eapply only_at_trans; [apply only_at_clear|].
    eapply only_at_trans; [apply only_at_set|apply only_at_reindex].
  - match goal with |- intent_ok (reindex_order ?a c) c => destruct (reindex_fields a c) as (_ & Hi' & _) end.
    unfold intent_ok. rewrite Hi'. cbn. set_solver.
  - match goal with |- keyed (reindex_order ?a c) c => destruct (reindex_fields a c) as (Ho' & _) end.
    unfold keyed. rewrite Ho'. cbn. rewrite lookup_insert_eq. intros o2 [= <-]. cbn.
    apply Hkey. unfold m1 in Ho1. by rewrite settle_order in Ho1.
Qed.
End UpdateProofs.

Lemma on_signal_dropped_wf m c : om_wf m → om_wf (on_signal_dropped m c).1.
Proof.
  intros Hwf. unfold on_signal_dropped.
  destruct (om_orders m !! c) as [o|] eqn:Ho; [destruct (lo_status o) eqn:Hs|]; simpl;
    apply (wf_only_at m); try apply Hwf; auto with hex.
  - eapply only_at_trans; [apply (only_at_put c m None)|]. auto with hex.
  - intros Hi. cbn in Hi. set_solver.
  - intros o'. cbn. by rewrite lookup_delete_eq.
  - intros _. eexists. cbn. by rewrite lookup_insert_eq.
  - intros o'. cbn. rewrite lookup_insert_eq. intros [= <-]. cbn. by apply Hwf.
Qed.

Lemma insert_order_wf m c o :
  om_wf m → lo_client_order_id o = c → cancelable_status (lo_status o) = true →
  om_wf (reindex_order (set_order m c o) c).
Proof.
  intros Hwf Hc Hs. apply (wf_only_at m); auto with hex.
  - intros _. exists o. cbn. by rewrite lookup_insert_eq.
  - intros o'. cbn. rewrite lookup_insert_eq. by intros [= <-].
Qed.

Lemma inject_open_order_wf m c side p q now : om_wf m → om_wf (inject_open_order m c side p q now).
Proof. intros Hwf. by apply insert_order_wf. Qed.

Lemma apply_actions_wf actions m g clock defer ts :
  om_wf m → om_wf (apply_actions m g clock defer actions ts).1.1.
Proof.
  revert m g. induction actions as [|[side p q ty po|c] actions IH]; intros m g Hwf; simpl; [done| |].
  - destruct (defer side); [by apply IH|]. 
    match goal with |- context [apply_actions ?m' ?g' _ _ actions _] => specialize (IH m' g') end.
    destruct (apply_actions _ _ _ _ actions _) as [[m' g'] sigs]. apply IH.
    by apply insert_order_wf.
  - pose proof (request_cancel_wf m c ts Hwf) as Hm. destruct (request_cancel m c ts) as [m1 s].
    specialize (IH m1 g Hm). by destruct (apply_actions _ _ _ _ actions _) as [[m' g'] sigs].
Qed.

(** The manager with the unvisited part of the walk put back in the index. *)
Definition restore (m : OrderManager) (pending : list string) : OrderManager :=
  m <| om_cancelable := om_cancelable m ∪ list_to_set pending |>.

Definition walking (m : OrderManager) (pending : list string) : Prop :=
  om_wf (restore m pending) ∧ NoDup pending ∧ ∀ k, k ∈ pending → k ∉ om_cancelable m.

Lemma walking_order m c pending :
  walking m (c :: pending) → ∃ o, om_orders m !! c = Some o ∧ cancelable_status (lo_status o) = true.
Proof.
  intros (Hwf & _ & _). destruct (Hwf c) as ((Hc & _) & _ & _). apply Hc. cbn. set_solver.
Qed.

(** Putting the visited order back. *)
Lemma walking_keep m c pending :
  walking m (c :: pending) → walking (m <| om_cancelable := {[c]} ∪ om_cancelable m |>) pending.
Proof.
  intros (Hwf & [Hc Hnd]%NoDup_cons & Hdis). split_and!; [|done|].
  - intros k. apply (wf_ext (restore m (c :: pending))); cbn; try done. set_solver.
  - intros k Hk. cbn. assert (k ≠ c) by (by intros ->). set_solver.
Qed.

Lemma walking_park m c pending : walking m (c :: pending) → walking (park_intent m c) (c :: pending).
Proof.
  intros Hw. destruct (walking_order m c pending Hw) as (o & Ho & Hs). destruct Hw as (Hwf & ? & ?).
  assert (restore (park_intent m c) (c :: pending) = park_intent (restore m (c :: pending)) c) as Heq.
  { unfold park_intent. cbn. by destruct (decide _). }
  split_and!; [rewrite Heq; by apply (park_intent_wf _ c o)|done|].
  unfold park_intent. by destruct (decide _).
Qed.

(** An active order leaves the index as it becomes [Cancelling]. *)
Lemma walking_cancel m c pending o :
  walking m (c :: pending) → om_orders m !! c = Some o → lo_status o = LActive →
  walking (set_order (clear_intent m c) c (o <| lo_status := LCancelling |>)) pending.
Proof.
  intros (Hwf & [Hc Hnd]%NoDup_cons & Hdis) Ho Hs. split_and!; [|done|intros k Hk; cbn; set_solver].
  intros k. destruct (decide (k = c)) as [->|Hne].
  - destruct (Hwf c) as ((_ & Hl) & _ & Hk). rewrite (has_status_Some _ _ _ o) in Hl by done.
    assert (∀ p, has_status p (restore (set_order (clear_intent m c) c (o <| lo_status := LCancelling |>))
      pending) c ↔ p LCancelling = true) as Hst.
    { intros p. rewrite (has_status_Some p _ c (o <| lo_status := LCancelling |>)); [done|].
      apply lookup_insert_eq. }
    unfold indexed, intent_ok, keyed. rewrite !Hst. cbn in *. rewrite Hs in Hl. cbn in Hl.
    split_and!; [|done|set_solver|].
    + split; [|done]. assert (c ∉ om_cancelable m) by (apply Hdis; left). set_solver.
    + intros o'. rewrite lookup_insert_eq. intros [= <-]. exact (Hk o Ho).
  - apply (wf_ext (restore m (c :: pending))); cbn; try done.
    + by rewrite lookup_insert_ne.
    + set_solver.
    + set_solver.
Qed.

Lemma walking_nil m : walking m [] → om_wf m.
Proof.
  intros (Hwf & _ & _) k. apply (wf_ext (restore m [])); cbn; try done. set_solver.
Qed.

Section CancelProofs.
Context {A E : Type} (emit : A → Signal → A * option E).

Lemma cancel_walk_wf pending m side ts acc :
  walking m pending → om_wf (cancel_walk emit m side ts pending acc).1.1.
Proof.
  revert m acc. induction pending as [|c pending IH]; intros m acc Hw; simpl; [by apply walking_nil|].
  destruct (walking_order m c pending Hw) as (o & Ho & Hs). rewrite Ho.
  destruct (negb _); [by apply IH, walking_keep|].
  destruct (lo_status o) eqn:Hst; try done.
  - by apply IH, walking_keep, walking_park.
  - pose proof (walking_cancel m c pending o Hw Ho Hst) as Hw'.
    destruct (emit acc _) as [acc' [e|]]; [|by apply IH]. apply Hw'.
Qed.

Lemma cancel_orders_by_side_with_wf m side ts acc :
  om_wf m → om_wf (cancel_orders_by_side_with emit m side ts acc).1.1.
Proof.
  intros Hwf. unfold cancel_orders_by_side_with. destruct (negb _); [done|].
  apply cancel_walk_wf. split_and!; [|apply NoDup_btree_iter|set_solver].
  intros k. apply (wf_ext m); cbn; try done.
  rewrite elem_of_union, elem_of_list_to_set, elem_of_btree_iter. set_solver.
Qed.

Lemma cancel_all_with_wf m ts acc : om_wf m → om_wf (cancel_all_with emit m ts acc).1.1.
Proof.
  intros Hwf. unfold cancel_all_with.
  pose proof (cancel_orders_by_side_with_wf m Buy ts acc Hwf) as H1.
  destruct (cancel_orders_by_side_with emit m Buy ts acc) as [[m1 a1] [e|]]; [done|].
  by apply cancel_orders_by_side_with_wf.
Qed.
End CancelProofs.

(** ** What a cancellation does *)

Definition on_side (st : LocalOrderStatus) (m : OrderManager) (side : Side) (c : string) : bool :=
  match om_orders m !! c with
  | Some o => side_eqb (lo_side o) side && bool_decide (lo_status o = st)
  | None => false
  end.

Lemma on_side_ext st m m' side c :
  om_orders m' !! c = om_orders m !! c → on_side st m' side c = on_side st m side c.
Proof. unfold on_side. by intros ->. Qed.

(** The effect of visiting the orders [visited]. *)
Record visited_effect (m m' : OrderManager) (side : Side) (visited : list string) : Prop := {
  ve_orders : ∀ k, om_orders m' !! k
    = if bool_decide (k ∈ visited) && on_side LActive m side k
      then (λ o, o <| lo_status := LCancelling |>) <$> om_orders m !! k
      else om_orders m !! k;
  ve_intents : ∀ k, k ∈ om_intents m'
    ↔ (k ∈ om_intents m ∧ ¬ (k ∈ visited ∧ on_side LActive m side k = true))
      ∨ (k ∈ visited ∧ on_side LSubmitted m side k = true);
  ve_live : om_live m' = om_live m;
  ve_exchange : om_exchange m' = om_exchange m;
  ve_instance : om_instance_id m' = om_instance_id m }.

Lemma visited_effect_nil m m' side :
  om_orders m' = om_orders m → om_intents m' = om_intents m → om_live m' = om_live m →
  om_exchange m' = om_exchange m → om_instance_id m' = om_instance_id m →
  visited_effect m m' side [].
Proof.
  intros Ho Hi ???. constructor; try done; intros k.
  - rewrite bool_decide_eq_false_2 by set_solver. by rewrite Ho.
  - rewrite Hi. set_solver.
Qed.

(** One visited order, then the rest. *)
Lemma visited_effect_cons m m1 m' side c visited :
  c ∉ visited →
  visited_effect m m1 side [c] → visited_effect m1 m' side visited →
  visited_effect m m' side (c :: visited).
Proof.
  intros Hc H1 H2.
  assert (Hsame : ∀ k, k ≠ c → om_orders m1 !! k = om_orders m !! k).
  { intros k Hk. rewrite (ve_orders _ _ _ _ H1). by rewrite bool_decide_eq_false_2 by set_solver. }
  assert (Hst : ∀ st k, k ∈ visited → on_side st m1 side k = on_side st m side k).
  { intros st k Hk. apply on_side_ext, Hsame. by intros ->. }
  constructor.
  - intros k. rewrite (ve_orders _ _ _ _ H2). destruct (decide (k = c)) as [->|Hne].
    + rewrite bool_decide_eq_false_2 by done. simpl. rewrite (ve_orders _ _ _ _ H1).
      rewrite !bool_decide_eq_true_2 by set_solver. done.
    + destruct (decide (k ∈ visited)) as [Hk|Hk].
      * rewrite !bool_decide_eq_true_2 by set_solver. by rewrite Hst, Hsame.
      * rewrite !bool_decide_eq_false_2 by set_solver. simpl. by apply Hsame.
  - intros k. rewrite (ve_intents _ _ _ _ H2), (ve_intents _ _ _ _ H1).
    destruct (decide (k = c)) as [->|Hne]; [set_solver|].
    destruct (decide (k ∈ visited)) as [Hk|Hk]; [rewrite !Hst by done|]; set_solver.
  - by rewrite (ve_live _ _ _ _ H2), (ve_live _ _ _ _ H1).
  - by rewrite (ve_exchange _ _ _ _ H2), (ve_exchange _ _ _ _ H1).
  - by rewrite (ve_instance _ _ _ _ H2), (ve_instance _ _ _ _ H1).
Qed.

Lemma visit_other m m' side c :
  on_side LActive m side c = false → on_side LSubmitted m side c = false →
  om_orders m' = om_orders m → om_intents m' = om_intents m → om_live m' = om_live m →
  om_exchange m' = om_exchange m → om_instance_id m' = om_instance_id m →
  visited_effect m m' side [c].
Proof.
  intros H1 H2 Ho Hi ???. constructor; try done; intros k.
  - rewrite Ho. destruct (decide (k = c)) as [->|]; [rewrite H1, andb_false_r; done|].
    by rewrite bool_decide_eq_false_2 by set_solver.
  - rewrite Hi. destruct (decide (k = c)) as [->|]; [rewrite H1, H2|]; set_solver.
Qed.

Lemma visit_submitted m side c X :
  on_side LSubmitted m side c = true →
  visited_effect m ((park_intent m c) <| om_cancelable := X |>) side [c].
Proof.
  intros H2. assert (on_side LActive m side c = false) as H1.
  { unfold on_side in *. destruct (om_orders m !! c) as [o|]; [|done]. bool_hyps.
    apply andb_false_iff. right. apply bool_decide_eq_false_2. congruence. }
  assert (∀ k, k ∈ om_intents (park_intent m c) ↔ k ∈ om_intents m ∨ k = c) as Hi.
  { intros k. unfold park_intent. destruct (decide _); cbn; set_solver. }
  assert (om_orders (park_intent m c) = om_orders m ∧ om_live (park_intent m c) = om_live m
    ∧ om_exchange (park_intent m c) = om_exchange m
    ∧ om_instance_id (park_intent m c) = om_instance_id m) as (Ho & ? & ? & ?).
  { unfold park_intent. by destruct (decide _). }
  constructor; cbn; try done; intros k.
  - rewrite Ho. destruct (decide (k = c)) as [->|]; [rewrite H1, andb_false_r; done|].
    by rewrite bool_decide_eq_false_2 by set_solver.
  - rewrite Hi. destruct (decide (k = c)) as [->|]; [rewrite H1, H2|]; set_solver.
Qed.

Lemma visit_active m side c o :
  om_orders m !! c = Some o → on_side LActive m side c = true →
  visited_effect m (set_order (clear_intent m c) c (o <| lo_status := LCancelling |>)) side [c].
Proof.
  intros Ho H1. assert (on_side LSubmitted m side c = false) as H2.
  { unfold on_side in *. rewrite Ho in *. bool_hyps.
    apply andb_false_iff. right. apply bool_decide_eq_false_2. congruence. }
  constructor; cbn; try done; intros k.
  - destruct (decide (k = c)) as [->|].
    + rewrite lookup_insert_eq, bool_decide_eq_true_2, H1, Ho by set_solver. done.
    + rewrite lookup_insert_ne by done. by rewrite bool_decide_eq_false_2 by set_solver.
  - destruct (decide (k = c)) as [->|]; [rewrite H1, H2|]; set_solver.
Qed.

Lemma visited_effect_index m m' side visited X :
  visited_effect m m' side visited → visited_effect m (m' <| om_cancelable := X |>) side visited.
Proof. intros []. by constructor. Qed.

Definition delete_of (m : OrderManager) (ts : Z) (c : string) : Signal := cancel_signal m c ts.

Definition active_ids (m : OrderManager) (side : Side) (ids : list string) : list string :=
  List.filter (on_side LActive m side) ids.

Section CancelSpec.
(** A sink that appends the signal, or rejects it and stays as it was. *)
Context {E : Type} (emit : list Signal → Signal → list Signal * option E).
Context (rejects : E → Signal → Prop).
Context (emit_spec : ∀ acc s,
  emit acc s = (acc ++ [s], None) ∨ ∃ e, emit acc s = (acc, Some e) ∧ rejects e s).

Definition walk_result (m : OrderManager) (side : Side) (ts : Z) (pending : list string)
    (acc : list Signal) (r : OrderManager * list Signal * option E) : Prop :=
  ∃ visited rest, pending = visited ++ rest ∧ visited_effect m r.1.1 side visited
  ∧ match r.2 with
    | None => rest = [] ∧ r.1.2 = acc ++ map (delete_of m ts) (active_ids m side visited)
    | Some e => ∃ sent c, visited = sent ++ [c] ∧ on_side LActive m side c = true
                ∧ rejects e (delete_of m ts c) ∧ r.1.2 = acc ++ map (delete_of m ts) (active_ids m side sent)
    end.

Lemma walk_result_cons m m1 side ts c pending acc r :
  NoDup (c :: pending) → visited_effect m m1 side [c] →
  walk_result m1 side ts pending
    (acc ++ map (delete_of m ts) (active_ids m side [c])) r →
  walk_result m side ts (c :: pending) acc r.
Proof.
  intros [Hc Hnd]%NoDup_cons H1 (visited & rest & -> & H2 & Hr).
  assert (c ∉ visited) as Hcv by set_solver.
  assert (∀ ids, c ∉ ids → active_ids m1 side ids = active_ids m side ids) as Hact.
  { intros ids Hids. unfold active_ids. apply filter_ext_in. intros k Hk%list_elem_of_In.
    apply on_side_ext. rewrite (ve_orders _ _ _ _ H1). rewrite bool_decide_eq_false_2; [done|].
    intros ?%list_elem_of_singleton. by subst. }
  assert (delete_of m1 ts = delete_of m ts) as Hdel.
  { unfold delete_of, cancel_signal. by rewrite (ve_exchange _ _ _ _ H1), (ve_instance _ _ _ _ H1). }
  assert (∀ ids, active_ids m side (c :: ids) = active_ids m side [c] ++ active_ids m side ids) as Happ.
  { intros ids. unfold active_ids. simpl. by destruct (on_side LActive m side c). }
  exists (c :: visited), rest. split; [done|]. split; [by eapply visited_effect_cons|].
  destruct r as [[m' acc'] [e|]]; cbn [fst snd] in Hr |- *.
  - destruct Hr as (sent & d & -> & Hd & Hrej & ->). exists (c :: sent), d. split; [done|].
    assert ((c ∉ sent) ∧ (c ≠ d)) as [Hcs Hcd] by set_solver. rewrite Hdel in *.
    split_and!; [|done|].
    + rewrite <- Hd. symmetry. apply on_side_ext. rewrite (ve_orders _ _ _ _ H1).
      by rewrite bool_decide_eq_false_2 by set_solver.
    + rewrite Hact by done. by rewrite (Happ sent), map_app, app_assoc.
  - destruct Hr as [-> ->]. split; [done|]. rewrite Hdel, Hact by done.
    by rewrite (Happ visited), map_app, app_assoc.
Qed.

Lemma cancel_walk_spec pending m side ts acc :
  NoDup pending → walk_result m side ts pending acc (cancel_walk emit m side ts pending acc).
Proof.
  revert m acc. induction pending as [|c pending IH]; intros m acc Hnd; simpl.
  { exists [], []. simpl. rewrite app_nil_r. split_and!; try done. by apply visited_effect_nil. }
  pose proof (NoDup_cons_1_2 _ _ Hnd) as Hnd'.
  assert (∀ m', visited_effect m m' side [c] → on_side LActive m side c = false →
    walk_result m side ts (c :: pending) acc (cancel_walk emit m' side ts pending acc)) as Hskip.
  { intros m' H1 Ha. eapply walk_result_cons; [done|exact H1|].
    unfold active_ids. simpl. rewrite Ha, app_nil_r. by apply IH. }
  destruct (om_orders m !! c) as [o|] eqn:Ho.
  2: { apply Hskip; [apply visit_other; try done|]; unfold on_side; by rewrite Ho. }
  assert (∀ st, on_side st m side c
    = side_eqb (lo_side o) side && bool_decide (lo_status o = st)) as Hon
    by (intros; unfold on_side; by rewrite Ho).
  destruct (side_eqb (lo_side o) side) eqn:Hside; simpl in Hon.
  2: { apply Hskip; [apply visit_other; try done|]; by rewrite Hon. }
  destruct (lo_status o) eqn:Hs; simpl.
  3,4,5,6: apply Hskip; [apply visit_other; try done|]; by rewrite Hon.
  - apply Hskip; [apply visit_submitted|]; by rewrite Hon.
  - assert (on_side LActive m side c = true) as Ha by (by rewrite Hon).
    pose proof (visit_active m side c o Ho Ha) as H1.
    change (cancel_signal _ c ts) with (delete_of m ts c).
    destruct (emit_spec acc (delete_of m ts c)) as [->|(e & -> & Hrej)].
    + eapply walk_result_cons; [done|exact H1|]. unfold active_ids. simpl. rewrite Ha. by apply IH.
    + exists [c], pending. split_and!; [done|by apply visited_effect_index|]. simpl.
      exists [], c. split_and!; [done|done|done|]. by rewrite app_nil_r.
Qed.
End CancelSpec.

(** ** The cancellation of a side, as the strategy sees it *)

Lemma active_ids_tracked m side ids ids' :
  StronglySorted str_le ids → StronglySorted str_le ids' → NoDup ids → NoDup ids' →
  (∀ k, on_side LActive m side k = true → k ∈ ids ↔ k ∈ ids') →
  active_ids m side ids = active_ids m side ids'.
Proof.
  intros Hs Hs' Hn Hn' H. apply (StronglySorted_unique str_le).
  - by apply StronglySorted_filter.
  - by apply StronglySorted_filter.
  - apply NoDup_Permutation.
    + apply NoDup_ListNoDup, List.NoDup_filter. by apply NoDup_ListNoDup.
    + apply NoDup_ListNoDup, List.NoDup_filter. by apply NoDup_ListNoDup.
    + intros k. unfold active_ids. rewrite !list_elem_of_In, !filter_In, <- !list_elem_of_In.
      split; intros [Hk Ha]; (split; [|done]); by apply H.
Qed.

Lemma on_side_cancelable st m side k :
  om_wf m → cancelable_status st = true → on_side st m side k = true → k ∈ om_cancelable m.
Proof.
  intros Hwf Hst. unfold on_side. destruct (om_orders m !! k) as [o|] eqn:Ho; [|done].
  intros H. bool_hyps. destruct (Hwf k) as ((Hc & _) & _). apply Hc. exists o. split; [done|]. congruence.
Qed.

Lemma on_side_tracked st m side k : on_side st m side k = true → k ∈ dom (om_orders m).
Proof.
  unfold on_side. destruct (om_orders m !! k) as [o|] eqn:Ho; [|done]. intros _.
  apply elem_of_dom. by exists o.
Qed.

Lemma needs_cancel_false m side :
  om_wf m → needs_cancel m side = false →
  ∀ k, on_side LActive m side k = false
       ∧ (on_side LSubmitted m side k = true → k ∈ om_intents m).
Proof.
  intros Hwf Hn k.
  assert (∀ k, k ∈ om_cancelable m → on_side LActive m side k
      || (on_side LSubmitted m side k && negb (bool_decide (k ∈ om_intents m))) = false) as H.
  { intros j Hj. apply not_true_iff_false. intros Ht. apply not_true_iff_false in Hn. apply Hn.
    unfold needs_cancel. apply existsb_exists. exists j.
    split; [by apply list_elem_of_In, elem_of_btree_iter|].
    unfold on_side in Ht. destruct (om_orders m !! j) as [o|]; [|done].
    by destruct (side_eqb (lo_side o) side). }
  split.
  - destruct (on_side LActive m side k) eqn:Ha; [|done].
    specialize (H k (on_side_cancelable LActive m side k Hwf eq_refl Ha)). by rewrite Ha in H.
  - intros Hs. specialize (H k (on_side_cancelable LSubmitted m side k Hwf eq_refl Hs)).
    rewrite Hs in H. simpl in H. by bool_hyps.
Qed.

Lemma needs_cancel_intro m side :
  (∀ k, on_side LActive m side k = false) →
  (∀ k, on_side LSubmitted m side k = true → k ∈ om_intents m) → needs_cancel m side = false.
Proof.
  intros Ha Hs. apply not_true_iff_false. intros H.
  apply existsb_exists in H as (k & _ & Hk). specialize (Ha k). specialize (Hs k).
  unfold on_side in *. destruct (om_orders m !! k) as [o|]; [|done].
  destruct (side_eqb (lo_side o) side); [|done]. simpl in *. rewrite Ha in Hk. simpl in Hk. bool_hyps.
  by match goal with H : k ∉ _ |- _ => apply H; apply Hs; apply bool_decide_eq_true_2 end.
Qed.

Lemma active_ids_cancelable m side :
  om_wf m → active_ids m side (btree_iter (dom (om_orders m)))
            = active_ids m side (btree_iter (om_cancelable m)).
Proof.
  intros Hwf. apply active_ids_tracked; auto using btree_iter_sorted, NoDup_btree_iter.
  intros k Hk. rewrite !elem_of_btree_iter. split; intros _.
  - by apply (on_side_cancelable LActive m side).
  - by apply (on_side_tracked LActive m side).
Qed.

Lemma push_signal_spec acc s :
  push_signal acc s = (acc ++ [s], None) ∨ ∃ e, push_signal acc s = (acc, Some e) ∧ False.
Proof. by left. Qed.

Lemma try_push_spec cap (acc : list Signal) s :
  try_push cap acc s = (acc ++ [s], None) ∨ ∃ e, try_push cap acc s = (acc, Some e) ∧ e = s.
Proof. unfold try_push. destruct (_ <? _)%nat; eauto. Qed.

Lemma cancel_side_unfold m side ts m' sigs :
  om_wf m → cancel_orders_by_side m side ts = (m', sigs) →
  sigs = map (delete_of m ts) (active_ids m side (btree_iter (dom (om_orders m))))
  ∧ visited_effect m m' side (btree_iter (om_cancelable m)) ∧ om_wf m'
  ∧ (needs_cancel m side = false → m' = m).
Proof.
  intros Hwf. unfold cancel_orders_by_side.
  pose proof (cancel_orders_by_side_with_wf push_signal m side ts [] Hwf) as Hwf'.
  rewrite active_ids_cancelable by done.
  unfold cancel_orders_by_side_with in *. destruct (needs_cancel m side) eqn:Hn; simpl in *.
  - pose proof (cancel_walk_spec push_signal _ push_signal_spec (btree_iter (om_cancelable m))
      (m <| om_cancelable := ∅ |>) side ts [] (NoDup_btree_iter _)) as Hspec.
    destruct (cancel_walk _ _ _ _ _ _) as [[m1 s1] e1]. intros [= -> ->].
    destruct Hspec as (visited & rest & Hv & He & Hr). simpl in Hr. destruct e1 as [[]|].
    destruct Hr as [-> Hs]. rewrite app_nil_r in Hv. subst visited.
    split_and!; [exact Hs| |done|done]. destruct He. by constructor.
  - intros [= <- <-]. pose proof (needs_cancel_false m side Hwf Hn) as Hnc.
    split_and!; [| |done|done].
    + unfold active_ids. rewrite filter_none; [done|]. intros k. apply Hnc.
    + constructor; try done; intros k; destruct (Hnc k) as [-> Hi]; [by rewrite andb_false_r|].
      set_solver.
Qed.

(** Cancelling a side sends exactly one DELETE for each acknowledged live
    order of that side, in client-order-id order, and marks it [Cancelling]; it
    parks a cancel for each placement still unacknowledged; every other order
    and parked cancel is left alone; and asking again sends nothing and changes
    nothing. *)
Theorem cancel_orders_by_side_spec m side ts m' sigs :
  om_wf m → cancel_orders_by_side m side ts = (m', sigs) →
  sigs = map (delete_of m ts) (active_ids m side (btree_iter (dom (om_orders m))))
  ∧ (∀ k, om_orders m' !! k
          = if on_side LActive m side k
            then (λ o, o <| lo_status := LCancelling |>) <$> om_orders m !! k
            else om_orders m !! k)
  ∧ (∀ k, k ∈ om_intents m'
          ↔ (k ∈ om_intents m ∧ on_side LActive m side k = false)
            ∨ on_side LSubmitted m side k = true)
  ∧ ∀ ts', cancel_orders_by_side m' side ts' = (m', []).
Proof.
  intros Hwf H. destruct (cancel_side_unfold m side ts m' sigs Hwf H) as (Hs & He & Hwf' & _).
  assert (∀ k, on_side LActive m side k = true → k ∈ btree_iter (om_cancelable m)) as Ha
    by (intros k Hk; apply elem_of_btree_iter; by apply (on_side_cancelable LActive m side)).
  assert (∀ k, on_side LSubmitted m side k = true → k ∈ btree_iter (om_cancelable m)) as Hsub
    by (intros k Hk; apply elem_of_btree_iter; by apply (on_side_cancelable LSubmitted m side)).
  assert (Ho : ∀ k, om_orders m' !! k
    = if on_side LActive m side k then (λ o, o <| lo_status := LCancelling |>) <$> om_orders m !! k
      else om_orders m !! k).
  { intros k. rewrite (ve_orders _ _ _ _ He). destruct (on_side LActive m side k) eqn:Hk;
      [by rewrite bool_decide_eq_true_2 by auto|by rewrite andb_false_r]. }
  assert (Hi : ∀ k, k ∈ om_intents m'
    ↔ (k ∈ om_intents m ∧ on_side LActive m side k = false) ∨ on_side LSubmitted m side k = true).
  { intros k. rewrite (ve_intents _ _ _ _ He). specialize (Ha k). specialize (Hsub k).
    destruct (on_side LActive m side k), (on_side LSubmitted m side k); naive_solver. }
  split_and!; [done|done|done|].
  assert (Hon : ∀ st k, cancelable_status st = true → on_side st m' side k
    = on_side st m side k && negb (on_side LActive m side k)).
  { intros st k Hst. unfold on_side at 1 2. rewrite Ho.
    destruct (on_side LActive m side k) eqn:Hk; [|by rewrite andb_true_r].
    rewrite andb_false_r. destruct (om_orders m !! k) as [o|]; [|done]. simpl.
    rewrite bool_decide_eq_false_2, andb_false_r; [done|]. by intros <-. }
  intros ts'. destruct (cancel_orders_by_side m' side ts') as [m2 sigs2] eqn:E.
  destruct (cancel_side_unfold m' side ts' m2 sigs2 Hwf' E) as (-> & _ & _ & Hid).
  rewrite Hid; [unfold active_ids; rewrite filter_none; [done|]|apply needs_cancel_intro].
  - intros k. rewrite Hon by done. apply andb_negb_r.
  - intros k. rewrite Hon by done. apply andb_negb_r.
  - intros k. rewrite Hon, Hi by done. intros Hk. bool_hyps. by right.
Qed.

Definition sample_order (side : Side) (st : LocalOrderStatus) (c : string) : LocalOrder :=
  mkLocalOrder c "TOK" side (f64_dec 4 1) (f64_of_Z 5) st 0 ∅.

Definition om0 : OrderManager := new Polymarket "TOK" (f64_dec 1 3) "iid".

Definition om_two_bids : OrderManager :=
  inject_open_order (inject_open_order om0 "b" Buy (f64_dec 4 1) (f64_of_Z 5) 0)
    "a" Buy (f64_dec 4 1) (f64_of_Z 5) 0.

Lemma om_two_bids_wf : om_wf om_two_bids.
Proof. apply inject_open_order_wf, inject_open_order_wf, new_wf. Qed.

Lemma cancel_orders_by_side_spec_witness :
  (cancel_orders_by_side om_two_bids Buy 7).2
  = [delete_of om_two_bids 7 "a"; delete_of om_two_bids 7 "b"]
  ∧ ∀ ts', cancel_orders_by_side (cancel_orders_by_side om_two_bids Buy 7).1 Buy ts'
           = ((cancel_orders_by_side om_two_bids Buy 7).1, []).
Proof.
  destruct (cancel_orders_by_side_spec om_two_bids Buy 7
    (cancel_orders_by_side om_two_bids Buy 7).1 (cancel_orders_by_side om_two_bids Buy 7).2
    om_two_bids_wf (surjective_pairing _)) as (H1 & _ & _ & H2).
  split; [|exact H2]. rewrite H1. vm_compute. reflexivity.
Defined.

(** When the fixed output buffer of a cancellation overflows, the DELETEs
    that fitted are the first ones in client-order-id order, the error hands
    back the very next one, every later order is untouched and still indexed as
    cancelable, and the ledger invariant holds.  The order whose DELETE was
    handed back is already marked [Cancelling], so a later cancellation skips
    it. *)
Theorem cancel_overflow_spec cap m side ts m' sent rejected :
  om_wf m →
  cancel_orders_by_side_with (try_push cap) m side ts [] = (m', sent, Some rejected) →
  om_wf m'
  ∧ ∃ done_ids c later,
      active_ids m side (btree_iter (dom (om_orders m))) = done_ids ++ c :: later
      ∧ sent = map (delete_of m ts) done_ids ∧ rejected = delete_of m ts c
      ∧ on_side LCancelling m' side c = true
      ∧ ∀ k, k ∈ later → om_orders m' !! k = om_orders m !! k ∧ k ∈ om_cancelable m'.
Proof.
  intros Hwf H. pose proof (cancel_orders_by_side_with_wf (try_push cap) m side ts [] Hwf) as Hwf'.
  rewrite H in Hwf'. simpl in Hwf'. split; [done|].
  rewrite active_ids_cancelable by done.
  unfold cancel_orders_by_side_with in H. destruct (negb _); [done|].
  pose proof (cancel_walk_spec (try_push cap) _ (try_push_spec cap) (btree_iter (om_cancelable m))
    (m <| om_cancelable := ∅ |>) side ts [] (NoDup_btree_iter _)) as Hspec.
  rewrite H in Hspec. destruct Hspec as (visited & rest & Hv & He & sent' & c & -> & Hc & -> & Hs).
  simpl in Hs. pose proof (NoDup_btree_iter (om_cancelable m)) as Hnd.
  rewrite Hv, <- app_assoc in *. simpl in *. apply NoDup_app in Hnd as (_ & Hd & Hnd).
  exists (active_ids m side sent'), c, (active_ids m side rest). split_and!.
  - unfold active_ids. rewrite List.filter_app. simpl.
    change (on_side LActive m side c) with (on_side LActive (m <| om_cancelable := ∅ |>) side c).
    by rewrite Hc.
  - exact Hs.
  - done.
  - pose proof (ve_orders _ _ _ _ He c) as Ho. rewrite bool_decide_eq_true_2, Hc in Ho by set_solver.
    unfold on_side in *. cbn in *. destruct (om_orders m !! c) as [o|]; [|done].
    rewrite Ho. simpl. bool_hyps. by apply andb_true_iff.
  - intros k Hk. unfold active_ids in Hk. rewrite list_elem_of_In, filter_In in Hk.
    destruct Hk as [Hk%list_elem_of_In Ha].
    assert (om_orders m' !! k = om_orders m !! k) as Ho.
    { rewrite (ve_orders _ _ _ _ He). rewrite bool_decide_eq_false_2; [done|].
      intros [Hks|Hkc]%elem_of_app; [by apply (Hd k Hks); right|].
      apply list_elem_of_singleton in Hkc as ->. by apply NoDup_cons in Hnd as [? _]. }
    split; [done|]. apply (on_side_cancelable LActive m' side); [done|done|].
    by rewrite (on_side_ext LActive m m' side k Ho).
Qed.

Lemma cancel_overflow_spec_witness :
  ∃ c, (cancel_orders_by_side_with (try_push 1) om_two_bids Buy 7 []).2 = Some (delete_of om_two_bids 7 c)
       ∧ on_side LCancelling (cancel_orders_by_side_with (try_push 1) om_two_bids Buy 7 []).1.1 Buy c = true.
Proof.
  destruct (cancel_overflow_spec 1 om_two_bids Buy 7
    (cancel_orders_by_side_with (try_push 1) om_two_bids Buy 7 []).1.1
    [delete_of om_two_bids 7 "a"] (delete_of om_two_bids 7 "b") om_two_bids_wf)
    as (_ & d & c & later & _ & _ & Hr & Hc & _).
  - vm_compute. reflexivity.
  - exists c. split; [|exact Hc]. rewrite <- Hr. vm_compute. reflexivity.
Defined.

(** ** Histories of a manager *)

(** The operations a strategy performs; cancellations write to a buffer of the
    given capacity. *)
Inductive OmOp :=
  | OmUpdate (u : OrderUpdate)
  | OmDropped (coid : string)
  | OmCancelSide (capacity : nat) (side : Side) (ts : Z)
  | OmCancelAll (capacity : nat) (ts : Z)
  | OmReconcile (actions : list ReconcileAction) (ts : Z) (clock : Z → Z)
  | OmInject (coid : string) (side : Side) (price quantity : f64) (now_ns : Z).

(** The manager and the global counter afterwards, and the signals sent. *)
Definition apply_om (hash_values : gmap string f64 → list f64) (st : OrderManager * Z) (op : OmOp) :
    OrderManager * Z * list Signal :=
  let '(m, g) := st in
  match op with
  | OmUpdate u =>
      let '(m, s) := on_order_update hash_values m u in
      (m, g, match s with Some s => [s] | None => [] end)
  | OmDropped c => ((on_signal_dropped m c).1, g, [])
  | OmCancelSide cap side ts =>
      let '(m, sigs, _) := cancel_orders_by_side_with (try_push cap) m side ts [] in (m, g, sigs)
  | OmCancelAll cap ts =>
      let '(m, sigs, _) := cancel_all_with (try_push cap) m ts [] in (m, g, sigs)
  | OmReconcile actions ts clock => apply_reconcile m g clock actions ts
  | OmInject c side p q now => (inject_open_order m c side p q now, g, [])
  end.

Definition om_run (hash_values : gmap string f64 → list f64) (st : OrderManager * Z)
    (ops : list OmOp) : OrderManager * Z :=
  fold_left (λ st op, (apply_om hash_values st op).1) ops st.

Lemma apply_om_wf hash_values m g op :
  om_wf m → om_wf (apply_om hash_values (m, g) op).1.1.
Proof.
  intros Hwf. destruct op as [u|c|cap side ts|cap ts|actions ts clock|c side p q now]; simpl.
  - pose proof (on_order_update_wf hash_values m u Hwf) as H.
    by destruct (on_order_update hash_values m u).
  - by apply on_signal_dropped_wf.
  - pose proof (cancel_orders_by_side_with_wf (try_push cap) m side ts [] Hwf) as H.
    by destruct (cancel_orders_by_side_with _ _ _ _ _) as [[] ?].
  - pose proof (cancel_all_with_wf (try_push cap) m ts [] Hwf) as H.
    by destruct (cancel_all_with _ _ _ _) as [[] ?].
  - by apply apply_actions_wf.
  - by apply inject_open_order_wf.
Qed.

Lemma om_run_wf_from hash_values ops m g : om_wf m → om_wf (om_run hash_values (m, g) ops).1.
Proof.
  revert m g. induction ops as [|op ops IH]; intros m g Hwf; [done|].
  pose proof (apply_om_wf hash_values m g op Hwf) as H.
  change (om_run hash_values (m, g) (op :: ops))
    with (om_run hash_values (apply_om hash_values (m, g) op).1 ops).
  destruct (apply_om hash_values (m, g) op).1 as [m' g']. by apply IH.
Qed.

Lemma active_orders_spec m :
  om_wf m → ∀ o, o ∈ active_orders m ↔
  om_orders m !! lo_client_order_id o = Some o ∧ cancelable_status (lo_status o) = true.
Proof.
  intros Hwf o. unfold active_orders. rewrite list_elem_of_omap.
  setoid_rewrite elem_of_btree_iter. split.
  - intros (k & Hk & Ho). destruct (Hwf k) as ((Hc & _) & _ & Hkey).
    rewrite (Hkey o Ho). apply Hc in Hk as (o' & Ho' & Hs). simplify_eq. done.
  - intros [Ho Hs]. exists (lo_client_order_id o). split; [|done].
    destruct (Hwf (lo_client_order_id o)) as ((Hc & _) & _). apply Hc. by exists o.
Qed.

(** C5: After any history of updates, cancellations (also ones cut short by a
    full output buffer), dropped signals, reconcile decisions and injected
    orders, the compact indices agree with the ledger: the cancelable index is
    exactly the Submitted and Active orders, the live index adds the Cancelling
    ones, a parked cancel always belongs to an order that can still be
    cancelled, and the active-order query returns exactly those orders. *)
Theorem om_history_wf hash_values ops exchange symbol tick instance g :
  let m := (om_run hash_values (new exchange symbol tick instance, g) ops).1 in
  om_wf m
  ∧ ∀ o, o ∈ active_orders m ↔
         om_orders m !! lo_client_order_id o = Some o ∧ cancelable_status (lo_status o) = true.
Proof.
  cbv zeta. split; [apply om_run_wf_from, new_wf|].
  apply active_orders_spec, om_run_wf_from, new_wf.
Qed.

(** ** When a DELETE is sent *)

Definition deletes (c : string) (s : Signal) : bool :=
  match s with CancelOrder _ _ c' _ _ => String.eqb c c' | _ => false end.

Definition sends_delete (c : string) (sigs : list Signal) : Prop :=
  ∃ s, s ∈ sigs ∧ deletes c s = true.

Lemma deletes_delete_of c m ts k : deletes c (delete_of m ts k) = true ↔ c = k.
Proof. apply String.eqb_eq. Qed.

Definition has_active (m : OrderManager) (c : string) : Prop :=
  ∃ o, om_orders m !! c = Some o ∧ lo_status o = LActive.

Lemma on_side_active m side c : on_side LActive m side c = true → has_active m c.
Proof.
  unfold on_side. destruct (om_orders m !! c) as [o|] eqn:Ho; [|done]. intros H. bool_hyps.
  by exists o.
Qed.

Lemma sends_delete_app c l1 l2 :
  sends_delete c (l1 ++ l2) ↔ sends_delete c l1 ∨ sends_delete c l2.
Proof. unfold sends_delete. setoid_rewrite elem_of_app. naive_solver. Qed.

Lemma sends_delete_map c m ts ids : sends_delete c (map (delete_of m ts) ids) ↔ c ∈ ids.
Proof.
  unfold sends_delete. split.
  - intros (s & Hs & Hd). apply list_elem_of_In, in_map_iff in Hs as (k & <- & Hk).
    apply deletes_delete_of in Hd as ->. by apply list_elem_of_In.
  - intros Hc. exists (delete_of m ts c). split; [|by apply deletes_delete_of].
    apply list_elem_of_In, in_map. by apply list_elem_of_In.
Qed.

Lemma cancel_side_deletes cap m side ts acc c :
  let r := cancel_orders_by_side_with (try_push cap) m side ts acc in
  (sends_delete c r.1.2 → sends_delete c acc ∨ has_active m c)
  ∧ (has_active r.1.1 c → has_active m c).
Proof.
  cbv zeta. unfold cancel_orders_by_side_with. destruct (negb _); [by split; [left|]|].
  destruct (cancel_walk_spec (try_push cap) _ (try_push_spec cap) (btree_iter (om_cancelable m))
    (m <| om_cancelable := ∅ |>) side ts acc (NoDup_btree_iter _)) as (visited & rest & _ & He & Hr).
  set (r := cancel_walk _ _ _ _ _ _) in *. split.
  - assert (∃ ids, r.1.2 = acc ++ map (delete_of m ts) (active_ids m side ids)) as [ids ->].
    { destruct r.2 as [e|].
      - destruct Hr as (sent & d & _ & _ & _ & ->). by exists sent.
      - destruct Hr as [_ ->]. by exists visited. }
    rewrite sends_delete_app, sends_delete_map. intros [?|Hc]; [by left|right].
    apply list_elem_of_In, filter_In in Hc as [_ Hc]. by eapply on_side_active.
  - intros (o & Ho & Hs). rewrite (ve_orders _ _ _ _ He) in Ho. cbn in Ho.
    destruct (_ && _); [|by exists o]. destruct (om_orders m !! c); by simplify_eq/=.
Qed.

Lemma request_cancel_delete m c ts m' s :
  request_cancel m c ts = (m', s) →
  (∀ k, has_active m' k → has_active m k)
  ∧ match s with Some s => has_active m c ∧ s = delete_of m ts c | None => True end.
Proof.
  unfold request_cancel. destruct (om_orders m !! c) as [o|] eqn:Ho; [|by intros [= <- <-]].
  destruct (lo_status o) eqn:Hs; intros [= <- <-]; try done.
  - split; [|done]. intros k. unfold has_active, park_intent. by destruct (decide _).
  - destruct (reindex_fields (set_order (clear_intent m c) c (o <| lo_status := LCancelling |>)) c)
      as (Ho' & _ & He & Hi & _).
    split; [|split; [by exists o|]].
    + intros k (o' & Hk & Hs'). rewrite Ho' in Hk. cbn in Hk.
      destruct (decide (k = c)) as [->|]; [by rewrite lookup_insert_eq in Hk; simplify_eq/=|].
      rewrite lookup_insert_ne in Hk by done. by exists o'.
    + unfold delete_of, cancel_signal. by rewrite He, Hi.
Qed.

Lemma place_active_back m c o k :
  lo_status o ≠ LActive → has_active (reindex_order (set_order m c o) c) k → has_active m k.
Proof.
  intros Hs (o' & Hk & Hs'). destruct (reindex_fields (set_order m c o) c) as (Ho & _).
  rewrite Ho in Hk. cbn in Hk.
  destruct (decide (k = c)) as [->|]; [rewrite lookup_insert_eq in Hk; by simplify_eq|].
  rewrite lookup_insert_ne in Hk by done. by exists o'.
Qed.

Lemma actions_delete actions m g clock defer ts c :
  sends_delete c (apply_actions m g clock defer actions ts).2 → has_active m c.
Proof.
  revert m g. induction actions as [|[side p q ty po|k] actions IH]; intros m g; simpl.
  - intros (s & Hs & _). by apply not_elem_of_nil in Hs.
  - destruct (defer side); [apply IH|].
    match goal with |- context [apply_actions ?m' ?g' _ _ actions _] => specialize (IH m' g') end.
    destruct (apply_actions _ _ _ _ actions _) as [[m' g'] sigs]. simpl.
    intros (s & [->|Hs]%elem_of_cons & Hd); [done|].
    eapply place_active_back; [|apply IH; by exists s]. done.
  - destruct (request_cancel m k ts) as [m1 s1] eqn:Hrc.
    destruct (request_cancel_delete m k ts m1 s1 Hrc) as [Hback Hs1]. specialize (IH m1 g).
    destruct (apply_actions _ _ _ _ actions _) as [[m' g'] sigs]. simpl in *.
    destruct s1 as [s1|]; [|auto]. destruct Hs1 as [Ha ->].
    intros (s & [->|Hs]%elem_of_cons & Hd); [by apply deletes_delete_of in Hd as ->|].
    apply Hback, IH. by exists s.
Qed.

(** A DELETE is never sent for a placement the exchange has not yet
    acknowledged.  Whatever the operation, a DELETE for an order is sent only if
    the order was Active beforehand, or if the operation is the order's own
    update carrying authoritative evidence that the placement exists and a
    cancel had been parked for it. *)
Theorem delete_needs_ack hash_values m g op c :
  om_wf m →
  sends_delete c (apply_om hash_values (m, g) op).2 →
  has_active m c
  ∨ ∃ u, op = OmUpdate u ∧ ou_client_order_id u = c ∧ proves_placement u = true
         ∧ c ∈ om_intents m.
Proof.
  intros Hwf. destruct op as [u|k|cap side ts|cap ts|actions ts clock|k side p q now]; simpl.
  - set (k := ou_client_order_id u). destruct (on_order_update hash_values m u) as [m' s] eqn:Hu.
    simpl. destruct s as [s|]; [|by intros (s & Hs & _); apply not_elem_of_nil in Hs].
    intros (s' & Hs%list_elem_of_singleton & Hd). subst s'. right. exists u.
    destruct (om_orders m !! k) as [o|] eqn:Ho; [|by unfold on_order_update in Hu; fold k in Hu; rewrite Ho in Hu].
    destruct (order_transition hash_values o u) as [o' clear] eqn:Ht.
    rewrite (on_order_update_unfold hash_values m u o o' clear Ho Ht) in Hu. fold k in Hu.
    destruct (flush_cases (settle m k o' clear) u) as [[Hf _]|(Hev & Hin & [[_ Hf]|(o1 & _ & Hf)])];
      rewrite Hf in Hu; simplify_eq.
    apply (deletes_delete_of c _ (ou_timestamp_ns u) k) in Hd as ->.
    split_and!; try done. by apply settle_intents in Hin as [? _].
  - by intros (s & Hs & _); apply not_elem_of_nil in Hs.
  - destruct (cancel_side_deletes cap m side ts [] c) as [H _].
    destruct (cancel_orders_by_side_with _ _ _ _ _) as [[m' sigs] e]. simpl in *.
    intros [(s & Hs & _)|]%H; [by apply not_elem_of_nil in Hs|by left].
  - unfold cancel_all_with. destruct (cancel_side_deletes cap m Buy ts [] c) as [H1 H2].
    destruct (cancel_orders_by_side_with _ m Buy ts []) as [[m1 s1] [e|]]; simpl in *.
    + intros [(s & Hs & _)|]%H1; [by apply not_elem_of_nil in Hs|by left].
    + destruct (cancel_side_deletes cap m1 Sell ts s1 c) as [H3 _].
      destruct (cancel_orders_by_side_with _ m1 Sell ts s1) as [[m2 s2] e2]. simpl in *.
      intros [[(s & Hs & _)|]%H1|]%H3; [by apply not_elem_of_nil in Hs|by left|left; auto].
  - intros H. left. by apply actions_delete in H.
  - by intros (s & Hs & _); apply not_elem_of_nil in Hs.
Qed.

(** The iteration order used in concrete runs. *)
Definition some_order (m : gmap string f64) : list f64 := (map_to_list m).*2.

Lemma delete_needs_ack_witness :
  sends_delete "a" (apply_om some_order (om_two_bids, 0) (OmCancelSide 8 Buy 7)).2
  ∧ has_active om_two_bids "a".
Proof.
  assert (H : sends_delete "a" (apply_om some_order (om_two_bids, 0) (OmCancelSide 8 Buy 7)).2).
  { exists (delete_of om_two_bids 7 "a"). split; [vm_compute; left|vm_compute; reflexivity]. }
  split; [exact H|].
  destruct (delete_needs_ack some_order om_two_bids 0 (OmCancelSide 8 Buy 7) "a" om_two_bids_wf H)
    as [Ha|(u & Hu & _)]; [exact Ha|discriminate Hu].
Defined.

(** ** Terminal orders and late updates *)

Lemma on_fill_cancelled hash_values o u :
  lo_status o = LCancelled → live_status (lo_status (on_fill hash_values o u).1) = false.
Proof.
  intros Hs. unfold on_fill. rewrite bool_decide_eq_true_2 by done.
  destruct (ou_trade_id u); destruct (_ || _); cbn; by rewrite ?Hs.
Qed.

Lemma transition_cancelled hash_values o u o' clear :
  lo_status o = LCancelled → ou_status u ≠ Accepted →
  order_transition hash_values o u = (Some o', clear) → live_status (lo_status o') = false.
Proof.
  intros Hs Hne. unfold order_transition. pose proof (on_fill_cancelled hash_values o u Hs) as Hf.
  destruct (on_fill hash_values o u) as [o1 c1]. cbn in Hf.
  destruct (ou_status u); try done; try (intros [= <- <-]; cbn; by rewrite ?Hs).
  - destruct (private_trade u); [by intros [= <- <-]|done].
  - destruct (private_trade u); [|done]. intros [= <- <-].
    unfold on_failed_trade. cbn. rewrite Hs. cbn. by rewrite Hs.
Qed.

(** An order whose cancellation the exchange confirmed stays off the book:
    whatever late update arrives for it (fills, failed trades, timeouts, a
    second cancel result), it is not live afterwards and no DELETE is sent.
    The only exception is an acknowledgement of the placement, which proves the
    order landed after the cancel and makes it active again. *)
Theorem cancelled_stays_cancelled hash_values m u o :
  om_wf m → om_orders m !! ou_client_order_id u = Some o → lo_status o = LCancelled →
  let '(m', s) := on_order_update hash_values m u in
  if bool_decide (ou_status u = Accepted)
  then s = None ∧ has_active m' (ou_client_order_id u)
  else s = None ∧ ¬ has_status live_status m' (ou_client_order_id u)
       ∧ ou_client_order_id u ∉ om_live m'.
Proof.
  intros Hwf Ho Hs. set (c := ou_client_order_id u) in *.
  assert (c ∉ om_intents m) as Hni.
  { intros Hi. destruct (Hwf c) as (_ & Hok & _). destruct (Hok Hi) as (o1 & Ho1 & Hc).
    rewrite Ho in Ho1. simplify_eq. by rewrite Hs in Hc. }
  pose proof (on_order_update_wf hash_values m u Hwf) as Hwf'.
  destruct (order_transition hash_values o u) as [o' clear] eqn:Ht.
  rewrite (on_order_update_unfold hash_values m u o o' clear Ho Ht) in *. fold c in Hwf' |- *.
  assert (c ∉ om_intents (settle m c o' clear)) as Hni' by (by rewrite settle_intents; intros []).
  destruct (flush_cases (settle m c o' clear) u) as [[Hf _]|(_ & Hin & _)]; [|done].
  rewrite Hf in *. simpl in Hwf'.
  destruct (reindex_fields (settle m c o' clear) c) as (Hor & _).
  assert (om_orders (reindex_order (settle m c o' clear) c) !! c = o') as Hlook
    by (by rewrite Hor, settle_order).
  case_bool_decide as Ha.
  - split; [done|]. unfold order_transition in Ht. rewrite Ha, Hs in Ht. simplify_eq.
    eexists. split; [exact Hlook|done].
  - destruct (Hwf' c) as ((_ & Hl) & _). rewrite Hl.
    assert (¬ has_status live_status (reindex_order (settle m c o' clear) c) c) as Hnl; [|done].
    intros (o1 & Ho1 & Hlive). rewrite Hlook in Ho1. subst o'.
    by rewrite (transition_cancelled hash_values o u o1 clear Hs Ha Ht) in Hlive.
Qed.

Definition sample_update (c : string) (st : OrderStatus) (tid : option string) (filled : f64) :
    OrderUpdate :=
  mkOrderUpdate OrderSlot.UNASSIGNED c Polymarket "TOK" Buy None st None filled f64_zero
    (f64_dec 4 1) 9 None tid None None None.

Definition om_cancelled : OrderManager :=
  (on_order_update some_order om_two_bids (sample_update "a" Cancelled None f64_zero)).1.

Lemma cancelled_stays_cancelled_witness :
  "a" ∉ om_live (on_order_update some_order om_cancelled
                   (sample_update "a" PartiallyFilled (Some "t1") (f64_of_Z 2))).1.
Proof.
  pose proof (cancelled_stays_cancelled some_order om_cancelled
    (sample_update "a" PartiallyFilled (Some "t1") (f64_of_Z 2))
    (default (sample_order Buy LCancelled "a") (om_orders om_cancelled !! "a"))
    (on_order_update_wf some_order _ _ om_two_bids_wf)) as H.
  destruct (on_order_update some_order om_cancelled
    (sample_update "a" PartiallyFilled (Some "t1") (f64_of_Z 2))) as [m' s].
  destruct H as (_ & _ & H); [vm_compute; reflexivity|vm_compute; reflexivity|exact H].
Defined.

(** A fill that completes an order retires it at once.  If the trade-id
    keyed fills, with this update's trade recorded, cover the quantity up to the
    one-percent tolerance, then after the update the order is [Matched], is in
    neither live index, has no parked cancel, and no DELETE is sent, so nothing
    will try to cancel an order the venue has already matched. *)
Theorem covering_fill_retires_order hash_values m u o tid :
  om_wf m → om_orders m !! ou_client_order_id u = Some o →
  ou_status u = PartiallyFilled ∨ (ou_status u = Filled ∧ private_trade u = true) →
  ou_trade_id u = Some tid →
  fills_cover hash_values
    (o <| lo_filled_by_trade := <[tid := ou_filled_quantity u]> (lo_filled_by_trade o) |>) = true →
  let '(m', s) := on_order_update hash_values m u in
  s = None
  ∧ (∃ o', om_orders m' !! ou_client_order_id u = Some o' ∧ lo_status o' = LMatched)
  ∧ (ou_client_order_id u ∉ om_cancelable m') ∧ (ou_client_order_id u ∉ om_live m')
  ∧ (ou_client_order_id u ∉ om_intents m').
Proof.
  intros Hwf Ho Hst Htid Hcov. set (c := ou_client_order_id u) in *.
  pose proof (on_order_update_wf hash_values m u Hwf) as Hwf'.
  assert (∃ o', order_transition hash_values o u = (Some o', true) ∧ lo_status o' = LMatched)
    as (o' & Ht & Hm).
  { assert (order_transition hash_values o u
      = let '(o1, clear) := on_fill hash_values o u in (Some o1, clear)) as ->.
    { unfold order_transition. destruct Hst as [->|[-> ->]]; done. }
    unfold on_fill. rewrite Htid.
    assert (∀ o1, lo_quantity o1 = lo_quantity o → lo_filled_by_trade o1 = lo_filled_by_trade o →
      fills_cover hash_values (o1 <| lo_filled_by_trade :=
        <[tid := ou_filled_quantity u]> (lo_filled_by_trade o1) |>) = true) as Hc.
    { intros o1 Hq Hf. unfold fills_cover, cumulative in *. cbn in *. by rewrite Hq, Hf. }
    rewrite Hc by (by destruct (bool_decide _)). eauto. }
  rewrite (on_order_update_unfold hash_values m u o (Some o') true Ho Ht) in *. fold c in Hwf' |- *.
  assert (c ∉ om_intents (settle m c (Some o') true)) as Hni'.
  { rewrite settle_intents. intros [_ Hx]. by apply Hx. }
  destruct (flush_cases (settle m c (Some o') true) u) as [[Hf _]|(_ & Hin & _)]; [|done].
  rewrite Hf in *. simpl in Hwf'.
  destruct (reindex_fields (settle m c (Some o') true) c) as (Hor & Hin & _).
  assert (om_orders (reindex_order (settle m c (Some o') true) c) !! c = Some o') as Hlook
    by (by rewrite Hor, settle_order).
  destruct (Hwf' c) as ((Hc & Hl) & _).
  rewrite Hc, Hl, Hin, !(has_status_Some _ _ _ _ Hlook), Hm. by eauto 10.
Qed.

Lemma covering_fill_retires_order_witness :
  "a" ∉ om_live (on_order_update some_order om_two_bids
                   (sample_update "a" PartiallyFilled (Some "t1") (f64_of_Z 5))).1.
Proof.
  pose proof (covering_fill_retires_order some_order om_two_bids
    (sample_update "a" PartiallyFilled (Some "t1") (f64_of_Z 5))
    (sample_order Buy LActive "a") "t1" om_two_bids_wf) as H.
  destruct (on_order_update some_order om_two_bids
    (sample_update "a" PartiallyFilled (Some "t1") (f64_of_Z 5))) as [m' s].
  destruct H as (_ & _ & _ & H & _);
    [vm_compute; reflexivity|left; reflexivity|reflexivity|vm_compute; reflexivity|exact H].
Defined.

(** A cancel request the executor dropped is not forgotten: the order is
    put back in the Active set and the next cancellation of its side sends its
    DELETE again.  A dropped placement is removed, together with any cancel
    parked for it; any other order is left as it was. *)
Theorem dropped_signal_recovers m c m' outcome :
  om_wf m → on_signal_dropped m c = (m', outcome) →
  om_wf m'
  ∧ match outcome with
    | CancelReverted =>
        ∃ o, om_orders m !! c = Some o ∧ lo_status o = LCancelling
             ∧ has_active m' c
             ∧ ∀ ts, sends_delete c (cancel_orders_by_side m' (lo_side o) ts).2
    | PlaceRemoved =>
        (∃ o, om_orders m !! c = Some o ∧ lo_status o = LSubmitted)
        ∧ om_orders m' !! c = None ∧ (c ∉ om_intents m') ∧ (c ∉ om_live m')
    | NotTracked => om_orders m' = om_orders m ∧ om_intents m' = om_intents m
    end.
Proof.
  intros Hwf H. pose proof (on_signal_dropped_wf m c Hwf) as Hwf'. rewrite H in Hwf'.
  split; [done|]. simpl in Hwf'. unfold on_signal_dropped in H.
  destruct (om_orders m !! c) as [o|] eqn:Ho; [destruct (lo_status o) eqn:Hs|];
    injection H as H <-;
    match type of H with reindex_order ?a c = _ => destruct (reindex_fields a c) as (Hor & Hin & _) end;
    rewrite H in Hor, Hin; try (split; [exact Hor|exact Hin]).
  - cbn in Hor, Hin. assert (om_orders m' !! c = None) as Hn by (by rewrite Hor, lookup_delete_eq).
    split_and!; [by exists o|done|rewrite Hin; set_solver|].
    destruct (Hwf' c) as ((_ & Hl) & _). rewrite Hl. by intros (? & ? & _); congruence.
  - cbn in Hor. assert (om_orders m' !! c = Some (o <| lo_status := LActive |>)) as Hn
      by (by rewrite Hor, lookup_insert_eq).
    exists o. split_and!; [done|done|by eexists|]. intros ts.
    destruct (cancel_orders_by_side m' (lo_side o) ts) as [m2 sigs] eqn:E.
    apply cancel_side_unfold in E as (-> & _); [|done].
    apply sends_delete_map, list_elem_of_In, filter_In.
    assert (on_side LActive m' (lo_side o) c = true) as Ha.
    { unfold on_side. rewrite Hn. cbn. unfold side_eqb. by rewrite !bool_decide_eq_true_2. }
    split; [|done]. apply list_elem_of_In, elem_of_btree_iter, (on_side_tracked _ _ _ _ Ha).
Qed.

Definition om_cancelling : OrderManager := (cancel_orders_by_side om_two_bids Buy 7).1.

Lemma om_cancelling_wf : om_wf om_cancelling.
Proof.
  destruct (cancel_orders_by_side om_two_bids Buy 7) as [m s] eqn:E.
  destruct (cancel_side_unfold om_two_bids Buy 7 m s om_two_bids_wf E) as (_ & _ & H & _).
  unfold om_cancelling. by rewrite E.
Qed.

Lemma dropped_signal_recovers_witness :
  sends_delete "a" (cancel_orders_by_side (on_signal_dropped om_cancelling "a").1 Buy 7).2.
Proof.
  destruct (dropped_signal_recovers om_cancelling "a" (on_signal_dropped om_cancelling "a").1
    CancelReverted om_cancelling_wf) as [_ (o & Ho & _ & _ & H)].
  - vm_compute. reflexivity.
  - assert (Hside : lo_side o = Buy).
    { vm_compute in Ho. injection Ho as <-. reflexivity. }
    rewrite Hside in H. exact (H 7).
Defined.

(** ** Reopening a matched order *)

(** The order history: a whole-order fill report without a trade id retires the
    order, then the first trade push of that fill arrives. *)
Definition reopen_history : list OmOp :=
  [OmInject "x" Buy (f64_dec 4 1) (f64_of_Z 5) 0;
   OmUpdate (sample_update "x" PartiallyFilled None (f64_of_Z 5));
   OmUpdate (sample_update "x" PartiallyFilled (Some "t1") (f64_of_Z 2))].

Definition status_of (m : OrderManager) (c : string) : option LocalOrderStatus :=
  lo_status <$> om_orders m !! c.

(** A fully matched order can be reopened without any failed trade: after a
    fill report without trade id has retired the order, a partial fill with a
    trade id makes it Active again, and the next cancellation sends a DELETE for
    it.  (A comment in the source says only a failed trade reopens it.) *)
Theorem matched_reopened_by_partial_fill :
  status_of (om_run some_order (om0, 0) (take 2 reopen_history)).1 "x" = Some LMatched
  ∧ status_of (om_run some_order (om0, 0) reopen_history).1 "x" = Some LActive
  ∧ (cancel_orders_by_side (om_run some_order (om0, 0) reopen_history).1 Buy 20).2
    = [delete_of om0 20 "x"].
Proof. vm_compute. done. Qed.

(** ** Applying reconcile decisions *)

(** The id the [n]-th order of the process gets from this manager. *)
Definition id_of (m : OrderManager) (n : Z) : string := (next_id m n).1.

Lemma id_of_inj m a b : 0 ≤ a → 0 ≤ b → id_of m a = id_of m b → a = b.
Proof.
  intros Ha Hb. unfold id_of, next_id. simpl.
  destruct (om_coid_prefix m && _); intros H.
  - apply (inj (String.append (om_instance_id m))), (inj (String.append "-")), (inj pretty) in H. lia.
  - apply (inj pretty) in H. lia.
Qed.

Lemma id_of_ext m m' n :
  om_coid_prefix m' = om_coid_prefix m → om_instance_id m' = om_instance_id m →
  id_of m' n = id_of m n.
Proof. intros Hp Hi. unfold id_of, next_id. by rewrite Hp, Hi. Qed.

(** No tracked order carries an id the counter has yet to give out. *)
Definition fresh_from (m : OrderManager) (g : Z) : Prop :=
  ∀ n, g ≤ n → om_orders m !! id_of m n = None.

(** The placements that are not deferred. *)
Definition placed (defer : Side → bool) (actions : list ReconcileAction) : list ReconcileAction :=
  List.filter (λ a, match a with Place side _ _ _ _ => negb (defer side) | _ => false end) actions.

(** A new-order signal and the decision it carries out. *)
Definition request_of (m : OrderManager) (ts : Z) (n : Z) (a : ReconcileAction) : option Signal :=
  match a with
  | Place side price quantity ty po =>
      Some (NewOrder (new_order_request m (id_of m n) side price quantity ty po ts))
  | CancelAction _ => None
  end.

Fixpoint requests_from (m : OrderManager) (ts n : Z) (l : list ReconcileAction) :
    list (option Signal) :=
  match l with
  | [] => []
  | a :: l => request_of m ts n a :: requests_from m ts (n + 1) l
  end.

Definition is_new_order (s : Signal) : bool := match s with NewOrder _ => true | _ => false end.

(** [m'] has the configuration of [m], and still tracks its orders. *)
Record extends (m m' : OrderManager) : Prop := {
  ex_orders : ∀ k o, om_orders m !! k = Some o →
              ∃ o', om_orders m' !! k = Some o' ∧ same_terms o o';
  ex_exchange : om_exchange m' = om_exchange m;
  ex_symbol : om_symbol m' = om_symbol m;
  ex_instance : om_instance_id m' = om_instance_id m;
  ex_prefix : om_coid_prefix m' = om_coid_prefix m;
  ex_fee : om_fee_rate_bps m' = om_fee_rate_bps m }.

Lemma extends_trans m1 m2 m3 : extends m1 m2 → extends m2 m3 → extends m1 m3.
Proof.
  intros [O1 E1 S1 I1 P1 F1] [O2 E2 S2 I2 P2 F2]. constructor; try congruence.
  intros k o (o1 & Ho1 & (? & ? & ? & ? & ?))%O1. apply O2 in Ho1 as (o2 & Ho2 & (? & ? & ? & ? & ?)).
  exists o2. split; [done|]. unfold same_terms. split_and!; congruence.
Qed.

Lemma extends_requests m m' ts n l :
  extends m m' → requests_from m' ts n l = requests_from m ts n l.
Proof.
  intros [_ He Hs Hi Hp Hf]. revert n. induction l as [|a l IH]; intros n; simpl; [done|].
  rewrite IH. f_equal. destruct a as [side p q ty po|]; simpl; [|done].
  unfold new_order_request. by rewrite (id_of_ext m m' n Hp Hi), He, Hs, Hi, Hf.
Qed.

Lemma reindex_extends m c : extends m (reindex_order m c).
Proof.
  unfold reindex_order. destruct (om_orders m !! c); constructor; cbn; try done;
    intros k o' Hk; exists o'; by split.
Qed.

Lemma set_new_extends m c o :
  om_orders m !! c = None → extends m (reindex_order (set_order m c o) c).
Proof.
  intros Hn. eapply extends_trans; [|apply reindex_extends]. constructor; try done.
  intros k o' Hk. exists o'. cbn. rewrite lookup_insert_ne; [by split|]. congruence.
Qed.

Lemma request_cancel_extends m c ts : extends m (request_cancel m c ts).1.
Proof.
  assert (extends m m) as Hrefl by (constructor; try done; intros k o Hk; exists o; by split).
  unfold request_cancel. destruct (om_orders m !! c) as [o|] eqn:Ho; [|done].
  destruct (lo_status o); try done; simpl.
  - unfold park_intent. destruct (decide _); [done|]. destruct Hrefl. by constructor.
  - eapply extends_trans; [|apply reindex_extends]. constructor; try done. cbn.
    intros k o' Hk. destruct (decide (k = c)) as [->|]; simplify_eq.
    + rewrite lookup_insert_eq. eexists. split; [done|]. done.
    + rewrite lookup_insert_ne by done. exists o'. by split.
Qed.

Lemma request_cancel_fresh m c ts g : fresh_from m g → fresh_from (request_cancel m c ts).1 g.
Proof.
  intros Hf n Hn. pose proof (request_cancel_extends m c ts) as [_ _ _ Hi Hp _].
  rewrite (id_of_ext m _ n Hp Hi). unfold request_cancel.
  destruct (om_orders m !! c) as [o|] eqn:Ho; [|by apply Hf].
  destruct (lo_status o); simpl; try by apply Hf.
  - unfold park_intent. destruct (decide _); by apply Hf.
  - match goal with |- context [reindex_order ?a c] => destruct (reindex_fields a c) as (-> & _) end.
    cbn. rewrite lookup_insert_ne; [by apply Hf|]. intros Heq. specialize (Hf n Hn).
    change (c = id_of m n) in Heq. congruence.
Qed.

Lemma place_fresh m g o :
  0 ≤ g → fresh_from m g →
  fresh_from (reindex_order (set_order m (id_of m g) o) (id_of m g)) (g + 1).
Proof.
  intros Hg Hf n Hn. destruct (reindex_fields (set_order m (id_of m g) o) (id_of m g))
    as (-> & _ & _ & Hi & Hp).
  rewrite (id_of_ext m _ n Hp Hi). cbn. rewrite lookup_insert_ne; [apply Hf; lia|].
  intros Heq%id_of_inj; lia.
Qed.

Lemma apply_actions_places actions m g clock defer ts :
  0 ≤ g → g + Z.of_nat (length actions) < 2 ^ 64 → fresh_from m g →
  let '(m', g', sigs) := apply_actions m g clock defer actions ts in
  map Some (List.filter is_new_order sigs) = requests_from m ts g (placed defer actions)
  ∧ g' = g + Z.of_nat (length (placed defer actions))
  ∧ extends m m'.
Proof.
  revert m g. induction actions as [|[side p q ty po|c] actions IH]; intros m g Hg Hmax Hf; simpl.
  - split_and!; [done|lia|]. constructor; try done. intros k o Hk. exists o. by split.
  - simpl in Hmax. destruct (defer side) eqn:Hd; simpl; [apply IH; [done|lia|done]|].
    set (o := mkLocalOrder _ _ _ _ _ _ _ _). set (m1 := reindex_order (set_order m _ o) _).
    assert (g +w 1 = g + 1) as -> by (unfold wrapping_add; apply Z.mod_small; lia).
    assert (extends m m1) as Hext by (apply set_new_extends, Hf; lia).
    specialize (IH m1 (g + 1) ltac:(lia) ltac:(lia) (place_fresh m g o Hg Hf)).
    destruct (apply_actions m1 (g + 1) clock defer actions ts) as [[m' g'] sigs].
    destruct IH as (Hr & -> & Hext'). split_and!; [|lia|by eapply extends_trans].
    simpl. rewrite Hr, (extends_requests m m1) by done. f_equal. f_equal.
    destruct Hext as [_ He Hs Hi _ Hfee]. unfold new_order_request. by rewrite He, Hs, Hi, Hfee.
  - simpl in Hmax. destruct (request_cancel m c ts) as [m1 s] eqn:Hrc.
    pose proof (request_cancel_extends m c ts) as Hext.
    pose proof (request_cancel_fresh m c ts g Hf) as Hf1.
    destruct (request_cancel_delete m c ts m1 s Hrc) as [_ Hs]. rewrite Hrc in Hext, Hf1. simpl in *.
    specialize (IH m1 g Hg ltac:(lia) Hf1).
    destruct (apply_actions m1 g clock defer actions ts) as [[m' g'] sigs].
    destruct IH as (Hr & -> & Hext'). split_and!; [|done|by eapply extends_trans].
    rewrite <- (extends_requests m m1), <- Hr by done.
    destruct s as [s|]; [|done]. by destruct Hs as [_ ->].
Qed.

(** Applying reconcile decisions places exactly the decided orders, in
    order, each under the next id of the process-wide counter, except that a
    placement waits when an unacknowledged order of its side is being cancelled
    in the same batch; and no existing order is overwritten: as long as the
    counter is ahead of every tracked id, each tracked order is still there
    afterwards with its identity, side, price and quantity. *)
Theorem reconcile_places_exactly m g clock actions ts :
  0 ≤ g → g + Z.of_nat (length actions) < 2 ^ 64 → fresh_from m g →
  let '(m', g', sigs) := apply_reconcile m g clock actions ts in
  let todo := placed (defer_place m actions) actions in
  map Some (List.filter is_new_order sigs) = requests_from m ts g todo
  ∧ g' = g + Z.of_nat (length todo)
  ∧ ∀ k o, om_orders m !! k = Some o → ∃ o', om_orders m' !! k = Some o' ∧ same_terms o o'.
Proof.
  intros Hg Hmax Hf. unfold apply_reconcile.
  pose proof (apply_actions_places actions m g clock (defer_place m actions) ts Hg Hmax Hf) as H.
  destruct (apply_actions _ _ _ _ _ _) as [[m' g'] sigs]. destruct H as (? & ? & []). auto.
Qed.

Lemma reconcile_places_exactly_witness :
  (apply_reconcile om0 41 (λ _, 0)
     [CancelAction "a"; Place Sell (f64_dec 6 1) (f64_of_Z 5) Limit true] 9).1.2 = 42.
Proof.
  pose proof (reconcile_places_exactly om0 41 (λ _, 0)
    [CancelAction "a"; Place Sell (f64_dec 6 1) (f64_of_Z 5) Limit true] 9) as H.
  destruct (apply_reconcile _ _ _ _ _) as [[m' g'] sigs].
  destruct H as (_ & H & _); [lia|vm_compute; reflexivity|intros n Hn; reflexivity|].
  rewrite H. vm_compute. reflexivity.
Defined.
