(* ===== verification/Orderbook.v ===== *)
(** * The market-data cache

    [OrderbookManager] (hexagent-account/src/account/orderbook.rs): the latest
    full book, best-bid/ask quote and scalar top of book per symbol, and the
    "nudges" that hold a top of book inferred from a rejected post-only order
    against snapshots the venue generated before the move.

    Proved: a rejected update changes nothing and an accepted one is what is read
    back; cached timestamps never go back; the top of book that is reported comes
    from one source, the newest, and is never crossed; a nudge binds the reported
    top until market data later than the hold arrives. *)

From S2P Require Import Prelude F64 Types.

Definition MAX_EXCHANGE_FUTURE_SKEW_NS : Z := 2000000000.
Definition NUDGE_MIN_HOLD_NS : Z := 500000000.

Definition timestamp_too_far_in_future (exchange_timestamp_ns local_timestamp_ns : Z) : bool :=
  ((0 <? exchange_timestamp_ns) && (local_timestamp_ns =? 0))
  || ((0 <? local_timestamp_ns)
      && (local_timestamp_ns +s MAX_EXCHANGE_FUTURE_SKEW_NS <? exchange_timestamp_ns)).

Definition valid_price (exchange : Exchange) (price : f64) : bool :=
  is_finite price && (price >? f64_zero)%f64
  && (bool_decide (exchange ≠ Polymarket) || (price <? f64_one)%f64).

Definition valid_level (exchange : Exchange) (level : PriceLevel) : bool :=
  valid_price exchange (pl_price level)
  && is_finite (pl_quantity level) && (pl_quantity level >? f64_zero)%f64.

(** [Iterator::reduce] *)
Definition reduce {A} (f : A → A → A) (l : list A) : option A :=
  match l with [] => None | x :: l => Some (fold_left f l x) end.

Definition crossed (bid ask : option f64) : bool :=
  match bid, ask with Some bid, Some ask => (bid >=? ask)%f64 | _, _ => false end.

Definition orderbook_values_are_semantically_valid (ob : OrderBookSnapshot) : bool :=
  if blank (ob_symbol ob)
     || negb (forallb (valid_level (ob_exchange ob)) (ob_bids ob ++ ob_asks ob))
  then false
  else
    let best_bid := reduce f64_max (pl_price <$> ob_bids ob) in
    let best_ask := reduce f64_min (pl_price <$> ob_asks ob) in
    negb (crossed best_bid best_ask).

Definition quote_values_are_semantically_valid (quote : QuoteTick) : bool :=
  negb (blank (qt_symbol quote))
  && valid_price (qt_exchange quote) (qt_bid_price quote)
  && valid_price (qt_exchange quote) (qt_ask_price quote)
  && (qt_bid_price quote <? qt_ask_price quote)%f64
  && is_finite (qt_bid_qty quote) && (qt_bid_qty quote >=? f64_zero)%f64
  && is_finite (qt_ask_qty quote) && (qt_ask_qty quote >=? f64_zero)%f64.

Record Nudge := mkNudge { nudge_price : f64; created_ns : Z }.

Record L1Snapshot := mkL1 {
  l1_bid_price : option f64;
  l1_ask_price : option f64;
  l1_exchange_timestamp_ns : Z }.

Record OrderbookManager := mkManager {
  books : gmap string OrderBookSnapshot;
  quotes : gmap string QuoteTick;
  l1 : gmap string L1Snapshot;
  bid_nudges : gmap string Nudge;
  ask_nudges : gmap string Nudge }.

Definition new : OrderbookManager := mkManager ∅ ∅ ∅ ∅ ∅.

(** A nudge is dropped by market data later than its hold; the addition is the
    plain one of the source, which wraps. *)
Definition clear_nudge (nudges : gmap string Nudge) (symbol : string) (exchange_timestamp_ns : Z) :
    gmap string Nudge :=
  match nudges !! symbol with
  | Some n => if created_ns n +w NUDGE_MIN_HOLD_NS <? exchange_timestamp_ns
              then delete symbol nudges else nudges
  | None => nudges
  end.

Definition clear_nudges_after_market_update (self : OrderbookManager) (symbol : string)
    (exchange_timestamp_ns : Z) : OrderbookManager :=
  self <| bid_nudges := clear_nudge (bid_nudges self) symbol exchange_timestamp_ns |>
       <| ask_nudges := clear_nudge (ask_nudges self) symbol exchange_timestamp_ns |>.

(** [is_some_and(|existing| existing.exchange_timestamp_ns > ts)] *)
Definition newer_cached {A} (ts_of : A → Z) (cache : gmap string A) (symbol : string) (ts : Z) : bool :=
  match cache !! symbol with Some existing => ts <? ts_of existing | None => false end.

Definition update (self : OrderbookManager) (ob : OrderBookSnapshot) : OrderbookManager * bool :=
  if negb (orderbook_values_are_semantically_valid ob) then (self, false)
  else if timestamp_too_far_in_future (ob_exchange_timestamp_ns ob) (ob_local_timestamp_ns ob)
  then (self, false)
  else if newer_cached ob_exchange_timestamp_ns (books self) (ob_symbol ob) (ob_exchange_timestamp_ns ob)
  then (self, false)
  else
    let self := clear_nudges_after_market_update self (ob_symbol ob) (ob_exchange_timestamp_ns ob) in
    match books self !! ob_symbol ob with
    | Some existing =>
        let existing := existing <| ob_exchange := ob_exchange ob |> <| ob_bids := ob_bids ob |>
          <| ob_asks := ob_asks ob |> <| ob_exchange_timestamp_ns := ob_exchange_timestamp_ns ob |>
          <| ob_local_timestamp_ns := ob_local_timestamp_ns ob |> in
        (self <| books := <[ob_symbol ob := existing]> (books self) |>, true)
    | None => (self <| books := <[ob_symbol ob := ob]> (books self) |>, true)
    end.

Definition update_quote (self : OrderbookManager) (quote : QuoteTick) : OrderbookManager * bool :=
  if negb (quote_values_are_semantically_valid quote) then (self, false)
  else if timestamp_too_far_in_future (qt_exchange_timestamp_ns quote) (qt_local_timestamp_ns quote)
  then (self, false)
  else if newer_cached qt_exchange_timestamp_ns (quotes self) (qt_symbol quote)
            (qt_exchange_timestamp_ns quote)
  then (self, false)
  else
    let self := clear_nudges_after_market_update self (qt_symbol quote) (qt_exchange_timestamp_ns quote) in
    (self <| quotes := <[qt_symbol quote := quote]> (quotes self) |>, true).

Definition update_l1_fields (self : OrderbookManager) (exchange : Exchange) (symbol : string)
    (bid_price ask_price : option f64) (exchange_timestamp_ns local_timestamp_ns : Z) :
    OrderbookManager * bool :=
  if blank symbol
     || match bid_price with Some price => negb (valid_price exchange price) | None => false end
     || match ask_price with Some price => negb (valid_price exchange price) | None => false end
     || crossed bid_price ask_price
     || timestamp_too_far_in_future exchange_timestamp_ns local_timestamp_ns
  then (self, false)
  else if newer_cached l1_exchange_timestamp_ns (l1 self) symbol exchange_timestamp_ns
  then (self, false)
  else
    let self := clear_nudges_after_market_update self symbol exchange_timestamp_ns in
    let next := mkL1 bid_price ask_price exchange_timestamp_ns in
    (self <| l1 := <[symbol := next]> (l1 self) |>, true).

Definition get (self : OrderbookManager) (symbol : string) : option OrderBookSnapshot :=
  books self !! symbol.

(** [[a, b, c].into_iter().flatten().max()] *)
Definition newest_of (l : list (option Z)) : option Z := reduce Z.max (omap id l).

Definition raw_l1 (self : OrderbookManager) (symbol : string) :
    option f64 * option f64 * option Z :=
  let book := books self !! symbol in
  let quote := quotes self !! symbol in
  let scalar := l1 self !! symbol in
  let book_ts := ob_exchange_timestamp_ns <$> book in
  let quote_ts := qt_exchange_timestamp_ns <$> quote in
  let scalar_ts := l1_exchange_timestamp_ns <$> scalar in
  match newest_of [book_ts; quote_ts; scalar_ts] with
  | None => (None, None, None)
  | Some newest_ts =>
      let from_book :=
        match book with
        | Some b => (pl_price <$> best_bid b, pl_price <$> best_ask b, Some (ob_exchange_timestamp_ns b))
        | None => (None, None, None)
        end in
      let from_quote :=
        match quote with
        | Some q => if qt_exchange_timestamp_ns q =? newest_ts
                    then (Some (qt_bid_price q), Some (qt_ask_price q), Some (qt_exchange_timestamp_ns q))
                    else from_book
        | None => from_book
        end in
      match scalar with
      | Some s => if l1_exchange_timestamp_ns s =? newest_ts
                  then (l1_bid_price s, l1_ask_price s, Some (l1_exchange_timestamp_ns s))
                  else from_quote
      | None => from_quote
      end
  end.

Definition l1_timestamp_ns (self : OrderbookManager) (symbol : string) : option Z :=
  snd (raw_l1 self symbol).

(** The cached bound combined with the nudge. *)
Definition clamp_by (f : f64 → f64 → f64) (cached : option f64) (nudge : option Nudge) : option f64 :=
  match cached, nudge_price <$> nudge with
  | Some b, Some n => Some (f b n)
  | Some b, None => Some b
  | None, Some n => Some n
  | None, None => None
  end.

Definition best_bid_price (self : OrderbookManager) (symbol : string) : option f64 :=
  clamp_by f64_max (fst (fst (raw_l1 self symbol))) (bid_nudges self !! symbol).

Definition best_ask_price (self : OrderbookManager) (symbol : string) : option f64 :=
  clamp_by f64_min (snd (fst (raw_l1 self symbol))) (ask_nudges self !! symbol).

Definition mid_price (self : OrderbookManager) (symbol : string) : option f64 :=
  match raw_l1 self symbol with
  | (Some bid, Some ask, _) => Some ((bid + ask) / f64_of_Z 2)%f64
  | _ => None
  end.

Definition spread (self : OrderbookManager) (symbol : string) : option f64 :=
  match raw_l1 self symbol with
  | (Some bid, Some ask, _) => Some (ask - bid)%f64
  | _ => None
  end.

Definition nudge_inferred_top (self : OrderbookManager) (symbol : string) (side : Side)
    (price : f64) (now_ns : Z) : OrderbookManager * bool :=
  match side with
  | Sell =>
      let book_bid := default f64_zero (fst (fst (raw_l1 self symbol))) in
      let cur := match bid_nudges self !! symbol with
                 | Some n => f64_max book_bid (nudge_price n)
                 | None => book_bid
                 end in
      if (price >? cur)%f64
      then (self <| bid_nudges := <[symbol := mkNudge price now_ns]> (bid_nudges self) |>, true)
      else (self, false)
  | Buy =>
      let book_ask := default f64_infinity (snd (fst (raw_l1 self symbol))) in
      let cur := match ask_nudges self !! symbol with
                 | Some n => f64_min book_ask (nudge_price n)
                 | None => book_ask
                 end in
      if (price <? cur)%f64
      then (self <| ask_nudges := <[symbol := mkNudge price now_ns]> (ask_nudges self) |>, true)
      else (self, false)
  end.

(** ** Histories *)

Inductive BookOp :=
| OpUpdate (ob : OrderBookSnapshot)
| OpQuote (quote : QuoteTick)
| OpL1 (exchange : Exchange) (symbol : string) (bid ask : option f64) (ts local_ts : Z)
| OpNudge (symbol : string) (side : Side) (price : f64) (now_ns : Z).

Definition apply_op (m : OrderbookManager) (op : BookOp) : OrderbookManager * bool :=
  match op with
  | OpUpdate ob => update m ob
  | OpQuote quote => update_quote m quote
  | OpL1 e sym bid ask ts local_ts => update_l1_fields m e sym bid ask ts local_ts
  | OpNudge sym side price now_ns => nudge_inferred_top m sym side price now_ns
  end.

Definition run (m : OrderbookManager) (ops : list BookOp) : OrderbookManager :=
  fold_left (λ m op, fst (apply_op m op)) ops m.

(** ** Lemmas *)

Definition price_ok (p : f64) : Prop := is_finite p = true ∧ f64_lt f64_zero p = true.

Lemma valid_price_ok e p : valid_price e p = true → price_ok p.
Proof. unfold valid_price. intros H. bool_hyps. by split. Qed.

(** The two sides of a top of book: usable prices, and not crossed. *)
Definition top_ok (bid ask : option f64) : Prop :=
  (∀ p, bid = Some p → price_ok p) ∧ (∀ p, ask = Some p → price_ok p)
  ∧ ∀ b a, bid = Some b → ask = Some a → f64_lt b a = true.

Lemma not_crossed b a :
  price_ok b → price_ok a → crossed (Some b) (Some a) = false → f64_lt b a = true.
Proof. unfold crossed, price_ok. intros [? _] [? _] ?. float_order. Qed.

Lemma reduce_max_ge l m y :
  Forall (λ p, is_nan p = false) l → reduce f64_max l = Some m → y ∈ l → f64_le y m = true.
Proof.
  destruct l as [|x l]; [done|]. intros [Hx Hl]%Forall_cons [= <-].
  apply (fold_select (λ p, is_nan p = false) (λ a b, f64_le a b = true) f64_max);
    eauto using f64_max_cases, f64_le_trans with hex.
Qed.

Lemma reduce_min_le l m y :
  Forall (λ p, is_nan p = false) l → reduce f64_min l = Some m → y ∈ l → f64_le m y = true.
Proof.
  destruct l as [|x l]; [done|]. intros [Hx Hl]%Forall_cons [= <-].
  apply (fold_select (λ p, is_nan p = false) (λ a b, f64_le b a = true) f64_min);
    eauto using f64_min_cases, f64_le_trans with hex.
Qed.

Lemma reduce_Some {A} (f : A → A → A) l y : y ∈ l → is_Some (reduce f l).
Proof. destruct l; [by intros ?%not_elem_of_nil|by eexists]. Qed.

Lemma valid_book_levels ob l :
  orderbook_values_are_semantically_valid ob = true → l ∈ ob_bids ob ++ ob_asks ob → price_ok (pl_price l).
Proof.
  unfold orderbook_values_are_semantically_valid. destruct (_ || _) eqn:H; [done|]. intros _ Hl.
  bool_hyps. rewrite forallb_forall in *. apply list_elem_of_In in Hl.
  match goal with H : ∀ x, _ |- _ => specialize (H l Hl) end.
  unfold valid_level in *. bool_hyps. by eapply valid_price_ok.
Qed.

Lemma valid_book_top ob :
  orderbook_values_are_semantically_valid ob = true →
  top_ok (pl_price <$> best_bid ob) (pl_price <$> best_ask ob).
Proof.
  intros Hv.
  pose proof (max_by_spec _ (usable_levels (ob_bids ob))) as Hb. fold (best_bid ob) in Hb.
  pose proof (min_by_spec _ (usable_levels (ob_asks ob))) as Ha. fold (best_ask ob) in Ha.
  assert (HB : ∀ p, pl_price <$> best_bid ob = Some p → p ∈ pl_price <$> ob_bids ob).
  { intros p. destruct (best_bid ob) as [m|]; [|done]. intros [= <-].
    apply list_elem_of_fmap_2. by destruct Hb as [[? _]%elem_of_usable _]. }
  assert (HA : ∀ p, pl_price <$> best_ask ob = Some p → p ∈ pl_price <$> ob_asks ob).
  { intros p. destruct (best_ask ob) as [m|]; [|done]. intros [= <-].
    apply list_elem_of_fmap_2. by destruct Ha as [[? _]%elem_of_usable _]. }
  assert (Hok : ∀ p, p ∈ pl_price <$> (ob_bids ob ++ ob_asks ob) → price_ok p).
  { intros p (l & -> & Hl)%list_elem_of_fmap. by eapply valid_book_levels. }
  rewrite fmap_app in Hok. setoid_rewrite elem_of_app in Hok.
  split_and!; [by intros p ?%HB; auto|by intros p ?%HA; auto|].
  intros b a Hb'%HB Ha'%HA.
  unfold orderbook_values_are_semantically_valid in Hv. destruct (_ || _); [done|]. bool_hyps.
  destruct (reduce_Some f64_max _ _ Hb') as [mb Emb], (reduce_Some f64_min _ _ Ha') as [ma Ema].
  rewrite Emb, Ema in *.
  assert (f64_le b mb = true).
  { eapply reduce_max_ge; [|done..]. apply Forall_forall. intros p Hp.
    apply is_finite_not_nan. apply Hok. by left. }
  assert (f64_le ma a = true).
  { eapply reduce_min_le; [|done..]. apply Forall_forall. intros p Hp.
    apply is_finite_not_nan. apply Hok. by right. }
  unfold crossed in *. float_order.
Qed.

(** ** The invariant *)

Record wf (m : OrderbookManager) : Prop := {
  wf_books : ∀ k ob, books m !! k = Some ob →
    ob_symbol ob = k ∧ orderbook_values_are_semantically_valid ob = true;
  wf_quotes : ∀ k q, quotes m !! k = Some q →
    top_ok (Some (qt_bid_price q)) (Some (qt_ask_price q));
  wf_l1 : ∀ k s, l1 m !! k = Some s → top_ok (l1_bid_price s) (l1_ask_price s) }.

(** An accepted snapshot replaces the cached one, field by field or as a whole. *)
Lemma update_cases m ob : wf m →
  update m ob = (m, false)
  ∨ (update m ob
     = ((clear_nudges_after_market_update m (ob_symbol ob) (ob_exchange_timestamp_ns ob))
          <| books := <[ob_symbol ob := ob]> (books m) |>, true)
     ∧ orderbook_values_are_semantically_valid ob = true
     ∧ newer_cached ob_exchange_timestamp_ns (books m) (ob_symbol ob) (ob_exchange_timestamp_ns ob) = false).
Proof.
  intros Hwf. unfold update.
  destruct (orderbook_values_are_semantically_valid ob); [|by left]. cbn [negb].
  destruct (timestamp_too_far_in_future _ _); [by left|].
  destruct (newer_cached _ _ _ _); [by left|]. right. split; [|done].
  change (books (clear_nudges_after_market_update m _ _)) with (books m).
  destruct (books m !! ob_symbol ob) as [ex|] eqn:E; [|done].
  apply (wf_books _ Hwf) in E as [Hs _]. do 3 f_equal.
  destruct ex, ob. cbn in *. by subst.
Qed.

Lemma update_quote_cases m q :
  update_quote m q = (m, false)
  ∨ (update_quote m q
     = ((clear_nudges_after_market_update m (qt_symbol q) (qt_exchange_timestamp_ns q))
          <| quotes := <[qt_symbol q := q]> (quotes m) |>, true)
     ∧ top_ok (Some (qt_bid_price q)) (Some (qt_ask_price q))
     ∧ newer_cached qt_exchange_timestamp_ns (quotes m) (qt_symbol q) (qt_exchange_timestamp_ns q) = false).
Proof.
  unfold update_quote. destruct (quote_values_are_semantically_valid q) eqn:Hv; [|by left]. cbn [negb].
  destruct (timestamp_too_far_in_future _ _); [by left|].
  destruct (newer_cached _ _ _ _); [by left|]. right. split_and!; try done.
  unfold quote_values_are_semantically_valid in Hv. bool_hyps.
  split_and!; intros; simplify_eq; eauto using valid_price_ok.
Qed.

Lemma update_l1_cases m e sym bid ask ts local_ts :
  update_l1_fields m e sym bid ask ts local_ts = (m, false)
  ∨ (update_l1_fields m e sym bid ask ts local_ts
     = ((clear_nudges_after_market_update m sym ts) <| l1 := <[sym := mkL1 bid ask ts]> (l1 m) |>, true)
     ∧ top_ok bid ask
     ∧ newer_cached l1_exchange_timestamp_ns (l1 m) sym ts = false).
Proof.
  unfold update_l1_fields. destruct (_ || _) eqn:Hv; [by left|].
  destruct (newer_cached _ _ _ _); [by left|]. right. split_and!; try done. bool_hyps.
  assert (Hb : ∀ p, bid = Some p → price_ok p).
  { intros p ->. bool_hyps. by eapply valid_price_ok. }
  assert (Ha : ∀ p, ask = Some p → price_ok p).
  { intros p ->. bool_hyps. by eapply valid_price_ok. }
  split_and!; [done|done|]. intros b a -> ->. apply not_crossed; auto.
Qed.

Lemma nudge_caches m sym side p now m' b :
  nudge_inferred_top m sym side p now = (m', b) →
  books m' = books m ∧ quotes m' = quotes m ∧ l1 m' = l1 m.
Proof. unfold nudge_inferred_top. intros H. split_cases; done. Qed.

Lemma apply_op_wf m op : wf m → wf (fst (apply_op m op)).
Proof.
  intros Hwf. destruct op as [ob|q|e sym bid ask ts lts|sym side p now]; simpl.
  - destruct (update_cases m ob Hwf) as [-> | (-> & Hv & _)]; [done|]. destruct Hwf as [Hb Hq Hl].
    split; simpl; [|done|done]. intros k ob' [[<- <-]|[? ?]]%lookup_insert_Some; eauto.
  - destruct (update_quote_cases m q) as [-> | (-> & Hv & _)]; [done|]. destruct Hwf as [Hb Hq Hl].
    split; simpl; [done| |done]. intros k q' [[<- <-]|[? ?]]%lookup_insert_Some; eauto.
  - destruct (update_l1_cases m e sym bid ask ts lts) as [-> | (-> & Hv & _)]; [done|].
    destruct Hwf as [Hb Hq Hl].
    split; simpl; [done|done|]. intros k s [[<- <-]|[? ?]]%lookup_insert_Some; eauto.
  - destruct (nudge_inferred_top m sym side p now) as [m' b] eqn:E.
    apply nudge_caches in E as (Eb & Eq & El). destruct Hwf. split; simpl; by rewrite ?Eb, ?Eq, ?El.
Qed.

Lemma run_wf ops m : wf m → wf (run m ops).
Proof. revert m. induction ops as [|op ops IH]; intros m Hm; [done|]. by apply IH, apply_op_wf. Qed.

Lemma empty_manager_wf : wf new.
Proof. split; intros k x; simpl; by rewrite lookup_empty. Qed.

(** ** Theorems *)

(** The prices and the timestamp of one cached source. *)
Inductive source_top (m : OrderbookManager) (sym : string) : option f64 → option f64 → Z → Prop :=
| from_scalar s : l1 m !! sym = Some s →
    source_top m sym (l1_bid_price s) (l1_ask_price s) (l1_exchange_timestamp_ns s)
| from_quote q : quotes m !! sym = Some q →
    source_top m sym (Some (qt_bid_price q)) (Some (qt_ask_price q)) (qt_exchange_timestamp_ns q)
| from_book b : books m !! sym = Some b →
    source_top m sym (pl_price <$> best_bid b) (pl_price <$> best_ask b) (ob_exchange_timestamp_ns b).

Lemma newest_of_spec a b c :
  match newest_of [a; b; c] with
  | None => a = None ∧ b = None ∧ c = None
  | Some t => (a = Some t ∨ b = Some t ∨ c = Some t)
              ∧ ∀ x, a = Some x ∨ b = Some x ∨ c = Some x → x ≤ t
  end.
Proof.
  unfold newest_of, reduce. destruct a as [a|], b as [b|], c as [c|]; simpl; try done;
    (split; [|intros x Hx; destruct_or! Hx; simplify_eq; lia]).
  all: repeat match goal with |- context [Z.max ?x ?y] => destruct (Z.max_spec x y) as [[? ->]|[? ->]] end; auto.
Qed.

Lemma raw_l1_source m sym :
  match raw_l1 m sym with
  | (bid, ask, Some t) =>
      source_top m sym bid ask t ∧ ∀ b a t', source_top m sym b a t' → t' ≤ t
  | (bid, ask, None) => bid = None ∧ ask = None ∧ ∀ b a t', ¬ source_top m sym b a t'
  end.
Proof.
  unfold raw_l1.
  pose proof (newest_of_spec (ob_exchange_timestamp_ns <$> books m !! sym)
    (qt_exchange_timestamp_ns <$> quotes m !! sym) (l1_exchange_timestamp_ns <$> l1 m !! sym)) as H.
  destruct (newest_of _) as [t|].
  - destruct H as [Hin Hmax].
    assert (Hle : ∀ b a t', source_top m sym b a t' → t' ≤ t).
    { intros b a t' []; apply Hmax;
        match goal with H : _ !! sym = Some _ |- _ => rewrite H end; simpl; auto. }
    pose proof (from_scalar m sym) as Fs. pose proof (from_quote m sym) as Fq. pose proof (from_book m sym) as Fb.
    destruct (books m !! sym) as [b|], (quotes m !! sym) as [q|], (l1 m !! sym) as [s|]; simpl in *;
      repeat (case_match; bool_hyps; simplify_eq); try (split; [by auto|]);
      destruct_or? Hin; simplify_eq; try done; by subst.
  - destruct H as (Hb & Hq & Hs). split_and!; [done..|].
    apply fmap_None in Hb, Hq, Hs. intros b a t []; congruence.
Qed.

(** After any history of updates and nudges the reported top of book is the
    view of a single cached source, one with the newest exchange timestamp; its
    prices are finite and positive, its bid is below its ask, and it is absent
    only when nothing is cached for the symbol. *)
Theorem top_of_book_consistent ops sym :
  let m := run new ops in
  match raw_l1 m sym with
  | (bid, ask, Some t) =>
      (source_top m sym bid ask t ∧ ∀ b a t', source_top m sym b a t' → t' ≤ t) ∧ top_ok bid ask
  | (bid, ask, None) => bid = None ∧ ask = None ∧ ∀ b a t', ¬ source_top m sym b a t'
  end.
Proof.
  intros m. pose proof (run_wf ops new empty_manager_wf) as Hwf. fold m in Hwf.
  pose proof (raw_l1_source m sym) as H. destruct (raw_l1 m sym) as [[bid ask] [t|]]; [|done].
  split; [done|]. destruct H as [[] _].
  - by eapply wf_l1.
  - by eapply wf_quotes.
  - by apply valid_book_top, (wf_books _ Hwf _ _ H).
Qed.

(** [None] is the time before any data. *)
Definition time_le (a b : option Z) : Prop :=
  match a, b with Some a, Some b => a ≤ b | Some _, None => False | None, _ => True end.

Lemma time_le_insert {A} (ts : A → Z) (cache : gmap string A) k x sym :
  newer_cached ts cache k (ts x) = false →
  time_le (ts <$> cache !! sym) (ts <$> <[k := x]> cache !! sym).
Proof.
  unfold newer_cached. intros H. destruct (decide (k = sym)) as [->|].
  - rewrite lookup_insert_eq. destruct (cache !! sym) as [y|]; simpl; [bool_hyps; lia|done].
  - rewrite lookup_insert_ne by done. destruct (cache !! sym); simpl; [lia|done].
Qed.

Lemma time_le_refl a : time_le a a.
Proof. destruct a; simpl; lia. Qed.

Definition cache_times (m : OrderbookManager) (sym : string) : list (option Z) :=
  [ob_exchange_timestamp_ns <$> books m !! sym; qt_exchange_timestamp_ns <$> quotes m !! sym;
   l1_exchange_timestamp_ns <$> l1 m !! sym].

Lemma apply_op_times m op sym :
  wf m → Forall2 time_le (cache_times m sym) (cache_times (fst (apply_op m op)) sym).
Proof.
  intros Hwf. unfold cache_times. destruct op as [ob|q|e k bid ask ts lts|k side p now]; simpl.
  - destruct (update_cases m ob Hwf) as [-> | (-> & _ & Hn)];
      repeat constructor; auto using time_le_refl. by apply time_le_insert.
  - destruct (update_quote_cases m q) as [-> | (-> & _ & Hn)];
      repeat constructor; auto using time_le_refl. by apply time_le_insert.
  - destruct (update_l1_cases m e k bid ask ts lts) as [-> | (-> & _ & Hn)];
      repeat constructor; auto using time_le_refl.
    by apply (time_le_insert l1_exchange_timestamp_ns _ _ (mkL1 bid ask ts)).
  - destruct (nudge_inferred_top m k side p now) as [m' b] eqn:E.
    apply nudge_caches in E as (Eb & Eq & El). simpl. rewrite Eb, Eq, El.
    repeat constructor; apply time_le_refl.
Qed.

Lemma l1_timestamp_newest m sym : l1_timestamp_ns m sym = newest_of (cache_times m sym).
Proof.
  unfold l1_timestamp_ns, raw_l1, cache_times.
  pose proof (newest_of_spec (ob_exchange_timestamp_ns <$> books m !! sym)
    (qt_exchange_timestamp_ns <$> quotes m !! sym) (l1_exchange_timestamp_ns <$> l1 m !! sym)) as H.
  destruct (newest_of _) as [t|]; [|done]. destruct H as [Hin _].
  destruct (books m !! sym), (quotes m !! sym), (l1 m !! sym); simpl in *;
    repeat (case_match; bool_hyps); simpl; destruct_or? Hin; simplify_eq; done.
Qed.

Lemma newest_of_mono a b c a' b' c' :
  time_le a a' → time_le b b' → time_le c c' → time_le (newest_of [a; b; c]) (newest_of [a'; b'; c']).
Proof.
  intros Ha Hb Hc. pose proof (newest_of_spec a b c) as H. pose proof (newest_of_spec a' b' c') as H'.
  destruct (newest_of [a; b; c]) as [t|]; [|done]. destruct H as [Hin _].
  destruct (newest_of [a'; b'; c']) as [t'|]; simpl.
  - destruct H' as [_ Hmax]. destruct Hin as [-> | [-> | ->]].
    + destruct a' as [x|]; [|done]. specialize (Hmax x ltac:(auto)). simpl in Ha. lia.
    + destruct b' as [x|]; [|done]. specialize (Hmax x ltac:(auto)). simpl in Hb. lia.
    + destruct c' as [x|]; [|done]. specialize (Hmax x ltac:(auto)). simpl in Hc. lia.
  - destruct H' as (-> & -> & ->). by destruct Hin as [-> | [-> | ->]].
Qed.

(** After any history: an operation that reports rejection leaves the cache
    as it was; whatever the operation, no cached timestamp and no reported top
    of book goes back in time; and an accepted snapshot is returned by [get]. *)
Theorem cache_never_goes_back ops op sym :
  let m := run new ops in
  let m' := fst (apply_op m op) in
  (snd (apply_op m op) = false → m' = m)
  ∧ Forall2 time_le (cache_times m sym) (cache_times m' sym)
  ∧ time_le (l1_timestamp_ns m sym) (l1_timestamp_ns m' sym)
  ∧ ∀ ob, op = OpUpdate ob → snd (apply_op m op) = true → get m' (ob_symbol ob) = Some ob.
Proof.
  intros m m'. pose proof (run_wf ops new empty_manager_wf) as Hwf. fold m in Hwf.
  pose proof (apply_op_times m op sym Hwf) as Ht. fold m' in Ht. split_and!.
  - unfold m'. destruct op as [ob|q|e k bid ask ts lts|k side p now]; simpl.
    + by destruct (update_cases m ob Hwf) as [-> | (-> & _)].
    + by destruct (update_quote_cases m q) as [-> | (-> & _)].
    + by destruct (update_l1_cases m e k bid ask ts lts) as [-> | (-> & _)].
    + unfold nudge_inferred_top. by repeat case_match.
  - done.
  - rewrite !l1_timestamp_newest. unfold cache_times in *.
    do 3 (apply Forall2_cons in Ht as [? Ht]). by apply newest_of_mono.
  - intros ob -> Hok. unfold m'. simpl in *.
    destruct (update_cases m ob Hwf) as [E | (-> & _)]; [by rewrite E in Hok|].
    unfold get. simpl. by rewrite lookup_insert_eq.
Qed.

(** ** Nudges *)

(** The nudge on one side, and the bound it asserts. *)
Definition nudges (m : OrderbookManager) (side : Side) : gmap string Nudge :=
  match side with Sell => bid_nudges m | Buy => ask_nudges m end.

Definition bound_le (side : Side) (p q : f64) : Prop :=
  match side with Sell => f64_le p q = true | Buy => f64_le q p = true end.

Definition reported (m : OrderbookManager) (sym : string) (side : Side) : option f64 :=
  match side with Sell => best_bid_price m sym | Buy => best_ask_price m sym end.

(** The market data of an operation for a symbol: its exchange timestamp. *)
Definition data_time (op : BookOp) (sym : string) : option Z :=
  match op with
  | OpUpdate ob => if String.eqb (ob_symbol ob) sym then Some (ob_exchange_timestamp_ns ob) else None
  | OpQuote q => if String.eqb (qt_symbol q) sym then Some (qt_exchange_timestamp_ns q) else None
  | OpL1 _ k _ _ ts _ => if String.eqb k sym then Some ts else None
  | OpNudge _ _ _ _ => None
  end.

Definition nudge_time (op : BookOp) : option Z :=
  match op with OpNudge _ _ _ now_ns => Some now_ns | _ => None end.

(** A nudge at least as strong as [p], made at or after [t0]. *)
Definition nudged (m : OrderbookManager) (sym : string) (side : Side) (p : f64) (t0 : Z) : Prop :=
  ∃ n, nudges m side !! sym = Some n ∧ bound_le side p (nudge_price n)
       ∧ t0 ≤ created_ns n < 2 ^ 64 - NUDGE_MIN_HOLD_NS.

Lemma f64_le_not_nan x y : f64_le x y = true → is_nan x = false ∧ is_nan y = false.
Proof. intros H. split; float_order. Qed.

Lemma clear_nudge_lookup ns k ts sym n :
  clear_nudge ns k ts !! sym = Some n → ns !! sym = Some n.
Proof.
  unfold clear_nudge. destruct (ns !! k) as [n'|]; [|done]. destruct (_ <? _); [|done].
  intros [_ ?]%lookup_delete_Some. done.
Qed.

Lemma clear_nudge_keeps ns k ts sym n t0 :
  ns !! sym = Some n → t0 ≤ created_ns n < 2 ^ 64 - NUDGE_MIN_HOLD_NS → 0 ≤ t0 →
  (k = sym → ts ≤ t0 + NUDGE_MIN_HOLD_NS) → clear_nudge ns k ts !! sym = Some n.
Proof.
  intros Hn Hc H0 Hts. unfold clear_nudge. destruct (decide (k = sym)) as [->|Hne].
  - rewrite Hn. unfold wrapping_add, NUDGE_MIN_HOLD_NS in *.
    rewrite Z.mod_small by lia. specialize (Hts eq_refl).
    destruct (_ <? _) eqn:E; bool_hyps; [lia|done].
  - destruct (ns !! k); [|done]. destruct (_ <? _); [|done]. by rewrite lookup_delete_ne.
Qed.

(** How an operation changes the nudges of a side. *)
Lemma apply_op_nudges m op side :
  (∃ k ts, data_time op k = Some ts
           ∧ nudges (fst (apply_op m op)) side = clear_nudge (nudges m side) k ts)
  ∨ nudges (fst (apply_op m op)) side = nudges m side
  ∨ ∃ k p now, op = OpNudge k side p now
      ∧ nudges (fst (apply_op m op)) side = <[k := mkNudge p now]> (nudges m side)
      ∧ is_nan p = false
      ∧ ∀ n, nudges m side !! k = Some n → is_nan (nudge_price n) = false → bound_le side (nudge_price n) p.
Proof.
  destruct op as [ob|q|e k bid ask ts lts|k s p now]; simpl.
  - unfold update. repeat case_match; try (by right; left);
      left; exists (ob_symbol ob), (ob_exchange_timestamp_ns ob); rewrite String.eqb_refl;
      (split; [done|]); by destruct side.
  - unfold update_quote. repeat case_match; try (by right; left);
      left; exists (qt_symbol q), (qt_exchange_timestamp_ns q); rewrite String.eqb_refl;
      (split; [done|]); by destruct side.
  - unfold update_l1_fields. repeat case_match; try (by right; left);
      left; exists k, ts; rewrite String.eqb_refl; (split; [done|]); by destruct side.
  - right. unfold nudge_inferred_top. destruct s; case_match eqn:E; try (by left); cbn [fst];
      destruct side; try (by left); right; exists k, p, now; (split_and!; [done|done|by float_order|]);
      cbn [nudges]; intros n Hn Hnan; rewrite Hn in E.
    + pose proof (f64_min_le_r (default f64_infinity (snd (fst (raw_l1 m k)))) (nudge_price n) Hnan).
      simpl. float_order.
    + pose proof (f64_max_ge_r (default f64_zero (fst (fst (raw_l1 m k)))) (nudge_price n) Hnan).
      simpl. float_order.
Qed.

Lemma bound_le_trans side p q r : bound_le side p q → bound_le side q r → bound_le side p r.
Proof. destruct side; simpl; eauto using f64_le_trans. Qed.

Lemma bound_le_not_nan side p q : bound_le side p q → is_nan p = false ∧ is_nan q = false.
Proof. destruct side; simpl; intros ?%f64_le_not_nan; tauto. Qed.

Lemma nudged_step m op sym side p t0 :
  nudged m sym side p t0 → 0 ≤ t0 →
  (∀ ts, data_time op sym = Some ts → ts ≤ t0 + NUDGE_MIN_HOLD_NS) →
  (∀ now, nudge_time op = Some now → t0 ≤ now < 2 ^ 64 - NUDGE_MIN_HOLD_NS) →
  nudged (fst (apply_op m op)) sym side p t0.
Proof.
  intros (n & Hn & Hp & Ht) H0 Hd Hnow. unfold nudged.
  destruct (apply_op_nudges m op side) as [(k & ts & Hdt & ->)|[->|(k & q & now & -> & -> & Hq & Hb)]].
  - exists n. split; [|done]. eapply clear_nudge_keeps; [done..|]. intros ->. auto.
  - by exists n.
  - destruct (decide (k = sym)) as [->|].
    + exists (mkNudge q now). rewrite lookup_insert_eq. split_and!; [done| | |]; simpl.
      * apply (bound_le_trans _ _ (nudge_price n)); [done|]. apply Hb; [done|].
        by apply bound_le_not_nan in Hp as [_ ?].
      * by apply Hnow.
      * by apply Hnow.
    + exists n. by rewrite lookup_insert_ne.
Qed.

Lemma nudged_reported m sym side p t0 :
  nudged m sym side p t0 → ∃ q, reported m sym side = Some q ∧ bound_le side p q.
Proof.
  intros (n & Hn & Hp & _). pose proof (bound_le_not_nan _ _ _ Hp) as [_ Hnan].
  destruct side; simpl in *; unfold best_bid_price, best_ask_price, clamp_by; rewrite Hn; simpl;
    destruct (raw_l1 m sym) as [[[b|] [a|]] t]; simpl; eexists; (split; [done|]);
    eauto using f64_le_trans, f64_min_le_r, f64_max_ge_r.
Qed.

Lemma run_nudges_not_nan ops side k n :
  nudges (run new ops) side !! k = Some n → is_nan (nudge_price n) = false.
Proof.
  unfold run. induction ops as [|op ops IH] using rev_ind.
  - by destruct side; simpl; rewrite lookup_empty.
  - rewrite fold_left_app. simpl. set (m := fold_left _ ops new) in *.
    destruct (apply_op_nudges m op side) as [(k' & ts & _ & ->)|[->|(k' & q & now & -> & -> & Hq & _)]].
    + intros ?%clear_nudge_lookup. auto.
    + done.
    + intros [[<- <-]|[_ ?]]%lookup_insert_Some; auto.
Qed.

Lemma finite_lt_infinity p : is_finite p = true → f64_lt p f64_infinity = true.
Proof. by destruct p as [[]| | |[]]. Qed.

Lemma raw_l1_top ops sym :
  top_ok (fst (fst (raw_l1 (run new ops) sym))) (snd (fst (raw_l1 (run new ops) sym))).
Proof.
  pose proof (run_wf ops new empty_manager_wf) as Hwf. pose proof (raw_l1_source (run new ops) sym) as Hs.
  destruct (raw_l1 _ sym) as [[bid ask] [t|]]; simpl; [|destruct Hs as (-> & -> & _); by split_and!].
  destruct Hs as [[] _]; [by eapply wf_l1|by eapply wf_quotes|].
  apply valid_book_top. by edestruct (wf_books _ Hwf).
Qed.

(** A rejected nudge asserts nothing new. *)
Lemma nudge_false_reported ops sym side p t0 m1 :
  price_ok p → nudge_inferred_top (run new ops) sym side p t0 = (m1, false) →
  ∃ q, reported (run new ops) sym side = Some q ∧ bound_le side p q.
Proof.
  intros [Hfin Hpos] H. destruct (raw_l1_top ops sym) as (Hb & Ha & _).
  pose proof (run_nudges_not_nan ops side sym) as Hn. pose proof (finite_lt_infinity p Hfin) as Hinf.
  unfold nudge_inferred_top in H.
  destruct side; simpl in *; unfold best_bid_price, best_ask_price, clamp_by.
  - destruct (p <? _)%f64 eqn:E; [done|]. clear H.
    destruct (snd (fst (raw_l1 _ sym))) as [a|]; [destruct (Ha a eq_refl) as [Hf _]|];
      (destruct (ask_nudges _ !! sym) as [n|]; [specialize (Hn n eq_refl)|]); simpl in *.
    + exists (f64_min a (nudge_price n)). split; [done|].
      pose proof (f64_min_le_l a (nudge_price n) ltac:(auto with hex)). float_order.
    + exists a. split; [done|]. float_order.
    + exists (nudge_price n). split; [done|].
      destruct (f64_min_cases f64_infinity (nudge_price n)) as [Hm|Hm]; rewrite Hm in E; [|float_order].
      congruence.
    + congruence.
  - destruct (p >? _)%f64 eqn:E; [done|]. clear H. unfold f64_gt in E.
    destruct (fst (fst (raw_l1 _ sym))) as [b|]; [destruct (Hb b eq_refl) as [Hf _]|];
      (destruct (bid_nudges _ !! sym) as [n|]; [specialize (Hn n eq_refl)|]); simpl in *.
    + exists (f64_max b (nudge_price n)). split; [done|].
      pose proof (f64_max_ge_l b (nudge_price n) ltac:(auto with hex)). float_order.
    + exists b. split; [done|]. float_order.
    + exists (nudge_price n). split; [done|].
      destruct (f64_max_cases f64_zero (nudge_price n)) as [Hm|Hm]; rewrite Hm in E; [|float_order].
      congruence.
    + congruence.
Qed.

(** A post-only rejection teaches the cache a bound that stale data cannot
    undo.  If the nudge is taken, then after any further operations whose data
    for the symbol is stamped no later than the hold after the nudge, the
    reported best bid (for a rejected sell) is at least, and the reported best
    ask (for a rejected buy) is at most, the rejected price; if it is not taken,
    the reported top already satisfied the bound and nothing changed. *)
Theorem nudge_holds ops sym side p t0 rest :
  price_ok p → 0 ≤ t0 < 2 ^ 64 - NUDGE_MIN_HOLD_NS →
  (∀ op, op ∈ rest →
    (∀ ts, data_time op sym = Some ts → ts ≤ t0 + NUDGE_MIN_HOLD_NS)
    ∧ (∀ now, nudge_time op = Some now → t0 ≤ now < 2 ^ 64 - NUDGE_MIN_HOLD_NS)) →
  let m := run new ops in
  match nudge_inferred_top m sym side p t0 with
  | (m1, true) => ∃ q, reported (run m1 rest) sym side = Some q ∧ bound_le side p q
  | (m1, false) => m1 = m ∧ ∃ q, reported m sym side = Some q ∧ bound_le side p q
  end.
Proof.
  intros Hp Ht Hrest m. destruct (nudge_inferred_top m sym side p t0) as [m1 [|]] eqn:E.
  - assert (Hn : nudged m1 sym side p t0).
    { exists (mkNudge p t0). unfold nudge_inferred_top in E. destruct Hp as [Hf _].
      destruct side; split_cases; simpl; rewrite lookup_insert_eq; split_and!; try (done || lia);
        auto with hex. }
    clear E. revert m1 Hn. induction rest as [|op rest IH]; intros m1 Hn; [by eapply nudged_reported|].
    apply IH; [intros op' Hop; apply Hrest; by right|].
    destruct (Hrest op ltac:(left)) as [Hd Hnow]. apply nudged_step; (done || lia).
  - split; [|by eapply nudge_false_reported].
    unfold nudge_inferred_top in E. destruct side; by split_cases.
Qed.

Definition sample_book (bid ts : Z) : BookOp :=
  OpUpdate (mkOrderBookSnapshot Polymarket "tok"
    [mkPriceLevel (f64_dec bid 2) (f64_of_Z 100)] [mkPriceLevel (f64_dec 60 2) (f64_of_Z 100)] ts ts).

(** A stale snapshot with the old bid 0.40 arrives 0.1 s after the nudge to 0.45. *)
Lemma nudge_holds_witness :
  ∃ m1 q,
    nudge_inferred_top (run new [sample_book 40 1000000000]) "tok" Sell (f64_dec 45 2) 1100000000 = (m1, true)
    ∧ reported (run m1 [sample_book 40 1200000000]) "tok" Sell = Some q
    ∧ f64_le (f64_dec 45 2) q = true.
Proof.
  pose proof (nudge_holds [sample_book 40 1000000000] "tok" Sell (f64_dec 45 2) 1100000000
    [sample_book 40 1200000000]) as H. cbv zeta in H.
  destruct (nudge_inferred_top _ "tok" Sell (f64_dec 45 2) 1100000000) as [m1 b] eqn:E.
  assert (Hb : b = true).
  { change b with (snd (m1, b)). rewrite <- E. vm_compute. reflexivity. }
  rewrite Hb in *.
  destruct H as (q & Hq & Hle).
  - split; vm_compute; reflexivity.
  - unfold NUDGE_MIN_HOLD_NS. lia.
  - intros op ->%list_elem_of_singleton. split; [|discriminate].
    intros ts [= <-]. unfold NUDGE_MIN_HOLD_NS. lia.
  - exists m1, q. split_and!; [reflexivity|exact Hq|exact Hle].
Defined.
