(* ===== verification/SimClock.v ===== *)
(** * The simulator's event scheduler (hexagent-exchange/src/exchange/sim_v2/clock.rs)

    A scheduler is a priority queue keyed by [(when, deadline_priority, seq)].
    The [BinaryHeap] is the list of its items in push order; [pop] takes the item
    that is greatest for the inverted [Ord], that is, least for the key.  The
    payload type is a parameter: no operation looks at it.

    Proved: whatever is pushed comes out in key order, nothing is lost or
    duplicated, and events of equal time and priority come out in the order they
    were pushed. *)

From S2P Require Import Prelude.

Section Scheduler.
Context {SimEvent : Type}.

Record HeapItem := mkHeapItem {
  when : Z;
  seq : Z;
  deadline_priority : Z;
  ev : SimEvent }.

(** [HeapItem::cmp] with its arguments exchanged: the order of the keys. *)
Definition key_cmp (a b : HeapItem) : comparison :=
  match when a ?= when b with
  | Eq => match deadline_priority a ?= deadline_priority b with
          | Eq => seq a ?= seq b
          | c => c
          end
  | c => c
  end.

Record Scheduler := mkScheduler {
  heap : list HeapItem;
  next_seq : Z }.

Definition new : Scheduler := mkScheduler [] 0.

Definition push_with (priority : Z) (self : Scheduler) (w : Z) (e : SimEvent) : Scheduler :=
  mkScheduler (heap self ++ [mkHeapItem w (next_seq self) priority e]) (next_seq self +w 1).

Definition push : Scheduler → Z → SimEvent → Scheduler := push_with 1.
Definition push_deadline : Scheduler → Z → SimEvent → Scheduler := push_with 2.
Definition push_invalidation : Scheduler → Z → SimEvent → Scheduler := push_with 0.

(** [BinaryHeap::pop] on distinct keys. *)
Fixpoint pop_min (l : list HeapItem) : option (HeapItem * list HeapItem) :=
  match l with
  | [] => None
  | x :: l =>
      match pop_min l with
      | None => Some (x, [])
      | Some (m, rest) =>
          match key_cmp m x with
          | Lt => Some (m, x :: rest)
          | _ => Some (x, l)
          end
      end
  end.

Definition peek (self : Scheduler) : option HeapItem := fst <$> pop_min (heap self).

Definition peek_when (self : Scheduler) : option Z := when <$> peek self.

Definition peek_event (self : Scheduler) : option (Z * SimEvent) :=
  (λ i, (seq i, ev i)) <$> peek self.

Definition peek_is_invalidation (self : Scheduler) : bool :=
  match peek self with Some i => deadline_priority i =? 0 | None => false end.

Definition enqueue_watermark (self : Scheduler) : Z := next_seq self.

Definition len (self : Scheduler) : nat := length (heap self).

Definition pop (self : Scheduler) : option (Z * SimEvent) * Scheduler :=
  match pop_min (heap self) with
  | Some (i, rest) => (Some (when i, ev i), mkScheduler rest (next_seq self))
  | None => (None, self)
  end.

(** The event loop that pops until the lane is empty; [fuel] bounds the number
    of pops, and [len] of them are enough. *)
Fixpoint drain (fuel : nat) (self : Scheduler) : list (Z * SimEvent) :=
  match fuel with
  | O => []
  | S fuel =>
      match pop self with
      | (Some e, self) => e :: drain fuel self
      | (None, _) => []
      end
  end.

(** ** The order of events *)

Definition key_lt (a b : HeapItem) : Prop := key_cmp a b = Lt.

Lemma key_lt_spec a b :
  key_lt a b ↔ when a < when b
  ∨ (when a = when b ∧ (deadline_priority a < deadline_priority b
     ∨ (deadline_priority a = deadline_priority b ∧ seq a < seq b))).
Proof.
  unfold key_lt, key_cmp.
  destruct (Z.compare_spec (when a) (when b)),
    (Z.compare_spec (deadline_priority a) (deadline_priority b)),
    (Z.compare_spec (seq a) (seq b)); split; intros; try done; lia.
Qed.

#[local] Instance key_lt_trans : Transitive key_lt.
Proof. intros a b c. rewrite !key_lt_spec. lia. Qed.

Lemma key_total a b : seq a ≠ seq b → ¬ key_lt b a → key_lt a b.
Proof. rewrite !key_lt_spec. lia. Qed.

Lemma pop_min_spec l :
  NoDup (seq <$> l) →
  match pop_min l with
  | None => l = []
  | Some (m, rest) => l ≡ₚ m :: rest ∧ Forall (key_lt m) rest
  end.
Proof.
  induction l as [|x l IH]; simpl; [done|]. rewrite NoDup_cons. intros [Hx Hnd].
  specialize (IH Hnd). destruct (pop_min l) as [[m rest]|].
  2: { subst l. split; [done|constructor]. }
  destruct IH as [Hp Hall]. destruct (key_cmp m x) eqn:Hc.
  2: { split; [by rewrite Hp, Permutation_swap|]. by constructor. }
  all: split; [done|]; rewrite Hp.
  all: assert (key_lt x m) as Hlt.
  1,3: apply key_total;
    [intros Heq; apply Hx; rewrite Heq; apply list_elem_of_fmap; exists m; split; [done|];
     rewrite Hp; left
    |unfold key_lt; by rewrite Hc].
  all: constructor; [done|]; eapply Forall_impl; [exact Hall|]; intros y Hy; by etrans.
Qed.

(** The items of the heap list are in push order. *)
Definition in_push_order (self : Scheduler) : Prop :=
  StronglySorted (λ a b, seq a < seq b) (heap self)
  ∧ Forall (λ i, 0 ≤ seq i < next_seq self) (heap self) ∧ 0 ≤ next_seq self.

Lemma push_order_nodup l : StronglySorted (λ a b, seq a < seq b) l → NoDup (seq <$> l).
Proof.
  induction 1 as [|x l Hs IH Hall]; simpl; constructor; [|done].
  intros (y & Hy & Hin)%list_elem_of_fmap. rewrite Forall_forall in Hall.
  specialize (Hall y Hin). simpl in Hall. lia.
Qed.

Lemma pop_min_incl l m rest : pop_min l = Some (m, rest) → ∀ x, x ∈ rest → x ∈ l.
Proof.
  revert m rest. induction l as [|y l IH]; simpl; intros m rest H x Hx; [done|].
  destruct (pop_min l) as [[m' rest']|] eqn:E; [destruct (key_cmp m' y)|]; simplify_eq.
  - by right.
  - apply elem_of_cons in Hx as [->|Hx]; [left|right]. by eapply IH.
  - by right.
  - by apply not_elem_of_nil in Hx.
Qed.

Lemma pop_min_sorted (R : HeapItem → HeapItem → Prop) l m rest :
  StronglySorted R l → pop_min l = Some (m, rest) → StronglySorted R rest.
Proof.
  intros Hs. revert m rest. induction Hs as [|y l Hs IH Hall]; simpl; intros m rest H; [done|].
  destruct (pop_min l) as [[m' rest']|] eqn:E; [destruct (key_cmp m' y)|]; simplify_eq; try done.
  - constructor; [by eapply IH|]. apply Forall_forall. intros x Hx.
    rewrite Forall_forall in Hall. apply Hall. by eapply pop_min_incl.
  - constructor.
Qed.

Lemma new_push_order : in_push_order new.
Proof. split_and!; [constructor|constructor|simpl; lia]. Qed.

Lemma push_push_order p self w e :
  in_push_order self → next_seq self < u64_max → in_push_order (push_with p self w e).
Proof.
  intros (Hs & Hb & H0) Hmax.
  assert (next_seq self +w 1 = next_seq self + 1) as Hn.
  { unfold wrapping_add, u64_max in *. apply Z.mod_small. lia. }
  unfold in_push_order, push_with. simpl. rewrite Hn. split_and!; [| |lia].
  - clear Hn Hmax H0. induction Hs as [|x l Hs IH Hall]; simpl; [repeat constructor|].
    apply Forall_cons in Hb as [Hx Hb]. constructor; [by apply IH|].
    apply Forall_app. split; [done|]. constructor; [simpl; lia|constructor].
  - apply Forall_app. split; [eapply Forall_impl; [exact Hb|]; simpl; intros; lia|].
    constructor; [simpl; lia|constructor].
Qed.

Lemma pop_push_order self : in_push_order self → in_push_order (pop self).2.
Proof.
  intros (Hs & Hb & H0). unfold pop. destruct (pop_min (heap self)) as [[m rest]|] eqn:E; [|done].
  split_and!; simpl; [by eapply pop_min_sorted| |done].
  apply Forall_forall. intros x Hx. rewrite Forall_forall in Hb. apply Hb. by eapply pop_min_incl.
Qed.

(** ** Reference: a stable sort by time and priority *)

Definition no_later (a b : HeapItem) : bool :=
  (when a <? when b) || ((when a =? when b) && (deadline_priority a <=? deadline_priority b)).

Fixpoint insert_stable (x : HeapItem) (l : list HeapItem) : list HeapItem :=
  match l with
  | [] => [x]
  | y :: l => if no_later x y then x :: y :: l else y :: insert_stable x l
  end.

Definition stable_sort (l : list HeapItem) : list HeapItem := foldr insert_stable [] l.

Lemma insert_stable_Permutation x l : insert_stable x l ≡ₚ x :: l.
Proof.
  induction l as [|y l IH]; simpl; [done|]. destruct (no_later x y); [done|].
  by rewrite IH, Permutation_swap.
Qed.

Lemma stable_sort_Permutation l : stable_sort l ≡ₚ l.
Proof. induction l as [|x l IH]; simpl; [done|]. by rewrite insert_stable_Permutation, IH. Qed.

Lemma insert_stable_sorted x l :
  StronglySorted key_lt l → Forall (λ y, seq x < seq y) l → StronglySorted key_lt (insert_stable x l).
Proof.
  induction 1 as [|y l Hs IH Hall]; simpl; intros Hx; [repeat constructor|].
  apply Forall_cons in Hx as [Hxy Hx].
  destruct (no_later x y) eqn:E.
  - assert (key_lt x y) as Hlt.
    { unfold no_later in E. apply key_lt_spec. apply orb_true_iff in E as [E|E]; bool_hyps; lia. }
    constructor; [by constructor|]. constructor; [done|].
    eapply Forall_impl; [exact Hall|]. intros z Hz. by etrans.
  - constructor; [by apply IH|]. rewrite insert_stable_Permutation. constructor; [|done].
    apply key_lt_spec. unfold no_later in E. apply orb_false_iff in E as [E1 E2]. bool_hyps.
    apply andb_false_iff in E2 as [E2|E2]; bool_hyps; lia.
Qed.

Lemma stable_sort_sorted l :
  StronglySorted (λ a b, seq a < seq b) l → StronglySorted key_lt (stable_sort l).
Proof.
  induction 1 as [|x l Hs IH Hall]; simpl; [constructor|].
  apply insert_stable_sorted; [done|]. by rewrite stable_sort_Permutation.
Qed.

#[local] Instance key_lt_antisym : AntiSymm eq key_lt.
Proof. intros a b. rewrite !key_lt_spec. lia. Qed.

Lemma stable_sort_min l m rest :
  StronglySorted (λ a b, seq a < seq b) l → pop_min l = Some (m, rest) →
  stable_sort l = m :: stable_sort rest.
Proof.
  intros Hs Hp. pose proof (pop_min_spec l (push_order_nodup l Hs)) as Hspec.
  rewrite Hp in Hspec. destruct Hspec as [Hperm Hall].
  apply (StronglySorted_unique key_lt); [by apply stable_sort_sorted| |].
  - constructor; [apply stable_sort_sorted; by eapply pop_min_sorted|].
    by rewrite stable_sort_Permutation.
  - by rewrite !stable_sort_Permutation.
Qed.

(** ** Histories *)

Inductive SchedOp :=
  | Push (w : Z) (e : SimEvent)
  | PushDeadline (w : Z) (e : SimEvent)
  | PushInvalidation (w : Z) (e : SimEvent)
  | Pop.

Definition apply_sched (self : Scheduler) (op : SchedOp) : Scheduler :=
  match op with
  | Push w e => push self w e
  | PushDeadline w e => push_deadline self w e
  | PushInvalidation w e => push_invalidation self w e
  | Pop => (pop self).2
  end.

Lemma sched_history ops self :
  in_push_order self → next_seq self + Z.of_nat (length ops) ≤ u64_max →
  in_push_order (fold_left apply_sched ops self).
Proof.
  revert self. induction ops as [|op ops IH]; intros self Hw Hmax; simpl; [done|].
  simpl in Hmax. apply IH.
  - destruct op; simpl; try (apply push_push_order; [done|lia]). by apply pop_push_order.
  - destruct Hw as (_ & _ & H0). unfold u64_max in *.
    assert (∀ p w e, next_seq (push_with p self w e) = next_seq self + 1) as Hn.
    { intros. simpl. unfold wrapping_add. apply Z.mod_small. lia. }
    destruct op; unfold apply_sched, push, push_deadline, push_invalidation; rewrite ?Hn; try lia.
    unfold pop. destruct (pop_min _) as [[]|]; simpl; lia.
Qed.

Lemma drain_stable_sort fuel self :
  in_push_order self → (len self ≤ fuel)%nat →
  drain fuel self = map (λ i, (when i, ev i)) (stable_sort (heap self)).
Proof.
  revert self. induction fuel as [|fuel IH]; intros self Hw Hlen; unfold len in Hlen.
  { destruct (heap self); simpl in *; [done|lia]. }
  pose proof (pop_push_order self Hw) as Hw'. destruct Hw as (Hs & _).
  simpl. unfold pop in *. pose proof (pop_min_spec (heap self) (push_order_nodup _ Hs)) as Hspec.
  destruct (pop_min (heap self)) as [[m rest]|] eqn:E.
  - destruct Hspec as [Hp _]. rewrite (stable_sort_min _ m rest Hs E). simpl. f_equal.
    apply (IH (mkScheduler rest (next_seq self)) Hw'). unfold len. simpl.
    apply Permutation_length in Hp. simpl in Hp. lia.
  - by rewrite Hspec.
Qed.
End Scheduler.

Arguments HeapItem : clear implicits.
Arguments Scheduler : clear implicits.
Arguments SchedOp : clear implicits.

(** The scheduler is a stable priority queue.  After any history of fewer
    than 2^64 operations, popping until the lane is empty yields exactly the
    pending events, each once, in the order of a stable sort by time and then
    priority: evidence invalidations first, ordinary events next, deadline
    timers last, and events equal in both in the order they were pushed. *)
Theorem scheduler_drains_stably {SimEvent} (ops : list (SchedOp SimEvent)) :
  Z.of_nat (length ops) ≤ u64_max →
  let s := fold_left apply_sched ops new in
  drain (len s) s = map (λ i, (when i, ev i)) (stable_sort (heap s))
  ∧ peek_when s = when <$> head (stable_sort (heap s))
  ∧ (∀ i, i ∈ stable_sort (heap s) ↔ i ∈ heap s)
  ∧ in_push_order s.
Proof.
  intros Hmax. cbv zeta.
  assert (in_push_order (fold_left apply_sched ops new)) as Hw
    by (apply sched_history; [apply new_push_order|done]).
  split_and!; [by apply drain_stable_sort| |intros i; by rewrite stable_sort_Permutation|done].
  destruct Hw as (Hs & _). unfold peek_when, peek.
  destruct (pop_min (heap _)) as [[m rest]|] eqn:E.
  - by rewrite (stable_sort_min _ m rest Hs E).
  - pose proof (pop_min_spec _ (push_order_nodup _ Hs)) as Hspec. rewrite E in Hspec.
    by rewrite Hspec.
Qed.

Definition sample_ops : list (SchedOp string) :=
  [PushDeadline 5 "deadline"; Push 5 "first"; Push 3 "early"; Push 5 "second";
   PushInvalidation 5 "gap"].

Lemma scheduler_drains_stably_witness :
  drain 5 (fold_left apply_sched sample_ops new)
  = [(3, "early"); (5, "gap"); (5, "first"); (5, "second"); (5, "deadline")].
Proof.
  destruct (scheduler_drains_stably sample_ops) as [H _]; [vm_compute; discriminate|].
  change 5%nat with (len (fold_left apply_sched sample_ops new)). rewrite H.
  vm_compute. reflexivity.
Defined.
