(* ===== verification/SimReplay.v ===== *)
(** * Time-indexed tables of the simulator

    [ObservedAdmissionReplay] (sim_v2/admission.rs): recorded intervals in which
    new placements were blocked, merged into a sorted disjoint table at startup.
    [MarketRules] (sim_v2/market_rules.rs): per-token venue rules with validity
    intervals, and the partition of an HTTP budget around a known hold.

    Reading a file, splitting it into CSV or JSON fields and parsing the numbers
    are not modelled: a row or a rule is the record of its parsed fields.  An
    error is the reason string of the source, without the line number.

    Proved: both lookups, a binary search each, find exactly the interval that
    contains the given time; the merged table blocks exactly the recorded times;
    a well-formed recording is never rejected; the partition loses no nanosecond. *)

From S2P Require Import Prelude F64.

(** ** Lookup in a sorted table of half-open intervals *)

Section Intervals.
Context {A : Type} (lo hi : A → Z).

(** [slice::partition_point] on a slice that is partitioned by [p]. *)
Fixpoint partition_point (p : A → bool) (l : list A) : nat :=
  match l with
  | [] => 0
  | x :: l => if p x then S (partition_point p l) else 0
  end.

(** [i = partition_point(lo <= now); get(i - 1)], kept if [now < hi]. *)
Definition interval_at (l : list A) (now_ns : Z) : option A :=
  match partition_point (λ x, lo x <=? now_ns) l with
  | O => None
  | S i => match l !! i with
           | Some x => if now_ns <? hi x then Some x else None
           | None => None
           end
  end.

Definition table_ok (l : list A) : Prop :=
  StronglySorted (λ a b, hi a ≤ lo b) l ∧ Forall (λ a, lo a < hi a) l.

Lemma partition_point_le p l : (partition_point p l ≤ length l)%nat.
Proof. induction l as [|x l IH]; simpl; [lia|]. destruct (p x); lia. Qed.

Lemma interval_at_cons x l now :
  interval_at (x :: l) now
  = if lo x <=? now
    then match partition_point (λ y, lo y <=? now) l with
         | O => if now <? hi x then Some x else None
         | S _ => interval_at l now
         end
    else None.
Proof.
  unfold interval_at. simpl. destruct (lo x <=? now); [|done].
  by destruct (partition_point _ l).
Qed.

Lemma interval_at_spec l now x :
  table_ok l → interval_at l now = Some x ↔ x ∈ l ∧ lo x ≤ now < hi x.
Proof.
  intros [Hs Hlt]. induction Hs as [|y l Hs IH Hall].
  { split; [done|]. intros [Hx _]. by apply not_elem_of_nil in Hx. }
  apply Forall_cons in Hlt as [Hy Hlt]. specialize (IH Hlt). rewrite Forall_forall in Hall.
  rewrite interval_at_cons, elem_of_cons. destruct (lo y <=? now) eqn:E; bool_hyps.
  2: { split; [done|]. intros [[->|Hx] ?]; [lia|]. specialize (Hall x Hx). simpl in Hall. lia. }
  destruct l as [|z l]; simpl.
  { split; [|intros [[->|Hx] ?]; [|by apply not_elem_of_nil in Hx]].
    - destruct (now <? hi y) eqn:?; [intros [= ->]|done]. bool_hyps. split; [by left|lia].
    - by replace (now <? hi y) with true by (symmetry; lia). }
  pose proof (Hall z ltac:(left)) as Hz. simpl in Hz.
  destruct (lo z <=? now) eqn:Ez; bool_hyps.
  - rewrite IH. split; [intros [? ?]; auto|]. intros [[->|?] ?]; [lia|auto].
  - apply StronglySorted_inv in Hs as [Hs Hz']. rewrite Forall_forall in Hz'.
    apply Forall_cons in Hlt as [Hzlt Hlt].
    split; [|intros [[->|[->|Hx]%elem_of_cons] ?]; [|lia|]].
    + destruct (now <? hi y) eqn:?; [intros [= ->]|done]. bool_hyps. split; [by left|lia].
    + by replace (now <? hi y) with true by (symmetry; lia).
    + specialize (Hz' x Hx). simpl in Hz'. lia.
Qed.
End Intervals.

(** ** admission.rs *)

Definition MAX_SOURCE_INTERVALS : Z := 262144.

Record GateInterval := mkGate { start_ns : Z; end_ns : Z }.

Record GateRow := mkRow { row_start_ns : Z; row_end_ns : Z; row_seconds : f64 }.

Record ObservedAdmissionReplay := mkReplay {
  intervals : list GateInterval;
  source_interval_count : Z;
  total_blocked_ns : Z }.

(** The duration column agrees with the endpoints up to rounding. *)
Definition f64_epsilon : f64 := (f64_one / f64_of_Z (2 ^ 52))%f64.

Definition duration_agrees (row : GateRow) : bool :=
  let expected_seconds := (f64_of_Z (row_end_ns row - row_start_ns row) / f64_of_Z (10 ^ 9))%f64 in
  let tolerance := f64_max (f64_dec 1 9) (f64_of_Z 8 * f64_epsilon * expected_seconds)%f64 in
  negb (f64_abs (row_seconds row - expected_seconds) >? tolerance)%f64.

Definition duration_positive (row : GateRow) : bool :=
  is_finite (row_seconds row) && negb (row_seconds row <=? f64_zero)%f64.

Arguments duration_agrees : simpl never.
Arguments duration_positive : simpl never.

(** Merge into the last interval, or start a new one; the table is kept with
    its last interval first. *)
Definition merge_row (acc : list GateInterval) (row : GateRow) : list GateInterval :=
  match acc with
  | last :: rest =>
      if row_start_ns row <=? end_ns last
      then mkGate (start_ns last) (Z.max (end_ns last) (row_end_ns row)) :: rest
      else mkGate (row_start_ns row) (row_end_ns row) :: acc
  | [] => [mkGate (row_start_ns row) (row_end_ns row)]
  end.

Fixpoint read_rows (rows : list GateRow) (acc : list GateInterval) (source_count : Z)
    (previous_start : option Z) : string + list GateInterval * Z :=
  match rows with
  | [] => inr (reverse acc, source_count)
  | row :: rows =>
      if source_count =? MAX_SOURCE_INTERVALS then inl "source interval capacity exceeded"
      else if row_end_ns row <=? row_start_ns row then inl "interval must satisfy start_ns < end_ns"
      else if match previous_start with Some p => row_start_ns row <? p | None => false end
      then inl "interval starts are not nondecreasing"
      else if negb (duration_positive row) then inl "duration_seconds must be finite and positive"
      else if negb (duration_agrees row) then inl "duration_seconds disagrees with integer endpoints"
      else read_rows rows (merge_row acc row) (source_count + 1) (Some (row_start_ns row))
  end.

(** [try_fold] of the merged durations with [checked_add]. *)
Fixpoint checked_total (l : list GateInterval) (total : Z) : option Z :=
  match l with
  | [] => Some total
  | i :: l => match checked_add total (end_ns i - start_ns i) with
              | Some total => checked_total l total
              | None => None
              end
  end.

Definition from_rows (rows : list GateRow) : string + ObservedAdmissionReplay :=
  match read_rows rows [] 0 None with
  | inl e => inl e
  | inr (l, n) =>
      match checked_total l 0 with
      | Some total => inr (mkReplay l n total)
      | None => inl "merged duration overflow"
      end
  end.

Definition blocked (self : ObservedAdmissionReplay) (now_ns : Z) : bool :=
  let index := partition_point (λ i, start_ns i <=? now_ns) (intervals self) in
  match index with
  | O => false
  | S i => match intervals self !! i with
           | Some interval => now_ns <? end_ns interval
           | None => false
           end
  end.

(** ** market_rules.rs *)

Definition MAX_RULES : Z := 16384.

Inductive RuleEvidence := HistoricalMarketSnapshot | ModeledSensitivity.

#[export] Instance RuleEvidence_eq_dec : EqDecision RuleEvidence.
Proof. solve_decision. Defined.

Record MarketRule := mkRule {
  token : string;
  valid_from_ns : Z;
  valid_until_ns : Z;
  taker_hold_ms : Z;
  evidence : RuleEvidence;
  provenance : string }.

Record Journal := mkJournal {
  schema_version : Z;
  mode : string;
  rules : list MarketRule }.

Record MarketRules := mkRules {
  by_token : gmap string (list MarketRule);
  historical_rules : Z;
  sensitivity_rules : Z }.

Definition no_rules : MarketRules := mkRules ∅ 0 0.

Definition add_rule (historical : bool) (out : MarketRules) (rule : MarketRule) :
    string + MarketRules :=
  if negb (negb (String.eqb (token rule) "") && (String.length (token rule) <=? 256)%nat
           && negb (blank (provenance rule)))
  then inl "market rule lacks token/provenance"
  else if negb ((valid_from_ns rule <? valid_until_ns rule) && (taker_hold_ms rule <=? 10000))
  then inl "invalid market rule time/hold"
  else if negb (Bool.eqb historical (bool_decide (evidence rule = HistoricalMarketSnapshot)))
  then inl "market rule evidence does not match journal mode"
  else
    inr (mkRules
           (<[token rule := default [] (by_token out !! token rule) ++ [rule]]> (by_token out))
           (historical_rules out + match evidence rule with HistoricalMarketSnapshot => 1 | _ => 0 end)
           (sensitivity_rules out + match evidence rule with ModeledSensitivity => 1 | _ => 0 end)).

Fixpoint add_rules (historical : bool) (out : MarketRules) (rules : list MarketRule) :
    string + MarketRules :=
  match rules with
  | [] => inr out
  | rule :: rules =>
      match add_rule historical out rule with
      | inl e => inl e
      | inr out => add_rules historical out rules
      end
  end.

Definition from_le (a b : MarketRule) : Prop := valid_from_ns a ≤ valid_from_ns b.

#[export] Instance from_le_dec : RelDecision from_le.
Proof. unfold from_le. intros a b. apply _. Defined.

(** [windows(2).all(|w| w[0].valid_until_ns <= w[1].valid_from_ns)] *)
Fixpoint disjoint_windows (l : list MarketRule) : bool :=
  match l with
  | a :: ((b :: _) as l') => (valid_until_ns a <=? valid_from_ns b) && disjoint_windows l'
  | _ => true
  end.

(** The part of [from_json] after deserialisation.  The rules of each token are
    sorted by start; equal starts overlap and are rejected, so an unstable sort
    gives the same result. *)
Definition from_journal (j : Journal) : string + MarketRules :=
  if negb ((schema_version j =? 1)
           && (String.eqb (mode j) "historical" || String.eqb (mode j) "sensitivity"))
  then inl "unsupported market rules version/mode"
  else if MAX_RULES <? Z.of_nat (length (rules j)) then inl "too many market rules"
  else
    match add_rules (String.eqb (mode j) "historical") no_rules (rules j) with
    | inl e => inl e
    | inr out =>
        let sorted := merge_sort from_le <$> by_token out in
        if forallb (λ p, disjoint_windows (snd p)) (map_to_list sorted)
        then inr (mkRules sorted (historical_rules out) (sensitivity_rules out))
        else inl "overlapping market rule intervals"
    end.

(** [MarketRules::at] *)
Definition rule_at (self : MarketRules) (tok : string) (now_ns : Z) : option MarketRule :=
  match by_token self !! tok with
  | None => None
  | Some l => interval_at valid_from_ns valid_until_ns l now_ns
  end.

(** The longest hold a rule can ask for: [add_rule] accepts at most 10000 ms. *)
Definition MAX_HOLD_NS : Z := 10000 * 1000000.

(** For [hold_ns] within two of the largest u64 the guard's saturating addition
    would let the [clamp] below run on an empty range, which panics; holds come
    from accepted rules and stay below [MAX_HOLD_NS]. *)
Definition partition_hold_budget (total_ns hold_ns outbound_bps : Z) : string + Z * Z :=
  if negb ((1 <=? outbound_bps) && (outbound_bps <? 10000)) then inl "invalid outbound fraction"
  else if negb (hold_ns +s 2 <=? total_ns)
  then inl "observed RTT cannot contain the configured taker hold and two positive legs"
  else
    let remaining := total_ns - hold_ns in
    let l1 := remaining * outbound_bps / 10000 in
    let l1 := Z.max 1 (Z.min l1 (remaining - 1)) in
    inr (l1, remaining - l1).

(** ** The merged gate table *)

Definition contains (i : GateInterval) (t : Z) : Prop := start_ns i ≤ t < end_ns i.
Definition row_contains (r : GateRow) (t : Z) : Prop := row_start_ns r ≤ t < row_end_ns r.

(** The reversed table: every interval is non-empty and ends strictly before the
    next one starts. *)
Definition gates_ok (acc : list GateInterval) : Prop :=
  StronglySorted (λ b a, end_ns a < start_ns b) acc ∧ Forall (λ i, start_ns i < end_ns i) acc.

Lemma merge_row_ok acc row previous :
  gates_ok acc → row_start_ns row < row_end_ns row →
  (∀ last rest, acc = last :: rest → start_ns last ≤ previous) → previous ≤ row_start_ns row →
  gates_ok (merge_row acc row)
  ∧ (∀ last rest, merge_row acc row = last :: rest → start_ns last ≤ row_start_ns row)
  ∧ ∀ t, (∃ i, i ∈ merge_row acc row ∧ contains i t)
         ↔ (∃ i, i ∈ acc ∧ contains i t) ∨ row_contains row t.
Proof.
  intros [Hs Hlt] Hrow Hlast Hprev. unfold merge_row. destruct acc as [|last rest].
  - split_and!; [split; repeat constructor; done|by intros ?? [= <- <-]|].
    intros t. unfold contains, row_contains. setoid_rewrite list_elem_of_singleton.
    split; [intros (? & -> & ?); by right|]. intros [(i & Hi & _)|?]; [by apply not_elem_of_nil in Hi|].
    eexists. by split.
  - specialize (Hlast last rest eq_refl). apply StronglySorted_inv in Hs as [Hs Hall].
    apply Forall_cons in Hlt as [Hl Hlt].
    destruct (row_start_ns row <=? end_ns last) eqn:E; bool_hyps.
    + split_and!; [split; constructor; simpl; try done; lia|intros ?? [= <- <-]; simpl; lia|].
      intros t. setoid_rewrite elem_of_cons. unfold contains, row_contains. split.
      * intros (i & [->|Hi] & Ht); simpl in *; [|left; eauto].
        destruct (decide (t < end_ns last)); [left; exists last; split; [by left|lia]|right; lia].
      * intros [(i & [->|Hi] & Ht)|Ht]; [|eauto|];
          (eexists; split; [by left|simpl; lia]).
    + split_and!; [split; constructor; simpl; try done|intros ?? [= <- <-]; simpl; lia|].
      * by constructor.
      * constructor; [lia|]. eapply Forall_impl; [exact Hall|]. simpl. intros; lia.
      * by constructor.
      * intros t. setoid_rewrite (elem_of_cons (last :: rest)). unfold contains, row_contains. split.
        -- intros (i & [->|Hi] & Ht); [by right|left; eauto].
        -- intros [(i & Hi & Ht)|Ht]; [eauto|]. eexists. split; [by left|done].
Qed.

Definition rows_ordered (previous : option Z) (acc : list GateInterval) : Prop :=
  match previous with
  | None => acc = []
  | Some p => ∀ last rest, acc = last :: rest → start_ns last ≤ p
  end.

(** Each row is non-empty, starts no earlier than the one before, and carries a
    duration that agrees with its endpoints. *)
Fixpoint rows_valid (previous : option Z) (rows : list GateRow) : bool :=
  match rows with
  | [] => true
  | row :: rows =>
      (row_start_ns row <? row_end_ns row)
      && match previous with Some p => p <=? row_start_ns row | None => true end
      && duration_positive row && duration_agrees row
      && rows_valid (Some (row_start_ns row)) rows
  end.

Lemma read_rows_valid rows acc n previous :
  n ≤ MAX_SOURCE_INTERVALS →
  (∃ r, read_rows rows acc n previous = inr r)
  ↔ rows_valid previous rows = true ∧ n + Z.of_nat (length rows) ≤ MAX_SOURCE_INTERVALS.
Proof.
  revert acc n previous. induction rows as [|row rows IH]; intros acc n previous Hn;
    cbn [read_rows rows_valid length].
  { split; [intros _; split; [done|lia]|eauto]. }
  destruct (n =? MAX_SOURCE_INTERVALS) eqn:En; bool_hyps.
  { split; [by intros [? ?]|]. intros [_ H]. lia. }
  rewrite Z.leb_antisym.
  destruct (row_start_ns row <? row_end_ns row); cbn [negb andb]; [|by split; [intros []|intros [? _]]].
  assert (match previous with Some p => row_start_ns row <? p | None => false end
    = negb (match previous with Some p => p <=? row_start_ns row | None => true end)) as ->
    by (by destruct previous; [apply Z.ltb_antisym|]).
  destruct (match previous with Some p => p <=? row_start_ns row | None => true end); cbn [negb andb];
    [|by split; [intros []|intros [? _]]].
  destruct (duration_positive row); cbn [negb andb]; [|by split; [intros []|intros [? _]]].
  destruct (duration_agrees row); cbn [negb andb]; [|by split; [intros []|intros [? _]]].
  rewrite IH by lia. split; intros [Hv H]; (split; [done|lia]).
Qed.

Lemma read_rows_spec rows acc n previous l n' :
  gates_ok acc → rows_ordered previous acc → read_rows rows acc n previous = inr (l, n') →
  gates_ok (reverse l) ∧ n' = n + Z.of_nat (length rows)
  ∧ ∀ t, (∃ i, i ∈ l ∧ contains i t)
         ↔ (∃ i, i ∈ acc ∧ contains i t) ∨ ∃ row, row ∈ rows ∧ row_contains row t.
Proof.
  revert acc n previous. induction rows as [|row rows IH]; intros acc n previous Hok Hord H; cbn [read_rows] in H.
  { simplify_eq. rewrite reverse_involutive. split_and!; [done|cbn [length]; lia|]. intros t.
    setoid_rewrite elem_of_reverse. split; [by left|]. intros [?|(r & Hr & _)]; [done|].
    by apply not_elem_of_nil in Hr. }
  destruct (n =? MAX_SOURCE_INTERVALS); [done|].
  destruct (row_end_ns row <=? row_start_ns row) eqn:Hne; [done|]. bool_hyps.
  destruct (match previous with Some p => row_start_ns row <? p | None => false end) eqn:Hp; [done|].
  destruct (negb (duration_positive row)), (negb (duration_agrees row)); try done.
  set (p := match previous with Some p => p | None => row_start_ns row end).
  destruct (merge_row_ok acc row p Hok Hne) as (Hok' & Hlast & Hcov).
  { destruct previous as [q|]; [exact Hord|]. simpl in Hord. by subst acc. }
  { unfold p. destruct previous; [by bool_hyps|lia]. }
  apply (IH _ _ (Some (row_start_ns row)) Hok' Hlast) in H as (? & -> & Ht). split_and!; [done|cbn [length]; lia|].
  intros t. rewrite Ht, Hcov. setoid_rewrite elem_of_cons. split.
  - intros [[?|?]|(r & ? & ?)]; eauto.
  - intros [?|(r & [->|?] & ?)]; eauto.
Qed.

Lemma checked_total_sum l total :
  StronglySorted (λ a b, end_ns a < start_ns b) l →
  Forall (λ i, start_ns i < end_ns i ≤ u64_max) l →
  (∀ i, i ∈ l → total ≤ start_ns i) →
  checked_total l total = Some (total + foldr (λ i s, end_ns i - start_ns i + s) 0 l).
Proof.
  intros Hs. revert total. induction Hs as [|x l Hs IH Hall]; intros total Hb Hle; simpl.
  { f_equal. lia. }
  apply Forall_cons in Hb as [Hx Hb]. specialize (Hle x ltac:(left)) as Hlx.
  unfold checked_add. replace (_ <=? u64_max) with true by (symmetry; lia).
  rewrite IH; [f_equal; lia|done|].
  intros i Hi. rewrite Forall_forall in Hall. specialize (Hall i Hi). simpl in Hall. lia.
Qed.

Lemma blocked_interval_at self t :
  blocked self t = true ↔ is_Some (interval_at start_ns end_ns (intervals self) t).
Proof.
  unfold blocked, interval_at. destruct (partition_point _ _) as [|i].
  { split; [done|]. by intros [? ?]. }
  destruct (intervals self !! i) as [g|]; [|split; [done|by intros [? ?]]].
  destruct (t <? end_ns g); split; try done; by intros [].
Qed.

Definition rows_in_range (rows : list GateRow) : Prop :=
  ∀ r, r ∈ rows → is_u64 (row_start_ns r) ∧ is_u64 (row_end_ns r).

(** All endpoints of the merged table are endpoints of rows. *)
Lemma merge_row_range acc row :
  (∀ i, i ∈ acc → 0 ≤ start_ns i ∧ end_ns i ≤ u64_max) →
  0 ≤ row_start_ns row → row_end_ns row ≤ u64_max →
  ∀ i, i ∈ merge_row acc row → 0 ≤ start_ns i ∧ end_ns i ≤ u64_max.
Proof.
  intros Hacc H0 Hmax i. unfold merge_row. destruct acc as [|last rest].
  - intros ->%list_elem_of_singleton. done.
  - pose proof (Hacc last ltac:(left)).
    destruct (_ <=? _); intros [->|Hi]%elem_of_cons; simpl; try lia; apply Hacc; [by right|done].
Qed.

Lemma read_rows_range rows acc n previous l n' :
  (∀ i, i ∈ acc → 0 ≤ start_ns i ∧ end_ns i ≤ u64_max) → rows_in_range rows →
  read_rows rows acc n previous = inr (l, n') → ∀ i, i ∈ l → 0 ≤ start_ns i ∧ end_ns i ≤ u64_max.
Proof.
  revert acc n previous. induction rows as [|row rows IH]; intros acc n previous Hacc Hr H;
    cbn [read_rows] in H.
  { simplify_eq. intros i. rewrite elem_of_reverse. apply Hacc. }
  repeat match type of H with (if ?b then _ else _) = _ => destruct b; [done|] end.
  eapply IH; [| |exact H].
  - destruct (Hr row ltac:(left)) as [[? ?] [? ?]]. by apply merge_row_range.
  - intros r ?. apply Hr. by right.
Qed.

Lemma gates_table l : gates_ok (reverse l) →
  StronglySorted (λ a b, end_ns a < start_ns b) l ∧ table_ok start_ns end_ns l.
Proof.
  intros [Hs Hlt]. apply StronglySorted_reverse in Hs. rewrite reverse_involutive in Hs.
  apply Forall_reverse in Hlt. rewrite reverse_involutive in Hlt. split; [exact Hs|split; [|done]].
  clear Hlt. induction Hs as [|x l Hs IH Hall]; constructor; [done|].
  eapply Forall_impl; [exact Hall|]. simpl. unfold flip. intros; lia.
Qed.

(** The recorded gate is replayed exactly.  On rows with u64 endpoints, a
    table is built precisely when the rows are well formed and within capacity
    (the overflow error of the total cannot occur); the built table blocks
    exactly the instants inside some recorded interval, its intervals are
    sorted and separated by gaps, and the reported total is their length. *)
Theorem gate_replay_exact rows :
  rows_in_range rows →
  ((∃ r, from_rows rows = inr r)
   ↔ rows_valid None rows = true ∧ Z.of_nat (length rows) ≤ MAX_SOURCE_INTERVALS)
  ∧ ∀ r, from_rows rows = inr r →
    (∀ t, blocked r t = true ↔ ∃ row, row ∈ rows ∧ row_contains row t)
    ∧ StronglySorted (λ a b, end_ns a < start_ns b) (intervals r)
    ∧ source_interval_count r = Z.of_nat (length rows)
    ∧ total_blocked_ns r = foldr (λ i s, end_ns i - start_ns i + s) 0 (intervals r).
Proof.
  intros Hrange. pose proof (read_rows_valid rows [] 0 None ltac:(unfold MAX_SOURCE_INTERVALS; lia)) as Hvalid.
  assert (∀ l n, read_rows rows [] 0 None = inr (l, n) →
    checked_total l 0 = Some (foldr (λ i s, end_ns i - start_ns i + s) 0 l)) as Htotal.
  { intros l n H. destruct (read_rows_spec rows [] 0 None l n) as (Hok & _ & _); try done.
    { split; constructor. }
    apply gates_table in Hok as [Hs [_ Hlt]].
    pose proof (read_rows_range rows [] 0 None l n ltac:(set_solver) Hrange H) as Hb.
    rewrite checked_total_sum; [f_equal; lia|done| |intros i Hi; by apply Hb].
    rewrite Forall_forall in *. intros i Hi. specialize (Hlt i Hi). specialize (Hb i Hi). simpl in *. lia. }
  unfold from_rows. split.
  - rewrite <- (Z.add_0_l (Z.of_nat _)), <- Hvalid.
    destruct (read_rows rows [] 0 None) as [e|[l n]]; [by split; intros [? ?]|].
    rewrite (Htotal l n eq_refl). split; eauto.
  - intros r. destruct (read_rows rows [] 0 None) as [e|[l n]] eqn:E; [done|].
    rewrite (Htotal l n eq_refl). intros [= <-]. simpl.
    destruct (read_rows_spec rows [] 0 None l n) as (Hok & -> & Hcov); try done.
    { split; constructor. }
    apply gates_table in Hok as [Hs Htab]. split_and!; try done.
    intros t. rewrite blocked_interval_at. simpl.
    transitivity (∃ i, i ∈ l ∧ contains i t).
    + split; [intros [i Hi]; exists i; by apply interval_at_spec in Hi|].
      intros (i & Hi). exists i. by apply interval_at_spec.
    + rewrite Hcov. split; [|by right]. intros [(i & Hi & _)|?]; [by apply not_elem_of_nil in Hi|done].
Qed.

Definition sample_rows : list GateRow :=
  [mkRow 1000000000 3000000000 (f64_of_Z 2); mkRow 2000000000 5000000000 (f64_of_Z 3);
   mkRow 7000000000 8000000000 f64_one].

Lemma gate_replay_exact_witness :
  ∃ r, from_rows sample_rows = inr r
       ∧ (blocked r 4000000000 = true ↔ ∃ row, row ∈ sample_rows ∧ row_contains row 4000000000).
Proof.
  assert (Hr : rows_in_range sample_rows).
  { unfold rows_in_range, sample_rows, is_u64, u64_max. intros r Hr.
    rewrite !elem_of_cons in Hr. destruct Hr as [->|[->|[->|Hr]]]; simpl; try lia.
    by apply not_elem_of_nil in Hr. }
  destruct (gate_replay_exact sample_rows Hr) as [Hv He].
  destruct (proj2 Hv) as [r Hrr]; [split; [vm_compute; reflexivity|vm_compute; discriminate]|].
  exists r. split; [exact Hrr|]. exact (proj1 (He r Hrr) 4000000000).
Defined.

(** ** The market rules *)

Definition rule_ok (r : MarketRule) : Prop := valid_from_ns r < valid_until_ns r.

Lemma add_rules_spec h out rs out' :
  add_rules h out rs = inr out' →
  (∀ t r, r ∈ default [] (by_token out' !! t)
          ↔ r ∈ default [] (by_token out !! t) ∨ (r ∈ rs ∧ token r = t))
  ∧ Forall rule_ok rs.
Proof.
  revert out. induction rs as [|rule rs IH]; intros out; simpl.
  { intros [= <-]. split; [|constructor]. intros t r.
    split; [by left|]. intros [?|[Hr _]]; [done|by apply not_elem_of_nil in Hr]. }
  unfold add_rule.
  destruct (negb (negb _ && _ && _)); [done|].
  destruct (negb (_ && _)) eqn:Hb; [done|]. bool_hyps.
  destruct (negb (Bool.eqb _ _)); [done|].
  intros Hr. apply IH in Hr as [Hin Hok]. split; [|constructor; done].
  intros t r. rewrite Hin. simpl. setoid_rewrite elem_of_cons.
  destruct (decide (token rule = t)) as [<-|Hne].
  - rewrite lookup_insert_eq. simpl. rewrite elem_of_app, list_elem_of_singleton. naive_solver.
  - rewrite lookup_insert_ne by done. naive_solver.
Qed.

Lemma disjoint_windows_sorted l :
  Forall rule_ok l → disjoint_windows l = true →
  StronglySorted (λ a b, valid_until_ns a ≤ valid_from_ns b) l.
Proof.
  intros Hok. induction l as [|a l IH]; [constructor|]. apply Forall_cons in Hok as [Ha Hok].
  destruct l as [|b l]; [repeat constructor|]. cbn [disjoint_windows].
  intros Hd. bool_hyps. specialize (IH Hok ltac:(done)). constructor; [done|].
  apply StronglySorted_inv in IH as [_ Hall]. apply Forall_cons in Hok as [Hb _].
  constructor; [done|]. eapply Forall_impl; [exact Hall|].
  unfold rule_ok in *. simpl. intros; lia.
Qed.

(** A journal accepted by [from_json] answers every query exactly: the rule
    in force for a token at a time is the journal's rule for that token whose
    validity interval contains the time, and there is no other. *)
Theorem market_rule_at_exact j out tok now r :
  from_journal j = inr out →
  rule_at out tok now = Some r
  ↔ r ∈ rules j ∧ token r = tok ∧ valid_from_ns r ≤ now < valid_until_ns r.
Proof.
  unfold from_journal. destruct (negb _); [done|]. destruct (_ <? _); [done|].
  destruct (add_rules _ _ _) as [e|m] eqn:E; [done|].
  apply add_rules_spec in E as [Hin Hok].
  destruct (forallb _ _) eqn:Hd; [|done]. intros [= <-].
  unfold rule_at. simpl. rewrite lookup_fmap.
  specialize (Hin tok). destruct (by_token m !! tok) as [l|] eqn:Hl; simpl in *.
  - assert (Hmem : ∀ x, x ∈ merge_sort from_le l ↔ x ∈ rules j ∧ token x = tok).
    { intros x. rewrite (merge_sort_Permutation from_le l), Hin. unfold no_rules. simpl.
      rewrite lookup_empty. simpl. set_solver. }
    rewrite interval_at_spec, Hmem; [naive_solver|].
    assert (Forall rule_ok (merge_sort from_le l)) as Hok'.
    { rewrite Forall_forall in *. intros x Hx. apply Hok. by apply Hmem in Hx as [? _]. }
    split; [|done]. apply disjoint_windows_sorted; [done|].
    rewrite forallb_forall in Hd. apply (Hd (tok, merge_sort from_le l)).
    apply list_elem_of_In, elem_of_map_to_list. by rewrite lookup_fmap, Hl.
  - split; [done|]. intros (Hr & Ht & _). exfalso.
    apply (not_elem_of_nil r), Hin. by right.
Qed.

Definition sample_journal : Journal :=
  mkJournal 1 "historical"
    [mkRule "t" 100 200 250 HistoricalMarketSnapshot "snap";
     mkRule "t" 10 100 0 HistoricalMarketSnapshot "snap"].

Lemma market_rule_at_exact_witness :
  ∃ out, from_journal sample_journal = inr out
  ∧ (rule_at out "t" 100 = Some (mkRule "t" 100 200 250 HistoricalMarketSnapshot "snap")).
Proof.
  eexists. split; [vm_compute; reflexivity|].
  apply (market_rule_at_exact sample_journal); [vm_compute; reflexivity|].
  simpl. split_and!; [left|done|lia|lia].
Defined.

(** For every hold an accepted rule can carry, splitting an observed round trip around the venue hold loses nothing and
    leaves two positive legs; it fails exactly for a fraction outside (0, 1) or
    a budget too small for the hold and one nanosecond on either side. *)
Theorem partition_hold_budget_conserves total hold bps :
  is_u64 total → 0 ≤ hold ≤ MAX_HOLD_NS →
  match partition_hold_budget total hold bps with
  | inr (l1, l2) => l1 + hold + l2 = total ∧ 1 ≤ l1 ∧ 1 ≤ l2
  | inl _ => bps < 1 ∨ 10000 ≤ bps ∨ total < hold + 2
  end.
Proof.
  intros Ht Hh. unfold partition_hold_budget.
  destruct (negb (_ && _)) eqn:E1.
  { apply negb_true_iff, andb_false_iff in E1 as [?|?]; bool_hyps; lia. }
  unfold MAX_HOLD_NS in Hh. destruct (negb (_ <=? _)) eqn:E2; bool_hyps; [word|].
  set (l1 := Z.max 1 _). assert (1 ≤ l1 ≤ total - hold - 1) by word. lia.
Qed.

Lemma partition_hold_budget_conserves_witness :
  partition_hold_budget 700 250 5000 = inr (225, 225) ∧ 225 + 250 + 225 = 700.
Proof.
  assert (is_u64 700 ∧ 0 ≤ 250 ≤ MAX_HOLD_NS) as [Ht Hh]
    by (unfold is_u64, u64_max, MAX_HOLD_NS; lia).
  split; [vm_compute; reflexivity|].
  exact (proj1 (partition_hold_budget_conserves 700 250 5000 Ht Hh)).
Defined.
