(* ===== verification/SimTiming.v ===== *)
(** * Stage timing of simulated cancels

    [CancelTiming] and [ExecutionTimingAudit] (sim_v2/timing.rs): how an observed
    HTTP round trip is split into an outbound leg, exchange processing and a
    return leg, and the bounded audit queue of execution stages.

    A panic of the source ([expect], [assert!], a full audit) is [None].

    Proved: each of the three constructors accounts for every nanosecond of the
    round trip and keeps the stage times in order, for every input it accepts; a
    transport budget validates exactly when it was built from its own endpoints;
    the audit loses, duplicates and reorders nothing. *)

From S2P Require Import Prelude F64 Types.

Definition EXECUTION_TIMING_CAPACITY : Z := 16384.

Inductive CancelTimingMode := LegacyL2Multiplier | StagedRttBudget | StagedRttFraction.

#[export] Instance CancelTimingMode_eq_dec : EqDecision CancelTimingMode.
Proof. solve_decision. Defined.

Definition from_str (value : string) : string + CancelTimingMode :=
  if String.eqb value "legacy_l2_multiplier" then inr LegacyL2Multiplier
  else if String.eqb value "staged_rtt_budget" then inr StagedRttBudget
  else if String.eqb value "staged_rtt_fraction" then inr StagedRttFraction
  else inl ("invalid sim_v2_cancel_timing_mode: " +:+ value).

Definition is_staged (self : CancelTimingMode) : bool := bool_decide (self ≠ LegacyL2Multiplier).

Record CancelTiming := mkTiming {
  dispatch_ns : Z;
  input_l1_ns : Z;
  input_l2_ns : Z;
  rtt_ns : Z;
  network_l1_ns : Z;
  processing_requested_ns : Z;
  processing_ns : Z;
  post_effect_ns : Z;
  network_l2_ns : Z;
  transport_lower_ns : option Z;
  transport_upper_ns : option Z;
  nominal_arrival_ns : Z;
  nominal_effective_ns : Z;
  nominal_http_ns : Z;
  processing_capped : bool;
  evidence_confidence : string }.

#[export] Instance CancelTiming_eq_dec : EqDecision CancelTiming.
Proof. solve_decision. Defined.

Definition partition (dispatch l1 l2 requested : Z) : option CancelTiming :=
  rtt ← checked_add l1 l2;
  let processing := Z.min requested rtt in
  let network := rtt - processing in
  let outbound := if rtt =? 0 then 0 else (network * l1 + rtt / 2) / rtt in
  arrival ← checked_add dispatch outbound;
  effective ← checked_add arrival processing;
  http ← checked_add dispatch rtt;
  Some (mkTiming dispatch l1 l2 rtt outbound requested processing 0 (network - outbound)
          None None arrival effective http (rtt <? requested) "estimated_rtt_partition").

(** [u64::from(b)] *)
Definition of_bool (b : bool) : Z := if b then 1 else 0.

Definition clamp (x lo hi : Z) : Z := Z.min hi (Z.max lo x).

Definition fraction (dispatch l1 l2 processing_bps : Z) : option CancelTiming :=
  if negb (processing_bps <? 10000) then None
  else
    rtt ← checked_add l1 l2;
    let requested :=
      Z.min (rtt * processing_bps / 10000) (rtt - of_bool (0 <? l1) - of_bool (0 <? l2)) in
    t ← partition dispatch l1 l2 requested;
    let t :=
      if (0 <? l1) && (0 <? l2) then
        let network := rtt - requested in
        let out := clamp (network_l1_ns t) 1 (network - 1) in
        t <| network_l1_ns := out |> <| network_l2_ns := network - out |>
          <| nominal_arrival_ns := dispatch + out |>
          <| nominal_effective_ns := dispatch + out + requested |>
      else t in
    Some (t <| evidence_confidence := "assumed_fraction_of_observed_rtt" |>).

Definition from_transport_stages (dispatch completed lower upper arrival effective return_ns : Z) :
    string + CancelTiming :=
  if negb ((dispatch <? lower) && (lower <=? arrival) && (arrival <=? effective)
           && (effective <=? upper) && (upper <=? completed) && (effective <? completed))
     || (return_ns =? 0) || (completed - effective <? return_ns)
  then inl "invalid cancel transport clock ordering/budget"
  else
    let rtt := completed - dispatch in
    inr (mkTiming dispatch (rtt / 2) (rtt - rtt / 2) rtt (arrival - dispatch) (effective - arrival)
           (effective - arrival) (completed - effective - return_ns) return_ns
           (Some lower) (Some upper) arrival effective completed false
           "modeled_with_client_transport_bounds").

Definition validate_transport_stages (self : CancelTiming) : string + unit :=
  match transport_lower_ns self with
  | None => inl "missing cancel transport lower bound"
  | Some lower =>
      match transport_upper_ns self with
      | None => inl "missing cancel transport upper bound"
      | Some upper =>
          match from_transport_stages (dispatch_ns self) (nominal_http_ns self) lower upper
                  (nominal_arrival_ns self) (nominal_effective_ns self) (network_l2_ns self) with
          | inl e => inl e
          | inr rebuilt => if bool_decide (self = rebuilt) then inr tt
                           else inl "mutated cancel transport budget"
          end
      end
  end.

Definition after_effect_ns (self : CancelTiming) : option Z :=
  checked_add (post_effect_ns self) (network_l2_ns self).

Inductive ExecutionStage :=
| CancelDispatched | CancelArrived | CancelEffective | HttpScheduled | HttpDelivered | HttpSuppressed
| HttpLateDiscarded | HttpDeadline | PrivateMatched | PrivateScheduled | PrivateDelivered.

Record ExecutionTimingRow := mkTimingRow {
  schema_version : Z;
  stage : ExecutionStage;
  coid : string;
  iid : string;
  row_token : string;
  trade_id : string;
  order_slot : Z;
  request_id : option Z;
  actual_ns : Z;
  scheduled_ns : option Z;
  deadline_ns : option Z;
  row_status : option OrderStatus;
  fill_quantity : f64;
  exchange_event_timestamp_ns : option Z;
  timing : option CancelTiming }.

(** [ArrayString::<128>::from(value).expect(..)] *)
Definition inline_identity (value : string) : option string :=
  if (String.length value <=? 128)%nat then Some value else None.

Record ExecutionTimingStats := mkStats {
  enabled : bool;
  emitted : Z;
  drained : Z;
  queued : Z;
  high_water : Z;
  capacity : Z;
  overflows : Z }.

Record ExecutionTimingAudit := mkAudit {
  rows : list ExecutionTimingRow;
  audit_stats : ExecutionTimingStats }.

Definition new (on : bool) : ExecutionTimingAudit :=
  mkAudit [] (mkStats on 0 0 0 0 EXECUTION_TIMING_CAPACITY 0).

(** [None] is the panic that aborts the replay. *)
Definition push (self : ExecutionTimingAudit) (row : ExecutionTimingRow) : option ExecutionTimingAudit :=
  if negb (enabled (audit_stats self)) then Some self
  else if Z.of_nat (length (rows self)) =? EXECUTION_TIMING_CAPACITY then None
  else
    let rows' := rows self ++ [row] in
    let st := audit_stats self in
    Some (mkAudit rows'
            (st <| emitted := emitted st + 1 |>
                <| high_water := Z.max (high_water st) (Z.of_nat (length rows')) |>)).

Definition drain (self : ExecutionTimingAudit) : list ExecutionTimingRow * ExecutionTimingAudit :=
  let st := audit_stats self in
  (rows self, mkAudit [] (st <| drained := drained st + Z.of_nat (length (rows self)) |>)).

Definition stats (self : ExecutionTimingAudit) : ExecutionTimingStats :=
  (audit_stats self) <| queued := Z.of_nat (length (rows self)) |>.

(** ** The round trip is conserved *)

(** Every nanosecond between dispatch and completion belongs to one stage, and
    the stages follow each other. *)
Record conserves (t : CancelTiming) : Prop := {
  cs_rtt : network_l1_ns t + processing_ns t + post_effect_ns t + network_l2_ns t = rtt_ns t;
  cs_legs : 0 ≤ network_l1_ns t ∧ 0 ≤ processing_ns t ∧ 0 ≤ post_effect_ns t ∧ 0 ≤ network_l2_ns t;
  cs_arrival : nominal_arrival_ns t = dispatch_ns t + network_l1_ns t;
  cs_effective : nominal_effective_ns t = nominal_arrival_ns t + processing_ns t;
  cs_http : nominal_http_ns t = dispatch_ns t + rtt_ns t;
  cs_input : input_l1_ns t + input_l2_ns t = rtt_ns t }.

Lemma conserves_after_effect t :
  conserves t → rtt_ns t ≤ u64_max →
  after_effect_ns t = Some (nominal_http_ns t - nominal_effective_ns t).
Proof.
  intros [] H. unfold after_effect_ns, checked_add.
  replace (_ <=? u64_max) with true by (symmetry; lia). f_equal. lia.
Qed.

Lemma outbound_le network l1 rtt :
  0 ≤ network → 0 ≤ l1 ≤ rtt → 0 < rtt → 0 ≤ (network * l1 + rtt / 2) / rtt ≤ network.
Proof.
  intros Hn Hl Hr. assert (0 ≤ rtt / 2 < rtt) by (split; [apply Z.div_pos|apply Z.div_lt]; lia).
  split; [apply Z.div_pos; nia|].
  apply Z.lt_succ_r, Z.div_lt_upper_bound; nia.
Qed.

Lemma checked_add_Some a b c : checked_add a b = Some c ↔ c = a + b ∧ a + b ≤ u64_max.
Proof. unfold checked_add. destruct (_ <=? _) eqn:E; bool_hyps; split; intros; simplify_eq; try lia; f_equal; lia. Qed.

Lemma partition_spec d l1 l2 requested :
  0 ≤ d → 0 ≤ l1 → 0 ≤ l2 → 0 ≤ requested →
  match partition d l1 l2 requested with
  | Some t => conserves t ∧ d + l1 + l2 ≤ u64_max ∧ post_effect_ns t = 0 ∧ rtt_ns t = l1 + l2
              ∧ dispatch_ns t = d ∧ processing_ns t = Z.min requested (l1 + l2)
  | None => u64_max < d + l1 + l2
  end.
Proof.
  intros Hd H1 H2 Hr. unfold partition.
  destruct (checked_add l1 l2) as [rtt|] eqn:E1; simpl.
  2: { unfold checked_add in E1. destruct (_ <=? _) eqn:?; bool_hyps; [done|lia]. }
  apply checked_add_Some in E1 as [-> E1].
  set (p := Z.min requested (l1 + l2)). set (out := if _ =? 0 then 0 else _).
  assert (0 ≤ out ≤ l1 + l2 - p) as Ho.
  { unfold out. destruct (_ =? 0) eqn:Ez; bool_hyps; [lia|]. apply outbound_le; lia. }
  clearbody out. unfold checked_add.
  destruct (d + out <=? u64_max) eqn:E2; bool_hyps; simpl; [|lia].
  destruct (d + out + p <=? u64_max) eqn:E3; bool_hyps; simpl; [|lia].
  destruct (d + (l1 + l2) <=? u64_max) eqn:E4; bool_hyps; simpl; [|lia].
  split_and!; try done; [split; simpl; lia|lia].
Qed.

(** Partitioning an observed round trip around assumed processing succeeds
    unless the completion time does not fit in 64 bits; the legs and the
    processing are non-negative and add up to the round trip exactly, the stage
    times are ordered, and what follows the effect is what is left until the
    completion. *)
Theorem partition_conserves d l1 l2 requested :
  is_u64 d → is_u64 l1 → is_u64 l2 → is_u64 requested →
  match partition d l1 l2 requested with
  | Some t => conserves t ∧ processing_ns t = Z.min requested (l1 + l2)
              ∧ after_effect_ns t = Some (nominal_http_ns t - nominal_effective_ns t)
  | None => u64_max < d + l1 + l2
  end.
Proof.
  intros [Hd _] [H1 _] [H2 _] [Hr _]. pose proof (partition_spec d l1 l2 requested Hd H1 H2 Hr) as H.
  destruct (partition d l1 l2 requested) as [t|]; [|done].
  destruct H as (Hc & Hb & _ & Hrtt & _ & Hp). split_and!; try done.
  apply conserves_after_effect; [done|lia].
Qed.

Lemma partition_conserves_witness :
  ∃ t, partition 1000 30 71 40 = Some t ∧ conserves t ∧ processing_ns t = 40.
Proof.
  assert (is_u64 1000 ∧ is_u64 30 ∧ is_u64 71 ∧ is_u64 40) as (Hd & H1 & H2 & Hr)
    by (unfold is_u64, u64_max; lia).
  pose proof (partition_conserves 1000 30 71 40 Hd H1 H2 Hr) as H.
  eexists. split; [vm_compute; reflexivity|]. vm_compute (partition _ _ _ _) in H.
  destruct H as (Hc & Hp & _). split; [exact Hc|exact Hp].
Defined.

(** The fractional split conserves the round trip in the same way, takes no
    more processing than the fraction, and never reduces a measured non-zero leg
    to zero. *)
Theorem fraction_conserves d l1 l2 bps :
  is_u64 d → is_u64 l1 → is_u64 l2 → 0 ≤ bps < 10000 →
  match fraction d l1 l2 bps with
  | Some t => conserves t ∧ processing_ns t ≤ (l1 + l2) * bps / 10000
              ∧ (0 < l1 → 0 < l2 → 0 < network_l1_ns t ∧ 0 < network_l2_ns t)
              ∧ after_effect_ns t = Some (nominal_http_ns t - nominal_effective_ns t)
  | None => u64_max < d + l1 + l2
  end.
Proof.
  intros [Hd _] [H1 _] [H2 _] Hb. unfold fraction.
  replace (bps <? 10000) with true by (symmetry; lia). cbn [negb].
  destruct (checked_add l1 l2) as [rtt|] eqn:E1; cbn [mbind option_bind].
  2: { unfold checked_add in E1. destruct (_ <=? _) eqn:?; bool_hyps; [done|lia]. }
  apply checked_add_Some in E1 as [-> E1].
  set (f := (l1 + l2) * bps / 10000).
  assert (0 ≤ f) by (apply Z.div_pos; nia).
  set (req := Z.min f _).
  assert (0 ≤ req ≤ l1 + l2 ∧ req ≤ f ∧ (0 < l1 → 0 < l2 → req ≤ l1 + l2 - 2)) as Hreq
    by (unfold req, of_bool; repeat case_match; bool_hyps; lia).
  clearbody req. pose proof (partition_spec d l1 l2 req Hd H1 H2 ltac:(lia)) as Hp.
  destruct (partition d l1 l2 req) as [t|]; cbn [mbind option_bind]; [|done].
  destruct Hp as (Hc & Hbd & Hpost & Hrtt & Hdis & Hproc).
  set (t' := _ <| evidence_confidence := _ |>).
  assert (conserves t' ∧ rtt_ns t' = l1 + l2 ∧ processing_ns t' = processing_ns t
          ∧ (0 < l1 → 0 < l2 → 0 < network_l1_ns t' ∧ 0 < network_l2_ns t')) as (Hc' & Hr' & Hp' & Hpos).
  { destruct Hc. unfold t', clamp. destruct (_ && _) eqn:E; bool_hyps; cbn.
    - split_and!; try done; [split; cbn; lia|lia].
    - split_and!; try done. intros ??. apply andb_false_iff in E as [?|?]; bool_hyps; lia. }
  split_and!; [done|lia|done|]. apply conserves_after_effect; [done|lia].
Qed.

Lemma fraction_conserves_witness :
  ∃ t, fraction 1000 1 1 9999 = Some t ∧ 0 < network_l1_ns t ∧ 0 < network_l2_ns t.
Proof.
  assert (is_u64 1000 ∧ is_u64 1 ∧ 0 ≤ 9999 < 10000) as (Hd & H1 & Hb)
    by (unfold is_u64, u64_max; lia).
  pose proof (fraction_conserves 1000 1 1 9999 Hd H1 H1 Hb) as H.
  eexists. split; [vm_compute; reflexivity|]. vm_compute (fraction _ _ _ _) in H.
  destruct H as (_ & _ & Hp & _). exact (Hp eq_refl eq_refl).
Defined.

(** ** Transport budgets *)

(** A transport budget validates exactly when it is what the builder makes
    from some seven endpoints: nothing built is rejected, and no field of a budget
    can be changed without being noticed. *)
Theorem transport_stages_roundtrip t :
  validate_transport_stages t = inr tt
  ↔ ∃ dispatch completed lower upper arrival effective return_ns,
      from_transport_stages dispatch completed lower upper arrival effective return_ns = inr t.
Proof.
  unfold validate_transport_stages. split.
  - destruct (transport_lower_ns t) as [lo|]; [|done]. destruct (transport_upper_ns t) as [up|]; [|done].
    destruct (from_transport_stages _ _ _ _ _ _ _) as [e|r] eqn:E; [done|].
    case_bool_decide as Heq; [|done]. intros _. do 7 eexists. rewrite E. by rewrite <- Heq.
  - intros (d & c & lo & up & ar & ef & rt & H). pose proof H as H'.
    unfold from_transport_stages in H. destruct (_ || _); [done|]. simplify_eq. cbn in *.
    rewrite H'. by rewrite bool_decide_true.
Qed.

(** What the builder accepts, given the non-negative clock values of the
    source, conserves the round trip with every stage between the transport
    bounds; what it rejects is out of order or leaves no room for the return. *)
Theorem transport_stages_conserve dispatch completed lower upper arrival effective return_ns :
  0 ≤ return_ns →
  match from_transport_stages dispatch completed lower upper arrival effective return_ns with
  | inr t => conserves t ∧ 0 < network_l2_ns t ∧ 0 < network_l1_ns t
             ∧ nominal_effective_ns t + post_effect_ns t + network_l2_ns t = completed
             ∧ dispatch < lower ≤ nominal_effective_ns t ∧ nominal_effective_ns t ≤ upper ≤ completed
  | inl _ => ¬ (dispatch < lower ≤ arrival ∧ arrival ≤ effective ≤ upper ∧ upper ≤ completed
                ∧ effective < completed ∧ 0 < return_ns ≤ completed - effective)
  end.
Proof.
  intros Hr. unfold from_transport_stages. destruct (_ || _) eqn:E.
  - intros H. rewrite !orb_true_iff, negb_true_iff, !andb_false_iff in E.
    repeat match goal with H : _ ∨ _ |- _ => destruct H as [H|H] end; bool_hyps; lia.
  - bool_hyps. split_and!; cbn; try lia. split; cbn; lia.
Qed.

Lemma transport_stages_conserve_witness :
  ∃ t, from_transport_stages 100 500 120 480 200 300 50 = inr t ∧ conserves t.
Proof.
  pose proof (transport_stages_conserve 100 500 120 480 200 300 50 ltac:(lia)) as H.
  eexists. split; [vm_compute; reflexivity|].
  vm_compute (from_transport_stages _ _ _ _ _ _ _) in H. exact (proj1 H).
Defined.

(** ** The audit *)

Inductive AuditOp := Push (row : ExecutionTimingRow) | Drain.

(** The audit after the operations, with everything drained so far. *)
Fixpoint run_audit (a : ExecutionTimingAudit) (out : list ExecutionTimingRow) (ops : list AuditOp) :
    option (list ExecutionTimingRow * ExecutionTimingAudit) :=
  match ops with
  | [] => Some (out, a)
  | Push row :: ops => a ← push a row; run_audit a out ops
  | Drain :: ops => let '(rows, a) := drain a in run_audit a (out ++ rows) ops
  end.

Definition pushed (ops : list AuditOp) : list ExecutionTimingRow :=
  omap (λ o, match o with Push row => Some row | Drain => None end) ops.

Definition audit_ok (a : ExecutionTimingAudit) (out seen : list ExecutionTimingRow) : Prop :=
  enabled (audit_stats a) = true ∧ out ++ rows a = seen
  ∧ emitted (audit_stats a) = Z.of_nat (length seen) ∧ drained (audit_stats a) = Z.of_nat (length out)
  ∧ Z.of_nat (length (rows a)) ≤ high_water (audit_stats a) ≤ EXECUTION_TIMING_CAPACITY.

Lemma run_audit_ok ops a out seen out' a' :
  audit_ok a out seen → run_audit a out ops = Some (out', a') → audit_ok a' out' (seen ++ pushed ops).
Proof.
  revert a out seen. induction ops as [|[row|] ops IH]; intros a out seen Hok; cbn [run_audit].
  - intros [= <- <-]. by rewrite app_nil_r.
  - destruct Hok as (Hen & Hrows & Hem & Hdr & Hhw). unfold push. rewrite Hen. cbn [negb].
    destruct (_ =? EXECUTION_TIMING_CAPACITY) eqn:Hcap; [done|]. bool_hyps. cbn [mbind option_bind].
    change (pushed (Push row :: ops)) with ([row] ++ pushed ops). rewrite app_assoc. apply IH.
    split_and!; cbn; try done; rewrite ?length_app; cbn [length].
    + by rewrite app_assoc, Hrows.
    + rewrite Hem. lia.
    + lia.
    + unfold EXECUTION_TIMING_CAPACITY in *. lia.
  - change (pushed (Drain :: ops)) with (pushed ops). apply IH.
    destruct Hok as (Hen & Hrows & Hem & Hdr & Hhw).
    split_and!; cbn; rewrite ?length_app, ?app_nil_r; try (done || lia).
Qed.

(** An enabled audit that did not abort has lost nothing: what was drained
    followed by what is queued is what was pushed, in order; the counters say so,
    and the queue stayed within its capacity. *)
Theorem audit_lossless ops out a :
  run_audit (new true) [] ops = Some (out, a) →
  out ++ rows a = pushed ops
  ∧ emitted (stats a) = Z.of_nat (length (pushed ops))
  ∧ emitted (stats a) = drained (stats a) + queued (stats a)
  ∧ queued (stats a) ≤ high_water (stats a) ≤ EXECUTION_TIMING_CAPACITY.
Proof.
  intros H. apply (run_audit_ok _ _ _ []) in H; [|split_and!; cbn; (done || lia)].
  destruct H as (_ & Hrows & Hem & Hdr & Hhw). cbn in *. split_and!; cbn; try (done || lia).
  rewrite Hem, Hdr, <- Hrows, length_app. lia.
Qed.

Definition sample_row : ExecutionTimingRow :=
  mkTimingRow 1 CancelDispatched "c" "i" "t" "" 0 None 5 None None None f64_zero None None.

Lemma audit_lossless_witness :
  ∃ out a, run_audit (new true) [] [Push sample_row; Drain; Push sample_row] = Some (out, a)
           ∧ out ++ rows a = [sample_row; sample_row].
Proof.
  do 2 eexists. split; [vm_compute; reflexivity|].
  exact (proj1 (audit_lossless [Push sample_row; Drain; Push sample_row] _ _ eq_refl)).
Defined.
