(* ===== verification/SimBook.v ===== *)
(** * The simulator's books

    [BookSet] (hexagent-exchange/src/exchange/sim_v2/book.rs): the recorded book of
    every token, the pairing of the two outcomes of a market, the ladders a taker
    sweeps (direct levels merged with the mirrored levels of the complement),
    their cache, the ledger of simulated consumption, and the lookahead books.

    The ladder cache sits in a [RefCell]; a query that may fill it returns the
    book set along with its answer.  [powf] (the C library's [pow]) is a
    parameter: no theorem depends on its values.  The JSON report of the ledger
    and the [debug_assert!]s, absent from release builds, are left out.

    Proved: a cached ladder is always the one that would be computed afresh, as
    long as tokens keep their partners and are retired together; ladders are
    sorted, best price first, and lose no usable level; the consumption ledger
    has an entry for exactly the levels of the current snapshot, none above the
    level's quantity. *)

From Stdlib Require Import Floats.SpecFloat.
From S2P Require Import Prelude F64 Types.

Definition tiny : f64 := f64_dec 1 9.
Arguments tiny : simpl never.

(** [(a - b).abs() < 1e-9] *)
Definition same_price (a b : f64) : bool := (f64_abs (a - b) <? tiny)%f64.

Definition price_to_ticks (price tick : f64) : Z :=
  if (tick <=? f64_zero)%f64 then f64_as_i64 (price * f64_of_Z (10 ^ 12))%f64
  else f64_round_as_i64 (price / tick)%f64.

Record TokenBook := mkBook { bids : list PriceLevel; asks : list PriceLevel }.

Definition empty_book : TokenBook := mkBook [] [].

Abbreviation LadderCache := (option (list PriceLevel) * option (list PriceLevel))%type.

Record BookSet := mkBookSet {
  books : gmap string TokenBook;
  liquidity_ledger_enabled : bool;
  consumed : gmap string TokenBook;
  consumed_qty : f64;
  reconciled_qty : f64;
  ledger_snapshots : Z;
  ledger_level_high_water : Z;
  pairs : gmap string string;
  next : gmap string TokenBook;
  next_window : gmap string (list TokenBook);
  folded : bool;
  deep_queue_decay : f64;
  dynamic_deep_queue_strength : f64;
  dynamic_deep_queue_min_decay : f64;
  ladder_cache : gmap string LadderCache }.

Definition new : BookSet :=
  mkBookSet ∅ false ∅ f64_zero f64_zero 0 0 ∅ ∅ ∅ false f64_zero f64_zero f64_zero ∅.

(** ** Free functions *)

Definition positive_qty (l : PriceLevel) : bool := (pl_quantity l >? f64_zero)%f64.

Definition inside (l : PriceLevel) : bool :=
  (pl_price l >? f64_zero)%f64 && (pl_price l <? f64_one)%f64.

Definition finite_levels (levels : list PriceLevel) : list PriceLevel :=
  List.filter (λ l, positive_qty l && inside l) levels.

(** [sort_by] is stable; the comparison puts [x] before [y] unless [y] is
    strictly better. *)
Fixpoint insert_level (is_buy : bool) (x : PriceLevel) (l : list PriceLevel) : list PriceLevel :=
  match l with
  | [] => [x]
  | y :: l =>
      if (if is_buy then pl_price y <? pl_price x else pl_price x <? pl_price y)%f64
      then y :: insert_level is_buy x l else x :: y :: l
  end.

Definition sort_levels (is_buy : bool) (l : list PriceLevel) : list PriceLevel :=
  foldr (insert_level is_buy) [] l.

Definition mirror (l : PriceLevel) : PriceLevel :=
  mkPriceLevel (f64_one - pl_price l)%f64 (pl_quantity l).

Definition merged_levels (direct comp : option TokenBook) (is_buy : bool) : list PriceLevel :=
  let v := match direct with
           | Some b => finite_levels (if is_buy then asks b else bids b)
           | None => []
           end in
  let w := match comp with
           | Some cb => mirror <$> finite_levels (if is_buy then bids cb else asks cb)
           | None => []
           end in
  List.filter (λ l, inside l && positive_qty l) (v ++ w).

Definition merged_ladder (direct comp : option TokenBook) (is_buy : bool) : list PriceLevel :=
  sort_levels is_buy (merged_levels direct comp is_buy).

(** [for l in levels { if l.quantity > 0 && ticks == want { sum += l.quantity } }] *)
Definition depth_at (levels : list PriceLevel) (want : Z) (tick sum : f64) : f64 :=
  fold_left (λ sum l, if positive_qty l && (price_to_ticks (pl_price l) tick =? want)
                      then (sum + pl_quantity l)%f64 else sum) levels sum.

Definition merged_depth (direct comp : option TokenBook) (side : Side) (price tick : f64) : f64 :=
  let want := price_to_ticks price tick in
  let sum := match direct with
             | Some b => depth_at (match side with Buy => bids b | Sell => asks b end) want tick f64_zero
             | None => f64_zero
             end in
  match comp with
  | Some cb =>
      let mwant := price_to_ticks (f64_one - price)%f64 tick in
      depth_at (match side with Buy => asks cb | Sell => bids cb end) mwant tick sum
  | None => sum
  end.

Definition find_price (levels : list PriceLevel) (price : f64) : option PriceLevel :=
  List.find (λ l, same_price (pl_price l) price) levels.

(** The retained part of [reconcile_consumed]. *)
Definition reconcile_entry (old new : list PriceLevel) (entry : PriceLevel) : option PriceLevel :=
  match find_price new (pl_price entry) with
  | None => None
  | Some level =>
      let prior := match find_price old (pl_price entry) with
                   | Some l => pl_quantity l
                   | None => f64_zero
                   end in
      Some (mkPriceLevel (pl_price entry)
        (f64_min (f64_max (pl_quantity entry - f64_max (prior - pl_quantity level) f64_zero) f64_zero)
                 (f64_max (pl_quantity level) f64_zero))%f64)
  end.

Definition add_missing (debt : list PriceLevel) (level : PriceLevel) : list PriceLevel :=
  if existsb (λ l, same_price (pl_price l) (pl_price level)) debt then debt
  else debt ++ [mkPriceLevel (pl_price level) f64_zero].

Definition reconcile_consumed (debt old new : list PriceLevel) : list PriceLevel :=
  fold_left add_missing new (omap (reconcile_entry old new) debt).

(** One side of [consume_raw_level]: the debt afterwards and what remains. *)
Fixpoint consume_side (raw debt : list PriceLevel) (want : Z) (tick remaining : f64) : list PriceLevel * f64 :=
  match debt with
  | [] => ([], remaining)
  | d :: debt =>
      if negb (price_to_ticks (pl_price d) tick =? want) then
        let '(debt, remaining) := consume_side raw debt want tick remaining in (d :: debt, remaining)
      else
        let qty := f64_sum (pl_quantity <$> List.filter (λ l, same_price (pl_price l) (pl_price d)) raw) in
        let take := f64_min (f64_max (qty - pl_quantity d)%f64 f64_zero) remaining in
        let d := mkPriceLevel (pl_price d) (pl_quantity d + take)%f64 in
        let '(debt, remaining) := consume_side raw debt want tick (remaining - take)%f64 in (d :: debt, remaining)
  end.

Definition consume_raw_level (raw debt : TokenBook) (side : Side) (price tick remaining : f64) :
    TokenBook * f64 :=
  let want := price_to_ticks price tick in
  match side with
  | Buy => let '(d, remaining) := consume_side (bids raw) (bids debt) want tick remaining in
           (mkBook d (asks debt), remaining)
  | Sell => let '(d, remaining) := consume_side (asks raw) (asks debt) want tick remaining in
            (mkBook (bids debt) d, remaining)
  end.

(** The levels written so far, last one first. *)
Definition aggregate_step (written : list PriceLevel) (l : PriceLevel) : list PriceLevel :=
  match written with
  | last :: rest =>
      if same_price (pl_price l) (pl_price last)
      then mkPriceLevel (pl_price last) (pl_quantity last + pl_quantity l)%f64 :: rest
      else l :: written
  | [] => [l]
  end.

Definition aggregate_equal_prices (levels : list PriceLevel) : list PriceLevel :=
  reverse (fold_left aggregate_step levels []).

Definition within_limit (is_buy : bool) (lim : option f64) (l : PriceLevel) : bool :=
  match lim, is_buy with
  | None, _ => true
  | Some p, true => (pl_price l <=? p + tiny)%f64
  | Some p, false => (pl_price l >=? p - tiny)%f64
  end.

Definition within_volume (ladder : list PriceLevel) (is_buy : bool) (lim : option f64) : f64 :=
  f64_sum (pl_quantity <$> List.filter (within_limit is_buy lim) ladder).

(** ** Methods *)

Definition zero_levels (l : list PriceLevel) : list PriceLevel :=
  (λ l, mkPriceLevel (pl_price l) f64_zero) <$> l.

Definition set_liquidity_ledger_enabled (self : BookSet) (enabled : bool) : BookSet :=
  let self := self <| liquidity_ledger_enabled := enabled |> <| consumed := ∅ |> <| ladder_cache := ∅ |> in
  if enabled
  then self <| consumed := (λ b, mkBook (zero_levels (bids b)) (zero_levels (asks b))) <$> books self |>
  else self.

(** Absent in [src], the complement's current book is used. *)
Definition comp_book (self : BookSet) (src : gmap string TokenBook) (token : string) : option TokenBook :=
  match pairs self !! token with
  | None => None
  | Some comp => match src !! comp with Some b => Some b | None => books self !! comp end
  end.

Definition level_depth (self : BookSet) (token : string) (side : Side) (price tick : f64) : f64 :=
  merged_depth (books self !! token) (comp_book self (books self) token) side price tick.

Definition level_depth_next (self : BookSet) (token : string) (side : Side) (price tick : f64) :
    option f64 :=
  match next self !! token with
  | None => None
  | Some direct => Some (merged_depth (Some direct) (comp_book self (next self) token) side price tick)
  end.

Definition executable_level_qty (self : BookSet) (token : string) (maker_side : Side) (price tick : f64) :
    f64 :=
  let raw := level_depth self token maker_side price tick in
  if negb (liquidity_ledger_enabled self) then raw
  else
    let comp := match pairs self !! token with Some c => consumed self !! c | None => None end in
    let used := merged_depth (consumed self !! token) comp maker_side price tick in
    f64_max (raw - used)%f64 f64_zero.

Definition opposite (side : Side) : Side := match side with Buy => Sell | Sell => Buy end.

(** A ledger entry and its raw book, both present. *)
Definition consume_token (self : BookSet) (token : string) (side : Side) (price tick remaining : f64) :
    BookSet * f64 :=
  match books self !! token, consumed self !! token with
  | Some raw, Some debt =>
      let '(debt, remaining) := consume_raw_level raw debt side price tick remaining in
      (self <| consumed := <[token := debt]> (consumed self) |>, remaining)
  | _, _ => (self, remaining)
  end.

Definition consume_level (self : BookSet) (token : string) (maker_side : Side) (price tick qty : f64) :
    BookSet * f64 :=
  if negb (liquidity_ledger_enabled self) || (qty <=? f64_zero)%f64 then (self, f64_zero)
  else
    let '(self, remaining) := consume_token self token maker_side price tick qty in
    let '(self, remaining) :=
      match pairs self !! token with
      | Some comp => consume_token self comp (opposite maker_side) (f64_one - price)%f64 tick remaining
      | None => (self, remaining)
      end in
    (self <| consumed_qty := (consumed_qty self + (qty - remaining))%f64 |>, (qty - remaining)%f64).

(** *** Ladders *)

Definition compute_ladder (self : BookSet) (token : string) (is_buy : bool) : list PriceLevel :=
  let levels := merged_ladder (books self !! token) (comp_book self (books self) token) is_buy in
  if liquidity_ledger_enabled self then aggregate_equal_prices levels else levels.

Definition buy_ladder (self : BookSet) (token : string) : list PriceLevel * BookSet :=
  match ladder_cache self !! token ≫= fst with
  | Some l => (l, self)
  | None =>
      let l := compute_ladder self token true in
      let entry := default (None, None) (ladder_cache self !! token) in
      (l, self <| ladder_cache := <[token := (Some l, snd entry)]> (ladder_cache self) |>)
  end.

Definition sell_ladder (self : BookSet) (token : string) : list PriceLevel * BookSet :=
  match ladder_cache self !! token ≫= snd with
  | Some l => (l, self)
  | None =>
      let l := compute_ladder self token false in
      let entry := default (None, None) (ladder_cache self !! token) in
      (l, self <| ladder_cache := <[token := (fst entry, Some l)]> (ladder_cache self) |>)
  end.

(** [if is_buy { self.buy_ladder(token) } else { self.sell_ladder(token) }] *)
Definition taker_ladder (self : BookSet) (token : string) (is_buy : bool) : list PriceLevel * BookSet :=
  if is_buy then buy_ladder self token else sell_ladder self token.

Definition is_buy (side : Side) : bool := match side with Buy => true | Sell => false end.

Definition executable_volume (self : BookSet) (token : string) (taker_side : Side) (limit tick : f64) :
    f64 * BookSet :=
  let '(ladder, self) := taker_ladder self token (is_buy taker_side) in
  let maker_side := opposite taker_side in
  (f64_sum ((λ l, executable_level_qty self token maker_side (pl_price l) tick)
             <$> List.filter (within_limit (is_buy taker_side) (Some limit)) ladder), self).

(** The loop of [consume_sweep] over the levels of the ladder. *)
Fixpoint sweep_levels (self : BookSet) (token : string) (taker_side : Side) (limit tick : f64)
    (ladder : list PriceLevel) (remaining : f64) : BookSet * f64 :=
  match ladder with
  | [] => (self, remaining)
  | level :: ladder =>
      if (match taker_side with
          | Buy => pl_price level >? limit + tiny
          | Sell => pl_price level <? limit - tiny
          end)%f64
      then (self, remaining)
      else
        let '(self, used) :=
          consume_level self token (opposite taker_side) (pl_price level) tick remaining in
        let remaining := (remaining - used)%f64 in
        if (remaining <=? tiny)%f64 then (self, remaining)
        else sweep_levels self token taker_side limit tick ladder remaining
  end.

Definition consume_sweep (self : BookSet) (token : string) (taker_side : Side) (limit tick qty : f64) :
    f64 * BookSet :=
  let '(ladder, self) := taker_ladder self token (is_buy taker_side) in
  let '(self, remaining) := sweep_levels self token taker_side limit tick ladder qty in
  ((qty - remaining)%f64, self).

Definition level_is_observed (self : BookSet) (token : string) (side : Side) (price tick : f64) :
    bool * BookSet :=
  let '(ladder, self) := match side with Buy => sell_ladder self token | Sell => buy_ladder self token end in
  match list.last ladder with
  | None => (false, self)
  | Some edge =>
      let want := price_to_ticks price tick in
      let edge := price_to_ticks (pl_price edge) tick in
      (match side with Buy => edge <=? want | Sell => want <=? edge end, self)
  end.

Definition set_pair (self : BookSet) (a b : string) : BookSet :=
  self <| pairs := <[b := a]> (<[a := b]> (pairs self)) |> <| ladder_cache := ∅ |>.

Definition set_folded (self : BookSet) (on : bool) : BookSet :=
  self <| folded := on |> <| ladder_cache := ∅ |>.

Definition set_deep_queue_decay (self : BookSet) (d : f64) : BookSet :=
  self <| deep_queue_decay := f64_max d f64_zero |> <| ladder_cache := ∅ |>.

Definition set_dynamic_deep_queue (self : BookSet) (strength min_decay : f64) : BookSet :=
  self <| dynamic_deep_queue_strength := f64_clamp strength f64_zero f64_one |>
       <| dynamic_deep_queue_min_decay := f64_clamp min_decay (f64_dec 1 6) f64_one |>.

Definition invalidate_ladder (self : BookSet) (token : string) : BookSet :=
  let cache := delete token (ladder_cache self) in
  self <| ladder_cache := match pairs self !! token with
                          | Some c => delete c cache
                          | None => cache
                          end |>.

Definition complement (self : BookSet) (token : string) : option string := pairs self !! token.

(** [iter_mut().find(..)] and the update of what was found *)
Fixpoint raise_debt (used : list PriceLevel) (price delta : f64) : list PriceLevel :=
  match used with
  | [] => []
  | l :: used =>
      if same_price (pl_price l) price && positive_qty l
      then mkPriceLevel (pl_price l) (pl_quantity l + delta)%f64 :: used
      else l :: raise_debt used price delta
  end.

Definition level_qty (levels : list PriceLevel) (price : f64) : f64 :=
  match find_price levels price with Some l => pl_quantity l | None => f64_zero end.

Definition protect_debt_from_public_drop (self : BookSet) (token : string) (maker_side : Side)
    (price public_qty : f64) (nxt : list PriceLevel) : BookSet :=
  match books self !! token, consumed self !! token with
  | Some raw, Some debt =>
      let old := match maker_side with Buy => bids raw | Sell => asks raw end in
      let delta := f64_min (f64_max (level_qty old price - level_qty nxt price)%f64 f64_zero) public_qty in
      let debt := match maker_side with
                  | Buy => mkBook (raise_debt (bids debt) price delta) (asks debt)
                  | Sell => mkBook (bids debt) (raise_debt (asks debt) price delta)
                  end in
      self <| consumed := <[token := debt]> (consumed self) |>
  | _, _ => self
  end.

Definition total_debt (debt : TokenBook) : f64 := f64_sum (pl_quantity <$> (bids debt ++ asks debt)).

(** The ledger part of [update]. *)
Definition reconcile (self : BookSet) (token : string) (bids' asks' : list PriceLevel) : BookSet :=
  let old := books self !! token in
  let debt := default empty_book (consumed self !! token) in
  let before := total_debt debt in
  let debt := mkBook (reconcile_consumed (bids debt) (match old with Some b => bids b | None => [] end) bids')
                     (reconcile_consumed (asks debt) (match old with Some b => asks b | None => [] end) asks') in
  let after := total_debt debt in
  self <| consumed := <[token := debt]> (consumed self) |>
       <| reconciled_qty := (reconciled_qty self + f64_max (before - after) f64_zero)%f64 |>
       <| ledger_snapshots := ledger_snapshots self +w 1 |>
       <| ledger_level_high_water :=
            Z.max (ledger_level_high_water self) (Z.of_nat (length (bids debt) + length (asks debt))) |>.

Definition update (self : BookSet) (token : string) (bids' asks' : list PriceLevel) : BookSet :=
  let self := if liquidity_ledger_enabled self then reconcile self token bids' asks' else self in
  let self := self <| books := <[token := mkBook bids' asks']> (books self) |> in
  invalidate_ladder self token.

Definition retire_token (self : BookSet) (token : string) : BookSet :=
  self <| books := delete token (books self) |> <| consumed := delete token (consumed self) |>
       <| pairs := delete token (pairs self) |> <| next := delete token (next self) |>
       <| next_window := delete token (next_window self) |>
       <| ladder_cache := delete token (ladder_cache self) |>.

Definition set_next (self : BookSet) (token : string) (bids' asks' : list PriceLevel) : BookSet :=
  self <| next := <[token := mkBook bids' asks']> (next self) |>.

Definition push_next_window (self : BookSet) (token : string) (bids' asks' : list PriceLevel) : BookSet :=
  let frames := default [] (next_window self !! token) in
  self <| next_window := <[token := frames ++ [mkBook bids' asks']]> (next_window self) |>.

Definition clear_next (self : BookSet) : BookSet := self <| next := ∅ |> <| next_window := ∅ |>.

(** *** Queries *)

(** [fold(None, |m, p| Some(m.map_or(p, |x| f(x, p))))] *)
Definition fold_best (f : f64 → f64 → f64) (l : list f64) : option f64 :=
  fold_left (λ m p, Some (match m with Some x => f x p | None => p end)) l None.

Definition token_best_bid (self : BookSet) (token : string) : option f64 :=
  b ← books self !! token; fold_best f64_max (pl_price <$> finite_levels (bids b)).

Definition token_best_ask (self : BookSet) (token : string) : option f64 :=
  b ← books self !! token; fold_best f64_min (pl_price <$> finite_levels (asks b)).

Definition available_volume (self : BookSet) (token : string) (buy : bool) (lim : option f64) :
    f64 * BookSet :=
  let '(ladder, self) := taker_ladder self token buy in (within_volume ladder buy lim, self).

Definition available_volume_next (self : BookSet) (token : string) (buy : bool) (lim : option f64) :
    option f64 :=
  let single :=
    direct ← next self !! token;
    let ladder := merged_ladder (Some direct) (comp_book self (next self) token) buy in
    Some (within_volume ladder buy lim) in
  match next_window self !! token with
  | Some (f :: frames) =>
      Some (fold_left (λ m f, f64_min m (within_volume (merged_ladder (Some f) None buy) buy lim))
              (f :: frames) f64_infinity)
  | _ => single
  end.

Definition eff_best_ask (self : BookSet) (token : string) : option f64 * BookSet :=
  let '(ladder, self) := buy_ladder self token in (pl_price <$> list.head ladder, self).

Definition eff_best_bid (self : BookSet) (token : string) : option f64 * BookSet :=
  let '(ladder, self) := sell_ladder self token in (pl_price <$> list.head ladder, self).

Definition eff_mid (self : BookSet) (token : string) : f64 * BookSet :=
  let '(b, self) := eff_best_bid self token in
  let '(a, self) := eff_best_ask self token in
  (match b, a with
   | Some b, Some a => f64_dec 5 1 * (b + a)
   | Some b, None => b
   | None, Some a => a
   | None, None => f64_zero
   end, self)%f64.

Definition best_bid_qty (self : BookSet) (token : string) (tick : f64) : f64 * BookSet :=
  let '(b, self) := eff_best_bid self token in
  (match b with Some p => level_depth self token Buy p tick | None => f64_zero end, self).

Definition best_ask_qty (self : BookSet) (token : string) (tick : f64) : f64 * BookSet :=
  let '(a, self) := eff_best_ask self token in
  (match a with Some p => level_depth self token Sell p tick | None => f64_zero end, self).

(** *** Queue depth beyond the recorded window *)

Section Extrapolation.
Context (powf : f64 → f64 → f64).

(** The ladder grouped per tick, in the order of first appearance. *)
Fixpoint add_tick (levels : list (Z * f64)) (t : Z) (q : f64) : list (Z * f64) :=
  match levels with
  | [] => [(t, q)]
  | (lt, lq) :: levels =>
      if lt =? t then (lt, lq + q)%f64 :: levels else (lt, lq) :: add_tick levels t q
  end.

Definition group_ticks (ladder : list PriceLevel) (tick : f64) : list (Z * f64) :=
  fold_left (λ ls l, add_tick ls (price_to_ticks (pl_price l) tick) (pl_quantity l)) ladder [].

(** Distance from the touch, positive when deeper; [i64] subtraction. *)
Definition dist (side : Side) (touch t : Z) : Z :=
  match side with Sell => t - touch | Buy => touch - t end.

(** Per-tick decay ratios of neighbouring levels. *)
Fixpoint decay_ratios (d : Z → Z) (levels : list (Z * f64)) : list f64 :=
  match levels with
  | p0 :: ((p1 :: _) as rest) =>
      let gap := (f64_of_Z (d (fst p1)) - f64_of_Z (d (fst p0)))%f64 in
      if ((gap >? f64_zero) && (snd p0 >? f64_zero) && (snd p1 >? f64_zero))%f64
      then powf (snd p1 / snd p0)%f64 (f64_one / gap)%f64 :: decay_ratios d rest
      else decay_ratios d rest
  | _ => []
  end.

Fixpoint insert_f64 (x : f64) (l : list f64) : list f64 :=
  match l with
  | [] => [x]
  | y :: l => if (y <? x)%f64 then y :: insert_f64 x l else x :: y :: l
  end.

Definition median_ratio (l : list f64) : option f64 :=
  foldr insert_f64 [] l !! Nat.div (length l) 2.

(** The geometric model: from the outermost level, thinning per tick. *)
Definition decayed_depth (self : BookSet) (levels : list (Z * f64)) (d : Z → Z) (our_d edge_d : f64) :
    option (f64 * f64) :=
  edge ← List.find (λ l, f64_eq (f64_of_Z (d (fst l))) edge_d) levels;
  let local := f64_clamp (default (deep_queue_decay self) (median_ratio (decay_ratios d levels)))
                 (f64_max (dynamic_deep_queue_min_decay self) (f64_dec 1 6)) f64_one in
  let strength := f64_clamp (dynamic_deep_queue_strength self) f64_zero f64_one in
  let effective := f64_max (deep_queue_decay self + strength * (local - deep_queue_decay self))%f64
                     (f64_dec 1 6) in
  Some (snd edge * powf effective (our_d - edge_d), effective)%f64.

(** The least-squares line through the levels, clamped to their range. *)
Definition fitted_depth (levels : list (Z * f64)) (d : Z → Z) (our_d : f64) : f64 :=
  let n := f64_of_Z (Z.of_nat (length levels)) in
  let xs := (λ l : Z * f64, f64_of_Z (d (fst l))) <$> levels in
  let ys := (snd : Z * f64 → f64) <$> levels in
  let mx := (f64_sum xs / n)%f64 in
  let my := (f64_sum ys / n)%f64 in
  let sxx := f64_sum ((λ x, (x - mx) * (x - mx))%f64 <$> xs) in
  let sxy := f64_sum ((λ p : f64 * f64, (fst p - mx) * (snd p - my))%f64 <$> zip xs ys) in
  let b := if (sxx >? f64_zero)%f64 then (sxy / sxx)%f64 else f64_zero in
  let a := (my - b * mx)%f64 in
  let est := (a + b * our_d)%f64 in
  let qmin := fold_left f64_min ys (S754_finite false 9007199254740991 971) in
  let qmax := fold_left f64_max ys f64_zero in
  f64_clamp est qmin qmax.

Definition extrapolate_level_depth_with_decay (self : BookSet) (token : string) (side : Side)
    (price tick : f64) : option (f64 * f64) * BookSet :=
  let '(ladder, self) := match side with Sell => buy_ladder self token | Buy => sell_ladder self token end in
  match ladder with
  | [] => (None, self)
  | best :: _ =>
      let levels := group_ticks ladder tick in
      let d := dist side (price_to_ticks (pl_price best) tick) in
      let our_d := f64_of_Z (d (price_to_ticks price tick)) in
      let edge_d := f64_of_Z (match (d ∘ fst) <$> levels with
                              | [] => 0
                              | x :: l => fold_left Z.max l x
                              end) in
      if (our_d <=? edge_d)%f64 then (None, self)
      else if (deep_queue_decay self >? f64_zero)%f64 then (decayed_depth self levels d our_d edge_d, self)
      else if (length levels <? 2)%nat then (None, self)
      else (Some (fitted_depth levels d our_d, f64_zero), self)
  end.

Definition extrapolate_level_depth (self : BookSet) (token : string) (side : Side) (price tick : f64) :
    option f64 * BookSet :=
  let '(r, self) := extrapolate_level_depth_with_decay self token side price tick in (fst <$> r, self).
End Extrapolation.

(** ** Ladders are sorted and complete *)

Definition better (buy : bool) (x y : PriceLevel) : Prop :=
  (if buy then f64_le (pl_price x) (pl_price y) else f64_le (pl_price y) (pl_price x)) = true.

Definition usable_level (l : PriceLevel) : Prop :=
  f64_lt f64_zero (pl_price l) = true ∧ f64_lt (pl_price l) f64_one = true
  ∧ f64_lt f64_zero (pl_quantity l) = true.

Lemma insert_level_Permutation buy x l : insert_level buy x l ≡ₚ x :: l.
Proof.
  induction l as [|y l IH]; simpl; [done|]. case_match; [|done]. by rewrite IH, Permutation_swap.
Qed.

Lemma sort_levels_Permutation buy l : sort_levels buy l ≡ₚ l.
Proof. induction l as [|x l IH]; simpl; [done|]. by rewrite insert_level_Permutation, IH. Qed.

Lemma insert_level_sorted buy x l :
  usable_level x → Forall usable_level l →
  StronglySorted (better buy) l → StronglySorted (better buy) (insert_level buy x l).
Proof.
  intros (Hx & _) Hl Hs. induction Hs as [|y l Hs IH Hall]; simpl; [repeat constructor|].
  apply Forall_cons in Hl as [(Hy & _) Hl].
  destruct (if buy then _ else _) eqn:E.
  - constructor; [by apply IH|]. rewrite insert_level_Permutation. constructor; [|done].
    unfold better. destruct buy; auto with hex.
  - assert (better buy x y) as Hxy by (unfold better; destruct buy; float_order).
    constructor; [by constructor|]. constructor; [done|].
    eapply Forall_impl; [exact Hall|]. intros z Hz. unfold better in *.
    destruct buy; eauto using f64_le_trans.
Qed.

Lemma merged_levels_usable direct comp buy : Forall usable_level (merged_levels direct comp buy).
Proof.
  apply List.Forall_forall. intros l Hl. unfold merged_levels in Hl. apply filter_In in Hl as [_ Hl].
  unfold inside, positive_qty in Hl. bool_hyps. by split_and!.
Qed.

(** The ladder a taker sweeps contains exactly the usable levels of the
    direct book and the mirrored usable levels of the complement, each with a
    price strictly between 0 and 1 and a positive quantity, best price first. *)
Theorem merged_ladder_sorted direct comp buy :
  let l := merged_ladder direct comp buy in
  l ≡ₚ merged_levels direct comp buy ∧ Forall usable_level l ∧ StronglySorted (better buy) l.
Proof.
  intros l. pose proof (merged_levels_usable direct comp buy) as Hu. unfold l, merged_ladder.
  split_and!; [apply sort_levels_Permutation|by rewrite sort_levels_Permutation|].
  induction Hu as [|x k Hx Hk IH]; simpl; [constructor|].
  apply insert_level_sorted; [done|by rewrite sort_levels_Permutation|done].
Qed.

(** ** The ladder cache is coherent *)

Inductive BookOp :=
| OLedger (enabled : bool)
| OPair (a b : string)
| OFolded (on : bool)
| ODecay (d : f64)
| ODynamic (strength min_decay : f64)
| OUpdate (token : string) (b a : list PriceLevel)
| OProtect (token : string) (side : Side) (price public_qty : f64) (nxt : list PriceLevel)
| OConsume (token : string) (side : Side) (price tick qty : f64)
| OSweep (token : string) (side : Side) (limit tick qty : f64)
| ONext (token : string) (b a : list PriceLevel)
| OWindow (token : string) (b a : list PriceLevel)
| OClear
| ORetire (a b : string)
| OBuyLadder (token : string)
| OSellLadder (token : string).

(** [ORetire a b] is the retirement of an event with its two tokens. *)
Definition apply_book (self : BookSet) (op : BookOp) : BookSet :=
  match op with
  | OLedger enabled => set_liquidity_ledger_enabled self enabled
  | OPair a b => set_pair self a b
  | OFolded on => set_folded self on
  | ODecay d => set_deep_queue_decay self d
  | ODynamic s m => set_dynamic_deep_queue self s m
  | OUpdate t b a => update self t b a
  | OProtect t s p q n => protect_debt_from_public_drop self t s p q n
  | OConsume t s p k q => fst (consume_level self t s p k q)
  | OSweep t s l k q => snd (consume_sweep self t s l k q)
  | ONext t b a => set_next self t b a
  | OWindow t b a => push_next_window self t b a
  | OClear => clear_next self
  | ORetire a b => retire_token (retire_token self a) b
  | OBuyLadder t => snd (buy_ladder self t)
  | OSellLadder t => snd (sell_ladder self t)
  end.

Definition partner_ok (self : BookSet) (a b : string) : Prop :=
  (pairs self !! a = None ∨ pairs self !! a = Some b)
  ∧ (pairs self !! b = None ∨ pairs self !! b = Some a).

(** Tokens keep their partner, and partners retire together. *)
Definition allowed (self : BookSet) (op : BookOp) : Prop :=
  match op with OPair a b | ORetire a b => partner_ok self a b | _ => True end.

Inductive reachable : BookSet → Prop :=
| reach_new : reachable new
| reach_op self op : reachable self → allowed self op → reachable (apply_book self op).

Definition symmetric (p : gmap string string) : Prop := ∀ a b, p !! a = Some b → p !! b = Some a.

Definition cached (self : BookSet) (token : string) (buy : bool) : option (list PriceLevel) :=
  ladder_cache self !! token ≫= (if buy then fst else snd).

Record coherent (self : BookSet) : Prop := {
  co_pairs : symmetric (pairs self);
  co_cache : ∀ token buy l, cached self token buy = Some l → l = compute_ladder self token buy }.

(** What a ladder depends on. *)
Lemma compute_ladder_ext s s' token buy :
  liquidity_ledger_enabled s' = liquidity_ledger_enabled s → pairs s' !! token = pairs s !! token →
  books s' !! token = books s !! token →
  (∀ c, pairs s !! token = Some c → books s' !! c = books s !! c) →
  compute_ladder s' token buy = compute_ladder s token buy.
Proof.
  intros Hl Hp Hb Hc. unfold compute_ladder, comp_book. rewrite Hl, Hp, Hb.
  destruct (pairs s !! token) as [c|]; [|done]. by rewrite (Hc c eq_refl).
Qed.

Lemma coherent_empty_cache self : symmetric (pairs self) → ladder_cache self = ∅ → coherent self.
Proof.
  intros Hs He. split; [done|]. intros token buy l. unfold cached. by rewrite He, lookup_empty.
Qed.

(** An operation that leaves books, pairs, ledger mode and cache alone. *)
Lemma coherent_same s s' :
  coherent s → liquidity_ledger_enabled s' = liquidity_ledger_enabled s → pairs s' = pairs s →
  books s' = books s → ladder_cache s' = ladder_cache s → coherent s'.
Proof.
  intros [Hs Hc] Hl Hp Hb Hca. split; [by rewrite Hp|]. intros token buy l. unfold cached. rewrite Hca.
  intros H. apply Hc in H as ->. symmetry. apply compute_ladder_ext; by rewrite ?Hp, ?Hb.
Qed.

(** Dropping the cached ladders that depend on changed books. *)
Lemma coherent_drop s s' (gone : string → Prop) :
  coherent s → symmetric (pairs s') → liquidity_ledger_enabled s' = liquidity_ledger_enabled s →
  (∀ t, gone t → ladder_cache s' !! t = None) →
  (∀ t e, ladder_cache s' !! t = Some e → ladder_cache s !! t = Some e) →
  (∀ t, ¬ gone t → pairs s' !! t = pairs s !! t ∧ books s' !! t = books s !! t
                   ∧ ∀ c, pairs s !! t = Some c → books s' !! c = books s !! c) →
  (∀ t, gone t ∨ ¬ gone t) →
  coherent s'.
Proof.
  intros [_ Hc] Hs' Hl Hgone Hsub Hsame Hdec. split; [done|]. intros t buy l. unfold cached.
  destruct (ladder_cache s' !! t) as [e|] eqn:E; [|done]. intros He.
  destruct (Hdec t) as [Hg|Hg]; [by rewrite Hgone in E|].
  destruct (Hsame t Hg) as (Hp & Hb & Hcb). rewrite (compute_ladder_ext s) by done.
  apply Hc. unfold cached. by rewrite (Hsub t e E).
Qed.

Lemma symmetric_pair p a b :
  symmetric p → (p !! a = None ∨ p !! a = Some b) → (p !! b = None ∨ p !! b = Some a) →
  symmetric (<[b := a]> (<[a := b]> p)).
Proof.
  intros Hs Ha Hb x y. rewrite !lookup_insert_Some.
  intros [[<- <-]|[Hne [[<- <-]|[Hne' Hxy]]]].
  - destruct (decide (a = b)) as [->|]; [by left|by right; split; [|left]].
  - by left.
  - pose proof (Hs x y Hxy) as Hyx. destruct (decide (y = b)) as [->|]; [naive_solver|].
    destruct (decide (y = a)) as [->|]; [naive_solver|]. auto.
Qed.

Lemma symmetric_retire p a b :
  symmetric p → (p !! a = None ∨ p !! a = Some b) → (p !! b = None ∨ p !! b = Some a) →
  symmetric (delete b (delete a p)).
Proof.
  intros Hs Ha Hb x y. rewrite !lookup_delete_Some. intros (Hb' & Ha' & Hxy).
  pose proof (Hs x y Hxy) as Hyx. split_and!; [|..|done]; intros ->; naive_solver.
Qed.

Lemma buy_ladder_coherent s token :
  coherent s → fst (buy_ladder s token) = compute_ladder s token true ∧ coherent (snd (buy_ladder s token)).
Proof.
  intros [Hs Hc]. unfold buy_ladder. destruct (ladder_cache s !! token ≫= fst) as [l|] eqn:E; simpl.
  { split; [|by split]. by apply Hc. }
  split; [done|]. split; [done|]. intros t buy l. unfold cached. simpl.
  change (compute_ladder (_ <| ladder_cache := _ |>) t buy) with (compute_ladder s t buy).
  destruct (decide (t = token)) as [->|].
  - rewrite lookup_insert_eq. destruct buy; simpl; [by intros [= <-]|]. intros Hl. apply Hc.
    unfold cached. destruct (ladder_cache s !! token); simpl in *; done.
  - rewrite lookup_insert_ne by done. apply Hc.
Qed.

Lemma sell_ladder_coherent s token :
  coherent s → fst (sell_ladder s token) = compute_ladder s token false ∧ coherent (snd (sell_ladder s token)).
Proof.
  intros [Hs Hc]. unfold sell_ladder. destruct (ladder_cache s !! token ≫= snd) as [l|] eqn:E; simpl.
  { split; [|by split]. by apply Hc. }
  split; [done|]. split; [done|]. intros t buy l. unfold cached. simpl.
  change (compute_ladder (_ <| ladder_cache := _ |>) t buy) with (compute_ladder s t buy).
  destruct (decide (t = token)) as [->|].
  - rewrite lookup_insert_eq. destruct buy; simpl; [|by intros [= <-]]. intros Hl. apply Hc.
    unfold cached. destruct (ladder_cache s !! token); simpl in *; done.
  - rewrite lookup_insert_ne by done. apply Hc.
Qed.

(** Consumption writes the ledger only. *)
Definition same_view (s s' : BookSet) : Prop :=
  liquidity_ledger_enabled s' = liquidity_ledger_enabled s ∧ pairs s' = pairs s
  ∧ books s' = books s ∧ ladder_cache s' = ladder_cache s.

Lemma same_view_trans s1 s2 s3 : same_view s1 s2 → same_view s2 s3 → same_view s1 s3.
Proof. unfold same_view. intros (?&?&?&?) (?&?&?&?). split_and!; congruence. Qed.

Lemma consume_token_view s t side p k r : same_view s (fst (consume_token s t side p k r)).
Proof.
  unfold consume_token. destruct (books s !! t) as [b|], (consumed s !! t) as [d|]; simpl; try done.
  by destruct (consume_raw_level _ _ _ _ _ _).
Qed.

Lemma consume_level_view s t side p k q : same_view s (fst (consume_level s t side p k q)).
Proof.
  unfold consume_level. destruct (_ || _); [done|].
  pose proof (consume_token_view s t side p k q) as H1.
  destruct (consume_token s t side p k q) as [s1 r1]. simpl in H1.
  destruct (pairs s1 !! t) as [c|]; [|done].
  pose proof (consume_token_view s1 c (opposite side) (f64_one - p)%f64 k r1) as H2.
  destruct (consume_token s1 c _ _ k r1) as [s2 r2]. simpl in *. by eapply same_view_trans.
Qed.

Lemma sweep_levels_view s t side lim k ladder r :
  same_view s (fst (sweep_levels s t side lim k ladder r)).
Proof.
  revert s r. induction ladder as [|l ladder IH]; intros s r; cbn [sweep_levels]; [done|].
  destruct (match side with Buy => _ | Sell => _ end); [done|].
  pose proof (consume_level_view s t (opposite side) (pl_price l) k r) as H1.
  destruct (consume_level s t _ _ k r) as [s1 u]. simpl in H1.
  destruct (_ <=? _)%f64; [done|]. eapply same_view_trans; [done|apply IH].
Qed.

Lemma coherent_view s s' : coherent s → same_view s s' → coherent s'.
Proof. intros Hc (?&?&?&?). by eapply coherent_same. Qed.

Lemma update_coherent s token b a : coherent s → coherent (update s token b a).
Proof.
  intros Hco. unfold update.
  set (s1 := if liquidity_ledger_enabled s then _ else s).
  assert (Hv : same_view s s1) by (unfold s1; by destruct (liquidity_ledger_enabled s)).
  apply (coherent_view s s1) in Hco; [|done]. clearbody s1. clear Hv s.
  pose proof Hco as [Hs _].
  apply (coherent_drop s1 _ (λ t, t = token ∨ pairs s1 !! token = Some t)); [done|done|done|..]; cbn.
  - intros t Hg. destruct (pairs s1 !! token) as [c|] eqn:E.
    + destruct Hg as [->|[= ->]]; [|apply lookup_delete_eq].
      destruct (decide (c = token)) as [->|]; [apply lookup_delete_eq|].
      rewrite lookup_delete_ne by done. apply lookup_delete_eq.
    + destruct Hg as [->|?]; [apply lookup_delete_eq|done].
  - intros t e. destruct (pairs s1 !! token); rewrite ?lookup_delete_Some; tauto.
  - intros t Hg. split_and!; [done|rewrite lookup_insert_ne; [done|]; intros ->; apply Hg; by left|].
    intros c Hc. rewrite lookup_insert_ne; [done|]. intros <-. apply Hg. right. by apply Hs.
  - intros t. destruct (decide (t = token)); [by left; left|].
    destruct (decide (pairs s1 !! token = Some t)); [by left; right|right; tauto].
Qed.

Lemma retire_coherent s a b :
  coherent s → partner_ok s a b → coherent (retire_token (retire_token s a) b).
Proof.
  intros Hco [Ha Hb]. pose proof Hco as [Hs _].
  apply (coherent_drop s _ (λ t, t = a ∨ t = b)); [done|by apply symmetric_retire|done|..]; cbn.
  - intros t Hg. apply lookup_delete_None. rewrite lookup_delete_None. naive_solver.
  - intros t e. rewrite !lookup_delete_Some. tauto.
  - intros t Hg. assert (t ≠ a ∧ t ≠ b) as [? ?] by tauto.
    rewrite !lookup_delete_ne by done. split_and!; [done..|].
    intros c Hc. pose proof (Hs t c Hc) as Hct. rewrite !lookup_delete_ne; [done|..]; intros ->; naive_solver.
  - intros t. destruct (decide (t = a)), (decide (t = b)); tauto.
Qed.

Lemma reachable_coherent s : reachable s → coherent s.
Proof.
  induction 1 as [|s op Hr IH Ha]; [apply coherent_empty_cache; [intros a b; simpl; by rewrite lookup_empty|done]|].
  pose proof (co_pairs _ IH) as Hs.
  destruct op; simpl in *; try (by apply coherent_empty_cache); try (by eapply coherent_same).
  - unfold set_liquidity_ledger_enabled. destruct enabled; by apply coherent_empty_cache.
  - apply coherent_empty_cache; [|done]. destruct Ha. by apply symmetric_pair.
  - by apply update_coherent.
  - unfold protect_debt_from_public_drop.
    destruct (books s !! token), (consumed s !! token); try done; by eapply coherent_same.
  - eapply coherent_view; [done|apply consume_level_view].
  - unfold consume_sweep, taker_ladder.
    assert (coherent (snd (if is_buy side then buy_ladder s token else sell_ladder s token))) as Hc
      by (destruct (is_buy side); [by apply buy_ladder_coherent|by apply sell_ladder_coherent]).
    destruct (if is_buy side then _ else _) as [ladder s1]. simpl in Hc.
    pose proof (sweep_levels_view s1 token side limit tick ladder qty) as Hv.
    destruct (sweep_levels _ _ _ _ _ _ _) as [s2 r]. simpl in *. by eapply coherent_view.
  - by apply retire_coherent.
  - by apply buy_ladder_coherent.
  - by apply sell_ladder_coherent.
Qed.

(** C34: A memoised ladder is never stale: after any history in which tokens keep
    their partner and partners are retired together, both ladder queries answer
    what merging the current books would give. *)
Theorem cached_ladder_fresh s token :
  reachable s →
  fst (buy_ladder s token) = compute_ladder s token true
  ∧ fst (sell_ladder s token) = compute_ladder s token false.
Proof.
  intros Hr%reachable_coherent. split; [by apply buy_ladder_coherent|by apply sell_ladder_coherent].
Qed.

Definition lvl (price qty : Z) : PriceLevel := mkPriceLevel (f64_dec price 2) (f64_of_Z qty).

Definition sample_history : list BookOp :=
  [OPair "up" "down"; OUpdate "up" [] [lvl 60 10]; OUpdate "down" [lvl 40 5] []; OBuyLadder "up";
   OUpdate "down" [lvl 45 7] []].

Lemma sample_books_reachable : reachable (fold_left apply_book sample_history new).
Proof.
  unfold sample_history. cbn [fold_left].
  repeat (apply reach_op; [|try exact I]); [apply reach_new|split; by left].
Qed.

Lemma cached_ladder_fresh_witness :
  fst (buy_ladder (fold_left apply_book sample_history new) "up")
  = compute_ladder (fold_left apply_book sample_history new) "up" true
  ∧ length (compute_ladder (fold_left apply_book sample_history new) "up" true) = 2%nat.
Proof.
  split; [|vm_compute; reflexivity].
  exact (proj1 (cached_ladder_fresh (fold_left apply_book sample_history new) "up" sample_books_reachable)).
Defined.

(** Retiring one token of a pair alone leaves the other one's cached ladder, and
    the pairing that points back: the retired liquidity is still offered. *)
Lemma retire_one_keeps_complement :
  let s := fold_left apply_book (sample_history ++ [OBuyLadder "up"]) new in
  let s' := retire_token s "down" in
  length (fst (buy_ladder s' "up")) = 2%nat
  ∧ length (compute_ladder s' "up" true) = 1%nat ∧ complement s' "up" = Some "down".
Proof. vm_compute. done. Qed.

(** ** The consumption ledger *)

Lemma same_price_refl p : is_finite p = true → same_price p p = true.
Proof.
  unfold same_price. intros H.
  assert (f64_sub p p = S754_zero false) as ->; [|vm_compute; reflexivity].
  destruct p as [[]| | |s m e]; try done. unfold f64_sub, SFsub. by rewrite Z.sub_diag.
Qed.

(** An entry of the ledger belongs to a level and owes no more than it holds. *)
Definition entry_ok (levels : list PriceLevel) (e : PriceLevel) : Prop :=
  ∃ l, l ∈ levels ∧ same_price (pl_price l) (pl_price e) = true
       ∧ f64_le f64_zero (pl_quantity e) = true
       ∧ f64_le (pl_quantity e) (f64_max (pl_quantity l) f64_zero) = true.

Definition covers (debt levels : list PriceLevel) : Prop :=
  ∀ l, l ∈ levels → ∃ e, e ∈ debt ∧ same_price (pl_price e) (pl_price l) = true.

Lemma max_zero_bounds x :
  f64_le f64_zero (f64_max x f64_zero) = true ∧ is_nan (f64_max x f64_zero) = false.
Proof.
  split; [by apply f64_max_ge_r|]. unfold f64_max. destruct (is_nan x) eqn:E; [done|].
  simpl. by destruct (f64_lt x f64_zero).
Qed.

Lemma reconcile_entry_ok old nw e e' : reconcile_entry old nw e = Some e' → entry_ok nw e'.
Proof.
  unfold reconcile_entry. destruct (find_price nw (pl_price e)) as [l|] eqn:E; [|done]. intros [= <-].
  apply List.find_some in E as [Hin Hsame]. exists l. simpl.
  set (x := f64_max _ f64_zero). set (y := f64_max (pl_quantity l) f64_zero).
  assert (f64_le f64_zero x = true ∧ is_nan x = false) as [Hx Hxn] by apply max_zero_bounds.
  assert (f64_le f64_zero y = true ∧ is_nan y = false) as [Hy Hyn] by apply max_zero_bounds.
  split_and!; [by apply list_elem_of_In|done| |by apply f64_min_le_r].
  by destruct (f64_min_cases x y) as [-> | ->].
Qed.

Lemma add_missing_ok levels debt l :
  Forall (entry_ok levels) debt → l ∈ levels → is_finite (pl_price l) = true →
  Forall (entry_ok levels) (add_missing debt l)
  ∧ (∃ e, e ∈ add_missing debt l ∧ same_price (pl_price e) (pl_price l) = true)
  ∧ ∀ e, e ∈ debt → e ∈ add_missing debt l.
Proof.
  intros Hd Hl Hf. unfold add_missing. destruct (existsb _ debt) eqn:E.
  - split_and!; [done| |done]. apply existsb_exists in E as (e & He & Hs).
    exists e. by rewrite list_elem_of_In.
  - pose proof (same_price_refl _ Hf) as Hr. split_and!.
    + apply Forall_app. split; [done|]. constructor; [|constructor]. exists l.
      split_and!; [done|done|done|apply max_zero_bounds].
    + eexists. split; [apply elem_of_app; right; by apply list_elem_of_singleton|done].
    + intros e He. apply elem_of_app. by left.
Qed.

Lemma add_all_ok levels todo debt :
  Forall (entry_ok levels) debt → (∀ l, l ∈ todo → l ∈ levels) →
  Forall (λ l, is_finite (pl_price l) = true) levels →
  Forall (entry_ok levels) (fold_left add_missing todo debt)
  ∧ covers (fold_left add_missing todo debt) todo
  ∧ ∀ e, e ∈ debt → e ∈ fold_left add_missing todo debt.
Proof.
  revert debt. induction todo as [|l todo IH]; intros debt Hd Hsub Hf; simpl.
  { split_and!; [done|intros l Hl; by apply not_elem_of_nil in Hl|done]. }
  pose proof (Hsub l ltac:(left)) as Hl.
  assert (is_finite (pl_price l) = true) as Hfl by (rewrite Forall_forall in Hf; by apply Hf).
  destruct (add_missing_ok levels debt l Hd Hl Hfl) as (H1 & (e & He & Hs) & H3).
  destruct (IH (add_missing debt l) H1) as (I1 & I2 & I3); [intros; apply Hsub; by right|done|].
  split_and!; [done| |auto]. intros l' [->|Hl']%elem_of_cons; [eauto|by apply I2].
Qed.

Lemma reconcile_consumed_ok debt old nw :
  Forall (λ l, is_finite (pl_price l) = true) nw →
  Forall (entry_ok nw) (reconcile_consumed debt old nw) ∧ covers (reconcile_consumed debt old nw) nw.
Proof.
  intros Hf. destruct (add_all_ok nw nw (omap (reconcile_entry old nw) debt)) as (H1 & H2 & _); [|done..|by split].
  apply Forall_forall. intros e (e0 & _ & He)%list_elem_of_omap. by eapply reconcile_entry_ok.
Qed.

(** After a snapshot the ledger of the token is exactly about its levels:
    every entry belongs to a level of the new snapshot, owes at least nothing and
    at most that level's quantity, and every level has an entry. *)
Theorem update_reconciles_ledger s token b a :
  liquidity_ledger_enabled s = true →
  Forall (λ l, is_finite (pl_price l) = true) (b ++ a) →
  ∃ debt, consumed (update s token b a) !! token = Some debt
    ∧ Forall (entry_ok b) (bids debt) ∧ covers (bids debt) b
    ∧ Forall (entry_ok a) (asks debt) ∧ covers (asks debt) a.
Proof.
  intros Hen [Hb Ha]%Forall_app. unfold update. rewrite Hen. cbn. rewrite lookup_insert_eq.
  eexists. split; [done|]. cbn.
  destruct (reconcile_consumed_ok (bids (default empty_book (consumed s !! token)))
    (match books s !! token with Some b => bids b | None => [] end) b Hb).
  destruct (reconcile_consumed_ok (asks (default empty_book (consumed s !! token)))
    (match books s !! token with Some b => asks b | None => [] end) a Ha).
  done.
Qed.

(** Ten on offer, six consumed, then a snapshot that still shows ten. *)
Definition consumed_sample : BookSet :=
  fold_left apply_book
    [OLedger true; OUpdate "up" [] [lvl 51 10]; OConsume "up" Sell (f64_dec 51 2) (f64_dec 1 2) (f64_of_Z 6)] new.

Lemma update_reconciles_ledger_witness :
  ∃ debt, consumed (update consumed_sample "up" [] [lvl 51 10]) !! "up" = Some debt
    ∧ Forall (entry_ok [lvl 51 10]) (asks debt)
    ∧ executable_level_qty (update consumed_sample "up" [] [lvl 51 10]) "up" Sell (f64_dec 51 2) (f64_dec 1 2)
      = f64_of_Z 4.
Proof.
  destruct (update_reconciles_ledger consumed_sample "up" [] [lvl 51 10]) as (debt & Hd & _ & _ & Ha & _).
  - vm_compute. reflexivity.
  - repeat constructor.
  - exists debt. split_and!; [exact Hd|exact Ha|vm_compute; reflexivity].
Defined.
