(* ===== verification/TryQueue.v ===== *)
(** * The bounded lock-free FIFO of the runtime

    [TryQueue] (hexagent-runtime/src/try_queue.rs): a preallocated ring whose
    operations do one compare-and-swap and never wait.  A cursor position is a
    lap number and a slot index packed in one [usize]; a slot's stamp says
    whether it is vacant for, filled for, or still being drained from a position.

    The model is a step relation.  Each atomic access of the source is one step
    of the thread that makes it, threads interleave arbitrarily, and the slot
    value (an [UnsafeCell]) is written and read in steps of its own, so that a
    race on it would show.  Memory is sequentially consistent: that the source's
    acquire and release accesses suffice for this is not modelled.  Positions are
    64 bit and wrap; the theorems are about histories too short to wrap them,
    without which a thread asleep during 2^64 operations could pass its stale
    compare-and-swap.  The byte-level [write_prefix] publication is not modelled.

    Proved: every interleaving is a bounded FIFO whose push takes effect at the
    tail exchange and whose pop takes effect at the head exchange; a value read
    is initialised and is the one claimed; [Full] is reported only when full; an
    operation needs at most five steps whatever the other threads do; alone, an
    operation fails only for a full or an empty queue. *)

From S2P Require Import Prelude.

Section TryQueue.
Context {T : Type}.

(** ** Shared state *)

Record Slot := mkSlot { stamp : Z; value : option T }.

Record TryQueue := mkQueue {
  head : Z;
  tail : Z;
  slots : list Slot;
  lap : Z }.

Definition is_power_capacity (capacity : Z) : bool :=
  (0 <? capacity) && (2 ^ Z.log2_up (capacity + 1) <=? u64_max).

(** [None] is the panic of the [assert!] or of the [expect]. *)
Definition new (capacity : Z) : option TryQueue :=
  if is_power_capacity capacity
  then Some (mkQueue 0 0
               ((λ i, mkSlot (Z.of_nat i) None) <$> seq 0 (Z.to_nat capacity))
               (2 ^ Z.log2_up (capacity + 1)))
  else None.

Definition capacity (self : TryQueue) : Z := Z.of_nat (length (slots self)).

Definition next (self : TryQueue) (position : Z) : Z :=
  if Z.land position (lap self - 1) + 1 <? capacity self
  then position +w 1
  else Z.ldiff position (lap self - 1) +w lap self.

(** [&self.slots[position & (self.lap - 1)]] *)
Definition slot_index (self : TryQueue) (position : Z) : nat :=
  Z.to_nat (Z.land position (lap self - 1)).

Definition slot_at (self : TryQueue) (position : Z) : option Slot :=
  slots self !! slot_index self position.

(** The two loads of [len], taken from one state. *)
Definition len (self : TryQueue) : Z :=
  if head self =? tail self then 0
  else
    let h := Z.land (head self) (lap self - 1) in
    let t := Z.land (tail self) (lap self - 1) in
    if h <? t then t - h else capacity self + t - h.

Definition front_ready (self : TryQueue) : bool :=
  match slot_at self (head self) with
  | Some s => stamp s =? head self +w 1
  | None => false
  end.

Definition set_stamp (self : TryQueue) (position v : Z) : TryQueue :=
  self <| slots := alter (λ s, mkSlot v (value s)) (slot_index self position) (slots self) |>.

Definition set_value (self : TryQueue) (position : Z) (v : T) : TryQueue :=
  self <| slots := alter (λ s, mkSlot (stamp s) (Some v)) (slot_index self position) (slots self) |>.

(** ** Operations in progress *)

(** [try_push]/[try_push_owned], [try_push_classified], [try_push_slot] *)
Inductive PushKind := Plain | Classified | FromSlot.

Inductive Result :=
| PushOk
| PushErr (v : T)
| PushFull (v : T)
| PushContended (v : T)
| SlotPushed (pushed : bool) (left : option T)
| PopNone
| PopSome (v : T).

(** Where a thread stands, with the values it has loaded; the constructor names
    its next access. *)
Inductive Local :=
| Idle
| PushLoad (k : PushKind) (v : T)
| PushStamp (k : PushKind) (v : T) (t : Z)
| PushHead (v : T) (t : Z)
| PushCas (k : PushKind) (v : T) (t : Z)
| PushWrite (k : PushKind) (v : T) (t : Z)
| PushRelease (k : PushKind) (v : T) (t : Z)
| PopLoad
| PopStamp (h : Z)
| PopCas (h : Z)
| PopRead (h : Z)
| PopRelease (h : Z) (v : T).

(** What a step shows to an observer of all threads. *)
Inductive Event :=
| Enqueued (tid : nat) (v : T)
| Dequeued (tid : nat) (v : option T)
| Returned (tid : nat) (r : Result).

Record State := mkState { queue : TryQueue; threads : gmap nat Local }.

Definition local (s : State) (tid : nat) : Local := default Idle (threads s !! tid).

Definition push_failed (k : PushKind) (v : T) : Result :=
  match k with
  | Plain => PushErr v
  | Classified => PushContended v
  | FromSlot => SlotPushed false (Some v)
  end.

Definition push_done (k : PushKind) : Result :=
  match k with FromSlot => SlotPushed true None | _ => PushOk end.

(** One access: the queue afterwards, where the thread continues (a result when
    it returns), and the exchange that took effect. *)
Definition access (q : TryQueue) (tid : nat) (l : Local) :
    option (TryQueue * (Local + Result) * list Event) :=
  match l with
  | Idle => None
  | PushLoad k v => Some (q, inl (PushStamp k v (tail q)), [])
  | PushStamp k v t =>
      match slot_at q t with
      | None => None
      | Some s =>
          if negb (stamp s =? t)
          then match k with
               | Classified => Some (q, inl (PushHead v t), [])
               | _ => Some (q, inr (push_failed k v), [])
               end
          else Some (q, inl (PushCas k v t), [])
      end
  | PushHead v t =>
      Some (q, inr (if head q +w lap q =? t then PushFull v else PushContended v), [])
  | PushCas k v t =>
      if tail q =? t
      then Some (q <| tail := next q t |>, inl (PushWrite k v t), [Enqueued tid v])
      else Some (q, inr (push_failed k v), [])
  | PushWrite k v t => Some (set_value q t v, inl (PushRelease k v t), [])
  | PushRelease k v t => Some (set_stamp q t (t +w 1), inr (push_done k), [])
  | PopLoad => Some (q, inl (PopStamp (head q)), [])
  | PopStamp h =>
      match slot_at q h with
      | None => None
      | Some s =>
          if negb (stamp s =? h +w 1) then Some (q, inr PopNone, [])
          else Some (q, inl (PopCas h), [])
      end
  | PopCas h =>
      if head q =? h
      then match slot_at q h with
           | None => None
           | Some s => Some (q <| head := next q h |>, inl (PopRead h), [Dequeued tid (value s)])
           end
      else Some (q, inr PopNone, [])
  | PopRead h =>
      match slot_at q h with
      | Some (mkSlot _ (Some v)) => Some (q, inl (PopRelease h v), [])
      | _ => None
      end
  | PopRelease h v => Some (set_stamp q h (h +w lap q), inr (PopSome v), [])
  end.

(** A step of thread [tid]; [None] when it is idle, indexes out of the ring or
    reads an uninitialised slot. *)
Definition step (s : State) (tid : nat) : option (State * list Event) :=
  match access (queue s) tid (local s tid) with
  | None => None
  | Some (q, inl l, evs) => Some (mkState q (<[tid := l]> (threads s)), evs)
  | Some (q, inr r, evs) =>
      Some (mkState q (<[tid := Idle]> (threads s)), evs ++ [Returned tid r])
  end.

Definition try_push (v : T) : Local := PushLoad Plain v.
Definition try_push_classified (v : T) : Local := PushLoad Classified v.
Definition try_pop : Local := PopLoad.

(** [try_push_slot] on an empty source returns at once. *)
Definition try_push_slot (v : option T) : Local + Result :=
  match v with
  | None => inr (SlotPushed false None)
  | Some v => inl (PushLoad FromSlot v)
  end.

Definition is_entry (l : Local) : bool :=
  match l with PushLoad _ _ | PopLoad => true | _ => false end.

(** An idle thread calls an operation. *)
Definition start (s : State) (tid : nat) (l : Local) : option State :=
  match local s tid with
  | Idle => if is_entry l then Some (mkState (queue s) (<[tid := l]> (threads s))) else None
  | _ => None
  end.

(** ** Executions *)

Inductive Action := Call (tid : nat) (l : Local) | Run (tid : nat).

Definition act (s : State) (a : Action) : option (State * list Event) :=
  match a with
  | Call tid l => match start s tid l with Some s => Some (s, []) | None => None end
  | Run tid => step s tid
  end.

Fixpoint exec (s : State) (l : list Action) : option (State * list Event) :=
  match l with
  | [] => Some (s, [])
  | a :: l =>
      match act s a with
      | None => None
      | Some (s, evs) => match exec s l with
                         | None => None
                         | Some (s, evs') => Some (s, evs ++ evs')
                         end
      end
  end.

Definition idle_state (q : TryQueue) : State := mkState q ∅.

Inductive reachable (cap : Z) : State → list Event → Prop :=
| reach_new q : new cap = Some q → reachable cap (idle_state q) []
| reach_act s tr a s' evs :
    reachable cap s tr → act s a = Some (s', evs) → reachable cap s' (tr ++ evs).

(** The operation of one thread with no other thread running; five accesses
    finish any operation. *)
Fixpoint alone (fuel : nat) (q : TryQueue) (l : Local) : option (TryQueue * Result) :=
  match fuel with
  | O => None
  | S fuel =>
      match access q 0 l with
      | Some (q, inl l, _) => alone fuel q l
      | Some (q, inr r, _) => Some (q, r)
      | None => None
      end
  end.

(** [Drop]: pop until there is nothing. *)
Fixpoint drain (fuel : nat) (q : TryQueue) : option (TryQueue * list T) :=
  match fuel with
  | O => None
  | S fuel =>
      match alone 5 q try_pop with
      | Some (q, PopSome v) =>
          match drain fuel q with Some (q, l) => Some (q, v :: l) | None => None end
      | Some (q, PopNone) => Some (q, [])
      | _ => None
      end
  end.

(** ** Observations of a trace *)

Definition pushes (tr : list Event) : list T :=
  omap (λ e, match e with Enqueued _ v => Some v | _ => None end) tr.

Definition pops (tr : list Event) : list (option T) :=
  omap (λ e, match e with Dequeued _ v => Some v | _ => None end) tr.

(** The values the pops of one thread claimed, and the ones they returned. *)
Definition claimed (tid : nat) (tr : list Event) : list (option T) :=
  omap (λ e, match e with
             | Dequeued t v => if (t =? tid)%nat then Some v else None
             | _ => None end) tr.

Definition returned (tid : nat) (tr : list Event) : list (option T) :=
  omap (λ e, match e with
             | Returned t (PopSome v) => if (t =? tid)%nat then Some (Some v) else None
             | _ => None end) tr.
End TryQueue.

(** ** Positions

    The [j]-th push and the [j]-th pop of a history use the position [pos j]. *)

Section Positions.
Context (c L : Z) (Hc : 0 < c) (HL : c < L).

Definition pos (j : Z) : Z := j / c * L + j mod c.

Lemma pos_lap j : pos (j + c) = pos j + L.
Proof.
  unfold pos. replace (j + c) with (j + 1 * c) by lia.
  rewrite Z.div_add, Z.mod_add by lia. lia.
Qed.

Lemma pos_lt j k : j < k → pos j < pos k.
Proof.
  intros Hjk. unfold pos.
  pose proof (Z.mod_pos_bound j c Hc). pose proof (Z.mod_pos_bound k c Hc).
  pose proof (Z.div_mod j c ltac:(lia)). pose proof (Z.div_mod k c ltac:(lia)).
  assert (j / c ≤ k / c) by (apply Z.div_le_mono; lia).
  destruct (decide (j / c = k / c)) as [Heq|]; [rewrite Heq in *; lia|].
  assert ((j / c + 1) * L ≤ k / c * L) by (apply Z.mul_le_mono_nonneg_r; lia). lia.
Qed.

Lemma pos_inj j k : pos j = pos k → j = k.
Proof. intros H. destruct (Z.lt_trichotomy j k) as [?%pos_lt|[?|?%pos_lt]]; lia. Qed.

Lemma pos_nonneg j : 0 ≤ j → 0 ≤ pos j.
Proof.
  intros. unfold pos. pose proof (Z.mod_pos_bound j c Hc).
  pose proof (Z.div_pos j c ltac:(lia) Hc). nia.
Qed.

Lemma pos_mod j : pos j mod L = j mod c.
Proof.
  unfold pos. rewrite Z.add_comm, Z.mod_add by lia. apply Z.mod_small.
  pose proof (Z.mod_pos_bound j c Hc). lia.
Qed.

(** Tickets less than a round apart that share a slot are equal. *)
Lemma same_slot j k : j mod c = k mod c → j - c < k < j + c → j = k.
Proof.
  intros Hm H. pose proof (Z.div_mod j c ltac:(lia)). pose proof (Z.div_mod k c ltac:(lia)).
  assert (j / c = k / c) as Heq; [|by rewrite Heq in *; lia].
  destruct (Z.lt_trichotomy (j / c) (k / c)) as [Hlt|[?|Hlt]]; [|done|]; exfalso.
  - assert (c * (j / c + 1) ≤ c * (k / c)) by (apply Z.mul_le_mono_nonneg_l; lia). lia.
  - assert (c * (k / c + 1) ≤ c * (j / c)) by (apply Z.mul_le_mono_nonneg_l; lia). lia.
Qed.

Lemma mod_plus_c j : (j + c) mod c = j mod c.
Proof. replace (j + c) with (j + 1 * c) by lia. apply Z.mod_add. lia. Qed.
End Positions.

(** ** The invariant

    [E] is the list of values pushed so far, [M] the number of pops so far.  The
    tickets [M .. M + c) occupy the [c] slots: those below [length E] hold, or
    wait for, the value pushed under them; the others are vacant, or wait for
    the consumer of one round before to leave. *)

Section Invariant.
Context {T : Type} (c L : Z) (Hc : 0 < c) (HL : c < L).
Implicit Types (q : TryQueue (T:=T)) (s : State (T:=T)) (E : list T).

Abbreviation pos := (pos c L).
Abbreviation N E := (Z.of_nat (length E)).

Definition cell q (j : Z) : option Slot := slots q !! Z.to_nat (j mod c).
Definition cell_stamp q (j : Z) : option Z := stamp <$> cell q j.
Definition cell_value q (j : Z) : option T := cell q j ≫= value.
Definition nth E (j : Z) : option T := E !! Z.to_nat j.

(** The position of the ticket whose slot a thread may write. *)
Definition owns (l : Local (T:=T)) : option Z :=
  match l with
  | PushWrite _ _ t | PushRelease _ _ t => Some t
  | PopRead h | PopRelease h _ => Some (h + L)
  | _ => None
  end.

Definition ticket_ok s E (j : Z) : Prop :=
  let q := queue s in
  if decide (j < N E)
  then (cell_stamp q j = Some (pos j + 1) ∧ cell_value q j = nth E j)
       ∨ (cell_stamp q j = Some (pos j) ∧ ∃ tid, owns (local s tid) = Some (pos j))
  else cell_stamp q j = Some (pos j)
       ∨ (cell_stamp q j = Some (pos j - L + 1) ∧ ∃ tid, owns (local s tid) = Some (pos j)).

Definition local_ok q E (M : Z) (l : Local (T:=T)) : Prop :=
  match l with
  | Idle | PushLoad _ _ | PopLoad => True
  | PushStamp _ _ t | PushHead _ t => ∃ n, t = pos n ∧ 0 ≤ n ≤ N E
  | PushCas _ _ t =>
      ∃ n, t = pos n ∧ 0 ≤ n ≤ N E ∧ (n = N E → cell_stamp q n = Some (pos n))
  | PushWrite _ v t =>
      ∃ n, t = pos n ∧ M ≤ n < N E ∧ nth E n = Some v ∧ cell_stamp q n = Some (pos n)
  | PushRelease _ v t =>
      ∃ n, t = pos n ∧ M ≤ n < N E ∧ nth E n = Some v ∧ cell_stamp q n = Some (pos n)
           ∧ cell_value q n = Some v
  | PopStamp h => ∃ m, h = pos m ∧ 0 ≤ m ≤ M
  | PopCas h => ∃ m, h = pos m ∧ 0 ≤ m ≤ M ∧ (m = M → cell_stamp q m = Some (pos m + 1))
  | PopRead h =>
      ∃ m, h = pos m ∧ 0 ≤ m < M ∧ N E ≤ m + c ∧ cell_stamp q m = Some (pos m + 1)
           ∧ cell_value q m = nth E m
  | PopRelease h v =>
      ∃ m, h = pos m ∧ 0 ≤ m < M ∧ N E ≤ m + c ∧ cell_stamp q m = Some (pos m + 1)
           ∧ cell_value q m = nth E m ∧ nth E m = Some v
  end.

Record shape q E (M : Z) : Prop := {
  sh_lap : lap q = L;
  sh_len : Z.of_nat (length (slots q)) = c;
  sh_tail : tail q = pos (N E);
  sh_head : head q = pos M;
  sh_bounds : 0 ≤ M ≤ N E ∧ N E ≤ M + c }.

Record inv s E (M : Z) : Prop := {
  inv_shape : shape (queue s) E M;
  inv_tickets : ∀ j, M ≤ j < M + c → ticket_ok s E j;
  inv_locals : ∀ tid, local_ok (queue s) E M (local s tid);
  inv_owner : ∀ t1 t2 p, owns (local s t1) = Some p → owns (local s t2) = Some p → t1 = t2 }.

Lemma local_insert s tid l q t :
  local (mkState q (<[tid := l]> (threads s))) t = if (t =? tid)%nat then l else local s t.
Proof.
  unfold local. simpl. destruct (Nat.eqb_spec t tid) as [->|]; [by rewrite lookup_insert_eq|].
  by rewrite lookup_insert_ne.
Qed.

(** A step that leaves the queue as it is and keeps its ownership. *)
Lemma inv_set_local s E M tid l :
  inv s E M → owns l = owns (local s tid) → local_ok (queue s) E M l →
  inv (mkState (queue s) (<[tid := l]> (threads s))) E M.
Proof.
  intros [Hsh Htk Hlo Hown] Heq Hl.
  assert (∀ t, owns (local (mkState (queue s) (<[tid := l]> (threads s))) t) = owns (local s t)) as Ho.
  { intros t. rewrite local_insert. destruct (Nat.eqb_spec t tid) as [->|]; done. }
  split; simpl.
  - done.
  - intros j Hj. specialize (Htk j Hj). unfold ticket_ok in *.
    case_decide; setoid_rewrite Ho; done.
  - intros t. rewrite local_insert. destruct (t =? tid)%nat; [done|apply Hlo].
  - intros t1 t2 p. rewrite !Ho. apply Hown.
Qed.

(** *** How the two slot updates show in the cells *)

Lemma slot_index_pos q j : lap q = L → (∃ p, L = 2 ^ p ∧ 0 ≤ p) →
  slot_index q (pos j) = Z.to_nat (j mod c).
Proof.
  intros Hl (p & Hp & Hp0). unfold slot_index. rewrite Hl, Hp, Z.sub_1_r, <- Z.ones_equiv.
  rewrite Z.land_ones by done. rewrite <- Hp. by rewrite pos_mod.
Qed.

Lemma cell_alter q f n j :
  Z.of_nat (length (slots q)) = c →
  cell (q <| slots := alter f (Z.to_nat (n mod c)) (slots q) |>) j
  = if decide (j mod c = n mod c) then f <$> cell q j else cell q j.
Proof.
  intros Hlen. unfold cell. cbn. case_decide as Heq.
  - rewrite Heq. by rewrite list_lookup_alter_eq.
  - rewrite list_lookup_alter_ne; [done|].
    pose proof (Z.mod_pos_bound j c Hc). pose proof (Z.mod_pos_bound n c Hc). lia.
Qed.

Lemma cell_is_Some q j : Z.of_nat (length (slots q)) = c → is_Some (cell q j).
Proof.
  intros Hlen. unfold cell. apply lookup_lt_is_Some_2.
  pose proof (Z.mod_pos_bound j c Hc). lia.
Qed.

Section Updates.
Context q (Hlap : lap q = L) (HP : ∃ p, L = 2 ^ p ∧ 0 ≤ p)
  (Hlen : Z.of_nat (length (slots q)) = c).

Lemma stamp_set_stamp n x j :
  cell_stamp (set_stamp q (pos n) x) j
  = if decide (j mod c = n mod c) then Some x else cell_stamp q j.
Proof.
  unfold cell_stamp, set_stamp. rewrite slot_index_pos, cell_alter by done.
  case_decide; [|done]. by destruct (cell_is_Some q j Hlen) as [? ->].
Qed.

Lemma value_set_stamp n x j : cell_value (set_stamp q (pos n) x) j = cell_value q j.
Proof.
  unfold cell_value, set_stamp. rewrite slot_index_pos, cell_alter by done.
  case_decide; [|done]. by destruct (cell q j).
Qed.

Lemma stamp_set_value n v j : cell_stamp (set_value q (pos n) v) j = cell_stamp q j.
Proof.
  unfold cell_stamp, set_value. rewrite slot_index_pos, cell_alter by done.
  case_decide; [|done]. by destruct (cell q j).
Qed.

Lemma value_set_value n v j :
  cell_value (set_value q (pos n) v) j
  = if decide (j mod c = n mod c) then Some v else cell_value q j.
Proof.
  unfold cell_value, set_value. rewrite slot_index_pos, cell_alter by done.
  case_decide; [|done]. by destruct (cell_is_Some q j Hlen) as [? ->].
Qed.

Lemma slot_at_pos j : slot_at q (pos j) = cell q j.
Proof. unfold slot_at. by rewrite slot_index_pos. Qed.

Lemma next_pos j : 0 ≤ j → pos j + L < 2 ^ 64 → next q (pos j) = pos (j + 1).
Proof.
  intros Hj Hb. destruct HP as (p & Hp & Hp0). unfold next, capacity.
  assert (L - 1 = Z.ones p) as HO by (rewrite Z.ones_equiv; lia).
  rewrite Hlap, Hlen, HO.
  rewrite Z.land_ones, Z.ldiff_ones_r, Z.shiftr_div_pow2, Z.shiftl_mul_pow2 by done.
  rewrite <- Hp, pos_mod by done. unfold wrapping_add.
  pose proof (pos_nonneg c L Hc HL j Hj). pose proof (Z.mod_pos_bound j c Hc).
  pose proof (Z.div_mod j c ltac:(lia)) as Hdm.
  destruct (_ <? _) eqn:Hlt; bool_hyps.
  - rewrite Z.mod_small by lia. unfold TryQueue.pos.
    rewrite <- (Z.div_unique (j + 1) c (j / c) (j mod c + 1)) by lia.
    rewrite <- (Z.mod_unique (j + 1) c (j / c) (j mod c + 1)) by lia. lia.
  - assert (pos j / L = j / c) as ->.
    { symmetry. apply (Z.div_unique _ _ _ (j mod c)); [lia|]. unfold TryQueue.pos. lia. }
    rewrite Z.mod_small by (unfold TryQueue.pos in *; nia). unfold TryQueue.pos.
    rewrite <- (Z.div_unique (j + 1) c (j / c + 1) 0) by lia.
    rewrite <- (Z.mod_unique (j + 1) c (j / c + 1) 0) by lia. lia.
Qed.
End Updates.

(** *** Ownership *)

Lemma cell_stamp_mod q j k : j mod c = k mod c → cell_stamp q j = cell_stamp q k.
Proof. unfold cell_stamp, cell. by intros ->. Qed.

Lemma cell_value_mod q j k : j mod c = k mod c → cell_value q j = cell_value q k.
Proof. unfold cell_value, cell. by intros ->. Qed.

(** The stamp of a ticket that some thread is working on. *)
Definition busy_stamp E (j : Z) : Z := if decide (j < N E) then pos j else pos j - L + 1.

Lemma owns_ticket q E M l p :
  shape q E M → local_ok q E M l → owns l = Some p →
  ∃ j, p = pos j ∧ M ≤ j < M + c ∧ cell_stamp q j = Some (busy_stamp E j).
Proof.
  intros [_ _ _ _ Hb]. unfold busy_stamp.
  destruct l; simpl; try done; intros (n & -> & Hn) [= <-]; destruct_and? Hn.
  1, 2: exists n; case_decide; [|lia]; split_and!; (done || lia).
  all: exists (n + c); case_decide; [lia|]; rewrite pos_lap by done; split; [done|split; [lia|]];
    rewrite (cell_stamp_mod _ _ n) by (by rewrite mod_plus_c);
    replace (pos n + L - L + 1) with (pos n + 1) by lia; done.
Qed.

(** A slot ready for the next push, or for the next pop, is nobody's. *)
Lemma busy_not_ready q E M j0 :
  shape q E M → M ≤ j0 < M + c → cell_stamp q j0 = Some (busy_stamp E j0) →
  (cell_stamp q (N E) = Some (pos (N E)) → N E mod c ≠ j0 mod c)
  ∧ (cell_stamp q M = Some (pos M + 1) → M mod c ≠ j0 mod c).
Proof.
  intros [_ _ _ _ Hb] Hr Hst. unfold busy_stamp in Hst. split; intros Hready Hmod.
  - rewrite (cell_stamp_mod _ _ j0 Hmod), Hst in Hready. injection Hready as Hready.
    destruct (decide (j0 = N E - c)) as [->|].
    + pose proof (pos_lap c L Hc (N E - c)) as Hl. rewrite Z.sub_add in Hl.
      case_decide; lia.
    + apply same_slot in Hmod; [|done|lia]. rewrite Hmod in *. case_decide; lia.
  - rewrite (cell_stamp_mod _ _ j0 Hmod), Hst in Hready. injection Hready as Hready.
    apply same_slot in Hmod; [|done|lia]. subst j0. case_decide; lia.
Qed.

(** A change confined to the slot of an owned ticket keeps what every other
    thread relies on. *)
Lemma locals_frame s E M tid j0 q' :
  inv s E M → owns (local s tid) = Some (pos j0) → M ≤ j0 < M + c →
  (∀ j, j mod c ≠ j0 mod c → cell_stamp q' j = cell_stamp (queue s) j
                             ∧ cell_value q' j = cell_value (queue s) j) →
  ∀ t, t ≠ tid → local_ok q' E M (local s t).
Proof.
  intros [Hsh _ Hlo Hown] Hj0 Hr Hfr t Ht. pose proof (sh_bounds _ _ _ Hsh) as Hb.
  destruct (owns_ticket _ _ _ _ _ Hsh (Hlo tid) Hj0) as (j & <-%pos_inj & _ & Hst); [|done..].
  destruct (busy_not_ready _ _ _ _ Hsh Hr Hst) as [HnN HnM].
  assert (Hother : ∀ k, owns (local s t) = Some (pos k) → M ≤ k < M + c → k mod c ≠ j0 mod c).
  { intros k Hp Hk Hmod. apply Ht, (Hown t tid (pos k)); [done|].
    by rewrite (same_slot c Hc k j0 Hmod) by lia. }
  specialize (Hlo t). revert Hlo Hother. destruct (local s t); simpl; try done;
    intros (n & -> & Hn) Hother; exists n; split; try done; destruct_and? Hn; split_and!; try done.
  6-9: rewrite <- pos_lap in Hother by done; specialize (Hother (n + c) eq_refl ltac:(lia));
    rewrite mod_plus_c in Hother by done; destruct (Hfr n Hother) as [Hs Hv]; congruence.
  - intros ->. destruct (Hfr (N E)) as [-> _]; auto.
  - destruct (Hfr n) as [-> _]; [apply Hother|]; (done || lia).
  - destruct (Hfr n) as [-> _]; [apply Hother|]; (done || lia).
  - destruct (Hfr n) as [_ ->]; [apply Hother|]; (done || lia).
  - intros ->. destruct (Hfr M) as [-> _]; auto.
Qed.

(** *** The five steps that change the queue *)

Context (HP : ∃ p, L = 2 ^ p ∧ 0 ≤ p).

Lemma shape_slots q q' E M :
  shape q E M → head q' = head q → tail q' = tail q → lap q' = lap q →
  length (slots q') = length (slots q) → shape q' E M.
Proof. intros [] Hh Ht Hl Hn. split; rewrite ?Hh, ?Ht, ?Hl, ?Hn; done. Qed.

(** Tickets other than the owned one keep their state. *)
Lemma tickets_frame s E M tid l j0 q' :
  inv s E M → owns (local s tid) = Some (pos j0) → M ≤ j0 < M + c →
  (∀ j, j mod c ≠ j0 mod c → cell_stamp q' j = cell_stamp (queue s) j
                             ∧ cell_value q' j = cell_value (queue s) j) →
  ∀ j, M ≤ j < M + c → j ≠ j0 → ticket_ok (mkState q' (<[tid := l]> (threads s))) E j.
Proof.
  intros [_ Htk _ _] Hj0 Hr Hfr j Hj Hne. specialize (Htk j Hj).
  destruct (Hfr j) as [Hs Hv]; [intros Hmod; apply Hne, (same_slot c Hc); [done|lia]|].
  assert (∀ t, owns (local s t) = Some (pos j) →
    owns (local (mkState q' (<[tid := l]> (threads s))) t) = Some (pos j)) as Ho.
  { intros t Hp. rewrite local_insert. destruct (Nat.eqb_spec t tid) as [->|]; [|done].
    rewrite Hj0 in Hp. injection Hp as Hp%pos_inj; done. }
  unfold ticket_ok in *. cbn [queue]. rewrite Hs, Hv.
  case_decide; naive_solver.
Qed.

Lemma owner_release s tid l q' E M :
  inv s E M → (owns l = owns (local s tid) ∨ owns l = None) →
  ∀ t1 t2 p, owns (local (mkState q' (<[tid := l]> (threads s))) t1) = Some p →
             owns (local (mkState q' (<[tid := l]> (threads s))) t2) = Some p → t1 = t2.
Proof.
  intros [_ _ _ Hown] Hl t1 t2 p. rewrite !local_insert.
  destruct (Nat.eqb_spec t1 tid) as [->|], (Nat.eqb_spec t2 tid) as [->|]; try done; [..|apply Hown];
    destruct Hl as [-> | ->]; try done; apply Hown.
Qed.

Lemma inv_push_write s E M tid k v t :
  inv s E M → local s tid = PushWrite k v t →
  inv (mkState (set_value (queue s) t v) (<[tid := PushRelease k v t]> (threads s))) E M.
Proof.
  intros Hinv Hl. destruct Hinv as [Hsh Htk Hlo Hown] eqn:Heq. clear Heq.
  pose proof (Hlo tid) as Hme. rewrite Hl in Hme. destruct Hme as (n & -> & Hn & Hnth & Hst).
  pose proof Hsh as [Hlap Hlen _ _ Hb].
  assert (Hfr : ∀ j, j mod c ≠ n mod c →
    cell_stamp (set_value (queue s) (pos n) v) j = cell_stamp (queue s) j
    ∧ cell_value (set_value (queue s) (pos n) v) j = cell_value (queue s) j).
  { intros j Hj. rewrite stamp_set_value, value_set_value by done. by rewrite decide_False. }
  assert (Ho : owns (local s tid) = Some (pos n)) by by rewrite Hl.
  split; simpl.
  - by eapply shape_slots; [done|..]; cbn; rewrite ?length_alter.
  - intros j Hj. destruct (decide (j = n)) as [->|Hne].
    + unfold ticket_ok. rewrite decide_True by lia. right. cbn [queue].
      rewrite stamp_set_value by done. split; [done|]. exists tid. by rewrite local_insert, Nat.eqb_refl.
    + eapply tickets_frame; (done || lia).
  - intros t. rewrite local_insert. destruct (Nat.eqb_spec t tid) as [->|Hne].
    + simpl. exists n. rewrite stamp_set_value, value_set_value, decide_True by done.
      split_and!; (done || lia).
    + eapply locals_frame; (done || lia).
  - eapply owner_release; [done|]. left. by rewrite Hl.
Qed.

Lemma inv_push_release s E M tid k v t :
  inv s E M → local s tid = PushRelease k v t → pos (N E) + L < 2 ^ 64 →
  inv (mkState (set_stamp (queue s) t (t +w 1)) (<[tid := Idle]> (threads s))) E M.
Proof.
  intros Hinv Hl Hw. destruct Hinv as [Hsh Htk Hlo Hown] eqn:Heq. clear Heq.
  pose proof (Hlo tid) as Hme. rewrite Hl in Hme. destruct Hme as (n & -> & Hn & Hnth & Hst & Hval).
  pose proof Hsh as [Hlap Hlen _ _ Hb].
  assert (pos n +w 1 = pos n + 1) as ->.
  { unfold wrapping_add. apply Z.mod_small.
    pose proof (pos_lt c L Hc HL n (N E) ltac:(lia)). pose proof (pos_nonneg c L Hc HL n ltac:(lia)). lia. }
  assert (Hfr : ∀ j, j mod c ≠ n mod c →
    cell_stamp (set_stamp (queue s) (pos n) (pos n + 1)) j = cell_stamp (queue s) j
    ∧ cell_value (set_stamp (queue s) (pos n) (pos n + 1)) j = cell_value (queue s) j).
  { intros j Hj. rewrite stamp_set_stamp, value_set_stamp by done. by rewrite decide_False. }
  assert (Ho : owns (local s tid) = Some (pos n)) by by rewrite Hl.
  split; simpl.
  - by eapply shape_slots; [done|..]; cbn; rewrite ?length_alter.
  - intros j Hj. destruct (decide (j = n)) as [->|Hne]; [|eapply tickets_frame; (done || lia)].
    unfold ticket_ok. rewrite decide_True by lia. left. cbn [queue].
    rewrite stamp_set_stamp, value_set_stamp, decide_True, Hval by done. done.
  - intros t. rewrite local_insert. destruct (Nat.eqb_spec t tid) as [->|Hne]; [done|].
    eapply locals_frame; (done || lia).
  - eapply owner_release; [done|]. by right.
Qed.

Lemma inv_pop_release s E M tid h v :
  inv s E M → local s tid = PopRelease h v → pos (N E) + L < 2 ^ 64 →
  inv (mkState (set_stamp (queue s) h (h +w lap (queue s))) (<[tid := Idle]> (threads s))) E M.
Proof.
  intros Hinv Hl Hw. destruct Hinv as [Hsh Htk Hlo Hown] eqn:Heq. clear Heq.
  pose proof (Hlo tid) as Hme. rewrite Hl in Hme. destruct Hme as (m & -> & Hm & HN & Hst & _).
  pose proof Hsh as [Hlap Hlen _ _ Hb].
  assert (pos m +w lap (queue s) = pos (m + c)) as ->.
  { rewrite Hlap, pos_lap by done. unfold wrapping_add. apply Z.mod_small.
    pose proof (pos_lt c L Hc HL m (N E) ltac:(lia)). pose proof (pos_nonneg c L Hc HL m ltac:(lia)). lia. }
  assert (Hfr : ∀ j, j mod c ≠ (m + c) mod c →
    cell_stamp (set_stamp (queue s) (pos m) (pos (m + c))) j = cell_stamp (queue s) j
    ∧ cell_value (set_stamp (queue s) (pos m) (pos (m + c))) j = cell_value (queue s) j).
  { intros j. rewrite mod_plus_c by done. intros Hj.
    rewrite stamp_set_stamp, value_set_stamp by done. by rewrite decide_False. }
  assert (Ho : owns (local s tid) = Some (pos (m + c))) by by rewrite Hl, pos_lap.
  split; simpl.
  - by eapply shape_slots; [done|..]; cbn; rewrite ?length_alter.
  - intros j Hj. destruct (decide (j = m + c)) as [->|Hne]; [|eapply tickets_frame; (done || lia)].
    unfold ticket_ok. rewrite decide_False by lia. left. cbn [queue].
    by rewrite stamp_set_stamp, mod_plus_c, decide_True by done.
  - intros t. rewrite local_insert. destruct (Nat.eqb_spec t tid) as [->|Hne]; [done|].
    eapply locals_frame; (done || lia).
  - eapply owner_release; [done|]. by right.
Qed.

Lemma nth_snoc E v j : j < N E → nth (E ++ [v]) j = nth E j ∨ j < 0.
Proof. intros Hj. destruct (decide (j < 0)); [by right|]. left. apply lookup_app_l. lia. Qed.

(** A free slot at the tail, seen by the thread about to exchange. *)
Lemma tail_free q E M : shape q E M → (∀ j, M ≤ j < M + c → cell_stamp q j = Some (pos j) ∨
    cell_stamp q j = Some (pos j + 1) ∨ N E ≤ j) →
  cell_stamp q (N E) = Some (pos (N E)) → N E < M + c.
Proof.
  intros [_ _ _ _ Hb] Htk Hst. destruct (decide (N E = M + c)) as [HN|]; [|lia]. exfalso.
  rewrite HN, (cell_stamp_mod q (M + c) M), pos_lap in Hst by (done || by rewrite mod_plus_c).
  destruct (Htk M ltac:(lia)) as [Ht|[Ht|Ht]]; [| |lia]; rewrite Ht in Hst;
    injection Hst; lia.
Qed.

Lemma owner_claim s tid l q' E M p :
  inv s E M → owns (local s tid) = None → owns l = Some p →
  (∀ t, owns (local s t) ≠ Some p) →
  (∀ t1 t2 p, owns (local (mkState q' (<[tid := l]> (threads s))) t1) = Some p →
              owns (local (mkState q' (<[tid := l]> (threads s))) t2) = Some p → t1 = t2)
  ∧ ∀ t p, owns (local s t) = Some p → owns (local (mkState q' (<[tid := l]> (threads s))) t) = Some p.
Proof.
  intros [_ _ _ Hown] Hnone Hl Hfree. split.
  - intros t1 t2 p'. rewrite !local_insert.
    destruct (Nat.eqb_spec t1 tid) as [->|], (Nat.eqb_spec t2 tid) as [->|]; try done; [..|apply Hown];
      rewrite Hl; intros; simplify_eq; by edestruct Hfree.
  - intros t p' Hp. rewrite local_insert. destruct (Nat.eqb_spec t tid) as [->|]; congruence.
Qed.

(** The slot at the tail is free, and no thread works on its ticket. *)
Lemma tail_ticket s E M :
  inv s E M → cell_stamp (queue s) (N E) = Some (pos (N E)) →
  N E < M + c ∧ ∀ t j, owns (local s t) = Some (pos j) → j ≠ N E.
Proof.
  intros [Hsh Htk Hlo _] Hst. split.
  - eapply tail_free; [done| |done]. intros j Hj. specialize (Htk j Hj). unfold ticket_ok in Htk.
    case_decide; [|auto with lia]. destruct Htk as [[? _]|[? _]]; auto.
  - intros t j Ho ->. destruct (owns_ticket _ _ _ _ _ Hsh (Hlo t) Ho) as (j & Hp & Hj & Hbusy).
    apply pos_inj in Hp as <-; [|done..].
    destruct (busy_not_ready _ _ _ _ Hsh Hj Hbusy) as [Hne _]. by apply Hne.
Qed.

Lemma locals_push s E M q' v t :
  inv s E M → cell_stamp (queue s) (N E) = Some (pos (N E)) → slots q' = slots (queue s) →
  local_ok q' (E ++ [v]) M (local s t).
Proof.
  intros Hinv Hst Hq. destruct (tail_ticket s E M Hinv Hst) as [_ Hfree]. specialize (Hfree t).
  pose proof (inv_locals _ _ _ Hinv t) as Hlo.
  pose proof (sh_bounds _ _ _ (inv_shape _ _ _ Hinv)) as Hb.
  assert (Hc' : ∀ j, cell_stamp q' j = cell_stamp (queue s) j ∧ cell_value q' j = cell_value (queue s) j)
    by (intros j; unfold cell_stamp, cell_value, cell; by rewrite Hq).
  assert (HN' : N (E ++ [v]) = N E + 1) by (rewrite length_app; simpl; lia).
  revert Hlo Hfree. destruct (local s t); simpl; try done; intros (n & -> & Hn) Hfree;
    exists n; rewrite ?HN'; (split; [done|]); destruct_and? Hn;
    rewrite ?(proj1 (Hc' n)), ?(proj2 (Hc' n)); split_and!; try (done || lia || (intros; lia)).
  3, 5: specialize (Hfree (n + c) ltac:(by rewrite pos_lap)); lia.
  all: destruct (nth_snoc E v n) as [->|]; (done || lia).
Qed.

Lemma inv_push_cas s E M tid k v t :
  inv s E M → local s tid = PushCas k v t → tail (queue s) = t → pos (N E) + L < 2 ^ 64 →
  inv (mkState ((queue s) <| tail := next (queue s) t |>) (<[tid := PushWrite k v t]> (threads s)))
      (E ++ [v]) M.
Proof.
  intros Hinv Hl Htail Hw. pose proof Hinv as [Hsh Htk Hlo Hown].
  pose proof (Hlo tid) as Hme. rewrite Hl in Hme. destruct Hme as (n & -> & Hn & Hst).
  pose proof Hsh as [Hlap Hlen Htl Hhd Hb]. rewrite Htl in Htail.
  apply pos_inj in Htail as <-; [|done..]. specialize (Hst eq_refl).
  destruct (tail_ticket s E M Hinv Hst) as [HNM Hfree].
  assert (HN' : N (E ++ [v]) = N E + 1) by (rewrite length_app; simpl; lia).
  set (q' := (queue s) <| tail := _ |>).
  destruct (owner_claim s tid (PushWrite k v (pos (N E))) q' E M (pos (N E)) Hinv) as [Hu Hkeep];
    [by rewrite Hl|done|intros t Ho; by apply Hfree in Ho|].
  split; [| | |done].
  - split; simpl; try done; [|lia]. rewrite HN'. by apply next_pos; [..|lia|].
  - intros j Hj. specialize (Htk j Hj). unfold ticket_ok in *. cbn [queue]. rewrite HN'.
    change (cell_stamp q' j) with (cell_stamp (queue s) j).
    change (cell_value q' j) with (cell_value (queue s) j).
    destruct (decide (j < N E)).
    + rewrite decide_True by lia. destruct (nth_snoc E v j) as [->|]; [lia| |lia]. naive_solver.
    + destruct (decide (j = N E)) as [->|].
      * rewrite decide_True by lia. right. split; [done|]. exists tid. by rewrite local_insert, Nat.eqb_refl.
      * rewrite decide_False by lia. naive_solver.
  - intros t. rewrite local_insert. destruct (Nat.eqb_spec t tid) as [->|]; [|by apply locals_push].
    simpl. exists (N E). rewrite HN'. split_and!; try (done || lia).
    unfold nth. rewrite Nat2Z.id. by rewrite lookup_app_r, Nat.sub_diag.
Qed.

(** The slot at the head is filled, and no thread works on its ticket. *)
Lemma head_ticket s E M :
  inv s E M → cell_stamp (queue s) M = Some (pos M + 1) →
  M < N E ∧ cell_value (queue s) M = nth E M ∧ ∀ t j, owns (local s t) = Some (pos j) → M < j < M + c.
Proof.
  intros [Hsh Htk Hlo _] Hst. pose proof (sh_bounds _ _ _ Hsh) as Hb.
  specialize (Htk M ltac:(lia)). unfold ticket_ok in Htk.
  assert (M < N E ∧ cell_value (queue s) M = nth E M) as [HM Hv].
  { case_decide; rewrite Hst in Htk; destruct Htk as [Htk|[Htk _]];
      destruct_and?; simplify_eq; lia || done. }
  split_and!; [done|done|]. intros t j Ho.
  destruct (owns_ticket _ _ _ _ _ Hsh (Hlo t) Ho) as (j' & Hp & Hj & Hbusy).
  apply pos_inj in Hp as <-; [|done..].
  destruct (busy_not_ready _ _ _ _ Hsh Hj Hbusy) as [_ Hne]. specialize (Hne Hst).
  assert (j ≠ M) by congruence. lia.
Qed.

Lemma locals_pop s E M q' t :
  inv s E M → cell_stamp (queue s) M = Some (pos M + 1) → slots q' = slots (queue s) →
  local_ok q' E (M + 1) (local s t).
Proof.
  intros Hinv Hst Hq. destruct (head_ticket s E M Hinv Hst) as (_ & _ & Hfree). specialize (Hfree t).
  pose proof (inv_locals _ _ _ Hinv t) as Hlo.
  assert (Hc' : ∀ j, cell_stamp q' j = cell_stamp (queue s) j ∧ cell_value q' j = cell_value (queue s) j)
    by (intros j; unfold cell_stamp, cell_value, cell; by rewrite Hq).
  revert Hlo Hfree. destruct (local s t); simpl; try done; intros (n & -> & Hn) Hfree;
    exists n; (split; [done|]); destruct_and? Hn;
    rewrite ?(proj1 (Hc' n)), ?(proj2 (Hc' n)); split_and!; try (done || lia || (intros; lia)).
  all: specialize (Hfree n eq_refl); lia.
Qed.

Lemma inv_pop_cas s E M tid h :
  inv s E M → local s tid = PopCas h → head (queue s) = h → pos (N E) + L < 2 ^ 64 →
  inv (mkState ((queue s) <| head := next (queue s) h |>) (<[tid := PopRead h]> (threads s))) E (M + 1)
  ∧ cell_value (queue s) M = nth E M ∧ M < N E ∧ h = pos M.
Proof.
  intros Hinv Hl Hhead Hw. pose proof Hinv as [Hsh Htk Hlo Hown].
  pose proof (Hlo tid) as Hme. rewrite Hl in Hme. destruct Hme as (m & -> & Hm & Hst).
  pose proof Hsh as [Hlap Hlen Htl Hhd Hb]. rewrite Hhd in Hhead.
  apply pos_inj in Hhead as <-; [|done..]. specialize (Hst eq_refl).
  destruct (head_ticket s E M Hinv Hst) as (HMN & Hval & Hfree). split; [|done].
  set (q' := (queue s) <| head := _ |>).
  destruct (owner_claim s tid (PopRead (pos M)) q' E M (pos (M + c)) Hinv) as [Hu Hkeep];
    [by rewrite Hl|simpl; by rewrite pos_lap|intros t Ho%Hfree; lia|].
  split; [| | |done].
  - split; simpl; try (done || lia). apply next_pos; try (done || lia).
    pose proof (pos_lt c L Hc HL M (N E) ltac:(lia)). lia.
  - intros j Hj. destruct (decide (j = M + c)) as [->|].
    + unfold ticket_ok. rewrite decide_False by lia. right. cbn [queue].
      change (cell_stamp q' (M + c)) with (cell_stamp (queue s) (M + c)).
      rewrite (cell_stamp_mod _ _ M), Hst, pos_lap by (done || by rewrite mod_plus_c).
      split; [f_equal; lia|]. exists tid. by rewrite local_insert, Nat.eqb_refl.
    + specialize (Htk j ltac:(lia)). unfold ticket_ok in *. cbn [queue].
      change (cell_stamp q' j) with (cell_stamp (queue s) j).
      change (cell_value q' j) with (cell_value (queue s) j). case_decide; naive_solver.
  - intros t. rewrite local_insert. destruct (Nat.eqb_spec t tid) as [->|]; [|by apply locals_pop].
    simpl. exists M. split_and!; (done || lia).
Qed.

(** *** Every step *)

Definition in_bounds (n : Z) : Prop := pos n + L < 2 ^ 64.

Lemma in_bounds_mono n n' : n ≤ n' → in_bounds n' → in_bounds n.
Proof.
  unfold in_bounds. intros Hn. destruct (decide (n = n')) as [->|]; [done|].
  pose proof (pos_lt c L Hc HL n n' ltac:(lia)). lia.
Qed.

Lemma pos_wrap n : 0 ≤ n → in_bounds n → pos n +w 1 = pos n + 1 ∧ pos n +w L = pos n + L.
Proof.
  unfold in_bounds, wrapping_add. intros. pose proof (pos_nonneg c L Hc HL n ltac:(done)).
  rewrite !Z.mod_small; lia.
Qed.

(** No access of a running thread indexes out of the ring or reads an
    uninitialised slot. *)
Lemma step_total s E M tid : inv s E M → local s tid ≠ Idle → is_Some (step s tid).
Proof.
  intros [Hsh _ Hlo _] Hl. specialize (Hlo tid). pose proof (sh_bounds _ _ _ Hsh) as Hb.
  destruct Hsh as [Hlap Hlen _ _ _].
  unfold step. destruct (local s tid) eqn:El; simpl; try done; simpl in Hlo; try (by eexists).
  - destruct Hlo as (n & -> & _). rewrite slot_at_pos by done.
    destruct (cell_is_Some (queue s) n Hlen) as [sl ->]. destruct (negb _); [destruct k|]; by eexists.
  - destruct (_ =? _); by eexists.
  - destruct Hlo as (n & -> & _). rewrite slot_at_pos by done.
    destruct (cell_is_Some (queue s) n Hlen) as [sl ->]. destruct (negb _); by eexists.
  - destruct Hlo as (n & -> & _). rewrite slot_at_pos by done.
    destruct (cell_is_Some (queue s) n Hlen) as [sl ->]. destruct (_ =? _); by eexists.
  - destruct Hlo as (n & -> & Hn & HN & _ & Hv). rewrite slot_at_pos by done.
    assert (is_Some (nth E n)) as [v Hv'] by (apply lookup_lt_is_Some_2; lia).
    rewrite Hv' in Hv. unfold cell_value in Hv.
    destruct (cell (queue s) n) as [[? [?|]]|]; simpl in Hv; done.
Qed.

Definition pop_step E (M : Z) (l : list (option T)) : Prop :=
  l = [] ∨ (l = [nth E M] ∧ M < N E).

Lemma step_inv s E M tid s' evs :
  inv s E M → step s tid = Some (s', evs) → in_bounds (N (E ++ pushes evs)) →
  inv s' (E ++ pushes evs) (M + Z.of_nat (length (pops evs))) ∧ pop_step E M (pops evs).
Proof.
  intros Hinv Hstep Hw0.
  assert (Hw : in_bounds (N E)) by (eapply in_bounds_mono; [|exact Hw0]; rewrite length_app; lia).
  pose proof Hinv as [Hsh Htk Hlo _]. pose proof (Hlo tid) as Hme. pose proof Hsh as [Hlap Hlen Htl Hhd Hb].
  assert (Hset : ∀ l, owns l = owns (local s tid) → local_ok (queue s) E M l →
    inv (mkState (queue s) (<[tid := l]> (threads s))) (E ++ []) (M + 0))
    by (rewrite app_nil_r, Z.add_0_r; intros; by apply inv_set_local).
  unfold step in Hstep. destruct (local s tid) eqn:El; simpl in *; try done.
  - simplify_eq. split; [|by left]. apply Hset; [done|]. exists (N E). split; [done|lia].
  - destruct Hme as (n & -> & Hn). rewrite slot_at_pos in Hstep by done.
    destruct (cell (queue s) n) as [sl|] eqn:Hsl; [|done]. destruct (negb _) eqn:Hst.
    + destruct k; simplify_eq; (split; [|by left]); apply Hset; try done. by exists n.
    + simplify_eq. split; [|by left]. apply Hset; [done|]. exists n. split_and!; try (done || lia).
      intros _. bool_hyps. unfold cell_stamp. rewrite Hsl. simpl. congruence.
  - simplify_eq. split; [|by left]. by apply Hset.
  - destruct (_ =? _) eqn:Ht; simplify_eq; [|split; [|by left]; by apply Hset].
    bool_hyps. split; [|by left]. simpl. rewrite Z.add_0_r. by apply inv_push_cas.
  - simplify_eq. split; [|by left]. simpl. rewrite app_nil_r, Z.add_0_r. by apply inv_push_write.
  - simplify_eq. split; [|by left]. simpl. rewrite app_nil_r, Z.add_0_r. by eapply inv_push_release.
  - simplify_eq. split; [|by left]. apply Hset; [done|]. exists M. split; [done|lia].
  - destruct Hme as (m & -> & Hm). rewrite slot_at_pos in Hstep by done.
    destruct (cell (queue s) m) as [sl|] eqn:Hsl; [|done].
    rewrite (proj1 (pos_wrap m ltac:(lia) ltac:(eapply in_bounds_mono; [|exact Hw]; lia))) in Hstep.
    destruct (negb _) eqn:Hst; simplify_eq; (split; [|by left]); apply Hset; try done.
    exists m. split_and!; try (done || lia).
    intros _. bool_hyps. unfold cell_stamp. rewrite Hsl. simpl. congruence.
  - destruct (_ =? _) eqn:Ht; [|simplify_eq; split; [|by left]; by apply Hset]. bool_hyps.
    destruct (inv_pop_cas s E M tid h Hinv El Ht Hw) as (Hi & Hv & HM & ->).
    rewrite slot_at_pos in Hstep by done. unfold cell_value in Hv.
    destruct (cell (queue s) M) as [sl|]; [|done]. simplify_eq. simpl in *. rewrite app_nil_r.
    split; [done|]. right. by rewrite Hv.
  - destruct Hme as (m & -> & Hm & HN & Hst & Hv). rewrite slot_at_pos in Hstep by done.
    destruct (cell (queue s) m) as [[x [v|]]|] eqn:Hsl; try done. simplify_eq.
    split; [|by left]. apply Hset; [done|]. exists m. split_and!; try (done || lia).
    unfold cell_value in Hv. rewrite Hsl in Hv. done.
  - simplify_eq. split; [|by left]. simpl. rewrite app_nil_r, Z.add_0_r. by eapply inv_pop_release.
Qed.
End Invariant.

(** ** What every interleaving satisfies *)

Section Theorems.
Context {T : Type}.
Implicit Types (q : TryQueue (T:=T)) (s : State (T:=T)) (tr : list (Event (T:=T))).

Definition lap_of (cap : Z) : Z := 2 ^ Z.log2_up (cap + 1).

(** The positions used so far, and one lap more, fit in 64 bits. *)
Definition short_history (cap : Z) tr : Prop :=
  in_bounds cap (lap_of cap) (Z.of_nat (length (pushes tr))).

Lemma new_lap cap q : new (T:=T) cap = Some q →
  0 < cap ∧ cap < lap_of cap ∧ ∃ p, lap_of cap = 2 ^ p ∧ 0 ≤ p.
Proof.
  unfold new, is_power_capacity. destruct (_ && _) eqn:H; [|done]. bool_hyps. intros _.
  split_and!; [done| |eexists; split; [done|apply Z.log2_up_nonneg]].
  unfold lap_of. pose proof (Z.log2_up_spec (cap + 1) ltac:(lia)). lia.
Qed.

Lemma new_inv cap q : new cap = Some q → inv (T:=T) cap (lap_of cap) (idle_state q) [] 0.
Proof.
  intros Hn. destruct (new_lap cap q Hn) as (Hc & HL & _).
  unfold new in Hn. destruct (is_power_capacity cap); [|done]. simplify_eq.
  split; try done; simpl.
  - split; simpl; try done; [by rewrite length_fmap, length_seq; lia|lia].
  - intros j Hj. unfold ticket_ok. simpl. rewrite decide_False by lia. left.
    unfold cell_stamp, cell. simpl. rewrite Z.mod_small by lia.
    rewrite list_lookup_fmap, lookup_seq_lt by lia. simpl. f_equal.
    unfold pos. rewrite Z.div_small, Z.mod_small by lia. lia.
Qed.

Lemma pushes_app tr1 tr2 : pushes (tr1 ++ tr2) = pushes tr1 ++ pushes tr2.
Proof. apply omap_app. Qed.

Lemma pops_app tr1 tr2 : pops (tr1 ++ tr2) = pops tr1 ++ pops tr2.
Proof. apply omap_app. Qed.

Lemma short_prefix cap tr tr' : 0 < cap → cap < lap_of cap →
  short_history cap (tr ++ tr') → short_history cap tr.
Proof.
  intros Hc HL. apply in_bounds_mono; [done..|]. rewrite pushes_app, length_app. lia.
Qed.

Lemma reachable_lap cap s tr : reachable cap s tr →
  0 < cap ∧ cap < lap_of cap ∧ ∃ p, lap_of cap = 2 ^ p ∧ 0 ≤ p.
Proof. induction 1; [by eapply new_lap|done]. Qed.

Lemma act_inv cap s E M a s' evs :
  0 < cap → cap < lap_of cap → (∃ p, lap_of cap = 2 ^ p ∧ 0 ≤ p) →
  inv cap (lap_of cap) s E M → act s a = Some (s', evs) →
  in_bounds cap (lap_of cap) (Z.of_nat (length (E ++ pushes evs))) →
  inv cap (lap_of cap) s' (E ++ pushes evs) (M + Z.of_nat (length (pops evs)))
  ∧ pop_step E M (pops evs).
Proof.
  intros Hc HL HP Hinv Ha Hb. destruct a as [tid l|tid]; simpl in Ha; [|by eapply step_inv].
  unfold start in Ha. destruct (local s tid) eqn:El; try done.
  destruct (is_entry l) eqn:He; [|done]. simplify_eq. simpl. rewrite app_nil_r, Z.add_0_r.
  split; [|by left]. apply inv_set_local; [done| |]; rewrite ?El; by destruct l.
Qed.

Lemma reachable_inv cap s tr :
  reachable cap s tr → short_history cap tr →
  inv cap (lap_of cap) s (pushes tr) (Z.of_nat (length (pops tr)))
  ∧ pops tr = Some <$> take (length (pops tr)) (pushes tr).
Proof.
  induction 1 as [q Hq|s tr a s' evs Hr IH Ha]; intros Hb; [by split; [apply new_inv|]|].
  destruct (reachable_lap _ _ _ Hr) as (Hc & HL & HP).
  destruct IH as [Hi Hf]; [by eapply short_prefix|].
  unfold short_history in Hb. rewrite pushes_app in Hb.
  destruct (act_inv cap s _ _ a s' evs Hc HL HP Hi Ha Hb) as [Hi' Hp].
  rewrite pushes_app, pops_app, length_app, Nat2Z.inj_add. split; [done|].
  destruct Hp as [-> | [-> HM]].
  - rewrite Nat.add_0_r, app_nil_r, take_app_le; [done|].
    pose proof (sh_bounds _ _ _ _ _ (inv_shape _ _ _ _ _ Hi)). lia.
  - rewrite Hf at 1. unfold nth. simpl. rewrite Nat2Z.id, take_app_le by lia.
    destruct (lookup_lt_is_Some_2 (pushes tr) (length (pops tr))) as [x Hx]; [lia|].
    rewrite Nat.add_1_r, (take_S_r _ _ x Hx), fmap_app, Hx. done.
Qed.

(** With no reservation in progress, a head that is not ready is the end. *)
Lemma not_ready_drained cap s tr :
  reachable cap s tr → short_history cap tr → (∀ tid, owns (lap_of cap) (local s tid) = None) →
  front_ready (queue s) = false → length (pops tr) = length (pushes tr).
Proof.
  intros Hr Hb Hown Hf. destruct (reachable_lap _ _ _ Hr) as (Hc & HL & HP).
  destruct (reachable_inv _ _ _ Hr Hb) as [[Hsh Htk _ _] _].
  destruct Hsh as [Hlap Hlen _ Hh Hbd]. set (M := Z.of_nat (length (pops tr))) in *.
  destruct (decide (M < Z.of_nat (length (pushes tr)))) as [HM|]; [|lia].
  specialize (Htk M ltac:(lia)). unfold ticket_ok in Htk. rewrite decide_True in Htk by done.
  destruct Htk as [[Hst _]|[_ [tid Ho]]]; [|by rewrite Hown in Ho].
  assert (in_bounds cap (lap_of cap) M) as HbM by (eapply in_bounds_mono; [..|exact Hb]; done || lia).
  destruct (pos_wrap cap (lap_of cap) Hc HL M ltac:(lia) HbM) as [Hw _].
  unfold front_ready in Hf. rewrite Hh, (slot_at_pos cap (lap_of cap) Hc HL _ Hlap HP), Hw in Hf.
  unfold cell_stamp in Hst. destruct (cell cap (queue s) M); [|done]. injection Hst as Hst.
  by rewrite Hst, Z.eqb_refl in Hf.
Qed.

Lemma len_spec cap q E M :
  0 < cap → cap < lap_of cap → (∃ p, lap_of cap = 2 ^ p ∧ 0 ≤ p) →
  shape (T:=T) cap (lap_of cap) q E M → len q = Z.of_nat (length E) - M.
Proof.
  intros Hc HL HP [Hlap Hlen Ht Hh Hb]. unfold len, capacity.
  rewrite Ht, Hh, Hlap, Hlen. set (n := Z.of_nat (length E)) in *.
  assert (Hland : ∀ j, Z.land (pos cap (lap_of cap) j) (lap_of cap - 1) = j mod cap).
  { intros j. destruct HP as (p & Hp & Hp0). rewrite Hp at 2. rewrite Z.sub_1_r, <- Z.ones_equiv.
    rewrite Z.land_ones, <- Hp by done. by rewrite pos_mod. }
  rewrite !Hland. destruct (_ =? _) eqn:He; bool_hyps.
  { apply pos_inj in He; lia. }
  assert (M ≠ n) by congruence.
  pose proof (Z.div_mod M cap ltac:(lia)). pose proof (Z.div_mod n cap ltac:(lia)).
  pose proof (Z.mod_pos_bound M cap Hc). pose proof (Z.mod_pos_bound n cap Hc).
  assert (n / cap = M / cap ∨ n / cap = M / cap + 1) as [Hd|Hd] by nia;
    rewrite Hd in *; destruct (_ <? _) eqn:Hlt; bool_hyps; nia.
Qed.


(** What a thread has claimed and not yet returned. *)
Definition in_flight q (l : Local (T:=T)) : list (option T) :=
  match l with
  | PopRead h => [slot_at q h ≫= value]
  | PopRelease _ v => [Some v]
  | _ => []
  end.

Lemma reachable_exec cap s tr l s' evs :
  reachable cap s tr → exec s l = Some (s', evs) → reachable cap s' (tr ++ evs).
Proof.
  revert s tr evs. induction l as [|a l IH]; intros s tr evs Hr; simpl.
  { intros [= <- <-]. by rewrite app_nil_r. }
  destruct (act s a) as [[s1 e1]|] eqn:Ha; [|done].
  destruct (exec s1 l) as [[s2 e2]|] eqn:He; [|done]. intros [= <- <-].
  rewrite app_assoc. eapply IH; [|done]. by eapply reach_act.
Qed.

(** A value in flight is not disturbed by the steps of other threads. *)
Lemma in_flight_stable cap s tr a s' evs tid :
  reachable cap s tr → act s a = Some (s', evs) → short_history cap (tr ++ evs) →
  local s' tid = local s tid →
  in_flight (queue s') (local s tid) = in_flight (queue s) (local s tid).
Proof.
  intros Hr Ha Hb Hl. destruct (reachable_lap _ _ _ Hr) as (Hc & HL & HP).
  pose proof (reach_act _ _ _ _ _ _ Hr Ha) as Hr'.
  destruct (reachable_inv _ _ _ Hr' Hb) as [Hi' _].
  destruct (reachable_inv _ _ _ Hr (short_prefix _ _ _ Hc HL Hb)) as [Hi _].
  pose proof (inv_locals _ _ _ _ _ Hi tid) as Hlo. pose proof (inv_locals _ _ _ _ _ Hi' tid) as Hlo'.
  rewrite Hl in Hlo'. destruct (local s tid); try done. simpl in *.
  destruct Hlo as (m & -> & Hm & _ & _ & Hv), Hlo' as (m' & Hp & _ & _ & _ & Hv').
  apply pos_inj in Hp as <-; [|done..].
  rewrite !(slot_at_pos _ _ Hc HL); [|apply Hi|done|apply Hi'|done].
  f_equal. change (cell_value cap (queue s') m = cell_value cap (queue s) m).
  rewrite Hv, Hv'. unfold nth. rewrite pushes_app, lookup_app_l; [done|].
  pose proof (sh_bounds _ _ _ _ _ (inv_shape _ _ _ _ _ Hi)). lia.
Qed.

Definition actor (a : Action (T:=T)) : nat := match a with Call tid _ | Run tid => tid end.

Lemma act_other s a s' evs tid :
  act s a = Some (s', evs) → actor a ≠ tid →
  local s' tid = local s tid ∧ claimed tid evs = [] ∧ returned tid evs = [].
Proof.
  intros Ha Hne. destruct a as [t l|t]; simpl in *.
  - unfold start in Ha. destruct (local s t), (is_entry l); simplify_eq.
    rewrite local_insert. by destruct (Nat.eqb_spec tid t); [congruence|].
  - assert (Htid : (t =? tid)%nat = false) by by apply Nat.eqb_neq.
    unfold step, access in Ha. split_cases; rewrite local_insert;
      (destruct (Nat.eqb_spec tid t); [congruence|]); simpl; by rewrite ?Htid.
Qed.

Lemma act_own s a s' evs :
  act s a = Some (s', evs) → let tid := actor a in
  in_flight (queue s) (local s tid) ++ claimed tid evs
  = returned tid evs ++ in_flight (queue s') (local s' tid).
Proof.
  intros Ha. destruct a as [t l|t]; simpl in *.
  - unfold start in Ha. destruct (local s t), (is_entry l) eqn:He; simplify_eq.
    rewrite local_insert, Nat.eqb_refl. simpl. by destruct l.
  - unfold step, access in Ha. destruct (local s t) eqn:El; simplify_eq; split_cases;
      rewrite local_insert, Nat.eqb_refl; simpl; rewrite ?Nat.eqb_refl; try done.
    all: try by destruct k.
    all: rewrite ?Nat.eqb_refl in *; simplify_eq.
    change (slot_at (_ <| head := _ |>) h) with (slot_at (queue s) h). by match goal with H : slot_at _ _ = _ |- _ => rewrite H end.
Qed.

(** The values a thread's pops return are exactly the ones its head exchanges
    claimed, in order and each once; at any moment at most the one it is still
    moving out is missing. *)
Theorem pop_returns_claimed cap s tr tid :
  reachable cap s tr → short_history cap tr →
  claimed tid tr = returned tid tr ++ in_flight (queue s) (local s tid).
Proof.
  induction 1 as [q Hq|s tr a s' evs Hr IH Ha]; intros Hb; [done|].
  destruct (reachable_lap _ _ _ Hr) as (Hc & HL & _).
  specialize (IH (short_prefix _ _ _ Hc HL Hb)).
  assert (claimed tid (tr ++ evs) = claimed tid tr ++ claimed tid evs) as -> by apply omap_app.
  assert (returned tid (tr ++ evs) = returned tid tr ++ returned tid evs) as -> by apply omap_app.
  rewrite IH, <- !app_assoc. f_equal. destruct (decide (actor a = tid)) as [<-|Hne].
  - by apply act_own.
  - destruct (act_other _ _ _ _ _ Ha Hne) as (Hl & -> & ->). rewrite app_nil_r. simpl.
    rewrite Hl. symmetry. by eapply in_flight_stable.
Qed.

Lemma full_after_head s tid s' evs v :
  step s tid = Some (s', evs) → Returned tid (PushFull v) ∈ evs →
  ∃ t, local s tid = PushHead v t ∧ head (queue s) +w lap (queue s) = t.
Proof.
  rewrite list_elem_of_In. unfold step, access. destruct (local s tid) eqn:El; intros Hs Hin; try done.
  all: simplify_eq/=; split_cases; simpl in Hin;
    repeat match goal with H : _ ∨ _ |- _ => destruct H as [H|H] end; try done; try (by destruct k).
  simplify_eq. bool_hyps. eauto.
Qed.

(** A classified push reports [Full] only in a state in which every slot is
    taken; losing a race is never reported as a full queue. *)
Theorem full_means_full cap s tr tid s' evs v :
  reachable cap s tr → short_history cap tr →
  step s tid = Some (s', evs) → Returned tid (PushFull v) ∈ evs →
  len (queue s) = cap.
Proof.
  intros Hr Hb Hs Hin. destruct (reachable_lap _ _ _ Hr) as (Hc & HL & HP).
  destruct (reachable_inv _ _ _ Hr Hb) as [Hi _].
  pose proof (inv_locals _ _ _ _ _ Hi tid) as Hlo. pose proof (inv_shape _ _ _ _ _ Hi) as Hsh.
  rewrite (len_spec cap _ _ _ Hc HL HP Hsh). destruct Hsh as [Hlap _ _ Hh Hbd].
  destruct (full_after_head _ _ _ _ _ Hs Hin) as (t & Hl & Ht). rewrite Hl in Hlo.
  destruct Hlo as (n & -> & Hn).
  assert (head (queue s) +w lap (queue s) = pos cap (lap_of cap) (Z.of_nat (length (pops tr)) + cap)) as Hw.
  { rewrite Hh, Hlap, pos_lap by done. apply pos_wrap; try (done || lia).
    eapply in_bounds_mono; [done..| |exact Hb]. lia. }
  rewrite Hw in Ht. apply pos_inj in Ht; [lia|done..].
Qed.

(** The accesses an operation still needs. *)
Definition rank (l : Local (T:=T)) : nat :=
  match l with
  | Idle => 0
  | PushLoad _ _ | PopLoad => 5
  | PushStamp _ _ _ | PopStamp _ => 4
  | PushCas _ _ _ | PopCas _ => 3
  | PushWrite _ _ _ | PopRead _ => 2
  | PushHead _ _ | PushRelease _ _ _ | PopRelease _ _ => 1
  end.

Definition runs (tid : nat) (l : list (Action (T:=T))) : nat :=
  count (λ a, match a with Run t => (t =? tid)%nat | Call _ _ => false end) l.

Definition calls (tid : nat) (l : list (Action (T:=T))) : nat :=
  count (λ a, match a with Call t _ => (t =? tid)%nat | Run _ => false end) l.

Lemma step_rank s tid s' evs :
  step s tid = Some (s', evs) → (rank (local s' tid) < rank (local s tid))%nat.
Proof.
  unfold step, access. destruct (local s tid); intros H; simplify_eq/=; split_cases;
    rewrite local_insert, Nat.eqb_refl; simpl; lia.
Qed.

(** No operation waits: whatever the other threads do, stalled ones included,
    a thread finishes its operation within five accesses of its own. *)
Theorem bounded_steps s l s' evs tid :
  exec s l = Some (s', evs) → calls tid l = 0%nat →
  (runs tid l + rank (local s' tid) ≤ rank (local s tid) ≤ 5)%nat.
Proof.
  intros He Hk. split; [|by destruct (local s tid); simpl; lia].
  revert s evs He Hk. induction l as [|a l IH]; intros s evs He Hk; cbn [exec] in He.
  { simplify_eq. done. }
  destruct (act s a) as [[s1 e1]|] eqn:Ha; [|done].
  destruct (exec s1 l) as [[s2 e2]|] eqn:Hl; [|done]. simplify_eq.
  assert (calls tid l = 0%nat) as Hk'.
  { revert Hk. unfold calls, count. simpl. destruct a as [t ?|t]; [destruct (t =? tid)%nat|]; done. }
  specialize (IH s1 e2 Hl Hk'). destruct (decide (actor a = tid)) as [Heq|Hne].
  - destruct a as [t l'|t]; simpl in Heq; subst t.
    + revert Hk. unfold calls, count. simpl. by rewrite Nat.eqb_refl.
    + apply step_rank in Ha. unfold runs, count in *. simpl. rewrite Nat.eqb_refl. simpl. lia.
  - destruct (act_other _ _ _ _ _ Ha Hne) as (Hloc & _ & _). rewrite Hloc in IH.
    unfold runs, count in *. simpl. destruct a as [t l'|t]; simpl in Hne; [done|].
    by destruct (Nat.eqb_spec t tid).
Qed.

(** ** One thread at a time *)

Lemma inv_idle c L s E M :
  inv (T:=T) c L s E M → (∀ tid, local s tid = Idle) → inv c L (idle_state (queue s)) E M.
Proof.
  intros [Hsh Htk Hlo Hown] Hidle. split; try done.
  intros j Hj. specialize (Htk j Hj). unfold ticket_ok in *. simpl.
  case_decide; destruct Htk as [?|[? [tid Ho]]]; auto; by rewrite Hidle in Ho.
Qed.

(** With no operation in progress the tail slot is free unless the queue is
    full, and the head slot is filled unless it is empty. *)
Lemma quiet_ends c L q E M :
  0 < c → c < L → inv (T:=T) c L (idle_state q) E M →
  (cell_stamp c q (Z.of_nat (length E)) = Some (pos c L (Z.of_nat (length E)))
   ↔ Z.of_nat (length E) < M + c)
  ∧ (cell_stamp c q M = Some (pos c L M + 1) ↔ M < Z.of_nat (length E)).
Proof.
  intros Hc HL Hi. pose proof (inv_shape _ _ _ _ _ Hi) as Hsh. simpl in Hsh.
  pose proof (sh_bounds _ _ _ _ _ Hsh) as Hb. split; split; intros H.
  - by apply (tail_ticket c L Hc HL (idle_state q)).
  - pose proof (inv_tickets _ _ _ _ _ Hi (Z.of_nat (length E)) ltac:(lia)) as Ht.
    unfold ticket_ok in Ht. rewrite decide_False in Ht by lia.
    destruct Ht as [?|[_ [tid Ho]]]; done.
  - by apply (head_ticket c L Hc HL (idle_state q)).
  - pose proof (inv_tickets _ _ _ _ _ Hi M ltac:(lia)) as Ht.
    unfold ticket_ok in Ht. rewrite decide_True in Ht by lia.
    destruct Ht as [[? _]|[_ [tid Ho]]]; done.
Qed.

Lemma local_here q l th : local (T:=T) (mkState q (<[0%nat := l]> th)) 0 = l.
Proof. unfold local. simpl. by rewrite lookup_insert_eq. Qed.

Lemma idle_after q th :
  (∀ tid, tid ≠ 0%nat → default Idle (th !! tid) = Idle) →
  ∀ tid, local (T:=T) (mkState q (<[0%nat := Idle]> th)) tid = Idle.
Proof.
  intros H tid. unfold local. simpl. destruct (decide (tid = 0%nat)) as [->|];
    [by rewrite lookup_insert_eq|rewrite lookup_insert_ne by done; auto].
Qed.

Lemma alone_push c L q E M k v :
  0 < c → c < L → (∃ p, L = 2 ^ p ∧ 0 ≤ p) → inv c L (idle_state q) E M →
  in_bounds c L (Z.of_nat (length (E ++ [v]))) → Z.of_nat (length E) < M + c →
  ∃ q', alone 5 q (PushLoad k v) = Some (q', push_done k) ∧ inv c L (idle_state q') (E ++ [v]) M.
Proof.
  intros Hc HL HP Hi Hb Hroom.
  assert (Hb' : in_bounds c L (Z.of_nat (length E)))
    by (eapply in_bounds_mono; [done..| |exact Hb]; rewrite length_app; lia).
  pose proof (inv_shape _ _ _ _ _ Hi) as [Hlap Hlen Ht Hh _]. simpl in *.
  assert (cell_stamp c q (Z.of_nat (length E)) = Some (pos c L (Z.of_nat (length E)))) as Hst
    by by apply (quiet_ends c L q E M).
  eexists. split.
  - cbn [alone access]. rewrite Ht, slot_at_pos by done. unfold cell_stamp in Hst.
    destruct (cell c q _) as [sl|]; [|done]. injection Hst as Hst. simpl in Hst.
    rewrite Hst, Z.eqb_refl. cbn [negb alone access]. by rewrite Ht, Z.eqb_refl.
  - assert (H1 := inv_set_local c L (idle_state q) E M 0%nat
      (PushCas k v (pos c L (Z.of_nat (length E)))) Hi eq_refl
      ltac:(exists (Z.of_nat (length E)); split_and!; (done || lia))).
    assert (H2 := inv_push_cas c L Hc HL HP _ E M 0%nat _ _ _ H1 (local_here _ _ _) Ht Hb').
    assert (H3 := inv_push_write c L Hc HL HP _ _ M 0%nat _ _ _ H2 (local_here _ _ _)).
    assert (H4 := inv_push_release c L Hc HL HP _ _ M 0%nat _ _ _ H3 (local_here _ _ _) Hb).
    apply inv_idle in H4; [exact H4|]. apply idle_after. intros tid Htid. simpl.
    by rewrite !lookup_insert_ne by done.
Qed.

Lemma alone_push_full c L q E M k v :
  0 < c → c < L → (∃ p, L = 2 ^ p ∧ 0 ≤ p) → inv c L (idle_state q) E M →
  in_bounds c L (Z.of_nat (length E)) → Z.of_nat (length E) = M + c →
  alone 5 q (PushLoad k v)
  = Some (q, match k with Classified => PushFull v | _ => push_failed k v end).
Proof.
  intros Hc HL HP Hi Hb Hfull.
  pose proof (inv_shape _ _ _ _ _ Hi) as [Hlap Hlen Ht Hh HM]. simpl in *.
  assert (cell_stamp c q (Z.of_nat (length E)) ≠ Some (pos c L (Z.of_nat (length E)))) as Hst
    by (intros H; apply (quiet_ends c L q E M Hc HL Hi) in H; lia).
  cbn [alone access]. rewrite Ht, slot_at_pos by done. unfold cell_stamp in Hst.
  destruct (cell_is_Some c Hc q (Z.of_nat (length E)) Hlen) as [sl Hsl]. rewrite Hsl in *.
  destruct (stamp sl =? _) eqn:He; bool_hyps; [simpl in Hst; congruence|]. cbn [negb].
  destruct k; try done. cbn [alone access].
  rewrite Hh, Hlap, (proj2 (pos_wrap c L Hc HL M ltac:(lia) ltac:(eapply in_bounds_mono; [done..| |exact Hb]; lia))).
  by rewrite <- (pos_lap c L Hc), <- Hfull, Z.eqb_refl.
Qed.

Lemma alone_pop c L q E M x :
  0 < c → c < L → (∃ p, L = 2 ^ p ∧ 0 ≤ p) → inv c L (idle_state q) E M →
  in_bounds c L (Z.of_nat (length E)) → nth E M = Some x → M < Z.of_nat (length E) →
  ∃ q', alone 5 q try_pop = Some (q', PopSome x) ∧ inv c L (idle_state q') E (M + 1).
Proof.
  intros Hc HL HP Hi Hb Hx HM.
  pose proof (inv_shape _ _ _ _ _ Hi) as [Hlap Hlen Ht Hh HMb]. simpl in *.
  assert (cell_stamp c q M = Some (pos c L M + 1)) as Hst by by apply (quiet_ends c L q E M).
  destruct (head_ticket c L Hc HL (idle_state q) E M Hi Hst) as (_ & Hv & _). simpl in Hv.
  rewrite Hx in Hv.
  assert (HbM : in_bounds c L M) by (eapply in_bounds_mono; [done..| |exact Hb]; lia).
  assert (slot_at q (pos c L M) = Some (mkSlot (pos c L M + 1) (Some x))) as Hsl.
  { rewrite slot_at_pos by done. unfold cell_stamp, cell_value in *.
    destruct (cell c q M) as [[? ?]|]; simpl in *; congruence. }
  eexists. split.
  - unfold try_pop. cbn [alone access]. rewrite Hh, Hsl. cbn [stamp].
    rewrite (proj1 (pos_wrap c L Hc HL M ltac:(lia) HbM)), Z.eqb_refl. cbn [negb alone access].
    rewrite Hh, Z.eqb_refl, Hsl. cbn [alone access].
    change (slot_at (_ <| head := _ |>) (pos c L M)) with (slot_at q (pos c L M)). by rewrite Hsl.
  - assert (H1 := inv_set_local c L (idle_state q) E M 0%nat (PopCas (pos c L M)) Hi eq_refl
      ltac:(exists M; split_and!; (done || lia))).
    destruct (inv_pop_cas c L Hc HL HP _ E M 0%nat _ H1 (local_here _ _ _) Hh Hb) as (H2 & _).
    pose proof (inv_locals _ _ _ _ _ H2 0%nat) as Hlo. rewrite local_here in Hlo.
    assert (H3 := inv_set_local c L _ E (M + 1) 0%nat (PopRelease (pos c L M) x) H2
      ltac:(by rewrite local_here) ltac:(destruct Hlo as (m & Hp & ?); exists m;
        pose proof Hp as ?%pos_inj; naive_solver)).
    assert (H4 := inv_pop_release c L Hc HL HP _ _ _ 0%nat _ _ H3 (local_here _ _ _) Hb).
    apply inv_idle in H4; [exact H4|]. apply idle_after. intros tid Htid. simpl.
    by rewrite !lookup_insert_ne by done.
Qed.

Lemma alone_pop_empty c L q E M :
  0 < c → c < L → (∃ p, L = 2 ^ p ∧ 0 ≤ p) → inv c L (idle_state q) E M →
  in_bounds c L (Z.of_nat (length E)) → M = Z.of_nat (length E) →
  alone 5 q try_pop = Some (q, PopNone).
Proof.
  intros Hc HL HP Hi Hb HM.
  pose proof (inv_shape _ _ _ _ _ Hi) as [Hlap Hlen Ht Hh HMb]. simpl in *.
  assert (cell_stamp c q M ≠ Some (pos c L M + 1)) as Hst
    by (intros H; apply (quiet_ends c L q E M Hc HL Hi) in H; lia).
  unfold try_pop. cbn [alone access]. rewrite Hh, slot_at_pos by done. unfold cell_stamp in Hst.
  destruct (cell_is_Some c Hc q M Hlen) as [sl Hsl]. rewrite Hsl in *.
  rewrite (proj1 (pos_wrap c L Hc HL M ltac:(lia) ltac:(by subst M))).
  destruct (stamp sl =? _) eqn:He; bool_hyps; [simpl in Hst; congruence|]. done.
Qed.

Lemma drain_all c L q E M n :
  0 < c → c < L → (∃ p, L = 2 ^ p ∧ 0 ≤ p) → inv c L (idle_state q) E M →
  in_bounds c L (Z.of_nat (length E)) → n = length (drop (Z.to_nat M) E) →
  ∃ q', drain (S n) q = Some (q', drop (Z.to_nat M) E).
Proof.
  intros Hc HL HP Hi Hb. revert q M Hi. induction n as [|n IH]; intros q M Hi Hn;
    pose proof (sh_bounds _ _ _ _ _ (inv_shape _ _ _ _ _ Hi)) as HM; rewrite length_drop in Hn.
  - exists q. cbn [drain]. rewrite (alone_pop_empty c L q E M) by (done || lia).
    by rewrite drop_ge by lia.
  - destruct (lookup_lt_is_Some_2 E (Z.to_nat M)) as [x Hx]; [lia|].
    destruct (alone_pop c L q E M x Hc HL HP Hi Hb Hx) as (q' & Hpop & Hi'); [lia|].
    destruct (IH q' (M + 1) Hi') as [q'' Hd]; [rewrite length_drop; lia|].
    exists q''. cbn [drain]. cbn [drain] in Hd. rewrite Hpop, Hd.
    rewrite (drop_S E x (Z.to_nat M)) by done. by rewrite Z2Nat.inj_add, Nat.add_1_r by lia.
Qed.

(** With no operation in progress the queue behaves as the list of the values
    pushed and not yet popped: a push fails only when the list has the full
    capacity, and then changes nothing, a successful one appends; a pop takes
    the first value and fails only on the empty list; and dropping the queue
    pops every value that is left, in order. *)
Theorem quiet_queue_is_list cap s tr k v :
  reachable cap s tr → short_history cap (tr ++ [Enqueued 0 v]) → (∀ tid, local s tid = Idle) →
  let q := queue s in
  let l := drop (length (pops tr)) (pushes tr) in
  (if decide (Z.of_nat (length l) < cap)
   then ∃ q' q'', alone 5 q (PushLoad k v) = Some (q', push_done k)
                  ∧ drain (S (S (length l))) q' = Some (q'', l ++ [v])
   else alone 5 q (PushLoad k v)
        = Some (q, match k with Classified => PushFull v | _ => push_failed k v end))
  ∧ match l with
    | [] => alone 5 q try_pop = Some (q, PopNone)
    | x :: _ => ∃ q', alone 5 q try_pop = Some (q', PopSome x)
    end
  ∧ ∃ q', drain (S (length l)) q = Some (q', l).
Proof.
  intros Hr Hb Hidle q l. destruct (reachable_lap _ _ _ Hr) as (Hc & HL & HP).
  pose proof (short_prefix _ _ _ Hc HL Hb) as Hb0.
  destruct (reachable_inv _ _ _ Hr Hb0) as [Hi _]. apply inv_idle in Hi; [|done]. fold q in Hi.
  pose proof (sh_bounds _ _ _ _ _ (inv_shape _ _ _ _ _ Hi)) as HM.
  unfold short_history in Hb. rewrite pushes_app in Hb. simpl in Hb.
  assert (Hl : length l = (length (pushes tr) - length (pops tr))%nat) by apply length_drop.
  assert (HlE : l = drop (Z.to_nat (Z.of_nat (length (pops tr)))) (pushes tr)) by by rewrite Nat2Z.id.
  split_and!.
  - case_decide as Hroom.
    + destruct (alone_push cap _ q _ _ k v Hc HL HP Hi Hb) as (q' & Hp & Hi'); [lia|].
      destruct (drain_all cap _ q' _ _ (S (length l)) Hc HL HP Hi' Hb) as [q'' Hd].
      { rewrite Nat2Z.id, length_drop, length_app. simpl. lia. }
      exists q', q''. split; [done|]. rewrite Hd, Nat2Z.id, drop_app_le by lia. done.
    + eapply alone_push_full; [done..|lia].
  - destruct l as [|x l'] eqn:Hx; [eapply alone_pop_empty; [done..|simpl in Hl; lia]|].
    destruct (alone_pop cap _ q _ _ x Hc HL HP Hi Hb0) as (q' & Hp & _); [|simpl in Hl; lia|eauto].
    unfold nth. rewrite Nat2Z.id. rewrite <- (Nat.add_0_r (length (pops tr))), <- lookup_drop.
    fold l. by rewrite Hx.
  - rewrite HlE. eapply drain_all; done.
Qed.
End Theorems.

(** ** A concrete interleaving

    Two producers reserve in turn and the second one publishes first; a consumer
    finds the head unpublished and returns, then claims it once it is there; a
    third producer finds the claimed slot not yet released. *)

Definition sample_queue : TryQueue (T:=Z) := mkQueue 0 0 [mkSlot 0 None; mkSlot 1 None] 4.

Definition sample_actions : list (Action (T:=Z)) :=
  [Call 0 (try_push 10); Call 1 (try_push 20); Run 0; Run 0; Run 0; Run 1; Run 1; Run 1; Run 1; Run 1;
   Call 2 try_pop; Run 2; Run 2; Run 0; Run 0; Call 2 try_pop; Run 2; Run 2; Run 2;
   Call 3 (try_push_classified 30); Run 3; Run 3].

Definition sample_result : State (T:=Z) * list (Event (T:=Z)) :=
  default (idle_state sample_queue, []) (exec (idle_state sample_queue) sample_actions).

Lemma sample_reachable : reachable 2 (fst sample_result) (snd sample_result).
Proof.
  change (snd sample_result) with ([] ++ snd sample_result).
  apply (reachable_exec 2 (idle_state sample_queue) [] sample_actions).
  - apply reach_new. vm_compute. reflexivity.
  - vm_compute. reflexivity.
Qed.

Lemma sample_short : short_history 2 (snd sample_result).
Proof. vm_compute. reflexivity. Qed.


Lemma pop_returns_claimed_witness :
  claimed 2 (snd sample_result)
  = returned 2 (snd sample_result) ++ in_flight (queue (fst sample_result)) (local (fst sample_result) 2)
  ∧ claimed 2 (snd sample_result) = [Some 10].
Proof.
  split; [|vm_compute; reflexivity].
  exact (pop_returns_claimed 2 (fst sample_result) (snd sample_result) 2 sample_reachable sample_short).
Defined.

(** The third producer, while the two published values are still there. *)
Definition full_actions : list (Action (T:=Z)) :=
  [Call 0 (try_push 10); Run 0; Run 0; Run 0; Run 0; Run 0;
   Call 1 (try_push 20); Run 1; Run 1; Run 1; Run 1; Run 1;
   Call 3 (try_push_classified 30); Run 3; Run 3].

Definition full_result : State (T:=Z) * list (Event (T:=Z)) :=
  default (idle_state sample_queue, []) (exec (idle_state sample_queue) full_actions).

Lemma full_means_full_witness :
  ∃ s' evs, step (fst full_result) 3 = Some (s', evs) ∧ len (queue (fst full_result)) = 2.
Proof.
  destruct (step (fst full_result) 3) as [[s' evs]|] eqn:Hs; [|exfalso; revert Hs; vm_compute; discriminate].
  exists s', evs. split; [reflexivity|].
  apply (full_means_full 2 (fst full_result) (snd full_result) 3 s' evs 30); [| |exact Hs|].
  - change (snd full_result) with ([] ++ snd full_result).
    apply (reachable_exec 2 (idle_state sample_queue) [] full_actions).
    + apply reach_new. vm_compute. reflexivity.
    + vm_compute. reflexivity.
  - vm_compute. reflexivity.
  - assert (He : snd <$> step (fst full_result) 3 = Some [Returned 3 (PushFull 30)]) by (vm_compute; reflexivity).
    rewrite Hs in He. injection He as ->. left.
Defined.

Lemma bounded_steps_witness :
  ∃ s' evs, exec (fst full_result) [Run 3] = Some (s', evs)
  ∧ (runs 3 [Run (T:=Z) 3] + rank (local s' 3) ≤ rank (local (fst full_result) 3) ≤ 5)%nat.
Proof.
  destruct (exec (fst full_result) [Run 3]) as [[s' evs]|] eqn:Hs; [|exfalso; revert Hs; vm_compute; discriminate].
  exists s', evs. split; [reflexivity|].
  apply (bounded_steps (fst full_result) [Run 3] s' evs 3); [exact Hs|reflexivity].
Defined.

Lemma quiet_queue_is_list_witness :
  ∃ q' q'', alone 5 sample_queue (try_push 7) = Some (q', PushOk) ∧ drain 2 q' = Some (q'', [7]).
Proof.
  destruct (quiet_queue_is_list 2 (idle_state sample_queue) [] Plain 7) as [H _];
    [apply reach_new; vm_compute; reflexivity|vm_compute; reflexivity|intros tid; reflexivity|].
  exact H.
Defined.
