(* ===== verification/PollChannel.v ===== *)
(** * The polling channel

    [poll_channel] (hexagent-runtime/src/poll_channel.rs): many senders, one receiver that
    polls, over the lock-free queue of [TryQueue], with the futex word of [wake.rs] by
    which an idle receiver sleeps.

    The model is a machine whose steps are single atomic accesses, interleaved
    in one order that all threads see: those of the queue
    are the steps of [TryQueue], those of the channel the loads and exchanges of its
    own words.  [FUTEX_WAIT] compares and parks in one step; a parked receiver may also
    leave by itself, which stands for the time-out, a signal and a spurious return.
    Modelled are [try_send], [Clone] and [Drop] of a sender, [try_recv] and [recv] and
    [Drop] of the receiver, with a wake or without one.  The stamped variants of
    [try_send] differ in the times they report, [recv_timeout] in its deadline, and
    [send] retries [try_send]; the two operations of actor teardown are left out.

    Proved: a receiver never sleeps on a message that is ready or on the end of its
    senders, whatever the interleaving: someone is about to wake it; and values are
    received in the order of their reservations, each once, and the end is reported only
    when every one of them has been received. *)

From S2P Require Import Prelude TryQueue.

Section PollChannel.
Context {T : Type}.
#[local] Abbreviation QState := (TryQueue.State (T:=T)).
#[local] Abbreviation QEvent := (TryQueue.Event (T:=T)).

(** ** State *)

(** What a sender is doing; [dropped] when its count was already given back. *)
Inductive SenderOp :=
| SIdle
| SAlive (v : T)
| SPush
| SDropping
| SNotify (dropped : bool)
| SWake (dropped : bool).

(** [try_recv] alone, the first check of [recv] and the one after arming. *)
Inductive Phase := Poll | First | Armed.

Inductive RecvResult := Ok (v : T) | Empty | Disconnected.

Inductive ReceiverOp :=
| RIdle
| RPop (p : Phase) (again : bool)
| RSenders (p : Phase)
| RArm
| RCancel (r : RecvResult)
| RWait
| RParked
| RUnpark
| RSleep
| RGone.

(** [wake] is [armed] of the wake handle, if the channel has one. *)
Record Channel := mkChannel {
  tq : QState;
  senders : Z;
  receiver_alive : bool;
  wake : option bool;
  sops : gmap nat SenderOp;
  rop : ReceiverOp }.

Inductive ChEvent :=
| SendOk (i : nat)
| SendFull (i : nat) (v : T)
| SendDisconnected (i : nat) (v : T)
| Received (r : RecvResult).

(** The receiver is thread 0 of the queue, a sender the thread after its own number. *)
Definition receiver_tid : nat := 0.
Definition sender_tid (i : nat) : nat := S i.

(** [bounded_with_wake] *)
Definition bounded (capacity : Z) (with_wake : bool) : option Channel :=
  q ← TryQueue.new capacity;
  Some (mkChannel (idle_state q) 1 true (if with_wake then Some false else None) {[0%nat := SIdle]} RIdle).

(** ** Senders *)

(** The end of an operation: a live sender is idle again, a dropped one is gone. *)
Definition finish (c : Channel) (i : nat) (dropped : bool) : Channel * list ChEvent :=
  if dropped then (c <| sops := delete i (sops c) |>, [])
  else (c <| sops := <[i := SIdle]> (sops c) |>, [SendOk i]).

(** [if let Some(wake) = ..] *)
Definition then_notify (c : Channel) (i : nat) (dropped : bool) : Channel * list ChEvent :=
  match wake c with
  | Some _ => (c <| sops := <[i := SNotify dropped]> (sops c) |>, [])
  | None => finish c i dropped
  end.

Definition sender_access (c : Channel) (i : nat) : option (Channel * list ChEvent * list QEvent) :=
  match sops c !! i with
  | None | Some SIdle => None
  | Some (SAlive v) =>
      if receiver_alive c
      then q ← TryQueue.start (tq c) (sender_tid i) (try_push v);
           Some (c <| tq := q |> <| sops := <[i := SPush]> (sops c) |>, [], [])
      else Some (c <| sops := <[i := SIdle]> (sops c) |>, [SendDisconnected i v], [])
  | Some SPush =>
      '(q, evs) ← TryQueue.step (tq c) (sender_tid i);
      let c := c <| tq := q |> in
      Some (match last evs with
            | Some (Returned _ PushOk) => then_notify c i false
            | Some (Returned _ (PushErr v)) => (c <| sops := <[i := SIdle]> (sops c) |>, [SendFull i v])
            | _ => (c, [])
            end, evs)
  | Some SDropping =>
      let last := senders c =? 1 in
      let c := c <| senders := senders c +w (-1) |> in
      Some (if last then then_notify c i true else (c <| sops := delete i (sops c) |>, []), [])
  | Some (SNotify dropped) =>
      match wake c with
      | Some true => Some (c <| wake := Some false |> <| sops := <[i := SWake dropped]> (sops c) |>, [], [])
      | _ => Some (finish c i dropped, [])
      end
  | Some (SWake dropped) =>
      let c := match rop c with RParked => c <| rop := RUnpark |> | _ => c end in
      Some (finish c i dropped, [])
  end.

(** ** The receiver *)

(** [try_recv] begins. *)
Definition begin_pop (c : Channel) (p : Phase) (again : bool) : option Channel :=
  q ← TryQueue.start (tq c) receiver_tid try_pop; Some (c <| tq := q |> <| rop := RPop p again |>).

Definition return_recv (c : Channel) (r : RecvResult) : Channel * list ChEvent :=
  (c <| rop := RIdle |>, [Received r]).

(** What follows the result of [try_recv]. *)
Definition after_try (c : Channel) (p : Phase) (r : RecvResult) : Channel * list ChEvent :=
  match p, r with
  | Poll, _ => return_recv c r
  | First, Empty => (c <| rop := match wake c with Some _ => RArm | None => RSleep end |>, [])
  | First, _ => return_recv c r
  | Armed, Empty => (c <| rop := RWait |>, [])
  | Armed, _ => (c <| rop := RCancel r |>, [])
  end.

(** [armed.store(b)] *)
Definition set_armed (c : Channel) (b : bool) : Channel :=
  match wake c with Some _ => c <| wake := Some b |> | None => c end.

Definition receiver_access (c : Channel) : option (Channel * list ChEvent * list QEvent) :=
  match rop c with
  | RIdle | RGone | RParked => None
  | RPop p again =>
      '(q, evs) ← TryQueue.step (tq c) receiver_tid;
      let c := c <| tq := q |> in
      Some (match last evs with
            | Some (Returned _ (PopSome v)) => after_try c p (Ok v)
            | Some (Returned _ PopNone) =>
                if again then after_try c p Disconnected else (c <| rop := RSenders p |>, [])
            | _ => (c, [])
            end, evs)
  | RSenders p =>
      if senders c =? 0
      then c ← begin_pop c p true; Some (c, [], [])
      else Some (after_try c p Empty, [])
  | RArm => c ← begin_pop (set_armed c true) Armed false; Some (c, [], [])
  | RCancel r => Some (return_recv (set_armed c false) r, [])
  | RWait => Some (c <| rop := match wake c with Some true => RParked | _ => RUnpark end |>, [], [])
  | RUnpark => c ← begin_pop (set_armed c false) First false; Some (c, [], [])
  | RSleep => c ← begin_pop c First false; Some (c, [], [])
  end.

(** ** Executions *)

(** [Arc::clone] aborts beyond this many references. *)
Definition isize_max : Z := 9223372036854775807.

Inductive Action :=
| ASend (i : nat) (v : T)
| AClone (i j : nat)
| ADrop (i : nat)
| ASender (i : nat)
| ARecv
| ATryRecv
| AReceiver
| ATimeout
| AClose.

Definition act (c : Channel) (a : Action) : option (Channel * list ChEvent * list QEvent) :=
  match a with
  | ASend i v =>
      match sops c !! i with Some SIdle => Some (c <| sops := <[i := SAlive v]> (sops c) |>, [], []) | _ => None end
  | AClone i j =>
      match sops c !! i, sops c !! j with
      | Some SIdle, None =>
          if senders c <? isize_max
          then Some (c <| senders := senders c +w 1 |> <| sops := <[j := SIdle]> (sops c) |>, [], [])
          else None
      | _, _ => None
      end
  | ADrop i =>
      match sops c !! i with Some SIdle => Some (c <| sops := <[i := SDropping]> (sops c) |>, [], []) | _ => None end
  | ASender i => sender_access c i
  | ARecv => match rop c with RIdle => c ← begin_pop c First false; Some (c, [], []) | _ => None end
  | ATryRecv => match rop c with RIdle => c ← begin_pop c Poll false; Some (c, [], []) | _ => None end
  | AReceiver => receiver_access c
  | ATimeout => match rop c with RParked => Some (c <| rop := RUnpark |>, [], []) | _ => None end
  | AClose => match rop c with
              | RIdle => Some (c <| receiver_alive := false |> <| rop := RGone |>, [], [])
              | _ => None
              end
  end.

Inductive reachable (cap : Z) (with_wake : bool) : Channel → list ChEvent → list QEvent → Prop :=
| reach_bounded c : bounded cap with_wake = Some c → reachable cap with_wake c [] []
| reach_act c tr qtr a c' evs qevs :
    reachable cap with_wake c tr qtr → act c a = Some (c', evs, qevs) →
    reachable cap with_wake c' (tr ++ evs) (qtr ++ qevs).

(** ** The queue under the channel *)

Definition pushing (l : Local (T:=T)) : Prop :=
  match l with
  | PushLoad Plain _ | PushStamp Plain _ _ | PushCas Plain _ _ | PushWrite Plain _ _ | PushRelease Plain _ _ => True
  | _ => False
  end.

(** The only receiver: the head it loaded is the head. *)
Definition popping (q : TryQueue (T:=T)) (l : Local (T:=T)) : Prop :=
  match l with
  | PopLoad | PopRead _ | PopRelease _ _ => True
  | PopStamp h | PopCas h => h = head q
  | _ => False
  end.

Lemma front_ready_set_value (q : TryQueue (T:=T)) t v : front_ready (set_value q t v) = front_ready q.
Proof.
  unfold front_ready, slot_at, set_value, slot_index. cbn.
  destruct (decide (Z.to_nat (Z.land t (lap q - 1)) = Z.to_nat (Z.land (head q) (lap q - 1)))) as [E|E].
  - rewrite E, list_lookup_alter_eq. by destruct (slots q !! _).
  - by rewrite list_lookup_alter_ne.
Qed.

(** What an access of a push may do. *)
Inductive push_effect (s s' : QState) (tid : nat) (evs : list QEvent) : Prop :=
| PushGoesOn :
    pushing (local s' tid) → front_ready (queue s') = front_ready (queue s) →
    (∀ t r, last evs ≠ Some (Returned t r)) → push_effect s s' tid evs
| PushReturnsOk : local s' tid = Idle → last evs = Some (Returned tid PushOk) → push_effect s s' tid evs
| PushReturnsErr v :
    local s' tid = Idle → front_ready (queue s') = front_ready (queue s) →
    last evs = Some (Returned tid (PushErr v)) → push_effect s s' tid evs.

Lemma push_step s s' tid evs :
  pushing (local s tid) → TryQueue.step s tid = Some (s', evs) →
  head (queue s') = head (queue s) ∧ (∀ t, t ≠ tid → local s' t = local s t) ∧
  Forall (λ e, match e with Dequeued _ _ | Returned _ (PopSome _) => False | _ => True end) evs ∧
  push_effect s s' tid evs.
Proof.
  intros Hp E. unfold TryQueue.step in E.
  assert (∀ q l t, t ≠ tid → local (TryQueue.mkState q (<[tid := l]> (threads s))) t = local s t) as Hother.
  { intros q l t Ht. rewrite local_insert. apply Nat.eqb_neq in Ht. by rewrite Ht. }
  assert (∀ q l, local (TryQueue.mkState q (<[tid := l]> (threads s))) tid = l) as Hown.
  { intros q l. by rewrite local_insert, Nat.eqb_refl. }
  destruct (local s tid) eqn:El; try done; destruct k; try done; cbn in E.
  - simplify_eq. split; [done|]. split; [by auto|]. split; [done|]. by apply PushGoesOn; rewrite ?Hown.
  - destruct (slot_at _ _) as [sl|]; [|done]. destruct (negb _); simplify_eq; cbn; (split; [done|]; split; [by auto|]).
    + split; [by repeat constructor|]. by eapply PushReturnsErr; rewrite ?Hown.
    + split; [done|]. by apply PushGoesOn; rewrite ?Hown.
  - destruct (_ =? _); simplify_eq; cbn; (split; [done|]; split; [by auto|]; split; [by repeat constructor|]).
    + by apply PushGoesOn; rewrite ?Hown.
    + by eapply PushReturnsErr; rewrite ?Hown.
  - simplify_eq. split; [done|]. split; [by auto|]. split; [done|]. apply PushGoesOn; rewrite ?Hown; [done| |done].
    apply front_ready_set_value.
  - simplify_eq. split; [done|]. split; [by auto|]. split; [by repeat constructor|]. by apply PushReturnsOk; rewrite ?Hown.
Qed.

(** What an access of a pop may do. *)
Inductive pop_effect (s s' : QState) (evs : list QEvent) : Prop :=
| PopGoesOn :
    popping (queue s') (local s' receiver_tid) → (∀ t r, Returned t r ∉ evs) → pop_effect s s' evs
| PopReturnsNone :
    local s' receiver_tid = Idle → queue s' = queue s → front_ready (queue s) = false →
    evs = [Returned receiver_tid PopNone] → pop_effect s s' evs
| PopReturnsSome v :
    local s' receiver_tid = Idle → evs = [Returned receiver_tid (PopSome v)] → pop_effect s s' evs.

Lemma pop_step s s' evs :
  popping (queue s) (local s receiver_tid) → TryQueue.step s receiver_tid = Some (s', evs) →
  (∀ t, t ≠ receiver_tid → local s' t = local s t) ∧ pushes evs = [] ∧
  Forall (λ e, match e with Dequeued t _ => t = receiver_tid | _ => True end) evs ∧ pop_effect s s' evs.
Proof.
  intros Hp E. unfold TryQueue.step in E.
  assert (∀ q l t, t ≠ receiver_tid → local (TryQueue.mkState q (<[receiver_tid := l]> (threads s))) t = local s t) as Hother.
  { intros q l t Ht. rewrite local_insert. apply Nat.eqb_neq in Ht. by rewrite Ht. }
  assert (∀ q l, local (TryQueue.mkState q (<[receiver_tid := l]> (threads s))) receiver_tid = l) as Hown.
  { intros q l. by rewrite local_insert, Nat.eqb_refl. }
  destruct (local s receiver_tid) eqn:El; try done; cbn in E, Hp; try subst h.
  - simplify_eq. split; [by auto|]. split; [done|]. split; [done|]. apply PopGoesOn; [by rewrite Hown|set_solver].
  - destruct (slot_at _ _) as [sl|] eqn:Es; [|done]. destruct (negb _) eqn:En; simplify_eq; cbn; (split; [by auto|]; split; [done|]).
    + split; [by repeat constructor|]. apply PopReturnsNone; [by rewrite Hown|done| |done].
      unfold front_ready. rewrite Es. by apply negb_true_iff.
    + split; [done|]. apply PopGoesOn; [by rewrite Hown|set_solver].
  - rewrite Z.eqb_refl in E. destruct (slot_at _ _) as [sl|]; [|done]. simplify_eq. cbn.
    split; [by auto|]. split; [done|]. split; [by repeat constructor|]. apply PopGoesOn; [by rewrite Hown|set_solver].
  - destruct (slot_at _ _) as [[x [v|]]|]; try done. simplify_eq. cbn. split; [by auto|]. split; [done|]. split; [done|].
    apply PopGoesOn; [by rewrite Hown|set_solver].
  - simplify_eq. cbn. split; [by auto|]. split; [done|]. split; [by repeat constructor|].
    eapply PopReturnsSome; [by rewrite Hown|done].
Qed.

Lemma last_not_returned (evs : list QEvent) :
  (∀ t r, Returned t r ∉ evs) → ∀ t r, last evs ≠ Some (Returned t r).
Proof. intros H t r E. apply (H t r). apply last_Some in E as [l ->]. apply elem_of_app. right. by left. Qed.

Lemma start_step (s s' : QState) tid l :
  TryQueue.start s tid l = Some s' →
  queue s' = queue s ∧ local s' tid = l ∧ ∀ t, t ≠ tid → local s' t = local s t.
Proof.
  unfold TryQueue.start. destruct (local s tid); try done. destruct (is_entry l); [|done]. intros [= <-].
  split; [done|]. split; [by rewrite local_insert, Nat.eqb_refl|].
  intros t Ht. rewrite local_insert. apply Nat.eqb_neq in Ht. by rewrite Ht.
Qed.

(** ** The senders counted *)

Definition counted (o : SenderOp) : bool :=
  match o with SNotify true | SWake true => false | _ => true end.

Definition weight (o : option SenderOp) : nat :=
  match o with Some o => if counted o then 1 else 0 | None => 0 end.

Definition live (m : gmap nat SenderOp) : nat := map_fold (λ _ o n, (weight (Some o) + n)%nat) 0%nat m.

Lemma live_delete m i : live m = (weight (m !! i) + live (delete i m))%nat.
Proof.
  destruct (m !! i) as [o|] eqn:E; [|by rewrite delete_id].
  unfold live. rewrite (map_fold_delete_L _ _ i o) by (done || (intros; lia)). done.
Qed.

Lemma live_insert m i o : live (<[i := o]> m) = (weight (Some o) + live (delete i m))%nat.
Proof. rewrite (live_delete _ i), lookup_insert_eq, delete_insert_eq. done. Qed.

(** ** What holds in every state *)

Definition sender_wf (c : Channel) (i : nat) : Prop :=
  match sops c !! i with
  | Some SPush => pushing (local (tq c) (sender_tid i))
  | _ => local (tq c) (sender_tid i) = Idle
  end.

Definition receiver_wf (c : Channel) : Prop :=
  match rop c with
  | RPop _ again => popping (queue (tq c)) (local (tq c) receiver_tid) ∧ (again = true → senders c = 0)
  | _ => local (tq c) receiver_tid = Idle
  end.

Record wf (c : Channel) : Prop := {
  wf_sender : ∀ i, sender_wf c i;
  wf_receiver : receiver_wf c;
  wf_count : senders c = Z.of_nat (live (sops c)) ∧ senders c ≤ isize_max }.

(** Nothing changed for the threads of the queue but sender [i]. *)
Definition only_sender (c c' : Channel) (i : nat) : Prop :=
  (∀ j, j ≠ i → sops c' !! j = sops c !! j) ∧ (∀ t, t ≠ sender_tid i → local (tq c') t = local (tq c) t)
  ∧ head (queue (tq c')) = head (queue (tq c)) ∧ (rop c' = rop c ∨ rop c = RParked ∧ rop c' = RUnpark).

Lemma wf_only_sender c c' i :
  wf c → only_sender c c' i → sender_wf c' i → (senders c = 0 → senders c' = 0) →
  senders c' = Z.of_nat (live (sops c')) → senders c' ≤ isize_max → wf c'.
Proof.
  intros [Hs Hr Hn] (Ho & Ht & Hh & Hro) Hi H0 Hc Hm. split; [|unfold receiver_wf in *|done].
  - intros j. destruct (decide (j = i)) as [->|Hne]; [done|]. specialize (Hs j). unfold sender_wf in *.
    rewrite (Ho j Hne), Ht by (unfold sender_tid; congruence). done.
  - assert (local (tq c') receiver_tid = local (tq c) receiver_tid) as E by by apply Ht.
    destruct Hro as [->|[Hp ->]]; [|by rewrite E; rewrite Hp in Hr]. rewrite E.
    destruct (rop c) as [|p again| | | | | | | |]; try done. destruct Hr as [Hr Ha]. split; [|by auto].
    revert Hr. destruct (local (tq c) receiver_tid); cbn; congruence || done.
Qed.

Definition not_push (o : SenderOp) : bool := match o with SPush => false | _ => true end.
Definition not_pop (r : ReceiverOp) : bool := match r with RPop _ _ => false | _ => true end.

Lemma only_sender_sops c i m :
  (∀ j, j ≠ i → m !! j = sops c !! j) → only_sender c (c <| sops := m |>) i.
Proof. intros H. split; [done|]. split; [done|]. split; [done|]. by left. Qed.

Lemma wf_set_op c i o o' :
  wf c → sops c !! i = Some o → not_push o = true → not_push o' = true → counted o' = counted o →
  wf (c <| sops := <[i := o']> (sops c) |>).
Proof.
  intros H E Ho Ho' Hc. pose proof (wf_count _ H) as [Hn Hm]. pose proof (wf_sender _ H i) as Hi.
  eapply wf_only_sender; [done|apply only_sender_sops; intros; by rewrite lookup_insert_ne| |done| |done].
  - unfold sender_wf in *. cbn. rewrite lookup_insert_eq. rewrite E in Hi. by destruct o, o'.
  - cbn. rewrite Hn, live_insert, (live_delete _ i), E. cbn. by rewrite Hc.
Qed.

Lemma wf_remove c i o :
  wf c → sops c !! i = Some o → counted o = false → wf (c <| sops := delete i (sops c) |>).
Proof.
  intros H E Hc. pose proof (wf_count _ H) as [Hn Hm]. pose proof (wf_sender _ H i) as Hi.
  eapply wf_only_sender; [done|apply only_sender_sops; intros; by rewrite lookup_delete_ne| |done| |done].
  - unfold sender_wf in *. cbn. rewrite lookup_delete_eq. rewrite E in Hi. by destruct o.
  - cbn. rewrite Hn, (live_delete _ i), E. cbn. by rewrite Hc.
Qed.

Lemma wf_rop c r : wf c → not_pop (rop c) = true → not_pop r = true → wf (c <| rop := r |>).
Proof.
  intros [Hs Hr Hn] Ho Hp. split; [exact Hs| |exact Hn].
  unfold receiver_wf in *. cbn. by destruct (rop c), r.
Qed.

Lemma wf_wake c w : wf c → wf (c <| wake := w |>).
Proof. intros [Hs Hr Hn]. by split. Qed.

Lemma wf_finish c i o d :
  wf c → sops c !! i = Some o → not_push o = true → counted o = negb d → wf (finish c i d).1.
Proof.
  intros H E Hp Hc. destruct d; cbn in *; [by eapply wf_remove|]. by eapply wf_set_op.
Qed.

Lemma wf_dropping c i :
  wf c → sops c !! i = Some SDropping →
  1 ≤ senders c ∧ wf (c <| senders := senders c +w (-1) |> <| sops := delete i (sops c) |>)
  ∧ wf (c <| senders := senders c +w (-1) |> <| sops := <[i := SNotify true]> (sops c) |>).
Proof.
  intros H E. pose proof (wf_count _ H) as [Hn Hm]. pose proof (wf_sender _ H i) as Hi.
  rewrite (live_delete _ i), E in Hn. cbn in Hn.
  assert (senders c +w (-1) = Z.of_nat (live (delete i (sops c)))) as Hw.
  { unfold wrapping_add. rewrite Hn, Z.mod_small by (unfold isize_max in *; lia). lia. }
  unfold sender_wf in Hi. rewrite E in Hi. split; [lia|]. split.
  - eapply (wf_only_sender c _ i); [done| | |cbn; lia|done|cbn; lia].
    + split; [intros; cbn; by rewrite lookup_delete_ne|]. split; [done|]. split; [done|]. by left.
    + unfold sender_wf. cbn. by rewrite lookup_delete_eq.
  - eapply (wf_only_sender c _ i); [done| | |cbn; lia| |cbn; lia].
    + split; [intros; cbn; by rewrite lookup_insert_ne|]. split; [done|]. split; [done|]. by left.
    + unfold sender_wf. cbn. by rewrite lookup_insert_eq.
    + cbn. by rewrite live_insert.
Qed.

Lemma wf_queue_move c i q o o' :
  wf c → sops c !! i = Some o → counted o = true → counted o' = true →
  (∀ t, t ≠ sender_tid i → local q t = local (tq c) t) → head (queue q) = head (queue (tq c)) →
  (if not_push o' then local q (sender_tid i) = Idle else pushing (local q (sender_tid i))) →
  wf (c <| tq := q |> <| sops := <[i := o']> (sops c) |>).
Proof.
  intros H E Ho Ho' Ht Hh Hl. pose proof (wf_count _ H) as [Hn Hm].
  eapply (wf_only_sender c _ i); [done| | |done| |done].
  - split; [intros; cbn; by rewrite lookup_insert_ne|]. split; [done|]. split; [done|]. by left.
  - unfold sender_wf. cbn. rewrite lookup_insert_eq. by destruct o'.
  - cbn. rewrite Hn, live_insert, (live_delete _ i), E. cbn. by rewrite Ho, Ho'.
Qed.

Lemma wf_pop_move c q r :
  wf c → (∀ t, t ≠ receiver_tid → local q t = local (tq c) t) →
  receiver_wf (c <| tq := q |> <| rop := r |>) → wf (c <| tq := q |> <| rop := r |>).
Proof.
  intros [Hs _ Hn] Ht Hr. split; [|exact Hr|exact Hn].
  intros i. specialize (Hs i). unfold sender_wf in *. cbn. rewrite Ht by (unfold sender_tid, receiver_tid; lia). done.
Qed.

Lemma wf_begin_pop c p again c' :
  wf c → (again = true → senders c = 0) → begin_pop c p again = Some c' → wf c'.
Proof.
  intros H Ha E. unfold begin_pop in E. destruct (TryQueue.start _ _ _) as [q|] eqn:Es; [|done]. injection E as <-.
  apply start_step in Es as (Hq & Hl & Ht). apply wf_pop_move; [done|done|]. split; [by cbn; rewrite Hl|exact Ha].
Qed.

Lemma wf_after_try c p r : wf c → not_pop (rop c) = true → wf (after_try c p r).1.
Proof. intros H Ho. destruct p, r; cbn; try destruct (wake c); by apply wf_rop. Qed.

Lemma wf_set_armed c b : wf c → wf (set_armed c b).
Proof. intros H. unfold set_armed. destruct (wake c); [by apply wf_wake|done]. Qed.

Lemma set_armed_rop c b : rop (set_armed c b) = rop c.
Proof. unfold set_armed. by destruct (wake c). Qed.

Lemma insert_same_op c q i o :
  sops c !! i = Some o → c <| tq := q |> = c <| tq := q |> <| sops := <[i := o]> (sops c) |>.
Proof. intros E. rewrite (insert_id _ _ _ E). by destruct c. Qed.

Lemma wf_sender_access c i c' evs qevs : wf c → sender_access c i = Some (c', evs, qevs) → wf c'.
Proof.
  intros H E. unfold sender_access in E. destruct (sops c !! i) as [[|v| | |d|d]|] eqn:Eo; try done.
  - destruct (receiver_alive c); [|injection E as <- <- <-; by eapply wf_set_op].
    destruct (TryQueue.start _ _ _) as [q|] eqn:Es; [|done]. injection E as <- <- <-.
    apply start_step in Es as (Hq & Hl & Ht). eapply wf_queue_move; try done; [by rewrite Hq|by cbn; rewrite Hl].
  - destruct (TryQueue.step _ _) as [[q es]|] eqn:Es; [|done]. injection E as E <-.
    pose proof (wf_sender _ H i) as Hp. unfold sender_wf in Hp. rewrite Eo in Hp.
    destruct (push_step _ _ _ _ Hp Es) as (Hh & Ht & _ & [Hl _ Hn|Hl Hr|v Hl _ Hr]).
    + assert (c' = c <| tq := q |>) as ->.
      { destruct (last es) as [[| |t r]|]; [| |by destruct (Hn t r)|]; by injection E as <- <-. }
      rewrite (insert_same_op _ _ _ _ Eo). by eapply wf_queue_move.
    + rewrite Hr in E. unfold then_notify in E. cbn in E. destruct (wake c); injection E as <- <-; by eapply wf_queue_move.
    + rewrite Hr in E. injection E as <- <-. by eapply wf_queue_move.
  - destruct (wf_dropping _ _ H Eo) as (H1 & Hd & Hi). injection E as E <-.
    unfold then_notify in E. cbn in E. destruct (senders c =? 1), (wake c); injection E as <- <-; done.
  - destruct (wake c) as [[|]|] eqn:Ew; injection E as E1.
    + subst c'. assert (Hs : wf (c <| sops := <[i := SWake d]> (sops c) |>)) by (eapply wf_set_op; try done; by destruct d).
      exact (wf_wake _ (Some false) Hs).
    + pose proof (wf_finish c i (SNotify d) d H Eo eq_refl) as Hf. rewrite E1 in Hf. apply Hf. by destruct d.
    + pose proof (wf_finish c i (SNotify d) d H Eo eq_refl) as Hf. rewrite E1 in Hf. apply Hf. by destruct d.
  - injection E as E _. set (c1 := match rop c with RParked => c <| rop := RUnpark |> | _ => c end) in *.
    assert (wf c1 ∧ sops c1 = sops c) as [H1 Hs].
    { subst c1. destruct (rop c) eqn:Er; (split; [|done]); try done. apply wf_rop; [done|by rewrite Er|done]. }
    assert (Hf : wf (finish c1 i d).1) by (eapply wf_finish; [done|by rewrite Hs|done|by destruct d]).
    by rewrite E in Hf.
Qed.

Lemma wf_receiver_access c c' evs qevs : wf c → receiver_access c = Some (c', evs, qevs) → wf c'.
Proof.
  intros H E. unfold receiver_access in E. destruct (rop c) as [|p again|p| |r| | | | |] eqn:Er; try done.
  - destruct (TryQueue.step _ _) as [[q es]|] eqn:Es; [|done]. injection E as E <-.
    pose proof (wf_receiver _ H) as Hp. unfold receiver_wf in Hp. rewrite Er in Hp. destruct Hp as [Hp Ha].
    destruct (pop_step _ _ _ Hp Es) as (Ht & _ & _ & Heff).
    assert (∀ r, not_pop r = true → local q receiver_tid = Idle → wf (c <| tq := q |> <| rop := r |>)) as Hidle.
    { intros r Hr Hl. apply wf_pop_move; [done|done|]. unfold receiver_wf. cbn. by destruct r. }
    assert (∀ p r, local q receiver_tid = Idle → wf (after_try (c <| tq := q |>) p r).1) as Htry.
    { intros p' r Hl. destruct p', r; cbn; try destruct (wake c); by apply Hidle. }
    destruct Heff as [Hl Hn|Hl _ _ ->|v Hl ->].
    + assert (c' = c <| tq := q |> <| rop := RPop p again |>) as ->.
      { destruct (last es) as [[| |t r]|] eqn:El; [| |by destruct (last_not_returned _ Hn t r)|];
          injection E as <- <-; rewrite <- Er; by destruct c. }
      by apply wf_pop_move.
    + cbn in E. destruct again; [|injection E as <- <-; by apply Hidle].
      specialize (Htry p Disconnected Hl). by rewrite E in Htry.
    + cbn in E. specialize (Htry p (Ok v) Hl). by rewrite E in Htry.
  - destruct (senders c =? 0) eqn:E0.
    + destruct (begin_pop c p true) as [c1|] eqn:Eb; [|done]. injection E as <- <- <-.
      eapply wf_begin_pop; [done| |done]. intros _. by apply Z.eqb_eq.
    + injection E as E <-. pose proof (wf_after_try c p Empty H) as Ht. rewrite Er, E in Ht. by apply Ht.
  - destruct (begin_pop _ _ _) as [c1|] eqn:Eb; [|done]. injection E as <- <- <-.
    eapply wf_begin_pop; [| |exact Eb]; [by apply wf_set_armed|done].
  - injection E as <- <- <-. apply wf_rop; [by apply wf_set_armed|by rewrite set_armed_rop, Er|done].
  - injection E as <- <- <-. apply wf_rop; [done|by rewrite Er|by destruct (wake c) as [[|]|]].
  - destruct (begin_pop _ _ _) as [c1|] eqn:Eb; [|done]. injection E as <- <- <-.
    eapply wf_begin_pop; [| |exact Eb]; [by apply wf_set_armed|done].
  - destruct (begin_pop _ _ _) as [c1|] eqn:Eb; [|done]. injection E as <- <- <-. by eapply wf_begin_pop in Eb.
Qed.

Lemma wf_clone c i j :
  wf c → sops c !! i = Some SIdle → sops c !! j = None → senders c < isize_max →
  0 < senders c ∧ wf (c <| senders := senders c +w 1 |> <| sops := <[j := SIdle]> (sops c) |>).
Proof.
  intros H Ei Ej Hlt. pose proof (wf_count _ H) as [Hn Hm]. pose proof (wf_sender _ H j) as Hj.
  assert (0 < senders c) as Hpos by (rewrite Hn, (live_delete _ i), Ei; cbn; lia).
  assert (senders c +w 1 = senders c + 1) as Hw.
  { unfold wrapping_add. rewrite Z.mod_small by (unfold isize_max in *; lia). done. }
  split; [done|]. eapply (wf_only_sender c _ j); [done| | |cbn; lia| |cbn; lia].
  - split; [intros; cbn; by rewrite lookup_insert_ne|]. split; [done|]. split; [done|]. by left.
  - unfold sender_wf in *. cbn. rewrite lookup_insert_eq. by rewrite Ej in Hj.
  - cbn. rewrite Hw, Hn, live_insert, (live_delete _ j), Ej. cbn. lia.
Qed.

Lemma wf_act c a c' evs qevs : wf c → act c a = Some (c', evs, qevs) → wf c'.
Proof.
  intros H E. destruct a as [i v|i j|i|i| | | | |]; cbn in E.
  - destruct (sops c !! i) as [[]|] eqn:Eo; try done. injection E as <- <- <-. by eapply wf_set_op.
  - destruct (sops c !! i) as [[]|] eqn:Eo; try done. destruct (sops c !! j) eqn:Ej; [done|].
    destruct (senders c <? isize_max) eqn:El; [|done]. injection E as <- <- <-.
    eapply wf_clone; [done..|by apply Z.ltb_lt].
  - destruct (sops c !! i) as [[]|] eqn:Eo; try done. injection E as <- <- <-. by eapply wf_set_op.
  - by eapply wf_sender_access.
  - destruct (rop c); try done. destruct (begin_pop _ _ _) eqn:Eb; [|done]. injection E as <- <- <-. by eapply wf_begin_pop in Eb.
  - destruct (rop c); try done. destruct (begin_pop _ _ _) eqn:Eb; [|done]. injection E as <- <- <-. by eapply wf_begin_pop in Eb.
  - by eapply wf_receiver_access.
  - destruct (rop c) eqn:Er; try done. injection E as <- <- <-. apply wf_rop; [done|by rewrite Er|done].
  - destruct (rop c) eqn:Er; try done. injection E as <- <- <-.
    destruct (wf_rop c RGone H) as [Hs Hr Hn]; [by rewrite Er|done|]. by split.
Qed.

Lemma wf_bounded cap w c : bounded cap w = Some c → wf c.
Proof.
  unfold bounded. destruct (TryQueue.new cap) as [q|]; [|done]. intros [= <-].
  split; [intros i; unfold sender_wf; cbn|done|cbn].
  - by destruct ({[0%nat := SIdle]} !! i) as [o|] eqn:E; [apply lookup_singleton_Some in E as [_ <-]|].
  - split; [|by unfold isize_max]. rewrite <- insert_empty, live_insert. by rewrite delete_id.
Qed.

Lemma reachable_wf cap w c tr qtr : reachable cap w c tr qtr → wf c.
Proof. induction 1; [by eapply wf_bounded|by eapply wf_act]. Qed.

(** ** Sleeping *)

Definition notifier (c : Channel) : Prop := ∃ i d, sops c !! i = Some (SNotify d).
Definition waker (c : Channel) : Prop := ∃ i d, sops c !! i = Some (SWake d).

(** From the moment the armed check saw no value, and from the moment it saw a sender. *)
Definition watching (r : ReceiverOp) : bool := match r with RSenders Armed | RWait | RParked => true | _ => false end.
Definition asleep (r : ReceiverOp) : bool := match r with RWait | RParked => true | _ => false end.

Record awake (c : Channel) : Prop := {
  aw_ready : watching (rop c) = true → wake c = Some true → front_ready (queue (tq c)) = true → notifier c;
  aw_end : asleep (rop c) = true → wake c = Some true → senders c = 0 → notifier c;
  aw_parked : rop c = RParked → wake c = Some false → waker c;
  aw_wake : rop c = RParked → wake c ≠ None }.

Definition quiet_op (o : option SenderOp) : bool :=
  match o with Some (SNotify _ | SWake _) => false | _ => true end.

(** Sender [i] moves, and is about to notify if it made something to see. *)
Lemma awake_sender c c' i :
  awake c → rop c' = rop c → wake c' = wake c → (∀ j, j ≠ i → sops c' !! j = sops c !! j) →
  quiet_op (sops c !! i) = true →
  (front_ready (queue (tq c')) = front_ready (queue (tq c)) ∧ (senders c' = 0 → senders c = 0)
   ∨ wake c = None ∨ ∃ d, sops c' !! i = Some (SNotify d)) → awake c'.
Proof.
  intros [Hr He Hp Hw] Ero Ew Ho Hq Hd.
  assert (notifier c → notifier c') as Hn.
  { intros (j & d & Hj). exists j, d. rewrite Ho; [done|]. intros ->. by rewrite Hj in Hq. }
  assert (waker c → waker c') as Hk.
  { intros (j & d & Hj). exists j, d. rewrite Ho; [done|]. intros ->. by rewrite Hj in Hq. }
  split; rewrite Ero, Ew.
  - intros H1 H2 H3. destruct Hd as [[Hf _]|[Hd|[d Hd]]]; [|congruence|by exists i, d].
    apply Hn, Hr; [done|done|by rewrite <- Hf].
  - intros H1 H2 H3. destruct Hd as [[_ Hf]|[Hd|[d Hd]]]; [|congruence|by exists i, d]. by auto.
  - by auto.
  - done.
Qed.

(** A receiver that does not sleep. *)
Lemma awake_busy c : watching (rop c) = false → awake c.
Proof. intros H. split; intros H1; destruct (rop c) as [| |[]| | | | | | |]; done. Qed.

(** A notification ends: the word was not armed, or the wake-up has been given. *)
Lemma awake_finish c i o d :
  awake c → sops c !! i = Some o →
  match o with SWake _ => rop c ≠ RParked | _ => wake c ≠ Some true end → awake (finish c i d).1.
Proof.
  intros [Hr He Hp Hw] Ho Hc.
  assert (∀ j, j ≠ i → sops (finish c i d).1 !! j = sops c !! j) as Hs.
  { intros j Hj. destruct d; cbn; [by rewrite lookup_delete_ne|by rewrite lookup_insert_ne]. }
  assert (rop (finish c i d).1 = rop c ∧ wake (finish c i d).1 = wake c ∧ tq (finish c i d).1 = tq c
          ∧ senders (finish c i d).1 = senders c) as (E1 & E2 & E3 & E4) by by destruct d.
  assert (notifier c → wake c = Some true → notifier (finish c i d).1) as Hn.
  { intros (j & d' & Hj) Ht. exists j, d'. rewrite Hs; [done|]. intros ->. rewrite Ho in Hj. by simplify_eq. }
  split; rewrite E1, E2, ?E3, ?E4; [by auto..| |done].
  intros H1 H2. destruct (Hp H1 H2) as (j & d' & Hj). exists j, d'. rewrite Hs; [done|].
  intros ->. rewrite Ho in Hj. by simplify_eq.
Qed.

Lemma awake_sender_access c i c' evs qevs :
  wf c → awake c → sender_access c i = Some (c', evs, qevs) → awake c'.
Proof.
  intros H A E. unfold sender_access in E. destruct (sops c !! i) as [[|v| | |d|d]|] eqn:Eo; try done.
  - destruct (receiver_alive c).
    + destruct (TryQueue.start _ _ _) as [q|] eqn:Es; [|done]. injection E as <- <- <-.
      apply start_step in Es as (Hq & _). eapply (awake_sender c _ i); [done|done|done|intros; by apply lookup_insert_ne|by rewrite Eo|].
      left. split; [by cbn; rewrite Hq|done].
    + injection E as <- <- <-. eapply (awake_sender c _ i); [done|done|done|intros; by apply lookup_insert_ne|by rewrite Eo|].
      by left.
  - destruct (TryQueue.step _ _) as [[q es]|] eqn:Es; [|done]. injection E as E <-.
    pose proof (wf_sender _ H i) as Hp. unfold sender_wf in Hp. rewrite Eo in Hp.
    destruct (push_step _ _ _ _ Hp Es) as (Hh & Ht & _ & [Hl Hf Hn|Hl Hr|v Hl Hf Hr]).
    + assert (c' = c <| tq := q |>) as ->.
      { destruct (last es) as [[| |t r]|]; [| |by destruct (Hn t r)|]; by injection E as <- <-. }
      eapply (awake_sender c _ i); [done..|by rewrite Eo|]. by left.
    + rewrite Hr in E. unfold then_notify in E. cbn in E.
      destruct (wake c) eqn:Ew; injection E as <- <-;
        (eapply (awake_sender c _ i); [done|done|done|intros; by apply lookup_insert_ne|by rewrite Eo|right]).
      * right. exists false. apply lookup_insert_eq.
      * by left.
    + rewrite Hr in E. injection E as <- <-.
      eapply (awake_sender c _ i); [done|done|done|intros; by apply lookup_insert_ne|by rewrite Eo|]. by left.
  - destruct (wf_dropping _ _ H Eo) as (H1 & Hd & Hi). injection E as E <-.
    pose proof (proj1 (wf_count _ Hd)) as Hn. cbn in Hn.
    unfold then_notify in E. cbn in E. destruct (senders c =? 1) eqn:E1.
    + destruct (wake c) eqn:Ew; injection E as <- <-;
        (eapply (awake_sender c _ i); [done|done|done| |by rewrite Eo|right]).
      * intros; by apply lookup_insert_ne.
      * right. exists true. apply lookup_insert_eq.
      * intros; by apply lookup_delete_ne.
      * by left.
    + injection E as <- <-. eapply (awake_sender c _ i); [done|done|done|intros; by apply lookup_delete_ne|by rewrite Eo|].
      left. split; [done|]. cbn. pose proof (proj2 (wf_count _ H)). apply Z.eqb_neq in E1. unfold wrapping_add, isize_max in *.
      rewrite Z.mod_small by lia. lia.
  - destruct (wake c) as [[|]|] eqn:Ew; injection E as E1.
    + subst c'. split; try done; cbn. intros _ _. exists i, d. apply lookup_insert_eq.
    + pose proof (awake_finish c i _ d A Eo) as Hf. rewrite E1, Ew in Hf. by apply Hf.
    + pose proof (awake_finish c i _ d A Eo) as Hf. rewrite E1, Ew in Hf. by apply Hf.
  - injection E as E _. assert (rop c = RParked ∨ rop c ≠ RParked) as [Er|Er] by (destruct (rop c); auto).
    + rewrite Er in E. apply awake_busy. destruct d; injection E as <- _; done.
    + assert ((c', evs) = finish c i d) as E' by (destruct (rop c); done).
      pose proof (awake_finish c i _ d A Eo Er) as Hf. by rewrite <- E' in Hf.
Qed.

Lemma begin_pop_rop c p again c' : begin_pop c p again = Some c' → watching (rop c') = false.
Proof. unfold begin_pop. destruct (TryQueue.start _ _ _); [|done]. by intros [= <-]. Qed.

Lemma awake_receiver_access c c' evs qevs :
  wf c → awake c → receiver_access c = Some (c', evs, qevs) → awake c'.
Proof.
  intros H A E. unfold receiver_access in E. destruct (rop c) as [|p again|p| |r| | | | |] eqn:Er; try done.
  - destruct (TryQueue.step _ _) as [[q es]|] eqn:Es; [|done]. injection E as E <-.
    pose proof (wf_receiver _ H) as Hp. unfold receiver_wf in Hp. rewrite Er in Hp. destruct Hp as [Hp Ha].
    destruct (pop_step _ _ _ Hp Es) as (Ht & _ & _ & [Hl Hn|Hl Hq Hf ->|v Hl ->]).
    + apply awake_busy. destruct (last es) as [[| |t r]|] eqn:El;
        [| |by destruct (last_not_returned _ Hn t r)|]; injection E as <- <-; cbn; by rewrite Er.
    + cbn in E. destruct again.
      * apply awake_busy. destruct p; cbn in E; by injection E as <- <-.
      * injection E as <- <-. split; try done. cbn. rewrite Hq. congruence.
    + apply awake_busy. destruct p; cbn in E; by injection E as <- <-.
  - destruct (senders c =? 0) eqn:E0.
    + destruct (begin_pop c p true) as [c1|] eqn:Eb; [|done]. injection E as <- <- <-. by eapply awake_busy, begin_pop_rop.
    + apply Z.eqb_neq in E0. injection E as E <-. destruct p; cbn in E; [| |].
      * apply awake_busy. by injection E as <- <-.
      * apply awake_busy. injection E as <- <-. cbn. by destruct (wake c).
      * injection E as <- <-. split; try done. cbn. intros _. apply (aw_ready _ A). by rewrite Er.
  - destruct (begin_pop _ _ _) as [c1|] eqn:Eb; [|done]. injection E as <- <- <-. by eapply awake_busy, begin_pop_rop.
  - injection E as <- <- <-. by apply awake_busy.
  - injection E as <- <- <-. destruct (wake c) as [[|]|] eqn:Ew; try by apply awake_busy.
    split; cbn; try by rewrite Ew.
    + intros _. apply (aw_ready _ A). by rewrite Er.
    + intros _. apply (aw_end _ A). by rewrite Er.
  - destruct (begin_pop _ _ _) as [c1|] eqn:Eb; [|done]. injection E as <- <- <-. by eapply awake_busy, begin_pop_rop.
  - destruct (begin_pop _ _ _) as [c1|] eqn:Eb; [|done]. injection E as <- <- <-. by eapply awake_busy, begin_pop_rop.
Qed.

Lemma awake_act c a c' evs qevs : wf c → awake c → act c a = Some (c', evs, qevs) → awake c'.
Proof.
  intros H A E. destruct a as [i v|i j|i|i| | | | |]; cbn in E.
  - destruct (sops c !! i) as [[]|] eqn:Eo; try done. injection E as <- <- <-.
    eapply (awake_sender c _ i); [done|done|done|intros; by apply lookup_insert_ne|by rewrite Eo|]. by left.
  - destruct (sops c !! i) as [[]|] eqn:Eo; try done. destruct (sops c !! j) eqn:Ej; [done|].
    destruct (senders c <? isize_max) eqn:El; [|done]. injection E as <- <- <-.
    eapply (awake_sender c _ j); [done|done|done|intros; by apply lookup_insert_ne|by rewrite Ej|].
    left. split; [done|]. destruct (wf_clone _ _ _ H Eo Ej) as [Hp Hw]; [by apply Z.ltb_lt|].
    apply Z.ltb_lt in El. cbn. unfold wrapping_add, isize_max in *. rewrite Z.mod_small by lia. lia.
  - destruct (sops c !! i) as [[]|] eqn:Eo; try done. injection E as <- <- <-.
    eapply (awake_sender c _ i); [done|done|done|intros; by apply lookup_insert_ne|by rewrite Eo|]. by left.
  - by eapply awake_sender_access.
  - destruct (rop c); try done. destruct (begin_pop _ _ _) eqn:Eb; [|done]. injection E as <- <- <-. by eapply awake_busy, begin_pop_rop.
  - destruct (rop c); try done. destruct (begin_pop _ _ _) eqn:Eb; [|done]. injection E as <- <- <-. by eapply awake_busy, begin_pop_rop.
  - by eapply awake_receiver_access.
  - destruct (rop c) eqn:Er; try done. injection E as <- <- <-. by apply awake_busy.
  - destruct (rop c) eqn:Er; try done. injection E as <- <- <-. by apply awake_busy.
Qed.

Lemma reachable_awake cap w c tr qtr : reachable cap w c tr qtr → awake c.
Proof.
  induction 1 as [c Hb|c tr qtr a c' evs qevs Hr IH Ha]; [|eapply awake_act; [by eapply reachable_wf|done..]].
  apply awake_busy. unfold bounded in Hb. destruct (TryQueue.new cap); [|done]. by injection Hb as <-.
Qed.

(** ** What is received *)

Definition received (tr : list ChEvent) : list T :=
  omap (λ e, match e with Received (Ok v) => Some v | _ => None end) tr.

(** A value taken whose [recv] has yet to disarm the wake. *)
Definition held (r : ReceiverOp) : list T := match r with RCancel (Ok v) => [v] | _ => [] end.

Record moved (c c' : Channel) (evs : list ChEvent) (qevs : list QEvent) : Prop := {
  mv_queue : ∀ cap qtr, TryQueue.reachable cap (tq c) qtr → TryQueue.reachable cap (tq c') (qtr ++ qevs);
  mv_claims : claimed receiver_tid qevs = pops qevs;
  mv_values : Some <$> (received evs ++ held (rop c')) = (Some <$> held (rop c)) ++ returned receiver_tid qevs }.

Lemma reachable_run cap (s s' : QState) tid evs qtr :
  TryQueue.step s tid = Some (s', evs) → TryQueue.reachable cap s qtr → TryQueue.reachable cap s' (qtr ++ evs).
Proof. intros E H. by apply (TryQueue.reach_act cap s qtr (Run tid)). Qed.

Lemma reachable_call cap (s s' : QState) tid l qtr :
  TryQueue.start s tid l = Some s' → TryQueue.reachable cap s qtr → TryQueue.reachable cap s' (qtr ++ []).
Proof. intros E H. apply (TryQueue.reach_act cap s qtr (Call tid l)); [done|]. cbn. by rewrite E. Qed.

Lemma moved_still c c' evs :
  tq c' = tq c → received evs = [] → held (rop c') = held (rop c) → moved c c' evs [].
Proof.
  intros Eq Er Eh. split; [by intros; rewrite Eq, app_nil_r|done|]. by rewrite Er, Eh, app_nil_r.
Qed.

Lemma moved_begin_pop c p again c' : begin_pop c p again = Some c' → held (rop c) = [] → moved c c' [] [].
Proof.
  unfold begin_pop. intros E Hh. destruct (TryQueue.start _ _ _) as [q|] eqn:Es; [|done]. injection E as <-.
  split; [|done|by rewrite Hh]. intros cap qtr. by eapply reachable_call.
Qed.

Lemma pushes_not_pops (evs : list QEvent) :
  Forall (λ e, match e with Dequeued _ _ | Returned _ (PopSome _) => False | _ => True end) evs →
  claimed receiver_tid evs = [] ∧ pops evs = [] ∧ returned receiver_tid evs = [].
Proof.
  induction 1 as [|e evs He _ (IH1 & IH2 & IH3)]; [done|]. unfold claimed, pops, returned in *. cbn.
  rewrite IH1, IH2, IH3. destruct e as [| |t []]; done.
Qed.

Lemma pops_by_receiver (evs : list QEvent) :
  Forall (λ e, match e with Dequeued t _ => t = receiver_tid | _ => True end) evs →
  claimed receiver_tid evs = pops evs.
Proof.
  induction 1 as [|e evs He _ IH]; [done|]. unfold claimed, pops in *. cbn. rewrite IH.
  destruct e; [done| |done]. by subst.
Qed.

Lemma finish_moved c i d : received (finish c i d).2 = [] ∧ tq (finish c i d).1 = tq c ∧ rop (finish c i d).1 = rop c.
Proof. by destruct d. Qed.

Lemma moved_sender_access c i c' evs qevs : wf c → sender_access c i = Some (c', evs, qevs) → moved c c' evs qevs.
Proof.
  intros H E. unfold sender_access in E. destruct (sops c !! i) as [[|v| | |d|d]|] eqn:Eo; try done.
  - destruct (receiver_alive c); [|injection E as <- <- <-; by apply moved_still].
    destruct (TryQueue.start _ _ _) as [q|] eqn:Es; [|done]. injection E as <- <- <-.
    split; [|done|by cbn; rewrite app_nil_r]. intros cap qtr. by eapply reachable_call.
  - destruct (TryQueue.step _ _) as [[q es]|] eqn:Es; [|done]. injection E as E <-.
    pose proof (wf_sender _ H i) as Hp. unfold sender_wf in Hp. rewrite Eo in Hp.
    destruct (push_step _ _ _ _ Hp Es) as (_ & _ & He & _). apply pushes_not_pops in He as (H1 & H2 & H3).
    assert (tq c' = q ∧ rop c' = rop c ∧ received evs = []) as (Eq & Er & Ev).
    { destruct (last es) as [[| |t []]|]; try by injection E as <- <-.
      unfold then_notify in E. cbn in E. destruct (wake c); by injection E as <- <-. }
    split; [|by rewrite H1, H2|by rewrite Ev, Er, H3, app_nil_r].
    intros cap qtr. rewrite Eq. by eapply reachable_run.
  - injection E as E <-. unfold then_notify in E. cbn in E.
    destruct (senders c =? 1), (wake c); injection E as <- <-; by apply moved_still.
  - destruct (wake c) as [[|]|]; injection E as E1; [by subst; apply moved_still|..];
      subst qevs; destruct (finish_moved c i d) as (F1 & F2 & F3); rewrite E1 in F1, F2, F3; cbn in F1, F2, F3;
      apply moved_still; by rewrite ?F2, ?F3.
  - injection E as E <-. set (c1 := match rop c with RParked => c <| rop := RUnpark |> | _ => c end) in *.
    destruct (finish_moved c1 i d) as (F1 & F2 & F3). rewrite E in F1, F2, F3. cbn in F1, F2, F3.
    apply moved_still; [|done|]; rewrite ?F2, ?F3; subst c1; destruct (rop c) eqn:Er; cbn; by rewrite ?Er.
Qed.

Lemma moved_receiver_access c c' evs qevs : wf c → receiver_access c = Some (c', evs, qevs) → moved c c' evs qevs.
Proof.
  intros H E. unfold receiver_access in E. destruct (rop c) as [|p again|p| |r| | | | |] eqn:Er; try done.
  - destruct (TryQueue.step _ _) as [[q es]|] eqn:Es; [|done]. injection E as E <-.
    pose proof (wf_receiver _ H) as Hp. unfold receiver_wf in Hp. rewrite Er in Hp. destruct Hp as [Hp Ha].
    destruct (pop_step _ _ _ Hp Es) as (_ & _ & He & Heff).
    assert (tq c' = q ∧ Some <$> (received evs ++ held (rop c')) = returned receiver_tid es) as [Eq Ev].
    { destruct Heff as [Hl Hn|Hl _ _ ->|v Hl ->].
      - assert (returned receiver_tid es = []) as ->.
        { unfold returned. clear -Hn. induction es as [|e es IH]; [done|]. cbn. rewrite IH by set_solver.
          destruct e as [| |t r]; [done|done|]. destruct (Hn t r). set_solver. }
        destruct (last es) as [[| |t r]|] eqn:El; [| |by destruct (last_not_returned _ Hn t r)|];
          injection E as <- <-; cbn; by rewrite Er.
      - cbn in E. destruct again, p; by injection E as <- <-.
      - cbn in E. destruct p; by injection E as <- <-. }
    split; [|by apply pops_by_receiver|by rewrite Ev, Er].
    intros cap qtr. rewrite Eq. by eapply reachable_run.
  - destruct (senders c =? 0).
    + destruct (begin_pop c p true) as [c1|] eqn:Eb; [|done]. injection E as <- <- <-.
      eapply moved_begin_pop; [done|by rewrite Er].
    + injection E as E <-. destruct p; cbn in E; injection E as <- <-; apply moved_still; try done; rewrite Er; by try destruct (wake c).
  - destruct (begin_pop _ _ _) as [c1|] eqn:Eb; [|done]. injection E as <- <- <-.
    apply moved_begin_pop in Eb as [M1 M2 M3]; [|by rewrite set_armed_rop, Er].
    rewrite set_armed_rop in M3. split; [|done|done]. intros cap qtr. by specialize (M1 cap qtr); unfold set_armed in M1; destruct (wake c).
  - injection E as <- <- <-. split; [intros cap qtr; rewrite app_nil_r; unfold set_armed; by destruct (wake c)|done|].
    rewrite Er. by destruct r.
  - injection E as <- <- <-. apply moved_still; [done|done|]. rewrite Er. cbn. by destruct (wake c) as [[]|].
  - destruct (begin_pop _ _ _) as [c1|] eqn:Eb; [|done]. injection E as <- <- <-.
    apply moved_begin_pop in Eb as [M1 M2 M3]; [|by rewrite set_armed_rop, Er].
    rewrite set_armed_rop in M3. split; [|done|done]. intros cap qtr. by specialize (M1 cap qtr); unfold set_armed in M1; destruct (wake c).
  - destruct (begin_pop _ _ _) as [c1|] eqn:Eb; [|done]. injection E as <- <- <-. eapply moved_begin_pop; [done|by rewrite Er].
Qed.

Lemma moved_act c a c' evs qevs : wf c → act c a = Some (c', evs, qevs) → moved c c' evs qevs.
Proof.
  intros H E. destruct a as [i v|i j|i|i| | | | |]; cbn in E.
  - destruct (sops c !! i) as [[]|] eqn:Eo; try done. injection E as <- <- <-. by apply moved_still.
  - destruct (sops c !! i) as [[]|] eqn:Eo; try done. destruct (sops c !! j) eqn:Ej; [done|].
    destruct (senders c <? isize_max) eqn:El; [|done]. injection E as <- <- <-. by apply moved_still.
  - destruct (sops c !! i) as [[]|] eqn:Eo; try done. injection E as <- <- <-. by apply moved_still.
  - by eapply moved_sender_access.
  - destruct (rop c) eqn:Er; try done. destruct (begin_pop _ _ _) eqn:Eb; [|done]. injection E as <- <- <-.
    eapply moved_begin_pop; [done|by rewrite Er].
  - destruct (rop c) eqn:Er; try done. destruct (begin_pop _ _ _) eqn:Eb; [|done]. injection E as <- <- <-.
    eapply moved_begin_pop; [done|by rewrite Er].
  - by eapply moved_receiver_access.
  - destruct (rop c) eqn:Er; try done. injection E as <- <- <-. apply moved_still; [done|done|by rewrite Er].
  - destruct (rop c) eqn:Er; try done. injection E as <- <- <-. apply moved_still; [done|done|by rewrite Er].
Qed.

(** *** The end *)

Lemma no_live c i o : wf c → senders c = 0 → sops c !! i = Some o → counted o = false.
Proof.
  intros H H0 E. pose proof (proj1 (wf_count _ H)) as Hn. rewrite H0, (live_delete _ i), E in Hn. cbn in Hn.
  destruct (counted o); [lia|done].
Qed.

Lemma end_idle c i : wf c → senders c = 0 → local (tq c) (sender_tid i) = Idle.
Proof.
  intros H H0. pose proof (wf_sender _ H i) as Hi. unfold sender_wf in Hi.
  destruct (sops c !! i) as [[]|] eqn:E; try done. by apply no_live in E.
Qed.

(** Without senders nothing is added, and no sender appears. *)
Lemma act_end c a c' evs qevs :
  wf c → act c a = Some (c', evs, qevs) → senders c = 0 → senders c' = 0 ∧ pushes qevs = [].
Proof.
  intros H E H0. destruct a as [i v|i j|i|i| | | | |]; cbn in E.
  - destruct (sops c !! i) as [[]|] eqn:Eo; try done. by apply no_live in Eo.
  - destruct (sops c !! i) as [[]|] eqn:Eo; try done. by apply no_live in Eo.
  - destruct (sops c !! i) as [[]|] eqn:Eo; try done. by apply no_live in Eo.
  - unfold sender_access in E. destruct (sops c !! i) as [o|] eqn:Eo; [|done]. apply no_live in Eo; [|done|done].
    destruct o as [| | | |[]|[]]; try done.
    + destruct (wake c) as [[]|]; by injection E as <- <- <-.
    + injection E as <- <- <-. cbn. by destruct (rop c).
  - destruct (rop c); try done. unfold begin_pop in E. destruct (TryQueue.start _ _ _); [|done]. by injection E as <- <- <-.
  - destruct (rop c); try done. unfold begin_pop in E. destruct (TryQueue.start _ _ _); [|done]. by injection E as <- <- <-.
  - unfold receiver_access in E. assert (∀ b, senders (set_armed c b) = senders c) as Hs.
    { intros b. unfold set_armed. by destruct (wake c). }
    destruct (rop c) as [|p again|p| |r| | | | |] eqn:Er; try done.
    + destruct (TryQueue.step _ _) as [[q es]|] eqn:Es; [|done]. injection E as E <-.
      pose proof (wf_receiver _ H) as Hp. unfold receiver_wf in Hp. rewrite Er in Hp. destruct Hp as [Hp _].
      destruct (pop_step _ _ _ Hp Es) as (_ & He & _). split; [|done].
      destruct (last es) as [[| |t []]|]; try (by injection E as <- <-); [destruct again|]; destruct p; by injection E as <- <-.
    + rewrite H0 in E. cbn in E. unfold begin_pop in E. destruct (TryQueue.start _ _ _); [|done]. by injection E as <- <- <-.
    + unfold begin_pop in E. destruct (TryQueue.start _ _ _); [|done]. injection E as <- <- <-. cbn. by rewrite Hs.
    + injection E as <- <- <-. cbn. by rewrite Hs.
    + by injection E as <- <- <-.
    + unfold begin_pop in E. destruct (TryQueue.start _ _ _); [|done]. injection E as <- <- <-. cbn. by rewrite Hs.
    + unfold begin_pop in E. destruct (TryQueue.start _ _ _); [|done]. by injection E as <- <- <-.
  - destruct (rop c); try done. by injection E as <- <- <-.
  - destruct (rop c); try done. by injection E as <- <- <-.
Qed.

Definition ended (c : Channel) (tr : list ChEvent) : Prop := Received Disconnected ∈ tr ∨ rop c = RCancel Disconnected.

Lemma sender_never_ends c i c' evs qevs :
  sender_access c i = Some (c', evs, qevs) → ended c' evs → rop c = RCancel Disconnected.
Proof.
  intros E D. unfold sender_access in E.
  assert (∀ c d, (Received Disconnected ∉ (finish c i d).2) ∧ rop (finish c i d).1 = rop c) as Hf.
  { intros c1 []; cbn; set_solver. }
  assert (∀ c d, (Received Disconnected ∉ (then_notify c i d).2) ∧ rop (then_notify c i d).1 = rop c) as Hn.
  { intros c1 d. unfold then_notify. destruct (wake c1); [cbn; set_solver|done]. }
  assert (∀ c1 p, (c', evs) = p → (Received Disconnected ∉ p.2) ∧ rop p.1 = rop c1 → rop c1 = RCancel Disconnected) as Hp.
  { intros c1 p <- [H1 H2]. destruct D as [|D]; [done|]. cbn in H2. congruence. }
  destruct (sops c !! i) as [[|v| | |d|d]|] eqn:Eo; try done.
  - destruct (receiver_alive c); [destruct (TryQueue.start _ _ _); [|done]|]; injection E as <- <- <-;
      destruct D as [D|D]; try done; apply list_elem_of_singleton in D || apply elem_of_nil in D; done.
  - destruct (TryQueue.step _ _) as [[q es]|]; [|done]. injection E as E _. symmetry in E. apply (Hp (c <| tq := q |>)) in E; [done|].
    destruct (last es) as [[| |t []]|]; try (by split; [set_solver|]). exact (Hn (c <| tq := q |>) false).
  - injection E as E _. symmetry in E. apply (Hp (c <| senders := senders c +w (-1) |>)) in E; [done|].
    destruct (senders c =? 1); [exact (Hn (c <| senders := senders c +w (-1) |>) true)|by split; [set_solver|]].
  - destruct (wake c) as [[]|]; [injection E as <- <- <-; destruct D as [D|D]; [by apply elem_of_nil in D|done]|..];
      injection E as E _; symmetry in E; apply (Hp c) in E; done || apply Hf.
  - injection E as E _. symmetry in E.
    apply (Hp (match rop c with RParked => c <| rop := RUnpark |> | _ => c end)) in E; [|apply Hf].
    destruct (rop c) eqn:Er; cbn in E; congruence.
Qed.

Lemma receiver_ends c c' evs qevs :
  wf c → receiver_access c = Some (c', evs, qevs) → ended c' evs →
  rop c = RCancel Disconnected
  ∨ senders c' = 0 ∧ held (rop c') = [] ∧ local (tq c') receiver_tid = Idle ∧ front_ready (queue (tq c')) = false.
Proof.
  intros H E D. unfold receiver_access in E.
  destruct (rop c) as [|p again|p| |r| | | | |] eqn:Er; try done.
  - destruct (TryQueue.step _ _) as [[q es]|] eqn:Es; [|done]. injection E as E <-.
    pose proof (wf_receiver _ H) as Hp. unfold receiver_wf in Hp. rewrite Er in Hp. destruct Hp as [Hp Ha].
    destruct (pop_step _ _ _ Hp Es) as (_ & _ & _ & [Hl Hn|Hl Hq Hf ->|v Hl ->]).
    + destruct (last es) as [[| |t r]|] eqn:El; [| |by destruct (last_not_returned _ Hn t r)|];
        injection E as <- <-; (destruct D as [D|D]; [by apply elem_of_nil in D|cbn in D; congruence]).
    + cbn in E. destruct again.
      * right. rewrite <- Hq in Hf. specialize (Ha eq_refl). destruct p; injection E as <- <-; cbn; by rewrite Hl.
      * injection E as <- <-. destruct D as [D|D]; [by apply elem_of_nil in D|done].
    + cbn in E. destruct p; injection E as <- <-; destruct D as [D|D]; try done;
        apply list_elem_of_singleton in D || apply elem_of_nil in D; congruence || done.
  - destruct (senders c =? 0).
    + unfold begin_pop in E. destruct (TryQueue.start _ _ _); [|done]. injection E as <- <- <-. destruct D as [D|D]; [by apply elem_of_nil in D|done].
    + injection E as E _. destruct p; cbn in E; injection E as <- <-; destruct D as [D|D]; try done.
      * apply list_elem_of_singleton in D. congruence.
      * by apply elem_of_nil in D.
      * cbn in D. by destruct (wake c).
      * by apply elem_of_nil in D.
  - unfold begin_pop in E. destruct (TryQueue.start _ _ _); [|done]. injection E as <- <- <-. destruct D as [D|D]; [by apply elem_of_nil in D|done].
  - injection E as <- <- <-. left. destruct D as [D|D]; [|done]. apply list_elem_of_singleton in D. congruence.
  - injection E as <- <- <-. destruct D as [D|D]; [by apply elem_of_nil in D|]. cbn in D. by destruct (wake c) as [[]|].
  - unfold begin_pop in E. destruct (TryQueue.start _ _ _); [|done]. injection E as <- <- <-. destruct D as [D|D]; [by apply elem_of_nil in D|done].
  - unfold begin_pop in E. destruct (TryQueue.start _ _ _); [|done]. injection E as <- <- <-. destruct D as [D|D]; [by apply elem_of_nil in D|done].
Qed.

(** The end is seen by the second check: no value ready, no sender left. *)
Lemma act_disconnect c a c' evs qevs :
  wf c → act c a = Some (c', evs, qevs) → ended c' evs →
  rop c = RCancel Disconnected
  ∨ senders c' = 0 ∧ held (rop c') = [] ∧ local (tq c') receiver_tid = Idle ∧ front_ready (queue (tq c')) = false.
Proof.
  intros H E D. destruct a as [i v|i j|i|i| | | | |]; cbn in E.
  - left. destruct (sops c !! i) as [[]|]; try done. injection E as <- <- <-. destruct D as [D|D]; [by apply elem_of_nil in D|done].
  - left. destruct (sops c !! i) as [[]|]; try done. destruct (sops c !! j); [done|]. destruct (_ <? _); [|done].
    injection E as <- <- <-. destruct D as [D|D]; [by apply elem_of_nil in D|done].
  - left. destruct (sops c !! i) as [[]|]; try done. injection E as <- <- <-. destruct D as [D|D]; [by apply elem_of_nil in D|done].
  - left. by eapply sender_never_ends.
  - unfold begin_pop in E. destruct (rop c); try done. destruct (TryQueue.start _ _ _); [|done].
    injection E as <- <- <-. destruct D as [D|D]; [by apply elem_of_nil in D|done].
  - unfold begin_pop in E. destruct (rop c); try done. destruct (TryQueue.start _ _ _); [|done].
    injection E as <- <- <-. destruct D as [D|D]; [by apply elem_of_nil in D|done].
  - by eapply receiver_ends.
  - destruct (rop c); try done. injection E as <- <- <-. destruct D as [D|D]; [by apply elem_of_nil in D|done].
  - destruct (rop c); try done. injection E as <- <- <-. destruct D as [D|D]; [by apply elem_of_nil in D|done].
Qed.

Lemma received_app tr tr' : received (tr ++ tr') = received tr ++ received tr'.
Proof. apply omap_app. Qed.

Lemma reachable_history cap w c tr qtr :
  reachable cap w c tr qtr →
  TryQueue.reachable cap (tq c) qtr ∧ claimed receiver_tid qtr = pops qtr
  ∧ returned receiver_tid qtr = Some <$> (received tr ++ held (rop c)).
Proof.
  induction 1 as [c Hb|c tr qtr a c' evs qevs Hr (IH1 & IH2 & IH3) Ha].
  - unfold bounded in Hb. destruct (TryQueue.new cap) eqn:Eq; [|done]. injection Hb as <-.
    split; [by apply TryQueue.reach_new|done].
  - pose proof (reachable_wf _ _ _ _ _ Hr) as H. destruct (moved_act _ _ _ _ _ H Ha) as [M1 M2 M3].
    split; [by apply M1|]. split.
    + unfold claimed, pops in *. by rewrite !omap_app, IH2, M2.
    + unfold returned in *. rewrite omap_app, IH3, received_app, <- app_assoc, !fmap_app, <- app_assoc, <- fmap_app, M3. done.
Qed.

Lemma received_prefix cap w c tr qtr :
  reachable cap w c tr qtr → short_history cap qtr → (received tr ++ held (rop c)) `prefix_of` pushes qtr.
Proof.
  intros Hr Hs. destruct (reachable_history _ _ _ _ _ Hr) as (Hq & Hc & Hv).
  pose proof (pop_returns_claimed _ _ _ receiver_tid Hq Hs) as Hcl. rewrite Hc, Hv in Hcl.
  destruct (reachable_inv _ _ _ Hq Hs) as [_ Hp]. rewrite Hp in Hcl.
  apply fmap_app_inv in Hcl as (l1 & l2 & E1 & _ & E). apply (inj (fmap Some)) in E1 as ->.
  exists (l2 ++ drop (length (pops qtr)) (pushes qtr)). by rewrite app_assoc, <- E, take_drop.
Qed.

(** The end as it is seen: every reservation published, taken and returned. *)
Lemma end_received cap w c tr qtr :
  reachable cap w c tr qtr → short_history cap qtr → senders c = 0 → held (rop c) = [] →
  local (tq c) receiver_tid = Idle → front_ready (queue (tq c)) = false → received tr = pushes qtr.
Proof.
  intros Hr Hs H0 Hh Hl Hf. pose proof (reachable_wf _ _ _ _ _ Hr) as H.
  destruct (reachable_history _ _ _ _ _ Hr) as (Hq & Hc & Hv).
  pose proof (pop_returns_claimed _ _ _ receiver_tid Hq Hs) as Hcl. rewrite Hc, Hv, Hl, Hh in Hcl. cbn in Hcl.
  destruct (reachable_inv _ _ _ Hq Hs) as [_ Hp]. rewrite Hp, !app_nil_r in Hcl.
  rewrite (not_ready_drained _ _ _ Hq Hs), take_ge in Hcl; [by apply (inj (fmap Some)) in Hcl|done| |done].
  intros [|i]; [by change 0%nat with receiver_tid; rewrite Hl|]. change (S i) with (sender_tid i). by rewrite end_idle.
Qed.

Lemma ended_drained cap w c tr qtr :
  reachable cap w c tr qtr → short_history cap qtr → ended c tr → received tr = pushes qtr ∧ senders c = 0.
Proof.
  induction 1 as [c Hb|c tr qtr a c' evs qevs Hr IH Ha]; intros Hs D.
  { unfold bounded in Hb. destruct (TryQueue.new cap); [|done]. injection Hb as <-.
    destruct D as [D|D]; [by apply elem_of_nil in D|done]. }
  pose proof (reachable_wf _ _ _ _ _ Hr) as H. pose proof (reach_act _ _ _ _ _ _ _ _ _ Hr Ha) as Hr'.
  destruct (reachable_history _ _ _ _ _ Hr) as (Hq & _). destruct (reachable_lap _ _ _ Hq) as (Hc & HL & _).
  assert (ended c tr ∨ ended c' evs) as [D0|D0].
  { destruct D as [[D|D]%elem_of_app|D]; [by left; left|by right; left|by right; right]. }
  2: destruct (act_disconnect _ _ _ _ _ H Ha D0) as [D1|(H0 & Hh & Hl & Hf)]; [|by split; [eapply end_received|]].
  all: destruct IH as [IH H0]; [by eapply short_prefix|done || by right|].
  all: destruct (act_end _ _ _ _ _ H Ha H0) as [H0' Hp]; split; [|done].
  all: pose proof (received_prefix _ _ _ _ _ Hr' Hs) as [l Hl].
  all: rewrite pushes_app, received_app, Hp, <- IH, app_nil_r in Hl |- *.
  all: rewrite <- !app_assoc, <- (app_nil_r (received tr)) in Hl at 1; apply app_inv_head in Hl; symmetry in Hl.
  all: apply app_nil in Hl as [-> _]; by rewrite app_nil_r.
Qed.

(** ** Theorems *)

(** C25: No wake-up is lost.  Whatever the interleaving of the senders' and the receiver's
    accesses, when the receiver is parked while a value is ready at the head of the queue,
    or while no sender is left, some sender stands before the exchange that disarms the
    wake or before the [FUTEX_WAKE] itself.  A dropped sender that was the last one counts
    as a sender here. *)
Theorem no_lost_wakeup cap w c tr qtr :
  reachable cap w c tr qtr → rop c = RParked → front_ready (queue (tq c)) = true ∨ senders c = 0 →
  ∃ i d, sops c !! i = Some (SNotify d) ∨ sops c !! i = Some (SWake d).
Proof.
  intros Hr Hp Hd. destruct (reachable_awake _ _ _ _ _ Hr) as [Ar Ae Ap Aw]. rewrite Hp in *.
  destruct (wake c) as [[]|] eqn:Ew; [| |by destruct Aw].
  - destruct Hd as [Hf|H0]; [destruct Ar as (i & d & E)|destruct Ae as (i & d & E)]; eauto.
  - destruct Ap as (i & d & E); eauto.
Qed.

(** C26: What the receiver gets.  The values received, and the one of a [recv] about to
    return, are the first values reserved by the senders, in the order of their
    reservations, each once.  [Disconnected] is returned only when no sender is left and
    every value ever reserved has been received. *)
Theorem channel_delivers cap w c tr qtr :
  reachable cap w c tr qtr → short_history cap qtr →
  (received tr ++ held (rop c)) `prefix_of` pushes qtr
  ∧ (Received Disconnected ∈ tr → received tr = pushes qtr ∧ senders c = 0).
Proof.
  intros Hr Hs. split; [by eapply received_prefix|]. intros D. eapply ended_drained; [done|done|by left].
Qed.

(** ** Witnesses *)

Fixpoint exec (c : Channel) (l : list Action) : option (Channel * list ChEvent * list QEvent) :=
  match l with
  | [] => Some (c, [], [])
  | a :: l =>
      '(c, evs, qevs) ← act c a; '(c, evs', qevs') ← exec c l; Some (c, evs ++ evs', qevs ++ qevs')
  end.

Lemma exec_reachable cap w c tr qtr l c' evs qevs :
  reachable cap w c tr qtr → exec c l = Some (c', evs, qevs) → reachable cap w c' (tr ++ evs) (qtr ++ qevs).
Proof.
  revert c tr qtr evs qevs. induction l as [|a l IH]; intros c tr qtr evs qevs Hr E; cbn in E.
  { injection E as <- <- <-. by rewrite !app_nil_r. }
  destruct (act c a) as [[[c1 e1] q1]|] eqn:Ea; [|done]. cbn in E.
  destruct (exec c1 l) as [[[c2 e2] q2]|] eqn:El; [|done]. injection E as <- <- <-.
  rewrite !app_assoc. eapply IH; [|done]. by eapply reach_act.
Qed.
End PollChannel.

(** A receiver parks; the value is published; the receiver is woken and takes it; the
    sender is dropped and the receiver sees the end. *)
Definition park_and_publish : list (Action (T:=Z)) :=
  [ARecv] ++ replicate 8 AReceiver ++ [ASend 0 7] ++ replicate 6 (ASender 0).

Definition take_and_end : list (Action (T:=Z)) :=
  park_and_publish ++ [ASender 0; ASender 0] ++ replicate 6 AReceiver
  ++ [ADrop 0; ASender 0; ASender 0; ARecv] ++ replicate 5 AReceiver.

Definition run_demo (l : list (Action (T:=Z))) : option (Channel * list ChEvent * list TryQueue.Event) :=
  c ← bounded 1 true; exec c l.

Lemma run_demo_reachable l c tr qtr : run_demo l = Some (c, tr, qtr) → reachable 1 true c tr qtr.
Proof.
  unfold run_demo. destruct (bounded 1 true) as [c0|] eqn:E; [|done]. cbn. intros Ee.
  by eapply (exec_reachable 1 true c0 [] []); [apply reach_bounded|].
Qed.

Lemma no_lost_wakeup_witness :
  match run_demo park_and_publish with
  | Some (c, tr, qtr) =>
      rop c = RParked ∧ (∃ i d, sops c !! i = Some (SNotify d) ∨ sops c !! i = Some (SWake d))
  | None => False
  end.
Proof.
  destruct (run_demo park_and_publish) as [[[c tr] qtr]|] eqn:E; [|vm_compute in E; discriminate].
  pose proof (run_demo_reachable _ _ _ _ E) as Hr.
  assert (Hp : rop c = RParked) by (vm_compute in E; injection E as <- <- <-; reflexivity).
  split; [exact Hp|]. apply (no_lost_wakeup 1 true c tr qtr Hr Hp). left.
  vm_compute in E. injection E as <- <- <-. reflexivity.
Defined.

Lemma channel_delivers_witness :
  match run_demo take_and_end with
  | Some (c, tr, qtr) => received tr = [7] ∧ received tr = pushes qtr ∧ senders c = 0
  | None => False
  end.
Proof.
  destruct (run_demo take_and_end) as [[[c tr] qtr]|] eqn:E; [|vm_compute in E; discriminate].
  pose proof (run_demo_reachable _ _ _ _ E) as Hr.
  assert (Hs : short_history 1 qtr ∧ received tr = [7] ∧ Received Disconnected ∈ tr).
  { vm_compute in E. injection E as <- <- <-. split; [reflexivity|]. split; [reflexivity|]. set_solver. }
  split; [apply Hs|]. apply (channel_delivers 1 true c tr qtr Hr (proj1 Hs)). apply Hs.
Defined.
