(* ===== verification/ReplySlots.v ===== *)
(** The completion slots of a connection worker:
    [src/crates/hexagent-runtime/src/reply_slots.rs].  The pool's owner checks slots out;
    the I/O task that holds a sender, the consumer that holds a receiver and the readers of
    a slot's metadata act at any time between the owner's accesses.  The channel of a slot
    is the one-place queue of [poll_channel]; reference counts are those of [Arc], and a
    generation is one check-out of a slot. *)

From S2P Require Import Prelude.

#[local] Open Scope nat_scope.

Section Slots.
  Context {T : Type} (disconnected : T).

(** A reply carries the generation of the sender that made it; an endpoint and a reader
    carry theirs.  [taken] are the generations whose receiver got a reply. *)
Record Slot := mkSlot {
  channel : option (nat * T);
  generation : nat;
  sender : option (nat * bool);
  receiver : option nat;
  readers : list nat;
  taken : list nat;
  lost : bool
}.

Definition new_slot : Slot := mkSlot None 0 None None [] [] false.

(** [Arc::strong_count] of the slot and of its metadata: the pool, and who else has it. *)
Definition some_count {A} (o : option A) : nat := match o with Some _ => 1 | None => 0 end.
Definition slot_count (s : Slot) : nat := 1 + some_count (sender s) + some_count (receiver s).
Definition metadata_count (s : Slot) : nat := 1 + length (readers s).

(** The accesses of [checkout]: the two counts of each slot in turn, then of the slot
    found the drain of its channel and the new references. *)
Inductive Pc := Idle | CountSlot (i : nat) | CountMetadata (i : nat) | Drain (i : nat).

Record Pool := mkPool { slots : list Slot; pc : Pc; handed : list (option nat) }.

Definition with_capacity (capacity : nat) : Pool := mkPool (replicate capacity new_slot) Idle [].

Definition check (y : Pool) (i : nat) : Pool :=
  if i <? length (slots y) then y <| pc := CountSlot i |> else y <| pc := Idle |> <| handed := handed y ++ [None] |>.

(** [reset] and the three clones; only the owner makes references here. *)
Definition hand_out (s : Slot) : Slot :=
  let g := S (generation s) in
  s <| generation := g |> <| sender := Some (g, false) |> <| receiver := Some g |> <| readers := [g] |>.

Definition on_slot (y : Pool) (i : nat) (f : Slot → option Slot) : option Pool :=
  match slots y !! i with
  | Some s => (λ s, y <| slots := <[i := s]> (slots y) |>) <$> f s
  | None => None
  end.

Definition checkout (y : Pool) : option Pool :=
  match pc y with
  | Idle => Some (check y 0)
  | CountSlot i =>
      (λ s, if slot_count s =? 1 then y <| pc := CountMetadata i |> else check y (S i)) <$> slots y !! i
  | CountMetadata i =>
      (λ s, if metadata_count s =? 1 then y <| pc := Drain i |> else check y (S i)) <$> slots y !! i
  | Drain i =>
      match slots y !! i with
      | Some s =>
          match channel s with
          | Some _ => on_slot y i (λ s, Some (s <| channel := None |>))
          | None => (λ y, y <| pc := Idle |> <| handed := handed y ++ [Some i] |>) <$> on_slot y i (λ s, Some (hand_out s))
          end
      | None => None
      end
  end.

(** ** The endpoints *)

(** The send of [try_send], or of the drop of an unused sender. *)
Definition send (v : T) (s : Slot) : option Slot :=
  match sender s with
  | Some (g, false) =>
      Some (match channel s with
            | None => s <| channel := Some (g, v) |> <| sender := Some (g, true) |>
            | Some _ => s <| sender := Some (g, true) |> <| lost := true |>
            end)
  | _ => None
  end.

(** The reference of a sender that has sent goes. *)
Definition release (s : Slot) : option Slot :=
  match sender s with Some (_, true) => Some (s <| sender := None |>) | _ => None end.

Definition try_recv (s : Slot) : option (Slot * (nat * T)) :=
  match receiver s, channel s with
  | Some g, Some m => Some (s <| channel := None |> <| taken := taken s ++ [g] |>, m)
  | _, _ => None
  end.

Definition drop_receiver (s : Slot) : option Slot := match receiver s with Some _ => Some (s <| receiver := None |>) | None => None end.

Definition clone_metadata (s : Slot) : option Slot := match readers s with g :: _ => Some (s <| readers := g :: readers s |>) | [] => None end.
Definition drop_metadata (k : nat) (s : Slot) : option Slot := match readers s !! k with Some _ => Some (s <| readers := delete k (readers s) |>) | None => None end.

Inductive Event :=
  | Checkout
  | TrySend (i : nat) (v : T)
  | DropSender (i : nat)
  | Release (i : nat)
  | Recv (i : nat)
  | DropReceiver (i : nat)
  | CloneMetadata (i : nat)
  | DropMetadata (i k : nat).

Definition event (y : Pool) (e : Event) : option Pool :=
  match e with
  | Checkout => checkout y
  | TrySend i v => on_slot y i (send v)
  | DropSender i => on_slot y i (send disconnected)
  | Release i => on_slot y i release
  | Recv i => on_slot y i (λ s, fst <$> try_recv s)
  | DropReceiver i => on_slot y i drop_receiver
  | CloneMetadata i => on_slot y i clone_metadata
  | DropMetadata i k => on_slot y i (drop_metadata k)
  end.

Inductive reachable : Pool → Prop :=
  | reachable_new capacity : reachable (with_capacity capacity)
  | reachable_event y e y' : reachable y → event y e = Some y' → reachable y'.

(** ** The invariant *)

(** The owner's knowledge of a slot between its accesses. *)
Definition quiet (p : Pc) (i : nat) (s : Slot) : Prop :=
  match p with
  | CountMetadata j => i = j → sender s = None ∧ receiver s = None
  | Drain j => i = j → sender s = None ∧ receiver s = None ∧ readers s = []
  | _ => True
  end.

Record slot_ok (s : Slot) : Prop := {
  so_sender : ∀ g b, sender s = Some (g, b) → g = generation s;
  so_receiver : ∀ g, receiver s = Some g → g = generation s;
  so_readers : ∀ g, g ∈ readers s → g = generation s;
  so_channel : ∀ g v, channel s = Some (g, v) → g <= generation s ∧ g ∉ taken s;
  so_fresh : is_Some (sender s) ∨ is_Some (receiver s) → ∀ g v, channel s = Some (g, v) → g = generation s;
  so_unsent : ∀ g, sender s = Some (g, false) → channel s = None ∧ g ∉ taken s;
  so_waiting : ∀ g, receiver s = Some g → (∀ g', sender s ≠ Some (g', false)) → is_Some (channel s) ∨ g ∈ taken s;
  so_taken : NoDup (taken s) ∧ ∀ g, g ∈ taken s → g <= generation s;
  so_lost : lost s = false
}.

Definition inv (y : Pool) : Prop := ∀ i s, slots y !! i = Some s → slot_ok s ∧ quiet (pc y) i s.

Lemma new_slot_ok : slot_ok new_slot.
Proof.
  split; cbn; try done.
  - intros g Hg. by apply not_elem_of_nil in Hg.
  - split; [constructor|]. intros g Hg. by apply not_elem_of_nil in Hg.
Qed.

(** A step of an endpoint or a reader on one slot: it keeps the invariant and takes no
    new reference. *)
Definition endpoint_step (f : Slot → option Slot) : Prop :=
  ∀ s s', f s = Some s' → slot_ok s → slot_ok s' ∧ (sender s = None → sender s' = None) ∧ (receiver s = None → receiver s' = None)
    ∧ (readers s = [] → readers s' = []).

Lemma send_step v : endpoint_step (send v).
Proof.
  intros s s' E [H1 H2 H3 H4 H5 H6 H7 H8 H9]. unfold send in E. destruct (sender s) as [[g []]|] eqn:Es; try done.
  pose proof (H1 _ _ eq_refl) as ->. destruct (H6 _ eq_refl) as [Hc Ht]. rewrite Hc in E. injection E as <-.
  split; [|by split_and!]. split; cbn; try done.
  - by intros ? ? [= <- <-].
  - intros ? ? [= <- <-]. done.
  - by intros _ ? ? [= <- <-].
  - intros ? _ _. left. by eexists.
Qed.

Lemma release_step : endpoint_step release.
Proof.
  intros s s' E [H1 H2 H3 H4 H5 H6 H7 H8 H9]. unfold release in E. destruct (sender s) as [[g []]|] eqn:Es; try done. injection E as <-.
  split; [|by split_and!]. split; cbn; try done.
  - intros [[? ?]|Hr]; [done|]. apply H5. by right.
  - intros g' Hr _. apply H7; [done|]. by intros ? [= ?].
Qed.

Lemma recv_step : endpoint_step (λ s, fst <$> try_recv s).
Proof.
  intros s s' E [H1 H2 H3 H4 H5 H6 H7 [H8 H8'] H9]. unfold try_recv in E. destruct (receiver s) as [g|] eqn:Er; [|done].
  destruct (channel s) as [[g' v]|] eqn:Ec; [|done]. injection E as <-. pose proof (H2 _ eq_refl) as ->.
  destruct (H4 _ _ eq_refl) as [_ Ht]. assert (g' = generation s) as -> by (eapply H5; [right; by eexists|done]).
  assert (∀ g, sender s ≠ Some (g, false)) as Hs by (intros g Hg; destruct (H6 g Hg); done).
  split; [|by split_and!]. split; cbn; try done.
  - rewrite Er. by intros g [= <-].
  - intros g Hg. by destruct (Hs g).
  - rewrite Er. intros g [= <-] _. right. apply elem_of_app. right. by apply list_elem_of_singleton.
  - split; [|intros g [Hg|Hg%list_elem_of_singleton]%elem_of_app; [by apply H8'|lia]].
    apply NoDup_app. split; [done|]. split; [|apply NoDup_singleton]. intros x Hx ->%list_elem_of_singleton. done.
Qed.

Lemma drop_receiver_step : endpoint_step drop_receiver.
Proof.
  intros s s' E [H1 H2 H3 H4 H5 H6 H7 H8 H9]. unfold drop_receiver in E. destruct (receiver s) as [g|] eqn:Er; [|done]. injection E as <-.
  split; [|by split_and!]. split; cbn; try done. intros [Hs|[? ?]]; [|done]. apply H5. by left.
Qed.

Lemma clone_metadata_step : endpoint_step clone_metadata.
Proof.
  intros s s' E [H1 H2 H3 H4 H5 H6 H7 H8 H9]. unfold clone_metadata in E. destruct (readers s) as [|g l] eqn:Er; [done|]. injection E as <-.
  split; [|by split_and!]. split; cbn; rewrite ?Er; try done. intros g' Hg. apply H3. apply elem_of_cons in Hg as [-> | Hg]; [by left|done].
Qed.

Lemma drop_metadata_step k : endpoint_step (drop_metadata k).
Proof.
  intros s s' E [H1 H2 H3 H4 H5 H6 H7 H8 H9]. unfold drop_metadata in E. destruct (readers s !! k) as [g|] eqn:Er; [|done]. injection E as <-.
  split; [|split_and!; try done; intros En; rewrite En in Er; done]. split; cbn; try done.
  intros g' Hg. apply H3. rewrite (delete_Permutation _ _ _ Er). by right.
Qed.

Lemma hand_out_ok s : slot_ok s → sender s = None → receiver s = None → readers s = [] → channel s = None → slot_ok (hand_out s).
Proof.
  intros [H1 H2 H3 H4 H5 H6 H7 [H8 H8'] H9] Es Er Em Ec. split; cbn; try done.
  - by intros ? ? [= <- <-].
  - by intros ? [= <-].
  - by intros g ->%list_elem_of_singleton.
  - by rewrite Ec.
  - intros _ ? ?. by rewrite Ec.
  - intros g [= <-]. split; [done|]. intros Hg%H8'. lia.
  - intros g [= <-] Hs. by destruct (Hs (S (generation s))).
  - split; [done|]. intros g Hg%H8'. lia.
Qed.

Lemma endpoint_inv f y i y' : endpoint_step f → inv y → on_slot y i f = Some y' → inv y'.
Proof.
  intros Hf I E. unfold on_slot in E. destruct (slots y !! i) as [s|] eqn:Es; [|done]. apply fmap_Some in E as (s' & Ef & ->).
  destruct (I i s Es) as [Hok Hq]. destruct (Hf s s' Ef Hok) as (Hok' & Hs & Hr & Hm).
  intros j sj Hj. cbn in Hj |- *. apply list_lookup_insert_Some in Hj as [(<- & <- & _)|[_ Hj]]; [|by apply I].
  split; [done|]. unfold quiet in *. destruct (pc y); try done; intros Heq; specialize (Hq Heq); naive_solver.
Qed.

Lemma check_inv y i : inv y → inv (check y i).
Proof. intros I. unfold check. destruct (i <? length (slots y)); intros j s Hj; cbn in *; split; try done; by apply (I j s). Qed.

Lemma checkout_inv y y' : inv y → checkout y = Some y' → inv y'.
Proof.
  intros I E. unfold checkout in E. destruct (pc y) as [|i|i|i] eqn:Ep.
  - injection E as <-. by apply check_inv.
  - apply fmap_Some in E as (s & Es & ->). destruct (Nat.eqb_spec (slot_count s) 1) as [Hc|_]; [|by apply check_inv].
    intros j sj Hj. cbn in *. split; [by apply (I j sj)|]. intros ->. rewrite Es in Hj. injection Hj as <-.
    unfold slot_count in Hc. by destruct (sender s), (receiver s).
  - apply fmap_Some in E as (s & Es & ->). destruct (Nat.eqb_spec (metadata_count s) 1) as [Hc|_]; [|by apply check_inv].
    intros j sj Hj. cbn in *. destruct (I j sj Hj) as [Hok Hq]. split; [done|]. rewrite Ep in Hq. intros ->. specialize (Hq eq_refl).
    rewrite Es in Hj. injection Hj as <-. unfold metadata_count in Hc. split_and!; try apply Hq. apply nil_length_inv. lia.
  - destruct (slots y !! i) as [s|] eqn:Es; [|done]. destruct (I i s Es) as [Hok Hq]. rewrite Ep in Hq. destruct (Hq eq_refl) as (H1 & H2 & H3).
    unfold on_slot in E. rewrite Es in E. destruct (channel s) as [m|] eqn:Ec; injection E as <-; intros j sj Hj; cbn in *.
    all: apply list_lookup_insert_Some in Hj as [(<- & <- & _)|[_ Hj]]; [|split; [by apply (I j sj)|]; try done; rewrite Ep; by destruct (I j sj Hj) as [_ Hq']; rewrite Ep in Hq'].
    + rewrite Ep. split; [|done]. destruct Hok as [O1 O2 O3 O4 O5 O6 O7 O8 O9]. split; cbn; try done; rewrite ?H1, ?H2; done.
    + split; [by apply hand_out_ok|done].
Qed.

Lemma slots_reachable_inv y : reachable y → inv y.
Proof.
  induction 1 as [capacity|y e y' _ I E].
  - intros i s Hi. cbn in Hi. apply lookup_replicate in Hi as [-> _]. split; [apply new_slot_ok|done].
  - destruct e as [|i v|i|i|i|i|i|i k]; cbn in E; [by eapply checkout_inv|..].
    all: eapply endpoint_inv; [|exact I|exact E].
    all: apply send_step || apply release_step || apply recv_step || apply drop_receiver_step || apply clone_metadata_step || apply drop_metadata_step.
Qed.

(** ** Theorems *)

(** C28: a reply reaches the request it was made for.  Whatever the interleaving of the
    pool's owner with the endpoints and readers of earlier check-outs: a receiver takes only
    a reply of its own generation, and at most one; a slot's readers are all of its present
    generation; no reply is ever refused for lack of room; and a receiver whose sender has
    sent or is gone never waits, its reply is there unless it has taken it. *)
Theorem reply_own_generation y i s :
  reachable y → slots y !! i = Some s →
  (∀ s' g m, receiver s = Some g → try_recv s = Some (s', m) → m.1 = g ∧ g ∉ taken s)
  ∧ NoDup (taken s) ∧ (∀ g, g ∈ readers s → g = generation s) ∧ lost s = false
  ∧ (∀ g, receiver s = Some g → (∀ g', sender s ≠ Some (g', false)) → is_Some (try_recv s) ∨ g ∈ taken s).
Proof.
  intros I%slots_reachable_inv Hs. destruct (I i s Hs) as [[H1 H2 H3 H4 H5 H6 H7 [H8 _] H9] _]. split_and!; try done.
  - intros s' g m Hr E. unfold try_recv in E. rewrite Hr in E. destruct (channel s) as [[g' v]|] eqn:Ec; [|done]. injection E as <- <-.
    assert (g' = generation s) as -> by (eapply H5; [right; by eexists|done]). rewrite (H2 g Hr). split; [done|]. by apply (H4 _ v).
  - intros g Hr Hn. destruct (H7 g Hr Hn) as [[m Hm]|?]; [left|by right]. unfold try_recv. rewrite Hr, Hm. by eexists.
Qed.

(** a slot is handed out only when nobody has it.  At the moment [checkout] takes a slot,
    its endpoints and its readers are all gone, its channel is empty, and what it hands out
    is of a new generation. *)
Theorem checkout_exclusive y y' i :
  reachable y → event y Checkout = Some y' → handed y' = handed y ++ [Some i] →
  ∃ s, slots y !! i = Some s ∧ slot_count s = 1 ∧ metadata_count s = 1 ∧ channel s = None
    ∧ slots y' = <[i := hand_out s]> (slots y) ∧ pc y' = Idle.
Proof.
  intros I%slots_reachable_inv E Hh. cbn in E. unfold checkout in E.
  assert (∀ j, handed (check y j) ≠ handed y ++ [Some i]) as Hc.
  { intros j. unfold check. destruct (j <? length (slots y)); cbn; intros Hx; [|apply app_inj_1 in Hx as [_ Hx]; done].
    apply (f_equal length) in Hx. rewrite length_app in Hx. cbn in Hx. lia. }
  assert (handed y ≠ handed y ++ [Some i]) as Hy by (intros Hx; apply (f_equal length) in Hx; rewrite length_app in Hx; cbn in Hx; lia).
  destruct (pc y) as [|j|j|j] eqn:Ep.
  - injection E as <-. by destruct (Hc 0).
  - apply fmap_Some in E as (s & _ & ->). destruct (_ =? _); [done|by destruct (Hc (S j))].
  - apply fmap_Some in E as (s & _ & ->). destruct (_ =? _); [done|by destruct (Hc (S j))].
  - destruct (slots y !! j) as [s|] eqn:Es; [|done]. destruct (I j s Es) as [_ Hq]. rewrite Ep in Hq. destruct (Hq eq_refl) as (H1 & H2 & H3).
    unfold on_slot in E. rewrite Es in E. destruct (channel s) eqn:Ec; injection E as <-; [done|]. cbn in *.
    apply app_inj_1 in Hh as [_ [= ->]]; [|done]. exists s. unfold slot_count, metadata_count. by rewrite H1, H2, H3.
Qed.
End Slots.

(** ** Runs *)

Fixpoint run (y : Pool (T := Z)) (es : list Event) : option Pool :=
  match es with [] => Some y | e :: es => match event (-1)%Z y e with Some y => run y es | None => None end end.

Definition begun : Pool (T := Z) := with_capacity 1.
Definition end_of (es : list Event) : Pool := default begun (run begun es).

Lemma slots_run_reachable y es y' : reachable (-1)%Z y → run y es = Some y' → reachable (-1)%Z y'.
Proof.
  revert y. induction es as [|e es IH]; intros y Hr E; cbn in E; [by injection E as <-|].
  destruct (event _ y e) as [y1|] eqn:E1; [|done]. by eapply IH; [eapply reachable_event|].
Qed.

Lemma slots_end_reachable es : is_Some (run begun es) → reachable (-1)%Z (end_of es).
Proof. intros [y E]. unfold end_of. rewrite E. eapply slots_run_reachable; [|done]. constructor. Qed.

(** A consumer gives up before the completion of its request; the reply comes late, is
    drained, and the next request on the slot gets its own. *)
Definition abandoned : list Event :=
  replicate 4 Checkout ++ [DropReceiver 0; DropMetadata 0 0; TrySend 0 9%Z; Release 0] ++ replicate 4 Checkout.
Definition reused : list Event := abandoned ++ [Checkout; TrySend 0 10%Z].

Lemma reuse_runs :
  (λ y, (handed y, fst <$> (slots y !! 0 ≫= try_recv))) <$> run begun reused
  = Some ([Some 0; Some 0], Some (mkSlot None 2 (Some (2, true)) (Some 2) [2] [2] false)).
Proof. vm_compute. done. Qed.

Definition slot_of (es : list Event) : Slot (T := Z) := default new_slot (slots (end_of es) !! 0).

Lemma reply_own_generation_witness :
  NoDup (taken (slot_of reused)) ∧ (∀ s' g m, receiver (slot_of reused) = Some g → try_recv (slot_of reused) = Some (s', m) → m.1 = g ∧ g ∉ taken (slot_of reused)).
Proof.
  destruct (reply_own_generation (-1)%Z (end_of reused) 0 (slot_of reused)) as (H1 & H2 & _); [apply slots_end_reachable; vm_compute; by eexists|by vm_compute|].
  split; [exact H2|exact H1].
Defined.

Lemma checkout_exclusive_witness :
  ∃ s, slots (end_of abandoned) !! 0 = Some s ∧ slot_count s = 1 ∧ metadata_count s = 1 ∧ channel s = None
    ∧ slots (end_of (abandoned ++ [Checkout])) = <[0 := hand_out s]> (slots (end_of abandoned)) ∧ pc (end_of (abandoned ++ [Checkout])) = Idle.
Proof.
  apply (checkout_exclusive (-1)%Z (end_of abandoned) (end_of (abandoned ++ [Checkout])) 0);
    [apply slots_end_reachable; vm_compute; by eexists|by vm_compute|by vm_compute].
Defined.
