(* ===== verification/Words.v ===== *)
(** * Words, limbs and bytes

    What the arithmetic of the Lighter signature code uses of the standard
    library's integers: wrapping and overflowing operations on [u64], and the
    little-endian byte encodings of words and of arrays of words.  A byte is a
    [Z] between 0 and 255, a multi-limb integer a list of [u64] with the least
    significant limb first. *)

From S2P Require Import Prelude.

Definition word_size : Z := 2 ^ 64.

Definition wrapping_sub (a b : Z) : Z := (a - b) mod 2 ^ 64.
Definition wrapping_mul (a b : Z) : Z := (a * b) mod 2 ^ 64.
Definition overflowing_add (a b : Z) : Z * bool := ((a + b) mod 2 ^ 64, 2 ^ 64 <=? a + b).
Definition overflowing_sub (a b : Z) : Z * bool := ((a - b) mod 2 ^ 64, a <? b).

(** [x as u64] of a wider word. *)
Definition as_u64 (x : Z) : Z := x mod 2 ^ 64.

Definition is_byte (x : Z) : Prop := 0 ≤ x < 256.

(** [u64::to_le_bytes] at [n = 8]. *)
Fixpoint to_le (n : nat) (x : Z) : list Z :=
  match n with
  | O => []
  | S n => x mod 256 :: to_le n (x / 256)
  end.

(** [u64::from_le_bytes]. *)
Fixpoint of_le (bytes : list Z) : Z :=
  match bytes with
  | [] => 0
  | b :: bytes => b + 256 * of_le bytes
  end.

(** The integer a little-endian array of limbs stands for. *)
Fixpoint limbs_val (limbs : list Z) : Z :=
  match limbs with
  | [] => 0
  | x :: limbs => x + 2 ^ 64 * limbs_val limbs
  end.

(** [slice.chunks(n)] for [0 < n]; the fuel is the length of the slice. *)
Fixpoint chunks_fuel {A} (fuel n : nat) (l : list A) : list (list A) :=
  match fuel, l with
  | _, [] | O, _ => []
  | S fuel, _ => take n l :: chunks_fuel fuel n (drop n l)
  end.

Definition chunks {A} (n : nat) (l : list A) : list (list A) := chunks_fuel (length l) n l.

(** [a[..k].copy_from_slice] into an array of [n] zero bytes, [length l ≤ n]. *)
Definition pad_to (n : nat) (l : list Z) : list Z := l ++ replicate (n - length l) 0.

(** Linear arithmetic with the quotients and remainders of words. *)
Ltac word_div :=
  unfold wrapping_add, wrapping_sub, wrapping_mul, overflowing_add, overflowing_sub, as_u64,
    is_u64, u64_max, is_byte in *;
  change (2 ^ 64) with 18446744073709551616 in *;
  Z.div_mod_to_equations; lia.

(** ** Bytes *)

Lemma to_le_length n x : length (to_le n x) = n.
Proof. revert x; induction n; intros; cbn; [done|]. by rewrite IHn. Qed.

Lemma to_le_bytes_ok n x : Forall is_byte (to_le n x).
Proof.
  revert x; induction n; intros; cbn; constructor; [|done].
  apply Z.mod_pos_bound. lia.
Qed.

Lemma of_to_le n x : 0 ≤ x < 256 ^ Z.of_nat n → of_le (to_le n x) = x.
Proof.
  revert x; induction n as [|n IH]; intros x Hx; cbn [to_le of_le]; [cbn in Hx; lia|].
  rewrite Nat2Z.inj_succ, Z.pow_succ_r in Hx by lia.
  rewrite IH; [pose proof (Z.div_mod x 256); lia|].
  split; [apply Z.div_pos; lia | apply Z.div_lt_upper_bound; lia].
Qed.

Lemma of_le_bound bytes :
  Forall is_byte bytes → 0 ≤ of_le bytes < 256 ^ Z.of_nat (length bytes).
Proof.
  unfold is_byte.
  induction 1 as [|b bytes Hb _ IH]; cbn [of_le length]; [done|].
  rewrite Nat2Z.inj_succ, Z.pow_succ_r by lia. lia.
Qed.

Lemma to_of_le bytes : Forall is_byte bytes → to_le (length bytes) (of_le bytes) = bytes.
Proof.
  unfold is_byte.
  induction 1 as [|b bytes Hb _ IH]; cbn [of_le length to_le]; [done|].
  rewrite (Z.mul_comm 256), Z.mod_add, Z.div_add, Z.mod_small, Z.div_small by lia.
  by rewrite Z.add_0_l, IH.
Qed.

Lemma u64_le_roundtrip x : is_u64 x → of_le (to_le 8 x) = x.
Proof. intros Hx. apply of_to_le. change (256 ^ Z.of_nat 8) with 18446744073709551616. word. Qed.

Lemma u64_of_le_u64 bytes : length bytes = 8%nat → Forall is_byte bytes → is_u64 (of_le bytes).
Proof.
  intros Hl Hb. pose proof (of_le_bound bytes Hb) as H. rewrite Hl in H.
  change (256 ^ Z.of_nat 8) with 18446744073709551616 in H. word.
Qed.

(** ** Limbs *)

Lemma limbs_val_app l1 l2 :
  limbs_val (l1 ++ l2) = limbs_val l1 + 2 ^ (64 * Z.of_nat (length l1)) * limbs_val l2.
Proof.
  induction l1 as [|x l1 IH]; cbn [limbs_val app length]; [change (2 ^ _) with 1; lia|].
  rewrite IH, Nat2Z.inj_succ. replace (64 * Z.succ _) with (64 + 64 * Z.of_nat (length l1)) by lia.
  rewrite Z.pow_add_r by lia. ring.
Qed.

Lemma limbs_val_bound l : Forall is_u64 l → 0 ≤ limbs_val l < 2 ^ (64 * Z.of_nat (length l)).
Proof.
  induction 1 as [|x l Hx _ IH]; cbn [limbs_val length]; [done|].
  rewrite Nat2Z.inj_succ. replace (64 * Z.succ _) with (64 + 64 * Z.of_nat (length l)) by lia.
  rewrite Z.pow_add_r by lia. unfold is_u64, u64_max in Hx.
  change (2 ^ 64) with 18446744073709551616. lia.
Qed.

(** An integer has one representation in a given number of limbs. *)
Lemma limbs_val_inj l1 l2 :
  length l1 = length l2 → Forall is_u64 l1 → Forall is_u64 l2 →
  limbs_val l1 = limbs_val l2 → l1 = l2.
Proof.
  intros Hl H1. revert l2 Hl. induction H1 as [|x l1 Hx H1 IH]; intros [|y l2] Hl H2 He; try done.
  apply Forall_cons in H2 as [Hy H2]. cbn [limbs_val] in He.
  unfold is_u64, u64_max in Hx, Hy. change (2 ^ 64) with 18446744073709551616 in He.
  assert (x = y ∧ limbs_val l1 = limbs_val l2) as [-> He'] by (Z.div_mod_to_equations; lia).
  f_equal. apply IH; [by injection Hl | done..].
Qed.

(** One turn of a loop, as an equation. *)
Lemma fold_left_cons {A B} (f : A → B → A) x l a : fold_left f (x :: l) a = fold_left f l (f a x).
Proof. done. Qed.

(** ** Chunks *)

Lemma chunks_fuel_concat {A} fuel n (l : list A) :
  (0 < n)%nat → (length l ≤ fuel)%nat → concat (chunks_fuel fuel n l) = l.
Proof.
  intros Hn. revert l; induction fuel as [|fuel IH]; intros [|x l] Hl; try done; [cbn in Hl; lia|].
  cbn [chunks_fuel concat]. rewrite IH; [apply take_drop|]. rewrite length_drop. cbn in *. lia.
Qed.

(** The chunks of a slice, in order, are the slice. *)
Lemma chunks_concat {A} n (l : list A) : (0 < n)%nat → concat (chunks n l) = l.
Proof. intros. by apply chunks_fuel_concat. Qed.

Lemma chunks_fuel_flat {A} fuel n (ll : list (list A)) :
  (0 < n)%nat → Forall (λ c, length c = n) ll → (length ll ≤ fuel)%nat →
  chunks_fuel fuel n (concat ll) = ll.
Proof.
  intros Hn. revert ll; induction fuel as [|fuel IH]; intros [|c ll] H Hl; try done; [cbn in Hl; lia|].
  apply Forall_cons in H as [Hc H]. cbn [concat].
  destruct (c ++ concat ll) as [|x r] eqn:E.
  { apply (f_equal length) in E. rewrite length_app, Hc in E. cbn in E. lia. }
  cbn [chunks_fuel]. rewrite <- E.
  rewrite take_app_length', drop_app_length' by done.
  by rewrite IH by (done || cbn in Hl; lia).
Qed.

Lemma chunks_flat {A} n (ll : list (list A)) :
  (0 < n)%nat → Forall (λ c, length c = n) ll → chunks n (concat ll) = ll.
Proof.
  intros Hn H. apply chunks_fuel_flat; [done..|].
  induction H as [|c ll Hc _ IH]; cbn; [lia|]. rewrite length_app. lia.
Qed.

Lemma pad_to_length n l : (length l ≤ n)%nat → length (pad_to n l) = n.
Proof. intros. unfold pad_to. rewrite length_app, length_replicate. lia. Qed.

Lemma pad_to_full n l : length l = n → pad_to n l = l.
Proof. intros. unfold pad_to. replace (n - length l)%nat with 0%nat by lia. apply app_nil_r. Qed.
