(* ===== verification/Goldilocks.v ===== *)
(** * The Goldilocks field

    [crates/hexagent-exchange/src/exchange/lighter/crypto/goldilocks.rs]: the
    prime field of p = 2^64 - 2^32 + 1 in Montgomery form.  A [GoldilocksField]
    is the [u64] it wraps; an element x of the field is stored as x * 2^64 mod p.

    The specification is the standard library's ring [Zmod p]: [gl a] is the
    field element a stored word stands for, and [a ⊨ x] says that the word is
    canonical (below p) and stands for [x].  Every operation of the source is
    shown to compute the operation of the ring under [⊨]; the database [gl]
    holds these facts, so that a straight-line formula over the field is
    evaluated by [gl_eval].  The field is shown to be one: p is prime. *)

From Stdlib Require Import Zmod.Zmod Zdivisibility.
From S2P Require Import Prelude Words.

Definition GOLDILOCKS_MODULUS : Z := 0xFFFFFFFF00000001.
Definition R_SQUARE : Z := 18446744065119617025.
Definition Q_INV_NEG : Z := 18446744069414584319.
Definition MONT_ONE : Z := 4294967295.
Definition MONT_TWO : Z := 8589934590.
Definition MONT_THREE : Z := 12884901885.

Module GoldilocksField.

Definition ZERO : Z := 0.
Definition ONE : Z := MONT_ONE.
Definition TWO : Z := MONT_TWO.
Definition THREE : Z := MONT_THREE.

Definition from_raw_mont (value : Z) : Z := value.

Definition is_zero (self : Z) : bool := self =? 0.

Definition reduce_simple (x : Z) : Z :=
  if GOLDILOCKS_MODULUS <=? x then x - GOLDILOCKS_MODULUS else x.

Definition mont_mul_raw (a b : Z) : Z :=
  let full := a * b in
  let lo := as_u64 full in
  let hi := as_u64 (Z.shiftr full 64) in
  let hi := if negb (lo =? 0) then wrapping_add hi 1 else hi in
  let m := wrapping_mul lo Q_INV_NEG in
  let hi2 := as_u64 (Z.shiftr (m * GOLDILOCKS_MODULUS) 64) in
  let '(r, carry) := overflowing_add hi2 hi in
  if carry || (GOLDILOCKS_MODULUS <=? r) then wrapping_sub r GOLDILOCKS_MODULUS else r.

Definition from_mont (mont_val : Z) : Z :=
  let m := wrapping_mul mont_val Q_INV_NEG in
  let product := m * GOLDILOCKS_MODULUS in
  let '(_lo, carry) := overflowing_add (as_u64 product) mont_val in
  let hi := as_u64 (Z.shiftr product 64) in
  let hi := if carry : bool then wrapping_add hi 1 else hi in
  if GOLDILOCKS_MODULUS <=? hi then wrapping_sub hi GOLDILOCKS_MODULUS else hi.

Definition new (value : Z) : Z := mont_mul_raw (reduce_simple value) R_SQUARE.

Definition from_u32 (value : Z) : Z := new value.

Definition to_u64 (self : Z) : Z := from_mont self.

Definition add (self rhs : Z) : Z :=
  let '(sum, overflow) := overflowing_add self rhs in
  let '(result, overflow2) :=
    if overflow : bool then overflowing_add sum 0xFFFFFFFF else (sum, false) in
  if overflow2 || (GOLDILOCKS_MODULUS <=? result)
  then wrapping_sub result GOLDILOCKS_MODULUS
  else result.

Definition sub (self rhs : Z) : Z :=
  let '(diff, underflow) := overflowing_sub self rhs in
  if underflow : bool then wrapping_add diff GOLDILOCKS_MODULUS else diff.

Definition mul (self rhs : Z) : Z := mont_mul_raw self rhs.

Definition neg (self : Z) : Z := if is_zero self then self else GOLDILOCKS_MODULUS - self.

(** [-value] on [i64] wraps at the smallest value, whose magnitude it then is. *)
Definition from_i64 (value : Z) : Z :=
  if 0 <=? value then new value else sub ZERO (new (as_u64 (- value))).

Definition square (self : Z) : Z := mul self self.
Definition double (self : Z) : Z := add self self.

Definition pow7 (self : Z) : Z :=
  let x2 := square self in
  let x3 := mul x2 self in
  let x6 := square x3 in
  mul x6 self.

(** The square-and-multiply loop of [inverse] and of [exp_base]: [exp] is halved
    until it is zero, so that one step per bit of the exponent is enough. *)
Fixpoint pow_loop (fuel : nat) (result base exp : Z) : Z :=
  match fuel with
  | O => result
  | S fuel =>
      if 0 <? exp then
        let result := if Z.land exp 1 =? 1 then mul result base else result in
        pow_loop fuel result (square base) (Z.shiftr exp 1)
      else result
  end.

Definition inverse (self : Z) : option Z :=
  if is_zero self then None
  else Some (pow_loop 64 ONE self (GOLDILOCKS_MODULUS - 2)).

Definition to_le_bytes (self : Z) : list Z := to_le 8 (to_u64 self).

(** [None]: the slice [bytes[..8]] is out of range and the code panics. *)
Definition from_le_bytes (bytes : list Z) : option Z :=
  if (8 <=? length bytes)%nat then Some (new (of_le (take 8 bytes))) else None.

End GoldilocksField.

Definition array_to_le_bytes (elements : list Z) : list Z :=
  concat (map GoldilocksField.to_le_bytes elements).

(** Each chunk is padded to eight bytes, so that [from_le_bytes] cannot panic. *)
Definition array_from_le_bytes (bytes : list Z) : list Z :=
  omap (λ chunk, GoldilocksField.from_le_bytes (pad_to 8 chunk)) (chunks 8 bytes).

Declare Scope gl_scope.
Delimit Scope gl_scope with gl.
#[global] Arguments GoldilocksField.add (self rhs)%_gl_scope.
#[global] Arguments GoldilocksField.sub (self rhs)%_gl_scope.
#[global] Arguments GoldilocksField.mul (self rhs)%_gl_scope.
#[global] Arguments GoldilocksField.neg self%_gl_scope.
#[global] Arguments GoldilocksField.square self%_gl_scope.
#[global] Arguments GoldilocksField.double self%_gl_scope.
Infix "+" := GoldilocksField.add : gl_scope.
Infix "-" := GoldilocksField.sub : gl_scope.
Infix "*" := GoldilocksField.mul : gl_scope.
Notation "- a" := (GoldilocksField.neg a) : gl_scope.

(** ** The field of the specification *)

Abbreviation p := GOLDILOCKS_MODULUS.
Abbreviation Fp := (Zmod p).

(** The inverse of 2^64 modulo p. *)
Definition R_INV : Z := 18446744065119617025.

Definition fp (x : Z) : Fp := Zmod.of_Z p x.

(** The element of the field a stored word stands for. *)
Definition gl (a : Z) : Fp := fp (a * R_INV).

Definition canonical (a : Z) : Prop := 0 ≤ a < p.

Record represents (a : Z) (x : Fp) : Prop := {
  rep_canonical : canonical a;
  rep_gl : gl a = x
}.
Infix "⊨" := represents (at level 70).

(** Unification compares applications of the field operations by their arguments
    before it looks into the words. *)
Strategy 1000 [GoldilocksField.mont_mul_raw GoldilocksField.from_mont GoldilocksField.mul
  GoldilocksField.add GoldilocksField.sub GoldilocksField.neg Zmod.add Zmod.mul Zmod.sub
  Zmod.opp Zmod.pow Zmod.of_Z].

Declare Scope fp_scope.
Delimit Scope fp_scope with fp.
Infix "+" := (@Zmod.add p) : fp_scope.
Infix "-" := (@Zmod.sub p) : fp_scope.
Infix "*" := (@Zmod.mul p) : fp_scope.
Infix "^" := (@Zmod.pow p) : fp_scope.
Notation "- x" := (@Zmod.opp p x) : fp_scope.
Notation "0" := (@Zmod.zero p) : fp_scope.
Notation "1" := (@Zmod.one p) : fp_scope.
Bind Scope fp_scope with Zmod.

(** ** Montgomery reduction *)

(** [R_INV] is the inverse of the Montgomery radix, [Q_INV_NEG] the negated
    inverse of p. *)
Lemma R_INV_ok : 2 ^ 64 * R_INV = 1 + (2 ^ 64 * R_INV / p) * p.
Proof. vm_compute. reflexivity. Qed.

Lemma Q_INV_NEG_ok : Q_INV_NEG * p = (Q_INV_NEG * p / 2 ^ 64 + 1) * 2 ^ 64 - 1.
Proof. vm_compute. reflexivity. Qed.

Lemma fp_eq_add_mul x y k : x = y + k * p → fp x = fp y.
Proof. intros ->. apply Zmod.of_Z_inj. apply Z.mod_add. done. Qed.

(** A word r with r * 2^64 = x (mod p) is x * R_INV. *)
Lemma fp_of_mont r x k : r * 2 ^ 64 = x + k * p → fp r = fp (x * R_INV).
Proof.
  intros H. symmetry.
  apply (fp_eq_add_mul _ _ (r * (2 ^ 64 * R_INV / p) - k * R_INV)).
  assert (x = r * 2 ^ 64 - k * p) as -> by lia.
  pose proof R_INV_ok. rewrite Z.mul_sub_distr_r, <- Z.mul_assoc, R_INV_ok at 1. lia.
Qed.

(** The word the reduction multiplies p by: it clears the low half. *)
Lemma redc_low lo :
  0 ≤ lo < 2 ^ 64 →
  let m := wrapping_mul lo Q_INV_NEG in
  0 ≤ m < 2 ^ 64 ∧
  lo + m * p = (m * p / 2 ^ 64 + if negb (lo =? 0) then 1 else 0) * 2 ^ 64.
Proof.
  intros Hlo m. assert (0 ≤ m < 2 ^ 64) as Hm by (apply Z.mod_pos_bound; done).
  split; [done|].
  assert (∃ t, lo + m * p = t * 2 ^ 64) as [t Ht].
  { exists (lo * (Q_INV_NEG * p / 2 ^ 64 + 1) - (lo * Q_INV_NEG / 2 ^ 64) * p).
    unfold m, wrapping_mul. rewrite (Z.mod_eq _ (2 ^ 64)) by done.
    rewrite Z.mul_sub_distr_r, <- (Z.mul_assoc lo), Q_INV_NEG_ok at 1. lia. }
  rewrite Ht. f_equal.
  pose proof (Z.div_mod (m * p) (2 ^ 64) ltac:(done)).
  pose proof (Z.mod_pos_bound (m * p) (2 ^ 64) ltac:(done)).
  destruct (Z.eqb_spec lo 0); cbn [negb]; lia.
Qed.

Lemma shiftr64 x : Z.shiftr x 64 = x / 2 ^ 64.
Proof. by rewrite Z.shiftr_div_pow2. Qed.

(** Montgomery multiplication: with a product below p * 2^64 the result is
    canonical and its product with the radix is a * b modulo p. *)
Lemma mont_mul_raw_spec a b r :
  0 ≤ a → 0 ≤ b → a * b < p * 2 ^ 64 → GoldilocksField.mont_mul_raw a b = r →
  canonical r ∧ ∃ k, r * 2 ^ 64 = a * b + k * p.
Proof.
  intros Ha Hb Hab. unfold GoldilocksField.mont_mul_raw.
  rewrite !shiftr64. unfold as_u64 at 1 2.
  pose proof (Z.div_mod (a * b) (2 ^ 64) ltac:(done)) as Hdm.
  pose proof (Z.mod_pos_bound (a * b) (2 ^ 64) ltac:(done)) as Hlo.
  assert (0 ≤ a * b) as Hab0 by lia.
  set (lo := (a * b) mod 2 ^ 64) in *. set (hi := a * b / 2 ^ 64) in *.
  destruct (redc_low lo Hlo) as [Hm Hred]. set (m := wrapping_mul lo Q_INV_NEG) in *.
  cbv zeta in *.
  assert (0 ≤ hi < p) as Hhi.
  { split; [apply Z.div_pos; lia|]. apply Z.div_lt_upper_bound; lia. }
  assert (0 ≤ m * p / 2 ^ 64 < p) as Hhi2.
  { split; [apply Z.div_pos; unfold p; lia|]. apply Z.div_lt_upper_bound; [lia|]. unfold p in *. nia. }
  set (hi2 := m * p / 2 ^ 64) in *.
  set (c := if negb (lo =? 0) then 1 else 0) in *.
  assert (0 ≤ c ≤ 1) as Hc by (unfold c; destruct (negb _); lia).
  replace (if negb (lo =? 0) then _ else _) with (hi + c).
  2: { unfold c, wrapping_add, as_u64, p in *. rewrite (Z.mod_small hi) by lia.
       destruct (negb _); [|lia]. rewrite Z.mod_small; lia. }
  unfold as_u64. rewrite (Z.mod_small hi2) by (unfold p in *; lia).
  unfold overflowing_add, wrapping_sub, canonical.
  assert ((hi2 + (hi + c)) * 2 ^ 64 = a * b + m * p) as Hk by lia.
  assert (m * p < 2 ^ 64 * p) as Hmp by (apply Z.mul_lt_mono_pos_r; [done|lia]).
  assert (hi2 + (hi + c) < 2 * p) as Hs by lia.
  set (s := hi2 + (hi + c)) in *.
  assert (0 ≤ s) by lia. clearbody s. clear - Hk Hs H.
  destruct (_ || _) eqn:E; intros <-.
  - assert (p ≤ s ∧ (s mod 2 ^ 64 - p) mod 2 ^ 64 = s - p) as [? ->].
    { unfold p in *. change (2 ^ 64) with 18446744073709551616 in *.
      apply orb_true_iff in E as [E|E]; apply Z.leb_le in E; Z.div_mod_to_equations; lia. }
    split; [lia|]. exists (m - 2 ^ 64). lia.
  - apply orb_false_iff in E as [E1 E2]. apply Z.leb_gt in E1, E2.
    rewrite Z.mod_small in * by lia. split; [lia|]. by exists m.
Qed.

(** ** The representation *)

Lemma fp_0 : fp 0 = 0%fp. Proof. apply Zmod.of_Z_0. Qed.
Lemma fp_1 : fp 1 = 1%fp. Proof. apply Zmod.of_Z_1. Qed.
Lemma fp_p : fp p = 0%fp. Proof. rewrite <- fp_0. by apply (fp_eq_add_mul _ _ 1). Qed.
Lemma fp_add x y : fp (x + y) = (fp x + fp y)%fp. Proof. apply Zmod.of_Z_add. Qed.
Lemma fp_sub x y : fp (x - y) = (fp x - fp y)%fp. Proof. apply Zmod.of_Z_sub. Qed.
Lemma fp_mul x y : fp (x * y) = (fp x * fp y)%fp. Proof. apply Zmod.of_Z_mul. Qed.
Lemma fp_opp x : fp (- x) = (- fp x)%fp. Proof. apply Zmod.of_Z_opp. Qed.

(** The [ring] tactic on the field: literals [fp n] are computed modulo p, powers
    with literal exponents are unfolded. *)
Definition fp_eqb (x y : Z) : bool := (x - y) mod p =? 0.

Lemma fp_eqb_ok x y : fp_eqb x y = true → fp x = fp y.
Proof.
  unfold fp_eqb. rewrite Z.eqb_eq. intros H.
  apply (fp_eq_add_mul _ _ ((x - y) / p)). pose proof (Z.div_mod (x - y) p ltac:(done)). lia.
Qed.

Lemma fp_morph :
  ring_morph 0%fp 1%fp Zmod.add Zmod.mul Zmod.sub Zmod.opp eq 0 1 Z.add Z.mul Z.sub Z.opp fp_eqb fp.
Proof. split; auto using fp_0, fp_1, fp_add, fp_sub, fp_mul, fp_opp, fp_eqb_ok. Qed.

Lemma fp_power : power_theory 1%fp Zmod.mul eq Z.of_N (@Zmod.pow p).
Proof.
  constructor. intros x n. destruct n as [|n]; [apply Zmod.pow_0_r|].
  cbn [pow_N Z.of_N].
  induction n as [|n IH] using Pos.peano_ind; [apply Zmod.pow_1_r|].
  rewrite Pos2Z.inj_succ, Zmod.pow_succ_nonneg_r, IH by lia.
  symmetry. apply (pow_pos_succ (Eqsth Fp)); [by intros ?? -> ?? ->|]. apply Zmod.mul_assoc.
Qed.

Ltac fp_cst t :=
  match t with
  | fp ?n => let c := isZcst n in match c with true => constr:(n) | _ => constr:(InitialRing.NotConstant) end
  | @Zmod.zero _ => constr:(0%Z)
  | @Zmod.one _ => constr:(1%Z)
  | _ => constr:(InitialRing.NotConstant)
  end.

Add Ring Fp_ring : (Zmod.ring_theory p)
  (morphism fp_morph, constants [fp_cst], power_tac fp_power [Zpow_tac]).

Lemma gl_alt a : gl a = (fp a * fp R_INV)%fp.
Proof. apply fp_mul. Qed.

Lemma fp_radix_inv : (fp (2 ^ 64) * fp R_INV = 1)%fp.
Proof. rewrite <- fp_mul, <- fp_1. eapply fp_eq_add_mul, R_INV_ok. Qed.

Lemma gl_radix a : (gl a * fp (2 ^ 64) = fp a)%fp.
Proof. rewrite gl_alt. pose proof fp_radix_inv as H. ring [H]. Qed.

(** Distinct canonical words stand for distinct elements. *)
Lemma represents_unique a b x : a ⊨ x → b ⊨ x → a = b.
Proof.
  intros [Ha <-] [Hb Hab]. apply (f_equal (λ y, y * fp (2 ^ 64))%fp) in Hab.
  rewrite !gl_radix in Hab. apply Zmod.of_Z_inj in Hab.
  unfold canonical in *. by rewrite !Z.mod_small in Hab.
Qed.

Lemma represents_u64 a x : a ⊨ x → is_u64 a.
Proof. intros [H _]. unfold canonical, p in H. word. Qed.

Lemma canonical_gl a : canonical a → a ⊨ gl a.
Proof. done. Qed.

Lemma rep_eq a x y : a ⊨ x → x = y → a ⊨ y.
Proof. by intros ? <-. Qed.

Lemma rep_ZERO : GoldilocksField.ZERO ⊨ 0%fp.
Proof. split; [done|]. by rewrite <- fp_0. Qed.

Lemma rep_small a n : canonical a → fp a = fp (n * 2 ^ 64) → a ⊨ fp n.
Proof.
  intros Ha H. split; [done|]. rewrite gl_alt, H, fp_mul.
  pose proof fp_radix_inv as H'. ring [H'].
Qed.

Lemma rep_ONE : GoldilocksField.ONE ⊨ 1%fp.
Proof. rewrite <- fp_1. by apply rep_small. Qed.
Lemma rep_TWO : GoldilocksField.TWO ⊨ fp 2.
Proof. by apply rep_small. Qed.
Lemma rep_THREE : GoldilocksField.THREE ⊨ fp 3.
Proof. by apply rep_small. Qed.

(** The product of a word with a canonical one is canonical, whether the word
    is or not. *)
Lemma mont_mul_raw_rep a b :
  is_u64 a → canonical b → GoldilocksField.mont_mul_raw a b ⊨ (gl a * gl b)%fp.
Proof.
  intros Ha Hb. unfold is_u64, u64_max, canonical in *.
  destruct (mont_mul_raw_spec a b (GoldilocksField.mont_mul_raw a b)) as [Hc [k Hk]]; [lia|lia|unfold p in *; nia|done|].
  split; [done|]. apply fp_of_mont in Hk. rewrite !gl_alt, Hk, !fp_mul. ring.
Qed.

Lemma rep_mul a b x y : a ⊨ x → b ⊨ y → (a * b)%gl ⊨ (x * y)%fp.
Proof.
  intros Ha [Hb <-]. pose proof (represents_u64 _ _ Ha). destruct Ha as [_ <-].
  by apply mont_mul_raw_rep.
Qed.

Lemma rep_square a x : a ⊨ x → GoldilocksField.square a ⊨ (x * x)%fp.
Proof. intros H. exact (rep_mul a a x x H H). Qed.

Lemma rep_reduce a b x : canonical b → b = a ∨ b + p = a ∨ b = a + p → gl a = x → b ⊨ x.
Proof.
  intros Hb H <-. split; [done|]. rewrite !gl_alt. f_equal.
  destruct H as [->| [<- | ->]]; rewrite ?fp_add, ?fp_p; [done|ring|ring].
Qed.

Lemma rep_add a b x y : a ⊨ x → b ⊨ y → (a + b)%gl ⊨ (x + y)%fp.
Proof.
  intros [Ha <-] [Hb <-]. apply (rep_reduce (a + b)).
  3: rewrite !gl_alt, fp_add; ring.
  all: unfold GoldilocksField.add, canonical, overflowing_add, wrapping_sub, p in *;
    change (2 ^ 64) with 18446744073709551616;
    destruct (_ <=? a + b) eqn:E1; destruct (_ || _) eqn:E2;
    apply orb_true_iff in E2 || apply orb_false_iff in E2; Z.div_mod_to_equations; lia.
Qed.

Lemma rep_double a x : a ⊨ x → GoldilocksField.double a ⊨ (x + x)%fp.
Proof. intros H. exact (rep_add a a x x H H). Qed.

Lemma rep_sub a b x y : a ⊨ x → b ⊨ y → (a - b)%gl ⊨ (x - y)%fp.
Proof.
  intros [Ha <-] [Hb <-]. apply (rep_reduce (a - b)).
  3: rewrite !gl_alt, fp_sub; ring.
  all: unfold GoldilocksField.sub, canonical, overflowing_sub, wrapping_add, p in *;
    change (2 ^ 64) with 18446744073709551616;
    destruct (a <? b) eqn:E1; Z.div_mod_to_equations; lia.
Qed.

Lemma rep_neg a x : a ⊨ x → (- a)%gl ⊨ (- x)%fp.
Proof.
  intros [Ha <-]. apply (rep_reduce (- a)).
  3: rewrite !gl_alt; replace (- a)%Z with (0 - a)%Z by lia; rewrite fp_sub, fp_0; ring.
  all: unfold GoldilocksField.neg, GoldilocksField.is_zero, canonical, p in *;
    destruct (a =? 0) eqn:E1; lia.
Qed.

Lemma reduce_simple_ok v :
  is_u64 v → canonical (GoldilocksField.reduce_simple v) ∧ fp (GoldilocksField.reduce_simple v) = fp v.
Proof.
  intros Hv. unfold GoldilocksField.reduce_simple, canonical.
  destruct (p <=? v) eqn:E; unfold p, is_u64, u64_max in *; (split; [lia|]); [|done].
  by apply (fp_eq_add_mul _ _ (-1)).
Qed.

Lemma rep_new v : is_u64 v → GoldilocksField.new v ⊨ fp v.
Proof.
  intros Hv. destruct (reduce_simple_ok v Hv) as [Hc He].
  unfold GoldilocksField.new. eapply rep_eq; [apply mont_mul_raw_rep|].
  - unfold canonical, p in Hc. word.
  - done.
  - rewrite gl_alt, He. assert (gl R_SQUARE = fp (2 ^ 64)) as -> by reflexivity.
    pose proof fp_radix_inv as H. ring [H].
Qed.

Lemma from_mont_spec a :
  is_u64 a → canonical (GoldilocksField.from_mont a) ∧ fp (GoldilocksField.from_mont a) = gl a.
Proof.
  intros Ha. unfold GoldilocksField.from_mont. rewrite shiftr64.
  assert (0 ≤ a < 2 ^ 64) as Ha' by (unfold is_u64, u64_max in Ha; lia).
  destruct (redc_low a Ha') as [Hm Hred]. cbv zeta in *.
  set (m := wrapping_mul a Q_INV_NEG) in *. clearbody m.
  pose proof (Z.div_mod (m * p) (2 ^ 64) ltac:(done)) as Hdm.
  pose proof (Z.mod_pos_bound (m * p) (2 ^ 64) ltac:(done)) as Hlo.
  unfold overflowing_add, as_u64, wrapping_add, wrapping_sub.
  assert (0 ≤ m * p / 2 ^ 64 < p) as Hhi2.
  { split; [apply Z.div_pos; unfold p; lia|]. apply Z.div_lt_upper_bound; [lia|]. unfold p in *. nia. }
  set (hi2 := m * p / 2 ^ 64) in *. set (lo := (m * p) mod 2 ^ 64) in *. clearbody hi2 lo.
  replace (2 ^ 64 <=? lo + a) with (negb (a =? 0)).
  2: { destruct (Z.eqb_spec a 0); cbn [negb] in *; symmetry; lia. }
  rewrite (Z.mod_small hi2) by (unfold p in *; lia).
  set (h := if negb (a =? 0) then (hi2 + 1) mod 2 ^ 64 else hi2).
  assert (h * 2 ^ 64 = a + m * p) as Hh.
  { unfold h. rewrite Hred. destruct (negb _); [|lia]. rewrite Z.mod_small; [done|]. unfold p in *; lia. }
  assert (0 ≤ h ≤ p) by (unfold p in *; lia).
  apply fp_of_mont in Hh. unfold gl. rewrite <- Hh. unfold canonical.
  destruct (p <=? h) eqn:E; [|split; [lia|done]].
  assert (h = p) as -> by lia. rewrite Z.sub_diag, Z.mod_0_l by done. by rewrite fp_p, fp_0.
Qed.

(** [to_u64] is the canonical integer of the element, for any stored word. *)
Lemma to_u64_spec a : is_u64 a → GoldilocksField.to_u64 a = Zmod.to_Z (gl a).
Proof.
  intros Ha. destruct (from_mont_spec a Ha) as [Hc He]. rewrite <- He.
  unfold fp. rewrite Zmod.to_Z_of_Z. symmetry. by apply Z.mod_small.
Qed.

Lemma to_u64_rep a x : a ⊨ x → GoldilocksField.to_u64 a = Zmod.to_Z x.
Proof. intros H. rewrite to_u64_spec by by eapply represents_u64. by destruct H as [_ ->]. Qed.

Lemma is_zero_rep a x : a ⊨ x → GoldilocksField.is_zero a = true ↔ x = 0%fp.
Proof.
  intros H. unfold GoldilocksField.is_zero. rewrite Z.eqb_eq. split.
  - intros ->. destruct H as [_ <-]. by rewrite <- fp_0.
  - intros ->. apply (represents_unique _ _ _ H rep_ZERO).
Qed.

Lemma is_zero_rep_false a x : a ⊨ x → GoldilocksField.is_zero a = false ↔ x ≠ 0%fp.
Proof. intros H. rewrite <- (is_zero_rep a x H). destruct (GoldilocksField.is_zero a); naive_solver. Qed.

Lemma pow_loop_rep fuel r b e x y :
  r ⊨ x → b ⊨ y → 0 ≤ e < 2 ^ Z.of_nat fuel →
  GoldilocksField.pow_loop fuel r b e ⊨ (x * y ^ e)%fp.
Proof.
  revert r b e x y. induction fuel as [|fuel IH]; intros r b e x y Hr Hb He; cbn [GoldilocksField.pow_loop].
  { assert (e = 0) as -> by (cbn in He; lia). eapply rep_eq; [done|]. rewrite Zmod.pow_0_r. ring. }
  rewrite Nat2Z.inj_succ, Z.pow_succ_r in He by lia.
  destruct (0 <? e) eqn:E; bool_hyps.
  2: { assert (e = 0) as -> by lia. eapply rep_eq; [done|]. rewrite Zmod.pow_0_r. ring. }
  rewrite Z.shiftr_div_pow2 by done. change (2 ^ 1) with 2.
  change 1 with (Z.ones 1) at 1. rewrite Z.land_ones by done. change (2 ^ 1) with 2.
  pose proof (Z.div_mod e 2 ltac:(done)) as Hdm. pose proof (Z.mod_pos_bound e 2 ltac:(done)).
  assert (0 ≤ e / 2 < 2 ^ Z.of_nat fuel) as Hh
    by (split; [apply Z.div_pos; lia | apply Z.div_lt_upper_bound; lia]).
  assert (∀ n, 0 ≤ n → (y * y) ^ n = y ^ (2 * n))%fp as Hpow.
  { intros n Hn. rewrite Zmod.pow_mul_r_nonneg by lia. by rewrite Zmod.pow_2_r. }
  destruct (e mod 2 =? 1) eqn:E2; bool_hyps; (eapply rep_eq;
    [apply IH; [eauto using rep_mul | by apply rep_square | done]|]); rewrite Hpow by lia.
  - rewrite Hdm at 2. rewrite E2, Zmod.pow_add_r_nonneg, Zmod.pow_1_r by lia. ring.
  - rewrite Hdm at 2. assert (e mod 2 = 0) as -> by lia. by rewrite Z.add_0_r.
Qed.

(** The value of a formula over the field, by its structure; the leaves are known
    representations or facts of the database. *)
Ltac gl_eval :=
  lazymatch goal with
  | |- (_ + _)%gl ⊨ _ => apply rep_add; gl_eval
  | |- (_ - _)%gl ⊨ _ => apply rep_sub; gl_eval
  | |- (_ * _)%gl ⊨ _ => apply rep_mul; gl_eval
  | |- (- _)%gl ⊨ _ => apply rep_neg; gl_eval
  | |- GoldilocksField.square _ ⊨ _ => apply rep_square; gl_eval
  | |- GoldilocksField.double _ ⊨ _ => apply rep_double; gl_eval
  | |- GoldilocksField.new _ ⊨ _ => solve [eassumption | apply rep_new; word]
  | |- _ => solve [eassumption | eauto with gl]
  end.

Create HintDb gl.
#[export] Hint Resolve rep_mul rep_add rep_sub rep_neg rep_square rep_double rep_new
  rep_ZERO rep_ONE rep_TWO rep_THREE : gl.

(** ** p is prime

    p - 1 = 2^32 * (2^32 - 1) and 7^((p-1)/2) = -1 modulo p, so that 2^32 divides
    q - 1 for every prime factor q of p (Proth's argument): q is then above the
    square root of p. *)

Lemma odd_part n : 0 < n → ∃ j o, 0 ≤ j ∧ 0 ≤ o ∧ n = 2 ^ j * (2 * o + 1).
Proof.
  intros Hn. assert (0 ≤ n) as Hn0 by lia. revert Hn. pattern n.
  apply Zlt_0_ind; [clear n Hn0; intros n IH _ Hn | done].
  pose proof (Z.div_mod n 2 ltac:(done)) as Hdm.
  pose proof (Z.mod_pos_bound n 2 ltac:(done)) as Hb.
  destruct (decide (n mod 2 = 1)).
  - exists 0, (n / 2). rewrite Z.pow_0_r. lia.
  - destruct (IH (n / 2)) as (j & o & Hj & Ho & He); [lia|lia|].
    exists (Z.succ j), o. rewrite Z.pow_succ_r by done. lia.
Qed.

(** Over a prime q > 2, an element with x^(h * 2^k) = -1 forces 2^(k+1) | q - 1. *)
Lemma proth_factor q h k (x : Zmod q) :
  Z.prime q → 2 < q → 0 ≤ h → 0 ≤ k → Zmod.pow x (h * 2 ^ k) = Zmod.opp Zmod.one →
  2 ^ (k + 1) ≤ q - 1.
Proof.
  intros Hq Hq2 Hh Hk Hx.
  assert (Hm1 : Zmod.opp Zmod.one ≠ @Zmod.one q).
  { intros H%(f_equal Zmod.to_Z). rewrite Zmod.to_Z_opp, Zmod.to_Z_1_pos in H by lia.
    rewrite Z.mod_opp_l_nz, Z.mod_small in H by (rewrite ?Z.mod_small; lia). lia. }
  destruct (odd_part (q - 1)) as (j & o & Hj & Ho & Heq); [lia|].
  destruct (decide (k < j)) as [Hkj|Hkj].
  { pose proof (Z.pow_le_mono_r 2 (k + 1) j). nia. }
  exfalso. apply Hm1.
  assert (x ≠ Zmod.zero) as Hx0.
  { intros ->. destruct (decide (h = 0)) as [->|].
    - rewrite Z.mul_0_l, Zmod.pow_0_r in Hx. congruence.
    - rewrite Zmod.pow_0_l in Hx by (pose proof (Z.pow_pos_nonneg 2 k); lia).
      apply (f_equal Zmod.opp) in Hx. rewrite Zmod.opp_opp, Zmod.opp_0 in Hx.
      symmetry in Hx. revert Hx. apply Zmod.one_neq_zero. lia. }
  assert (Zmod.pow x (h * 2 ^ k * (2 * o + 1)) = Zmod.opp Zmod.one) as H1.
  { rewrite Zmod.pow_mul_r_nonneg, Hx by lia.
    rewrite Zmod.pow_add_r_nonneg, Zmod.pow_1_r, Zmod.pow_mul_r_nonneg, Zmod.pow_2_r by lia.
    by rewrite Zmod.mul_opp_opp, Zmod.mul_1_l, Zmod.pow_1_l, Zmod.mul_1_l. }
  rewrite <- H1.
  replace (h * 2 ^ k * (2 * o + 1)) with ((q - 1) * (h * 2 ^ (k - j))).
  2: { rewrite Heq. replace k with (j + (k - j)) at 2 by lia. rewrite Z.pow_add_r by lia. ring. }
  rewrite Zmod.pow_mul_r_nonneg by (pose proof (Z.pow_pos_nonneg 2 (k - j)); lia).
  replace (q - 1) with (Z.pred q) by lia. by rewrite (Zmod.fermat_nz x Hx0 Hq), Zmod.pow_1_l.
Qed.

Lemma prime_factor n : 1 < n → ∃ q, Z.prime q ∧ (q | n).
Proof.
  intros Hn. assert (0 ≤ n) as Hn0 by lia. revert Hn. pattern n.
  apply Zlt_0_ind; [clear n Hn0; intros n IH _ Hn | done].
  destruct (Znumtheory.prime_dec n) as [Hp|Hp].
  { exists n. split; [by apply Znumtheory.prime_alt | done]. }
  destruct (Znumtheory.not_prime_divide n Hn Hp) as (m & Hm & Hd).
  destruct (IH m) as (q & Hq & Hqm); [lia|lia|]. exists q. split; [done|]. by etrans.
Qed.

Lemma seven_nonresidue : Zmod.pow (fp 7) ((2 ^ 32 - 1) * 2 ^ 31) = fp (-1).
Proof. apply Zmod.to_Z_inj. vm_compute. reflexivity. Qed.

Lemma p_prime_factors q : Z.prime q → (q | p) → 2 ^ 32 ≤ q - 1.
Proof.
  intros Hq Hqp. apply (proth_factor q (2 ^ 32 - 1) 31 (Zmod.of_Z q 7)); [done| |done..|].
  - pose proof (Z.prime_ge_2 q Hq). destruct (decide (q = 2)) as [->|]; [|lia].
    destruct Hqp as [k Hk]. unfold p in Hk. lia.
  - pose proof (f_equal Zmod.to_Z seven_nonresidue) as H.
    unfold fp in H. rewrite <- Zmod.of_Z_pow, !Zmod.to_Z_of_Z in H by done.
    rewrite <- Zmod.of_Z_pow, <- Zmod.of_Z_m1 by done.
    remember (7 ^ ((2 ^ 32 - 1) * 2 ^ 31)) as N eqn:HN. clear HN.
    destruct Hqp as [c Hc]. apply Zmod.of_Z_inj. change (-1 mod p) with (p - 1) in H.
    pose proof (Z.div_mod N p ltac:(done)) as Hdm. rewrite H in Hdm.
    pose proof (Z.prime_ge_2 q Hq).
    generalize dependent (N / p). intros t Hdm. rewrite Hc in Hdm.
    replace N with (-1 + c * (t + 1) * q) by lia. apply Z.mod_add. lia.
Qed.

Lemma p_prime : Z.prime p.
Proof.
  apply Znumtheory.prime_alt. destruct (Znumtheory.prime_dec p) as [|Hn]; [done|exfalso].
  destruct (Znumtheory.not_prime_divide p ltac:(done) Hn) as (n & Hn1 & [m Hm]).
  assert (∃ d, 1 < d ∧ d * d ≤ p ∧ (d | p)) as (d & Hd1 & Hd2 & Hd).
  { destruct (decide (n ≤ m)); [exists n | exists m]; (split_and!; [nia|nia|]).
    - by exists m.
    - exists n. lia. }
  destruct (prime_factor d Hd1) as (q & Hq & Hqd).
  pose proof (p_prime_factors q Hq (Z.divide_trans _ _ _ Hqd Hd)).
  apply Z.divide_pos_le in Hqd; [|lia]. unfold p in *. nia.
Qed.

#[export] Instance Fp_eq_dec : EqDecision Fp.
Proof.
  intros x y. destruct (decide (Zmod.to_Z x = Zmod.to_Z y)) as [H|H].
  - left. by apply Zmod.to_Z_inj.
  - right. by intros ->.
Defined.

(** ** What the operations compute *)

Lemma fp_inverse x : x ≠ 0%fp → (x * x ^ (p - 2) = 1)%fp.
Proof.
  intros Hx. rewrite (Zmod.fermat_inv x Hx p_prime).
  by apply Zmod.mul_inv_same_r_prime, Hx; [exact p_prime].
Qed.

Lemma fp_integral x y : (x * y = 0)%fp → x = 0%fp ∨ y = 0%fp.
Proof. apply (Zmod.mul_0_iff_prime p_prime). Qed.

Lemma rep_pow7 a x : a ⊨ x → GoldilocksField.pow7 a ⊨ (x ^ 7)%fp.
Proof.
  intros H. unfold GoldilocksField.pow7. eapply rep_eq; [gl_eval|].
  ring.
Qed.

#[export] Hint Resolve rep_pow7 : gl.

Lemma inverse_rep a x :
  a ⊨ x →
  match GoldilocksField.inverse a with
  | None => x = 0%fp
  | Some i => x ≠ 0%fp ∧ i ⊨ (x ^ (p - 2))%fp
  end.
Proof.
  intros H. unfold GoldilocksField.inverse.
  destruct (GoldilocksField.is_zero a) eqn:E; [by apply (is_zero_rep _ _ H)|].
  split; [by apply (is_zero_rep_false _ _ H)|].
  eapply rep_eq; [by apply pow_loop_rep; [apply rep_ONE | exact H |]|]. ring.
Qed.

Lemma from_i64_rep v : - 2 ^ 63 ≤ v < 2 ^ 63 → GoldilocksField.from_i64 v ⊨ fp v.
Proof.
  intros Hv. unfold GoldilocksField.from_i64. destruct (0 <=? v) eqn:E; bool_hyps.
  { apply rep_new. unfold is_u64, u64_max. lia. }
  unfold as_u64. rewrite Z.mod_small by lia.
  eapply rep_eq; [apply rep_sub; [apply rep_ZERO | apply rep_new]|].
  - unfold is_u64, u64_max. lia.
  - rewrite fp_opp. ring.
Qed.

Lemma new_to_u64 a : canonical a → GoldilocksField.new (GoldilocksField.to_u64 a) = a.
Proof.
  intros Ha. assert (is_u64 a) as Hu by (unfold canonical, p in Ha; word).
  destruct (from_mont_spec a Hu) as [Hc He]. unfold GoldilocksField.to_u64.
  eapply represents_unique; [apply rep_new|].
  - unfold canonical, p in Hc. word.
  - rewrite He. by constructor.
Qed.

Lemma to_u64_range a : is_u64 a → canonical (GoldilocksField.to_u64 a).
Proof. apply from_mont_spec. Qed.

Lemma to_u64_new v : is_u64 v → GoldilocksField.to_u64 (GoldilocksField.new v) = v mod p.
Proof. intros Hv. by rewrite (to_u64_rep _ _ (rep_new v Hv)), Zmod.to_Z_of_Z. Qed.

Lemma le_bytes_roundtrip a :
  canonical a → GoldilocksField.from_le_bytes (GoldilocksField.to_le_bytes a) = Some a.
Proof.
  intros Ha. unfold GoldilocksField.from_le_bytes, GoldilocksField.to_le_bytes.
  rewrite to_le_length. cbn [Nat.leb]. rewrite take_ge by (rewrite to_le_length; lia).
  rewrite u64_le_roundtrip; [by rewrite new_to_u64|].
  assert (is_u64 a) as Hu by (unfold canonical, p in Ha; word).
  pose proof (to_u64_range a Hu) as Hc. unfold canonical, p in Hc. word.
Qed.

(** C39: Type invariant and functional correctness of the field operations.  On
    canonical words (below p) every operation returns a canonical word, and what
    it stands for is the sum, difference, product, negation, seventh power or
    double of what the operands stand for in the ring of integers modulo p. *)
Theorem field_ops_correct a b :
  canonical a → canonical b →
  (a + b)%gl ⊨ (gl a + gl b)%fp ∧
  (a - b)%gl ⊨ (gl a - gl b)%fp ∧
  (a * b)%gl ⊨ (gl a * gl b)%fp ∧
  (- a)%gl ⊨ (- gl a)%fp ∧
  GoldilocksField.square a ⊨ (gl a ^ 2)%fp ∧
  GoldilocksField.double a ⊨ (fp 2 * gl a)%fp ∧
  GoldilocksField.pow7 a ⊨ (gl a ^ 7)%fp.
Proof.
  intros Ha%canonical_gl Hb%canonical_gl. split_and!; eauto with gl.
  - eapply rep_eq; [gl_eval|]. ring.
  - eapply rep_eq; [gl_eval|]. ring.
Qed.

Lemma field_ops_correct_witness :
  canonical (p - 1) ∧ canonical 4294967295 ∧
  ((p - 1)%Z * 4294967295)%gl ⊨ (gl (p - 1) * gl 4294967295)%fp.
Proof.
  split; [done|]. split; [done|].
  exact (proj1 (proj2 (proj2 (field_ops_correct (p - 1) 4294967295 ltac:(done) ltac:(done))))).
Defined.

(** Inversion.  [inverse] refuses exactly the zero element, and otherwise
    returns the canonical word of the multiplicative inverse; the loop runs for
    at most 64 steps. *)
Theorem inverse_correct a :
  canonical a →
  match GoldilocksField.inverse a with
  | None => a = 0
  | Some i => canonical i ∧ (gl a * gl i = 1)%fp ∧ (a * i)%gl = GoldilocksField.ONE
  end.
Proof.
  intros Ha%canonical_gl. pose proof (inverse_rep a _ Ha) as H.
  destruct (GoldilocksField.inverse a) as [i|].
  - destruct H as [Hx Hi]. pose proof (fp_inverse _ Hx) as Hinv.
    split_and!; [apply Hi | by rewrite (rep_gl _ _ Hi) |].
    eapply represents_unique; [|apply rep_ONE]. eapply rep_eq; [gl_eval | done].
  - apply (represents_unique _ _ _ Ha). rewrite H. apply rep_ZERO.
Qed.

Lemma inverse_correct_witness :
  match GoldilocksField.inverse 12884901885 with
  | None => 12884901885 = 0
  | Some i => canonical i ∧ (gl 12884901885 * gl i = 1)%fp ∧ (12884901885 * i)%gl = GoldilocksField.ONE
  end.
Proof. apply inverse_correct. done. Defined.

Lemma array_to_le_chunks l :
  Forall canonical l → chunks 8 (array_to_le_bytes l) = map GoldilocksField.to_le_bytes l.
Proof.
  intros H. apply chunks_flat; [lia|]. apply Forall_map, Forall_forall.
  intros a _. apply to_le_length.
Qed.

(** Round trips.  A word is converted to its residue and back; canonical
    elements survive the conversion to an integer, to eight bytes, and in arrays
    of any length; integers of [i64] are embedded with their sign. *)
Theorem conversion_roundtrip v i l :
  is_u64 v → - 2 ^ 63 ≤ i < 2 ^ 63 → Forall canonical l →
  GoldilocksField.to_u64 (GoldilocksField.new v) = v mod p ∧
  GoldilocksField.to_u64 (GoldilocksField.from_i64 i) = i mod p ∧
  map (GoldilocksField.new ∘ GoldilocksField.to_u64) l = l ∧
  array_from_le_bytes (array_to_le_bytes l) = l.
Proof.
  intros Hv Hi Hl. split_and!.
  - by apply to_u64_new.
  - by rewrite (to_u64_rep _ _ (from_i64_rep i Hi)), Zmod.to_Z_of_Z.
  - rewrite <- (map_id l) at 2. apply map_ext_Forall.
    eapply Forall_impl; [exact Hl|]. intros a Ha. by apply new_to_u64.
  - unfold array_from_le_bytes. rewrite array_to_le_chunks by done.
    induction Hl as [|a l Ha _ IH]; cbn [map omap list_omap]; [done|].
    rewrite pad_to_full, le_bytes_roundtrip by (apply to_le_length || done). by f_equal.
Qed.

Lemma conversion_roundtrip_witness :
  GoldilocksField.to_u64 (GoldilocksField.new u64_max) = u64_max mod p ∧
  GoldilocksField.to_u64 (GoldilocksField.from_i64 (- 2 ^ 63)) = (- 2 ^ 63) mod p ∧
  map (GoldilocksField.new ∘ GoldilocksField.to_u64) [0; p - 1] = [0; p - 1] ∧
  array_from_le_bytes (array_to_le_bytes [0; p - 1]) = [0; p - 1].
Proof.
  apply conversion_roundtrip; [done|done|]. repeat constructor; done.
Defined.
