(* ===== verification/Quintic.v ===== *)
(** * The field of the specification

    Polynomials of degree below five over the Goldilocks field, modulo x^5 - 3,
    as the mathematics has them: a [quint] of coefficients, multiplied by cyclic
    convolution.  They are shown to form a commutative ring without zero
    divisors (3 and 9 have no fifth root modulo p); [sigma] multiplies the
    variable by a fifth root of unity, the norm is the product of the five
    conjugates, and the p-th power is [sigma]. *)

From Stdlib Require Import Zmod.Zmod.
From S2P Require Import Prelude Words Goldilocks.

Record quint (A : Type) := Quint { q0 : A; q1 : A; q2 : A; q3 : A; q4 : A }.
#[global] Arguments Quint {A} _ _ _ _ _.
#[global] Arguments q0 {A} _.
#[global] Arguments q1 {A} _.
#[global] Arguments q2 {A} _.
#[global] Arguments q3 {A} _.
#[global] Arguments q4 {A} _.

Definition qlist {A} (a : quint A) : list A := [q0 a; q1 a; q2 a; q3 a; q4 a].
Definition qmap {A B} (f : A → B) (a : quint A) : quint B :=
  Quint (f (q0 a)) (f (q1 a)) (f (q2 a)) (f (q3 a)) (f (q4 a)).

Abbreviation F5 := (quint Fp).

(** Coefficient [k] of a product: b is shifted by i places, and what wraps around
    is multiplied by x^5 = 3. *)
Definition f5_coef (a b : F5) (k : nat) : Fp :=
  let shifted i x :=
    if (i <=? k)%nat then (nth (k - i) (qlist b) 0%fp * x)%fp
    else (fp 3 * nth (k + 5 - i) (qlist b) 0%fp * x)%fp in
  (shifted 0%nat (q0 a) + shifted 1%nat (q1 a) + shifted 2%nat (q2 a) + shifted 3%nat (q3 a)
    + shifted 4%nat (q4 a))%fp.

Definition f5_mul (a b : F5) : F5 :=
  Quint (f5_coef a b 0) (f5_coef a b 1) (f5_coef a b 2) (f5_coef a b 3) (f5_coef a b 4).

Definition f5_add (a b : F5) : F5 :=
  Quint (q0 a + q0 b)%fp (q1 a + q1 b)%fp (q2 a + q2 b)%fp (q3 a + q3 b)%fp (q4 a + q4 b)%fp.
Definition f5_opp (a : F5) : F5 := qmap Zmod.opp a.
Definition f5_sub (a b : F5) : F5 :=
  Quint (q0 a - q0 b)%fp (q1 a - q1 b)%fp (q2 a - q2 b)%fp (q3 a - q3 b)%fp (q4 a - q4 b)%fp.

(** The base field inside the extension. *)
Definition base (x : Fp) : F5 := Quint x 0%fp 0%fp 0%fp 0%fp.
Definition f5 (n : Z) : F5 := base (fp n).
Definition f5_zero : F5 := base 0%fp.
Definition f5_one : F5 := base 1%fp.
(** The class of the variable. *)
Definition f5_x : F5 := Quint 0%fp 1%fp 0%fp 0%fp 0%fp.
Definition f5_pow (a : F5) (n : Z) : F5 := pow_N f5_one f5_mul a (Z.to_N n).

Declare Scope f5_scope.
Delimit Scope f5_scope with f5.
Infix "+" := f5_add : f5_scope.
Infix "-" := f5_sub : f5_scope.
Infix "*" := f5_mul : f5_scope.
Infix "^" := f5_pow : f5_scope.
Notation "- x" := (f5_opp x) : f5_scope.
Notation "0" := f5_zero : f5_scope.
Notation "1" := f5_one : f5_scope.

Lemma quint_inj {A} (a0 a1 a2 a3 a4 b0 b1 b2 b3 b4 : A) :
  Quint a0 a1 a2 a3 a4 = Quint b0 b1 b2 b3 b4 → a0 = b0 ∧ a1 = b1 ∧ a2 = b2 ∧ a3 = b3 ∧ a4 = b4.
Proof. by intros [=]. Qed.

#[export] Instance quint_eq_dec {A} `{EqDecision A} : EqDecision (quint A).
Proof. solve_decision. Defined.

(** ** The ring *)

(** Compute the coefficients of both sides and compare them in the base field. *)
Ltac f5_coefs :=
  repeat match goal with a : quint _ |- _ => destruct a end;
  cbv [f5_mul f5_coef f5_add f5_sub f5_opp f5 base f5_zero f5_one f5_x qmap qlist
       nth Nat.leb Nat.sub Nat.add q0 q1 q2 q3 q4] in *.

Ltac f5_ring := f5_coefs; f_equal; ring.

Lemma f5_ring_theory : ring_theory f5_zero f5_one f5_add f5_mul f5_sub f5_opp eq.
Proof. split; intros; f5_ring. Qed.

Lemma f5_morph :
  ring_morph f5_zero f5_one f5_add f5_mul f5_sub f5_opp eq 0 1 Z.add Z.mul Z.sub Z.opp fp_eqb f5.
Proof.
  split; intros; unfold f5, f5_zero, f5_one.
  1, 2: by rewrite ?fp_0, ?fp_1.
  1: rewrite fp_add. 2: rewrite fp_sub. 3: rewrite fp_mul. 4: rewrite fp_opp.
  1-4: f5_ring.
  by rewrite (fp_eqb_ok x y).
Qed.

Lemma f5_power : power_theory f5_one f5_mul eq Z.of_N f5_pow.
Proof. constructor. intros x n. unfold f5_pow. by rewrite N2Z.id. Qed.

Ltac f5_cst t :=
  match t with
  | f5 ?n => let c := isZcst n in match c with true => constr:(n) | _ => constr:(InitialRing.NotConstant) end
  | f5_zero => constr:(0%Z)
  | f5_one => constr:(1%Z)
  | _ => constr:(InitialRing.NotConstant)
  end.

Add Ring F5_ring : f5_ring_theory
  (morphism f5_morph, constants [f5_cst], power_tac f5_power [Zpow_tac]).

Lemma fp_pow_mul_l x y n : 0 ≤ n → ((x * y) ^ n = x ^ n * y ^ n)%fp.
Proof. intros. by apply Zmod.pow_mul_l_nonneg. Qed.

(** ** No zero divisors *)

Lemma fermat_pow (x : Fp) : x ≠ 0%fp → (x ^ (p - 1) = 1)%fp.
Proof. intros Hx. replace (p - 1) with (Z.pred p) by done. apply (Zmod.fermat_nz x Hx p_prime). Qed.

(** A unit whose (p-1)/5-th power is not one has no fifth root. *)
Lemma no_fifth_root (x r : Fp) :
  x ≠ 0%fp → Zmod.to_Z (x ^ ((p - 1) / 5)%Z)%fp ≠ 1 → (r ^ 5 ≠ x)%fp.
Proof.
  intros H0 Hx <-. apply Hx. rewrite <- Zmod.pow_mul_r_nonneg by done.
  change (5 * ((p - 1) / 5)) with (p - 1). rewrite fermat_pow; [done|].
  intros ->. by apply H0, Zmod.pow_0_l.
Qed.

Lemma fp_nonzero n : n mod p ≠ 0 → fp n ≠ 0%fp.
Proof. intros H. by apply Zmod.of_Z_nz. Qed.

Lemma three_no_root r : (r ^ 5 ≠ fp 3)%fp.
Proof. apply no_fifth_root; [by apply fp_nonzero | by vm_compute]. Qed.
Lemma nine_no_root r : (r ^ 5 ≠ fp 9)%fp.
Proof. apply no_fifth_root; [by apply fp_nonzero | by vm_compute]. Qed.

(** A polynomial of degree at most d with coefficients [c0 ..]; the annihilators
    below are taken by increasing degree, dividing x^5 - 3 by each polynomial. *)
Lemma base_cancel c b : c ≠ 0%fp → (base c * b = 0)%f5 → b = 0%f5.
Proof.
  intros Hc H. destruct b as [b0 b1 b2 b3 b4].
  assert (c * b0 = 0 ∧ c * b1 = 0 ∧ c * b2 = 0 ∧ c * b3 = 0 ∧ c * b4 = 0)%fp as (? & ? & ? & ? & ?).
  { f5_coefs. apply quint_inj in H as (H0 & H1 & H2 & H3 & H4).
    split_and!; [rewrite <- H0 | rewrite <- H1 | rewrite <- H2 | rewrite <- H3 | rewrite <- H4]; ring. }
  unfold f5_zero, base. f_equal;
    match goal with |- ?x = _ => match goal with H : (c * x)%fp = _ |- _ => by destruct (fp_integral _ _ H) end end.
Qed.

(** The inverse of the leading coefficient makes a polynomial monic. *)
Lemma fp_inv c : c ≠ 0%fp → ∃ i, (i * c = 1)%fp ∧ i ≠ 0%fp.
Proof.
  intros Hc. exists (c ^ (p - 2))%fp. pose proof (fp_inverse c Hc) as H. split; [rewrite <- H; ring|].
  intros Hi. rewrite Hi in H. apply (f_equal Zmod.to_Z) in H.
  replace (c * 0)%fp with 0%fp in H by ring. by vm_compute in H.
Qed.

(** The equation [x = y] from [H : e = z] when [x - y] is [k * (e - z)]. *)
Lemma fp_combine (k e z x y : Fp) : e = z → (x - y = k * (e - z))%fp → x = y.
Proof. intros -> H. apply Zmod.sub_eq_0. rewrite H. ring. Qed.

Ltac fp_solve k H := apply (fp_combine k _ _ _ _ H); ring.

(** Coefficients of a literal polynomial, read in the base field. *)
Abbreviation Poly c0 c1 c2 c3 c4 := (@Quint Fp c0%fp c1%fp c2%fp c3%fp c4%fp).

(** What an annihilated polynomial leaves as remainder of x^5 - 3 = 0 is
    annihilated too. *)
Lemma remainder_cancel (s q m b : F5) : m = (- (s * q))%f5 → (q * b = 0)%f5 → (m * b = 0)%f5.
Proof.
  intros -> H. replace (- (s * q) * b)%f5 with (- (s * (q * b)))%f5 by ring.
  rewrite H. ring.
Qed.

(** Making the leading coefficient [c] of an annihilated polynomial one. *)
Lemma monic_cancel (i : Fp) (q b m : F5) : m = (base i * q)%f5 → (q * b = 0)%f5 → (m * b = 0)%f5.
Proof.
  intros -> H. replace (base i * q * b)%f5 with (base i * (q * b))%f5 by ring.
  rewrite H. ring.
Qed.

Lemma cancel_monic_1 w b : (Poly w 1 0 0 0 * b = 0)%f5 → b = 0%f5.
Proof.
  intros H. destruct b as [b0 b1 b2 b3 b4].
  f5_coefs. apply quint_inj in H as (H0 & H1 & H2 & H3 & H4).
  assert (b3 = - w * b4)%fp as -> by fp_solve 1%fp H4.
  assert (b2 = - w * (- w * b4))%fp as -> by fp_solve 1%fp H3.
  assert (b1 = - w * (- w * (- w * b4)))%fp as -> by fp_solve 1%fp H2.
  assert (b0 = - w * (- w * (- w * (- w * b4))))%fp as -> by fp_solve 1%fp H1.
  assert (((- w) ^ 5 - fp 3) * b4 = 0)%fp as Hz by fp_solve (- (1))%fp H0.
  destruct (fp_integral _ _ Hz) as [Hr| ->].
  - apply Zmod.sub_eq_0_iff, three_no_root in Hr as [].
  - unfold f5_zero, base. f_equal; ring.
Qed.

Lemma cancel_1 c0 c1 b : c0 ≠ 0%fp ∨ c1 ≠ 0%fp → (Poly c0 c1 0 0 0 * b = 0)%f5 → b = 0%f5.
Proof.
  intros Hc H. destruct (decide (c1 = 0%fp)) as [->|H1].
  { destruct Hc as [Hc|]; [|done]. by apply (base_cancel c0). }
  destruct (fp_inv c1 H1) as (i & Hi & _). apply (cancel_monic_1 (i * c0)%fp).
  apply (monic_cancel i (Poly c0 c1 0 0 0)); [|done]. rewrite <- Hi. f5_ring.
Qed.

Lemma quadratic_no_factor u v :
  (u ^ 4 - fp 3 * u ^ 2 * v + v ^ 2 = 0)%fp → (u ^ 3 * v - fp 2 * u * v ^ 2 = fp 3)%fp → False.
Proof.
  intros H1 H2. apply (nine_no_root v).
  assert (v ^ 5 = (u ^ 3 * v - fp 2 * u * v ^ 2) ^ 2
    - (u ^ 4 - fp 3 * u ^ 2 * v + v ^ 2) * (u ^ 3 * v - fp 2 * u * v ^ 2) * u
    + (u ^ 4 - fp 3 * u ^ 2 * v + v ^ 2) ^ 2 * v)%fp as -> by ring.
  rewrite H1, H2. ring.
Qed.

Lemma cancel_monic_2 v u b : (Poly v u 1 0 0 * b = 0)%f5 → b = 0%f5.
Proof.
  intros H.
  assert (Poly (u ^ 3 * v - fp 2 * u * v ^ 2 - fp 3) (u ^ 4 - fp 3 * u ^ 2 * v + v ^ 2) 0 0 0
    = - (Poly (fp 2 * u * v - u ^ 3) (u ^ 2 - v) (- u) 1 0 * Poly v u 1 0 0))%f5 as Hd by f5_ring.
  apply (remainder_cancel _ _ _ _ Hd) in H. apply cancel_1 in H; [done|]. clear H Hd.
  destruct (decide (u ^ 4 - fp 3 * u ^ 2 * v + v ^ 2 = 0)%fp) as [H1|]; [left|by right].
  intros H2%Zmod.sub_eq_0. exact (quadratic_no_factor u v H1 H2).
Qed.

Lemma cancel_2 c0 c1 c2 b :
  c0 ≠ 0%fp ∨ c1 ≠ 0%fp ∨ c2 ≠ 0%fp → (Poly c0 c1 c2 0 0 * b = 0)%f5 → b = 0%f5.
Proof.
  intros Hc H. destruct (decide (c2 = 0%fp)) as [->|H1].
  { apply (cancel_1 c0 c1); [naive_solver | done]. }
  destruct (fp_inv c2 H1) as (i & Hi & _). apply (cancel_monic_2 (i * c0)%fp (i * c1)%fp).
  apply (monic_cancel i (Poly c0 c1 c2 0 0)); [|done]. rewrite <- Hi. f5_ring.
Qed.

Lemma cancel_monic_3 c0 c1 c2 b : (Poly c0 c1 c2 1 0 * b = 0)%f5 → b = 0%f5.
Proof.
  intros H.
  assert (Poly (- fp 3 - (c2 ^ 2 - c1) * c0) (c2 * c0 - (c2 ^ 2 - c1) * c1)
      (c2 * c1 - c0 - (c2 ^ 2 - c1) * c2) 0 0
    = - (Poly (c2 ^ 2 - c1) (- c2) 1 0 0 * Poly c0 c1 c2 1 0))%f5 as Hd by f5_ring.
  apply (remainder_cancel _ _ _ _ Hd) in H. apply cancel_2 in H; [done|]. clear H Hd.
  remember (c2 ^ 2 - c1)%fp as v eqn:Hv.
  destruct (decide (- fp 3 - v * c0 = 0)%fp) as [H0|]; [right|by left].
  destruct (decide (c2 * c0 - v * c1 = 0)%fp) as [H1|]; [right|by left].
  intros H2. assert (c1 = c2 ^ 2 - v)%fp as Hc1 by (rewrite Hv; ring). clear Hv. subst c1.
  assert (c0 = fp 2 * (- c2) * v - (- c2) ^ 3)%fp as -> by fp_solve (- (1))%fp H2.
  apply (quadratic_no_factor (- c2)%fp v).
  - fp_solve (1)%fp H1.
  - fp_solve (1)%fp H0.
Qed.

Lemma cancel_3 c0 c1 c2 c3 b :
  c0 ≠ 0%fp ∨ c1 ≠ 0%fp ∨ c2 ≠ 0%fp ∨ c3 ≠ 0%fp → (Poly c0 c1 c2 c3 0 * b = 0)%f5 → b = 0%f5.
Proof.
  intros Hc H. destruct (decide (c3 = 0%fp)) as [->|H1].
  { apply (cancel_2 c0 c1 c2); [naive_solver | done]. }
  destruct (fp_inv c3 H1) as (i & Hi & _).
  apply (cancel_monic_3 (i * c0)%fp (i * c1)%fp (i * c2)%fp).
  apply (monic_cancel i (Poly c0 c1 c2 c3 0)); [|done]. rewrite <- Hi. f5_ring.
Qed.

Lemma cancel_monic_4 d0 d1 d2 d3 b : (Poly d0 d1 d2 d3 1 * b = 0)%f5 → b = 0%f5.
Proof.
  intros H.
  assert (Poly (- fp 3 + d3 * d0) (d3 * d1 - d0) (d3 * d2 - d1) (d3 * d3 - d2) 0
    = - (Poly (- d3) 1 0 0 0 * Poly d0 d1 d2 d3 1))%f5 as Hd by f5_ring.
  apply (remainder_cancel _ _ _ _ Hd) in H. apply cancel_3 in H; [done|]. clear H Hd.
  destruct (decide (- fp 3 + d3 * d0 = 0)%fp) as [H0|]; [right|by left].
  destruct (decide (d3 * d1 - d0 = 0)%fp) as [H1|]; [right|by left].
  destruct (decide (d3 * d2 - d1 = 0)%fp) as [H2|]; [right|by left].
  intros H3%Zmod.sub_eq_0. subst d2.
  apply Zmod.sub_eq_0 in H2. subst d1. apply Zmod.sub_eq_0 in H1. subst d0.
  apply (three_no_root d3). fp_solve (1)%fp H0.
Qed.

Theorem f5_integral a b : (a * b = 0)%f5 → a = 0%f5 ∨ b = 0%f5.
Proof.
  intros H. destruct a as [c0 c1 c2 c3 c4].
  destruct (decide (c4 = 0%fp)) as [->|H4].
  - destruct (decide (c0 = 0%fp ∧ c1 = 0%fp ∧ c2 = 0%fp ∧ c3 = 0%fp)) as [(-> & -> & -> & ->)|Hc].
    { by left. }
    right. apply (cancel_3 c0 c1 c2 c3); [|done].
    destruct (decide (c0 = 0%fp)), (decide (c1 = 0%fp)), (decide (c2 = 0%fp)); tauto.
  - right. destruct (fp_inv c4 H4) as (i & Hi & _).
    apply (cancel_monic_4 (i * c0)%fp (i * c1)%fp (i * c2)%fp (i * c3)%fp).
    apply (monic_cancel i (Poly c0 c1 c2 c3 c4)); [|done]. rewrite <- Hi. f5_ring.
Qed.

(** ** Powers *)

Lemma f5_pow_0 a : (a ^ 0 = 1)%f5.
Proof. done. Qed.

Lemma f5_pow_succ a n : 0 ≤ n → (a ^ Z.succ n = a * a ^ n)%f5.
Proof.
  intros Hn. unfold f5_pow. rewrite Z2N.inj_succ by done.
  destruct (Z.to_N n) as [|m].
  { change (a = a * 1)%f5. ring. }
  change (pow_pos f5_mul a (Pos.succ m) = a * pow_pos f5_mul a m)%f5.
  apply (pow_pos_succ (Eqsth F5)); [by intros ?? -> ?? ->|]. intros; ring.
Qed.

Lemma f5_pow_1 a : (a ^ 1 = a)%f5.
Proof. ring. Qed.
Lemma f5_pow_2 a : (a ^ 2 = a * a)%f5.
Proof. ring. Qed.

Lemma f5_pow_add a m n : 0 ≤ m → 0 ≤ n → (a ^ (m + n)%Z = a ^ m * a ^ n)%f5.
Proof.
  intros Hm Hn. revert m Hm. apply natlike_ind; [rewrite f5_pow_0, Z.add_0_l; ring|].
  intros m Hm IH. rewrite Z.add_succ_l, !f5_pow_succ, IH by lia. ring.
Qed.

Lemma f5_pow_one n : 0 ≤ n → (1 ^ n = 1)%f5.
Proof.
  revert n. apply natlike_ind; [done|]. intros n Hn IH. rewrite f5_pow_succ, IH by lia. ring.
Qed.

Lemma f5_pow_mul a m n : 0 ≤ m → 0 ≤ n → (a ^ (m * n)%Z = (a ^ m) ^ n)%f5.
Proof.
  intros Hm Hn. revert n Hn. apply natlike_ind; [by rewrite Z.mul_0_r|].
  intros n Hn IH. rewrite Z.mul_succ_r, Z.add_comm, f5_pow_add, IH, f5_pow_succ by nia. done.
Qed.

Lemma f5_pow_mul_l a b n : 0 ≤ n → ((a * b) ^ n = a ^ n * b ^ n)%f5.
Proof.
  revert n. apply natlike_ind; [rewrite !f5_pow_0; ring|].
  intros n Hn IH. rewrite !f5_pow_succ, IH by lia. ring.
Qed.

Lemma base_add x y : base (x + y)%fp = (base x + base y)%f5.
Proof. f5_ring. Qed.
Lemma base_mul x y : base (x * y)%fp = (base x * base y)%f5.
Proof. f5_ring. Qed.

Lemma base_pow x n : 0 ≤ n → base (x ^ n)%fp = (base x ^ n)%f5.
Proof.
  revert n. apply natlike_ind; [by rewrite Zmod.pow_0_r|].
  intros n Hn IH. by rewrite Zmod.pow_succ_nonneg_r, f5_pow_succ, base_mul, IH by lia.
Qed.

Lemma base_inj x y : base x = base y → x = y.
Proof. intros H. exact (f_equal q0 H). Qed.

Lemma f5_pow_zero n : 0 < n → (0 ^ n = 0)%f5.
Proof.
  intros Hn. replace n with (Z.succ (n - 1)) by lia. rewrite f5_pow_succ by lia. ring.
Qed.

Lemma f5_pow_nonzero a n : 0 ≤ n → a ≠ 0%f5 → (a ^ n ≠ 0)%f5.
Proof.
  intros Hn Ha. revert n Hn. apply natlike_ind.
  { rewrite f5_pow_0. intros H%base_inj%(f_equal Zmod.to_Z). by vm_compute in H. }
  intros n Hn IH. rewrite f5_pow_succ by done. by intros [|]%f5_integral.
Qed.

(** ** Conjugates and the norm *)

Definition zeta : Fp := fp 1041288259238279555.

(** The automorphism x ↦ zeta * x. *)
Definition sigma (a : F5) : F5 :=
  Quint (q0 a) (zeta * q1 a)%fp (zeta ^ 2 * q2 a)%fp (zeta ^ 3 * q3 a)%fp (zeta ^ 4 * q4 a)%fp.

Lemma sigma_mul a b : sigma (a * b)%f5 = (sigma a * sigma b)%f5.
Proof. unfold sigma, zeta. f5_ring. Qed.
Lemma sigma_add a b : sigma (a + b)%f5 = (sigma a + sigma b)%f5.
Proof. unfold sigma, zeta. f5_ring. Qed.
Lemma sigma_base x : sigma (base x) = base x.
Proof. unfold sigma, zeta. f5_ring. Qed.
Lemma sigma_5 a : sigma (sigma (sigma (sigma (sigma a)))) = a.
Proof. unfold sigma, zeta. f5_ring. Qed.

Lemma zeta_cancel k x : (zeta ^ k ≠ 1)%fp → (zeta ^ k * x = x)%fp → x = 0%fp.
Proof.
  intros Hk H. assert ((zeta ^ k - 1) * x = 0)%fp as Hz by fp_solve 1%fp H.
  destruct (fp_integral _ _ Hz) as [Hr%Zmod.sub_eq_0|]; [done|done].
Qed.

Lemma sigma_fixed a : sigma a = a → a = base (q0 a).
Proof.
  destruct a as [a0 a1 a2 a3 a4]. unfold sigma, base; cbn [q0 q1 q2 q3 q4]. intros H.
  apply quint_inj in H as (_ & H1 & H2 & H3 & H4). f_equal.
  1: apply (zeta_cancel 1); [|by rewrite Zmod.pow_1_r].
  2: apply (zeta_cancel 2); [|done].
  3: apply (zeta_cancel 3); [|done].
  4: apply (zeta_cancel 4); [|done].
  all: intros Hz%(f_equal Zmod.to_Z); by vm_compute in Hz.
Qed.

(** The product of the other four conjugates. *)
Definition conjugates (a : F5) : F5 :=
  (sigma a * sigma (sigma a) * (sigma (sigma (sigma a)) * sigma (sigma (sigma (sigma a)))))%f5.

Definition norm (a : F5) : Fp := q0 (a * conjugates a)%f5.

Lemma norm_eq a : (a * conjugates a)%f5 = base (norm a).
Proof.
  apply sigma_fixed. unfold conjugates. rewrite !sigma_mul, sigma_5. ring.
Qed.

Lemma sigma_zero a : sigma a = 0%f5 → a = 0%f5.
Proof. intros H. rewrite <- (sigma_5 a), H. unfold f5_zero. by rewrite !sigma_base. Qed.

Lemma norm_zero a : norm a = 0%fp ↔ a = 0%f5.
Proof.
  split.
  - intros H. pose proof (norm_eq a) as Hn. rewrite H in Hn. unfold conjugates in Hn.
    change (base 0%fp) with 0%f5 in Hn.
    repeat match goal with
    | H : (_ * _)%f5 = 0%f5 |- _ => apply f5_integral in H as [H|H]
    end; eauto using sigma_zero.
  - intros ->. apply base_inj. rewrite <- norm_eq. ring_simplify. done.
Qed.

Lemma norm_mul a b : norm (a * b)%f5 = (norm a * norm b)%fp.
Proof.
  apply base_inj. rewrite base_mul, <- !norm_eq. unfold conjugates. rewrite !sigma_mul. ring.
Qed.

Lemma norm_base x : norm (base x) = (x ^ 5)%fp.
Proof.
  apply base_inj. rewrite <- norm_eq. unfold conjugates. rewrite !sigma_base, base_pow by done. ring.
Qed.

Lemma f5_inverse a : a ≠ 0%f5 → (a * (conjugates a * base (norm a ^ (p - 2))%fp) = 1)%f5.
Proof.
  intros Ha. replace (a * _)%f5 with (a * conjugates a * base (norm a ^ (p - 2))%fp)%f5 by ring.
  rewrite norm_eq, <- base_mul, fp_inverse; [done|]. by rewrite norm_zero.
Qed.

Lemma f5_cancel a b c : a ≠ 0%f5 → (a * b = a * c)%f5 → b = c.
Proof.
  intros Ha H. assert (a * (b - c) = 0)%f5 as [|Hz]%f5_integral; [|done|].
  - replace (a * (b - c))%f5 with (a * b - a * c)%f5 by ring. rewrite H. ring.
  - replace b with (c + (b - c))%f5 by ring. rewrite Hz. ring.
Qed.

(** ** The p-th power is [sigma] *)

Fixpoint binom (n k : nat) : Z :=
  match n, k with
  | _, O => 1
  | O, S _ => 0
  | S n, S k => binom n k + binom n (S k)
  end.

Lemma binom_0 n : binom n 0 = 1.
Proof. by destruct n. Qed.
Lemma binom_above n k : (n < k)%nat → binom n k = 0.
Proof.
  revert k; induction n as [|n IH]; intros [|k] Hk; try lia; [done|].
  cbn [binom]. rewrite !IH by lia. done.
Qed.
Lemma binom_diag n : binom n n = 1.
Proof. induction n as [|n IH]; [done|]. cbn [binom]. rewrite IH, binom_above by lia. done. Qed.

Lemma binom_absorb n k : (Z.of_nat k + 1) * binom (S n) (S k) = (Z.of_nat n + 1) * binom n k.
Proof.
  revert k; induction n as [|n IH]; intros k.
  - destruct k as [|k]; [done|]. cbn [binom]. lia.
  - change (binom (S (S n)) (S k)) with (binom (S n) k + binom (S n) (S k)).
    destruct k as [|k].
    + pose proof (IH 0%nat). rewrite !binom_0 in *. lia.
    + pose proof (IH k). pose proof (IH (S k)).
      change (binom (S n) (S k)) with (binom n k + binom n (S k)) in *. lia.
Qed.

Fixpoint bsum (f : nat → F5) (n : nat) : F5 :=
  match n with O => f 0%nat | S m => (bsum f m + f n)%f5 end.

Definition bterm (n : nat) (y : F5) (k : nat) : F5 := (f5 (binom n k) * y ^ Z.of_nat k)%f5.

Lemma f5_add_Z m n : f5 (m + n) = (f5 m + f5 n)%f5.
Proof. apply f5_morph. Qed.

Lemma bsum_step n y N :
  ((1 + y) * bsum (bterm n y) N = bsum (bterm (S n) y) N + f5 (binom n N) * y ^ Z.of_nat (S N))%f5.
Proof.
  induction N as [|N IH]; cbn [bsum].
  - unfold bterm. rewrite !binom_0. change (Z.of_nat 0) with 0. change (Z.of_nat 1) with 1. ring.
  - unfold bterm at 2 4.
    replace ((1 + y) * _)%f5 with ((1 + y) * bsum (bterm n y) N
      + (1 + y) * (f5 (binom n (S N)) * y ^ Z.of_nat (S N)))%f5 by ring.
    rewrite IH. change (binom (S n) (S N)) with (binom n N + binom n (S N)). rewrite f5_add_Z.
    rewrite (Nat2Z.inj_succ (S N)), f5_pow_succ by lia. ring.
Qed.

Lemma binomial n y : ((1 + y) ^ Z.of_nat n = bsum (bterm n y) n)%f5.
Proof.
  induction n as [|n IH]; [unfold bterm; cbn [bsum binom]; rewrite !f5_pow_0; ring|].
  rewrite Nat2Z.inj_succ, f5_pow_succ, IH, bsum_step by lia. cbn [bsum]. unfold bterm at 3.
  rewrite binom_diag, binom_diag. done.
Qed.

Lemma prime_divides_binom n k : Z.prime (Z.of_nat n) → (0 < k < n)%nat → (Z.of_nat n | binom n k).
Proof.
  intros Hp Hk. destruct n as [|n]; [lia|]. destruct k as [|k]; [lia|].
  pose proof (binom_absorb n k) as H.
  assert (Z.of_nat (S n) | (Z.of_nat k + 1) * binom (S n) (S k)) as Hd.
  { exists (binom n k). rewrite H. lia. }
  apply (Z.divide_prime_mul _ _ _ Hp) in Hd as [Hd%Z.divide_pos_le|]; [lia..|done].
Qed.

Lemma bsum_ends f n : (∀ k, (0 < k < S n)%nat → f k = 0%f5) → (bsum f (S n) = f 0%nat + f (S n))%f5.
Proof.
  intros H. cbn [bsum]. f_equal. induction n as [|n IH]; [done|].
  cbn [bsum]. rewrite IH by (intros; apply H; lia). rewrite (H (S n)) by lia. ring.
Qed.

Lemma freshman_one n y :
  Z.of_nat n = p → ((1 + y) ^ Z.of_nat n = 1 + y ^ Z.of_nat n)%f5.
Proof.
  intros Hn. rewrite binomial. destruct n as [|n].
  { unfold p in Hn. lia. }
  rewrite bsum_ends.
  - unfold bterm. rewrite binom_0, binom_diag. change (Z.of_nat 0) with 0. ring.
  - intros k Hk. unfold bterm.
    destruct (prime_divides_binom (S n) k) as [c Hc]; [rewrite Hn; exact p_prime | done |].
    rewrite Hn in Hc. assert (f5 (binom (S n) k) = 0%f5) as ->; [|ring].
    unfold f5, f5_zero. f_equal. rewrite <- fp_0. by apply (fp_eq_add_mul _ _ c).
Qed.

Lemma f5_add_0_l b : (0 + b = b)%f5. Proof. ring. Qed.

Lemma freshman a b : ((a + b) ^ p = a ^ p + b ^ p)%f5.
Proof.
  destruct (decide (a = 0%f5)) as [->|Ha].
  { by rewrite f5_pow_zero, !f5_add_0_l by done. }
  pose proof (f5_inverse a Ha) as Hi. set (i := (conjugates a * _)%f5) in *. clearbody i.
  replace (a + b)%f5 with (a * (1 + i * b))%f5.
  2: { replace (a * (1 + i * b))%f5 with (a + a * i * b)%f5 by ring. rewrite Hi. ring. }
  pose proof (Z2Nat.id p ltac:(done)) as Hn.
  pose proof (freshman_one (Z.to_nat p) (i * b)%f5 Hn) as Hf. rewrite Hn in Hf. clear Hn.
  rewrite f5_pow_mul_l, Hf, f5_pow_mul_l by done.
  pose proof (f5_pow_mul_l a i p ltac:(done)) as Hai. rewrite Hi, f5_pow_one in Hai by done.
  revert Hai. generalize (a ^ p)%f5 (i ^ p)%f5 (b ^ p)%f5. intros ap ip bp Hai.
  replace (ap * (1 + ip * bp))%f5 with (ap + (ap * ip) * bp)%f5 by ring. rewrite <- Hai. ring.
Qed.

Lemma base_pow_p x : (base x ^ p = base x)%f5.
Proof. rewrite <- base_pow by done. by rewrite (Zmod.fermat x p_prime). Qed.

(** The powers of a multiple of the variable. *)
Lemma mono_1 z : (base z * f5_x)%f5 = Poly 0 z 0 0 0.
Proof. f5_ring. Qed.
Lemma mono_2 z : ((base z * f5_x) ^ 2)%f5 = Poly 0 0 (z ^ 2) 0 0.
Proof. rewrite f5_pow_2, mono_1. f5_ring. Qed.
Lemma mono_3 z : ((base z * f5_x) ^ 3)%f5 = Poly 0 0 0 (z ^ 3) 0.
Proof. rewrite (f5_pow_add _ 1 2), f5_pow_1, mono_2, mono_1 by done. f5_ring. Qed.
Lemma mono_4 z : ((base z * f5_x) ^ 4)%f5 = Poly 0 0 0 0 (z ^ 4).
Proof. rewrite (f5_pow_add _ 1 3), f5_pow_1, mono_3, mono_1 by done. f5_ring. Qed.
Lemma f5_x_alt : f5_x = (base 1%fp * f5_x)%f5.
Proof. f5_ring. Qed.
Lemma mono_5 : (f5_x ^ 5)%f5 = base (fp 3).
Proof.
  rewrite f5_x_alt, (f5_pow_add _ 1 4), f5_pow_1, mono_4, mono_1 by done. f5_ring.
Qed.

Lemma f5_x_pow_p : (f5_x ^ p = base zeta * f5_x)%f5.
Proof.
  change p with (5 * ((p - 1) / 5) + 1) at 2. rewrite f5_pow_add, f5_pow_1, f5_pow_mul by done.
  rewrite mono_5, <- base_pow by done.
  assert (fp 3 ^ ((p - 1) / 5)%Z = zeta)%fp as -> by (apply Zmod.to_Z_inj; by vm_compute). done.
Qed.

(** The coefficients of an element, as a polynomial in the variable. *)
Lemma f5_expand a :
  a = (base (q0 a) + (base (q1 a) * f5_x + (base (q2 a) * f5_x ^ 2
       + (base (q3 a) * f5_x ^ 3 + base (q4 a) * f5_x ^ 4))))%f5.
Proof. rewrite f5_x_alt, mono_2, mono_3, mono_4, mono_1. f5_ring. Qed.

Lemma monomial_pow_p c k : 0 ≤ k → ((base c * f5_x ^ k) ^ p = base c * (base zeta * f5_x) ^ k)%f5.
Proof.
  intros Hk. rewrite f5_pow_mul_l, base_pow_p by done. f_equal.
  rewrite <- f5_pow_mul, Z.mul_comm, f5_pow_mul, f5_x_pow_p by done. done.
Qed.

Theorem sigma_pow_p a : sigma a = (a ^ p)%f5.
Proof.
  rewrite (f5_expand a) at 2. rewrite !freshman, base_pow_p, !monomial_pow_p by done.
  rewrite <- (f5_pow_1 f5_x) at 1. rewrite monomial_pow_p by done.
  rewrite f5_pow_1, mono_2, mono_3, mono_4, mono_1. unfold sigma. f5_ring.
Qed.
