(* ===== verification/Gfp5.v ===== *)
(** * The quintic extension of the Goldilocks field

    [crates/hexagent-exchange/src/exchange/lighter/crypto/gfp5.rs]: polynomials
    of degree below five over the field of p elements, modulo x^5 - 3.  The
    array of five coefficients is a [quint]; the source's elements are quints of
    stored words, the specification's are quints of field elements, and [a ⊫ x]
    relates the two coefficientwise.

    The specification is the field [F5] of the file Quintic.  The source's
    formulas are its operations; [frobenius] is the p-th power; the norm
    inversion, the Legendre symbol and the two square roots are exact. *)

From Stdlib Require Import Zmod.Zmod.
From S2P Require Import Prelude Words Goldilocks Quintic.

Definition W : Z := GoldilocksField.THREE.
Definition dth_root : Z := GoldilocksField.new 1041288259238279555.

(** Exponentiation in the base field: at most 64 halvings of the exponent. *)
Definition exp_base (base exp : Z) : Z :=
  GoldilocksField.pow_loop 64 GoldilocksField.ONE base exp.

(** [while exp_base(z, (p-1)/2) != p-1]: [None] if no non-residue is met. *)
Fixpoint find_nonresidue (fuel : nat) (z : Z) : option Z :=
  match fuel with
  | O => None
  | S fuel =>
      if GoldilocksField.to_u64 (exp_base z ((GOLDILOCKS_MODULUS - 1) / 2)) =? GOLDILOCKS_MODULUS - 1
      then Some z
      else find_nonresidue fuel (GoldilocksField.add z GoldilocksField.ONE)
  end.

(** [while temp != 1]: the number of squarings to reach one. *)
Fixpoint least_order (fuel : nat) (temp : Z) (i : nat) : option nat :=
  match fuel with
  | O => None
  | S fuel =>
      if GoldilocksField.to_u64 temp =? 1 then Some i
      else least_order fuel (GoldilocksField.square temp) (S i)
  end.

(** The main loop of Tonelli and Shanks; [None] if it has not returned after
    [fuel] turns, or if [m - i - 1] underflows. *)
Fixpoint tonelli_loop (fuel m : nat) (c t r : Z) : option Z :=
  match fuel with
  | O => None
  | S fuel =>
      if GoldilocksField.to_u64 t =? 1 then Some r
      else
        match least_order 64 (GoldilocksField.square t) 1 with
        | None => None
        | Some i =>
            if (m <=? i)%nat then None
            else
              let b := Nat.iter (m - i - 1) GoldilocksField.square c in
              let c := GoldilocksField.square b in
              tonelli_loop fuel i c (GoldilocksField.mul t c) (GoldilocksField.mul r b)
        end
  end.

Definition sqrt_base (a : Z) : option Z :=
  if GoldilocksField.is_zero a then Some GoldilocksField.ZERO
  else
    let legendre := exp_base a ((GOLDILOCKS_MODULUS - 1) / 2) in
    if negb (GoldilocksField.to_u64 legendre =? 1) then None
    else
      let s := 32%nat in
      let q := Z.shiftl 1 32 - 1 in
      z ← find_nonresidue 64 (GoldilocksField.new 2);
      tonelli_loop 64 s (exp_base z q) (exp_base a q) (exp_base a ((q + 1) / 2)).

Module GFp5.
Import GoldilocksField.

Definition ZERO : quint Z := Quint ZERO ZERO ZERO ZERO ZERO.
Definition ONE : quint Z := Quint GoldilocksField.ONE GoldilocksField.ZERO GoldilocksField.ZERO GoldilocksField.ZERO GoldilocksField.ZERO.
Definition TWO : quint Z := Quint GoldilocksField.TWO GoldilocksField.ZERO GoldilocksField.ZERO GoldilocksField.ZERO GoldilocksField.ZERO.

Definition from_base (elem : Z) : quint Z :=
  Quint elem GoldilocksField.ZERO GoldilocksField.ZERO GoldilocksField.ZERO GoldilocksField.ZERO.

Definition from_u64 (val : Z) : quint Z := from_base (new val).
Definition from_u64_array (arr : quint Z) : quint Z := qmap new arr.
Definition to_u64_array (self : quint Z) : quint Z := qmap to_u64 self.
Definition to_basefield_array (self : quint Z) : quint Z := self.

Definition is_zero (self : quint Z) : bool := forallb GoldilocksField.is_zero (qlist self).

Definition add (self rhs : quint Z) : quint Z :=
  Quint (q0 self + q0 rhs)%gl (q1 self + q1 rhs)%gl (q2 self + q2 rhs)%gl (q3 self + q3 rhs)%gl
    (q4 self + q4 rhs)%gl.

Definition sub (self rhs : quint Z) : quint Z :=
  Quint (q0 self - q0 rhs)%gl (q1 self - q1 rhs)%gl (q2 self - q2 rhs)%gl (q3 self - q3 rhs)%gl
    (q4 self - q4 rhs)%gl.

Definition neg (self : quint Z) : quint Z := qmap GoldilocksField.neg self.

Definition mul (self rhs : quint Z) : quint Z :=
  let '(Quint a0 a1 a2 a3 a4) := self in
  let '(Quint b0 b1 b2 b3 b4) := rhs in
  let w := W in
  let c0 := (a0 * b0 + w * (a1 * b4 + a2 * b3 + a3 * b2 + a4 * b1))%gl in
  let c1 := (a0 * b1 + a1 * b0 + w * (a2 * b4 + a3 * b3 + a4 * b2))%gl in
  let c2 := (a0 * b2 + a1 * b1 + a2 * b0 + w * (a3 * b4 + a4 * b3))%gl in
  let c3 := (a0 * b3 + a1 * b2 + a2 * b1 + a3 * b0 + w * (a4 * b4))%gl in
  let c4 := (a0 * b4 + a1 * b3 + a2 * b2 + a3 * b1 + a4 * b0)%gl in
  Quint c0 c1 c2 c3 c4.

Definition square (self : quint Z) : quint Z :=
  let '(Quint a0 a1 a2 a3 a4) := self in
  let w := W in
  let double_w := (w + w)%gl in
  let a0s := GoldilocksField.square a0 in
  let a1a4 := (a1 * a4)%gl in
  let a2a3 := (a2 * a3)%gl in
  let c0 := (a0s + double_w * (a1a4 + a2a3))%gl in
  let a0_double := GoldilocksField.double a0 in
  let c1 := (a0_double * a1 + double_w * (a2 * a4) + w * GoldilocksField.square a3)%gl in
  let c2 := (a0_double * a2 + GoldilocksField.square a1 + double_w * (a4 * a3))%gl in
  let a1_double := GoldilocksField.double a1 in
  let c3 := (a0_double * a3 + a1_double * a2 + w * GoldilocksField.square a4)%gl in
  let c4 := (a0_double * a4 + a1_double * a3 + GoldilocksField.square a2)%gl in
  Quint c0 c1 c2 c3 c4.

Definition double (self : quint Z) : quint Z := add self self.

Definition triple (self : quint Z) : quint Z :=
  let three := new 3 in
  qmap (λ c, (c * three)%gl) self.

Definition scalar_mul (self : quint Z) (scalar : Z) : quint Z := qmap (λ c, (c * scalar)%gl) self.

Definition repeated_frobenius (self : quint Z) (count : nat) : quint Z :=
  if (count =? 0)%nat then self
  else
    let count := (count mod 5)%nat in
    if (count =? 0)%nat then self
    else
      let root := dth_root in
      let z0 := Nat.iter (count - 1) (λ z0, (z0 * root)%gl) root in
      let pow0 := GoldilocksField.ONE in
      let pow1 := (pow0 * z0)%gl in
      let pow2 := (pow1 * z0)%gl in
      let pow3 := (pow2 * z0)%gl in
      let pow4 := (pow3 * z0)%gl in
      Quint (q0 self * pow0)%gl (q1 self * pow1)%gl (q2 self * pow2)%gl (q3 self * pow3)%gl
        (q4 self * pow4)%gl.

Definition frobenius (self : quint Z) : quint Z := repeated_frobenius self 1.

Definition unwrap_or_zero (o : option Z) : Z :=
  match o with Some x => x | None => GoldilocksField.ZERO end.

Definition inverse_or_zero (self : quint Z) : quint Z :=
  if is_zero self then ZERO
  else
    let d := frobenius self in
    let e := mul d (frobenius d) in
    let f := mul e (repeated_frobenius e 2) in
    let af := mul self f in
    let g := q0 af in
    let g_inv := unwrap_or_zero (inverse g) in
    scalar_mul f g_inv.

Definition div (self rhs : quint Z) : quint Z := mul self (inverse_or_zero rhs).

Definition exp_power_of_2 (self : quint Z) (n : nat) : quint Z := Nat.iter n square self.

Definition legendre (self : quint Z) : Z :=
  let frob1 := frobenius self in
  let frob2 := frobenius frob1 in
  let frob1_times_frob2 := mul frob1 frob2 in
  let frob2_frob1_times_frob2 := repeated_frobenius frob1_times_frob2 2 in
  let xr_ext := mul (mul self frob1_times_frob2) frob2_frob1_times_frob2 in
  let xr := q0 xr_ext in
  let xr31 := exp_base xr (Z.shiftl 1 31) in
  let xr31_inv := unwrap_or_zero (inverse xr31) in
  let xr63 := exp_base xr31 (Z.shiftl 1 32) in
  (xr63 * xr31_inv)%gl.

(** The loop over the limbs, with its two flags. *)
Definition sgn0 (self : quint Z) : bool :=
  fst (fold_left (λ '(sign, zero) limb,
         let sign_i := Z.land (to_u64 limb) 1 =? 0 in
         let zero_i := GoldilocksField.is_zero limb in
         (sign || (zero && sign_i), zero && zero_i))
       (qlist self) (false, true)).

Definition sqrt (self : quint Z) : option (quint Z) :=
  let v := exp_power_of_2 self 31 in
  let d := mul (mul self (exp_power_of_2 v 32)) (inverse_or_zero v) in
  let e := frobenius (mul d (repeated_frobenius d 2)) in
  let f := square e in
  let x1f4 := (q1 self * q4 f)%gl in
  let x2f3 := (q2 self * q3 f)%gl in
  let x3f2 := (q3 self * q2 f)%gl in
  let x4f1 := (q4 self * q1 f)%gl in
  let three := new 3 in
  let g := (q0 self * q0 f + three * (x1f4 + x2f3 + x3f2 + x4f1))%gl in
  match sqrt_base g with
  | None => None
  | Some g_sqrt =>
      let e_inv := inverse_or_zero e in
      let s_fp5 := from_base g_sqrt in
      Some (mul s_fp5 e_inv)
  end.

Definition canonical_sqrt (self : quint Z) : option (quint Z) :=
  match sqrt self with
  | None => None
  | Some sqrt_x => if sgn0 sqrt_x then Some (neg sqrt_x) else Some sqrt_x
  end.

Definition to_le_bytes (self : quint Z) : list Z :=
  concat (map GoldilocksField.to_le_bytes (qlist self)).

(** [None] stands for the error of a length other than 40. *)
Definition from_le_bytes (bytes : list Z) : option (quint Z) :=
  if negb (length bytes =? 40)%nat then None
  else
    e0 ← GoldilocksField.from_le_bytes (take 8 bytes);
    e1 ← GoldilocksField.from_le_bytes (take 8 (drop 8 bytes));
    e2 ← GoldilocksField.from_le_bytes (take 8 (drop 16 bytes));
    e3 ← GoldilocksField.from_le_bytes (take 8 (drop 24 bytes));
    e4 ← GoldilocksField.from_le_bytes (take 8 (drop 32 bytes));
    Some (Quint e0 e1 e2 e3 e4).

End GFp5.

(** ** The representation *)

Record represents5 (a : quint Z) (x : F5) : Prop := {
  rep5_0 : q0 a ⊨ q0 x;
  rep5_1 : q1 a ⊨ q1 x;
  rep5_2 : q2 a ⊨ q2 x;
  rep5_3 : q3 a ⊨ q3 x;
  rep5_4 : q4 a ⊨ q4 x
}.
Infix "⊫" := represents5 (at level 70).

Definition canonical5 (a : quint Z) : Prop := Forall canonical (qlist a).

(** The element of the extension a quint of stored words stands for. *)
Definition gl5 (a : quint Z) : F5 := qmap gl a.

Declare Scope gfp5_scope.
Delimit Scope gfp5_scope with gfp5.
Infix "+" := GFp5.add : gfp5_scope.
Infix "-" := GFp5.sub : gfp5_scope.
Infix "*" := GFp5.mul : gfp5_scope.
Notation "- a" := (GFp5.neg a) : gfp5_scope.

Strategy 1000 [GFp5.add GFp5.sub GFp5.mul GFp5.neg GFp5.square f5_add f5_mul f5_sub f5_opp f5_pow
  sigma conjugates norm GFp5.repeated_frobenius GFp5.frobenius GFp5.scalar_mul].

Lemma canonical5_gl5 a : canonical5 a → a ⊫ gl5 a.
Proof.
  unfold canonical5, qlist. intros H.
  repeat match goal with H : Forall _ (_ :: _) |- _ => apply Forall_cons in H as [? H] end.
  split; by apply canonical_gl.
Qed.

Lemma rep5_canonical a x : a ⊫ x → canonical5 a.
Proof. intros [[] [] [] [] []]. unfold canonical5, qlist. rewrite !Forall_cons. done. Qed.

Lemma rep5_gl5 a x : a ⊫ x → gl5 a = x.
Proof.
  intros [[_ H0] [_ H1] [_ H2] [_ H3] [_ H4]]. destruct x. unfold gl5, qmap. cbn in *. by f_equal.
Qed.

Lemma rep5_unique a b x : a ⊫ x → b ⊫ x → a = b.
Proof.
  intros Ha Hb. destruct a, b. f_equal; cbn in *;
    eapply represents_unique; (apply Ha || apply Hb).
Qed.

Lemma rep5_eq a x y : a ⊫ x → x = y → a ⊫ y.
Proof. by intros ? <-. Qed.

(** A source formula is evaluated coefficientwise, then compared as polynomials. *)
Ltac rep5_coefs :=
  repeat match goal with
  | H : ?a ⊫ ?x |- _ => destruct H; destruct a, x; cbn [q0 q1 q2 q3 q4] in *
  end.

Ltac rep5_cbn := cbn [GFp5.add GFp5.sub GFp5.neg f5_add f5_sub f5_opp qmap q0 q1 q2 q3 q4].

Ltac rep5_by := eapply rep_eq; [gl_eval | ring].

Lemma rep_W : W ⊨ fp 3.
Proof. apply rep_THREE. Qed.
#[export] Hint Resolve rep_W : gl.

Lemma rep5_add a b x y : a ⊫ x → b ⊫ y → (a + b)%gfp5 ⊫ (x + y)%f5.
Proof. intros Ha Hb. rep5_coefs. split; rep5_cbn; gl_eval. Qed.

Lemma rep5_sub a b x y : a ⊫ x → b ⊫ y → (a - b)%gfp5 ⊫ (x - y)%f5.
Proof. intros Ha Hb. rep5_coefs. split; rep5_cbn; gl_eval. Qed.

Lemma rep5_neg a x : a ⊫ x → (- a)%gfp5 ⊫ (- x)%f5.
Proof. intros Ha. rep5_coefs. split; rep5_cbn; gl_eval. Qed.

Lemma rep5_mul a b x y : a ⊫ x → b ⊫ y → (a * b)%gfp5 ⊫ (x * y)%f5.
Proof.
  intros Ha Hb. rep5_coefs.
  split; unfold GFp5.mul; f5_coefs; rep5_by.
Qed.

Lemma rep5_square a x : a ⊫ x → GFp5.square a ⊫ (x * x)%f5.
Proof.
  intros Ha. rep5_coefs.
  split; unfold GFp5.square; f5_coefs; rep5_by.
Qed.

Lemma rep5_double a x : a ⊫ x → GFp5.double a ⊫ (x + x)%f5.
Proof. intros H. exact (rep5_add a a x x H H). Qed.

Lemma rep5_scalar_mul a s x y : a ⊫ x → s ⊨ y → GFp5.scalar_mul a s ⊫ (x * base y)%f5.
Proof. intros Ha Hs. rep5_coefs. split; unfold GFp5.scalar_mul; f5_coefs; rep5_by. Qed.

Lemma rep5_triple a x : a ⊫ x → GFp5.triple a ⊫ (f5 3 * x)%f5.
Proof.
  intros Ha. assert (GoldilocksField.new 3 ⊨ fp 3) by by apply rep_new.
  rep5_coefs. split; unfold GFp5.triple; f5_coefs; rep5_by.
Qed.

Lemma rep5_ZERO : GFp5.ZERO ⊫ 0%f5.
Proof. split; apply rep_ZERO. Qed.
Lemma rep5_ONE : GFp5.ONE ⊫ 1%f5.
Proof. split; (apply rep_ONE || apply rep_ZERO). Qed.
Lemma rep5_TWO : GFp5.TWO ⊫ f5 2.
Proof. split; (apply rep_TWO || apply rep_ZERO). Qed.

Lemma rep5_from_base a x : a ⊨ x → GFp5.from_base a ⊫ base x.
Proof. intros H. split; (apply H || apply rep_ZERO). Qed.

Lemma rep5_from_u64_array arr :
  Forall is_u64 (qlist arr) → GFp5.from_u64_array arr ⊫ qmap fp arr.
Proof.
  destruct arr. unfold qlist. rewrite !Forall_cons. intros (? & ? & ? & ? & ? & _).
  split; by apply rep_new.
Qed.

Lemma rep5_is_zero a x : a ⊫ x → GFp5.is_zero a = true ↔ x = 0%f5.
Proof.
  intros H. destruct a, x, H. unfold GFp5.is_zero, qlist. cbn [forallb]. rep5_cbn.
  rewrite !andb_true_iff, !is_zero_rep by eassumption. unfold f5_zero, base. naive_solver.
Qed.

Lemma rep5_is_zero_false a x : a ⊫ x → GFp5.is_zero a = false ↔ x ≠ 0%f5.
Proof. intros H. rewrite <- (rep5_is_zero a x H). destruct (GFp5.is_zero a); naive_solver. Qed.

(** ** Frobenius *)

Lemma rep_dth_root : dth_root ⊨ zeta.
Proof. by apply rep_new. Qed.

Lemma zeta_5 : (zeta ^ 5 = 1)%fp.
Proof. apply Zmod.to_Z_inj. by vm_compute. Qed.

Definition scale (z : Fp) (x : F5) : F5 :=
  Quint (q0 x) (z * q1 x)%fp (z ^ 2 * q2 x)%fp (z ^ 3 * q3 x)%fp (z ^ 4 * q4 x)%fp.

Lemma scale_1 x : scale 1%fp x = x.
Proof. destruct x. unfold scale. rep5_cbn. f_equal; ring. Qed.

Lemma iter_sigma k x : Nat.iter k sigma x = scale (zeta ^ Z.of_nat k)%fp x.
Proof.
  induction k as [|k IH].
  - change (x = scale (zeta ^ 0)%fp x). by rewrite Zmod.pow_0_r, scale_1.
  - cbn [Nat.iter nat_rect]. change (nat_rect _ x (λ _, sigma) k) with (Nat.iter k sigma x).
    rewrite IH. rewrite Nat2Z.inj_succ, Zmod.pow_succ_nonneg_r by lia.
    unfold scale, sigma. rep5_cbn. f_equal; ring.
Qed.

Lemma zeta_pow_mod k : (zeta ^ Z.of_nat (k mod 5) = zeta ^ Z.of_nat k)%fp.
Proof.
  rewrite (Nat.div_mod_eq k 5) at 2. rewrite Nat2Z.inj_add, Nat2Z.inj_mul.
  rewrite Zmod.pow_add_r_nonneg, Zmod.pow_mul_r_nonneg by lia. change (Z.of_nat 5) with 5.
  rewrite zeta_5, Zmod.pow_1_l. ring.
Qed.

Lemma rep_iter_mul k r x : r ⊨ x →
  Nat.iter k (λ z0, (z0 * r)%gl) r ⊨ (x ^ Z.of_nat (S k))%fp.
Proof.
  intros H. induction k as [|k IH].
  - cbn. by rewrite Zmod.pow_1_r.
  - rewrite Nat2Z.inj_succ, Zmod.pow_succ_nonneg_r by lia. cbn [Nat.iter nat_rect].
    eapply rep_eq; [apply rep_mul; [exact IH | exact H]|]. ring.
Qed.

Lemma rep5_repeated_frobenius a x k :
  a ⊫ x → GFp5.repeated_frobenius a k ⊫ Nat.iter k sigma x.
Proof.
  intros H. rewrite iter_sigma, <- zeta_pow_mod. unfold GFp5.repeated_frobenius.
  assert (∀ z, z = 0%nat → a ⊫ scale (zeta ^ Z.of_nat z)%fp x) as H0.
  { intros z ->. eapply rep5_eq; [done|]. by rewrite Zmod.pow_0_r, scale_1. }
  destruct (Nat.eqb_spec k 0) as [->|Hk]; [by apply H0|].
  destruct (Nat.eqb_spec (k mod 5) 0) as [Hm|Hm]; [by apply H0|].
  pose proof (rep_iter_mul (k mod 5 - 1) _ _ rep_dth_root) as Hz.
  replace (S (k mod 5 - 1)) with (k mod 5)%nat in Hz by lia.
  revert Hz. generalize (Nat.iter (k mod 5 - 1) (λ z0, (z0 * dth_root)%gl) dth_root).
  generalize (zeta ^ Z.of_nat (k mod 5))%fp. intros z z0 Hz. clear H0.
  rep5_coefs. split; unfold scale; rep5_cbn; rep5_by.
Qed.

Lemma rep5_frobenius a x : a ⊫ x → GFp5.frobenius a ⊫ sigma x.
Proof. apply (rep5_repeated_frobenius a x 1). Qed.

(** ** Inversion and the Legendre symbol *)

(** The inverse of the specification, zero at zero. *)
Definition f5_inv (x : F5) : F5 := (conjugates x * base (norm x ^ (p - 2))%fp)%f5.

Lemma f5_inv_r x : x ≠ 0%f5 → (x * f5_inv x = 1)%f5.
Proof. apply f5_inverse. Qed.

Lemma conjugates_0 : conjugates 0%f5 = 0%f5.
Proof. unfold conjugates, f5_zero. rewrite !sigma_base. f5_ring. Qed.

Lemma f5_inv_0 : f5_inv 0%f5 = 0%f5.
Proof. unfold f5_inv. rewrite conjugates_0. generalize (norm 0%f5 ^ (p - 2))%fp. intros. ring. Qed.

Lemma fp_pow_0_l n : 0 < n → (0 ^ n = 0)%fp.
Proof. intros. apply Zmod.pow_0_l. lia. Qed.

(** The inverse the source substitutes zero for when there is none. *)
Lemma rep_inverse_or_zero a x :
  a ⊨ x → GFp5.unwrap_or_zero (GoldilocksField.inverse a) ⊨ (x ^ (p - 2))%fp.
Proof.
  intros H. pose proof (inverse_rep a x H) as Hi.
  destruct (GoldilocksField.inverse a); cbn [GFp5.unwrap_or_zero]; [apply Hi|].
  rewrite Hi, fp_pow_0_l by done. apply rep_ZERO.
Qed.

Lemma rep5_conjugates a x :
  a ⊫ x →
  let d := GFp5.frobenius a in
  let e := (d * GFp5.frobenius d)%gfp5 in
  (e * GFp5.repeated_frobenius e 2)%gfp5 ⊫ conjugates x.
Proof.
  intros H d e.
  assert (e ⊫ (sigma x * sigma (sigma x))%f5) as He.
  { apply rep5_mul; [by apply rep5_frobenius | by apply rep5_frobenius, rep5_frobenius]. }
  eapply rep5_eq; [apply rep5_mul; [exact He | exact (rep5_repeated_frobenius _ _ 2 He)]|].
  change (Nat.iter 2 sigma ?y) with (sigma (sigma y)). by rewrite !sigma_mul.
Qed.

Lemma rep5_inverse a x : a ⊫ x → GFp5.inverse_or_zero a ⊫ f5_inv x.
Proof.
  intros H. unfold GFp5.inverse_or_zero. destruct (GFp5.is_zero a) eqn:E.
  { apply (rep5_is_zero _ _ H) in E. subst x. rewrite f5_inv_0. apply rep5_ZERO. }
  cbv zeta. pose proof (rep5_conjugates a x H) as Hf. cbv zeta in Hf.
  unfold f5_inv. apply rep5_scalar_mul; [exact Hf|]. apply rep_inverse_or_zero.
  exact (rep5_0 _ _ (rep5_mul _ _ _ _ H Hf)).
Qed.

Lemma rep5_div a b x y : a ⊫ x → b ⊫ y → GFp5.div a b ⊫ (x * f5_inv y)%f5.
Proof. intros. apply rep5_mul; [done|]. by apply rep5_inverse. Qed.

Lemma exp_base_rep a x e : a ⊨ x → 0 ≤ e < 2 ^ 64 → exp_base a e ⊨ (x ^ e)%fp.
Proof.
  intros Ha He. unfold exp_base.
  eapply rep_eq; [apply pow_loop_rep; [apply rep_ONE | exact Ha | exact He]|].
  apply Zmod.mul_1_l.
Qed.

Lemma fp_pow_nonzero (x : Fp) n : 0 ≤ n → x ≠ 0%fp → (x ^ n ≠ 0)%fp.
Proof.
  intros Hn Hx. revert n Hn. apply natlike_ind.
  - rewrite Zmod.pow_0_r. intros H%(f_equal Zmod.to_Z). by vm_compute in H.
  - intros n Hn IH. rewrite Zmod.pow_succ_nonneg_r by done. by intros [|]%fp_integral.
Qed.

(** (p-1)/2 = 2^63 - 2^31. *)
Lemma legendre_exponent (n : Fp) :
  ((n ^ 2 ^ 31) ^ Z.shiftl 1 32 * (n ^ 2 ^ 31) ^ (p - 2) = n ^ ((p - 1) / 2)%Z)%fp.
Proof.
  destruct (decide (n = 0%fp)) as [->|Hn].
  { rewrite !fp_pow_0_l by done. apply Zmod.mul_0_l. }
  pose proof (fp_pow_nonzero n (2 ^ 31) ltac:(done) Hn) as Hv.
  rewrite <- Zmod.pow_mul_r_nonneg by done.
  change (2 ^ 31 * Z.shiftl 1 32) with (2 ^ 31 + (p - 1) / 2).
  rewrite Zmod.pow_add_r_nonneg by done. pose proof (fp_inverse _ Hv) as Hi. revert Hi.
  generalize (n ^ 2 ^ 31)%fp (n ^ ((p - 1) / 2)%Z)%fp. intros v w.
  generalize (v ^ (p - 2))%fp. intros i Hi.
  transitivity (v * i * w)%fp; [ring|]. rewrite Hi. ring.
Qed.

(** The quadratic character: the power (p-1)/2 of the norm. *)
Lemma legendre_rep a x : a ⊫ x → GFp5.legendre a ⊨ (norm x ^ ((p - 1) / 2)%Z)%fp.
Proof.
  intros H. unfold GFp5.legendre. cbv zeta.
  set (f1 := GFp5.frobenius a). set (f2 := GFp5.frobenius f1).
  assert ((f1 * f2)%gfp5 ⊫ (sigma x * sigma (sigma x))%f5) as H12.
  { apply rep5_mul; [by apply rep5_frobenius | by apply rep5_frobenius, rep5_frobenius]. }
  assert (q0 (a * (f1 * f2) * GFp5.repeated_frobenius (f1 * f2) 2)%gfp5 ⊨ norm x) as Hn.
  { eapply rep_eq; [apply rep5_0, rep5_mul; [exact (rep5_mul _ _ _ _ H H12)
      | exact (rep5_repeated_frobenius _ _ 2 H12)]|].
    change (Nat.iter 2 sigma ?y) with (sigma (sigma y)). rewrite !sigma_mul.
    unfold norm, conjugates. f_equal. ring. }
  revert Hn. generalize (q0 (a * (f1 * f2) * GFp5.repeated_frobenius (f1 * f2) 2)%gfp5).
  generalize (norm x). intros n g Hn. clear - Hn.
  assert (exp_base g (Z.shiftl 1 31) ⊨ (n ^ 2 ^ 31)%fp) as H31 by by apply exp_base_rep.
  eapply rep_eq.
  { apply rep_mul; [apply exp_base_rep; [exact H31 | done] | apply rep_inverse_or_zero; exact H31]. }
  apply legendre_exponent.
Qed.

(** ** Square roots in the base field *)

Lemma to_u64_one a x : a ⊨ x → (GoldilocksField.to_u64 a =? 1) = true ↔ x = 1%fp.
Proof.
  intros H. rewrite (to_u64_rep _ _ H), Z.eqb_eq. split.
  - intros Hx. apply Zmod.to_Z_inj. by rewrite Hx.
  - by intros ->.
Qed.

Lemma to_u64_one_false a x : a ⊨ x → (GoldilocksField.to_u64 a =? 1) = false ↔ x ≠ 1%fp.
Proof.
  intros H. rewrite <- (to_u64_one a x H). destruct (_ =? 1); naive_solver.
Qed.

Lemma fp_pow_2_succ (x : Fp) k :
  (x ^ (2 ^ Z.of_nat (S k))%Z = x ^ (2 ^ Z.of_nat k)%Z * x ^ (2 ^ Z.of_nat k)%Z)%fp.
Proof.
  rewrite Nat2Z.inj_succ, Z.pow_succ_r, Z.mul_comm by lia.
  rewrite Zmod.pow_mul_r_nonneg by lia. by rewrite Zmod.pow_2_r.
Qed.

Lemma rep_iter_square k a x :
  a ⊨ x → Nat.iter k GoldilocksField.square a ⊨ (x ^ (2 ^ Z.of_nat k)%Z)%fp.
Proof.
  intros H. induction k as [|k IH].
  - cbn. by rewrite Zmod.pow_1_r.
  - rewrite fp_pow_2_succ. cbn [Nat.iter nat_rect]. by apply rep_square.
Qed.

Lemma least_order_spec fuel temp i j (t : Fp) :
  temp ⊨ (t ^ (2 ^ Z.of_nat i)%Z)%fp → (t ^ (2 ^ Z.of_nat j)%Z)%fp = 1%fp →
  (i ≤ j < i + fuel)%nat →
  ∃ k, least_order fuel temp i = Some k ∧ (i ≤ k ≤ j)%nat ∧
    (t ^ (2 ^ Z.of_nat k)%Z)%fp = 1%fp ∧
    ∀ l, (i ≤ l < k)%nat → (t ^ (2 ^ Z.of_nat l)%Z)%fp ≠ 1%fp.
Proof.
  revert temp i. induction fuel as [|fuel IH]; intros temp i Ht Hj Hb; [lia|].
  cbn [least_order]. destruct (_ =? 1) eqn:E.
  - apply (to_u64_one _ _ Ht) in E. exists i. split_and!; [done|lia|lia|done|lia].
  - apply (to_u64_one_false _ _ Ht) in E.
    assert (i ≠ j) by by intros ->.
    destruct (IH (GoldilocksField.square temp) (S i)) as (k & Hk & Hik & H1 & Hmin); [|done|lia|].
    { rewrite fp_pow_2_succ. by apply rep_square. }
    exists k. split_and!; [done|lia|lia|done|]. intros l Hl.
    destruct (decide (l = i)) as [->|]; [done|]. apply Hmin. lia.
Qed.

Lemma fp_sqrt_one (x : Fp) : (x * x = 1)%fp → x ≠ 1%fp → x = (- (1))%fp.
Proof.
  intros H Hx. assert ((x - 1) * (x + 1) = 0)%fp as [Hz|Hz]%fp_integral.
  { fp_solve 1%fp H. }
  - by apply Zmod.sub_eq_0 in Hz.
  - fp_solve 1%fp Hz.
Qed.

Lemma fp_pow_pow2 (x : Fp) a b :
  ((x ^ (2 ^ Z.of_nat a)%Z) ^ (2 ^ Z.of_nat b)%Z = x ^ (2 ^ Z.of_nat (a + b))%Z)%fp.
Proof.
  rewrite <- Zmod.pow_mul_r_nonneg, <- Z.pow_add_r by lia. by rewrite Nat2Z.inj_add.
Qed.

(** The loop invariant of Tonelli and Shanks: c has order 2^m, the order of t
    divides 2^(m-1), and r * r = a * t.  Every turn lowers m. *)
Lemma tonelli_loop_spec fuel m c t r (vc vt vr va : Fp) :
  c ⊨ vc → t ⊨ vt → r ⊨ vr → (m < fuel)%nat → (m ≤ 63)%nat →
  (vc ^ (2 ^ Z.of_nat m)%Z = - (1))%fp → (vt ^ (2 ^ Z.of_nat m)%Z = 1)%fp →
  (vr * vr = va * vt)%fp →
  ∃ s y, tonelli_loop fuel (S m) c t r = Some s ∧ s ⊨ y ∧ (y * y = va)%fp.
Proof.
  revert m c t r vc vt vr. induction fuel as [|fuel IH]; intros m c t r vc vt vr Hc Ht Hr Hf Hm Hvc Hvt Hvr;
    [lia|].
  cbn [tonelli_loop]. destruct (_ =? 1) eqn:E.
  { apply (to_u64_one _ _ Ht) in E. subst vt. exists r, vr. split_and!; [done..|].
    rewrite Hvr. ring. }
  apply (to_u64_one_false _ _ Ht) in E.
  assert (m ≠ 0%nat) as Hm0.
  { intros ->. cbn in Hvt. by rewrite Zmod.pow_1_r in Hvt. }
  destruct (least_order_spec 64 (GoldilocksField.square t) 1 m vt) as (i & -> & Hi & H1 & Hmin);
    [|done|lia|].
  { rewrite fp_pow_2_succ. change (2 ^ Z.of_nat 0) with 1. rewrite Zmod.pow_1_r. by apply rep_square. }
  destruct i as [|i]; [lia|]. destruct (Nat.leb_spec (S m) (S i)); [lia|].
  replace (S m - S i - 1)%nat with (m - S i)%nat by lia.
  pose proof (rep_iter_square (m - S i) c vc Hc) as Hb.
  set (b := Nat.iter (m - S i) GoldilocksField.square c) in *.
  set (vb := (vc ^ (2 ^ Z.of_nat (m - S i))%Z)%fp) in *.
  assert (vb ^ (2 ^ Z.of_nat (S i))%Z = - (1))%fp as Hvb.
  { unfold vb. rewrite fp_pow_pow2. replace (m - S i + S i)%nat with m by lia. done. }
  assert ((vb * vb) ^ (2 ^ Z.of_nat i)%Z = - (1))%fp as Hvbb.
  { rewrite Zmod.pow_mul_l_nonneg by lia. by rewrite <- fp_pow_2_succ. }
  assert (vt ^ (2 ^ Z.of_nat i)%Z = - (1))%fp as Hti.
  { apply fp_sqrt_one; [by rewrite <- fp_pow_2_succ|].
    destruct i as [|i]; [by cbn; rewrite Zmod.pow_1_r|]. apply Hmin. lia. }
  apply (IH i _ _ _ (vb * vb)%fp (vt * (vb * vb))%fp (vr * vb)%fp); [gl_eval..|lia|lia|done| |].
  - rewrite Zmod.pow_mul_l_nonneg, Hti, Hvbb by lia. ring.
  - transitivity (vr * vr * (vb * vb))%fp; [ring|]. rewrite Hvr. ring.
Qed.

(** The search for a non-residue stops at seven. *)
Lemma find_nonresidue_seven :
  find_nonresidue 64 (GoldilocksField.new 2) = Some (GoldilocksField.new 7).
Proof. vm_compute. reflexivity. Qed.

Lemma fp_square_criterion (y : Fp) : (y * y ≠ 0)%fp → ((y * y) ^ ((p - 1) / 2)%Z = 1)%fp.
Proof.
  intros Hy. rewrite <- Zmod.pow_2_r, <- Zmod.pow_mul_r_nonneg by done.
  change (2 * ((p - 1) / 2)) with (p - 1). apply fermat_pow. intros ->. apply Hy. ring.
Qed.

(** [sqrt_base] finds a square root, or the power (p-1)/2 is not one. *)
Lemma sqrt_base_euler a x :
  a ⊨ x →
  match sqrt_base a with
  | Some r => ∃ y, r ⊨ y ∧ (y * y = x)%fp
  | None => x ≠ 0%fp ∧ (x ^ ((p - 1) / 2)%Z ≠ 1)%fp
  end.
Proof.
  intros H. unfold sqrt_base. destruct (GoldilocksField.is_zero a) eqn:E.
  { apply (is_zero_rep _ _ H) in E. exists 0%fp. split; [apply rep_ZERO|]. rewrite E. ring. }
  apply (is_zero_rep_false _ _ H) in E. cbv zeta.
  pose proof (exp_base_rep a x ((p - 1) / 2) H ltac:(done)) as Hl.
  destruct (GoldilocksField.to_u64 _ =? 1) eqn:E1; cbn [negb].
  - apply (to_u64_one _ _ Hl) in E1. rewrite find_nonresidue_seven. cbn [mbind option_bind].
    assert (GoldilocksField.new 7 ⊨ fp 7) as H7 by (apply rep_new; word).
    change (Z.shiftl 1 32 - 1) with (2 ^ 32 - 1).
    destruct (tonelli_loop_spec 64 31 (exp_base (GoldilocksField.new 7) (2 ^ 32 - 1))
      (exp_base a (2 ^ 32 - 1)) (exp_base a ((2 ^ 32 - 1 + 1) / 2))
      (fp 7 ^ (2 ^ 32 - 1))%fp (x ^ (2 ^ 32 - 1))%fp (x ^ (2 ^ 31)%Z)%fp x)
      as (s & y & -> & Hs & Hy); [apply exp_base_rep; [assumption|lia]..|lia|lia| | | |exists y; split; assumption].
    + rewrite <- Zmod.pow_mul_r_nonneg by lia. change (Z.of_nat 31) with 31.
      rewrite seven_nonresidue. exact (Zmod.of_Z_m1 p).
    + rewrite <- Zmod.pow_mul_r_nonneg by lia.
      change ((2 ^ 32 - 1) * 2 ^ Z.of_nat 31) with ((p - 1) / 2). exact E1.
    + rewrite <- Zmod.pow_add_r_nonneg, <- Zmod.pow_succ_nonneg_r by lia. reflexivity.
  - apply (to_u64_one_false _ _ Hl) in E1. split; [exact E | exact E1].
Qed.

(** It finds a root of every square and refuses everything else. *)
Lemma sqrt_base_spec a x :
  a ⊨ x →
  match sqrt_base a with
  | Some r => ∃ y, r ⊨ y ∧ (y * y = x)%fp
  | None => ∀ y, (y * y ≠ x)%fp
  end.
Proof.
  intros H. pose proof (sqrt_base_euler a x H) as Hs. destruct (sqrt_base a); [exact Hs|].
  destruct Hs as [H0 H1]. intros y <-. exact (H1 (fp_square_criterion y H0)).
Qed.

(** ** Square roots in the extension *)

Lemma rep5_exp_power_of_2 a x n :
  a ⊫ x → GFp5.exp_power_of_2 a n ⊫ (x ^ (2 ^ Z.of_nat n)%Z)%f5.
Proof.
  intros H. induction n as [|n IH].
  - change (a ⊫ (x ^ 1)%f5). by rewrite f5_pow_1.
  - rewrite Nat2Z.inj_succ, Z.pow_succ_r, Z.mul_comm, f5_pow_mul, f5_pow_2 by lia.
    apply rep5_square. exact IH.
Qed.

(** (x * x^(2^63) / x^(2^31))^2 = x^(p+1), the product of x and its conjugate. *)
Lemma sqrt_power x :
  let v := (x ^ 2 ^ 31)%f5 in
  let d := (x * v ^ 2 ^ 32 * f5_inv v)%f5 in
  (d * d = x * sigma x)%f5.
Proof.
  intros v d. destruct (decide (x = 0%f5)) as [->|Hx].
  { unfold d. change (sigma 0%f5) with (sigma (base 0%fp)). rewrite sigma_base.
    generalize (v ^ 2 ^ 32 * f5_inv v)%f5. intros w. change (base 0%fp) with 0%f5.
    generalize (v ^ 2 ^ 32)%f5 (f5_inv v). intros. ring. }
  assert (v ≠ 0%f5) as Hv by by apply f5_pow_nonzero.
  pose proof (f5_inv_r v Hv) as Hi.
  assert (v ^ 2 ^ 32 * v ^ 2 ^ 32 = v * v * (x ^ (p - 1)))%f5 as Hp.
  { unfold v. rewrite <- !f5_pow_mul, <- !f5_pow_add by done. f_equal. }
  assert (sigma x = x * x ^ (p - 1))%f5 as ->.
  { rewrite sigma_pow_p, <- f5_pow_succ by (unfold p; lia). f_equal. }
  unfold d. clear d. clearbody v. revert Hp Hi.
  generalize (v ^ 2 ^ 32)%f5 (f5_inv v) (x ^ (p - 1))%f5. intros w i u Hw Hi.
  transitivity (x * x * (w * w) * (i * i))%f5; [ring|]. rewrite Hw.
  transitivity (x * x * u * ((v * i) * (v * i)))%f5; [ring|]. rewrite Hi. ring.
Qed.

Lemma conjugates_zero x : conjugates x = 0%f5 → x = 0%f5.
Proof. intros H. apply norm_zero. unfold norm. rewrite H. f5_ring. Qed.

Lemma norm_square_none x :
  (∀ y, (y * y ≠ norm x)%fp) → ∀ z, (z * z ≠ x)%f5.
Proof. intros H z <-. apply (H (norm z)). by rewrite norm_mul. Qed.

(** With e * e the product of the other conjugates, a root of the norm over e is
    a root of the element. *)
Lemma sqrt_quotient x e y :
  (e * e = conjugates x)%f5 → (y * y = norm x)%fp →
  (base y * f5_inv e * (base y * f5_inv e) = x)%f5.
Proof.
  intros He Hy. pose proof (norm_eq x) as Hn. rewrite <- Hy, <- He, base_mul in Hn.
  destruct (decide (e = 0%f5)) as [->|He0].
  - rewrite f5_inv_0. assert (x = 0%f5) as ->; [|ring].
    apply conjugates_zero. rewrite <- He. ring.
  - pose proof (f5_inv_r e He0) as Hi. revert Hn Hi. generalize (f5_inv e) (base y).
    intros i w Hn Hi. transitivity ((w * w) * (i * i))%f5; [ring|]. rewrite <- Hn.
    transitivity (x * ((e * i) * (e * i)))%f5; [ring|]. rewrite Hi. ring.
Qed.

Lemma sqrt_conjugates x d :
  (d * d = x * sigma x)%f5 →
  (sigma (d * sigma (sigma d)) * sigma (d * sigma (sigma d)) = conjugates x)%f5.
Proof.
  intros Hdd. unfold conjugates. rewrite !sigma_mul.
  transitivity (sigma (d * d) * sigma (sigma (sigma (d * d))))%f5; [rewrite !sigma_mul; ring|].
  rewrite Hdd, !sigma_mul. ring.
Qed.

(** [sqrt] finds a square root of every square and refuses everything else. *)
Lemma sqrt_spec a x :
  a ⊫ x →
  match GFp5.sqrt a with
  | Some r => ∃ y, r ⊫ y ∧ (y * y = x)%f5
  | None => ∀ y, (y * y ≠ x)%f5
  end.
Proof.
  intros H. unfold GFp5.sqrt. cbv zeta.
  pose proof (rep5_exp_power_of_2 a x 31 H) as Hv. change (Z.of_nat 31) with 31 in Hv.
  pose proof (rep5_exp_power_of_2 _ _ 32 Hv) as Hv2. change (Z.of_nat 32) with 32 in Hv2.
  pose proof (rep5_mul _ _ _ _ (rep5_mul _ _ _ _ H Hv2) (rep5_inverse _ _ Hv)) as Hd.
  pose proof (sqrt_power x) as Hdd. cbv zeta in Hdd. revert Hd Hdd.
  generalize (a * GFp5.exp_power_of_2 (GFp5.exp_power_of_2 a 31) 32
    * GFp5.inverse_or_zero (GFp5.exp_power_of_2 a 31))%gfp5.
  generalize (x * (x ^ 2 ^ 31) ^ 2 ^ 32 * f5_inv (x ^ 2 ^ 31))%f5.
  intros vd d Hd Hdd. clear Hv Hv2.
  pose proof (rep5_frobenius _ _ (rep5_mul _ _ _ _ Hd (rep5_repeated_frobenius _ _ 2 Hd))) as He.
  change (Nat.iter 2 sigma ?y) with (sigma (sigma y)) in He.
  remember (sigma (vd * sigma (sigma vd)))%f5 as ve eqn:Hve.
  assert (ve * ve = conjugates x)%f5 as Hee by (subst ve; by apply sqrt_conjugates).
  generalize dependent (GFp5.frobenius (d * GFp5.repeated_frobenius d 2)%gfp5). intros e He.
  pose proof (rep5_square _ _ He) as Hf. rewrite Hee in Hf.
  generalize dependent (GFp5.square e). intros f Hf.
  assert ((q0 a * q0 f + GoldilocksField.new 3
    * (q1 a * q4 f + q2 a * q3 f + q3 a * q2 f + q4 a * q1 f))%gl ⊨ norm x) as Hg.
  { unfold norm.
    clear - H Hf. revert Hf. generalize (conjugates x). intros c Hf.
    assert (GoldilocksField.new 3 ⊨ fp 3) by (apply rep_new; word).
    rep5_coefs. f5_coefs. rep5_by. }
  pose proof (sqrt_base_spec _ _ Hg) as Hs. destruct (sqrt_base _) as [s|].
  - destruct Hs as (y & Hs & Hy). exists (base y * f5_inv ve)%f5.
    split; [apply rep5_mul; [by apply rep5_from_base | by apply rep5_inverse]|].
    apply (sqrt_quotient x ve y); assumption.
  - by apply norm_square_none.
Qed.

(** ** The sign of an element *)

(** Only the first coefficient decides: it is even, and a zero is even. *)
Lemma sgn0_spec a x : a ⊫ x → GFp5.sgn0 a = Z.even (Zmod.to_Z (q0 x)).
Proof.
  intros H. pose proof (to_u64_rep _ _ (rep5_0 _ _ H)) as H0. rewrite <- H0.
  unfold GFp5.sgn0, qlist. cbn [fold_left fst].
  assert (∀ n, (Z.land n 1 =? 0) = Z.even n) as Heven.
  { intros n. change 1 with (Z.ones 1). rewrite Z.land_ones by lia. change (2 ^ 1) with 2.
    rewrite Zmod_even. by destruct (Z.even n). }
  rewrite !Heven. cbn [andb orb].
  destruct (GoldilocksField.is_zero (q0 a)) eqn:E; [|by rewrite !orb_false_r].
  apply (is_zero_rep _ _ (rep5_0 _ _ H)) in E. rewrite H0, E. done.
Qed.

Lemma fp_opp_odd (x : Fp) : x ≠ 0%fp → Z.even (Zmod.to_Z (- x)%fp) = negb (Z.even (Zmod.to_Z x)).
Proof.
  intros Hx. rewrite Zmod.to_Z_opp.
  pose proof (Zmod.to_Z_pos_bound x ltac:(done)) as Hb.
  assert (Zmod.to_Z x ≠ 0) as H0 by (intros H; apply Hx, Zmod.to_Z_inj; by rewrite H).
  rewrite Z.mod_opp_l_nz by (rewrite ?Z.mod_small; unfold p in *; lia).
  rewrite Z.mod_small, Z.even_sub by lia. by destruct (Z.even (Zmod.to_Z x)).
Qed.

Lemma canonical_sqrt_spec a x :
  a ⊫ x →
  match GFp5.canonical_sqrt a with
  | Some r => ∃ y, r ⊫ y ∧ (y * y = x)%f5 ∧ (q0 y ≠ 0%fp → Z.odd (Zmod.to_Z (q0 y)) = true)
  | None => ∀ y, (y * y ≠ x)%f5
  end.
Proof.
  intros H. unfold GFp5.canonical_sqrt. pose proof (sqrt_spec a x H) as Hs.
  destruct (GFp5.sqrt a) as [r|]; [|exact Hs]. destruct Hs as (y & Hr & Hy).
  pose proof (sgn0_spec r y Hr) as Hsgn. destruct (GFp5.sgn0 r).
  - exists (- y)%f5. split; [by apply rep5_neg|]. split; [rewrite <- Hy; ring|].
    intros Hq. rewrite <- Z.negb_even. change (q0 (- y)%f5) with (- q0 y)%fp in *.
    rewrite fp_opp_odd, <- Hsgn; [done|]. intros Hz. apply Hq. rewrite Hz. ring.
  - exists y. split_and!; [done..|]. intros _. by rewrite <- Z.negb_even, <- Hsgn.
Qed.

(** ** Properties *)

(** The operations of the quintic extension.  On elements with canonical
    coefficients, [add], [sub], [mul], [neg], the separate formulas of [square],
    [double], [triple] and [scalar_mul], and any number of Frobenius steps return
    canonical coefficients of the sum, difference, product modulo x^5 - 3,
    square, multiples and p-th powers of the polynomials. *)
Theorem gfp5_ops_correct a b s k :
  canonical5 a → canonical5 b → canonical s →
  (a + b)%gfp5 ⊫ (gl5 a + gl5 b)%f5 ∧
  (a - b)%gfp5 ⊫ (gl5 a - gl5 b)%f5 ∧
  (a * b)%gfp5 ⊫ (gl5 a * gl5 b)%f5 ∧
  (- a)%gfp5 ⊫ (- gl5 a)%f5 ∧
  GFp5.square a = (a * a)%gfp5 ∧
  GFp5.double a ⊫ (f5 2 * gl5 a)%f5 ∧
  GFp5.triple a ⊫ (f5 3 * gl5 a)%f5 ∧
  GFp5.scalar_mul a s ⊫ (base (gl s) * gl5 a)%f5 ∧
  GFp5.repeated_frobenius a k ⊫ Nat.iter k (λ x, x ^ p)%f5 (gl5 a).
Proof.
  intros Ha%canonical5_gl5 Hb%canonical5_gl5 Hs%canonical_gl. split_and!.
  - by apply rep5_add.
  - by apply rep5_sub.
  - by apply rep5_mul.
  - by apply rep5_neg.
  - exact (rep5_unique _ _ _ (rep5_square _ _ Ha) (rep5_mul _ _ _ _ Ha Ha)).
  - eapply rep5_eq; [by apply rep5_double|]. ring.
  - by apply rep5_triple.
  - eapply rep5_eq; [by apply rep5_scalar_mul|]. ring.
  - eapply rep5_eq; [by apply rep5_repeated_frobenius|]. clear.
    induction k as [|k IH]; [done|]. cbn [Nat.iter nat_rect]. rewrite <- sigma_pow_p. f_equal. exact IH.
Qed.

Lemma gfp5_ops_correct_witness :
  GFp5.square (Quint 1 2 3 4 5) = (Quint 1 2 3 4 5 * Quint 1 2 3 4 5)%gfp5.
Proof.
  assert (canonical5 (Quint 1 2 3 4 5)) as H by (unfold canonical5, qlist; rewrite !Forall_cons; done).
  apply (gfp5_ops_correct (Quint 1 2 3 4 5) (Quint 1 2 3 4 5) 0 0); done.
Defined.

(** Inversion in the quintic extension.  [inverse_or_zero] of zero is zero, and
    of every other element its multiplicative inverse; division is the product
    with it. *)
Theorem gfp5_inverse_correct a :
  canonical5 a →
  canonical5 (GFp5.inverse_or_zero a) ∧
  if decide (gl5 a = 0%f5) then GFp5.inverse_or_zero a = GFp5.ZERO
  else (a * GFp5.inverse_or_zero a)%gfp5 = GFp5.ONE ∧ GFp5.div a a = GFp5.ONE.
Proof.
  intros Ha%canonical5_gl5. pose proof (rep5_inverse _ _ Ha) as Hi.
  split; [by eapply rep5_canonical|]. case_decide as H0.
  - rewrite H0, f5_inv_0 in Hi. exact (rep5_unique _ _ _ Hi rep5_ZERO).
  - pose proof (f5_inv_r _ H0) as Hr.
    pose proof (rep5_mul _ _ _ _ Ha Hi) as Hm. rewrite Hr in Hm.
    split; exact (rep5_unique _ _ _ Hm rep5_ONE).
Qed.

Lemma gfp5_inverse_correct_witness :
  canonical5 (GFp5.inverse_or_zero (Quint 1 2 3 4 5)) ∧
  if decide (gl5 (Quint 1 2 3 4 5) = 0%f5)
  then GFp5.inverse_or_zero (Quint 1 2 3 4 5) = GFp5.ZERO
  else (Quint 1 2 3 4 5 * GFp5.inverse_or_zero (Quint 1 2 3 4 5))%gfp5 = GFp5.ONE ∧
    GFp5.div (Quint 1 2 3 4 5) (Quint 1 2 3 4 5) = GFp5.ONE.
Proof.
  apply gfp5_inverse_correct. unfold canonical5, qlist. rewrite !Forall_cons. done.
Defined.

Lemma half_nonneg : 0 ≤ (p - 1) / 2.
Proof. done. Qed.

(** Every field element is stored by some word. *)
Lemma represented (n : Fp) : ∃ a, a ⊨ n.
Proof.
  exists (Zmod.to_Z n * 2 ^ 64 mod p). rewrite <- (Zmod.of_Z_to_Z n) at 2.
  apply rep_small; [by apply Z.mod_pos_bound|].
  apply Zmod.of_Z_inj. by rewrite Z.mod_mod.
Qed.

(** Euler's criterion, from the algorithm: the power (p-1)/2 of a unit is one if
    it is a square and -1 if not. *)
Lemma fp_euler (n : Fp) :
  n ≠ 0%fp →
  ((n ^ ((p - 1) / 2)%Z = 1)%fp ∧ ∃ y, (y * y = n)%fp) ∨
  ((n ^ ((p - 1) / 2)%Z = - (1))%fp ∧ ∀ y, (y * y ≠ n)%fp).
Proof.
  intros Hn. destruct (represented n) as [a Ha].
  pose proof (sqrt_base_euler a n Ha) as Hs. pose proof (sqrt_base_spec a n Ha) as Hs'.
  destruct (sqrt_base a) as [r|].
  - left. destruct Hs as (y & _ & Hy). split; [|by exists y].
    subst n. exact (fp_square_criterion y Hn).
  - right. split; [|exact Hs']. apply fp_sqrt_one; [|apply Hs].
    rewrite <- Zmod.pow_2_r, <- Zmod.pow_mul_r_nonneg by (apply half_nonneg || lia).
    change ((p - 1) / 2 * 2) with (p - 1). exact (fermat_pow n Hn).
Qed.

Lemma represented5 (x : F5) : ∃ a, a ⊫ x.
Proof.
  destruct x as [x0 x1 x2 x3 x4].
  destruct (represented x0) as [a0 H0], (represented x1) as [a1 H1], (represented x2) as [a2 H2],
    (represented x3) as [a3 H3], (represented x4) as [a4 H4].
  exists (Quint a0 a1 a2 a3 a4). by split.
Qed.

(** An element of the extension is a square exactly if its norm is one. *)
Lemma norm_square x : (∃ y, (y * y = norm x)%fp) ↔ ∃ z, (z * z = x)%f5.
Proof.
  split.
  - intros [y Hy]. destruct (represented5 x) as [a Ha].
    pose proof (sqrt_power x) as Hdd. cbv zeta in Hdd.
    generalize dependent (x * (x ^ 2 ^ 31) ^ 2 ^ 32 * f5_inv (x ^ 2 ^ 31))%f5. intros d Hdd.
    exists (base y * f5_inv (sigma (d * sigma (sigma d))))%f5.
    apply sqrt_quotient; [by apply sqrt_conjugates | done].
  - intros [z <-]. exists (norm z). by rewrite norm_mul.
Qed.

(** The value [legendre] is to have, given the answer of [sqrt]. *)
Definition legendre_value (x : F5) (root : option (quint Z)) : Z :=
  if decide (x = 0%f5) then 0 else match root with Some _ => 1 | None => p - 1 end.

(** Right answers of [sqrt] and [canonical_sqrt] on [a]. *)
Definition roots_ok (a : quint Z) (root canonical_root : option (quint Z)) : Prop :=
  match root, canonical_root with
  | Some r, Some c =>
      canonical5 r ∧ canonical5 c ∧ (r * r)%gfp5 = a ∧ (c * c)%gfp5 = a ∧
      (q0 c ≠ 0 → Z.odd (GoldilocksField.to_u64 (q0 c)) = true)
  | None, None => ∀ r, canonical5 r → (r * r)%gfp5 ≠ a
  | _, _ => False
  end.

(** The Legendre symbol and the square root of the extension decide and find
    squares.  [legendre] is 0 at zero, 1 at the other squares and p - 1 (that is,
    -1) elsewhere; [sqrt] and [canonical_sqrt] return an element whose square is
    the argument exactly if there is one, and the root [canonical_sqrt] returns
    has an odd first coefficient unless that coefficient is zero.  The search for
    a non-residue and both loops of Tonelli and Shanks always finish. *)
Theorem gfp5_sqrt_exact a :
  canonical5 a →
  GoldilocksField.to_u64 (GFp5.legendre a) = legendre_value (gl5 a) (GFp5.sqrt a) ∧
  roots_ok a (GFp5.sqrt a) (GFp5.canonical_sqrt a).
Proof.
  intros Ha%canonical5_gl5. unfold legendre_value, roots_ok. split.
  - rewrite (to_u64_rep _ _ (legendre_rep _ _ Ha)).
    pose proof (sqrt_spec _ _ Ha) as Hs. case_decide as H0.
    { rewrite (proj2 (norm_zero _) H0), fp_pow_0_l by (by vm_compute). done. }
    destruct (fp_euler (norm (gl5 a))) as [[H1 H2]|[H1 H2]]; [by rewrite norm_zero|..]; rewrite H1.
    + destruct (GFp5.sqrt a); [done|]. destruct (proj1 (norm_square _) H2) as [z Hz]. by destruct (Hs z).
    + destruct (GFp5.sqrt a); [|done]. destruct Hs as (y & _ & Hy).
      destruct (proj2 (norm_square (gl5 a))) as [z Hz]; [by exists y|]. by destruct (H2 z).
  - pose proof (sqrt_spec _ _ Ha) as Hs. pose proof (canonical_sqrt_spec _ _ Ha) as Hc.
    assert (∀ r y, r ⊫ y → (y * y = gl5 a)%f5 → (r * r)%gfp5 = a) as Hsq.
    { intros r y Hr Hy. eapply rep5_unique; [|exact Ha].
      eapply rep5_eq; [exact (rep5_mul _ _ _ _ Hr Hr) | exact Hy]. }
    unfold GFp5.canonical_sqrt in *. destruct (GFp5.sqrt a) as [r|].
    + destruct Hs as (y & Hr & Hy).
      assert (∃ c, (if GFp5.sgn0 r then Some (- r)%gfp5 else Some r) = Some c) as [c Ec]
        by (destruct (GFp5.sgn0 r); eauto).
      rewrite Ec in *. destruct Hc as (y' & Hcr & Hy' & Hodd).
      split_and!; [by eapply rep5_canonical | by eapply rep5_canonical | by eapply Hsq | by eapply Hsq |].
      intros Hq. rewrite (to_u64_rep _ _ (rep5_0 _ _ Hcr)). apply Hodd. intros Hz. apply Hq.
      eapply represents_unique; [exact (rep5_0 _ _ Hcr)|]. rewrite Hz. apply rep_ZERO.
    + intros r Hr%canonical5_gl5 He. apply (Hs (gl5 r)). rewrite <- He.
      symmetry. apply rep5_gl5. exact (rep5_mul _ _ _ _ Hr Hr).
Qed.

Lemma gfp5_sqrt_exact_witness :
  GoldilocksField.to_u64 (GFp5.legendre GFp5.TWO) = legendre_value (gl5 GFp5.TWO) (GFp5.sqrt GFp5.TWO) ∧
  roots_ok GFp5.TWO (GFp5.sqrt GFp5.TWO) (GFp5.canonical_sqrt GFp5.TWO).
Proof.
  apply (gfp5_sqrt_exact GFp5.TWO). unfold canonical5, qlist. rewrite !Forall_cons. done.
Defined.

(** The sign does not tell an element with first coefficient zero from its
    negation: both are reported as to be negated. *)
Lemma sgn0_both_signs :
  GFp5.sgn0 (Quint 0 GoldilocksField.ONE 0 0 0) = true ∧
  GFp5.sgn0 (- Quint 0 GoldilocksField.ONE 0 0 0)%gfp5 = true.
Proof. split; vm_compute; reflexivity. Qed.

Lemma take_drop_concat5 (l0 l1 l2 l3 l4 : list Z) :
  length l0 = 8%nat → length l1 = 8%nat → length l2 = 8%nat → length l3 = 8%nat → length l4 = 8%nat →
  let l := concat [l0; l1; l2; l3; l4] in
  take 8 l = l0 ∧ take 8 (drop 8 l) = l1 ∧ take 8 (drop 16 l) = l2 ∧ take 8 (drop 24 l) = l3 ∧
  take 8 (drop 32 l) = l4.
Proof.
  intros H0 H1 H2 H3 H4 l. unfold l. clear l. cbn [concat].
  assert (∀ l : list Z, drop 16 l = drop 8 (drop 8 l) ∧ drop 24 l = drop 8 (drop 8 (drop 8 l)) ∧
    drop 32 l = drop 8 (drop 8 (drop 8 (drop 8 l)))) as Hd by (intros; by rewrite !drop_drop).
  match goal with |- context [drop 16 ?l] => destruct (Hd l) as (-> & -> & ->) end.
  rewrite !drop_app_length', !take_app_length' by lia. done.
Qed.

(** Bytes.  An element with canonical coefficients survives its 40-byte
    encoding, a [u64] array is read back reduced, and input of any other length
    is an error. *)
Theorem gfp5_bytes_roundtrip a arr bytes :
  canonical5 a → Forall is_u64 (qlist arr) →
  GFp5.from_le_bytes (GFp5.to_le_bytes a) = Some a ∧
  GFp5.to_u64_array (GFp5.from_u64_array arr) = qmap (λ v, v mod p) arr ∧
  (length bytes ≠ 40%nat → GFp5.from_le_bytes bytes = None).
Proof.
  intros Ha Harr. split_and!.
  - destruct a as [a0 a1 a2 a3 a4]. unfold canonical5, qlist in Ha. rewrite !Forall_cons in Ha.
    destruct Ha as (H0 & H1 & H2 & H3 & H4 & _).
    unfold GFp5.from_le_bytes, GFp5.to_le_bytes, qlist. rep5_cbn. cbn [map].
    pose proof (λ x, to_le_length 8 (GoldilocksField.to_u64 x)) as Hl.
    destruct (take_drop_concat5 (GoldilocksField.to_le_bytes a0) (GoldilocksField.to_le_bytes a1)
      (GoldilocksField.to_le_bytes a2) (GoldilocksField.to_le_bytes a3)
      (GoldilocksField.to_le_bytes a4)) as (-> & -> & -> & -> & ->); [apply Hl..|].
    rewrite !le_bytes_roundtrip by assumption. done.
  - destruct arr as [v0 v1 v2 v3 v4]. unfold qlist in Harr. rewrite !Forall_cons in Harr.
    destruct Harr as (H0 & H1 & H2 & H3 & H4 & _).
    unfold GFp5.to_u64_array, GFp5.from_u64_array, qmap. rep5_cbn. by rewrite !to_u64_new.
  - intros Hl. unfold GFp5.from_le_bytes. apply Nat.eqb_neq in Hl. by rewrite Hl.
Qed.

Lemma gfp5_bytes_roundtrip_witness :
  GFp5.from_le_bytes (GFp5.to_le_bytes (Quint 1 2 3 4 (p - 1))) = Some (Quint 1 2 3 4 (p - 1)) ∧
  GFp5.to_u64_array (GFp5.from_u64_array (Quint 1 2 3 4 u64_max)) =
    qmap (λ v, v mod p) (Quint 1 2 3 4 u64_max) ∧
  (length [0] ≠ 40%nat → GFp5.from_le_bytes [0] = None).
Proof.
  apply gfp5_bytes_roundtrip; unfold canonical5, qlist; rewrite !Forall_cons; done.
Defined.
