(* ===== verification/Poseidon2.v ===== *)
(** * The Poseidon2 hash

    [crates/hexagent-exchange/src/exchange/lighter/crypto/poseidon2.rs]: the
    permutation of twelve field elements and the sponge built on it.  The state is
    a list of twelve stored words; the loops of the source that update it in place
    are folds over their index ranges.

    The permutation is shown to compute the algebraic Poseidon2 permutation over
    the field (matrices, seventh powers and round constants), and to be injective:
    both matrices are invertible and 7 is prime to p - 1.  The sponge returns the
    requested number of elements whenever at least one is requested. *)

From Stdlib Require Import Zmod.Zmod.
From S2P Require Import Prelude Words Goldilocks Quintic Gfp5.

Definition WIDTH : nat := 12.
Definition RATE : nat := 8.
Definition ROUNDS_F : nat := 8.
Definition ROUNDS_F_HALF : nat := 4.
Definition ROUNDS_P : nat := 22.

Definition EXTERNAL_CONSTANTS : list (list Z) := [
  [15492826721047263190; 11728330187201910315; 8836021247773420868; 16777404051263952451;
   5510875212538051896; 6173089941271892285; 2927757366422211339; 10340958981325008808;
   8541987352684552425; 9739599543776434497; 15073950188101532019; 12084856431752384512];
  [4584713381960671270; 8807052963476652830; 54136601502601741; 4872702333905478703;
   5551030319979516287; 12889366755535460989; 16329242193178844328; 412018088475211848;
   10505784623379650541; 9758812378619434837; 7421979329386275117; 375240370024755551];
  [3331431125640721931; 15684937309956309981; 578521833432107983; 14379242000670861838;
   17922409828154900976; 8153494278429192257; 15904673920630731971; 11217863998460634216;
   3301540195510742136; 9937973023749922003; 3059102938155026419; 1895288289490976132];
  [5580912693628927540; 10064804080494788323; 9582481583369602410; 10186259561546797986;
   247426333829703916; 13193193905461376067; 6386232593701758044; 17954717245501896472;
   1531720443376282699; 2455761864255501970; 11234429217864304495; 4746959618548874102];
  [13571697342473846203; 17477857865056504753; 15963032953523553760; 16033593225279635898;
   14252634232868282405; 8219748254835277737; 7459165569491914711; 15855939513193752003;
   16788866461340278896; 7102224659693946577; 3024718005636976471; 13695468978618890430];
  [8214202050877825436; 2670727992739346204; 16259532062589659211; 11869922396257088411;
   3179482916972760137; 13525476046633427808; 3217337278042947412; 14494689598654046340;
   15837379330312175383; 8029037639801151344; 2153456285263517937; 8301106462311849241];
  [13294194396455217955; 17394768489610594315; 12847609130464867455; 14015739446356528640;
   5879251655839607853; 9747000124977436185; 8950393546890284269; 10765765936405694368;
   14695323910334139959; 16366254691123000864; 15292774414889043182; 10910394433429313384];
  [17253424460214596184; 3442854447664030446; 3005570425335613727; 10859158614900201063;
   9763230642109343539; 6647722546511515039; 909012944955815706; 18101204076790399111;
   11588128829349125809; 15863878496612806566; 5201119062417750399; 176665553780565743]
].

Definition INTERNAL_CONSTANTS : list Z := [
  11921381764981422944; 10318423381711320787; 8291411502347000766; 229948027109387563;
  9152521390190983261; 7129306032690285515; 15395989607365232011; 8641397269074305925;
  17256848792241043600; 6046475228902245682; 12041608676381094092; 12785542378683951657;
  14546032085337914034; 3304199118235116851; 16499627707072547655; 10386478025625759321;
  13475579315436919170; 16042710511297532028; 1411266850385657080; 9024840976168649958;
  14047056970978379368; 838728605080212101
].

Definition MATRIX_DIAG_12 : list Z := [
  0xc3b6c08e23ba9300; 0xd84b5de94a324fb6; 0x0d0c371c5b35b84f; 0x7964f570e7188037;
  0x5daf18bbd996604b; 0x6743bc47b9595257; 0x5528b9362c59bb70; 0xac45e25b7127b68b;
  0xa2077d7dfbb606b5; 0xf3faac6faee378ae; 0x0c6388b51545e883; 0xd27dbb6944917b60
].

Definition sbox (x : Z) : Z := GoldilocksField.pow7 x.

(** The turn of the first loop of the linear layer for the group at [idx]. *)
Definition mix_group (state : list Z) (idx : nat) : list Z :=
  let s i := state !!! (idx + i)%nat in
  let t0 := (s 0%nat + s 1%nat)%gl in
  let t1 := (s 2%nat + s 3%nat)%gl in
  let t2 := (t0 + t1)%gl in
  let t3 := (t2 + s 1%nat)%gl in
  let t4 := (t2 + s 3%nat)%gl in
  let t5 := GoldilocksField.double (s 0%nat) in
  let t6 := GoldilocksField.double (s 2%nat) in
  <[(idx + 3)%nat := (t5 + t4)%gl]> (<[(idx + 2)%nat := (t1 + t4)%gl]>
    (<[(idx + 1)%nat := (t6 + t3)%gl]> (<[idx := (t3 + t0)%gl]> state))).

Definition external_linear_layer (state : list Z) : list Z :=
  let state := fold_left (λ state i, mix_group state (i * 4)) (seq 0 3) state in
  let sums := map (λ k, fold_left (λ s j, (s + state !!! (j + k)%nat)%gl) [0; 4; 8]%nat
                          GoldilocksField.ZERO) (seq 0 4) in
  imap (λ i x, (x + sums !!! (i mod 4)%nat)%gl) state.

Definition internal_linear_layer (state : list Z) : list Z :=
  let sum := fold_left (λ sum i, (sum + state !!! i)%gl) (seq 1 11) (state !!! 0%nat) in
  imap (λ i x, let diag := GoldilocksField.new (MATRIX_DIAG_12 !!! i) in (x * diag + sum)%gl) state.

Definition add_rc (state : list Z) (round : nat) : list Z :=
  imap (λ i x, (x + GoldilocksField.new ((EXTERNAL_CONSTANTS !!! round) !!! i))%gl) state.

Definition add_rci (state : list Z) (round : nat) : list Z :=
  <[0%nat := (state !!! 0%nat + GoldilocksField.new (INTERNAL_CONSTANTS !!! round))%gl]> state.

Definition full_rounds (state : list Z) (start : nat) : list Z :=
  fold_left (λ state r, external_linear_layer (map sbox (add_rc state r)))
    (seq start ROUNDS_F_HALF) state.

Definition partial_rounds (state : list Z) : list Z :=
  fold_left (λ state r,
      let state := add_rci state r in
      internal_linear_layer (<[0%nat := sbox (state !!! 0%nat)]> state))
    (seq 0 ROUNDS_P) state.

Definition permute (state : list Z) : list Z :=
  full_rounds (partial_rounds (full_rounds (external_linear_layer state) 0)) ROUNDS_F_HALF.

(** The loop over one block of output: [inr] is the early return. *)
Fixpoint push_block (block outputs : list Z) (num_outputs : nat) : list Z + list Z :=
  match block with
  | [] => inl outputs
  | x :: block =>
      let outputs := outputs ++ [x] in
      if (length outputs =? num_outputs)%nat then inr outputs
      else push_block block outputs num_outputs
  end.

(** The outer loop; [None] if it has not returned after [fuel] blocks. *)
Fixpoint squeeze (fuel : nat) (perm outputs : list Z) (num_outputs : nat) : option (list Z) :=
  match fuel with
  | O => None
  | S fuel =>
      match push_block (take RATE perm) outputs num_outputs with
      | inr outputs => Some outputs
      | inl outputs => squeeze fuel (permute perm) outputs num_outputs
      end
  end.

(** One turn of the absorbing loop: the chunk overwrites a prefix of the state. *)
Definition absorb_chunk (perm chunk : list Z) : list Z := permute (list_inserts 0 chunk perm).

Definition absorb (input : list Z) : list Z :=
  fold_left absorb_chunk (chunks RATE input) (replicate WIDTH GoldilocksField.ZERO).

(** One block per eight outputs is enough fuel. *)
Definition hash_n_to_m_no_pad (input : list Z) (num_outputs : nat) : option (list Z) :=
  squeeze (S (num_outputs / RATE)) (absorb input) [] num_outputs.

Definition hash_to_quintic_extension (input : list Z) : option (quint Z) :=
  result ← hash_n_to_m_no_pad input 5;
  match result with
  | [r0; r1; r2; r3; r4] => Some (Quint r0 r1 r2 r3 r4)
  | _ => None
  end.

Definition hash_no_pad (input : list Z) : option (list Z) := hash_n_to_m_no_pad input 4.

Definition hash_two_to_one (h1 h2 : list Z) : option (list Z) := hash_no_pad (h1 ++ h2).

(** The published test vector of the permutation. *)
Lemma permute_vector :
  map GoldilocksField.to_u64 (permute (map GoldilocksField.new
    [5417613058500526590; 2481548824842427254; 6473243198879784792; 1720313757066167274;
     2806320291675974571; 7407976414706455446; 1105257841424046885; 7613435757403328049;
     3376066686066811538; 5888575799323675710; 6689309723188675948; 2468250420241012720])) =
  [5364184781011389007; 15309475861242939136; 5983386513087443499; 886942118604446276;
   14903657885227062600; 7742650891575941298; 1962182278500985790; 10213480816595178755;
   3510799061817443836; 4610029967627506430; 7566382334276534836; 2288460879362380348].
Proof. vm_compute. reflexivity. Qed.

Lemma hash_to_quintic_vector :
  GFp5.to_u64_array <$> hash_to_quintic_extension (map GoldilocksField.new
    [3451004116618606032; 11263134342958518251; 10957204882857370932; 5369763041201481933;
     7695734348563036858; 1393419330378128434; 7387917082382606332]) =
  Some (Quint 17992684813643984528 5243896189906434327 7705560276311184368 2785244775876017560
    14449776097783372302).
Proof. vm_compute. reflexivity. Qed.

(** ** The algebraic permutation *)

(** Entry of the matrix of the external layer: the circulant of 2, 3, 1, 1,
    doubled on the diagonal blocks. *)
Definition ext_entry (i j : nat) : Fp :=
  (fp (if (i / 4 =? j / 4)%nat then 2 else 1)%Z
   * fp (nth ((8 + j mod 4 - i mod 4) mod 4) [2; 3; 1; 1]%Z 0%Z))%fp.

(** Entry of the matrix of the internal layer: ones, and the given diagonal. *)
Definition int_entry (i j : nat) : Fp :=
  if (i =? j)%nat then (fp (nth i MATRIX_DIAG_12 0%Z) + 1)%fp else 1%fp.

Definition dot (row xs : list Fp) : Fp :=
  foldr (λ '(a, x) acc, a * x + acc)%fp 0%fp (zip row xs).

Definition mat_vec (m : nat → nat → Fp) (xs : list Fp) : list Fp :=
  map (λ i, dot (map (m i) (seq 0 12)) xs) (seq 0 12).

Definition spec_add_rc (xs : list Fp) (round : nat) : list Fp :=
  zip_with (λ x c, x + fp c)%fp xs (EXTERNAL_CONSTANTS !!! round).

Definition spec_full_round (xs : list Fp) (round : nat) : list Fp :=
  mat_vec ext_entry (map (λ x, x ^ 7)%fp (spec_add_rc xs round)).

Definition spec_partial_round (xs : list Fp) (round : nat) : list Fp :=
  match xs with
  | x :: xs => mat_vec int_entry (((x + fp (INTERNAL_CONSTANTS !!! round)) ^ 7)%fp :: xs)
  | [] => []
  end.

Definition spec_permute (xs : list Fp) : list Fp :=
  let xs := mat_vec ext_entry xs in
  let xs := fold_left spec_full_round (seq 0 4) xs in
  let xs := fold_left spec_partial_round (seq 0 22) xs in
  fold_left spec_full_round (seq 4 4) xs.

Abbreviation represents_all := (Forall2 represents).

(** A list of twelve elements, written out. *)
Ltac twelve l H :=
  do 12 (let x := fresh "x" in destruct l as [|x l]; [discriminate H|]); destruct l; [|discriminate H]; clear H.

Ltac twelve_reps H :=
  repeat match type of H with
  | Forall2 _ (_ :: _) _ =>
      let Hx := fresh "Hx" in let y := fresh "y" in
      apply Forall2_cons_inv_l in H as (y & ? & Hx & H & ->)
  | Forall2 _ [] _ => apply Forall2_nil_inv_l in H; subst
  end.

Lemma represents_length st xs : represents_all st xs → length xs = length st.
Proof. intros H. symmetry. by eapply Forall2_length. Qed.

(** Write a layer out on twelve elements and compare the coordinates. *)
Ltac layer_cbv :=
  cbv -[GoldilocksField.add GoldilocksField.mul GoldilocksField.double GoldilocksField.ZERO
        GoldilocksField.new Zmod.add Zmod.mul Zmod.zero Zmod.one Zmod.pow fp p].
Ltac layer_coords :=
  repeat apply Forall2_cons_2; [..|apply Forall2_nil_2]; (eapply rep_eq; [gl_eval | ring]).

Lemma external_linear_layer_rep st xs :
  length st = WIDTH → represents_all st xs →
  represents_all (external_linear_layer st) (mat_vec ext_entry xs).
Proof. intros Hl H. twelve st Hl. twelve_reps H. layer_cbv. layer_coords. Qed.

Lemma constants_u64 :
  Forall (Forall is_u64) EXTERNAL_CONSTANTS ∧ Forall is_u64 INTERNAL_CONSTANTS ∧
  Forall is_u64 MATRIX_DIAG_12.
Proof. unfold is_u64. split_and!; repeat constructor; done. Qed.

Lemma lookup_total_Forall {A} `{Inhabited A} (P : A → Prop) (l : list A) i :
  Forall P l → P inhabitant → P (l !!! i).
Proof.
  intros Hl Hd. rewrite list_lookup_total_alt.
  destruct (l !! i) as [x|] eqn:E; [|done]. by eapply Forall_lookup_1.
Qed.

Lemma rep_diag i : GoldilocksField.new (MATRIX_DIAG_12 !!! i) ⊨ fp (MATRIX_DIAG_12 !!! i).
Proof. apply rep_new. apply lookup_total_Forall; [apply constants_u64 | done]. Qed.

Lemma internal_linear_layer_rep st xs :
  length st = WIDTH → represents_all st xs →
  represents_all (internal_linear_layer st) (mat_vec int_entry xs).
Proof. intros Hl H. twelve st Hl. twelve_reps H. layer_cbv. layer_coords. Qed.

Lemma add_rc_rep st xs r :
  length st = WIDTH → (r < ROUNDS_F)%nat → represents_all st xs →
  represents_all (add_rc st r) (spec_add_rc xs r).
Proof.
  intros Hl Hr H. unfold add_rc, spec_add_rc.
  destruct constants_u64 as (Hc & _ & _). unfold is_u64 in Hc.
  assert (length (EXTERNAL_CONSTANTS !!! r) = 12%nat) as Hlen.
  { unfold ROUNDS_F in Hr. do 8 (destruct r as [|r]; [done|]). lia. }
  assert (Forall is_u64 (EXTERNAL_CONSTANTS !!! r)) as Hu.
  { apply lookup_total_Forall; [exact Hc | constructor]. }
  revert Hlen Hu. generalize (EXTERNAL_CONSTANTS !!! r). intros cs Hlen Hu.
  twelve st Hl. twelve_reps H. twelve cs Hlen. rewrite !Forall_cons in Hu.
  cbn [imap zip_with compose]. destruct_and! Hu.
  repeat apply Forall2_cons_2; [..|apply Forall2_nil_2]; (apply rep_add; [assumption|]);
    by apply rep_new.
Qed.

Lemma sbox_rep st xs : represents_all st xs → represents_all (map sbox st) (map (λ x, x ^ 7)%fp xs).
Proof. induction 1; cbn [map]; constructor; [by apply rep_pow7 | done]. Qed.

Lemma mat_vec_length m xs : length (mat_vec m xs) = WIDTH.
Proof. unfold mat_vec. by rewrite length_map, length_seq. Qed.

Lemma external_length st : length (external_linear_layer st) = length st.
Proof.
  unfold external_linear_layer. rewrite length_imap. cbn [seq fold_left]. unfold mix_group.
  by rewrite !length_insert.
Qed.

Lemma internal_length st : length (internal_linear_layer st) = length st.
Proof. unfold internal_linear_layer. by rewrite length_imap. Qed.

(** A loop over rounds, given that each round keeps the representation. *)
Lemma rounds_rep (f : list Z → nat → list Z) (g : list Fp → nat → list Fp) rs st xs :
  length st = WIDTH → represents_all st xs →
  (∀ st xs r, r ∈ rs → length st = WIDTH → represents_all st xs →
     length (f st r) = WIDTH ∧ represents_all (f st r) (g xs r)) →
  length (fold_left f rs st) = WIDTH ∧ represents_all (fold_left f rs st) (fold_left g rs xs).
Proof.
  intros Hl H Hf. revert st xs Hl H. induction rs as [|r rs IH]; intros st xs Hl H; [done|].
  cbn [fold_left]. destruct (Hf st xs r) as [Hl' H']; [set_solver|done..|].
  apply IH; [|done..]. intros. apply Hf; [set_solver|done..].
Qed.

Lemma full_rounds_rep st xs start :
  (start ≤ 4)%nat → length st = WIDTH → represents_all st xs →
  length (full_rounds st start) = WIDTH ∧
  represents_all (full_rounds st start) (fold_left spec_full_round (seq start 4) xs).
Proof.
  intros Hs Hl H. apply rounds_rep; [done..|]. intros s ys r Hr Hls Hrep.
  apply elem_of_seq in Hr. assert (length (map sbox (add_rc s r)) = WIDTH) as Hlen.
  { rewrite length_map. unfold add_rc. by rewrite length_imap. }
  split; [by rewrite external_length|]. apply external_linear_layer_rep; [done|].
  apply sbox_rep, add_rc_rep; [done| |done]. unfold ROUNDS_F. lia.
Qed.

Lemma partial_rounds_rep st xs :
  length st = WIDTH → represents_all st xs →
  length (partial_rounds st) = WIDTH ∧
  represents_all (partial_rounds st) (fold_left spec_partial_round (seq 0 22) xs).
Proof.
  intros Hl H. apply rounds_rep; [done..|]. intros s ys r _ Hls Hrep.
  unfold add_rci. destruct s as [|x s]; [done|].
  apply Forall2_cons_inv_l in Hrep as (y & ys' & Hx & Hrep & ->).
  cbn [insert list_insert]. change ((?a :: ?l) !!! 0%nat) with a.
  split; [by rewrite internal_length|]. apply internal_linear_layer_rep; [done|].
  constructor; [|done]. apply rep_pow7, rep_add; [done|].
  apply rep_new, lookup_total_Forall; [apply constants_u64 | done].
Qed.

Lemma permute_rep st xs :
  length st = WIDTH → represents_all st xs →
  length (permute st) = WIDTH ∧ represents_all (permute st) (spec_permute xs).
Proof.
  intros Hl H. unfold permute, spec_permute. cbv zeta.
  pose proof (external_linear_layer_rep st xs Hl H) as H0.
  rewrite <- external_length in Hl.
  destruct (full_rounds_rep _ _ 0 ltac:(lia) Hl H0) as [Hl1 H1].
  destruct (partial_rounds_rep _ _ Hl1 H1) as [Hl2 H2].
  exact (full_rounds_rep _ _ 4 ltac:(lia) Hl2 H2).
Qed.

(** ** Both layers are invertible *)

(** The inverse of the circulant, and of the block matrix around it. *)
Definition inv_ext_entry (i j : nat) : Fp :=
  (fp (if (i / 4 =? j / 4)%nat then 4611686017353646081 else 4611686017353646080)%Z
   * fp (nth ((8 + j mod 4 - i mod 4) mod 4)
       [12649195933312857820; 8959847119429940956; 16338544747195774684; 1581149491664107228]%Z 0%Z))%fp.

(** The inverses of the diagonal, and of one plus their sum. *)
Definition diag_inv : list Z := [
  13806053890864727292; 16039304555552744694; 18000805539296046064; 1120712292707969966;
  18151938884699337764; 16223473244271871235; 7784472447174841387; 11935060317972544447;
  12400051796508006841; 5848187894058753806; 1664410347336977730; 1496632066239311320
].

Definition inv_int_entry (i j : nat) : Fp :=
  ((if (i =? j)%nat then fp (nth i diag_inv 0%Z) else 0)
   - fp 12305863381627227842 * fp (nth i diag_inv 0%Z) * fp (nth j diag_inv 0%Z))%fp.

Ltac matrix_cbv := cbv -[Zmod.add Zmod.mul Zmod.sub Zmod.zero Zmod.one fp p].

Lemma ext_invertible xs :
  length xs = WIDTH → mat_vec inv_ext_entry (mat_vec ext_entry xs) = xs.
Proof. intros Hl. twelve xs Hl. matrix_cbv. repeat apply (f_equal2 cons); [ring..|reflexivity]. Qed.

Lemma int_invertible xs :
  length xs = WIDTH → mat_vec inv_int_entry (mat_vec int_entry xs) = xs.
Proof. intros Hl. twelve xs Hl. matrix_cbv. repeat apply (f_equal2 cons); [ring..|reflexivity]. Qed.


(** 7 * 10540996611094048183 = 1 + 4 * (p - 1). *)
Lemma seventh_root (x : Fp) : ((x ^ 7) ^ 10540996611094048183 = x)%fp.
Proof.
  destruct (decide (x = 0%fp)) as [->|Hx]; [by rewrite !fp_pow_0_l by lia|].
  rewrite <- Zmod.pow_mul_r_nonneg by lia.
  change (7 * 10540996611094048183) with ((p - 1) * 4 + 1).
  rewrite Zmod.pow_add_r_nonneg, Zmod.pow_mul_r_nonneg, fermat_pow, Zmod.pow_1_l, Zmod.pow_1_r
    by (assumption || unfold p; lia).
  apply Zmod.mul_1_l.
Qed.

Lemma seventh_inj (x y : Fp) : (x ^ 7 = y ^ 7)%fp → x = y.
Proof. intros H. by rewrite <- (seventh_root x), <- (seventh_root y), H. Qed.

Lemma list_cons_inj {A} (x y : A) xs ys : x :: xs = y :: ys → x = y ∧ xs = ys.
Proof. by intros [=]. Qed.

Lemma seventh_list_inj (xs ys : list Fp) :
  map (λ x, x ^ 7)%fp xs = map (λ x, x ^ 7)%fp ys → xs = ys.
Proof.
  revert ys. induction xs as [|x xs IH]; intros [|y ys] H; try done.
  cbn [map] in H. apply list_cons_inj in H as [H1 H2]. f_equal; [by apply seventh_inj | by apply IH].
Qed.

Lemma ext_inj xs ys :
  length xs = WIDTH → length ys = WIDTH → mat_vec ext_entry xs = mat_vec ext_entry ys → xs = ys.
Proof. intros Hx Hy H. by rewrite <- (ext_invertible xs), <- (ext_invertible ys), H. Qed.

Lemma int_inj xs ys :
  length xs = WIDTH → length ys = WIDTH → mat_vec int_entry xs = mat_vec int_entry ys → xs = ys.
Proof. intros Hx Hy H. by rewrite <- (int_invertible xs), <- (int_invertible ys), H. Qed.

Lemma fp_add_cancel (x y c : Fp) : (x + c = y + c)%fp → x = y.
Proof. intros H. fp_solve 1%fp H. Qed.

Lemma spec_add_rc_inj xs ys r :
  length xs = WIDTH → length ys = WIDTH → length (EXTERNAL_CONSTANTS !!! r) = WIDTH →
  spec_add_rc xs r = spec_add_rc ys r → xs = ys.
Proof.
  unfold spec_add_rc, WIDTH. generalize (EXTERNAL_CONSTANTS !!! r). intros cs Hx Hy Hc H.
  revert ys cs Hy Hc H. rewrite <- Hx. clear Hx.
  induction xs as [|x xs IH]; intros [|y ys] [|c cs] Hy Hc H; try done.
  cbn [zip_with length] in *. apply list_cons_inj in H as [H1 H2]. f_equal; [by eapply fp_add_cancel|].
  apply (IH ys cs); [lia|lia|done].
Qed.

Lemma ext_constants_length r : (r < ROUNDS_F)%nat → length (EXTERNAL_CONSTANTS !!! r) = WIDTH.
Proof. intros Hr. unfold ROUNDS_F in Hr. do 8 (destruct r as [|r]; [done|]). lia. Qed.

Lemma spec_full_round_inj xs ys r :
  (r < ROUNDS_F)%nat → length xs = WIDTH → length ys = WIDTH →
  spec_full_round xs r = spec_full_round ys r → xs = ys.
Proof.
  intros Hr Hx Hy H. pose proof (ext_constants_length r Hr) as Hc. unfold WIDTH in *.
  assert (∀ zs, length zs = 12%nat → length (map (λ x, x ^ 7)%fp (spec_add_rc zs r)) = 12%nat) as Hl.
  { intros zs Hz. unfold spec_add_rc. rewrite length_map, length_zip_with. lia. }
  apply ext_inj in H; [|by apply Hl..]. apply seventh_list_inj in H. by eapply spec_add_rc_inj.
Qed.

Lemma spec_partial_round_inj xs ys r :
  length xs = WIDTH → length ys = WIDTH →
  spec_partial_round xs r = spec_partial_round ys r → xs = ys.
Proof.
  destruct xs as [|x xs], ys as [|y ys]; [done..|]. cbn [spec_partial_round]. intros Hx Hy H.
  apply int_inj in H; [|done..]. apply list_cons_inj in H as [H1 H2]. subst ys. f_equal.
  by eapply fp_add_cancel, seventh_inj.
Qed.

Lemma rounds_inj (g : list Fp → nat → list Fp) rs xs ys :
  (∀ zs r, r ∈ rs → length zs = WIDTH → length (g zs r) = WIDTH) →
  (∀ xs ys r, r ∈ rs → length xs = WIDTH → length ys = WIDTH → g xs r = g ys r → xs = ys) →
  length xs = WIDTH → length ys = WIDTH →
  (fold_left g rs xs = fold_left g rs ys → xs = ys) ∧ length (fold_left g rs xs) = WIDTH.
Proof.
  intros Hl Hi. revert xs ys. induction rs as [|r rs IH]; intros xs ys Hx Hy; [done|].
  cbn [fold_left]. destruct (IH) with (xs := g xs r) (ys := g ys r) as [Ha Hb];
    [set_solver|set_solver|apply Hl; set_solver|apply Hl; set_solver|].
  split; [|done]. intros H. eapply Hi; [|done|done|by apply Ha]. set_solver.
Qed.

Lemma spec_partial_round_length xs r : length xs = WIDTH → length (spec_partial_round xs r) = WIDTH.
Proof. destruct xs; [done|]. intros _. apply mat_vec_length. Qed.

Lemma full_inj start xs ys :
  (start ≤ 4)%nat → length xs = WIDTH → length ys = WIDTH →
  (fold_left spec_full_round (seq start 4) xs = fold_left spec_full_round (seq start 4) ys → xs = ys) ∧
  length (fold_left spec_full_round (seq start 4) xs) = WIDTH.
Proof.
  intros Hs. apply rounds_inj; [intros; apply mat_vec_length|].
  intros zs zs' r Hr%elem_of_seq. apply spec_full_round_inj. unfold ROUNDS_F. lia.
Qed.

Lemma partial_inj xs ys :
  length xs = WIDTH → length ys = WIDTH →
  (fold_left spec_partial_round (seq 0 22) xs = fold_left spec_partial_round (seq 0 22) ys → xs = ys) ∧
  length (fold_left spec_partial_round (seq 0 22) xs) = WIDTH.
Proof.
  apply rounds_inj; [intros; by apply spec_partial_round_length|].
  intros zs zs' r _. apply spec_partial_round_inj.
Qed.

Lemma spec_permute_inj xs ys :
  length xs = WIDTH → length ys = WIDTH → spec_permute xs = spec_permute ys → xs = ys.
Proof.
  intros Hx Hy H. unfold spec_permute in H. cbv zeta in H.
  pose proof (mat_vec_length ext_entry xs) as Lx. pose proof (mat_vec_length ext_entry ys) as Ly.
  destruct (full_inj 0 _ _ ltac:(lia) Lx Ly) as [I1 L1]. destruct (full_inj 0 _ _ ltac:(lia) Ly Lx) as [_ L1'].
  destruct (partial_inj _ _ L1 L1') as [I2 L2]. destruct (partial_inj _ _ L1' L1) as [_ L2'].
  destruct (full_inj 4 _ _ ltac:(lia) L2 L2') as [I3 _].
  exact (ext_inj _ _ Hx Hy (I1 (I2 (I3 H)))).
Qed.

Lemma canonical_all st : Forall canonical st → represents_all st (map gl st).
Proof. induction 1; cbn [map]; constructor; [by apply canonical_gl | done]. Qed.

Lemma represents_all_canonical st xs : represents_all st xs → Forall canonical st.
Proof. induction 1; constructor; [by eapply rep_canonical | done]. Qed.

Lemma represents_all_unique st st' xs : represents_all st xs → represents_all st' xs → st = st'.
Proof.
  intros H. revert st'. induction H as [|a x st xs Ha _ IH]; intros st' H'.
  - by apply Forall2_nil_inv_r in H'.
  - apply Forall2_cons_inv_r in H' as (a' & st'' & Ha' & H' & ->).
    f_equal; [by eapply represents_unique | by apply IH].
Qed.

Lemma represents_all_gl st xs : represents_all st xs → map gl st = xs.
Proof. induction 1 as [|a x st xs Ha _ IH]; cbn [map]; [done|]. by rewrite IH, (rep_gl _ _ Ha). Qed.

(** C38: The Poseidon2 permutation.  On twelve canonical words [permute] returns
    twelve canonical words, which stand for the image of the state under the
    algebraic permutation (the external matrix, four full rounds, twenty-two
    partial rounds and four full rounds over the field of p elements), and no two
    canonical states have the same image. *)
Theorem permute_correct st st' :
  length st = WIDTH → Forall canonical st → length st' = WIDTH → Forall canonical st' →
  length (permute st) = WIDTH ∧ Forall canonical (permute st) ∧
  map gl (permute st) = spec_permute (map gl st) ∧
  (permute st = permute st' → st = st').
Proof.
  intros Hl Hc%canonical_all Hl' Hc'%canonical_all.
  destruct (permute_rep _ _ Hl Hc) as [HL HR]. destruct (permute_rep _ _ Hl' Hc') as [HL' HR'].
  split_and!; [done | by eapply represents_all_canonical | by apply represents_all_gl |].
  intros H. eapply represents_all_unique; [exact Hc|]. rewrite (spec_permute_inj (map gl st) (map gl st')).
  - exact Hc'.
  - by rewrite length_map.
  - by rewrite length_map.
  - rewrite H in HR. by rewrite <- (represents_all_gl _ _ HR), (represents_all_gl _ _ HR').
Qed.

Lemma permute_correct_witness :
  length (permute (seqZ 1 12)) = WIDTH ∧ Forall canonical (permute (seqZ 1 12)) ∧
  map gl (permute (seqZ 1 12)) = spec_permute (map gl (seqZ 1 12)) ∧
  (permute (seqZ 1 12) = permute (seqZ 2 12) → seqZ 1 12 = seqZ 2 12).
Proof.
  apply (permute_correct (seqZ 1 12) (seqZ 2 12));
    first [done | apply Forall_forall; intros x Hx%elem_of_seqZ; unfold canonical, p; lia].
Defined.

(** ** The sponge *)

Lemma Forall_inserts {A} (P : A → Prop) i k (l : list A) :
  Forall P k → Forall P l → Forall P (list_inserts i k l).
Proof.
  intros Hk Hl. revert i. induction Hk as [|x k Hx _ IH]; intros i; [done|].
  cbn [list_inserts]. apply Forall_insert; [apply IH | done].
Qed.

Lemma permute_ok st :
  length st = WIDTH ∧ Forall canonical st → length (permute st) = WIDTH ∧ Forall canonical (permute st).
Proof.
  intros [Hl Hc]. destruct (permute_rep _ _ Hl (canonical_all _ Hc)) as [HL HR].
  split; [done | by eapply represents_all_canonical].
Qed.

Lemma chunks_ok input :
  Forall canonical input →
  Forall (λ c, Forall canonical c) (chunks RATE input).
Proof.
  unfold chunks. generalize (length input) as fuel. intros fuel. revert input.
  induction fuel as [|fuel IH]; intros [|x input] Hi; cbn [chunks_fuel]; constructor.
  - by apply Forall_take.
  - apply IH. by apply Forall_drop.
Qed.

Lemma absorb_chunk_ok st c :
  Forall canonical c → length st = WIDTH ∧ Forall canonical st →
  length (absorb_chunk st c) = WIDTH ∧ Forall canonical (absorb_chunk st c).
Proof.
  intros Hc [Hs Hst]. unfold absorb_chunk. apply permute_ok.
  split; [by rewrite length_inserts | by apply Forall_inserts].
Qed.

Lemma absorb_chunks_ok cs st :
  Forall (λ c, Forall canonical c) cs → length st = WIDTH ∧ Forall canonical st →
  length (fold_left absorb_chunk cs st) = WIDTH ∧ Forall canonical (fold_left absorb_chunk cs st).
Proof.
  intros Hc. revert st. induction Hc as [|c cs Hc _ IH]; intros st Hst; [exact Hst|].
  rewrite fold_left_cons. exact (IH (absorb_chunk st c) (absorb_chunk_ok st c Hc Hst)).
Qed.

Lemma absorb_ok input :
  Forall canonical input → length (absorb input) = WIDTH ∧ Forall canonical (absorb input).
Proof.
  intros Hi. apply absorb_chunks_ok; [by apply chunks_ok|].
  split; [apply length_replicate|]. by apply Forall_replicate.
Qed.

(** The output stream: the first eight elements of the successive states. *)
Fixpoint stream (blocks : nat) (perm : list Z) : list Z :=
  match blocks with O => [] | S k => take RATE perm ++ stream k (permute perm) end.

Lemma push_block_spec block outputs n :
  (length outputs < n)%nat →
  push_block block outputs n =
    if (length outputs + length block <? n)%nat then inl (outputs ++ block)
    else inr (outputs ++ take (n - length outputs) block).
Proof.
  revert outputs. induction block as [|x block IH]; intros outputs Hn; cbn [push_block length].
  { replace (_ <? n)%nat with true by (symmetry; apply Nat.ltb_lt; lia). by rewrite app_nil_r. }
  rewrite length_app. cbn [length]. destruct (Nat.eqb_spec (length outputs + 1) n) as [He|He].
  - replace (_ <? n)%nat with false by (symmetry; apply Nat.ltb_ge; lia).
    replace (n - length outputs)%nat with 1%nat by lia. done.
  - rewrite IH by (rewrite length_app; cbn [length]; lia). rewrite length_app. cbn [length].
    replace (length outputs + 1 + length block)%nat with (length outputs + S (length block))%nat by lia.
    destruct (_ <? n)%nat; rewrite <- app_assoc; [done|].
    replace (n - length outputs)%nat with (S (n - (length outputs + 1))) by lia. done.
Qed.

Lemma squeeze_spec fuel perm outputs n :
  length perm = WIDTH ∧ Forall canonical perm →
  (length outputs < n ≤ length outputs + RATE * fuel)%nat →
  squeeze fuel perm outputs n = Some (outputs ++ take (n - length outputs) (stream fuel perm)).
Proof.
  revert perm outputs. induction fuel as [|fuel IH]; intros perm outputs Hp Hn; [lia|].
  cbn [squeeze stream]. rewrite push_block_spec by lia.
  assert (length (take RATE perm) = 8%nat) as Hb by (rewrite length_take; destruct Hp as [-> _]; done).
  rewrite Hb. unfold RATE in *. destruct (Nat.ltb_spec (length outputs + 8) n).
  - rewrite IH by (by apply permute_ok || (rewrite length_app, Hb; lia)).
    rewrite length_app, Hb, <- app_assoc. do 2 f_equal.
    rewrite take_app, (take_ge (take 8 perm)), Hb by lia. do 2 f_equal. lia.
  - rewrite take_app_le by lia. done.
Qed.

Lemma stream_ok k perm :
  length perm = WIDTH ∧ Forall canonical perm →
  length (stream k perm) = (RATE * k)%nat ∧ Forall canonical (stream k perm).
Proof.
  revert perm. induction k as [|k IH]; intros perm Hp; cbn [stream]; [done|].
  destruct (IH _ (permute_ok _ Hp)) as [Hl Hc]. rewrite length_app, Hl, length_take.
  destruct Hp as [Hlp Hcp]. rewrite Hlp. split; [unfold RATE, WIDTH; lia|].
  apply Forall_app. split; [by apply Forall_take | done].
Qed.

(** The sponge terminates.  For any input of canonical words and any positive
    number of outputs [hash_n_to_m_no_pad] returns, with exactly that many
    canonical words, the prefix of the stream of the first eight elements of the
    successive states; the fixed-size hashes are its cases of four and five. *)
Theorem hash_returns input n :
  Forall canonical input → (0 < n)%nat →
  ∃ out, hash_n_to_m_no_pad input n = Some out ∧ length out = n ∧ Forall canonical out ∧
    out = take n (stream (S (n / RATE)) (absorb input)).
Proof.
  intros Hi Hn. pose proof (absorb_ok input Hi) as Ha. unfold hash_n_to_m_no_pad.
  assert (n ≤ RATE * S (n / RATE))%nat as Hb.
  { unfold RATE. pose proof (Nat.mod_upper_bound n 8). pose proof (Nat.div_mod_eq n 8). lia. }
  rewrite squeeze_spec; [|done|cbn [length]; lia]. cbn [length app]. rewrite Nat.sub_0_r.
  destruct (stream_ok (S (n / RATE)) _ Ha) as [Hl Hc].
  eexists. split_and!; [done| |by apply Forall_take|done]. rewrite length_take. lia.
Qed.

Lemma hash_returns_witness :
  ∃ out, hash_n_to_m_no_pad [1; 2; 3] 9 = Some out ∧ length out = 9%nat ∧ Forall canonical out ∧
    out = take 9 (stream (S (9 / RATE)) (absorb [1; 2; 3])).
Proof.
  apply (hash_returns [1; 2; 3] 9); [|lia].
  apply Forall_forall. intros x. rewrite !elem_of_cons, elem_of_nil. unfold canonical, p. lia.
Defined.

Lemma hash_to_quintic_ok input :
  Forall canonical input → ∃ h, hash_to_quintic_extension input = Some h ∧ canonical5 h.
Proof.
  intros Hi. pose proof (absorb_ok input Hi) as Ha.
  unfold hash_to_quintic_extension, hash_n_to_m_no_pad.
  rewrite squeeze_spec; [|done|unfold RATE; cbn; lia]. cbn [length app mbind option_bind].
  destruct (stream_ok (S (5 / RATE)) _ Ha) as [Hl Hc].
  generalize dependent (stream (S (5 / RATE)) (absorb input)). intros l Hl Hc.
  change (RATE * S (5 / RATE))%nat with 8%nat in Hl.
  do 8 (destruct l as [|? l]; [done|]). cbn [take Nat.sub].
  eexists. split; [done|]. unfold canonical5, qlist. cbn [q0 q1 q2 q3 q4].
  rewrite !Forall_cons in Hc. rewrite !Forall_cons. destruct_and! Hc. by split_and!.
Qed.

(** With no output requested the loop pushes past the length it waits for. *)
Lemma squeeze_zero_never_returns fuel perm outputs :
  squeeze fuel perm outputs 0 = None.
Proof.
  revert perm outputs. induction fuel as [|fuel IH]; intros perm outputs; [done|].
  cbn [squeeze]. assert (∀ b o, ∃ o', push_block b o 0 = inl o') as Hb.
  { induction b as [|x b IHb]; intros o; cbn [push_block]; [eauto|].
    rewrite length_app. replace (_ =? 0)%nat with false by (symmetry; apply Nat.eqb_neq; cbn; lia). done. }
  destruct (Hb (take RATE perm) outputs) as [o' ->]. apply IH.
Qed.
