(* ===== verification/EcScalar.v ===== *)
(** * Scalars of the curve

    The scalar half of
    [crates/hexagent-exchange/src/exchange/lighter/crypto/ecgfp5.rs]: integers
    modulo the order of the curve's group, in five 64-bit limbs, least significant
    first.  The loops over limbs are structural recursions over the lists of limbs
    that thread the carries; [BigUint] is [Z].

    The specification is integer arithmetic: [limbs_val] is the integer of a list
    of limbs, [ORDER] the group order. *)

From S2P Require Import Prelude Words Goldilocks Quintic Gfp5.

Definition ORDER : Z :=
  1067993516717146951041484916571792702745057740581727230159139685185762082554198619328292418486241.

Definition N : list Z :=
  [0xE80FD996948BFFE1; 0xE8885C39D724A09C; 0x7FFFFFE6CFB80639; 0x7FFFFFF100000016;
   0x7FFFFFFD80000007].
Definition N0I : Z := 0xD78BEF72057B7BDF.
Definition R2 : list Z :=
  [0xA01001DCE33DC739; 0x6C3228D33F62ACCF; 0xD1D796CC91CF8525; 0xAADFFF5D1574C1D8;
   0x4ACA13B28CA251F5].

Definition b2z (b : bool) : Z := if b then 1 else 0.

(** The loop of [add_inner]; the last carry is dropped. *)
Fixpoint add_loop (a b : list Z) (carry : Z) : list Z :=
  match a, b with
  | ai :: a, bi :: b =>
      let '(sum, c1) := overflowing_add ai bi in
      let '(sum, c2) := overflowing_add sum carry in
      sum :: add_loop a b (b2z c1 + b2z c2)
  | _, _ => []
  end.

Definition add_inner (a b : list Z) : list Z := add_loop a b 0.

Fixpoint sub_loop (a b : list Z) (borrow : Z) : list Z * Z :=
  match a, b with
  | ai :: a, bi :: b =>
      let '(diff, b1) := overflowing_sub ai bi in
      let '(diff, b2) := overflowing_sub diff borrow in
      let '(r, borrow) := sub_loop a b (b2z b1 + b2z b2) in
      (diff :: r, borrow)
  | _, _ => ([], borrow)
  end.

Definition sub_inner (a b : list Z) : list Z * Z :=
  let '(r, borrow) := sub_loop a b 0 in
  (r, if negb (borrow =? 0) then u64_max else 0).

(** The inner loop of [monty_mul] over j: the low words of z2 and the two final
    carries.  The u128 products and sums do not overflow. *)
Fixpoint monty_row (a r n : list Z) (m f cc1 cc2 : Z) : list Z * Z * Z :=
  match a, r, n with
  | aj :: a, rj :: r, nj :: n =>
      let z1 := aj * m + rj + cc1 in
      let cc1 := Z.shiftr z1 64 in
      let z2 := f * nj + as_u64 z1 + cc2 in
      let cc2 := Z.shiftr z2 64 in
      let '(out, cc1, cc2) := monty_row a r n m f cc1 cc2 in
      (as_u64 z2 :: out, cc1, cc2)
  | _, _, _ => ([], cc1, cc2)
  end.

(** One turn of the outer loop: word j of the row is stored at j - 1, the carries
    at the top. *)
Definition monty_step (a : list Z) (r : list Z) (m : Z) : list Z :=
  let f := wrapping_mul (wrapping_add (wrapping_mul (hd 0 a) m) (hd 0 r)) N0I in
  let '(row, cc1, cc2) := monty_row a r N m f 0 0 in
  tl row ++ [as_u64 (cc1 + cc2)].

Definition monty_mul (a b : list Z) : list Z :=
  let r := fold_left (monty_step a) b [0; 0; 0; 0; 0] in
  let '(r2, borrow) := sub_inner r N in
  if borrow =? 0 then r2 else r.

Definition bigint_from_array (arr : list Z) : Z :=
  fold_left (λ result limb, Z.shiftl result 64 + limb) (rev arr) 0.

(** [BigUint::to_bytes_le]: the bytes up to the last non-zero one, one zero byte
    for zero. *)
Fixpoint bytes_of_pos (fuel : nat) (x : Z) : list Z :=
  match fuel with
  | O => []
  | S fuel => if x <? 256 then [x] else x mod 256 :: bytes_of_pos fuel (x / 256)
  end.
Definition to_bytes_le (x : Z) : list Z := bytes_of_pos (S (Z.to_nat (Z.log2 x))) x.

Module ECgFp5Scalar.

Definition ZERO : list Z := [0; 0; 0; 0; 0].
Definition ONE : list Z := [1; 0; 0; 0; 0].

Definition from_limbs (limbs : list Z) : list Z := limbs.
Definition to_limbs (self : list Z) : list Z := self.

(** [None]: the assertion on the length fails. *)
Definition from_le_bytes (data : list Z) : option (list Z) :=
  if (length data =? 40)%nat
  then Some (map (λ i, of_le (take 8 (drop (i * 8) data))) (seq 0 5))
  else None.

Definition to_le_bytes (self : list Z) : list Z := concat (map (to_le 8) self).

Definition is_zero (self : list Z) : bool := forallb (λ x, x =? 0) self.

Definition add (self rhs : list Z) : list Z :=
  let r := add_inner self rhs in
  let '(r2, borrow) := sub_inner r N in
  if borrow =? 0 then r2 else r.

Definition sub (self rhs : list Z) : list Z :=
  let '(r0, borrow) := sub_inner self rhs in
  if negb (borrow =? 0) then add_inner r0 N else r0.

Definition mul (self rhs : list Z) : list Z :=
  let tmp := monty_mul self R2 in
  monty_mul tmp rhs.

(** The loop of [recode_signed] for [n] more digits: [limbs] are the limbs from
    index j on; the words acc, bb, cc are u64, u32, u32. *)
Fixpoint recode_loop (n : nat) (limbs : list Z) (w acc acc_len cc : Z) : list Z :=
  match n with
  | O => []
  | S n =>
      let mw := Z.shiftl 1 w - 1 in
      let hw := Z.shiftl 1 (w - 1) in
      let '(bb, limbs, acc, acc_len) :=
        if acc_len <? w then
          match limbs with
          | nl :: limbs =>
              (Z.land (Z.lor acc (as_u64 (Z.shiftl nl acc_len)) mod 2 ^ 32) mw, limbs,
               Z.shiftr nl (w - acc_len), acc_len + (64 - w))
          | [] => (Z.land (acc mod 2 ^ 32) mw, [], 0, acc_len + (64 - w))
          end
        else (Z.land (acc mod 2 ^ 32) mw, limbs, Z.shiftr acc w, acc_len - w) in
      let bb := bb + cc in
      let cc := Z.shiftr ((hw - bb) mod 2 ^ 32) 31 in
      (bb - Z.shiftl cc w) :: recode_loop n limbs w acc acc_len cc
  end.

Definition recode_signed (self : list Z) (n : nat) (w : Z) : list Z := recode_loop n self w 0 0 0.

(** [copy_from_slice] into forty zero bytes, then the limbs. *)
Definition from_bigint (val : Z) : option (list Z) :=
  let bytes := to_bytes_le val in
  from_le_bytes (pad_to 40 (take 40 bytes)).

Definition from_gfp5 (elem : quint Z) : option (list Z) :=
  let arr := qlist (GFp5.to_u64_array elem) in
  let big := bigint_from_array arr in
  let reduced := big mod ORDER in
  from_bigint reduced.

(** One attempt of [sample_random] on the forty bytes drawn: the top bit is
    cleared, and a value below the order is returned. *)
Definition sample_attempt (bytes : list Z) : option (list Z) :=
  let bytes := alter (λ b, Z.land b 0x7F) 39%nat bytes in
  scalar ← from_le_bytes bytes;
  if bigint_from_array scalar <? ORDER then Some scalar else None.

(** The loop, over the successive outputs of the generator. *)
Fixpoint sample_random (draws : list (list Z)) : option (list Z) :=
  match draws with
  | [] => None
  | bytes :: draws =>
      match sample_attempt bytes with
      | Some scalar => Some scalar
      | None => sample_random draws
      end
  end.

End ECgFp5Scalar.

(** ** Limb arithmetic *)

Definition limbs_ok (n : nat) (l : list Z) : Prop := length l = n ∧ Forall is_u64 l.

(** A scalar: five limbs of an integer below the group order. *)
Definition scalar_ok (l : list Z) : Prop := limbs_ok 5 l ∧ limbs_val l < ORDER.

Definition radix (n : nat) : Z := 2 ^ (64 * Z.of_nat n).

Lemma radix_succ n : radix (S n) = 2 ^ 64 * radix n.
Proof.
  unfold radix. rewrite Nat2Z.inj_succ. replace (64 * Z.succ _) with (64 + 64 * Z.of_nat n) by lia.
  by rewrite Z.pow_add_r by lia.
Qed.

Lemma radix_pos n : 0 < radix n.
Proof. apply Z.pow_pos_nonneg; lia. Qed.

Lemma N_val : limbs_val N = ORDER.
Proof. vm_compute. reflexivity. Qed.
Lemma N_ok : limbs_ok 5 N.
Proof. split; [done|]. unfold N. rewrite !Forall_cons. done. Qed.
Lemma R2_val : limbs_val R2 = radix 5 * radix 5 mod ORDER.
Proof. vm_compute. reflexivity. Qed.
Lemma R2_ok : limbs_ok 5 R2.
Proof. split; [done|]. unfold R2. rewrite !Forall_cons. done. Qed.

Lemma limbs_ok_bound n l : limbs_ok n l → 0 ≤ limbs_val l < radix n.
Proof. intros [<- H]. by apply limbs_val_bound. Qed.

Lemma limbs_ok_cons n x l : limbs_ok (S n) (x :: l) ↔ is_u64 x ∧ limbs_ok n l.
Proof. unfold limbs_ok. rewrite Forall_cons. cbn [length]. naive_solver lia. Qed.

Lemma limbs_ok_inv n l : limbs_ok (S n) l → ∃ x l', l = x :: l' ∧ is_u64 x ∧ limbs_ok n l'.
Proof. destruct l as [|x l]; [by intros [? _]|]. rewrite limbs_ok_cons. eauto. Qed.

Lemma limbs_ok_nil l : limbs_ok 0 l → l = [].
Proof. by intros [?%nil_length_inv _]. Qed.

(** Splitting off the low limb of a remainder. *)
Lemma mod_limb l x m : 0 ≤ l < 2 ^ 64 → 0 < m → (l + 2 ^ 64 * x) mod (2 ^ 64 * m) = l + 2 ^ 64 * (x mod m).
Proof.
  intros Hl Hm. symmetry. apply (Z.mod_unique_pos _ _ (x / m)).
  - pose proof (Z.mod_pos_bound x m Hm). nia.
  - pose proof (Z.div_mod x m ltac:(lia)). lia.
Qed.

Lemma add_limb a b c :
  is_u64 a → is_u64 b → 0 ≤ c ≤ 1 →
  let '(s1, c1) := overflowing_add a b in
  let '(s2, c2) := overflowing_add s1 c in
  is_u64 s2 ∧ 0 ≤ b2z c1 + b2z c2 ≤ 1 ∧ a + b + c = s2 + 2 ^ 64 * (b2z c1 + b2z c2).
Proof.
  intros Ha Hb Hc. unfold overflowing_add, is_u64, u64_max, b2z in *.
  change (2 ^ 64) with 18446744073709551616.
  destruct (_ <=? a + b) eqn:E1; destruct (_ <=? _ + c) eqn:E2; Z.div_mod_to_equations; lia.
Qed.

Lemma add_loop_spec n a b c :
  limbs_ok n a → limbs_ok n b → 0 ≤ c ≤ 1 →
  limbs_ok n (add_loop a b c) ∧
  limbs_val (add_loop a b c) = (limbs_val a + limbs_val b + c) mod radix n.
Proof.
  revert a b c. induction n as [|n IH]; intros a b c Ha Hb Hc.
  { apply limbs_ok_nil in Ha as ->. cbn. by rewrite Z.mod_1_r. }
  apply limbs_ok_inv in Ha as (x & a' & -> & Hx & Ha), Hb as (y & b' & -> & Hy & Hb).
  pose proof (add_limb x y c Hx Hy Hc) as H. cbn [add_loop].
  destruct (overflowing_add x y) as [s1 c1], (overflowing_add s1 c) as [s2 c2].
  destruct H as (Hs & Hc' & He). destruct (IH a' b' _ Ha Hb Hc') as [Hok Hv].
  rewrite limbs_ok_cons. split; [done|]. cbn [limbs_val]. rewrite Hv, radix_succ.
  rewrite <- mod_limb; [|unfold is_u64, u64_max in Hs; lia|apply radix_pos].
  f_equal. lia.
Qed.

Lemma sub_limb a b c :
  is_u64 a → is_u64 b → 0 ≤ c ≤ 1 →
  let '(s1, c1) := overflowing_sub a b in
  let '(s2, c2) := overflowing_sub s1 c in
  is_u64 s2 ∧ 0 ≤ b2z c1 + b2z c2 ≤ 1 ∧ a - b - c = s2 - 2 ^ 64 * (b2z c1 + b2z c2).
Proof.
  intros Ha Hb Hc. unfold overflowing_sub, is_u64, u64_max, b2z in *.
  change (2 ^ 64) with 18446744073709551616.
  destruct (a <? b) eqn:E1; destruct (_ <? c) eqn:E2; Z.div_mod_to_equations; lia.
Qed.

Lemma sub_loop_spec n a b c r bo :
  limbs_ok n a → limbs_ok n b → 0 ≤ c ≤ 1 → sub_loop a b c = (r, bo) →
  limbs_ok n r ∧ 0 ≤ bo ≤ 1 ∧ limbs_val a - limbs_val b - c = limbs_val r - radix n * bo.
Proof.
  revert a b c r. induction n as [|n IH]; intros a b c r Ha Hb Hc.
  { apply limbs_ok_nil in Ha as ->. cbn. intros [= <- <-]. apply limbs_ok_nil in Hb as ->. cbn.
    change (radix 0) with 1. split; [done|]. lia. }
  apply limbs_ok_inv in Ha as (x & a' & -> & Hx & Ha), Hb as (y & b' & -> & Hy & Hb).
  pose proof (sub_limb x y c Hx Hy Hc) as H. cbn [sub_loop].
  destruct (overflowing_sub x y) as [s1 c1], (overflowing_sub s1 c) as [s2 c2].
  destruct H as (Hs & Hc' & He). destruct (sub_loop a' b' _) as [r' bo'] eqn:E.
  intros [= <- <-]. destruct (IH a' b' _ _ Ha Hb Hc' E) as (Hok & Hbo & Hv).
  rewrite limbs_ok_cons. split; [done|]. split; [done|]. cbn [limbs_val]. rewrite radix_succ. lia.
Qed.

(** [sub_inner]: the difference modulo the radix, and a mask that is zero exactly
    if there is no borrow. *)
Lemma sub_inner_spec n a b r bo :
  limbs_ok n a → limbs_ok n b → sub_inner a b = (r, bo) →
  limbs_ok n r ∧
  if bo =? 0 then limbs_val b ≤ limbs_val a ∧ limbs_val r = limbs_val a - limbs_val b
  else limbs_val a < limbs_val b ∧ limbs_val r = limbs_val a - limbs_val b + radix n.
Proof.
  intros Ha Hb. unfold sub_inner. destruct (sub_loop a b 0) as [r' bo'] eqn:E.
  intros [= <- <-]. destruct (sub_loop_spec n a b 0 r' bo' Ha Hb ltac:(lia) E) as (Hok & Hbo & Hv).
  split; [done|]. pose proof (limbs_ok_bound _ _ Hok). 
  destruct (Z.eqb_spec bo' 0); cbn [negb]; [subst; cbn; lia|].
  replace (u64_max =? 0) with false by done. assert (bo' = 1) as -> by lia. lia.
Qed.

(** The conditional subtraction of the order. *)
Lemma reduce_once r r2 bo :
  limbs_ok 5 r → limbs_val r < 2 * ORDER → sub_inner r N = (r2, bo) →
  scalar_ok (if bo =? 0 then r2 else r) ∧
  limbs_val (if bo =? 0 then r2 else r) = limbs_val r mod ORDER.
Proof.
  intros Hr Hb E. destruct (sub_inner_spec 5 r N r2 bo Hr N_ok E) as [Hok H].
  pose proof (limbs_ok_bound _ _ Hr) as Hpos. rewrite N_val in H. unfold scalar_ok.
  destruct (bo =? 0); destruct H as [H1 H2].
  - rewrite H2. split; [split; [done|lia]|]. apply (Z.mod_unique_pos _ _ 1); lia.
  - split; [done|]. symmetry. apply Z.mod_small. lia.
Qed.

(** ** Montgomery multiplication *)

Lemma monty_limb a r n m f cc1 cc2 :
  is_u64 a → is_u64 r → is_u64 n → is_u64 m → is_u64 f → is_u64 cc1 → is_u64 cc2 →
  let z1 := a * m + r + cc1 in
  let z2 := f * n + as_u64 z1 + cc2 in
  is_u64 (Z.shiftr z1 64) ∧ is_u64 (Z.shiftr z2 64) ∧ is_u64 (as_u64 z2) ∧
  a * m + r + f * n + cc1 + cc2 = as_u64 z2 + 2 ^ 64 * (Z.shiftr z1 64 + Z.shiftr z2 64).
Proof.
  unfold is_u64, u64_max. intros Ha Hr Hn Hm Hf H1 H2. cbv zeta. rewrite !shiftr64. unfold as_u64.
  set (z1 := a * m + r + cc1).
  assert (0 ≤ z1 < 2 ^ 64 * 2 ^ 64) as Hz1 by (unfold z1; nia).
  pose proof (Z.div_mod z1 (2 ^ 64) ltac:(lia)) as D1. pose proof (Z.mod_pos_bound z1 (2 ^ 64) ltac:(lia)) as M1.
  set (z2 := f * n + z1 mod 2 ^ 64 + cc2).
  assert (0 ≤ z2 < 2 ^ 64 * 2 ^ 64) as Hz2 by (unfold z2; nia).
  pose proof (Z.div_mod z2 (2 ^ 64) ltac:(lia)) as D2. pose proof (Z.mod_pos_bound z2 (2 ^ 64) ltac:(lia)) as M2.
  assert (0 ≤ z1 / 2 ^ 64 < 2 ^ 64) by (split; [apply Z.div_pos; lia | apply Z.div_lt_upper_bound; lia]).
  assert (0 ≤ z2 / 2 ^ 64 < 2 ^ 64) by (split; [apply Z.div_pos; lia | apply Z.div_lt_upper_bound; lia]).
  assert (z1 = a * m + r + cc1) as E1 by done. assert (z2 = f * n + z1 mod 2 ^ 64 + cc2) as E2 by done.
  clearbody z1 z2. split_and!; lia.
Qed.

Lemma monty_row_spec k a r n m f cc1 cc2 out c1 c2 :
  limbs_ok k a → limbs_ok k r → limbs_ok k n → is_u64 m → is_u64 f → is_u64 cc1 → is_u64 cc2 →
  monty_row a r n m f cc1 cc2 = (out, c1, c2) →
  limbs_ok k out ∧ is_u64 c1 ∧ is_u64 c2 ∧
  limbs_val out + radix k * (c1 + c2) =
    limbs_val a * m + limbs_val r + f * limbs_val n + cc1 + cc2.
Proof.
  revert a r n cc1 cc2 out. induction k as [|k IH]; intros a r n cc1 cc2 out Ha Hr Hn Hm Hf H1 H2.
  { apply limbs_ok_nil in Ha as ->, Hr as ->, Hn as ->. cbn [monty_row]. intros [= <- <- <-]. cbn [limbs_val].
    change (radix 0) with 1. split_and!; [done..|lia]. }
  apply limbs_ok_inv in Ha as (x & a' & -> & Hx & Ha), Hr as (y & r' & -> & Hy & Hr),
    Hn as (z & n' & -> & Hz & Hn).
  destruct (monty_limb x y z m f cc1 cc2) as (B1 & B2 & B3 & E); [done..|]. cbv zeta in *.
  cbn [monty_row]. destruct (monty_row a' r' n' m f _ _) as [[out' c1'] c2'] eqn:Erow.
  intros [= <- <- <-]. destruct (IH _ _ _ _ _ _ Ha Hr Hn Hm Hf B1 B2 Erow) as (Hok & Hc1 & Hc2 & Hv).
  rewrite limbs_ok_cons. split; [done|]. split; [done|]. split; [done|].
  cbn [limbs_val]. rewrite radix_succ. lia.
Qed.

(** The multiplier clears the low word of the row. *)
Lemma monty_low_zero a r m :
  let f := wrapping_mul (wrapping_add (wrapping_mul a m) r) N0I in
  (f * hd 0 N + as_u64 (a * m + r + 0) + 0) mod 2 ^ 64 = 0.
Proof.
  cbv zeta. unfold wrapping_mul, wrapping_add, as_u64. rewrite Zplus_mod_idemp_l, !Z.add_0_r.
  set (t := (a * m + r) mod 2 ^ 64). change (hd 0 N) with 0xE80FD996948BFFE1.
  rewrite (Z.mod_eq (t * N0I) (2 ^ 64)) by lia. set (q := t * N0I / 2 ^ 64).
  replace ((t * N0I - 2 ^ 64 * q) * 0xE80FD996948BFFE1 + t)
    with ((t * (N0I * 0xE80FD996948BFFE1 / 2 ^ 64 + 1) - q * 0xE80FD996948BFFE1) * 2 ^ 64).
  - by apply Z.mod_mul.
  - assert (N0I * 0xE80FD996948BFFE1 = (N0I * 0xE80FD996948BFFE1 / 2 ^ 64 + 1) * 2 ^ 64 - 1) as HN
      by (vm_compute; reflexivity).
    revert HN. generalize (N0I * 0xE80FD996948BFFE1 / 2 ^ 64). intros c HN.
    replace ((t * N0I - 2 ^ 64 * q) * 0xE80FD996948BFFE1)
      with (t * (N0I * 0xE80FD996948BFFE1) - 2 ^ 64 * q * 0xE80FD996948BFFE1) by ring.
    rewrite HN. ring.
Qed.

Lemma monty_step_spec a r m :
  limbs_ok 5 a → limbs_ok 5 r → is_u64 m →
  limbs_val a + ORDER ≤ radix 5 → limbs_val r < limbs_val a + ORDER →
  limbs_ok 5 (monty_step a r m) ∧ limbs_val (monty_step a r m) < limbs_val a + ORDER ∧
  ∃ f, limbs_val (monty_step a r m) * 2 ^ 64 = limbs_val r + limbs_val a * m + f * ORDER.
Proof.
  intros Ha Hr Hm Hab Hrb. unfold monty_step.
  set (f := wrapping_mul (wrapping_add (wrapping_mul (hd 0 a) m) (hd 0 r)) N0I).
  assert (is_u64 f) as Hf.
  { unfold f, wrapping_mul at 1, is_u64, u64_max. pose proof (Z.mod_pos_bound (wrapping_add (wrapping_mul (hd 0 a) m) (hd 0 r) * N0I) (2 ^ 64)). lia. }
  destruct (monty_row a r N m f 0 0) as [[row c1] c2] eqn:E.
  destruct (monty_row_spec 5 a r N m f 0 0 row c1 c2) as (Hok & Hc1 & Hc2 & Hv); [done..|apply N_ok|done|done|done|done|done|].
  pose proof (limbs_ok_bound _ _ Ha) as HA0.
  apply limbs_ok_inv in Ha as (a0 & a' & -> & _ & _), Hr as (r0 & r' & -> & _ & _).
  apply limbs_ok_inv in Hok as (x0 & row' & -> & Hx0 & Hrow).
  assert (x0 = 0) as ->.
  { pose proof (monty_low_zero a0 r0 m) as Hz. cbv zeta in Hz. cbn [hd] in f.
    change N with (hd 0 N :: tl N) in E. cbn [monty_row] in E. fold f in Hz.
    destruct (monty_row a' r' _ m f _ _) as [[? ?] ?]. injection E as <- _ _ _. exact Hz. }
  cbn [tl]. rewrite N_val in Hv. set (A := limbs_val (a0 :: a')) in *.
  set (Rv := limbs_val (r0 :: r')) in *. cbn [limbs_val] in Hv.
  rewrite (radix_succ 4) in Hv, Hab. pose proof (limbs_ok_bound _ _ Hrow) as Hb.
  assert (0 ≤ A) as HA by apply HA0.
  pose proof (radix_pos 4) as Hrad. assert (0 < ORDER) by done.
  unfold is_u64, u64_max in Hm, Hf, Hc1, Hc2.
  set (T := limbs_val row' + radix 4 * (c1 + c2)).
  assert (T * 2 ^ 64 = Rv + A * m + f * ORDER) as HT by (unfold T; lia).
  assert (T < A + ORDER) as HTb.
  { assert (A * m ≤ A * (2 ^ 64 - 1)) by (apply Z.mul_le_mono_nonneg_l; lia).
    assert (f * ORDER ≤ (2 ^ 64 - 1) * ORDER) by (apply Z.mul_le_mono_nonneg_r; lia). lia. }
  assert (c1 + c2 < 2 ^ 64) as Hcc by (unfold T in HTb; nia).
  unfold as_u64. rewrite Z.mod_small by lia.
  assert (limbs_val (row' ++ [c1 + c2]) = T) as ->.
  { rewrite limbs_val_app. destruct Hrow as [-> _]. cbn [limbs_val]. unfold T, radix.
    rewrite Z.mul_0_r, Z.add_0_r. done. }
  split_and!; [|done|by exists f]. destruct Hrow as [Hl Hu].
  split; [by rewrite length_app, Hl|]. apply Forall_app. split; [done|].
  constructor; [unfold is_u64, u64_max; lia | constructor].
Qed.

Lemma monty_loop_spec a bs r :
  limbs_ok 5 a → limbs_ok 5 r → Forall is_u64 bs →
  limbs_val a + ORDER ≤ radix 5 → limbs_val r < limbs_val a + ORDER →
  limbs_ok 5 (fold_left (monty_step a) bs r) ∧
  limbs_val (fold_left (monty_step a) bs r) < limbs_val a + ORDER ∧
  ∃ q, limbs_val (fold_left (monty_step a) bs r) * radix (length bs) =
       limbs_val r + limbs_val a * limbs_val bs + q * ORDER.
Proof.
  intros Ha Hr Hbs Hab. revert r Hr. induction Hbs as [|b bs Hb _ IH]; intros r Hr Hrb.
  { cbn [fold_left length limbs_val]. change (radix 0) with 1. split_and!; [done..|]. exists 0. lia. }
  destruct (monty_step_spec a r b) as (Hok & Hlt & f & Hf); [done..|].
  rewrite fold_left_cons. destruct (IH _ Hok Hlt) as (Hok' & Hlt' & q & Hq).
  split_and!; [done..|]. exists (f + 2 ^ 64 * q). cbn [length limbs_val]. rewrite radix_succ.
  replace (limbs_val (fold_left _ _ _) * (2 ^ 64 * radix (length bs)))
    with (2 ^ 64 * (limbs_val (fold_left (monty_step a) bs (monty_step a r b)) * radix (length bs))) by ring.
  rewrite Hq. replace (2 ^ 64 * (limbs_val (monty_step a r b) + limbs_val a * limbs_val bs + q * ORDER))
    with (limbs_val (monty_step a r b) * 2 ^ 64 + 2 ^ 64 * (limbs_val a * limbs_val bs + q * ORDER)) by ring.
  rewrite Hf. ring.
Qed.

(** The inverse of the radix modulo the order. *)
Definition RADIX_INV : Z := 519679583025372136018720917052386563050428570135014399121072568572014882575672595950654573385832.

Lemma RADIX_INV_ok : radix 5 * RADIX_INV = 1 + (radix 5 * RADIX_INV / ORDER) * ORDER.
Proof. vm_compute. reflexivity. Qed.

(** Montgomery multiplication of a reduced operand by any five limbs. *)
Lemma monty_mul_spec a b :
  scalar_ok a → limbs_ok 5 b →
  scalar_ok (monty_mul a b) ∧
  limbs_val (monty_mul a b) = (limbs_val a * limbs_val b * RADIX_INV) mod ORDER.
Proof.
  intros [Ha Hlt] [Hlb Hb]. unfold monty_mul.
  assert (2 * ORDER ≤ radix 5) as H2 by done.
  destruct (monty_loop_spec a b [0; 0; 0; 0; 0]) as (Hok & Hr & q & Hq); [done| |done|lia| |].
  { split; [done|]. rewrite !Forall_cons. done. }
  { change (limbs_val _) with 0 at 1. pose proof (limbs_ok_bound _ _ Ha). assert (0 < ORDER) by done. lia. }
  destruct (sub_inner _ N) as [r2 bo] eqn:E.
  destruct (reduce_once _ r2 bo Hok) as [Hs Hv]; [lia|done|]. split; [done|]. rewrite Hv.
  rewrite Hlb in Hq. change (limbs_val [0; 0; 0; 0; 0]) with 0 in Hq. rewrite Z.add_0_l in Hq.
  generalize dependent (limbs_val (fold_left (monty_step a) b [0; 0; 0; 0; 0])). clear.
  generalize (limbs_val a * limbs_val b). intros x r _ Hq _.
  pose proof RADIX_INV_ok as HR. set (c := radix 5 * RADIX_INV / ORDER) in *.
  replace (x * RADIX_INV) with (r + (r * c - q * RADIX_INV) * ORDER); [by rewrite Z.mod_add|].
  assert (x = r * radix 5 - q * ORDER) as -> by lia.
  replace ((r * radix 5 - q * ORDER) * RADIX_INV)
    with (r * (radix 5 * RADIX_INV) - q * RADIX_INV * ORDER) by ring.
  rewrite HR. ring.
Qed.

Lemma scalar_add_spec a b :
  scalar_ok a → scalar_ok b →
  scalar_ok (ECgFp5Scalar.add a b) ∧
  limbs_val (ECgFp5Scalar.add a b) = (limbs_val a + limbs_val b) mod ORDER.
Proof.
  intros [Ha Hla] [Hb Hlb]. unfold ECgFp5Scalar.add, add_inner.
  destruct (add_loop_spec 5 a b 0 Ha Hb ltac:(lia)) as [Hok Hv].
  pose proof (limbs_ok_bound _ _ Ha). pose proof (limbs_ok_bound _ _ Hb).
  assert (2 * ORDER ≤ radix 5) as H2 by done.
  rewrite Z.add_0_r, Z.mod_small in Hv by lia.
  destruct (sub_inner _ N) as [r2 bo] eqn:E. rewrite <- Hv. by apply reduce_once; [|lia|].
Qed.

Lemma scalar_sub_spec a b :
  scalar_ok a → scalar_ok b →
  scalar_ok (ECgFp5Scalar.sub a b) ∧
  limbs_val (ECgFp5Scalar.sub a b) = (limbs_val a - limbs_val b) mod ORDER.
Proof.
  intros [Ha Hla] [Hb Hlb]. unfold ECgFp5Scalar.sub, add_inner.
  destruct (sub_inner a b) as [r0 bo] eqn:E.
  destruct (sub_inner_spec 5 a b r0 bo Ha Hb E) as [Hok Hv].
  pose proof (limbs_ok_bound _ _ Ha). pose proof (limbs_ok_bound _ _ Hb).
  assert (2 * ORDER ≤ radix 5) as H2 by done. unfold scalar_ok.
  destruct (bo =? 0); cbn [negb]; destruct Hv as [H1 Hv].
  - rewrite Hv. split; [split; [done|lia]|]. symmetry. apply Z.mod_small. lia.
  - destruct (add_loop_spec 5 r0 N 0 Hok N_ok ltac:(lia)) as [Hok' Hv'].
    rewrite Hv, N_val, Z.add_0_r in Hv'.
    replace (limbs_val a - limbs_val b + radix 5 + ORDER)
      with (limbs_val a - limbs_val b + ORDER + 1 * radix 5) in Hv' by lia.
    rewrite Z.mod_add, Z.mod_small in Hv' by lia.
    rewrite Hv'. split; [split; [done|lia]|]. apply (Z.mod_unique_pos _ _ (-1)); lia.
Qed.

Lemma scalar_mul_spec a b :
  scalar_ok a → scalar_ok b →
  scalar_ok (ECgFp5Scalar.mul a b) ∧
  limbs_val (ECgFp5Scalar.mul a b) = (limbs_val a * limbs_val b) mod ORDER.
Proof.
  intros Ha [Hb _]. unfold ECgFp5Scalar.mul.
  destruct (monty_mul_spec a R2 Ha R2_ok) as [Ht Hv].
  destruct (monty_mul_spec _ b Ht Hb) as [Hr Hw]. split; [done|]. rewrite Hw, Hv, R2_val.
  set (A := limbs_val a). set (B := limbs_val b).
  rewrite <- Z.mul_assoc, Z.mul_mod_idemp_l by done.
  replace (A * (radix 5 * radix 5 mod ORDER) * RADIX_INV * (B * RADIX_INV))
    with (A * B * RADIX_INV * RADIX_INV * (radix 5 * radix 5 mod ORDER)) by ring.
  rewrite Z.mul_mod_idemp_r by done.
  replace (A * B * RADIX_INV * RADIX_INV * (radix 5 * radix 5))
    with (A * B * ((radix 5 * RADIX_INV) * (radix 5 * RADIX_INV))) by ring.
  assert ((radix 5 * RADIX_INV * (radix 5 * RADIX_INV)) mod ORDER = 1) as H1 by (vm_compute; reflexivity).
  by rewrite <- Z.mul_mod_idemp_r, H1, Z.mul_1_r by done.
Qed.

(** Scalar arithmetic.  On scalars (five limbs of an integer below the group
    order) [add], [sub] and [mul] return scalars, and compute the sum, difference
    and product modulo the order; [mul] does so through two Montgomery products
    whose intermediate rows never overflow their words. *)
Theorem scalar_ops_correct a b :
  scalar_ok a → scalar_ok b →
  (scalar_ok (ECgFp5Scalar.add a b) ∧
   limbs_val (ECgFp5Scalar.add a b) = (limbs_val a + limbs_val b) mod ORDER) ∧
  (scalar_ok (ECgFp5Scalar.sub a b) ∧
   limbs_val (ECgFp5Scalar.sub a b) = (limbs_val a - limbs_val b) mod ORDER) ∧
  (scalar_ok (ECgFp5Scalar.mul a b) ∧
   limbs_val (ECgFp5Scalar.mul a b) = (limbs_val a * limbs_val b) mod ORDER).
Proof.
  intros Ha Hb. exact (conj (scalar_add_spec a b Ha Hb) (conj (scalar_sub_spec a b Ha Hb) (scalar_mul_spec a b Ha Hb))).
Qed.

Lemma scalar_ops_correct_witness :
  scalar_ok [3; 0; 0; 0; 0x7FFFFFFD80000006] ∧
  limbs_val (ECgFp5Scalar.mul [3; 0; 0; 0; 0x7FFFFFFD80000006] [3; 0; 0; 0; 0x7FFFFFFD80000006]) =
    (limbs_val [3; 0; 0; 0; 0x7FFFFFFD80000006] * limbs_val [3; 0; 0; 0; 0x7FFFFFFD80000006]) mod ORDER.
Proof.
  assert (scalar_ok [3; 0; 0; 0; 0x7FFFFFFD80000006]) as H.
  { split; [split; [done|]; rewrite !Forall_cons; done | done]. }
  split; [exact H|]. exact (proj2 (proj2 (proj2 (scalar_ops_correct _ _ H H)))).
Defined.

(** ** Signed windows *)

(** The integer a list of signed digits in base 2^w stands for. *)
Fixpoint digits_val (w : Z) (ds : list Z) : Z :=
  match ds with [] => 0 | d :: ds => d + 2 ^ w * digits_val w ds end.

(** What is left to recode: the accumulator and the limbs not yet read. *)
Definition pending (acc acc_len : Z) (limbs : list Z) : Z := acc + 2 ^ acc_len * limbs_val limbs.

Lemma land_mask x w : 0 ≤ w → Z.land x (Z.shiftl 1 w - 1) = x mod 2 ^ w.
Proof.
  intros Hw. rewrite Z.shiftl_1_l, <- Z.land_ones by done. f_equal. rewrite Z.ones_equiv. lia.
Qed.

Lemma pow2_split a b c : 0 ≤ a → 0 ≤ b → a + b = c → 2 ^ a * 2 ^ b = 2 ^ c.
Proof. intros. subst c. by rewrite Z.pow_add_r. Qed.

Lemma low_bits x n : 5 ≤ n → (x mod 2 ^ n) mod 2 ^ 5 = x mod 2 ^ 5.
Proof.
  intros Hn. apply Z.mod_mod_divide. exists (2 ^ (n - 5)). symmetry. apply pow2_split; lia.
Qed.

Lemma land_disjoint acc x k : 0 ≤ k → 0 ≤ acc < 2 ^ k → Z.land acc (Z.shiftl x k mod 2 ^ 64) = 0.
Proof.
  intros Hk Hacc. apply Z.bits_inj'. intros i Hi. rewrite Z.land_spec, Z.bits_0.
  destruct (decide (i < k)).
  - destruct (decide (i < 64)).
    + rewrite Z.mod_pow2_bits_low by lia. rewrite Z.shiftl_spec_low by lia. apply andb_false_r.
    + rewrite Z.mod_pow2_bits_high by lia. apply andb_false_r.
  - rewrite <- (Z.mod_small acc (2 ^ k)) by lia. by rewrite Z.mod_pow2_bits_high by lia.
Qed.

(** The disjoint [or] of the accumulator and the shifted limb, seen in five bits. *)
Lemma or_low_bits acc nl k :
  0 ≤ k → 0 ≤ acc < 2 ^ k →
  (Z.lor acc (as_u64 (Z.shiftl nl k)) mod 2 ^ 32) mod 2 ^ 5 = (acc + 2 ^ k * nl) mod 2 ^ 5.
Proof.
  intros Hk Hacc. rewrite low_bits by lia. unfold as_u64.
  rewrite <- Z.add_nocarry_lor by by apply land_disjoint.
  rewrite Z.add_mod, low_bits, <- Z.add_mod by lia. rewrite Z.shiftl_mul_pow2 by lia. f_equal. lia.
Qed.

(** What is left after a limb has been read. *)
Lemma refill_shift acc nl k :
  0 ≤ k < 5 → 0 ≤ acc < 2 ^ k → Z.shiftr nl (5 - k) = (acc + 2 ^ k * nl) / 2 ^ 5.
Proof.
  intros Hk Hacc. rewrite Z.shiftr_div_pow2 by lia.
  rewrite <- (pow2_split k (5 - k) 5) by lia.
  rewrite <- Z.div_div by (pose proof (Z.pow_pos_nonneg 2 k); pose proof (Z.pow_pos_nonneg 2 (5 - k)); lia).
  rewrite (Z.mul_comm (2 ^ k) nl), Z.div_add by lia. by rewrite (Z.div_small acc), Z.add_0_l by lia.
Qed.

(** The carry of a window: set exactly above half the base. *)
Lemma recode_carry bb :
  0 ≤ bb ≤ 32 → Z.shiftr ((Z.shiftl 1 (5 - 1) - bb) mod 2 ^ 32) 31 = if 16 <? bb then 1 else 0.
Proof.
  intros Hb. rewrite Z.shiftr_div_pow2 by lia. change (Z.shiftl 1 (5 - 1)) with 16.
  change (2 ^ 32) with 4294967296. change (2 ^ 31) with 2147483648.
  destruct (Z.ltb_spec 16 bb); Z.div_mod_to_equations; lia.
Qed.

Lemma recode_step acc acc_len limbs :
  0 ≤ acc_len → 0 ≤ acc < 2 ^ acc_len → Forall is_u64 limbs →
  ∃ bb limbs' acc' acc_len',
    (if acc_len <? 5 then
       match limbs with
       | nl :: limbs =>
           (Z.land (Z.lor acc (as_u64 (Z.shiftl nl acc_len)) mod 2 ^ 32) (Z.shiftl 1 5 - 1), limbs,
            Z.shiftr nl (5 - acc_len), acc_len + (64 - 5))
       | [] => (Z.land (acc mod 2 ^ 32) (Z.shiftl 1 5 - 1), [], 0, acc_len + (64 - 5))
       end
     else (Z.land (acc mod 2 ^ 32) (Z.shiftl 1 5 - 1), limbs, Z.shiftr acc 5, acc_len - 5))
    = (bb, limbs', acc', acc_len') ∧
    0 ≤ acc_len' ∧ 0 ≤ acc' < 2 ^ acc_len' ∧ Forall is_u64 limbs' ∧
    bb = pending acc acc_len limbs mod 2 ^ 5 ∧
    pending acc' acc_len' limbs' = pending acc acc_len limbs / 2 ^ 5.
Proof.
  intros Hl Hacc Hu. unfold pending. rewrite land_mask by lia.
  destruct (Z.ltb_spec acc_len 5).
  - destruct limbs as [|nl limbs].
    + eexists _, _, _, _. split; [done|]. cbn [limbs_val]. rewrite !Z.mul_0_r, !Z.add_0_r.
      assert (2 ^ acc_len < 2 ^ 5) by (apply Z.pow_lt_mono_r; lia).
      pose proof (Z.pow_pos_nonneg 2 (acc_len + (64 - 5))).
      rewrite low_bits, (Z.div_small acc) by lia. split_and!; [lia|lia|lia|done|done|done].
    + apply Forall_cons in Hu as [Hnl Hu]. rewrite land_mask by lia.
      eexists _, _, _, _. split; [done|]. rewrite or_low_bits, (refill_shift acc) by lia.
      unfold is_u64, u64_max in Hnl. cbn [limbs_val].
      assert (2 ^ (acc_len + (64 - 5)) * 2 ^ 5 = 2 ^ acc_len * 2 ^ 64) as Hp
        by (rewrite (pow2_split _ _ (acc_len + 64)), (pow2_split _ _ (acc_len + 64)); lia).
      split_and!; [lia| | |done| |].
      * apply Z.div_pos; [nia|lia].
      * apply Z.div_lt_upper_bound; [lia|]. nia.
      * replace (acc + 2 ^ acc_len * (nl + 2 ^ 64 * limbs_val limbs))
          with (acc + 2 ^ acc_len * nl + (2 ^ (acc_len + (64 - 5)) * limbs_val limbs) * 2 ^ 5) by lia.
        by rewrite Z.mod_add by lia.
      * replace (acc + 2 ^ acc_len * (nl + 2 ^ 64 * limbs_val limbs))
          with (acc + 2 ^ acc_len * nl + (2 ^ (acc_len + (64 - 5)) * limbs_val limbs) * 2 ^ 5) by lia.
        by rewrite Z.div_add by lia.
  - eexists _, _, _, _. split; [done|]. rewrite low_bits, Z.shiftr_div_pow2 by lia.
    assert (2 ^ acc_len = 2 ^ (acc_len - 5) * 2 ^ 5) as Hp by (symmetry; apply pow2_split; lia).
    replace (acc + 2 ^ acc_len * limbs_val limbs)
      with (acc + (2 ^ (acc_len - 5) * limbs_val limbs) * 2 ^ 5) by lia.
    rewrite Z.mod_add, Z.div_add by lia. split_and!; [lia| | |done|done|done].
    + apply Z.div_pos; lia.
    + apply Z.div_lt_upper_bound; lia.
Qed.

Lemma recode_loop_spec n limbs acc acc_len cc :
  0 ≤ acc_len → 0 ≤ acc < 2 ^ acc_len → Forall is_u64 limbs → 0 ≤ cc ≤ 1 →
  pending acc acc_len limbs < 2 ^ (5 * Z.of_nat (S n) - 1) →
  let ds := ECgFp5Scalar.recode_loop (S n) limbs 5 acc acc_len cc in
  length ds = S n ∧ Forall (λ d, -15 ≤ d ≤ 16) ds ∧
  digits_val 5 ds = pending acc acc_len limbs + cc.
Proof.
  revert limbs acc acc_len cc.
  assert (∀ P : nat → Prop, P 1%nat → (∀ k, (0 < k)%nat → P k → P (S k)) → ∀ n, P (S n)) as ind.
  { intros P P1 PS k. induction k; auto with lia. }
  pattern (S n). apply ind; clear n ind; [|intros k Hk IH]; intros limbs acc acc_len cc Hl Hacc Hu Hcc HV;
    cbv zeta; cbn [ECgFp5Scalar.recode_loop].
  all: destruct (recode_step acc acc_len limbs Hl Hacc Hu)
    as (bb & limbs' & acc' & len' & -> & Hl' & Hacc' & Hu' & Hbb & HV').
  all: pose proof (Z.div_mod (pending acc acc_len limbs) (2 ^ 5) ltac:(lia)) as Hdm.
  all: pose proof (Z.mod_pos_bound (pending acc acc_len limbs) (2 ^ 5) ltac:(lia)) as Hmb.
  all: rewrite <- Hbb in Hdm, Hmb; change (2 ^ 5) with 32 in *.
  all: rewrite recode_carry by lia; rewrite Z.shiftl_mul_pow2 by lia; change (2 ^ 5) with 32.
  - change (2 ^ _) with 16 in HV.
    assert (0 ≤ pending acc' len' limbs').
    { unfold pending. pose proof (limbs_val_bound _ Hu'). pose proof (Z.pow_pos_nonneg 2 len'). nia. }
    assert (bb + cc ≤ 16) by (rewrite HV' in *; lia).
    replace (16 <? bb + cc) with false by (symmetry; apply Z.ltb_ge; lia).
    cbn [ECgFp5Scalar.recode_loop length digits_val]. split; [done|]. split; [|rewrite HV' in *; lia].
    constructor; [lia | constructor].
  - set (cc' := if 16 <? bb + cc then 1 else 0).
    assert (0 ≤ cc' ≤ 1 ∧ -15 ≤ bb + cc - cc' * 32 ≤ 16) as [Hcc' Hd]
      by (unfold cc'; destruct (Z.ltb_spec 16 (bb + cc)); lia).
    assert (pending acc' len' limbs' < 2 ^ (5 * Z.of_nat k - 1)) as Hb.
    { rewrite HV'. apply Z.div_lt_upper_bound; [lia|].
      change 32 with (2 ^ 5). rewrite (pow2_split _ _ (5 * Z.of_nat (S k) - 1)) by lia. exact HV. }
    destruct (IH limbs' acc' len' cc' Hl' Hacc' Hu' Hcc' Hb) as (Hlen & Hds & Hval).
    cbn [length digits_val]. rewrite Hlen. split; [done|]. split; [by constructor|].
    rewrite Hval, HV'. change (2 ^ 5) with 32. lia.
Qed.

(** The signed digits of a scalar below 2^319: 64 of them, in [-15, 16], and their
    sum with weights 32^i is the scalar. *)
Lemma recode_signed_spec s :
  limbs_ok 5 s → limbs_val s < 2 ^ 319 →
  let ds := ECgFp5Scalar.recode_signed s 64 5 in
  length ds = 64%nat ∧ Forall (λ d, -15 ≤ d ≤ 16) ds ∧ digits_val 5 ds = limbs_val s.
Proof.
  intros [_ Hu] Hb. unfold ECgFp5Scalar.recode_signed.
  destruct (recode_loop_spec 63 s 0 0 0) as (H1 & H2 & H3); [lia|lia|done|lia| |].
  - unfold pending. change (2 ^ 0) with 1. rewrite Z.mul_1_l. exact Hb.
  - cbv zeta in *. split_and!; [done|done|]. rewrite H3. unfold pending. change (2 ^ 0) with 1. lia.
Qed.

(** ** Conversions *)

Lemma of_le_app l1 l2 : of_le (l1 ++ l2) = of_le l1 + 256 ^ Z.of_nat (length l1) * of_le l2.
Proof.
  induction l1 as [|x l1 IH]; cbn [of_le app length]; [change (256 ^ _) with 1; lia|].
  rewrite IH, Nat2Z.inj_succ, Z.pow_succ_r by lia. ring.
Qed.

Lemma of_le_zeros n : of_le (replicate n 0) = 0.
Proof. induction n as [|n IH]; [done|]. cbn [replicate of_le]. rewrite IH. done. Qed.

Lemma bytes_of_pos_spec fuel n x :
  0 ≤ x < 256 ^ Z.of_nat n → (1 ≤ n)%nat → x < 256 ^ Z.of_nat fuel → (1 ≤ fuel)%nat →
  of_le (bytes_of_pos fuel x) = x ∧ (length (bytes_of_pos fuel x) ≤ n)%nat ∧
  Forall is_byte (bytes_of_pos fuel x).
Proof.
  revert n x. induction fuel as [|fuel IH]; intros n x Hx Hn Hf Hf1; [lia|].
  cbn [bytes_of_pos]. unfold is_byte in *. destruct (Z.ltb_spec x 256).
  { cbn [of_le length]. split_and!; [lia|lia|]. constructor; [lia|constructor]. }
  destruct n as [|n]; [lia|]. rewrite Nat2Z.inj_succ, Z.pow_succ_r in Hx, Hf by lia.
  destruct n as [|n]; [cbn in Hx; lia|].
  assert (fuel ≠ 0%nat) by (intros ->; cbn in Hf; lia).
  destruct (IH (S n) (x / 256)) as (H1 & H2 & H3).
  - split; [apply Z.div_pos; lia | apply Z.div_lt_upper_bound; lia].
  - lia.
  - apply Z.div_lt_upper_bound; lia.
  - lia.
  - cbn [of_le length]. rewrite H1. pose proof (Z.div_mod x 256). pose proof (Z.mod_pos_bound x 256).
    split_and!; [lia|lia|]. constructor; [lia|done].
Qed.

Lemma to_bytes_le_spec x :
  0 ≤ x < 2 ^ 320 →
  of_le (to_bytes_le x) = x ∧ (length (to_bytes_le x) ≤ 40)%nat ∧ Forall is_byte (to_bytes_le x).
Proof.
  intros Hx. apply bytes_of_pos_spec; [done|lia| |lia].
  rewrite Nat2Z.inj_succ, Z2Nat.id by apply Z.log2_nonneg.
  destruct (decide (x = 0)) as [->|]; [done|].
  destruct (Z.log2_spec x) as [_ Hlt]; [lia|].
  apply (Z.lt_le_trans _ _ _ Hlt). apply Z.pow_le_mono_l. lia.
Qed.

(** Forty bytes as five words. *)
Lemma words_of_bytes n data :
  length data = (n * 8)%nat → Forall is_byte data →
  let l := map (λ i, of_le (take 8 (drop (i * 8) data))) (seq 0 n) in
  limbs_ok n l ∧ limbs_val l = of_le data.
Proof.
  revert data. induction n as [|n IH]; intros data Hl Hb; cbv zeta.
  { apply nil_length_inv in Hl as ->. done. }
  cbn [seq map]. rewrite <- seq_shift, map_map. change (0 * 8)%nat with 0%nat. rewrite drop_0.
  destruct (IH (drop 8 data)) as [Hok Hv]; [rewrite length_drop; lia | by apply Forall_drop |].
  cbv zeta in Hok, Hv.
  rewrite (map_ext _ (λ i, of_le (take 8 (drop (i * 8) (drop 8 data)))))
    by (intros i; by rewrite drop_drop).
  rewrite limbs_ok_cons. cbn [limbs_val]. rewrite Hv.
  assert (length (take 8 data) = 8%nat) as H8 by (rewrite length_take; lia).
  split; [split; [|done]|].
  - apply u64_of_le_u64; [done|]. by apply Forall_take.
  - rewrite <- (take_drop 8 data) at 3. rewrite of_le_app, H8. done.
Qed.

Lemma from_le_bytes_ok data :
  length data = 40%nat → Forall is_byte data →
  ∃ l, ECgFp5Scalar.from_le_bytes data = Some l ∧ limbs_ok 5 l ∧ limbs_val l = of_le data.
Proof.
  intros Hl Hb. unfold ECgFp5Scalar.from_le_bytes. rewrite (proj2 (Nat.eqb_eq _ _) Hl).
  eexists. split; [done|]. by apply (words_of_bytes 5).
Qed.

Lemma from_bigint_ok v :
  0 ≤ v < 2 ^ 320 →
  ∃ l, ECgFp5Scalar.from_bigint v = Some l ∧ limbs_ok 5 l ∧ limbs_val l = v.
Proof.
  intros Hv. destruct (to_bytes_le_spec v Hv) as (H1 & H2 & H3).
  unfold ECgFp5Scalar.from_bigint. rewrite take_ge by done.
  destruct (from_le_bytes_ok (pad_to 40 (to_bytes_le v))) as (l & -> & Hok & Hval).
  - by apply pad_to_length.
  - unfold pad_to. apply Forall_app. split; [done|]. apply Forall_replicate. unfold is_byte. lia.
  - exists l. split; [done|]. split; [done|]. rewrite Hval. unfold pad_to.
    by rewrite of_le_app, of_le_zeros, Z.mul_0_r, Z.add_0_r.
Qed.

Lemma bigint_from_array_val arr : bigint_from_array arr = limbs_val arr.
Proof.
  unfold bigint_from_array. rewrite <- fold_left_rev_right, rev_involutive.
  induction arr as [|x arr IH]; cbn [foldr limbs_val]; [done|].
  rewrite IH, Z.shiftl_mul_pow2 by lia. lia.
Qed.

Lemma to_u64_array_u64 e : canonical5 e → Forall is_u64 (qlist (GFp5.to_u64_array e)).
Proof.
  intros H. apply Forall_map with (f := GoldilocksField.to_u64) (l := qlist e).
  eapply Forall_impl; [exact H|]. intros a Ha. change (is_u64 (GoldilocksField.to_u64 a)).
  assert (is_u64 a) as Hu by (unfold canonical, p in Ha; word).
  pose proof (to_u64_range a Hu) as Hc. unfold canonical, p in Hc. word.
Qed.

Lemma from_gfp5_ok e :
  canonical5 e →
  ∃ s, ECgFp5Scalar.from_gfp5 e = Some s ∧ scalar_ok s ∧
    limbs_val s = limbs_val (qlist (GFp5.to_u64_array e)) mod ORDER.
Proof.
  intros He. unfold ECgFp5Scalar.from_gfp5. cbv zeta. rewrite bigint_from_array_val.
  pose proof (Z.mod_pos_bound (limbs_val (qlist (GFp5.to_u64_array e))) ORDER ltac:(done)) as Hb.
  assert (ORDER < 2 ^ 320) by done.
  destruct (from_bigint_ok (limbs_val (qlist (GFp5.to_u64_array e)) mod ORDER)) as (l & Hl & Hok & Hv); [lia|].
  exists l. split; [done|]. rewrite Hv. split; [split; [done|lia]|done].
Qed.

Lemma scalar_bytes_length s : length (ECgFp5Scalar.to_le_bytes s) = (length s * 8)%nat.
Proof.
  unfold ECgFp5Scalar.to_le_bytes. induction s as [|x s IH]; [done|]. cbn [map concat length].
  rewrite length_app, to_le_length, IH. lia.
Qed.

Lemma scalar_bytes_roundtrip s :
  limbs_ok 5 s → ECgFp5Scalar.from_le_bytes (ECgFp5Scalar.to_le_bytes s) = Some s.
Proof.
  intros Hs. pose proof Hs as [Hl Hu].
  assert (∀ l, Forall is_u64 l → length (concat (map (to_le 8) l)) = (length l * 8)%nat ∧
    Forall is_byte (concat (map (to_le 8) l)) ∧ of_le (concat (map (to_le 8) l)) = limbs_val l) as Hc.
  { induction 1 as [|x l Hx _ (IH1 & IH2 & IH3)]; cbn [map concat length]; [done|].
    rewrite length_app, to_le_length, IH1. split; [lia|]. split.
    - apply Forall_app. split; [apply to_le_bytes_ok | done].
    - rewrite of_le_app, to_le_length, u64_le_roundtrip, IH3 by done. done. }
  destruct (Hc s Hu) as (H1 & H2 & H3). rewrite Hl in H1.
  destruct (from_le_bytes_ok _ H1 H2) as (l & El & Hok & Hv). unfold ECgFp5Scalar.to_le_bytes.
  rewrite El. f_equal. destruct Hok as [Hl' Hu']. apply limbs_val_inj; [congruence|done|done|congruence].
Qed.

Lemma sample_attempt_ok bytes s :
  Forall is_byte bytes → ECgFp5Scalar.sample_attempt bytes = Some s → scalar_ok s.
Proof.
  intros Hb. unfold ECgFp5Scalar.sample_attempt. intros H.
  destruct (ECgFp5Scalar.from_le_bytes _) as [l|] eqn:E; [|done]. cbn [mbind option_bind] in H.
  assert (length (alter (λ b, Z.land b 0x7F) 39%nat bytes) = 40%nat) as Hl.
  { unfold ECgFp5Scalar.from_le_bytes in E. destruct (Nat.eqb_spec (length (alter (λ b, Z.land b 0x7F) 39%nat bytes)) 40); [done|]. discriminate. }
  assert (Forall is_byte (alter (λ b, Z.land b 0x7F) 39%nat bytes)) as Hb'.
  { apply Forall_alter; [done|]. intros b Hlk _. unfold is_byte in *.
    change 0x7F with (Z.ones 7). rewrite Z.land_ones by lia. pose proof (Z.mod_pos_bound b (2 ^ 7)). lia. }
  destruct (from_le_bytes_ok _ Hl Hb') as (l' & E' & Hok & _). rewrite E in E'. injection E' as <-.
  rewrite bigint_from_array_val in H. destruct (Z.ltb_spec (limbs_val l) ORDER); [|done].
  injection H as <-. by split.
Qed.

(** Scalars from the outside.  Hashing to a scalar reduces the 320-bit integer
    of the coefficients modulo the group order; the forty-byte encoding of five
    limbs is read back; every scalar the rejection sampler returns is below the
    order. *)
Theorem scalar_sources_correct e s draws r :
  canonical5 e → limbs_ok 5 s → Forall (Forall is_byte) draws →
  ECgFp5Scalar.sample_random draws = Some r →
  (∃ h, ECgFp5Scalar.from_gfp5 e = Some h ∧ scalar_ok h ∧
     limbs_val h = limbs_val (qlist (GFp5.to_u64_array e)) mod ORDER) ∧
  ECgFp5Scalar.from_le_bytes (ECgFp5Scalar.to_le_bytes s) = Some s ∧
  scalar_ok r.
Proof.
  intros He Hs Hd Hr. split; [by apply from_gfp5_ok|]. split; [by apply scalar_bytes_roundtrip|].
  induction Hd as [|b draws Hb _ IH]; cbn [ECgFp5Scalar.sample_random] in Hr; [done|].
  destruct (ECgFp5Scalar.sample_attempt b) as [r'|] eqn:E; [|by apply IH].
  injection Hr as <-. by eapply sample_attempt_ok.
Qed.

Lemma scalar_sources_correct_witness :
  ECgFp5Scalar.sample_random [replicate 40 255; replicate 40 1] =
    Some [0x0101010101010101; 0x0101010101010101; 0x0101010101010101; 0x0101010101010101; 0x0101010101010101] ∧
  scalar_ok [0x0101010101010101; 0x0101010101010101; 0x0101010101010101; 0x0101010101010101; 0x0101010101010101].
Proof.
  split; [vm_compute; reflexivity|].
  apply (scalar_sources_correct GFp5.ONE ECgFp5Scalar.ONE [replicate 40 255; replicate 40 1]).
  - unfold canonical5, qlist. rewrite !Forall_cons. done.
  - split; [done|]. unfold ECgFp5Scalar.ONE. rewrite !Forall_cons. done.
  - repeat constructor; done.
  - vm_compute. reflexivity.
Defined.
