(* ===== verification/EcGroup.v ===== *)
(** * The group of the curve

    The mathematics behind the point operations, over the field [F5].  A group
    element is an affine pair (x, u) with x = u^2 * (x^2 + 2 x + b) whose
    [den] x^2 + 2 x + b is not a square; the neutral element is (0, 0).  The
    addition is the pair of fractions of the polynomials the code computes.

    The addition law is shown to be total on the group (no denominator vanishes),
    to stay in the group, and to be associative and commutative with neutral
    element and inverses: b and 1 - b have no square root in the field. *)

From Stdlib Require Import Zmod.Zmod Field.
From S2P Require Import Prelude Words Goldilocks Quintic Gfp5.

(** ** The field tactic on the extension *)

Definition f5_div (x y : F5) : F5 := (x * f5_inv y)%f5.
Infix "/" := f5_div : f5_scope.
Notation "2" := (f5 2) : f5_scope.
Notation "3" := (f5 3) : f5_scope.
Notation "4" := (f5 4) : f5_scope.

Lemma f5_one_nonzero : 1%f5 ≠ 0%f5.
Proof. intros H%base_inj%(f_equal Zmod.to_Z). by vm_compute in H. Qed.

Lemma f5_field_theory :
  field_theory f5_zero f5_one f5_add f5_mul f5_sub f5_opp f5_div f5_inv eq.
Proof.
  split; [exact f5_ring_theory | | done |].
  - apply f5_one_nonzero.
  - intros x Hx. pose proof (f5_inv_r x Hx) as H. rewrite <- H. ring.
Qed.

Add Field F5_field : f5_field_theory
  (morphism f5_morph, constants [f5_cst], power_tac f5_power [Zpow_tac]).

Lemma f5_div_1 x : (x / 1 = x)%f5.
Proof. field. apply f5_one_nonzero. Qed.

Lemma f5_mul_nonzero x y : x ≠ 0%f5 → y ≠ 0%f5 → (x * y ≠ 0)%f5.
Proof. intros Hx Hy [|]%f5_integral; done. Qed.

Lemma f5_frac_eq a c d e : c ≠ 0%f5 → e ≠ 0%f5 → (a * e = d * c)%f5 → (a / c = d / e)%f5.
Proof. intros Hc He H. transitivity ((a * e) / (c * e))%f5; [field; by split|]. rewrite H. field. by split. Qed.

Lemma f5_frac_zero a c : c ≠ 0%f5 → (a / c = 0)%f5 → a = 0%f5.
Proof. intros Hc H. transitivity (a / c * c)%f5; [by field|]. rewrite H. ring. Qed.

(** ** Squares *)

Definition is_square (x : F5) : Prop := ∃ y, (y * y = x)%f5.

Lemma square_zero : is_square 0%f5.
Proof. exists 0%f5. ring. Qed.

Lemma nonsquare_nonzero x : ¬ is_square x → x ≠ 0%f5.
Proof. intros H ->. apply H, square_zero. Qed.

Lemma is_square_norm x : is_square x ↔ ∃ y, (y * y = norm x)%fp.
Proof. symmetry. apply norm_square. Qed.

Definition half_power (n : Fp) : Fp := (n ^ ((p - 1) / 2)%Z)%fp.

Lemma half_power_mul m n : half_power (m * n)%fp = (half_power m * half_power n)%fp.
Proof.
  unfold half_power. pose proof half_nonneg as H. revert H. generalize ((p - 1) / 2). intros e He.
  exact (Zmod.pow_mul_l_nonneg m n e He).
Qed.

Lemma half_power_zero : half_power 0%fp = 0%fp.
Proof. apply fp_pow_0_l. reflexivity. Qed.

Lemma fp_one_not_opp : 1%fp ≠ (- (1))%fp.
Proof. intros H%(f_equal Zmod.to_Z). by vm_compute in H. Qed.

Lemma half_power_nonsquare n :
  n ≠ 0%fp → ¬ (∃ y, (y * y = n)%fp) ↔ half_power n = (- (1))%fp.
Proof.
  intros Hn. unfold half_power. destruct (fp_euler n Hn) as [[H1 H2]|[H1 H2]]; rewrite H1; split.
  - intros []. exact H2.
  - intros H. destruct (fp_one_not_opp H).
  - reflexivity.
  - intros _ [y Hy]. exact (H2 y Hy).
Qed.

Lemma half_power_square n :
  n ≠ 0%fp → half_power n = 1%fp → ∃ y, (y * y = n)%fp.
Proof.
  intros Hn. unfold half_power. destruct (fp_euler n Hn) as [[H1 H2]|[H1 H2]]; rewrite H1.
  - intros _. exact H2.
  - intros H. destruct (fp_one_not_opp (eq_sym H)).
Qed.

Lemma half_power_of_square n : n ≠ 0%fp → (∃ y, (y * y = n)%fp) → half_power n = 1%fp.
Proof.
  intros Hn [y Hy]. unfold half_power. destruct (fp_euler n Hn) as [[H1 H2]|[H1 H2]]; [exact H1|].
  destruct (H2 y Hy).
Qed.

Lemma legendre_half a x : a ⊫ x → GFp5.legendre a ⊨ half_power (norm x).
Proof. exact (legendre_rep a x). Qed.

#[local] Opaque half_power.

Lemma norm_nonzero x : x ≠ 0%f5 → norm x ≠ 0%fp.
Proof. by rewrite norm_zero. Qed.

#[export] Instance decide_square x : Decision (is_square x).
Proof.
  destruct (decide (x = 0%f5)) as [->|Hx]; [left; apply square_zero|].
  destruct (decide (half_power (norm x) = 1%fp)) as [H|H].
  - left. rewrite is_square_norm. by apply half_power_square; [apply norm_nonzero|].
  - right. rewrite is_square_norm. intros Hs. apply H. by apply half_power_of_square; [apply norm_nonzero|].
Defined.

(** The product of two non-squares is a square. *)
Lemma nonsquare_mul x y : ¬ is_square x → ¬ is_square y → is_square (x * y)%f5.
Proof.
  intros Hx Hy. pose proof (norm_nonzero _ (nonsquare_nonzero _ Hx)) as Nx.
  pose proof (norm_nonzero _ (nonsquare_nonzero _ Hy)) as Ny.
  rewrite is_square_norm in *. rewrite norm_mul.
  apply half_power_nonsquare in Hx; [|exact Nx]. apply half_power_nonsquare in Hy; [|exact Ny].
  apply half_power_square; [intros [|]%fp_integral; contradiction|].
  rewrite half_power_mul, Hx, Hy. ring.
Qed.

Lemma nonsquare_square_mul x y : ¬ is_square x → y ≠ 0%f5 → ¬ is_square (x * (y * y))%f5.
Proof.
  intros Hx Hy [z Hz]. apply Hx. exists (z / y)%f5.
  transitivity (z * z / (y * y))%f5; [by field|]. rewrite Hz. by field.
Qed.

Lemma nonsquare_eq x y : ¬ is_square x → x = y → ¬ is_square y.
Proof. by intros ? <-. Qed.

(** A form s^2 - d * t^2 with d not a square vanishes only at zero. *)
Lemma anisotropic d s t : ¬ is_square d → (s * s = d * (t * t))%f5 → s = 0%f5 ∧ t = 0%f5.
Proof.
  intros Hd H. destruct (decide (t = 0%f5)) as [->|Ht].
  - split; [|done]. assert (s * s = 0)%f5 as [|]%f5_integral; [|done|done]. rewrite H. ring.
  - destruct Hd. exists (s / t)%f5. transitivity (s * s / (t * t))%f5; [by field|]. rewrite H. by field.
Qed.

(** The constants of the curve. *)
Definition curve_b : F5 := Quint 0%fp (fp 263) 0%fp 0%fp 0%fp.
Abbreviation B := curve_b.

Lemma nonsquare_by_legendre (a : quint Z) (x : F5) :
  a ⊫ x → GoldilocksField.to_u64 (GFp5.legendre a) = p - 1 → ¬ is_square x.
Proof.
  intros Ha Hl. rewrite (to_u64_rep _ _ (legendre_half a x Ha)) in Hl.
  assert (half_power (norm x) = (- (1))%fp) as H.
  { apply Zmod.to_Z_inj. rewrite Hl. vm_compute. reflexivity. }
  destruct (decide (x = 0%f5)) as [->|Hx].
  { exfalso. revert H. rewrite (proj2 (norm_zero _) eq_refl). rewrite half_power_zero. intros H%(f_equal Zmod.to_Z). vm_compute in H. discriminate H. }
  rewrite is_square_norm. apply half_power_nonsquare; [by apply norm_nonzero|exact H].
Qed.

(** The symbol is one exactly at the squares other than zero. *)
Lemma legendre_test (a : quint Z) (x : F5) :
  a ⊫ x → x ≠ 0%f5 → (GoldilocksField.to_u64 (GFp5.legendre a) =? 1) = true ↔ is_square x.
Proof.
  intros Ha Hx. rewrite (to_u64_rep _ _ (legendre_half a x Ha)), Z.eqb_eq. split.
  - intros H. rewrite is_square_norm. apply half_power_square; [by apply norm_nonzero|].
    apply Zmod.to_Z_inj. rewrite H. vm_compute. reflexivity.
  - intros H. destruct (decide (half_power (norm x) = 1%fp)) as [->|Hn]; [vm_compute; reflexivity|].
    exfalso. apply Hn. rewrite is_square_norm in H. apply half_power_of_square; [by apply norm_nonzero|exact H].
Qed.

Lemma b_nonsquare : ¬ is_square B.
Proof.
  apply (nonsquare_by_legendre (GFp5.from_u64_array (Quint 0 263 0 0 0))).
  - eapply rep5_eq; [apply rep5_from_u64_array|].
    + unfold qlist. rewrite !Forall_cons. done.
    + unfold qmap, curve_b. cbn [q0 q1 q2 q3 q4]. by rewrite fp_0.
  - vm_compute. reflexivity.
Qed.

Lemma one_minus_b_nonsquare : ¬ is_square (1 - B)%f5.
Proof.
  apply (nonsquare_by_legendre (GFp5.ONE - GFp5.from_u64_array (Quint 0 263 0 0 0))%gfp5).
  - apply rep5_sub; [apply rep5_ONE|]. eapply rep5_eq; [apply rep5_from_u64_array|].
    + unfold qlist. rewrite !Forall_cons. done.
    + unfold qmap, curve_b. cbn [q0 q1 q2 q3 q4]. by rewrite fp_0.
  - vm_compute. reflexivity.
Qed.

#[local] Opaque f5_add f5_sub f5_mul f5_opp f5_pow f5_inv.

(** ** Points *)

(** Fractional coordinates, and the affine point they stand for. *)
Record frac_point := Frac { fX : F5; fZ : F5; fU : F5; fT : F5 }.
Definition affine : Type := F5 * F5.

Lemma frac_point_eq P Q : fX P = fX Q → fZ P = fZ Q → fU P = fU Q → fT P = fT Q → P = Q.
Proof. destruct P, Q; cbn. by intros -> -> -> ->. Qed.

Definition lift (P : affine) : frac_point := Frac P.1 1%f5 P.2 1%f5.
Definition frac (P : frac_point) : affine := (fX P / fZ P, fU P / fT P)%f5.

(** The addition formulas. *)
Definition padd (P Q : frac_point) : frac_point :=
  let m := (fX P * fX Q)%f5 in
  let z := (fZ P * fZ Q)%f5 in
  let s := (fX P * fZ Q + fX Q * fZ P)%f5 in
  let w := (fU P * fU Q)%f5 in
  let t := (fT P * fT Q)%f5 in
  let v := (fU P * fT Q + fU Q * fT P)%f5 in
  let n := (m + B * z)%f5 in
  Frac (B * (s * t + 2 * w * (s + n)))%f5 (t * n - w * (2 * B * s + 2 * n))%f5
       (v * (B * z - m))%f5 (t * n + w * (2 * B * s + 2 * n))%f5.

(** The doubling formulas. *)
Definition pdouble (P : frac_point) : frac_point :=
  let z1 := (fZ P * fT P * fU P)%f5 in
  let t2 := (fZ P * fT P * fT P)%f5 in
  let w1 := (t2 - fU P * fU P * (2 * (fX P + fZ P)))%f5 in
  Frac (z1 * z1 * (4 * B))%f5 (w1 * w1)%f5 (2 * (w1 * z1))%f5 (2 * (t2 * t2) - (z1 * z1 * 4 + w1 * w1))%f5.

Definition aadd (P Q : affine) : affine := frac (padd (lift P) (lift Q)).
Definition aopp (P : affine) : affine := (P.1, - P.2)%f5.
Definition aneutral : affine := (0, 0)%f5.

Definition den (x : F5) : F5 := (x * x + 2 * x + B)%f5.

Record in_group (P : affine) : Prop := {
  on_curve : P.1 = (P.2 * P.2 * den P.1)%f5;
  den_nonsquare : ¬ is_square (den P.1);
}.

Lemma affine_eq (x1 x2 u1 u2 : F5) : x1 = x2 → u1 = u2 → (x1, u1) = (x2, u2).
Proof. by intros -> ->. Qed.

Lemma f5_div_eq (x1 x2 y1 y2 : F5) : x1 = x2 → y1 = y2 → (x1 / y1 = x2 / y2)%f5.
Proof. by intros -> ->. Qed.

(** The curve equation oriented for rewriting. *)
Lemma curve_rewrite x u :
  x = (u * u * den x)%f5 → (u ^ 2 * x ^ 2 = x - 2 * u ^ 2 * x - B * u ^ 2)%f5.
Proof. intros H. rewrite H at 2. unfold den. ring. Qed.

Ltac curve_eqs :=
  repeat match goal with
  | H : in_group (?x, ?u) |- _ =>
      lazymatch goal with
      | _ : (u ^ 2 * x ^ 2 = _)%f5 |- _ => fail
      | _ => pose proof (curve_rewrite x u (on_curve _ H))
      end
  end.

(** [ring] modulo the curve equations in the context, with the constant abstracted. *)
Ltac curve_ring :=
  curve_eqs; cbn [padd pdouble lift fX fZ fU fT fst snd] in *; unfold den in *;
  generalize dependent curve_b; intros;
  lazymatch goal with
  | H : (?u ^ 2 * _ ^ 2 = _)%f5, H' : (?v ^ 2 * _ ^ 2 = _)%f5, H'' : (_ ^ 2 * _ ^ 2 = _)%f5 |- _ =>
      ring [H H' H'']
  | H : (?u ^ 2 * _ ^ 2 = _)%f5, H' : (?v ^ 2 * _ ^ 2 = _)%f5 |- _ => ring [H H']
  | H : (?u ^ 2 * _ ^ 2 = _)%f5 |- _ => ring [H]
  end.

Lemma padd_curve P Q (R := padd (lift P) (lift Q)) :
  in_group P → in_group Q →
  (fX R * fZ R * fT R ^ 2 = fU R ^ 2 * (fX R ^ 2 + 2 * fX R * fZ R + B * fZ R ^ 2))%f5.
Proof. subst R. destruct P as [x1 u1], Q as [x2 u2]. intros HP HQ. curve_ring. Qed.

Lemma padd_class P Q (R := padd (lift P) (lift Q)) :
  in_group P → in_group Q →
  (fX R * (B - P.1 * Q.1) ^ 2 = B * (P.2 + Q.2) ^ 2 * (den P.1 * den Q.1) * fZ R)%f5.
Proof. subst R. destruct P as [x1 u1], Q as [x2 u2]. intros HP HQ. curve_ring. Qed.

(** ** Totality of the addition *)

Lemma group_zero x u : in_group (x, u) → x = 0%f5 ↔ u = 0%f5.
Proof.
  intros [Hc Hn]. cbn [fst snd] in *. split; intros ->.
  - symmetry in Hc. apply f5_integral in Hc as [[|]%f5_integral|Hd]; [done|done|].
    destruct Hn. rewrite Hd. apply square_zero.
  - rewrite Hc. ring.
Qed.

Lemma group_nonsquare x u : in_group (x, u) → u ≠ 0%f5 → ¬ is_square x.
Proof.
  intros [Hc Hn] Hu. cbn [fst snd] in *. eapply nonsquare_eq; [by apply (nonsquare_square_mul _ u Hn)|].
  rewrite Hc at 2. ring.
Qed.

Lemma group_product_square x1 u1 x2 u2 :
  in_group (x1, u1) → in_group (x2, u2) → is_square (x1 * x2)%f5.
Proof.
  intros H1 H2. destruct (decide (u1 = 0%f5)) as [->|Hu1].
  { rewrite (proj2 (group_zero _ _ H1) eq_refl). exists 0%f5. ring. }
  destruct (decide (u2 = 0%f5)) as [->|Hu2].
  { rewrite (proj2 (group_zero _ _ H2) eq_refl). exists 0%f5. ring. }
  eauto using nonsquare_mul, group_nonsquare.
Qed.

Lemma f5_sub_zero x y : (x - y = 0)%f5 → x = y.
Proof. intros H. transitivity (x - y + y)%f5; [ring|]. rewrite H. ring. Qed.

Lemma f5_add_zero x y : (x + y = 0)%f5 → y = (- x)%f5.
Proof. intros H. transitivity (x + y - x)%f5; [ring|]. rewrite H. ring. Qed.

Lemma group_b_minus x1 u1 x2 u2 :
  in_group (x1, u1) → in_group (x2, u2) → (B - x1 * x2 ≠ 0)%f5.
Proof.
  intros H1 H2 H%f5_sub_zero. apply b_nonsquare. rewrite H. by eapply group_product_square.
Qed.

Lemma f5_two_nonzero : 2%f5 ≠ 0%f5.
Proof. intros H%(f_equal (λ x, Zmod.to_Z (q0 x))). by vm_compute in H. Qed.

Lemma f5_double_zero x : (2 * x = 0)%f5 → x = 0%f5.
Proof. intros [H|]%f5_integral; [|done]. by destruct f5_two_nonzero. Qed.

(** x^2 + 2 x z + b z^2 vanishes only at zero. *)
Lemma den_form x z : (x ^ 2 + 2 * x * z + B * z ^ 2 = 0)%f5 → x = 0%f5 ∧ z = 0%f5.
Proof.
  intros H. destruct (anisotropic (1 - B)%f5 (x + z)%f5 z one_minus_b_nonsquare) as [Hs ->].
  - apply f5_sub_zero. rewrite <- H. ring.
  - split; [|done]. rewrite <- Hs. ring.
Qed.

(** Opposite ordinates belong to opposite points. *)
Lemma group_opp_eq x1 x2 u :
  in_group (x1, u) → in_group (x2, (- u)%f5) → u ≠ 0%f5 → x1 = x2.
Proof.
  intros H1 H2 Hu. pose proof (group_b_minus _ _ _ _ H1 H2) as Hb.
  destruct H1 as [C1 _], H2 as [C2 _]. cbn [fst snd] in *.
  assert ((u * u) * ((x2 - x1) * (B - x1 * x2)) = 0)%f5 as H.
  { transitivity (x2 * (u * u * den x1) - x1 * (- u * - u * den x2))%f5; [unfold den; ring|].
    rewrite <- C1, <- C2. ring. }
  apply f5_integral in H as [[|]%f5_integral|[H|]%f5_integral]; [done..| |done].
  symmetry. by apply f5_sub_zero.
Qed.

Lemma padd_common_zero x1 u1 x2 u2 (R := padd (lift (x1, u1)) (lift (x2, u2))) :
  fX R = 0%f5 → fZ R = 0%f5 → x2 = (- x1)%f5 ∧ (x1 * x1 = B)%f5.
Proof.
  subst R. cbn [padd lift fX fZ fU fT fst snd]. intros HX HZ.
  set (s := (x1 + x2)%f5). set (t := (x1 * x2 + B)%f5). set (w := (u1 * u2)%f5).
  apply f5_integral in HX as [HX|HX]; [by destruct (nonsquare_nonzero _ b_nonsquare)|].
  assert (s + 2 * w * (s + t) = 0)%f5 as Hs by (rewrite <- HX; subst s t w; ring).
  assert (t - 2 * w * (B * s + t) = 0)%f5 as Ht by (rewrite <- HZ; subst s t w; ring).
  destruct (den_form t s) as [Ht0 Hs0].
  { transitivity ((s + t) * (t - 2 * w * (B * s + t)) + (B * s + t) * (s + 2 * w * (s + t)))%f5; [ring|].
    rewrite Hs, Ht. ring. }
  subst s t. apply f5_add_zero in Hs0. split; [done|]. rewrite Hs0 in Ht0.
  symmetry. apply f5_sub_zero. rewrite <- Ht0. ring.
Qed.

(** The sum of a point and its opposite. *)
Lemma padd_opp_total x u (R := padd (lift (x, u)) (lift (x, - u)%f5)) :
  in_group (x, u) → u ≠ 0%f5 → fZ R ≠ 0%f5 ∧ fT R ≠ 0%f5.
Proof.
  intros HP Hu. pose proof (group_zero _ _ HP) as Hz. pose proof (on_curve _ HP) as Hc. cbn [fst snd] in Hc.
  split; intros H.
  - destruct (anisotropic (1 - B)%f5 (x * x + B + 2 * x)%f5 (2 * x)%f5 one_minus_b_nonsquare) as [_ H0].
    + apply f5_sub_zero. transitivity (den x * fZ R)%f5; [|rewrite H; ring].
      subst R. cbn [padd lift fX fZ fU fT fst snd].
      transitivity ((x * x + B) * den x + x * (4 * B * x + 2 * (x * x + B)))%f5; [unfold den; ring|].
      rewrite Hc at 4. ring.
    + apply Hu, Hz. by apply f5_double_zero.
  - assert ((x * x - B) * (x * x - B) = 0)%f5 as Hs.
    { transitivity (den x * fT R)%f5; [|rewrite H; ring].
      subst R. cbn [padd lift fX fZ fU fT fst snd].
      transitivity ((x * x + B) * den x - x * (4 * B * x + 2 * (x * x + B)))%f5; [unfold den; ring|].
      rewrite Hc at 4. ring. }
    apply b_nonsquare. exists x. apply f5_sub_zero. by apply f5_integral in Hs as [|].
Qed.

Lemma padd_total P Q (R := padd (lift P) (lift Q)) :
  in_group P → in_group Q → fZ R ≠ 0%f5 ∧ fT R ≠ 0%f5.
Proof.
  intros HP HQ. pose proof (padd_curve P Q HP HQ) as Hc. fold R in Hc.
  destruct P as [x1 u1], Q as [x2 u2].
  pose proof (nonsquare_nonzero _ b_nonsquare) as Hb.
  destruct (decide (u1 = 0%f5)) as [->|Hu1].
  { subst R. rewrite (proj2 (group_zero _ _ HP) eq_refl). cbn [padd lift fX fZ fU fT fst snd].
    split; intros H; apply Hb; rewrite <- H; ring. }
  destruct (decide (u2 = 0%f5)) as [->|Hu2].
  { subst R. rewrite (proj2 (group_zero _ _ HQ) eq_refl). cbn [padd lift fX fZ fU fT fst snd].
    split; intros H; apply Hb; rewrite <- H; ring. }
  destruct (decide (u1 + u2 = 0)%f5) as [->%f5_add_zero|Hu].
  { subst R. rewrite <- (group_opp_eq x1 x2 u1) by done. by apply padd_opp_total. }
  assert (fU R ≠ 0%f5) as HU.
  { subst R. cbn [padd lift fX fZ fU fT fst snd]. intros [H|H]%f5_integral.
    - apply Hu. rewrite <- H. ring.
    - apply (group_b_minus _ _ _ _ HP HQ). rewrite <- H. ring. }
  assert (¬ (fX R = 0%f5 ∧ fZ R = 0%f5)) as Hn.
  { intros [HX HZ]. destruct (padd_common_zero _ _ _ _ HX HZ) as [_ H]. apply b_nonsquare. by exists x1. }
  clearbody R. assert (fU R ^ 2 ≠ 0)%f5 as HU2.
  { intros H. assert (fU R * fU R = 0)%f5 as [|]%f5_integral; [|contradiction..].
    rewrite <- H. ring. }
  split; intros H; rewrite H in Hc; apply Hn.
  - split; [|done]. assert (fU R ^ 2 * (fX R * fX R) = 0)%f5 as [|[|]%f5_integral]%f5_integral; [|done..].
    transitivity (fU R ^ 2 * (fX R ^ 2 + 2 * fX R * 0 + B * 0 ^ 2))%f5; [ring|]. rewrite <- Hc. ring.
  - apply den_form. assert (fU R ^ 2 * (fX R ^ 2 + 2 * fX R * fZ R + B * fZ R ^ 2) = 0)%f5
      as [|]%f5_integral; [|contradiction|assumption]. rewrite <- Hc. ring.
Qed.

(** ** The group laws *)

(** The sum is the neutral element only when the ordinates are opposite; otherwise
    the product of its coordinates is in the class of b. *)
Lemma sum_class P Q :
  in_group P → in_group Q →
  ¬ is_square (B * (P.2 + Q.2) ^ 2 * (den P.1 * den Q.1))%f5 ∨ (P.2 + Q.2 = 0)%f5.
Proof.
  intros HP HQ. destruct (decide (P.2 + Q.2 = 0)%f5) as [|Hv]; [by right|left].
  destruct (nonsquare_mul _ _ (den_nonsquare _ HP) (den_nonsquare _ HQ)) as [y Hy].
  eapply nonsquare_eq; [apply (nonsquare_square_mul _ ((P.2 + Q.2) * y)%f5 b_nonsquare)|].
  - apply f5_mul_nonzero; [exact Hv|]. intros ->.
    destruct (f5_mul_nonzero (den P.1) (den Q.1)); [apply nonsquare_nonzero; by apply den_nonsquare..|].
    rewrite <- Hy. ring.
  - rewrite <- Hy. ring.
Qed.

Lemma padd_U P Q :
  fU (padd (lift P) (lift Q)) = ((P.2 + Q.2) * (B - P.1 * Q.1))%f5.
Proof. cbn [padd lift fX fZ fU fT]. ring. Qed.

Lemma aadd_in_group P Q : in_group P → in_group Q → in_group (aadd P Q).
Proof.
  intros HP HQ. pose proof (padd_curve P Q HP HQ) as Hc. pose proof (padd_class P Q HP HQ) as Hk.
  destruct (padd_total P Q HP HQ) as [HZ HT]. pose proof (padd_U P Q) as HU.
  pose proof (sum_class P Q HP HQ) as Hv. unfold aadd.
  generalize dependent (padd (lift P) (lift Q)). intros R Hc Hk HZ HT HU.
  split; cbn [frac fst snd].
  - transitivity (fX R * fZ R * fT R ^ 2 / (fZ R ^ 2 * fT R ^ 2))%f5; [field; by split|].
    rewrite Hc. unfold den. field. by split.
  - destruct Hv as [Hv|Hv].
    + intros [y Hy]. apply Hv. exists (fU R * (B - P.1 * Q.1) * y / fT R)%f5.
      transitivity (fX R * (B - P.1 * Q.1) ^ 2 / fZ R)%f5; [|rewrite Hk; by field].
      transitivity ((fU R ^ 2 * (fX R ^ 2 + 2 * fX R * fZ R + B * fZ R ^ 2)) * (B - P.1 * Q.1) ^ 2
        / (fZ R ^ 2 * fT R ^ 2))%f5; [|rewrite <- Hc; field; by split].
      transitivity (fU R ^ 2 * (B - P.1 * Q.1) ^ 2 * (y * y) / fT R ^ 2)%f5; [by field|].
      rewrite Hy. unfold den. field. by split.
    + assert (fX R = 0%f5) as ->.
      { rewrite Hv in HU. rewrite HU in Hc.
        assert (fX R * (fZ R * (fT R * fT R)) = 0)%f5
          as [|[|[|]%f5_integral]%f5_integral]%f5_integral; [|assumption|contradiction..].
        transitivity (fX R * fZ R * fT R ^ 2)%f5; [ring|]. rewrite Hc. ring. }
      eapply nonsquare_eq; [apply b_nonsquare|]. unfold den. by field.
Qed.

Lemma aadd_comm P Q : aadd P Q = aadd Q P.
Proof. unfold aadd. f_equal. apply frac_point_eq; cbn [padd lift fX fZ fU fT]; ring. Qed.

Lemma aneutral_in_group : in_group aneutral.
Proof.
  split; cbn [aneutral fst snd]; [unfold den; ring|].
  eapply nonsquare_eq; [apply b_nonsquare|]. unfold den. ring.
Qed.

Lemma aadd_neutral_r P : in_group P → aadd P aneutral = P.
Proof.
  intros HP. pose proof (nonsquare_nonzero _ b_nonsquare). destruct P as [x u].
  unfold aadd, frac. cbn [padd lift fX fZ fU fT fst snd aneutral]. apply affine_eq.
  - transitivity ((B * x) / B)%f5; [|by field]. apply f5_div_eq; ring.
  - transitivity ((B * u) / B)%f5; [|by field]. apply f5_div_eq; ring.
Qed.

Lemma aopp_in_group P : in_group P → in_group (aopp P).
Proof. intros [Hc Hn]. split; cbn [aopp fst snd]; [|done]. rewrite Hc at 1. ring. Qed.

Lemma aadd_opp_r P : in_group P → aadd P (aopp P) = aneutral.
Proof.
  intros HP. pose proof (aopp_in_group _ HP) as HQ.
  destruct (padd_total _ _ HP HQ) as [HZ HT]. pose proof (padd_U P (aopp P)) as HU.
  pose proof (aadd_in_group _ _ HP HQ) as HR. revert HR. unfold aadd, frac. rewrite HU.
  cbn [aopp fst snd]. replace ((P.2 + - P.2) * (B - P.1 * P.1) / _)%f5 with 0%f5 by (field; exact HT).
  intros HR. apply affine_eq; [|reflexivity]. by apply (group_zero _ _ HR).
Qed.

(** Fractions with the denominators the formulas keep away from zero. *)
Record proper (P : frac_point) : Prop := { proper_Z : fZ P ≠ 0%f5; proper_T : fT P ≠ 0%f5 }.

Definition scale (c : F5) (P : frac_point) : frac_point :=
  Frac (c * fX P)%f5 (c * fZ P)%f5 (c * fU P)%f5 (c * fT P)%f5.

Lemma frac_lift P : frac (lift P) = P.
Proof. destruct P as [x u]. unfold frac. cbn [lift fX fZ fU fT fst snd]. apply affine_eq; field; apply f5_one_nonzero. Qed.

Lemma frac_scale c P : c ≠ 0%f5 → proper P → frac (scale c P) = frac P.
Proof.
  intros Hc [HZ HT]. unfold frac. cbn [scale fX fZ fU fT]. apply affine_eq; field; by split.
Qed.

Lemma padd_scale P Q :
  proper P → proper Q →
  padd P Q = scale (fZ P * fT P * fZ Q * fT Q)%f5 (padd (lift (frac P)) (lift (frac Q))).
Proof.
  intros [HZ1 HT1] [HZ2 HT2]. destruct P as [X1 Z1 U1 T1], Q as [X2 Z2 U2 T2].
  cbn [fX fZ fU fT] in *.
  apply frac_point_eq; cbn [padd scale lift frac fX fZ fU fT fst snd];
    generalize dependent curve_b; intros; field; by repeat split.
Qed.

Lemma frac_padd P Q :
  proper P → proper Q → in_group (frac P) → in_group (frac Q) →
  proper (padd P Q) ∧ frac (padd P Q) = aadd (frac P) (frac Q).
Proof.
  intros HP HQ GP GQ. destruct (padd_total _ _ GP GQ) as [HZ HT].
  rewrite (padd_scale P Q HP HQ). destruct HP as [HZ1 HT1], HQ as [HZ2 HT2].
  assert (fZ P * fT P * fZ Q * fT Q ≠ 0)%f5 as Hc by (repeat apply f5_mul_nonzero; assumption).
  split.
  - split; cbn [scale fZ fT]; apply f5_mul_nonzero; assumption.
  - apply frac_scale; [exact Hc|]. split; assumption.
Qed.

Lemma proper_lift P : proper (lift P).
Proof. split; apply f5_one_nonzero. Qed.

Lemma padd_assoc_x P Q R (L := padd (padd (lift P) (lift Q)) (lift R))
    (M := padd (lift P) (padd (lift Q) (lift R))) :
  in_group P → in_group Q → in_group R → (fX L * fZ M = fX M * fZ L)%f5.
Proof.
  subst L M. destruct P as [x1 u1], Q as [x2 u2], R as [x3 u3]. intros HP HQ HR.
  curve_ring.
Qed.

Lemma padd_assoc_u P Q R (L := padd (padd (lift P) (lift Q)) (lift R))
    (M := padd (lift P) (padd (lift Q) (lift R))) :
  in_group P → in_group Q → in_group R → (fU L * fT M = fU M * fT L)%f5.
Proof.
  subst L M. destruct P as [x1 u1], Q as [x2 u2], R as [x3 u3]. intros HP HQ HR.
  curve_ring.
Qed.

Lemma aadd_assoc P Q R :
  in_group P → in_group Q → in_group R → aadd (aadd P Q) R = aadd P (aadd Q R).
Proof.
  intros HP HQ HR.
  destruct (padd_total P Q HP HQ) as [HZ1 HT1]. destruct (padd_total Q R HQ HR) as [HZ2 HT2].
  destruct (frac_padd (padd (lift P) (lift Q)) (lift R)) as [[HZ3 HT3] E1];
    [by split|apply proper_lift|by apply aadd_in_group|by rewrite frac_lift|].
  destruct (frac_padd (lift P) (padd (lift Q) (lift R))) as [[HZ4 HT4] E2];
    [apply proper_lift|by split|by rewrite frac_lift|by apply aadd_in_group|].
  rewrite !frac_lift in E1, E2. unfold aadd at 2 4. rewrite <- E1, <- E2.
  unfold frac at 1 2. apply affine_eq; apply f5_frac_eq; try assumption.
  - by apply padd_assoc_x.
  - by apply padd_assoc_u.
Qed.

(** ** Doubling *)

Lemma pdouble_identities x u (D := pdouble (lift (x, u))) (S := padd (lift (x, u)) (lift (x, u))) :
  in_group (x, u) →
  (fX D * fZ S = fX S * fZ D ∧ fU D * fT S = fU S * fT D ∧ x * fZ D = u * u * fZ S)%f5.
Proof.
  subst D S. intros HP. split_and!; curve_ring.
Qed.

Lemma pdouble_lift P (D := pdouble (lift P)) :
  in_group P → proper D ∧ frac D = aadd P P.
Proof.
  intros HP. destruct (padd_total P P HP HP) as [HZ HT]. destruct P as [x u].
  destruct (pdouble_identities x u HP) as (E1 & E2 & E3). fold D in E1, E2, E3.
  assert (proper D) as [HZ' HT'].
  { destruct (decide (u = 0%f5)) as [->|Hu].
    { subst D. rewrite (proj2 (group_zero _ _ HP) eq_refl).
      split; cbn [pdouble lift fX fZ fU fT fst snd]; intros H; apply f5_one_nonzero; rewrite <- H; ring. }
    assert (fZ D ≠ 0%f5) as HZD.
    { intros H. rewrite H in E3. apply (f5_mul_nonzero (u * u) _ (f5_mul_nonzero _ _ Hu Hu) HZ)%f5.
      rewrite <- E3. ring. }
    split; [exact HZD|]. intros H. rewrite H in E2.
    assert (fU D ≠ 0%f5) as HU.
    { subst D. cbn [pdouble lift fX fZ fU fT fst snd] in *.
      apply f5_mul_nonzero; [apply f5_two_nonzero|]. apply f5_mul_nonzero.
      - intros H0. apply HZD. rewrite H0. ring.
      - intros H0. apply Hu. rewrite <- H0. ring. }
    apply (f5_mul_nonzero _ _ HU HT). rewrite E2. ring. }
  split; [by split|]. unfold aadd, frac. apply affine_eq; apply f5_frac_eq; assumption.
Qed.

Lemma frac_pdouble P :
  proper P → in_group (frac P) → proper (pdouble P) ∧ frac (pdouble P) = aadd (frac P) (frac P).
Proof.
  intros [HZ HT] HP. destruct (pdouble_lift _ HP) as [HD <-].
  set (c := (fZ P * fT P * fT P)%f5). set (D := pdouble (lift (frac P))).
  assert (c ≠ 0%f5) as Hc by (repeat apply f5_mul_nonzero; assumption).
  assert (pdouble P = scale (c * c)%f5 D) as ->.
  { subst c D. destruct P as [X Z U T]. cbn [fX fZ fU fT] in *.
    apply frac_point_eq; cbn [pdouble scale lift frac fX fZ fU fT fst snd];
      generalize dependent curve_b; intros; field; by repeat split. }
  fold D in HD. clearbody D c. split; [|apply frac_scale; [by apply f5_mul_nonzero|exact HD]].
  destruct HD. split; cbn [scale fZ fT]; repeat apply f5_mul_nonzero; assumption.
Qed.

(** ** The group as a type *)

Definition in_groupb (P : affine) : bool :=
  bool_decide (P.1 = (P.2 * P.2 * den P.1)%f5) && bool_decide (half_power (norm (den P.1)) = (- (1))%fp).

Lemma in_groupb_spec P : in_groupb P = true ↔ in_group P.
Proof.
  unfold in_groupb. rewrite andb_true_iff, !bool_decide_eq_true. split; intros [H1 H2]; split; try exact H1.
  - rewrite is_square_norm. apply half_power_nonsquare; [|exact H2]. intros H0. rewrite H0, half_power_zero in H2.
    apply (f_equal Zmod.to_Z) in H2. by vm_compute in H2.
  - pose proof (norm_nonzero _ (nonsquare_nonzero _ H2)) as Hn. rewrite is_square_norm in H2.
    by apply half_power_nonsquare in H2.
Qed.

Record group := Elem { aff : affine; aff_ok : in_groupb aff = true }.

Lemma group_eq (P Q : group) : aff P = aff Q → P = Q.
Proof. destruct P as [P HP], Q as [Q HQ]; cbn. intros ->. f_equal. apply (proof_irrel HP HQ). Qed.

Lemma aff_in P : in_group (aff P).
Proof. apply in_groupb_spec, aff_ok. Qed.
#[export] Hint Resolve aff_in : core.

Definition elem (P : affine) (H : in_group P) : group := Elem P (proj2 (in_groupb_spec P) H).

Definition gzero : group := elem aneutral aneutral_in_group.
Definition gadd (P Q : group) : group := elem (aadd (aff P) (aff Q)) (aadd_in_group _ _ (aff_in P) (aff_in Q)).
Definition gopp (P : group) : group := elem (aopp (aff P)) (aopp_in_group _ (aff_in P)).

Lemma gadd_comm P Q : gadd P Q = gadd Q P.
Proof. apply group_eq, aadd_comm. Qed.
Lemma gadd_assoc P Q R : gadd (gadd P Q) R = gadd P (gadd Q R).
Proof. by apply group_eq, aadd_assoc. Qed.
Lemma gadd_0_r P : gadd P gzero = P.
Proof. by apply group_eq, aadd_neutral_r. Qed.
Lemma gadd_opp_r P : gadd P (gopp P) = gzero.
Proof. by apply group_eq, aadd_opp_r. Qed.
Lemma gadd_0_l P : gadd gzero P = P.
Proof. by rewrite gadd_comm, gadd_0_r. Qed.
Lemma gadd_cancel_r P Q R : gadd P R = gadd Q R → P = Q.
Proof.
  intros H. apply (f_equal (λ X, gadd X (gopp R))) in H. cbv beta in H.
  by rewrite !gadd_assoc, gadd_opp_r, !gadd_0_r in H.
Qed.
Lemma gadd_zero_opp P Q : gadd P Q = gzero → Q = gopp P.
Proof. intros H. apply (gadd_cancel_r _ _ P). by rewrite (gadd_comm (gopp P)), gadd_opp_r, gadd_comm. Qed.

(** Multiples. *)
Definition gmul (n : Z) (P : group) : group :=
  if n <? 0 then gopp (Nat.iter (Z.to_nat (- n)) (gadd P) gzero)
  else Nat.iter (Z.to_nat n) (gadd P) gzero.
Infix "•" := gmul (at level 38, right associativity).

Lemma gmul_0 P : 0 • P = gzero.
Proof. reflexivity. Qed.

Lemma gmul_succ n P : (n + 1) • P = gadd P (n • P).
Proof.
  unfold gmul. destruct (Z.ltb_spec n 0) as [Hn|Hn].
  - replace (Z.to_nat (- n)) with (S (Z.to_nat (- (n + 1)))) by lia. cbn [Nat.iter nat_rect].
    set (X := Nat.iter (Z.to_nat (- (n + 1))) (gadd P) gzero).
    assert (gopp X = gadd P (gopp (gadd P X))) as E.
    { symmetry. apply gadd_zero_opp. rewrite <- gadd_assoc, (gadd_comm X). apply gadd_opp_r. }
    destruct (Z.ltb_spec (n + 1) 0) as [Hn'|Hn']; [exact E|].
    change (nat_rect _ _ _ _) with X. rewrite <- E. subst X.
    replace (Z.to_nat (- (n + 1))) with 0%nat by lia. replace (Z.to_nat (n + 1)) with 0%nat by lia.
    apply gadd_zero_opp, gadd_0_r.
  - destruct (Z.ltb_spec (n + 1) 0); [lia|]. by replace (Z.to_nat (n + 1)) with (S (Z.to_nat n)) by lia.
Qed.
#[global] Opaque gmul.

Lemma gmul_pred n P : gadd P ((n - 1) • P) = n • P.
Proof. rewrite <- gmul_succ. f_equal. lia. Qed.

(** An equality between two functions of a multiple. *)
Lemma gmul_ind P (f g : Z → group) :
  f 0 = g 0 → (∀ n, f (n + 1) = gadd P (f n)) → (∀ n, g (n + 1) = gadd P (g n)) → ∀ n, f n = g n.
Proof.
  intros H0 Hf Hg n. induction n as [|n IH|n IH] using Z.peano_ind; [done|..].
  - replace (Z.succ n) with (n + 1) by lia. by rewrite Hf, Hg, IH.
  - apply (gadd_cancel_r _ _ P). rewrite !(gadd_comm _ P), <- Hf, <- Hg. by replace (Z.pred n + 1) with n by lia.
Qed.

Lemma gmul_1 P : 1 • P = P.
Proof. rewrite (gmul_succ 0), gmul_0. apply gadd_0_r. Qed.

Lemma gmul_add m n P : (m + n) • P = gadd (m • P) (n • P).
Proof.
  revert m. apply (gmul_ind P (λ m, (m + n) • P) (λ m, gadd (m • P) (n • P))).
  - by rewrite gmul_0, gadd_0_l.
  - intros m. rewrite <- gmul_succ. f_equal. lia.
  - intros m. by rewrite gmul_succ, gadd_assoc.
Qed.

Lemma gmul_opp n P : (- n) • P = gopp (n • P).
Proof. apply gadd_zero_opp. rewrite <- gmul_add, Z.add_opp_diag_r. apply gmul_0. Qed.

Lemma gmul_mul m n P : (m * n) • P = m • (n • P).
Proof.
  revert m. apply (gmul_ind (n • P) (λ m, (m * n) • P) (λ m, m • (n • P))).
  - done.
  - intros m. rewrite <- gmul_add. f_equal. lia.
  - intros m. apply gmul_succ.
Qed.

Lemma gmul_double P : gadd P P = 2 • P.
Proof. by rewrite (gmul_succ 1), gmul_1. Qed.

Lemma gmul_dist n P Q : n • (gadd P Q) = gadd (n • P) (n • Q).
Proof.
  revert n. apply (gmul_ind (gadd P Q) (λ n, n • gadd P Q) (λ n, gadd (n • P) (n • Q))).
  - by rewrite !gmul_0, gadd_0_r.
  - intros n. apply gmul_succ.
  - intros n. rewrite !gmul_succ, !gadd_assoc. f_equal. rewrite <- !gadd_assoc. f_equal. apply gadd_comm.
Qed.

(** Multiples of an element of finite order. *)
Lemma gmul_zero_r n : n • gzero = gzero.
Proof.
  apply (gmul_ind gzero (λ n, n • gzero) (λ _, gzero)).
  - done.
  - intros m. apply gmul_succ.
  - intros _. by rewrite gadd_0_r.
Qed.

Lemma gmul_mod N n P : N • P = gzero → N ≠ 0 → (n mod N) • P = n • P.
Proof.
  intros H HN. rewrite (Z.div_mod n N) at 2 by done.
  by rewrite gmul_add, Z.mul_comm, gmul_mul, H, gmul_zero_r, gadd_0_l.
Qed.

(** ** Encodings *)

(** The encoding of a point is 1/u, and zero for the neutral element. *)
Definition gencode (P : group) : F5 := f5_inv (aff P).2.

Lemma group_snd_eq P Q : (aff P).2 = (aff Q).2 → P = Q.
Proof.
  intros H. apply group_eq. pose proof (aff_in P) as HP. pose proof (aff_in Q) as HQ.
  destruct (aff P) as [x1 u1], (aff Q) as [x2 u2]. cbn [fst snd] in H. subst u2.
  apply affine_eq; [|reflexivity]. destruct (decide (u1 = 0%f5)) as [->|Hu].
  - by rewrite (proj2 (group_zero _ _ HP) eq_refl), (proj2 (group_zero _ _ HQ) eq_refl).
  - by apply (group_opp_eq x1 x2 u1 HP (aopp_in_group _ HQ)).
Qed.

Lemma f5_inv_nonzero x : x ≠ 0%f5 → f5_inv x ≠ 0%f5.
Proof.
  intros Hx H. apply f5_one_nonzero. rewrite <- (f5_inv_r x Hx), H. ring.
Qed.

Lemma f5_inv_involutive x : f5_inv (f5_inv x) = x.
Proof.
  destruct (decide (x = 0%f5)) as [->|Hx]; [by rewrite !f5_inv_0|].
  pose proof (f5_inv_nonzero x Hx). by field.
Qed.

Lemma gencode_inj P Q : gencode P = gencode Q → P = Q.
Proof.
  intros H. apply group_snd_eq. rewrite <- (f5_inv_involutive (aff P).2), <- (f5_inv_involutive (aff Q).2).
  exact (f_equal f5_inv H).
Qed.
