(* ===== verification/EcGFp5.v ===== *)
(** * Points of the curve

    The point half of
    [crates/hexagent-exchange/src/exchange/lighter/crypto/ecgfp5.rs]: the curve
    y^2 = x * (x^2 + 2 x + 263 i) over the quintic extension, with points in
    fractional coordinates (x, u) = (X/Z, U/T), u = x/y, and the Weierstrass form
    signature verification uses.

    The point formulas are shown to compute the group of [EcGroup], total on its
    elements; the masked table lookup is the indexed one; and the windowed multiplication computes the multiple of the
    point. *)

From Stdlib Require Import Zmod.Zmod Field.
From S2P Require Import Prelude Words Goldilocks Quintic Gfp5 EcScalar EcGroup.

Definition A : quint Z := GFp5.TWO.
Definition B1 : Z := 263.
Definition b : quint Z := Quint 0 (GoldilocksField.new B1) 0 0 0.
Definition b_mul2 : quint Z := Quint 0 (GoldilocksField.new (2 * B1)) 0 0 0.
Definition b_mul4 : quint Z := Quint 0 (GoldilocksField.new (4 * B1)) 0 0 0.
Definition a_weierstrass : quint Z := GFp5.from_u64_array (Quint 6148914689804861439 263 0 0 0).

(** [GFp5::from_u64_array([n, 0, 0, 0, 0])]. *)
Definition small (n : Z) : quint Z := GFp5.from_u64_array (Quint n 0 0 0 0).

Definition unwrap_or_ZERO (o : option (quint Z)) : quint Z :=
  match o with Some r => r | None => GFp5.ZERO end.

(** The bits of the limbs, least significant first. *)
Definition scalar_to_bits (scalar : list Z) : list bool :=
  concat (map (λ limb, map (λ i, Z.land (Z.shiftr limb (Z.of_nat i)) 1 =? 1) (seq 0 64)) scalar).

Record WPoint := mkW { wx : quint Z; wy : quint Z; wz : quint Z }.

Module WeierstrassPoint.

Definition infinity : WPoint := mkW GFp5.ZERO GFp5.ONE GFp5.ZERO.

Definition generator : WPoint := mkW
  (GFp5.from_u64_array (Quint 11712523173042564207 14090224426659529053 13197813503519687414
     16280770174934269299 15998333998318935536))
  (GFp5.from_u64_array (Quint 14639054205878357578 17426078571020221072 2548978194165003307
     8663895577921260088 9793640284382595140))
  GFp5.ONE.

Definition is_infinity (self : WPoint) : bool := GFp5.is_zero (wz self).

Definition decode_fp5 (w : quint Z) : option WPoint :=
  let e := (GFp5.square w - A)%gfp5 in
  let delta := (GFp5.square e - b_mul4)%gfp5 in
  let r := GFp5.canonical_sqrt delta in
  let c := match r with Some _ => true | None => false end in
  if negb c && negb (GFp5.is_zero w) then None
  else
    let r := unwrap_or_ZERO r in
    let x1 := GFp5.div (e + r)%gfp5 GFp5.TWO in
    let x2 := GFp5.div (e - r)%gfp5 GFp5.TWO in
    let x1_legendre := GFp5.legendre x1 in
    let x := if GoldilocksField.to_u64 x1_legendre =? 1 then x1 else x2 in
    let y := (- (w * x))%gfp5 in
    let a_over_3 := GFp5.div GFp5.TWO (small 3) in
    let x_w := (x + a_over_3)%gfp5 in
    if c then Some (mkW x_w y GFp5.ONE) else Some infinity.

Definition encode (self : WPoint) : quint Z :=
  if is_infinity self then GFp5.ZERO
  else
    let a_over_3 := GFp5.div GFp5.TWO (small 3) in
    let x_orig := (wx self * GFp5.inverse_or_zero (wz self) - a_over_3)%gfp5 in
    let y := (wy self * GFp5.inverse_or_zero (wz self))%gfp5 in
    (- y * GFp5.inverse_or_zero x_orig)%gfp5.

Definition double (self : WPoint) : WPoint :=
  if is_infinity self || GFp5.is_zero (wy self) then infinity
  else
    let x_affine := (wx self * GFp5.inverse_or_zero (wz self))%gfp5 in
    let y_affine := (wy self * GFp5.inverse_or_zero (wz self))%gfp5 in
    let three_x2 := (GFp5.square x_affine * small 3)%gfp5 in
    let lambda := ((three_x2 + a_weierstrass) * GFp5.inverse_or_zero (GFp5.double y_affine))%gfp5 in
    let x_new := (GFp5.square lambda - GFp5.double x_affine)%gfp5 in
    let y_new := (lambda * (x_affine - x_new) - y_affine)%gfp5 in
    mkW x_new y_new GFp5.ONE.

Definition add (self other : WPoint) : WPoint :=
  if is_infinity self then other
  else if is_infinity other then self
  else
    let x1 := (wx self * GFp5.inverse_or_zero (wz self))%gfp5 in
    let y1 := (wy self * GFp5.inverse_or_zero (wz self))%gfp5 in
    let x2 := (wx other * GFp5.inverse_or_zero (wz other))%gfp5 in
    let y2 := (wy other * GFp5.inverse_or_zero (wz other))%gfp5 in
    if bool_decide (x1 = x2) then
      if bool_decide (y1 = y2) then double self else infinity
    else
      let lambda := ((y2 - y1) * GFp5.inverse_or_zero (x2 - x1))%gfp5 in
      let x3 := (GFp5.square lambda - x1 - x2)%gfp5 in
      let y3 := (lambda * (x1 - x3) - y1)%gfp5 in
      mkW x3 y3 GFp5.ONE.

Definition mul (self : WPoint) (scalar : list Z) : WPoint :=
  if ECgFp5Scalar.is_zero scalar then infinity
  else
    fold_left (λ result (bit : bool),
        let result := double result in
        if bit then add result self else result)
      (rev (scalar_to_bits scalar)) infinity.

Definition mul_add2 (g pk : WPoint) (s e : list Z) : WPoint :=
  let s_g := mul g s in
  let e_pk := mul pk e in
  add s_g e_pk.

End WeierstrassPoint.

Record EPoint := mkE { ex : quint Z; ez : quint Z; eu : quint Z; et : quint Z }.

Module ECgFp5Point.

Definition neutral : EPoint := mkE GFp5.ZERO GFp5.ONE GFp5.ZERO GFp5.ONE.

Definition generator : EPoint := mkE
  (GFp5.from_u64_array (Quint 12883135586176881569 4356519642755055268 5248930565894896907
     2165973894480315022 2448410071095648785))
  GFp5.ONE GFp5.ONE (small 4).

Definition is_neutral (self : EPoint) : bool := GFp5.is_zero (eu self).

Definition encode (self : EPoint) : quint Z := (et self * GFp5.inverse_or_zero (eu self))%gfp5.

Definition decode (w : quint Z) : option EPoint :=
  let e := (GFp5.square w - A)%gfp5 in
  let delta := (GFp5.square e - b_mul4)%gfp5 in
  let r := GFp5.canonical_sqrt delta in
  let c := match r with Some _ => true | None => false end in
  let r := unwrap_or_ZERO r in
  let x1 := GFp5.div (e + r)%gfp5 GFp5.TWO in
  let x2 := GFp5.div (e - r)%gfp5 GFp5.TWO in
  let x1_legendre := GFp5.legendre x1 in
  let x := if GoldilocksField.to_u64 x1_legendre =? 1 then x1 else x2 in
  let '(x, u, t) := if negb c then (GFp5.ZERO, GFp5.ZERO, GFp5.ONE) else (x, GFp5.ONE, w) in
  if c || GFp5.is_zero w then Some (mkE x GFp5.ONE u t) else None.

Definition add (self rhs : EPoint) : EPoint :=
  let '(mkE x1 z1 u1 t1) := self in
  let '(mkE x2 z2 u2 t2) := rhs in
  let t1_val := (x1 * x2)%gfp5 in
  let t2_val := (z1 * z2)%gfp5 in
  let t3 := (u1 * u2)%gfp5 in
  let t4 := (t1 * t2)%gfp5 in
  let t5 := ((x1 + z1) * (x2 + z2) - t1_val - t2_val)%gfp5 in
  let t6 := ((u1 + t1) * (u2 + t2) - t3 - t4)%gfp5 in
  let t7 := (t1_val + t2_val * b)%gfp5 in
  let t8 := (t4 * t7)%gfp5 in
  let t9 := (t3 * (t5 * b_mul2 + GFp5.double t7))%gfp5 in
  let t10 := ((t4 + GFp5.double t3) * (t5 + t7))%gfp5 in
  let x_new := ((t10 - t8) * b)%gfp5 in
  let z_new := (t8 - t9)%gfp5 in
  let u_new := (t6 * (t2_val * b - t1_val))%gfp5 in
  let t_new := (t8 + t9)%gfp5 in
  mkE x_new z_new u_new t_new.

Definition double (self : EPoint) : EPoint :=
  let '(mkE x z u t) := self in
  let t1 := (z * t)%gfp5 in
  let t2 := (t1 * t)%gfp5 in
  let x1 := GFp5.square t2 in
  let z1 := (t1 * u)%gfp5 in
  let t3 := GFp5.square u in
  let w1 := (t2 - t3 * GFp5.double (x + z))%gfp5 in
  let t4 := GFp5.square z1 in
  let x_new := (t4 * b_mul4)%gfp5 in
  let z_new := GFp5.square w1 in
  let u_new := (GFp5.square (w1 + z1) - t4 - z_new)%gfp5 in
  let t_new := (GFp5.double x1 - (t4 * small 4 + z_new))%gfp5 in
  mkE x_new z_new u_new t_new.

Definition mdouble (self : EPoint) (n : nat) : EPoint :=
  if (n =? 0)%nat then self else Nat.iter n double self.

Definition negate (q : EPoint) : EPoint := mkE (ex q) (ez q) (- eu q)%gfp5 (et q).

Definition select_field (mask a c : Z) : Z := Z.lxor a (Z.land mask (Z.lxor a c)).

Definition select_gfp5 (mask : Z) (a c : quint Z) : quint Z :=
  Quint (select_field mask (q0 a) (q0 c)) (select_field mask (q1 a) (q1 c))
    (select_field mask (q2 a) (q2 c)) (select_field mask (q3 a) (q3 c))
    (select_field mask (q4 a) (q4 c)).

Definition select (mask : Z) (a c : EPoint) : EPoint :=
  mkE (select_gfp5 mask (ex a) (ex c)) (select_gfp5 mask (ez a) (ez c))
    (select_gfp5 mask (eu a) (eu c)) (select_gfp5 mask (et a) (et c)).

(** [digit] is an [i32]; the shift right is arithmetic. *)
Definition lookup (table : list EPoint) (digit : Z) : EPoint :=
  let sign := as_u64 (Z.shiftr digit 31) in
  let abs_digit := Z.lxor digit (Z.shiftr digit 31) - Z.shiftr digit 31 in
  let result := fold_left (λ result '(i, q),
      let sel := if Z.of_nat i + 1 =? abs_digit then u64_max else 0 in
      select sel result q) (imap pair table) neutral in
  if negb (sign =? 0) then negate result else result.

Definition lookup_vartime (table : list EPoint) (digit : Z) : EPoint :=
  if digit =? 0 then neutral
  else
    let abs_digit := Z.abs digit in
    let q :=
      if abs_digit <=? Z.of_nat (length table)
      then nth (Z.to_nat (abs_digit - 1)) table neutral
      else neutral in
    if digit <? 0 then negate q else q.

Definition WINDOW : Z := 5.
Definition WIN_SIZE : nat := 16.

(** The turn of the loop that fills the table of multiples. *)
Definition fill_window (self : EPoint) (win : list EPoint) (i : nat) : list EPoint :=
  if Nat.even i then <[i := add (nth (i - 1) win neutral) self]> win
  else <[i := double (nth (i / 2) win neutral)]> win.

Definition window (self : EPoint) : list EPoint :=
  fold_left (fill_window self) (seq 1 (WIN_SIZE - 1)) (replicate WIN_SIZE self).

Definition mul (self : EPoint) (scalar : list Z) : EPoint :=
  let win := window self in
  let digits := ECgFp5Scalar.recode_signed scalar 64 WINDOW in
  let result := lookup_vartime win (nth 63 digits 0) in
  fold_left (λ result digit, add (mdouble result 5) (lookup win digit))
    (rev (take 63 digits)) result.

End ECgFp5Point.

(** * Theorems *)

(** ** Constants *)

Lemma f5_by_value (x y : F5) : qmap Zmod.to_Z x = qmap Zmod.to_Z y → x = y.
Proof.
  destruct x, y. intros H. apply quint_inj in H as (H0 & H1 & H2 & H3 & H4).
  f_equal; by apply Zmod.to_Z_inj.
Qed.

Lemma rep5_closed arr x :
  forallb (λ n, (0 <=? n) && (n <? 2 ^ 64)) (qlist arr) = true →
  qmap Zmod.to_Z (qmap fp arr) = qmap Zmod.to_Z x → GFp5.from_u64_array arr ⊫ x.
Proof.
  intros Hb Hx. eapply rep5_eq; [apply rep5_from_u64_array|by apply f5_by_value].
  apply Forall_forall. intros n Hn. rewrite forallb_forall in Hb.
  apply list_elem_of_In, Hb in Hn. rewrite andb_true_iff, Z.leb_le, Z.ltb_lt in Hn. unfold is_u64, u64_max. lia.
Qed.

Lemma rep_small5 n : 0 ≤ n < 2 ^ 64 → small n ⊫ f5 n.
Proof.
  intros Hn. eapply rep5_eq; [apply rep5_from_u64_array|].
  - unfold qlist. cbn [q0 q1 q2 q3 q4]. rewrite !Forall_cons. unfold is_u64, u64_max. split_and!; (lia || constructor).
  - unfold qmap, f5, base. cbn [q0 q1 q2 q3 q4]. by rewrite fp_0.
Qed.

Lemma rep_A : A ⊫ 2%f5.
Proof. apply rep5_TWO. Qed.
Lemma rep_b : b ⊫ curve_b.
Proof. apply (rep5_closed (Quint 0 B1 0 0 0)); vm_compute; reflexivity. Qed.
Lemma rep_b_mul2 : b_mul2 ⊫ (2 * curve_b)%f5.
Proof. apply (rep5_closed (Quint 0 (2 * B1) 0 0 0)); vm_compute; reflexivity. Qed.
Lemma rep_b_mul4 : b_mul4 ⊫ (4 * curve_b)%f5.
Proof. apply (rep5_closed (Quint 0 (4 * B1) 0 0 0)); vm_compute; reflexivity. Qed.

Lemma f5_three_nonzero : 3%f5 ≠ 0%f5.
Proof. intros H%(f_equal (λ x, Zmod.to_Z (q0 x))). by vm_compute in H. Qed.

Lemma rep_a_weierstrass : a_weierstrass ⊫ (curve_b - 4 / 3)%f5.
Proof. apply rep5_closed; vm_compute; reflexivity. Qed.

(** A source formula as the field expression it stands for. *)
Ltac rep5_eval :=
  repeat match goal with
  | H : ?a ⊫ _ |- ?a ⊫ _ => exact H
  | |- GFp5.add _ _ ⊫ _ => eapply rep5_add
  | |- GFp5.sub _ _ ⊫ _ => eapply rep5_sub
  | |- GFp5.neg _ ⊫ _ => eapply rep5_neg
  | |- GFp5.mul _ _ ⊫ _ => eapply rep5_mul
  | |- GFp5.square _ ⊫ _ => eapply rep5_square
  | |- GFp5.double _ ⊫ _ => eapply rep5_double
  | |- GFp5.div _ _ ⊫ _ => eapply rep5_div
  | |- GFp5.inverse_or_zero _ ⊫ _ => eapply rep5_inverse
  | |- GFp5.ZERO ⊫ _ => exact rep5_ZERO
  | |- GFp5.ONE ⊫ _ => exact rep5_ONE
  | |- GFp5.TWO ⊫ _ => exact rep5_TWO
  | |- A ⊫ _ => exact rep_A
  | |- b ⊫ _ => exact rep_b
  | |- b_mul2 ⊫ _ => exact rep_b_mul2
  | |- b_mul4 ⊫ _ => exact rep_b_mul4
  | |- a_weierstrass ⊫ _ => exact rep_a_weierstrass
  | |- small ?n ⊫ _ => apply (rep_small5 n); lia
  end.
Ltac rep5_ring := eapply rep5_eq; [rep5_eval | cbn [fX fZ fU fT padd pdouble]; ring].

(** ** Fractional points *)

(** The source point stands for a group element. *)
Record frac_rep (q : EPoint) (R : frac_point) : Prop := {
  frac_x : ex q ⊫ fX R; frac_z : ez q ⊫ fZ R; frac_u : eu q ⊫ fU R; frac_t : et q ⊫ fT R;
}.

Definition point_rep (q : EPoint) (P : group) : Prop :=
  ∃ R, frac_rep q R ∧ proper R ∧ frac R = aff P.

Lemma add_frac q1 q2 R1 R2 :
  frac_rep q1 R1 → frac_rep q2 R2 → frac_rep (ECgFp5Point.add q1 q2) (padd R1 R2).
Proof. destruct q1, q2. intros [] []. split; cbn [ECgFp5Point.add ex ez eu et] in *; rep5_ring. Qed.

Lemma double_frac q R : frac_rep q R → frac_rep (ECgFp5Point.double q) (pdouble R).
Proof. destruct q. intros []. split; cbn [ECgFp5Point.double ex ez eu et] in *; rep5_ring. Qed.

Lemma add_rep q1 q2 P1 P2 :
  point_rep q1 P1 → point_rep q2 P2 → point_rep (ECgFp5Point.add q1 q2) (gadd P1 P2).
Proof.
  intros (R1 & H1 & G1 & E1) (R2 & H2 & G2 & E2). exists (padd R1 R2).
  destruct (frac_padd R1 R2) as [Hp Hf]; [done|done|by rewrite E1|by rewrite E2|].
  split; [by apply add_frac|]. split; [exact Hp|]. rewrite Hf, E1, E2. reflexivity.
Qed.

Lemma double_rep q P : point_rep q P → point_rep (ECgFp5Point.double q) (gadd P P).
Proof.
  intros (R & H & G & E). exists (pdouble R).
  destruct (frac_pdouble R) as [Hp Hf]; [done|by rewrite E|].
  split; [by apply double_frac|]. split; [exact Hp|]. rewrite Hf, E. reflexivity.
Qed.

Lemma negate_rep q P : point_rep q P → point_rep (ECgFp5Point.negate q) (gopp P).
Proof.
  intros (R & [] & [HZ HT] & E). exists (Frac (fX R) (fZ R) (- fU R)%f5 (fT R)).
  split; [split; cbn [ECgFp5Point.negate ex ez eu et fX fZ fU fT]; by rep5_eval|].
  split; [by split|]. change (aff (gopp P)) with (aopp (aff P)). rewrite <- E.
  unfold frac, aopp. cbn [fX fZ fU fT fst snd]. apply affine_eq; [reflexivity|]. by field.
Qed.

Lemma neutral_rep : point_rep ECgFp5Point.neutral gzero.
Proof.
  exists (lift aneutral). split; [split; cbn; rep5_eval|]. split; [apply proper_lift|]. apply frac_lift.
Qed.

Lemma encode_rep q P : point_rep q P → ECgFp5Point.encode q ⊫ gencode P.
Proof.
  intros (R & [] & [HZ HT] & E). unfold ECgFp5Point.encode, gencode. rewrite <- E. cbn [frac snd].
  eapply rep5_eq; [rep5_eval|]. destruct (decide (fU R = 0%f5)) as [->|HU].
  - replace (0 / fT R)%f5 with 0%f5 by by field. rewrite f5_inv_0. ring.
  - field. by split.
Qed.

Lemma is_neutral_rep q P : point_rep q P → ECgFp5Point.is_neutral q = true ↔ P = gzero.
Proof.
  intros (R & [] & [HZ HT] & E). unfold ECgFp5Point.is_neutral. rewrite (rep5_is_zero _ _ frac_u0).
  assert ((aff P).2 = fU R / fT R)%f5 as HP by by rewrite <- E. split; intros H.
  - apply group_snd_eq. rewrite HP, H. change (aff gzero).2 with 0%f5. by field.
  - rewrite H in HP. change (aff gzero).2 with 0%f5 in HP. by apply (f5_frac_zero _ (fT R)).
Qed.

(** The base point. *)
Definition G_aff : affine :=
  (qmap fp (Quint 12883135586176881569 4356519642755055268 5248930565894896907
     2165973894480315022 2448410071095648785), 1 / 4)%f5.

Lemma G_in_group : in_groupb G_aff = true.
Proof. vm_compute. reflexivity. Qed.

Definition G : group := Elem G_aff G_in_group.

Lemma generator_rep : point_rep ECgFp5Point.generator G.
Proof.
  exists (Frac (qmap fp (Quint 12883135586176881569 4356519642755055268 5248930565894896907
     2165973894480315022 2448410071095648785)) 1%f5 1%f5 4%f5).
  split; [|split].
  - split; cbn [ECgFp5Point.generator ex ez eu et fX fZ fU fT]; rep5_eval.
    apply rep5_closed; vm_compute; reflexivity.
  - split; cbn [fZ fT]; [apply f5_one_nonzero|]. intros H%(f_equal (λ x, Zmod.to_Z (q0 x))). by vm_compute in H.
  - cbn [frac fX fZ fU fT aff G]. unfold G_aff. apply affine_eq; [|reflexivity]. apply f5_div_1.
Qed.

(** ** Table lookup *)

Definition point_words (q : EPoint) : Prop :=
  Forall is_u64 (qlist (ex q)) ∧ Forall is_u64 (qlist (ez q)) ∧
  Forall is_u64 (qlist (eu q)) ∧ Forall is_u64 (qlist (et q)).

Lemma select_field_ones a c : is_u64 a → is_u64 c → ECgFp5Point.select_field u64_max a c = c.
Proof.
  intros Ha Hc. unfold ECgFp5Point.select_field, is_u64 in *.
  assert (0 ≤ Z.lxor a c) by (apply Z.lxor_nonneg; lia).
  assert (Z.lxor a c < 2 ^ 64) as Hx.
  { destruct (decide (Z.lxor a c = 0)) as [->|]; [done|]. apply Z.log2_lt_pow2; [lia|].
    pose proof (Z.log2_lxor a c ltac:(lia) ltac:(lia)). unfold u64_max in *.
    pose proof (Z.log2_le_mono a (2 ^ 64 - 1) ltac:(lia)). pose proof (Z.log2_le_mono c (2 ^ 64 - 1) ltac:(lia)).
    change (Z.log2 (2 ^ 64 - 1)) with 63 in *. lia. }
  rewrite Z.land_comm. change u64_max with (Z.ones 64). rewrite Z.land_ones, Z.mod_small by lia.
  by rewrite <- Z.lxor_assoc, Z.lxor_nilpotent, Z.lxor_0_l.
Qed.

Lemma select_field_zero a c : ECgFp5Point.select_field 0 a c = a.
Proof. unfold ECgFp5Point.select_field. by rewrite Z.land_0_l, Z.lxor_0_r. Qed.

Lemma select_gfp5_ones a c :
  Forall is_u64 (qlist a) → Forall is_u64 (qlist c) → ECgFp5Point.select_gfp5 u64_max a c = c.
Proof.
  destruct a as [a0 a1 a2 a3 a4], c as [c0 c1 c2 c3 c4]. unfold qlist, ECgFp5Point.select_gfp5. cbn [q0 q1 q2 q3 q4]. rewrite !Forall_cons.
  intros (? & ? & ? & ? & ? & _) (? & ? & ? & ? & ? & _). by rewrite !select_field_ones.
Qed.

Lemma select_ones a c : point_words a → point_words c → ECgFp5Point.select u64_max a c = c.
Proof.
  destruct a, c. intros (? & ? & ? & ?) (? & ? & ? & ?). unfold ECgFp5Point.select.
  cbn [ex ez eu et] in *. by rewrite !select_gfp5_ones.
Qed.

Lemma select_zero a c : ECgFp5Point.select 0 a c = a.
Proof.
  destruct a as [[] [] [] []], c as [[] [] [] []]. unfold ECgFp5Point.select, ECgFp5Point.select_gfp5. cbn.
  by rewrite !select_field_zero.
Qed.

Lemma lookup_scan a table acc k :
  point_words acc → Forall point_words table →
  fold_left (λ result '(i, q),
      let sel := if Z.of_nat i + 1 =? a then u64_max else 0 in
      ECgFp5Point.select sel result q) (imap (λ i q, ((k + i)%nat, q)) table) acc =
  if (Z.of_nat k <? a) && (a <=? Z.of_nat k + Z.of_nat (length table))
  then nth (Z.to_nat (a - 1 - Z.of_nat k)) table ECgFp5Point.neutral else acc.
Proof.
  revert acc k. induction table as [|q table IH]; intros acc k Hacc Hw.
  { cbn [imap fold_left length nth]. by destruct (Z.ltb_spec (Z.of_nat k) a), (Z.leb_spec a (Z.of_nat k + Z.of_nat 0)); lia || done. }
  apply Forall_cons in Hw as [Hq Hw]. rewrite imap_cons. cbn [fold_left length]. rewrite Nat.add_0_r.
  rewrite (imap_ext _ (λ i q, ((S k + i)%nat, q))) by (intros i x _; cbn; f_equal; lia).
  destruct (Z.eqb_spec (Z.of_nat k + 1) a) as [Ha|Ha].
  - rewrite select_ones by done. rewrite IH by done.
    destruct (Z.ltb_spec (Z.of_nat (S k)) a); [lia|]. cbn [andb].
    destruct (Z.ltb_spec (Z.of_nat k) a), (Z.leb_spec a (Z.of_nat k + Z.of_nat (S (length table)))); try lia.
    cbn [andb]. by replace (Z.to_nat (a - 1 - Z.of_nat k)) with 0%nat by lia.
  - rewrite select_zero, IH by done.
    destruct (Z.ltb_spec (Z.of_nat (S k)) a), (Z.ltb_spec (Z.of_nat k) a),
      (Z.leb_spec a (Z.of_nat (S k) + Z.of_nat (length table))),
      (Z.leb_spec a (Z.of_nat k + Z.of_nat (S (length table)))); try lia; cbn [andb]; try done.
    by replace (Z.to_nat (a - 1 - Z.of_nat k)) with (S (Z.to_nat (a - 1 - Z.of_nat (S k)))) by lia.
Qed.

Lemma rep_words a x : a ⊫ x → Forall is_u64 (qlist a).
Proof.
  intros H%rep5_canonical. eapply Forall_impl; [exact H|]. intros n Hn.
  unfold canonical, is_u64, u64_max in *. unfold p in *. lia.
Qed.

Lemma point_rep_words q P : point_rep q P → point_words q.
Proof. intros (R & [] & _). split_and!; eauto using rep_words. Qed.

Lemma neutral_words : point_words ECgFp5Point.neutral.
Proof. eapply point_rep_words, neutral_rep. Qed.

(** The masked scan reads what the indexed access reads. *)
Lemma lookup_is_vartime table digit :
  Forall point_words table → - 2 ^ 31 < digit < 2 ^ 31 →
  ECgFp5Point.lookup table digit = ECgFp5Point.lookup_vartime table digit.
Proof.
  intros Hw Hd. unfold ECgFp5Point.lookup, ECgFp5Point.lookup_vartime.
  assert (Z.shiftr digit 31 = if digit <? 0 then -1 else 0) as Hs.
  { rewrite Z.shiftr_div_pow2 by lia. destruct (Z.ltb_spec digit 0).
    - symmetry. apply (Z.div_unique _ _ _ (digit + 2 ^ 31)); lia.
    - apply Z.div_small. lia. }
  assert (Z.lxor digit (Z.shiftr digit 31) - Z.shiftr digit 31 = Z.abs digit) as ->.
  { rewrite Hs. destruct (Z.ltb_spec digit 0); [rewrite Z.lxor_m1_r, <- Z.opp_lnot|rewrite Z.lxor_0_r]; lia. }
  rewrite Hs. rewrite (lookup_scan _ _ _ 0) by (done || apply neutral_words).
  replace (negb (as_u64 (if digit <? 0 then -1 else 0) =? 0)) with (digit <? 0) by by destruct (digit <? 0).
  change (Z.of_nat 0) with 0. rewrite Z.sub_0_r, Z.add_0_l.
  destruct (Z.eqb_spec digit 0) as [->|Hn]; [done|]. by destruct (Z.ltb_spec 0 (Z.abs digit)); [|lia].
Qed.

(** ** Scalar multiplication *)

Lemma mdouble_rep q P n : point_rep q P → point_rep (ECgFp5Point.mdouble q n) (2 ^ Z.of_nat n • P).
Proof.
  intros H. unfold ECgFp5Point.mdouble. destruct (Nat.eqb_spec n 0) as [->|_].
  { change (2 ^ Z.of_nat 0) with 1. by rewrite gmul_1. }
  induction n as [|n IH]; [change (2 ^ Z.of_nat 0) with 1; by rewrite gmul_1|].
  cbn [Nat.iter nat_rect]. apply double_rep in IH.
  rewrite Nat2Z.inj_succ, Z.pow_succ_r, gmul_mul by lia. by rewrite <- gmul_double.
Qed.

(** The table holds the multiples from one up. *)
Definition table_rep (table : list EPoint) (P : group) : Prop :=
  ∀ i q, table !! i = Some q → point_rep q (Z.of_nat (S i) • P).

Lemma table_words table P : table_rep table P → Forall point_words table.
Proof. intros H. apply Forall_lookup. intros i q Hi. eapply point_rep_words, H, Hi. Qed.

Lemma lookup_vartime_rep table P d :
  table_rep table P → Z.abs d ≤ Z.of_nat (length table) →
  point_rep (ECgFp5Point.lookup_vartime table d) (d • P).
Proof.
  intros Ht Hd. unfold ECgFp5Point.lookup_vartime. destruct (Z.eqb_spec d 0) as [->|Hn].
  { rewrite gmul_0. apply neutral_rep. }
  destruct (Z.leb_spec (Z.abs d) (Z.of_nat (length table))); [|lia].
  destruct (lookup_lt_is_Some_2 table (Z.to_nat (Z.abs d - 1))) as [q Hq]; [lia|].
  rewrite (nth_lookup_Some _ _ _ _ Hq). apply Ht in Hq.
  replace (Z.of_nat (S (Z.to_nat (Z.abs d - 1)))) with (Z.abs d) in Hq by lia.
  destruct (Z.ltb_spec d 0).
  - replace d with (- Z.abs d) by lia. rewrite gmul_opp. by apply negate_rep.
  - by replace (Z.abs d) with d in Hq by lia.
Qed.

Lemma lookup_rep table P d :
  table_rep table P → Z.abs d ≤ Z.of_nat (length table) → Z.abs d < 2 ^ 31 →
  point_rep (ECgFp5Point.lookup table d) (d • P).
Proof.
  intros Ht Hd Hs. rewrite lookup_is_vartime by (eauto using table_words || lia).
  by apply lookup_vartime_rep.
Qed.

Lemma window_fill q P k :
  point_rep q P → (k ≤ 15)%nat →
  let win := fold_left (ECgFp5Point.fill_window q) (seq 1 k) (replicate ECgFp5Point.WIN_SIZE q) in
  length win = ECgFp5Point.WIN_SIZE ∧
  ∀ i, (i ≤ k)%nat → point_rep (nth i win ECgFp5Point.neutral) (Z.of_nat (S i) • P).
Proof.
  intros Hq. induction k as [|k IH]; intros Hk.
  { cbn [seq fold_left]. split; [apply length_replicate|]. intros i Hi. replace i with 0%nat by lia.
    change (Z.of_nat 1) with 1. rewrite gmul_1. exact Hq. }
  rewrite seq_S, fold_left_app. cbn [fold_left]. destruct (IH ltac:(lia)) as [Hl Hw]. clear IH.
  set (win := fold_left _ _ _) in *. clearbody win. unfold ECgFp5Point.fill_window.
  unfold ECgFp5Point.WIN_SIZE in *. change (1 + k)%nat with (S k).
  assert (∀ r, point_rep r (Z.of_nat (S (S k)) • P) → length (<[S k := r]> win) = 16%nat ∧
    ∀ i, (i ≤ S k)%nat → point_rep (nth i (<[S k := r]> win) ECgFp5Point.neutral) (Z.of_nat (S i) • P)) as Hset.
  { intros r Hr. rewrite length_insert. split; [done|]. intros i Hi.
    destruct (decide (i = S k)) as [->|Hne].
    - rewrite (nth_lookup_Some _ _ _ r); [done|]. apply list_lookup_insert_eq. lia.
    - rewrite nth_lookup, list_lookup_insert_ne, <- nth_lookup by done. apply Hw. lia. }
  destruct (Nat.even (S k)) eqn:He; apply Hset.
  - replace (S k - 1)%nat with k by lia. specialize (Hw k ltac:(lia)).
    pose proof (add_rep _ _ _ _ Hw Hq) as H. rewrite gadd_comm, <- gmul_succ in H.
    by replace (Z.of_nat (S (S k))) with (Z.of_nat (S k) + 1) by lia.
  - assert (Nat.odd (S k) = true) as Ho by by rewrite <- Nat.negb_even, He.
    apply Nat.odd_spec in Ho as [m Hm]. replace (S k / 2)%nat with m.
    + specialize (Hw m ltac:(lia)). apply double_rep in Hw. rewrite gmul_double, <- gmul_mul in Hw.
      by replace (Z.of_nat (S (S k))) with (2 * Z.of_nat (S m)) by lia.
    + rewrite Hm. apply (Nat.div_unique _ _ _ 1); lia.
Qed.

Lemma window_rep q P :
  point_rep q P →
  length (ECgFp5Point.window q) = 16%nat ∧ table_rep (ECgFp5Point.window q) P.
Proof.
  intros Hq. destruct (window_fill q P 15 Hq) as [Hl Hw]; [lia|].
  change (fold_left _ _ _) with (ECgFp5Point.window q) in Hl, Hw. split; [exact Hl|].
  intros i r Hi. pose proof (lookup_lt_Some _ _ _ Hi) as Hlt. rewrite Hl in Hlt.
  unfold ECgFp5Point.WIN_SIZE in Hlt. specialize (Hw i ltac:(lia)).
  by rewrite (nth_lookup_Some _ _ _ _ Hi) in Hw.
Qed.

Lemma digits_val_app w ds es :
  digits_val w (ds ++ es) = digits_val w ds + (2 ^ w) ^ Z.of_nat (length ds) * digits_val w es.
Proof.
  induction ds as [|d ds IH]; cbn [digits_val app length]; [change (Z.of_nat 0) with 0; lia|].
  rewrite IH, Nat2Z.inj_succ, Z.pow_succ_r by lia. ring.
Qed.

Lemma mul_fold table P ds q m :
  table_rep table P → length table = 16%nat → Forall (λ d, -15 ≤ d ≤ 16) ds → point_rep q (m • P) →
  point_rep (fold_left (λ result digit, ECgFp5Point.add (ECgFp5Point.mdouble result 5)
      (ECgFp5Point.lookup table digit)) (rev ds) q)
    ((digits_val 5 ds + (2 ^ 5) ^ Z.of_nat (length ds) * m) • P).
Proof.
  intros Ht Hl. revert q m. induction ds as [|d ds IH]; intros q m Hd Hq.
  { cbn [rev fold_left digits_val length]. by replace (0 + (2 ^ 5) ^ Z.of_nat 0 * m) with m by (change (Z.of_nat 0) with 0; lia). }
  apply Forall_cons in Hd as [Hd Hds]. cbn [rev]. rewrite fold_left_app. cbn [fold_left].
  specialize (IH q m Hds Hq). apply (mdouble_rep _ _ 5) in IH. rewrite <- gmul_mul in IH.
  assert (point_rep (ECgFp5Point.lookup table d) (d • P)) as Hlk by (apply lookup_rep; [done|lia..]).
  pose proof (add_rep _ _ _ _ IH Hlk) as H. rewrite <- gmul_add in H.
  cbn [digits_val length]. rewrite Nat2Z.inj_succ, Z.pow_succ_r by lia.
  eapply eq_rect; [exact H|]. f_equal. change (2 ^ Z.of_nat 5) with (2 ^ 5). ring.
Qed.

Lemma mul_rep q P s :
  point_rep q P → limbs_ok 5 s → limbs_val s < 2 ^ 319 →
  point_rep (ECgFp5Point.mul q s) (limbs_val s • P).
Proof.
  intros Hq Hs Hb. unfold ECgFp5Point.mul, ECgFp5Point.WINDOW.
  destruct (window_rep q P Hq) as [Hl Ht]. destruct (recode_signed_spec s Hs Hb) as (Hd & Hf & Hv).
  cbv zeta in *. set (ds := ECgFp5Scalar.recode_signed s 64 5) in *. clearbody ds.
  destruct (lookup_lt_is_Some_2 ds 63) as [d Hd63]; [lia|].
  assert (-15 ≤ d ≤ 16) as Hd' by by eapply (Forall_lookup_1 _ _ _ _ Hf).
  assert (ds = take 63 ds ++ [d]) as Hsplit.
  { rewrite <- (take_drop 63 ds) at 1. f_equal. rewrite (drop_S _ _ _ Hd63). f_equal.
    apply drop_ge. lia. }
  rewrite (nth_lookup_Some _ _ _ _ Hd63).
  pose proof (lookup_vartime_rep _ P d Ht ltac:(lia)) as H0.
  pose proof (mul_fold _ P (take 63 ds) _ d Ht Hl (Forall_take _ _ _ Hf) H0) as H.
  apply (f_equal (digits_val 5)) in Hsplit. rewrite digits_val_app, Hv in Hsplit. cbn [digits_val] in Hsplit.
  rewrite Hsplit, Z.mul_0_r, Z.add_0_r. exact H.
Qed.

(** ** What the point operations promise *)

Definition valid (q : EPoint) : Prop := ∃ P, point_rep q P.

Lemma encode_eq q1 q2 P1 P2 :
  point_rep q1 P1 → point_rep q2 P2 → P1 = P2 → ECgFp5Point.encode q1 = ECgFp5Point.encode q2.
Proof. intros H1 H2 ->. eapply rep5_unique; by apply encode_rep. Qed.

(** C2: The points form a commutative group.  The sum, the double and the opposite of
    valid points are valid, and up to the encoding, which is the same for two
    representations of one point, addition is associative and commutative, the
    neutral point and the opposite behave as such, and doubling is adding a point to
    itself: the addition formulas have no exceptional case. *)
Theorem point_group_laws q1 q2 q3 :
  valid q1 → valid q2 → valid q3 →
  let add := ECgFp5Point.add in
  let encode := ECgFp5Point.encode in
  valid (add q1 q2) ∧ valid (ECgFp5Point.double q1) ∧ valid (ECgFp5Point.negate q1) ∧
  encode (add (add q1 q2) q3) = encode (add q1 (add q2 q3)) ∧
  encode (add q1 q2) = encode (add q2 q1) ∧
  encode (add q1 ECgFp5Point.neutral) = encode q1 ∧
  ECgFp5Point.is_neutral (add q1 (ECgFp5Point.negate q1)) = true ∧
  encode (ECgFp5Point.double q1) = encode (add q1 q1) ∧
  (encode q1 = encode q2 → encode (add q1 q3) = encode (add q2 q3)).
Proof.
  intros [P1 H1] [P2 H2] [P3 H3] add encode. subst add encode. split_and!.
  - eexists. by apply add_rep.
  - eexists. by apply double_rep.
  - eexists. by apply negate_rep.
  - eapply encode_eq; [eauto using add_rep..|]. apply gadd_assoc.
  - eapply encode_eq; [eauto using add_rep..|]. apply gadd_comm.
  - eapply encode_eq; [eauto using add_rep, neutral_rep..|]. apply gadd_0_r.
  - apply (is_neutral_rep _ _ (add_rep _ _ _ _ H1 (negate_rep _ _ H1))). apply gadd_opp_r.
  - eapply encode_eq; [eauto using add_rep, double_rep..|]. reflexivity.
  - intros E. eapply encode_eq; [eauto using add_rep..|]. f_equal. apply gencode_inj.
    rewrite <- (rep5_gl5 _ _ (encode_rep _ _ H1)), E. apply rep5_gl5. by apply encode_rep.
Qed.

Lemma point_group_laws_witness :
  ECgFp5Point.encode (ECgFp5Point.add (ECgFp5Point.add ECgFp5Point.generator ECgFp5Point.generator)
      ECgFp5Point.neutral)
  = ECgFp5Point.encode (ECgFp5Point.add ECgFp5Point.generator
      (ECgFp5Point.add ECgFp5Point.generator ECgFp5Point.neutral)).
Proof.
  destruct (point_group_laws _ _ _ (ex_intro _ G generator_rep) (ex_intro _ G generator_rep)
    (ex_intro _ gzero neutral_rep)) as (_ & _ & _ & H & _). exact H.
Defined.

(** C11: Windowed multiplication.  For a scalar below 2^319 (every reduced scalar is)
    the signed-window ladder computes the multiple of the point, and the masked scan
    of the window table, which touches every entry, returns what indexing
    returns. *)
Theorem scalar_mul_correct q P s table digit :
  point_rep q P → limbs_ok 5 s → limbs_val s < 2 ^ 319 →
  Forall point_words table → - 2 ^ 31 < digit < 2 ^ 31 →
  point_rep (ECgFp5Point.mul q s) (limbs_val s • P) ∧
  ECgFp5Point.encode (ECgFp5Point.mul q s) ⊫ gencode (limbs_val s • P) ∧
  ECgFp5Point.lookup table digit = ECgFp5Point.lookup_vartime table digit.
Proof.
  intros Hq Hs Hb Ht Hd. pose proof (mul_rep q P s Hq Hs Hb) as Hm.
  split_and!; [exact Hm|by apply encode_rep|by apply lookup_is_vartime].
Qed.

Lemma scalar_mul_correct_witness :
  point_rep (ECgFp5Point.mul ECgFp5Point.generator [u64_max; 0; 0; 0; 0x7FFFFFFFFFFFFFFF])
    (limbs_val [u64_max; 0; 0; 0; 0x7FFFFFFFFFFFFFFF] • G).
Proof.
  refine (proj1 (scalar_mul_correct _ _ _ [ECgFp5Point.neutral] (-1) generator_rep _ _ _ _)).
  - split; [reflexivity|]. by repeat constructor.
  - reflexivity.
  - constructor; [apply neutral_words|constructor].
  - split; reflexivity.
Defined.
