(* ===== verification/EcWeierstrass.v ===== *)
(** * The Weierstrass form

    Signature verification works on the curve in the form
    Y^2 = X^3 + a X + b' with affine chord and tangent formulas.  A group element
    (x, u) stands for the Weierstrass point (b/x + 2/3, -b/(u x)), and the neutral
    element for infinity.  The operations of [WeierstrassPoint] are shown to compute
    the group operations under this correspondence, whatever case of the
    addition they take. *)

From Stdlib Require Import Zmod.Zmod Field.
From S2P Require Import Prelude Words Goldilocks Quintic Gfp5 EcScalar EcGroup EcGFp5.

#[local] Opaque f5_add f5_sub f5_mul f5_opp f5_pow f5_inv.

(** ** Chord and tangent *)

(** The abscissa of the third point of the chord, before translation, as a fraction. *)
Definition chord_num (x1 u1 x2 u2 : F5) : F5 :=
  ((u2 * x2 - u1 * x1) ^ 2 * (x1 * x2)
   - (u1 * u2 * (x1 - x2)) ^ 2 * (B * x2 + B * x1 + 2 * (x1 * x2)))%f5.
Definition chord_den (x1 u1 x2 u2 : F5) : F5 :=
  (u1 * u2 * (x1 - x2) * (u1 * u2 * (x1 - x2)) * (x1 * x2))%f5.

Lemma chord_x x1 u1 x2 u2 (R := padd (lift (x1, u1)) (lift (x2, u2))) :
  in_group (x1, u1) → in_group (x2, u2) →
  (fX R * chord_num x1 u1 x2 u2 = B * fZ R * chord_den x1 u1 x2 u2)%f5.
Proof. subst R. unfold chord_num, chord_den. intros H1 H2. curve_ring. Qed.

Lemma chord_y x1 u1 x2 u2 (R := padd (lift (x1, u1)) (lift (x2, u2)))
    (K := chord_den x1 u1 x2 u2) (M := chord_num x1 u1 x2 u2) :
  in_group (x1, u1) → in_group (x2, u2) →
  (fU R * ((u2 * x2 - u1 * x1) * (B * K - M * x1) + B * K * u2 * (x1 - x2))
   = - (fT R * M * (u1 * u2 * (x1 - x2) * x1)))%f5.
Proof. subst R K M. unfold chord_num, chord_den. intros H1 H2. curve_ring. Qed.

Lemma tangent_x x u (w := (1 - u * u * (2 * (x + 1)))%f5) :
  in_group (x, u) →
  (u ^ 2 * (u ^ 2 * (3 * B + 4 * x + x ^ 2) ^ 2 - f5 8 * B * x - f5 8 * x ^ 2) = x ^ 2 * w ^ 2)%f5.
Proof. subst w. intros H1. curve_ring. Qed.

Lemma tangent_y x u (w := (1 - u * u * (2 * (x + 1)))%f5) (T := (2 - (4 * u ^ 2 + w ^ 2))%f5) :
  in_group (x, u) →
  (- (u ^ 2 * (3 * B + 4 * x + x ^ 2) * (4 * B * u ^ 2 - x * w ^ 2)) + f5 8 * B * u ^ 2 * x
   = - (T * w * x ^ 2))%f5.
Proof. subst w T. intros H1. curve_ring. Qed.

(** ** The correspondence *)

Definition wX (P : affine) : F5 := (B / P.1 + 2 / 3)%f5.
Definition wY (P : affine) : F5 := (- (B / (P.2 * P.1)))%f5.

Lemma nonzero_coords P : P ≠ gzero → (aff P).1 ≠ 0%f5 ∧ (aff P).2 ≠ 0%f5.
Proof.
  intros HP. assert ((aff P).2 ≠ 0%f5) as Hu by (intros Hu; by apply HP, group_snd_eq).
  split; [|exact Hu]. intros Hx. apply Hu. pose proof (aff_in P). destruct (aff P).
  by apply (group_zero _ _ H).
Qed.

Lemma B_nonzero : B ≠ 0%f5.
Proof. apply nonsquare_nonzero, b_nonsquare. Qed.

Lemma wX_inj x1 u1 x2 u2 : x1 ≠ 0%f5 → x2 ≠ 0%f5 → wX (x1, u1) = wX (x2, u2) → x1 = x2.
Proof.
  intros H1 H2 H. pose proof B_nonzero. unfold wX in H. cbn [fst snd] in H.
  assert (B * x2 = B * x1)%f5 as E.
  { transitivity ((B / x1 + 2 / 3 - 2 / 3) * x1 * x2)%f5; [field; split; [exact f5_three_nonzero|done]|].
    rewrite H. field. split; [exact f5_three_nonzero|done]. }
  symmetry. apply f5_sub_zero. assert (B * (x2 - x1) = 0)%f5 as [|]%f5_integral; [|contradiction|assumption].
  transitivity (B * x2 - B * x1)%f5; [ring|]. rewrite E. ring.
Qed.

Lemma wY_inj x u1 u2 : x ≠ 0%f5 → u1 ≠ 0%f5 → u2 ≠ 0%f5 → wY (x, u1) = wY (x, u2) → u1 = u2.
Proof.
  intros Hx H1 H2 H. pose proof B_nonzero. unfold wY in H. cbn [fst snd] in H.
  assert (B * u2 = B * u1)%f5 as E.
  { transitivity (- (- (B / (u1 * x))) * u1 * u2 * x)%f5; [field; by split|]. rewrite H. field. by split. }
  symmetry. apply f5_sub_zero. assert (B * (u2 - u1) = 0)%f5 as [|]%f5_integral; [|contradiction|assumption].
  transitivity (B * u2 - B * u1)%f5; [ring|]. rewrite E. ring.
Qed.

Lemma group_ordinate P : in_group P → (P.2 * P.2 = P.1 / den P.1)%f5.
Proof.
  intros [Hc Hn]. pose proof (nonsquare_nonzero _ Hn) as Hd. generalize dependent (den P.1).
  intros d Hc _ Hd. rewrite Hc. by field.
Qed.

(** Equal abscissas belong to equal or opposite points. *)
Lemma group_fst_eq P Q : (aff P).1 = (aff Q).1 → Q = P ∨ Q = gopp P.
Proof.
  intros H. pose proof (aff_in P) as HP. pose proof (aff_in Q) as HQ.
  assert ((aff Q).2 * (aff Q).2 = (aff P).2 * (aff P).2)%f5 as E.
  { rewrite !group_ordinate by done. by rewrite H. }
  assert (((aff Q).2 - (aff P).2) * ((aff Q).2 + (aff P).2) = 0)%f5 as [H0|H0]%f5_integral.
  - transitivity ((aff Q).2 * (aff Q).2 - (aff P).2 * (aff P).2)%f5; [ring|]. rewrite E. ring.
  - left. apply group_snd_eq. by apply f5_sub_zero.
  - right. apply group_snd_eq. change (aff (gopp P)).2 with (- (aff P).2)%f5.
    apply f5_add_zero. rewrite <- H0. ring.
Qed.

Lemma frac_nonzero (R : frac_point) :
  proper R → (frac R).1 ≠ 0%f5 → (frac R).2 ≠ 0%f5 → fX R ≠ 0%f5 ∧ fU R ≠ 0%f5.
Proof.
  intros [HZ HT] H1 H2. cbn [frac fst snd] in *. split; intros H; [apply H1|apply H2]; rewrite H; by field.
Qed.

Lemma f5_sub_nonzero (x y : F5) : x ≠ y → (x - y ≠ 0)%f5.
Proof. intros H H0%f5_sub_zero. by apply H. Qed.

(** The slope of the chord. *)
Lemma chord_slope x1 u1 x2 u2 :
  x1 ≠ 0%f5 → u1 ≠ 0%f5 → x2 ≠ 0%f5 → u2 ≠ 0%f5 → x1 ≠ x2 →
  ((wY (x2, u2) - wY (x1, u1)) / (wX (x2, u2) - wX (x1, u1))
   = (u2 * x2 - u1 * x1) / (u1 * u2 * (x1 - x2)))%f5.
Proof.
  intros Hx1 Hu1 Hx2 Hu2 Hne%f5_sub_nonzero. pose proof B_nonzero.
  apply f5_frac_eq; [|repeat apply f5_mul_nonzero; assumption|].
  - intros H0. apply (f5_mul_nonzero _ _ B_nonzero Hne).
    transitivity ((wX (x2, u2) - wX (x1, u1)) * (x1 * x2))%f5; [|rewrite H0; ring].
    unfold wX. cbn [fst snd]. field. split_and!; [exact f5_three_nonzero|assumption..].
  - unfold wX, wY. cbn [fst snd]. field. split_and!; try assumption. exact f5_three_nonzero.
Qed.

Lemma chord_formulas x1 u1 x2 u2 (R := padd (lift (x1, u1)) (lift (x2, u2)))
    (l := ((wY (x2, u2) - wY (x1, u1)) / (wX (x2, u2) - wX (x1, u1)))%f5) :
  in_group (x1, u1) → in_group (x2, u2) →
  x1 ≠ 0%f5 → u1 ≠ 0%f5 → x2 ≠ 0%f5 → u2 ≠ 0%f5 → x1 ≠ x2 →
  proper R → fX R ≠ 0%f5 → fU R ≠ 0%f5 →
  wX (frac R) = (l * l - wX (x1, u1) - wX (x2, u2))%f5 ∧
  wY (frac R) = (l * (wX (x1, u1) - wX (frac R)) - wY (x1, u1))%f5.
Proof.
  intros H1 H2 Hx1 Hu1 Hx2 Hu2 Hne [HZ HT] HX HU. subst l. rewrite chord_slope by assumption.
  pose proof (f5_sub_nonzero _ _ Hne) as Hd. pose proof f5_three_nonzero as H3.
  pose proof (chord_x _ _ _ _ H1 H2) as EX. pose proof (chord_y _ _ _ _ H1 H2) as EY. fold R in EX, EY.
  clearbody R. set (K := chord_den x1 u1 x2 u2) in *. set (M := chord_num x1 u1 x2 u2) in *.
  assert (K ≠ 0%f5) as HK by (repeat apply f5_mul_nonzero; assumption).
  assert (M / K = B * fZ R / fX R)%f5 as EQ.
  { apply f5_frac_eq; [assumption..|]. rewrite <- EX. ring. }
  assert (wX (frac R) = M / K + 2 / 3)%f5 as EM.
  { rewrite EQ. unfold wX. cbn [frac fst snd]. field. by split_and!. }
  split.
  - rewrite EM. subst K M. unfold wX, chord_num, chord_den in *. cbn [fst snd]. field. by split_and!.
  - rewrite EM. unfold wX, wY. cbn [frac fst snd].
    transitivity (- (fT R * M * (u1 * u2 * (x1 - x2) * x1)) / (fU R * (K * (u1 * u2 * (x1 - x2) * x1))))%f5.
    + transitivity (- (fT R / fU R * (M / K)))%f5; [|field; by split_and!].
      rewrite EQ. field. by split_and!.
    + rewrite <- EY. clearbody K M. field. by split_and!.
Qed.

(** The chord through two points of different abscissas. *)
Lemma wmap_chord P Q (l := ((wY (aff Q) - wY (aff P)) / (wX (aff Q) - wX (aff P)))%f5) :
  P ≠ gzero → Q ≠ gzero → wX (aff P) ≠ wX (aff Q) →
  gadd P Q ≠ gzero ∧
  wX (aff (gadd P Q)) = (l * l - wX (aff P) - wX (aff Q))%f5 ∧
  wY (aff (gadd P Q)) = (l * (wX (aff P) - wX (aff (gadd P Q))) - wY (aff P))%f5.
Proof.
  intros HP HQ Hne. assert (gadd P Q ≠ gzero) as HR.
  { intros H%gadd_zero_opp. apply Hne. by rewrite H. }
  split; [exact HR|]. subst l. apply nonzero_coords in HP as [Hx1 Hu1], HQ as [Hx2 Hu2], HR as [Hx3 Hu3].
  assert ((aff P).1 ≠ (aff Q).1) as Hx by (intros E; apply Hne; unfold wX; by rewrite E).
  pose proof (aff_in P) as H1. pose proof (aff_in Q) as H2. destruct (padd_total _ _ H1 H2) as [HZ HT].
  change (aff (gadd P Q)) with (frac (padd (lift (aff P)) (lift (aff Q)))) in *.
  destruct (aff P) as [x1 u1], (aff Q) as [x2 u2].
  destruct (frac_nonzero _ (Build_proper _ HZ HT) Hx3 Hu3). by apply chord_formulas.
Qed.

(** The tangent. *)
Lemma tangent_formulas x u (D := pdouble (lift (x, u)))
    (l := ((3 * (wX (x, u) * wX (x, u)) + (B - 4 / 3)) / (2 * wY (x, u)))%f5) :
  in_group (x, u) → x ≠ 0%f5 → u ≠ 0%f5 → proper D →
  wX (frac D) = (l * l - 2 * wX (x, u))%f5 ∧
  wY (frac D) = (l * (wX (x, u) - wX (frac D)) - wY (x, u))%f5.
Proof.
  intros HP Hx Hu [HZ HT]. pose proof B_nonzero as HB. pose proof f5_three_nonzero as H3.
  pose proof f5_two_nonzero as H2. pose proof (tangent_x _ _ HP) as EX. pose proof (tangent_y _ _ HP) as EY.
  set (w := (1 - u * u * (2 * (x + 1)))%f5) in *.
  assert (frac D = (4 * B * (u * u) / (w * w), 2 * (w * u) / (2 - (4 * u ^ 2 + w ^ 2)))%f5) as ED.
  { unfold frac. subst D w. cbn [pdouble lift fX fZ fU fT fst snd]. apply affine_eq; apply f5_div_eq; ring. }
  assert (2 - (4 * u ^ 2 + w ^ 2) ≠ 0)%f5 as HT'.
  { intros H. apply HT. subst D w. cbn [pdouble lift fX fZ fU fT fst snd]. rewrite <- H. ring. }
  assert (w ≠ 0%f5) as Hw.
  { intros H. apply HZ. subst D. cbn [pdouble lift fX fZ fU fT fst snd]. transitivity (w * w)%f5; [subst w; ring|].
    rewrite H. ring. }
  assert (4%f5 ≠ 0%f5) as H4.
  { intros H. apply (f5_mul_nonzero _ _ H2 H2). rewrite <- H. ring. }
  assert (l = - (u * (3 * B + 4 * x + x ^ 2)) / (2 * x))%f5 as ->.
  { subst l. unfold wX, wY. cbn [fst snd]. field. by split_and!. }
  clearbody w. rewrite ED. clear D HZ HT ED. set (c := (3 * B + 4 * x + x ^ 2)%f5) in *.
  set (T := (2 - (4 * u ^ 2 + w ^ 2))%f5) in *. clearbody T.
  assert (wX (4 * B * (u * u) / (w * w), 2 * (w * u) / T)%f5 = w ^ 2 / (4 * u ^ 2) + 2 / 3)%f5 as EM.
  { unfold wX. cbn [fst snd]. field. by split_and!. }
  rewrite EM. split.
  - transitivity (x ^ 2 * w ^ 2 / (4 * u ^ 2 * x ^ 2) + 2 / 3)%f5; [field; by split_and!|].
    rewrite <- EX. unfold wX. cbn [fst snd]. field. by split_and!.
  - transitivity (- (T * w * x ^ 2) / (f5 8 * u ^ 3 * x ^ 2))%f5.
    { unfold wY. cbn [fst snd]. field. by split_and!. }
    rewrite <- EY. unfold wX, wY. cbn [fst snd]. field. by split_and!.
Qed.

Lemma wmap_tangent P (l := ((3 * (wX (aff P) * wX (aff P)) + (B - 4 / 3)) / (2 * wY (aff P)))%f5) :
  P ≠ gzero →
  wY (aff P) ≠ 0%f5 ∧ gadd P P ≠ gzero ∧
  wX (aff (gadd P P)) = (l * l - 2 * wX (aff P))%f5 ∧
  wY (aff (gadd P P)) = (l * (wX (aff P) - wX (aff (gadd P P))) - wY (aff P))%f5.
Proof.
  intros HP. assert (gadd P P ≠ gzero) as HR.
  { intros H%gadd_zero_opp. apply nonzero_coords in HP as [_ Hu]. apply Hu, f5_double_zero.
    apply (f_equal (λ Q, (aff Q).2)) in H. change (aff (gopp P)).2 with (- (aff P).2)%f5 in H.
    transitivity ((aff P).2 + (aff P).2)%f5; [ring|]. rewrite H at 1. ring. }
  apply nonzero_coords in HP as [Hx Hu]. split; [|split; [exact HR|]].
  - unfold wY. intros H. apply B_nonzero. transitivity (- (- (B / ((aff P).2 * (aff P).1))) * ((aff P).2 * (aff P).1))%f5.
    + field. by split.
    + rewrite H. ring.
  - subst l. pose proof (aff_in P) as H1. destruct (pdouble_lift _ H1) as [Hp HD].
    change (aff (gadd P P)) with (aadd (aff P) (aff P)). rewrite <- HD.
    destruct (aff P) as [x u]. by apply tangent_formulas.
Qed.

(** ** The operations *)

(** The source point stands for a group element. *)
Record wrep (w : WPoint) (P : group) (X Y Z : F5) : Prop := {
  wrep_x : wx w ⊫ X; wrep_y : wy w ⊫ Y; wrep_z : wz w ⊫ Z;
  wrep_zero : P = gzero → Z = 0%f5;
  wrep_affine : P ≠ gzero → Z ≠ 0%f5 ∧ X = (wX (aff P) * Z)%f5 ∧ Y = (wY (aff P) * Z)%f5;
}.

Definition wpoint_rep (w : WPoint) (P : group) : Prop := ∃ X Y Z, wrep w P X Y Z.

#[export] Instance group_eq_dec : EqDecision group.
Proof.
  intros P Q. destruct (decide ((aff P).2 = (aff Q).2)) as [H|H].
  - left. by apply group_snd_eq.
  - right. by intros ->.
Defined.

Lemma infinity_rep : wpoint_rep WeierstrassPoint.infinity gzero.
Proof. exists 0%f5, 1%f5, 0%f5. split; cbn; rep5_eval; done. Qed.

Lemma is_infinity_rep w P : wpoint_rep w P → WeierstrassPoint.is_infinity w = bool_decide (P = gzero).
Proof.
  intros (X & Y & Z & []). unfold WeierstrassPoint.is_infinity.
  destruct (decide (P = gzero)) as [HP|HP].
  - rewrite bool_decide_true by done. apply (rep5_is_zero _ Z); auto.
  - rewrite bool_decide_false by done. apply (rep5_is_zero_false _ Z); [done|]. by apply wrep_affine0.
Qed.

(** A point away from infinity has the affine coordinates the code computes. *)
Lemma affine_coords w P :
  wpoint_rep w P → P ≠ gzero →
  (wx w * GFp5.inverse_or_zero (wz w))%gfp5 ⊫ wX (aff P) ∧
  (wy w * GFp5.inverse_or_zero (wz w))%gfp5 ⊫ wY (aff P).
Proof.
  intros (X & Y & Z & []) HP. destruct (wrep_affine0 HP) as (HZ & -> & ->).
  split; (eapply rep5_eq; [rep5_eval|]; by field).
Qed.

Lemma affine_rep x y P :
  P ≠ gzero → x ⊫ wX (aff P) → y ⊫ wY (aff P) → wpoint_rep (mkW x y GFp5.ONE) P.
Proof.
  intros HP Hx Hy. exists (wX (aff P)), (wY (aff P)), 1%f5. split; cbn; rep5_eval; [done|].
  intros _. split; [apply f5_one_nonzero|]. split; ring.
Qed.

Lemma wdouble_rep w P : wpoint_rep w P → wpoint_rep (WeierstrassPoint.double w) (gadd P P).
Proof.
  intros H. unfold WeierstrassPoint.double. rewrite (is_infinity_rep w P H).
  destruct (decide (P = gzero)) as [->|HP].
  { rewrite bool_decide_true by done. cbn [orb]. rewrite gadd_0_r. apply infinity_rep. }
  rewrite bool_decide_false by done. cbn [orb].
  destruct (wmap_tangent P HP) as (HY & HR & EX & EY).
  destruct (affine_coords w P H HP) as [Hx Hy].
  assert (GFp5.is_zero (wy w) = false) as ->.
  { destruct H as (X & Y & Z & []). apply (rep5_is_zero_false _ Y); [done|].
    destruct (wrep_affine0 HP) as (HZ & _ & ->). by apply f5_mul_nonzero. }
  set (x := (wx w * _)%gfp5) in *. set (y := (wy w * _)%gfp5) in *. clearbody x y. cbv zeta.
  set (l := ((GFp5.square x * small 3 + a_weierstrass) * GFp5.inverse_or_zero (GFp5.double y))%gfp5).
  assert (l ⊫ ((3 * (wX (aff P) * wX (aff P)) + (B - 4 / 3)) / (2 * wY (aff P)))%f5) as Hl.
  { subst l. eapply rep5_eq; [rep5_eval|]. pose proof f5_three_nonzero. pose proof f5_two_nonzero.
    generalize dependent (wY (aff P)). intros Y0 HY0. intros. field. split_and!; try assumption.
    intros E. apply HY0, f5_double_zero. rewrite <- E. ring. }
  clearbody l. set (L := ((3 * (wX (aff P) * wX (aff P)) + (B - 4 / 3)) / (2 * wY (aff P)))%f5) in *. clearbody L.
  assert ((GFp5.square l - GFp5.double x)%gfp5 ⊫ wX (aff (gadd P P))) as HX.
  { rewrite EX. eapply rep5_eq; [rep5_eval|]. ring. }
  apply affine_rep; [exact HR|exact HX|]. rewrite EY. rep5_eval.
Qed.

Lemma rep5_eq_iff a c x y : a ⊫ x → c ⊫ y → a = c ↔ x = y.
Proof.
  intros Ha Hc. split; [intros ->|intros ->; by eapply rep5_unique].
  by rewrite <- (rep5_gl5 _ _ Ha), <- (rep5_gl5 _ _ Hc).
Qed.

Lemma wadd_rep w1 w2 P1 P2 :
  wpoint_rep w1 P1 → wpoint_rep w2 P2 → wpoint_rep (WeierstrassPoint.add w1 w2) (gadd P1 P2).
Proof.
  intros H1 H2. unfold WeierstrassPoint.add. rewrite (is_infinity_rep _ _ H1), (is_infinity_rep _ _ H2).
  destruct (decide (P1 = gzero)) as [->|HP1].
  { rewrite bool_decide_true by done. by rewrite gadd_0_l. }
  rewrite bool_decide_false by done. destruct (decide (P2 = gzero)) as [->|HP2].
  { rewrite bool_decide_true by done. by rewrite gadd_0_r. }
  rewrite bool_decide_false by done.
  destruct (affine_coords _ _ H1 HP1) as [Hx1 Hy1], (affine_coords _ _ H2 HP2) as [Hx2 Hy2].
  set (x1 := (wx w1 * _)%gfp5) in *. set (y1 := (wy w1 * _)%gfp5) in *.
  set (x2 := (wx w2 * _)%gfp5) in *. set (y2 := (wy w2 * _)%gfp5) in *. clearbody x1 y1 x2 y2. cbv zeta.
  destruct (decide (wX (aff P1) = wX (aff P2))) as [EX|EX].
  - rewrite bool_decide_true by (by eapply rep5_eq_iff; eauto).
    destruct (nonzero_coords _ HP1) as [Ha1 Hb1], (nonzero_coords _ HP2) as [Ha2 Hb2].
    destruct (group_fst_eq P1 P2) as [->| ->].
    { destruct (aff P1), (aff P2). cbn [fst snd] in *. by eapply wX_inj. }
    + rewrite bool_decide_true by (by eapply rep5_unique; eauto). by apply wdouble_rep.
    + rewrite gadd_opp_r. rewrite bool_decide_false; [apply infinity_rep|].
      rewrite (rep5_eq_iff _ _ _ _ Hy1 Hy2). intros E.
      change (aff (gopp P1)) with ((aff P1).1, - (aff P1).2)%f5 in *. cbn [fst snd] in *.
      destruct (aff P1) as [x u]. cbn [fst snd] in *. apply wY_inj in E; [|assumption..].
      apply Hb1, f5_double_zero. transitivity (u + u)%f5; [ring|]. rewrite E at 1. ring.
  - rewrite bool_decide_false by (by rewrite (rep5_eq_iff _ _ _ _ Hx1 Hx2)).
    destruct (wmap_chord P1 P2 HP1 HP2 EX) as (HR & EX3 & EY3).
    set (l := ((y2 - y1) * GFp5.inverse_or_zero (x2 - x1))%gfp5).
    assert (l ⊫ ((wY (aff P2) - wY (aff P1)) / (wX (aff P2) - wX (aff P1)))%f5) as Hl by (subst l; rep5_eval).
    clearbody l. set (L := (_ / _)%f5) in *. clearbody L.
    assert ((GFp5.square l - x1 - x2)%gfp5 ⊫ wX (aff (gadd P1 P2))) as HX by (rewrite EX3; rep5_eval).
    apply affine_rep; [exact HR|exact HX|]. rewrite EY3. rep5_eval.
Qed.

Lemma wencode_rep w P : wpoint_rep w P → WeierstrassPoint.encode w ⊫ gencode P.
Proof.
  intros H. unfold WeierstrassPoint.encode. rewrite (is_infinity_rep w P H).
  destruct (decide (P = gzero)) as [->|HP].
  { rewrite bool_decide_true by done. unfold gencode. change (aff gzero).2 with 0%f5. rewrite f5_inv_0. apply rep5_ZERO. }
  rewrite bool_decide_false by done. destruct (affine_coords w P H HP) as [Hx Hy].
  destruct (nonzero_coords _ HP) as [Ha Hb]. unfold gencode.
  eapply rep5_eq; [rep5_eval|]. unfold wX, wY. change (2 * f5_inv 3)%f5 with (2 / 3)%f5.
  change (- - (B / ((aff P).2 * (aff P).1)) * f5_inv (B / (aff P).1 + 2 / 3 - 2 / 3))%f5
    with (- - (B / ((aff P).2 * (aff P).1)) / (B / (aff P).1 + 2 / 3 - 2 / 3))%f5.
  replace (B / (aff P).1 + 2 / 3 - 2 / 3)%f5 with (B / (aff P).1)%f5.
  - field. pose proof B_nonzero. by split_and!.
  - field. split; [exact f5_three_nonzero|exact Ha].
Qed.

(** ** Scalar multiplication *)

Fixpoint bits_val (l : list bool) : Z :=
  match l with [] => 0 | c :: l => b2z c + 2 * bits_val l end.

Lemma bits_val_app l l' : bits_val (l ++ l') = bits_val l + 2 ^ Z.of_nat (length l) * bits_val l'.
Proof.
  induction l as [|c l IH]; cbn [bits_val app length]; [change (2 ^ Z.of_nat 0) with 1; lia|].
  rewrite IH, Nat2Z.inj_succ, Z.pow_succ_r by lia. ring.
Qed.

Lemma bits_val_limb limb k n :
  bits_val (map (λ i, Z.land (Z.shiftr limb (Z.of_nat i)) 1 =? 1) (seq k n))
  = (limb / 2 ^ Z.of_nat k) mod 2 ^ Z.of_nat n.
Proof.
  revert k. induction n as [|n IH]; intros k; cbn [seq map bits_val].
  { change (2 ^ Z.of_nat 0) with 1. by rewrite Z.mod_1_r. }
  rewrite IH, Nat2Z.inj_succ, Nat2Z.inj_succ, !Z.pow_succ_r by lia.
  set (y := limb / 2 ^ Z.of_nat k).
  assert (limb / (2 * 2 ^ Z.of_nat k) = y / 2) as ->.
  { subst y. rewrite Z.div_div by lia. f_equal. lia. }
  assert (b2z (Z.land (Z.shiftr limb (Z.of_nat k)) 1 =? 1) = y mod 2) as ->.
  { rewrite Z.shiftr_div_pow2 by lia. fold y. change 1 with (Z.ones 1) at 1. rewrite Z.land_ones by lia.
    change (2 ^ 1) with 2. pose proof (Z.mod_pos_bound y 2 ltac:(lia)).
    destruct (Z.eqb_spec (y mod 2) 1); cbn; lia. }
  rewrite (Z.rem_mul_r y 2 (2 ^ Z.of_nat n)); lia.
Qed.

Lemma scalar_to_bits_val s : Forall is_u64 s → bits_val (scalar_to_bits s) = limbs_val s.
Proof.
  unfold scalar_to_bits. induction 1 as [|limb s Hl Hs IH]; [done|].
  cbn [map concat limbs_val]. rewrite bits_val_app, bits_val_limb, IH, length_map, length_seq.
  change (2 ^ Z.of_nat 0) with 1. change (Z.of_nat 64) with 64. rewrite Z.div_1_r, Z.mod_small; [lia|].
  unfold is_u64, u64_max in Hl. lia.
Qed.

Lemma wmul_fold w P bits q m :
  wpoint_rep w P → wpoint_rep q (m • P) →
  wpoint_rep (fold_left (λ result (bit : bool),
      let result := WeierstrassPoint.double result in
      if bit then WeierstrassPoint.add result w else result) (rev bits) q)
    ((bits_val bits + 2 ^ Z.of_nat (length bits) * m) • P).
Proof.
  intros Hw. revert q m. induction bits as [|c bits IH]; intros q m Hq.
  { cbn [rev fold_left bits_val length]. by replace (0 + 2 ^ Z.of_nat 0 * m) with m by (change (2 ^ Z.of_nat 0) with 1; lia). }
  cbn [rev]. rewrite fold_left_app. cbn [fold_left]. specialize (IH q m Hq). apply wdouble_rep in IH.
  rewrite gmul_double, <- gmul_mul in IH. cbn [bits_val length]. rewrite Nat2Z.inj_succ, Z.pow_succ_r by lia.
  set (n := bits_val bits + 2 ^ Z.of_nat (length bits) * m) in *. cbv zeta. destruct c.
  - pose proof (wadd_rep _ _ _ _ IH Hw) as H. rewrite gadd_comm, <- gmul_succ in H.
    eapply eq_rect; [exact H|]. f_equal. subst n. cbn [b2z]. ring.
  - eapply eq_rect; [exact IH|]. f_equal. subst n. cbn [b2z]. ring.
Qed.

Lemma is_zero_val s : ECgFp5Scalar.is_zero s = true → limbs_val s = 0.
Proof.
  unfold ECgFp5Scalar.is_zero. induction s as [|x s IH]; [done|]. cbn [forallb limbs_val].
  rewrite andb_true_iff, Z.eqb_eq. intros [-> ->%IH]. lia.
Qed.

Lemma wmul_rep w P s :
  wpoint_rep w P → Forall is_u64 s → wpoint_rep (WeierstrassPoint.mul w s) (limbs_val s • P).
Proof.
  intros Hw Hs. unfold WeierstrassPoint.mul. destruct (ECgFp5Scalar.is_zero s) eqn:E.
  { rewrite (is_zero_val _ E), gmul_0. apply infinity_rep. }
  pose proof (wmul_fold w P (scalar_to_bits s) WeierstrassPoint.infinity 0 Hw) as H.
  rewrite gmul_0, Z.mul_0_r, Z.add_0_r, scalar_to_bits_val in H by done. apply H, infinity_rep.
Qed.

Lemma wmul_add2_rep g pk P Q s e :
  wpoint_rep g P → wpoint_rep pk Q → Forall is_u64 s → Forall is_u64 e →
  wpoint_rep (WeierstrassPoint.mul_add2 g pk s e) (gadd (limbs_val s • P) (limbs_val e • Q)).
Proof. intros. apply wadd_rep; by apply wmul_rep. Qed.

Lemma G_nonzero : G ≠ gzero.
Proof. intros H%(f_equal (λ P, Zmod.to_Z (q0 (aff P).2))). vm_compute in H. discriminate H. Qed.

Lemma wgenerator_rep : wpoint_rep WeierstrassPoint.generator G.
Proof.
  apply affine_rep.
  - apply G_nonzero.
  - apply rep5_closed; vm_compute; reflexivity.
  - apply rep5_closed; vm_compute; reflexivity.
Qed.

(** ** Decoding *)

(** The two candidate abscissas multiply to b, so exactly one of them is a square. *)
Lemma roots_classes x1 x2 : (x1 * x2 = B)%f5 → is_square x1 → ¬ is_square x2.
Proof.
  intros H [y1 H1] [y2 H2]. apply b_nonsquare. exists (y1 * y2)%f5. rewrite <- H, <- H1, <- H2. ring.
Qed.

Lemma roots_classes' x1 x2 : (x1 * x2 = B)%f5 → ¬ is_square x1 → is_square x2.
Proof.
  intros H H1. destruct (decide_square x2) as [H2|H2]; [exact H2|].
  destruct b_nonsquare. rewrite <- H. by apply nonsquare_mul.
Qed.

(** A root that is not a square gives the group element of the encoding. *)
Lemma root_in_group x w :
  w ≠ 0%f5 → ¬ is_square x → (x * x + 2 * x + B = w * w * x)%f5 → in_group (x, f5_inv w).
Proof.
  intros Hw Hx E. assert (den x = w * w * x)%f5 as Ed by exact E.
  split; cbn [fst snd]; rewrite Ed.
  - by field.
  - eapply nonsquare_eq; [apply (nonsquare_square_mul x w Hx Hw)|]. ring.
Qed.

(** The discriminant of the abscissas of an encoding. *)
Definition discriminant (w : F5) : F5 := ((w * w - 2) * (w * w - 2) - 4 * B)%f5.

Lemma discriminant_roots w y :
  (y * y = discriminant w)%f5 →
  let x1 := ((w * w - 2 + y) / 2)%f5 in
  let x2 := ((w * w - 2 - y) / 2)%f5 in
  (x1 * x2 = B ∧ x1 * x1 + 2 * x1 + B = w * w * x1 ∧ x2 * x2 + 2 * x2 + B = w * w * x2)%f5.
Proof.
  intros E x1 x2. pose proof f5_two_nonzero as H2. unfold discriminant in E.
  assert (4%f5 ≠ 0%f5) as H4 by (intros H; apply (f5_mul_nonzero _ _ H2 H2); rewrite <- H; ring).
  assert (x1 * x2 = B)%f5 as H12.
  { transitivity (((w * w - 2) * (w * w - 2) - y * y) / 4)%f5; [subst x1 x2; field; by split|].
    rewrite E. by field. }
  assert (x1 + x2 = w * w - 2)%f5 as Hs by (subst x1 x2; by field).
  clearbody x1 x2. assert (w * w = x1 + x2 + 2)%f5 as -> by (rewrite Hs; ring).
  split; [exact H12|]. rewrite <- H12. split; ring.
Qed.

Lemma gencode_nonzero P : gencode P ≠ 0%f5 ↔ P ≠ gzero.
Proof.
  assert (gencode gzero = 0%f5) as H0 by exact f5_inv_0. split.
  - intros H ->. contradiction.
  - intros H E. apply H, gencode_inj. by rewrite E, H0.
Qed.

(** An encoding other than zero has a discriminant with a root. *)
Lemma discriminant_encoding P :
  P ≠ gzero → ((2 * (aff P).1 - (gencode P * gencode P - 2)) * (2 * (aff P).1 - (gencode P * gencode P - 2))
    = discriminant (gencode P))%f5.
Proof.
  intros HP. destruct (nonzero_coords _ HP) as [Hx Hu]. pose proof (on_curve _ (aff_in P)) as Hc.
  assert (den (aff P).1 = gencode P * gencode P * (aff P).1)%f5 as Hd.
  { rewrite Hc at 2. unfold gencode. by field. }
  unfold den in Hd. unfold discriminant. generalize dependent (gencode P). intros w Hd.
  apply f5_sub_zero. transitivity (4 * (((aff P).1 * (aff P).1 + 2 * (aff P).1 + B) - w * w * (aff P).1))%f5; [ring|].
  rewrite Hd. ring.
Qed.

Lemma discriminant_zero : ¬ is_square (discriminant 0%f5).
Proof.
  eapply nonsquare_eq; [apply (nonsquare_square_mul _ 2%f5 one_minus_b_nonsquare), f5_two_nonzero|].
  unfold discriminant. ring.
Qed.

(** The square root of the two candidates, which the source chooses with the symbol
    of the first. *)
Lemma chosen_root a1 a2 x1 x2 :
  a1 ⊫ x1 → a2 ⊫ x2 → (x1 * x2 = B)%f5 →
  ∃ s n, (if GoldilocksField.to_u64 (GFp5.legendre a1) =? 1 then a1 else a2) ⊫ s ∧
    (s * n = B)%f5 ∧ is_square s ∧ ¬ is_square n ∧ (n = x1 ∨ n = x2).
Proof.
  intros H1 H2 H. assert (x1 ≠ 0%f5) as Hx.
  { intros ->. apply B_nonzero. rewrite <- H. ring. }
  pose proof (legendre_test _ _ H1 Hx) as Ht.
  destruct (GoldilocksField.to_u64 (GFp5.legendre a1) =? 1) eqn:E.
  - assert (is_square x1) as Hs by by apply Ht. exists x1, x2. split_and!; eauto using roots_classes.
  - assert (¬ is_square x1) as Hs by by rewrite <- Ht. exists x2, x1.
    split_and!; eauto using roots_classes'. rewrite <- H. ring.
Qed.

(** Decoding accepts exactly the encodings of the group elements, and returns the
    element encoded. *)
Lemma decode_fp5_spec a w :
  a ⊫ w →
  match WeierstrassPoint.decode_fp5 a with
  | Some pt => ∃ P, wpoint_rep pt P ∧ gencode P = w
  | None => ∀ P, gencode P ≠ w
  end.
Proof.
  intros Ha. unfold WeierstrassPoint.decode_fp5.
  assert ((GFp5.square (GFp5.square a - A) - b_mul4)%gfp5 ⊫ discriminant w) as Hdelta by rep5_eval.
  pose proof (canonical_sqrt_spec _ _ Hdelta) as Hr. cbv zeta.
  destruct (GFp5.canonical_sqrt (GFp5.square (GFp5.square a - A) - b_mul4)%gfp5) as [r|].
  - destruct Hr as (y & Hy & E & _). cbn [negb andb unwrap_or_ZERO].
    assert (w ≠ 0%f5) as Hw by (intros ->; apply discriminant_zero; by exists y).
    destruct (discriminant_roots w y E) as (E12 & E1 & E2).
    destruct (chosen_root (GFp5.div (GFp5.square a - A + r)%gfp5 GFp5.TWO)
      (GFp5.div (GFp5.square a - A - r)%gfp5 GFp5.TWO) _ _ ltac:(rep5_eval) ltac:(rep5_eval) E12)
      as (s & n & Hs & Hsn & _ & Hn & Hor).
    assert (in_group (n, f5_inv w)) as HP by (apply root_in_group; [exact Hw|exact Hn|destruct Hor as [->| ->]; [exact E1|exact E2]]).
    set (x := if _ =? 1 then _ else _) in *. clearbody x.
    exists (elem _ HP). assert (n ≠ 0%f5) as Hn0 by by apply nonsquare_nonzero.
    split; [|unfold gencode; cbn [elem aff snd]; apply f5_inv_involutive]. apply affine_rep.
    + rewrite <- gencode_nonzero. unfold gencode. cbn [elem aff snd]. by rewrite f5_inv_involutive.
    + eapply rep5_eq; [rep5_eval|]. unfold wX. cbn [elem aff fst]. rewrite <- Hsn. field.
      split; [exact f5_three_nonzero|exact Hn0].
    + eapply rep5_eq; [rep5_eval|]. unfold wY. cbn [elem aff fst snd]. rewrite <- Hsn. pose proof (f5_inv_nonzero w Hw). clear -Hw Hn0 H. field. split; assumption.
  - cbn [negb andb]. destruct (GFp5.is_zero a) eqn:Ez.
    + apply (rep5_is_zero _ _ Ha) in Ez as ->. exists gzero. split; [apply infinity_rep|apply f5_inv_0].
    + apply (rep5_is_zero_false _ _ Ha) in Ez. intros P <-. apply gencode_nonzero in Ez.
      apply (Hr (2 * (aff P).1 - (gencode P * gencode P - 2))%f5). by apply discriminant_encoding.
Qed.

(** C10: The Weierstrass form implements the group.  Whatever branch the affine
    formulas take (infinity, doubling, opposite points, chord), addition, doubling
    and the two-scalar multiplication compute the group operation, and points are
    equal exactly when their encodings are.  Decoding accepts exactly the encodings
    of group elements and returns the element encoded. *)
Theorem weierstrass_correct w1 w2 P1 P2 s e a w :
  wpoint_rep w1 P1 → wpoint_rep w2 P2 → Forall is_u64 s → Forall is_u64 e → a ⊫ w →
  wpoint_rep (WeierstrassPoint.add w1 w2) (gadd P1 P2) ∧
  wpoint_rep (WeierstrassPoint.double w1) (gadd P1 P1) ∧
  wpoint_rep (WeierstrassPoint.mul w1 s) (limbs_val s • P1) ∧
  wpoint_rep (WeierstrassPoint.mul_add2 w1 w2 s e) (gadd (limbs_val s • P1) (limbs_val e • P2)) ∧
  (WeierstrassPoint.encode w1 = WeierstrassPoint.encode w2 ↔ P1 = P2) ∧
  match WeierstrassPoint.decode_fp5 a with
  | Some pt => ∃ P, wpoint_rep pt P ∧ gencode P = w
  | None => ∀ P, gencode P ≠ w
  end.
Proof.
  intros H1 H2 Hs He Ha. split_and!.
  - by apply wadd_rep.
  - by apply wdouble_rep.
  - by apply wmul_rep.
  - by apply wmul_add2_rep.
  - rewrite (rep5_eq_iff _ _ _ _ (wencode_rep _ _ H1) (wencode_rep _ _ H2)).
    split; [apply gencode_inj|by intros ->].
  - by apply decode_fp5_spec.
Qed.

Lemma weierstrass_correct_witness :
  wpoint_rep (WeierstrassPoint.mul_add2 WeierstrassPoint.generator WeierstrassPoint.infinity [5] [7])
    (gadd (5 • G) (7 • gzero)).
Proof.
  refine (proj1 (proj2 (proj2 (proj2
    (weierstrass_correct _ _ G gzero [5] [7] GFp5.ONE 1%f5 wgenerator_rep infinity_rep _ _ _))))).
  - by repeat constructor.
  - by repeat constructor.
  - apply rep5_ONE.
Defined.

(** ** The decoder of fractional points *)

(** The point stands for no element of the group. *)
Definition outside_group (q : EPoint) : Prop := ∀ P, ¬ point_rep q P.

Lemma decode_nonzero a w :
  a ⊫ w → is_square (discriminant w) →
  ∃ x s, x ⊫ s ∧ is_square s ∧ s ≠ 0%f5 ∧
    ECgFp5Point.decode a = Some (mkE x GFp5.ONE GFp5.ONE a).
Proof.
  intros Ha Hd. unfold ECgFp5Point.decode.
  assert ((GFp5.square (GFp5.square a - A) - b_mul4)%gfp5 ⊫ discriminant w) as Hdelta by rep5_eval.
  pose proof (canonical_sqrt_spec _ _ Hdelta) as Hr. cbv zeta.
  destruct (GFp5.canonical_sqrt (GFp5.square (GFp5.square a - A) - b_mul4)%gfp5) as [r|].
  - destruct Hr as (y & Hy & E & _). cbn [negb orb unwrap_or_ZERO].
    destruct (discriminant_roots w y E) as (E12 & _).
    destruct (chosen_root (GFp5.div (GFp5.square a - A + r)%gfp5 GFp5.TWO)
      (GFp5.div (GFp5.square a - A - r)%gfp5 GFp5.TWO) _ _ ltac:(rep5_eval) ltac:(rep5_eval) E12)
      as (s & n & Hs & Hsn & Hsq & _). eexists _, s. split_and!; [exact Hs|exact Hsq| |reflexivity].
    intros ->. apply B_nonzero. rewrite <- Hsn. ring.
  - destruct Hd as [y Hy]. destruct (Hr y Hy).
Qed.

(** C40: [ECgFp5Point::decode] does not invert [encode].  It accepts the encoding of
    every group element, and what it returns encodes to the same field element,
    but for every element other than the neutral one the point returned is not
    the one encoded, nor any element of the group: the decoder keeps the square one of
    the two candidate abscissas, and the group elements are those whose abscissa
    is not a square. *)
Theorem decode_leaves_group q P :
  point_rep q P → P ≠ gzero →
  ∃ q', ECgFp5Point.decode (ECgFp5Point.encode q) = Some q' ∧
    ECgFp5Point.encode q' = ECgFp5Point.encode q ∧ outside_group q'.
Proof.
  intros Hq HP. pose proof (encode_rep q P Hq) as He.
  destruct (decode_nonzero _ _ He) as (x & s & Hs & Hsq & Hs0 & Hd).
  { eexists. by apply discriminant_encoding. }
  eexists. split; [exact Hd|]. split.
  - eapply rep5_unique; [|exact He]. unfold ECgFp5Point.encode. cbn [et eu].
    eapply rep5_eq; [rep5_eval|]. field. apply f5_one_nonzero.
  - intros P' (R & [Hx Hz Hu Ht] & [HZ HT] & E). cbn [ex ez eu et] in *.
    assert (fX R = s) as E1 by (by rewrite <- (rep5_gl5 _ _ Hx), <- (rep5_gl5 _ _ Hs)).
    assert (fZ R = 1%f5) as E2 by (by rewrite <- (rep5_gl5 _ _ Hz), <- (rep5_gl5 _ _ rep5_ONE)).
    assert ((aff P').1 = s) as E3 by (rewrite <- E; cbn [frac fst]; rewrite E1, E2; apply f5_div_1).
    pose proof (aff_in P') as HP'. destruct (aff P') as [x' u']. cbn [fst] in E3. subst x'.
    destruct (decide (u' = 0%f5)) as [->|Hu0].
    + apply Hs0. by apply (group_zero _ _ HP').
    + by apply (group_nonsquare _ _ HP' Hu0).
Qed.

Lemma decode_leaves_group_witness :
  ∃ q', ECgFp5Point.decode (ECgFp5Point.encode ECgFp5Point.generator) = Some q' ∧
    ECgFp5Point.encode q' = ECgFp5Point.encode ECgFp5Point.generator ∧ outside_group q'.
Proof. exact (decode_leaves_group _ _ generator_rep G_nonzero). Defined.
