(* ===== verification/CurveOrder.v ===== *)
(** * The order of the base point

    The scalar arithmetic of [ecgfp5.rs] works modulo the constant of [fn order()];
    signatures verify because that many copies of the base point add up to the
    neutral element.  The multiple is computed here with machine integers, by an
    evaluator of the doubling and addition formulas that is shown to agree with
    them. *)

From Bignums Require Import BigZ.BigZ.
From Stdlib Require Import Zmod.Zmod.
From S2P Require Import Prelude Words Goldilocks Quintic Gfp5 EcScalar EcGroup EcGFp5.

#[local] Open Scope bigZ_scope.

Abbreviation bq := (quint BigZ.t_).

Definition big_p : BigZ.t_ := 18446744069414584321.
Definition red (x : BigZ.t_) : BigZ.t_ := x mod big_p.

Definition qadd (a c : bq) : bq :=
  let '(Quint a0 a1 a2 a3 a4) := a in
  let '(Quint c0 c1 c2 c3 c4) := c in
  Quint (a0 + c0) (a1 + c1) (a2 + c2) (a3 + c3) (a4 + c4).

Definition qsub (a c : bq) : bq :=
  let '(Quint a0 a1 a2 a3 a4) := a in
  let '(Quint c0 c1 c2 c3 c4) := c in
  Quint (a0 - c0) (a1 - c1) (a2 - c2) (a3 - c3) (a4 - c4).

Definition qscale (k : BigZ.t_) (a : bq) : bq :=
  let '(Quint a0 a1 a2 a3 a4) := a in
  Quint (k * a0) (k * a1) (k * a2) (k * a3) (k * a4).

Definition qmul_b (a : bq) : bq :=
  let '(Quint a0 a1 a2 a3 a4) := a in
  Quint (789 * a4) (263 * a0) (263 * a1) (263 * a2) (263 * a3).

Definition qmul (a c : bq) : bq :=
  let '(Quint a0 a1 a2 a3 a4) := a in
  let '(Quint c0 c1 c2 c3 c4) := c in
  Quint (red (a0 * c0 + 3 * (a1 * c4 + a2 * c3 + a3 * c2 + a4 * c1)))
        (red (a0 * c1 + a1 * c0 + 3 * (a2 * c4 + a3 * c3 + a4 * c2)))
        (red (a0 * c2 + a1 * c1 + a2 * c0 + 3 * (a3 * c4 + a4 * c3)))
        (red (a0 * c3 + a1 * c2 + a2 * c1 + a3 * c0 + 3 * (a4 * c4)))
        (red (a0 * c4 + a1 * c3 + a2 * c2 + a3 * c1 + a4 * c0)).

Record bpoint := BPoint { bX : bq; bZ : bq; bU : bq; bT : bq }.

Definition bdouble (P : bpoint) : bpoint :=
  let '(BPoint X Z U T) := P in
  let zt := qmul Z T in
  let z1 := qmul zt U in
  let t2 := qmul zt T in
  let w1 := qsub t2 (qmul (qmul U U) (qscale 2 (qadd X Z))) in
  let t4 := qmul z1 z1 in
  let w2 := qmul w1 w1 in
  BPoint (qscale 4 (qmul_b t4)) w2 (qscale 2 (qmul w1 z1))
    (qsub (qscale 2 (qmul t2 t2)) (qadd (qscale 4 t4) w2)).

Definition badd (P Q : bpoint) : bpoint :=
  let '(BPoint X1 Z1 U1 T1) := P in
  let '(BPoint X2 Z2 U2 T2) := Q in
  let m := qmul X1 X2 in
  let z := qmul Z1 Z2 in
  let s := qadd (qmul X1 Z2) (qmul X2 Z1) in
  let w := qmul U1 U2 in
  let t := qmul T1 T2 in
  let v := qadd (qmul U1 T2) (qmul U2 T1) in
  let n := qadd m (qmul_b z) in
  let tn := qmul t n in
  let wn := qscale 2 (qmul w (qadd (qmul_b s) n)) in
  BPoint (qmul_b (qadd (qmul s t) (qscale 2 (qmul w (qadd s n)))))
    (qsub tn wn) (qmul v (qsub (qmul_b z) m)) (qadd tn wn).

Fixpoint bmul (n : positive) (P : bpoint) : bpoint :=
  match n with
  | xH => P
  | xO n => bdouble (bmul n P)
  | xI n => badd (bdouble (bmul n P)) P
  end.

(** ** The evaluator computes the formulas *)

Definition bval (a : bq) : F5 := qmap (λ z, fp (BigZ.to_Z z)) a.

Lemma big_p_val : BigZ.to_Z big_p = p.
Proof. vm_compute. reflexivity. Qed.
Lemma red_val x : fp (BigZ.to_Z (red x)) = fp (BigZ.to_Z x).
Proof. unfold red. rewrite BigZ.spec_modulo, big_p_val. exact (Zmod.of_Z_mod (BigZ.to_Z x)). Qed.

Lemma big_3 : BigZ.to_Z 3 = 3%Z. Proof. reflexivity. Qed.
Lemma big_263 : BigZ.to_Z 263 = 263%Z. Proof. reflexivity. Qed.
Lemma big_789 : BigZ.to_Z 789 = 789%Z. Proof. reflexivity. Qed.

Ltac bval_by :=
  cbv beta iota delta [bval qadd qsub qscale qmul_b qmul qmap q0 q1 q2 q3 q4];
  rewrite ?red_val, ?BigZ.spec_add, ?BigZ.spec_sub, ?BigZ.spec_mul, ?BigZ.spec_add, ?BigZ.spec_mul;
  rewrite ?fp_add, ?fp_sub, ?fp_mul, ?fp_add, ?fp_mul, ?big_3, ?big_263, ?big_789.

Lemma qadd_val a c : bval (qadd a c) = (bval a + bval c)%f5.
Proof. destruct a as [a0 a1 a2 a3 a4], c as [c0 c1 c2 c3 c4]. unfold f5_add. bval_by. reflexivity. Qed.

Lemma qsub_val a c : bval (qsub a c) = (bval a - bval c)%f5.
Proof. destruct a as [a0 a1 a2 a3 a4], c as [c0 c1 c2 c3 c4]. unfold f5_sub. bval_by. reflexivity. Qed.

Lemma qscale_val k n a : BigZ.to_Z k = n → bval (qscale k a) = (f5 n * bval a)%f5.
Proof.
  intros <-. destruct a as [a0 a1 a2 a3 a4]. bval_by. f5_coefs. f_equal; ring.
Qed.

Lemma qmul_b_val a : bval (qmul_b a) = (curve_b * bval a)%f5.
Proof. destruct a as [a0 a1 a2 a3 a4]. unfold curve_b. bval_by. f5_coefs. f_equal; ring. Qed.

Lemma qmul_val a c : bval (qmul a c) = (bval a * bval c)%f5.
Proof.
  destruct a as [a0 a1 a2 a3 a4], c as [c0 c1 c2 c3 c4]. bval_by. f5_coefs. f_equal; ring.
Qed.

Lemma qscale_2 a : bval (qscale 2 a) = (f5 2 * bval a)%f5.
Proof. by apply qscale_val. Qed.
Lemma qscale_4 a : bval (qscale 4 a) = (f5 4 * bval a)%f5.
Proof. by apply qscale_val. Qed.
Create Rewrite HintDb bval.
#[local] Hint Rewrite qadd_val qsub_val qscale_2 qscale_4 qmul_b_val qmul_val : bval.

Definition bfrac (P : bpoint) : frac_point :=
  Frac (bval (bX P)) (bval (bZ P)) (bval (bU P)) (bval (bT P)).

Ltac bfrac_by :=
  apply frac_point_eq; cbn [bfrac bX bZ bU bT fX fZ fU fT padd pdouble];
  autorewrite with bval; ring.

Lemma bdouble_val P : bfrac (bdouble P) = pdouble (bfrac P).
Proof. destruct P. unfold bdouble. bfrac_by. Qed.

Lemma badd_val P Q : bfrac (badd P Q) = padd (bfrac P) (bfrac Q).
Proof. destruct P, Q. unfold badd. bfrac_by. Qed.

Lemma bmul_val n P Q :
  proper (bfrac P) → frac (bfrac P) = aff Q →
  proper (bfrac (bmul n P)) ∧ frac (bfrac (bmul n P)) = aff (Zpos n • Q).
Proof.
  intros HP HQ.
  assert (∀ m, proper (bfrac (bmul m P)) ∧ frac (bfrac (bmul m P)) = aff (Zpos m • Q) →
    proper (bfrac (bdouble (bmul m P))) ∧ frac (bfrac (bdouble (bmul m P))) = aff (Zpos (xO m) • Q)) as Hd.
  { intros m [H1 H2]. rewrite bdouble_val. destruct (frac_pdouble (bfrac (bmul m P))) as [H3 H4];
      [done|by rewrite H2|]. split; [done|]. rewrite H4, H2.
    change (aadd _ _) with (aff (gadd (Zpos m • Q) (Zpos m • Q))). by rewrite gmul_double, <- gmul_mul. }
  induction n as [n IH|n IH|]; cbn [bmul].
  - destruct (Hd n IH) as [H1 H2]. rewrite badd_val.
    destruct (frac_padd (bfrac (bdouble (bmul n P))) (bfrac P)) as [H3 H4];
      [done|done|by rewrite H2|by rewrite HQ|]. split; [done|]. rewrite H4, H2, HQ.
    change (aadd _ _) with (aff (gadd (Zpos (xO n) • Q) Q)). by rewrite gadd_comm, <- gmul_succ.
  - by apply Hd.
  - by rewrite gmul_1.
Qed.

Definition bG : bpoint :=
  BPoint (Quint 12883135586176881569 4356519642755055268 5248930565894896907
     2165973894480315022 2448410071095648785) (Quint 1 0 0 0 0) (Quint 1 0 0 0 0) (Quint 4 0 0 0 0).

(** Whether the multiple of the base point is the neutral element. *)
Definition vanishes (n : positive) : bool :=
  forallb (λ c, BigZ.eqb (red c) 0) (qlist (bU (bmul n bG))).

Lemma bG_rep : proper (bfrac bG) ∧ frac (bfrac bG) = aff G.
Proof.
  assert (bfrac bG = Frac G_aff.1 1%f5 1%f5 (f5 4)) as ->.
  { apply frac_point_eq; apply f5_by_value; vm_compute; reflexivity. }
  split.
  - split; cbn [fZ fT]; [apply f5_one_nonzero|].
    intros H%(f_equal (λ x, Zmod.to_Z (q0 x))). vm_compute in H. discriminate H.
  - cbn [frac fX fZ fU fT]. apply affine_eq; [|reflexivity]. apply f5_div_1.
Qed.

Lemma bval_zero a : forallb (λ c, BigZ.eqb (red c) 0) (qlist a) = true → bval a = 0%f5.
Proof.
  destruct a as [a0 a1 a2 a3 a4]. unfold qlist. cbn [forallb q0 q1 q2 q3 q4].
  rewrite !andb_true_iff, !BigZ.spec_eqb, !Z.eqb_eq. intros (H0 & H1 & H2 & H3 & H4 & _).
  unfold bval, qmap. cbn [q0 q1 q2 q3 q4].
  rewrite <- (red_val a0), <- (red_val a1), <- (red_val a2), <- (red_val a3), <- (red_val a4).
  rewrite H0, H1, H2, H3, H4. change (BigZ.to_Z 0) with 0%Z. by rewrite fp_0.
Qed.

Lemma vanishes_spec n : vanishes n = true → Zpos n • G = gzero.
Proof.
  intros HU%bval_zero. destruct bG_rep as [Hp Hf]. destruct (bmul_val n bG G Hp Hf) as [[HZ HT] H].
  generalize dependent (bmul n bG). intros R HU HZ HT H.
  apply group_snd_eq. rewrite <- H. cbn [frac snd]. change (fU (bfrac R)) with (bval (bU R)).
  rewrite HU. change (aff gzero).2 with 0%f5. unfold f5_div. ring.
Qed.

(** The base point has the order of the scalars. *)
Lemma order_G : ORDER • G = gzero.
Proof. apply (vanishes_spec (Z.to_pos ORDER)). vm_compute. reflexivity. Qed.
