(* ===== verification/Schnorr.v ===== *)
(** * Schnorr signatures

    [crates/hexagent-exchange/src/exchange/lighter/crypto/schnorr.rs]: signatures
    (s, e) with e the hash of the encoded nonce point and the message, and
    s = k - e * sk modulo the group order. *)

From S2P Require Import Prelude Words Goldilocks Quintic Gfp5 Poseidon2 EcScalar EcGroup EcGFp5 EcWeierstrass CurveOrder.

Record Signature := mkSig { sig_s : list Z; sig_e : list Z }.

Module Sig.

Definition to_bytes (self : Signature) : list Z :=
  ECgFp5Scalar.to_le_bytes (sig_s self) ++ ECgFp5Scalar.to_le_bytes (sig_e self).

(** [None] stands for the error of a length other than 80. *)
Definition from_bytes (data : list Z) : option Signature :=
  if negb (length data =? 80)%nat then None
  else
    s ← ECgFp5Scalar.from_le_bytes (take 40 data);
    e ← ECgFp5Scalar.from_le_bytes (drop 40 data);
    Some (mkSig s e).

End Sig.

Definition schnorr_pk_from_sk (sk : list Z) : quint Z :=
  ECgFp5Point.encode (ECgFp5Point.mul ECgFp5Point.generator sk).

(** The challenge: the hash of the ten coefficients of point and message, as a
    scalar. *)
Definition challenge (r hashed_msg : quint Z) : option (list Z) :=
  let pre_image := qlist (GFp5.to_basefield_array r) ++ qlist (GFp5.to_basefield_array hashed_msg) in
  e_gfp5 ← hash_to_quintic_extension pre_image;
  ECgFp5Scalar.from_gfp5 e_gfp5.

Definition schnorr_sign_with_k (hashed_msg : quint Z) (sk k : list Z) : option Signature :=
  let r := ECgFp5Point.encode (ECgFp5Point.mul ECgFp5Point.generator k) in
  e ← challenge r hashed_msg;
  let e_sk := ECgFp5Scalar.mul e sk in
  let s := ECgFp5Scalar.sub k e_sk in
  Some (mkSig s e).

(** [draws]: the outputs of the random generator the nonce is sampled from. *)
Definition schnorr_sign_hashed_message (hashed_msg : quint Z) (sk : list Z)
    (draws : list (list Z)) : option Signature :=
  k ← ECgFp5Scalar.sample_random draws;
  schnorr_sign_with_k hashed_msg sk k.

Definition verify_signature (pub_key hashed_msg : quint Z) (sig : Signature) : option bool :=
  match WeierstrassPoint.decode_fp5 pub_key with
  | None => Some false
  | Some pk_ws =>
      let g_ws := WeierstrassPoint.generator in
      let r_v_point := WeierstrassPoint.mul_add2 g_ws pk_ws (sig_s sig) (sig_e sig) in
      let r_v := WeierstrassPoint.encode r_v_point in
      e_v ← challenge r_v hashed_msg;
      Some (bool_decide (e_v = sig_e sig))
  end.

(** * Theorems *)

Lemma challenge_ok r msg :
  canonical5 r → canonical5 msg → ∃ e, challenge r msg = Some e ∧ scalar_ok e.
Proof.
  intros Hr Hm. unfold challenge.
  destruct (hash_to_quintic_ok (qlist (GFp5.to_basefield_array r) ++ qlist (GFp5.to_basefield_array msg)))
    as (h & -> & Hh); [by apply Forall_app|].
  destruct (from_gfp5_ok h Hh) as (e & He & Hok & _). exists e. by rewrite <- He.
Qed.

Lemma scalar_ok_319 s : scalar_ok s → limbs_ok 5 s ∧ limbs_val s < 2 ^ 319.
Proof. intros [H1 H2]. split; [exact H1|]. assert (ORDER < 2 ^ 319) by reflexivity. lia. Qed.

(** The encoded multiple of the base point. *)
Lemma base_mul_encode s :
  scalar_ok s →
  ECgFp5Point.encode (ECgFp5Point.mul ECgFp5Point.generator s) ⊫ gencode (limbs_val s • G).
Proof.
  intros [H1 H2]%scalar_ok_319. apply encode_rep. by apply mul_rep; [apply generator_rep|..].
Qed.

Lemma signature_bytes s e :
  scalar_ok s → scalar_ok e → Sig.from_bytes (Sig.to_bytes (mkSig s e)) = Some (mkSig s e).
Proof.
  intros [Hs _] [He _]. unfold Sig.from_bytes, Sig.to_bytes. cbn [sig_s sig_e].
  assert (∀ l, limbs_ok 5 l → length (ECgFp5Scalar.to_le_bytes l) = 40%nat) as Hlen.
  { intros l [Hl _]. by rewrite scalar_bytes_length, Hl. }
  rewrite length_app, !Hlen by done. cbn [negb Nat.eqb Nat.add].
  rewrite take_app_length', drop_app_length' by by rewrite Hlen.
  by rewrite !scalar_bytes_roundtrip.
Qed.

(** The signature and the key it is made with. *)
Lemma sign_spec msg sk k :
  canonical5 msg → scalar_ok sk → scalar_ok k →
  ∃ r s e, schnorr_sign_with_k msg sk k = Some (mkSig s e) ∧
    r ⊫ gencode (limbs_val k • G) ∧ challenge r msg = Some e ∧ scalar_ok s ∧ scalar_ok e ∧
    limbs_val s = (limbs_val k - limbs_val e * limbs_val sk) mod ORDER.
Proof.
  intros Hm Hsk Hk. unfold schnorr_sign_with_k. pose proof (base_mul_encode k Hk) as Hr.
  generalize dependent (ECgFp5Point.encode (ECgFp5Point.mul ECgFp5Point.generator k)). intros r Hr.
  destruct (challenge_ok r msg (rep5_canonical _ _ Hr) Hm) as (e & He & Hok). rewrite He.
  destruct (scalar_mul_spec e sk Hok Hsk) as [Hm1 Hm2].
  destruct (scalar_sub_spec k _ Hk Hm1) as [Hs1 Hs2].
  exists r. do 2 eexists. split; [reflexivity|]. split_and!; [done..|].
  rewrite Hs2, Hm2. apply Zminus_mod_idemp_r.
Qed.

(** What verification computes. *)
Lemma verify_spec pk msg sig w :
  pk ⊫ w → canonical5 msg → limbs_ok 5 (sig_s sig) → limbs_ok 5 (sig_e sig) →
  match WeierstrassPoint.decode_fp5 pk with
  | None => verify_signature pk msg sig = Some false ∧ ∀ P, gencode P ≠ w
  | Some _ =>
      ∃ P r e_v, gencode P = w ∧
        r ⊫ gencode (gadd (limbs_val (sig_s sig) • G) (limbs_val (sig_e sig) • P)) ∧
        challenge r msg = Some e_v ∧ verify_signature pk msg sig = Some (bool_decide (e_v = sig_e sig))
  end.
Proof.
  intros Hpk Hm [_ Hs] [_ He]. unfold verify_signature. pose proof (decode_fp5_spec pk w Hpk) as Hd.
  destruct (WeierstrassPoint.decode_fp5 pk) as [pt|]; [|done]. destruct Hd as (P & HP & Hw).
  pose proof (wencode_rep _ _ (wmul_add2_rep _ _ _ _ _ _ wgenerator_rep HP Hs He)) as Hr. cbv zeta.
  generalize dependent (WeierstrassPoint.encode
    (WeierstrassPoint.mul_add2 WeierstrassPoint.generator pt (sig_s sig) (sig_e sig))). intros r Hr.
  destruct (challenge_ok r msg (rep5_canonical _ _ Hr) Hm) as (e & E & _).
  exists P, r, e. rewrite E. split; [exact Hw|]. split; [exact Hr|]. split; reflexivity.
Qed.

(** C1: Signatures verify.  For every message, private key and nonce the signer returns
    a signature of two reduced scalars that survives the 80-byte wire format and
    that verification accepts under the public key of the private key. *)
Theorem signature_verifies hashed_msg sk k :
  canonical5 hashed_msg → scalar_ok sk → scalar_ok k →
  ∃ sig, schnorr_sign_with_k hashed_msg sk k = Some sig ∧
    Sig.from_bytes (Sig.to_bytes sig) = Some sig ∧
    verify_signature (schnorr_pk_from_sk sk) hashed_msg sig = Some true.
Proof.
  intros Hm Hsk Hk. destruct (sign_spec hashed_msg sk k Hm Hsk Hk) as (r & s & e & Hsig & Hr & He & Hs & Hok & Hv).
  exists (mkSig s e). split; [exact Hsig|]. split; [by apply signature_bytes|].
  pose proof (base_mul_encode sk Hsk) as Hpk.
  pose proof (verify_spec _ hashed_msg (mkSig s e) _ Hpk Hm (proj1 Hs) (proj1 Hok)) as H.
  unfold schnorr_pk_from_sk. destruct (WeierstrassPoint.decode_fp5 _).
  - destruct H as (P & r' & e' & HP & Hr' & He' & ->). apply gencode_inj in HP as ->.
    cbn [sig_s sig_e] in *. rewrite <- gmul_mul, <- gmul_add in Hr'.
    replace r' with r in He'; [rewrite He in He'; injection He' as ->; by rewrite bool_decide_true|].
    eapply rep5_unique; [exact Hr|]. eapply rep5_eq; [exact Hr'|]. f_equal.
    rewrite <- (gmul_mod ORDER (limbs_val k) G order_G) by done.
    rewrite <- (gmul_mod ORDER (_ + _) G order_G) by done. f_equal.
    rewrite Hv, Zplus_mod_idemp_l. f_equal. lia.
  - destruct H as [_ H]. by destruct (H (limbs_val sk • G)).
Qed.

Lemma signature_verifies_witness :
  ∃ sig, schnorr_sign_with_k (small 7) [5; 0; 0; 0; 0] [9; 0; 0; 0; 1] = Some sig ∧
    Sig.from_bytes (Sig.to_bytes sig) = Some sig ∧
    verify_signature (schnorr_pk_from_sk [5; 0; 0; 0; 0]) (small 7) sig = Some true.
Proof.
  apply signature_verifies.
  - apply (rep5_canonical _ (f5 7)), rep_small5. lia.
  - split; [|reflexivity]. split; [reflexivity|]. by repeat constructor.
  - split; [|reflexivity]. split; [reflexivity|]. by repeat constructor.
Defined.

(** C9: What verification accepts.  Verification always returns; it accepts exactly when
    the public key encodes a group element P and the challenge of the encoded
    point s * G + e * P and the message is e.  In particular an accepted e is
    reduced, while s only matters modulo the group order. *)
Theorem verify_exact pub_key hashed_msg sig :
  canonical5 pub_key → canonical5 hashed_msg → limbs_ok 5 (sig_s sig) → limbs_ok 5 (sig_e sig) →
  (∃ ok, verify_signature pub_key hashed_msg sig = Some ok) ∧
  (verify_signature pub_key hashed_msg sig = Some true ↔
   ∃ P r, pub_key ⊫ gencode P ∧
     r ⊫ gencode (gadd (limbs_val (sig_s sig) • G) (limbs_val (sig_e sig) • P)) ∧
     challenge r hashed_msg = Some (sig_e sig)) ∧
  (verify_signature pub_key hashed_msg sig = Some true → scalar_ok (sig_e sig)).
Proof.
  intros Hpk%canonical5_gl5 Hm Hs He.
  pose proof (verify_spec pub_key hashed_msg sig _ Hpk Hm Hs He) as H.
  destruct (WeierstrassPoint.decode_fp5 pub_key).
  - destruct H as (P & r & e' & HP & Hr & Hc & ->). split; [by eexists|]. split; [split|].
    + intros [= ->%bool_decide_eq_true]. exists P, r. rewrite HP.
      split; [exact Hpk|]. split; [exact Hr|exact Hc].
    + intros (P' & r' & HP' & Hr' & Hc'). rewrite (rep5_gl5 _ _ HP') in HP. apply gencode_inj in HP as ->.
      rewrite (rep5_unique _ _ _ Hr Hr'), Hc' in Hc. injection Hc as <-. by rewrite bool_decide_true.
    + intros [= <-%bool_decide_eq_true]. destruct (challenge_ok r hashed_msg) as (e & He' & Hok);
        [by eapply rep5_canonical|done|]. rewrite Hc in He'. by injection He' as ->.
  - destruct H as [-> H]. split; [by eexists|]. split; [|done]. split; [done|].
    intros (P & r & HP & _). destruct (H P). symmetry. by apply rep5_gl5.
Qed.

Lemma verify_exact_witness :
  ∃ ok, verify_signature GFp5.ONE GFp5.ZERO (mkSig [0; 0; 0; 0; 0] [1; 0; 0; 0; 0]) = Some ok.
Proof.
  refine (proj1 (verify_exact _ _ _ _ _ _ _)).
  - eapply rep5_canonical, rep5_ONE.
  - eapply rep5_canonical, rep5_ZERO.
  - split; [reflexivity|]. by repeat constructor.
  - split; [reflexivity|]. by repeat constructor.
Defined.
