(* ===== verification/Position.v ===== *)
(** * Positions and reservations (hexagent-account/src/account/position.rs)

    [PositionManager] keeps the fills of one strategy as a ledger of trades keyed by
    trade id, and the in-flight orders that lock cash or inventory.  Balances and
    quantities are folds over the ledger; a live owner keeps an index of compensated
    sums that every mutation updates in step.

    A [BTreeMap] is a [gmap] iterated in key order.  Log lines are not modelled, nor
    the [error] argument that only they use; error strings are constructors of
    [PositionError].

    The theorems are in [PositionLedger], [PositionHistory] and [PositionIndex]. *)

From S2P Require Import Prelude F64 Types BTree.

Record Position := mkPosition {
  pos_quantity : f64;
  pos_avg_price : f64;
  pos_current_value : f64 }.

Inductive TradeStatus := TMatched | TMined | TConfirmed | TFailed.

#[export] Instance TradeStatus_eq_dec : EqDecision TradeStatus.
Proof. solve_decision. Defined.

(** [s.trim_start_matches(prefix)]: the prefix is removed while it is there. *)
Fixpoint trim_start_matches (fuel : nat) (prefix s : string) : string :=
  match fuel with
  | O => s
  | S fuel =>
      if String.prefix prefix s
      then trim_start_matches fuel prefix
             (String.substring (String.length prefix) (String.length s - String.length prefix) s)
      else s
  end.

Definition ascii_upper (c : Ascii.ascii) : Ascii.ascii :=
  let n := byte_at c in
  if (97 <=? n) && (n <=? 122) then Ascii.ascii_of_N (Z.to_N (n - 32)) else c.

Fixpoint to_ascii_uppercase (s : string) : string :=
  match s with
  | EmptyString => EmptyString
  | String c s => String (ascii_upper c) (to_ascii_uppercase s)
  end.

Definition from_polymarket_str (status : string) : option TradeStatus :=
  let s := to_ascii_uppercase
             (trim_start_matches (String.length status) "TRADE_STATUS_"%string status) in
  if String.eqb s "MATCHED"%string || String.eqb s "MATCHED_NOT_BROADCASTED"%string then Some TMatched
  else if String.eqb s "MINED"%string then Some TMined
  else if String.eqb s "CONFIRMED"%string then Some TConfirmed
  else if String.eqb s "FAILED"%string then Some TFailed
  else None.

Definition is_terminal (self : TradeStatus) : bool :=
  match self with TConfirmed | TFailed => true | _ => false end.

Definition rank (self : TradeStatus) : Z :=
  match self with TMatched => 1 | TMined => 2 | TFailed => 3 | TConfirmed => 4 end.

Definition from_order_status (status : OrderStatus) : option TradeStatus :=
  match status with
  | Filled => Some TConfirmed
  | PartiallyFilled => Some TMatched
  | Failed => Some TFailed
  | _ => None
  end.

Record UpsertResult := mkUpsert { applied : bool; accumulator_sign : Z }.

Definition NOOP : UpsertResult := mkUpsert false 0.
Definition upsert_add : UpsertResult := mkUpsert true 1.
Definition upsert_reverse : UpsertResult := mkUpsert true (-1).
Definition update_only : UpsertResult := mkUpsert true 0.

Record TradeRecord := mkTradeRecord {
  tr_trade_id : string;
  tr_asset_id : string;
  tr_side : Side;
  tr_size : f64;
  tr_price : f64;
  tr_status : TradeStatus;
  tr_is_maker : bool;
  tr_usdc_fee : f64;
  tr_shares_fee : f64;
  tr_fee_settlement : FeeSettlement;
  tr_fee_attributed : bool }.

Record TradeFeeAttribution := mkAttribution {
  fa_applied : bool;
  fa_cash_delta : f64;
  fa_quantity_delta : f64 }.

Record PendingOrder := mkPendingOrder {
  po_client_order_id : string;
  po_symbol : string;
  po_side : Side;
  po_price : f64;
  po_original_quantity : f64;
  po_remaining_quantity : f64;
  po_cash_fee_per_share : f64 }.

Definition valid_pending_order_fields (client_order_id symbol : string) (price quantity : f64) : bool :=
  negb (blank client_order_id) && negb (blank symbol)
  && is_finite price && (price >? f64_zero)%f64
  && is_finite quantity && (quantity >? f64_zero)%f64.

(** ** Compensated sums *)

Record TradeSum := mkTradeSum { ts_sum : f64; ts_correction : f64 }.

Definition default_sum : TradeSum := mkTradeSum f64_zero f64_zero.

Definition sum_add (self : TradeSum) (value : f64) : TradeSum :=
  let next := (ts_sum self + value)%f64 in
  let correction :=
    (ts_correction self +
     (if f64_abs (ts_sum self) >=? f64_abs value
      then (ts_sum self - next) + value
      else (value - next) + ts_sum self))%f64 in
  mkTradeSum next correction.

Definition sum_value (self : TradeSum) : f64 := (ts_sum self + ts_correction self)%f64.

Record SymbolTradeTotals := mkTotals {
  st_quantity : TradeSum;
  st_available_quantity : TradeSum;
  st_locked_sell_quantity : TradeSum }.

Definition default_totals : SymbolTradeTotals := mkTotals default_sum default_sum default_sum.

Record IncrementalQueries := mkQueries {
  iq_cash : TradeSum;
  iq_available_cash : TradeSum;
  iq_locked_buy_cash : TradeSum;
  iq_symbols : gmap string SymbolTradeTotals }.

Definition default_queries : IncrementalQueries :=
  mkQueries default_sum default_sum default_sum ∅.

(** The entry of a symbol, [or_default]. *)
Definition totals_of (q : IncrementalQueries) (symbol : string) : SymbolTradeTotals :=
  default default_totals (iq_symbols q !! symbol).

Definition set_totals (q : IncrementalQueries) (symbol : string) (t : SymbolTradeTotals) : IncrementalQueries :=
  q <| iq_symbols := <[symbol := t]> (iq_symbols q) |>.

Definition reservation (self : IncrementalQueries) (order : PendingOrder) (sign : f64) : IncrementalQueries :=
  match po_side order with
  | Buy =>
      self <| iq_locked_buy_cash := sum_add (iq_locked_buy_cash self)
        (sign * (po_price order + po_cash_fee_per_share order) * po_remaining_quantity order)%f64 |>
  | Sell =>
      let totals := totals_of self (po_symbol order) in
      set_totals self (po_symbol order)
        (totals <| st_locked_sell_quantity := sum_add (st_locked_sell_quantity totals)
          (sign * po_remaining_quantity order)%f64 |>)
  end.

Definition live (status : option TradeStatus) : f64 :=
  match status with
  | Some s => if bool_decide (s = TFailed) then f64_zero else f64_one
  | None => f64_zero
  end.

Definition confirmed (status : option TradeStatus) : f64 :=
  if bool_decide (status = Some TConfirmed) then f64_one else f64_zero.

(** What a trade moves: cash and quantity. *)
Definition trade_moves (trade : TradeRecord) : f64 * f64 :=
  match tr_side trade with
  | Buy => ((f64_neg (tr_size trade) * tr_price trade - tr_usdc_fee trade)%f64,
            (tr_size trade - tr_shares_fee trade)%f64)
  | Sell => ((tr_size trade * tr_price trade - tr_usdc_fee trade)%f64, f64_neg (tr_size trade))
  end.

Definition transition (self : IncrementalQueries) (trade : TradeRecord) (previous : option TradeStatus) : IncrementalQueries :=
  let live_delta := (live (Some (tr_status trade)) - live previous)%f64 in
  let confirmed_delta := (confirmed (Some (tr_status trade)) - confirmed previous)%f64 in
  if f64_eq live_delta f64_zero && f64_eq confirmed_delta f64_zero then self
  else
    let '(cash, quantity) := trade_moves trade in
    let totals := totals_of self (tr_asset_id trade) in
    let totals := mkTotals
      (sum_add (st_quantity totals) (quantity * live_delta)%f64)
      (sum_add (st_available_quantity totals)
        (quantity * match tr_side trade with Buy => confirmed_delta | Sell => live_delta end)%f64)
      (st_locked_sell_quantity totals) in
    mkQueries
      (sum_add (iq_cash self) (cash * live_delta)%f64)
      (sum_add (iq_available_cash self)
        (cash * match tr_side trade with Buy => live_delta | Sell => confirmed_delta end)%f64)
      (iq_locked_buy_cash self)
      (<[tr_asset_id trade := totals]> (iq_symbols self)).

(** ** The manager *)

Record PositionManager := mkPM {
  pm_init_balance : f64;
  pm_init_positions : gmap string f64;
  pm_trades : gmap string TradeRecord;
  pm_pending_orders : gmap string PendingOrder;
  pm_synthetic_counter : Z;
  pm_maker_volume : f64;
  pm_taker_volume : f64;
  pm_queries : option IncrementalQueries }.

(** The index of the manager, updated when there is one. *)
Definition with_queries (self : PositionManager) (f : IncrementalQueries → IncrementalQueries) : PositionManager :=
  self <| pm_queries := f <$> pm_queries self |>.

Definition enable_incremental_queries (self : PositionManager) : PositionManager :=
  match pm_queries self with
  | Some _ => self
  | None =>
      let queries := default_queries <| iq_symbols := (λ _, default_totals) <$> pm_init_positions self |> in
      let queries := fold_left (λ q t, transition q t None) (btree_values (pm_trades self)) queries in
      let queries := fold_left (λ q o, reservation q o f64_one) (btree_values (pm_pending_orders self)) queries in
      self <| pm_queries := Some queries |>
  end.

Definition with_initial_quantities (initial : gmap string f64) (balance : f64) : PositionManager :=
  mkPM balance initial ∅ ∅ 0 f64_zero f64_zero None.

Definition new : PositionManager := mkPM f64_zero ∅ ∅ ∅ 0 f64_zero f64_zero None.

Definition with_positions (positions : gmap string Position) (balance : f64) : PositionManager :=
  with_initial_quantities (pos_quantity <$> positions) balance.

(** ** Restored trades *)

Record TradeOwnership := mkOwnership {
  ow_order_slot : Z;
  ow_account_id : string;
  ow_instance_id : string;
  ow_trade_key : string;
  ow_client_order_id : string;
  ow_order_id : string;
  ow_token_id : string;
  ow_side : Side;
  ow_quantity : f64;
  ow_price : f64;
  ow_status : string }.

Record RestoredTrade := mkRestored {
  rt_fee_attributed : bool;
  rt_fee_settlement : FeeSettlement;
  rt_ownership : TradeOwnership;
  rt_booked : bool;
  rt_usdc_fee : f64;
  rt_shares_fee : f64;
  rt_virtual_fee_booked : bool;
  rt_is_maker : bool;
  rt_match_time_secs : Z;
  rt_ledger_generation : Z }.

Definition e8 : f64 := f64_dec 1 8.
Definition e10 : f64 := f64_dec 1 10.

(** [!x.is_finite() || x <= 0.0] and [!x.is_finite() || x < 0.0] *)
Definition not_positive (x : f64) : bool := negb (is_finite x) || (x <=? f64_zero)%f64.
Definition not_nonneg (x : f64) : bool := negb (is_finite x) || (x <? f64_zero)%f64.

Definition bad_price (price : f64) : bool := not_positive price || (price >? f64_one + e8)%f64.

Definition record_of_row (row : RestoredTrade) (status : TradeStatus) : TradeRecord :=
  let o := rt_ownership row in
  mkTradeRecord (ow_trade_key o) (ow_token_id o) (ow_side o) (ow_quantity o) (ow_price o) status
    (rt_is_maker row) (rt_usdc_fee row) (rt_shares_fee row) (rt_fee_settlement row)
    (rt_fee_attributed row).

(** [if is_maker { maker_volume += notional } else { taker_volume += notional }] *)
Definition add_volume (self : PositionManager) (is_maker : bool) (notional : f64) : PositionManager :=
  if is_maker then self <| pm_maker_volume := (pm_maker_volume self + notional)%f64 |>
  else self <| pm_taker_volume := (pm_taker_volume self + notional)%f64 |>.

Definition restore_row (manager : PositionManager) (row : RestoredTrade) : PositionManager :=
  let o := rt_ownership row in
  match from_polymarket_str (ow_status o) with
  | None => manager
  | Some status =>
      if blank (ow_trade_key o) || blank (ow_token_id o)
         || not_positive (ow_quantity o) || bad_price (ow_price o)
         || not_nonneg (rt_usdc_fee row) || not_nonneg (rt_shares_fee row)
      then manager
      else
        let manager :=
          if rt_booked row && bool_decide (status ≠ TFailed) then
            let cash_delta := match ow_side o with
              | Buy => (f64_neg (ow_quantity o) * ow_price o - rt_usdc_fee row)%f64
              | Sell => (ow_quantity o * ow_price o - rt_usdc_fee row)%f64
              end in
            let position_delta := match ow_side o with
              | Buy => (ow_quantity o - rt_shares_fee row)%f64
              | Sell => f64_neg (ow_quantity o)
              end in
            let manager := manager
              <| pm_init_balance := (pm_init_balance manager - cash_delta)%f64 |>
              <| pm_init_positions :=
                   <[ow_token_id o :=
                      (default f64_zero (pm_init_positions manager !! ow_token_id o) - position_delta)%f64]>
                     (pm_init_positions manager) |> in
            add_volume manager (rt_is_maker row) (ow_quantity o * ow_price o)%f64
          else manager in
        manager <| pm_trades := <[ow_trade_key o := record_of_row row status]> (pm_trades manager) |>
  end.

Definition with_positions_and_restored_trades (positions : gmap string Position) (balance : f64)
    (rows : list RestoredTrade) : PositionManager :=
  fold_left restore_row rows (with_positions positions balance).

(** ** Snapshots *)

Record PositionManagerSnapshot := mkSnapshot {
  sn_version : Z;
  sn_init_balance : f64;
  sn_init_positions : gmap string f64;
  sn_trades : gmap string TradeRecord;
  sn_pending_orders : gmap string PendingOrder;
  sn_synthetic_counter : Z;
  sn_maker_volume : f64;
  sn_taker_volume : f64 }.

Inductive PositionError :=
  | UnsupportedVersion (version : Z)
  | InvalidBalanceOrVolume
  | InvalidInitialPosition
  | InvalidTrade (trade_id : string)
  | FeeInWrongRole (trade_id : string)
  | FeesWithoutAttribution (trade_id : string)
  | VolumeDisagrees
  | InvalidPendingOrder (client_order_id : string)
  | InvalidBaseline
  | InvalidBaselinePosition
  | InvalidDurableStatus (trade_key status : string)
  | CannotRebuild (trade_key : string)
  | NotAdmitted (trade_key : string)
  | FeeNeedsTrade
  | FeeConflict
  | FeeReprice
  | FeeMissingIndex.

Definition snapshot (self : PositionManager) : PositionManagerSnapshot :=
  mkSnapshot 1 (pm_init_balance self) (pm_init_positions self) (pm_trades self)
    (pm_pending_orders self) (pm_synthetic_counter self) (pm_maker_volume self)
    (pm_taker_volume self).

(** [for (symbol, quantity) in &init_positions]: every entry is looked at and the error
    does not depend on which is met first. *)
Definition bad_initial_positions (init_positions : gmap string f64) : bool :=
  existsb (λ '(symbol, quantity), blank symbol || negb (is_finite quantity)) (map_to_list init_positions).

Definition check_trade (trade_id : string) (trade : TradeRecord) : option PositionError :=
  if blank trade_id || negb (String.eqb (tr_trade_id trade) trade_id)
     || blank (tr_asset_id trade)
     || not_positive (tr_size trade) || bad_price (tr_price trade)
     || not_nonneg (tr_usdc_fee trade) || not_nonneg (tr_shares_fee trade)
  then Some (InvalidTrade trade_id)
  else
    let fee_tolerance := f64_max e10 (f64_abs (tr_size trade) * e8)%f64 in
    if negb (accepts_fee_amounts (tr_fee_settlement trade) (tr_side trade) (tr_is_maker trade)
               (tr_usdc_fee trade) (tr_shares_fee trade) fee_tolerance)
    then Some (FeeInWrongRole trade_id)
    else if negb (tr_fee_attributed trade) && bool_decide (tr_status trade ≠ TFailed)
            && ((tr_usdc_fee trade >? fee_tolerance)%f64 || (tr_shares_fee trade >? fee_tolerance)%f64)
    then Some (FeesWithoutAttribution trade_id)
    else None.

(** One turn of the loop over the trades: the expected maker and taker volumes. *)
Definition expect_volume (volumes : f64 * f64) (trade : TradeRecord) : f64 * f64 :=
  if bool_decide (tr_status trade ≠ TFailed) then
    let notional := (tr_size trade * tr_price trade)%f64 in
    if tr_is_maker trade then ((volumes.1 + notional)%f64, volumes.2)
    else (volumes.1, (volumes.2 + notional)%f64)
  else volumes.

Fixpoint check_trades (trades : list (string * TradeRecord)) (volumes : f64 * f64) : PositionError + (f64 * f64) :=
  match trades with
  | [] => inr volumes
  | (trade_id, trade) :: trades =>
      match check_trade trade_id trade with
      | Some e => inl e
      | None => check_trades trades (expect_volume volumes trade)
      end
  end.

Definition volume_tolerance (stored expected : f64) : f64 :=
  f64_max e8 (f64_max (f64_abs stored) (f64_abs expected) * e10)%f64.

Definition volume_off (stored expected : f64) : bool :=
  (f64_abs (stored - expected) >? volume_tolerance stored expected)%f64.

Definition bad_remaining (pending : PendingOrder) : bool :=
  not_nonneg (po_remaining_quantity pending)
  || (po_remaining_quantity pending >? po_original_quantity pending + e8)%f64.

Definition bad_pending_fields (client_order_id : string) (pending : PendingOrder) : bool :=
  negb (String.eqb (po_client_order_id pending) client_order_id)
  || negb (valid_pending_order_fields client_order_id (po_symbol pending) (po_price pending)
             (po_original_quantity pending)).

Definition bad_cash_fee (side : Side) (price cash_fee_per_share : f64) : bool :=
  not_nonneg cash_fee_per_share
  || (bool_decide (side = Sell) && negb (f64_eq cash_fee_per_share f64_zero))
  || negb (is_finite (price + cash_fee_per_share)%f64).

Definition bad_pending (client_order_id : string) (pending : PendingOrder) : bool :=
  bad_pending_fields client_order_id pending
  || bad_cash_fee (po_side pending) (po_price pending) (po_cash_fee_per_share pending)
  || bad_remaining pending.

(** The first pending order, in key order, that the test rejects. *)
Fixpoint first_bad (bad : string → PendingOrder → bool) (pending : list (string * PendingOrder)) : option string :=
  match pending with
  | [] => None
  | (id, p) :: pending => if bad id p then Some id else first_bad bad pending
  end.

Definition from_snapshot (s : PositionManagerSnapshot) : PositionError + PositionManager :=
  if negb (sn_version s =? 1) then inl (UnsupportedVersion (sn_version s))
  else if negb (is_finite (sn_init_balance s)) || not_nonneg (sn_maker_volume s)
          || not_nonneg (sn_taker_volume s)
  then inl InvalidBalanceOrVolume
  else if bad_initial_positions (sn_init_positions s) then inl InvalidInitialPosition
  else
    match check_trades (btree_entries (sn_trades s)) (f64_zero, f64_zero) with
    | inl e => inl e
    | inr (expected_maker_volume, expected_taker_volume) =>
        if volume_off (sn_maker_volume s) expected_maker_volume
           || volume_off (sn_taker_volume s) expected_taker_volume
        then inl VolumeDisagrees
        else match first_bad bad_pending (btree_entries (sn_pending_orders s)) with
             | Some id => inl (InvalidPendingOrder id)
             | None =>
                 inr (mkPM (sn_init_balance s) (sn_init_positions s) (sn_trades s)
                        (sn_pending_orders s) (sn_synthetic_counter s) (sn_maker_volume s)
                        (sn_taker_volume s) None)
             end
    end.

(** ** Ledger mutations *)

(** The checks on the arguments of a trade. *)
Definition bad_upsert (trade_id asset_id : string) (side : Side) (size price : f64) (is_maker : bool)
    (usdc_fee shares_fee : f64) (fee_settlement : FeeSettlement) : bool :=
  blank trade_id || blank asset_id
  || not_positive size || bad_price price
  || not_nonneg usdc_fee || not_nonneg shares_fee
  || negb (accepts_fee_amounts fee_settlement side is_maker usdc_fee shares_fee
             (f64_max e10 (f64_abs size * e8)%f64)).

(** The recorded trade and the update disagree on what was traded. *)
Definition conflicting (existing : TradeRecord) (asset_id : string) (side : Side) (size price : f64)
    (is_maker : bool) (usdc_fee shares_fee : f64) (fee_settlement : FeeSettlement) : bool :=
  let size_tolerance := f64_max e8 (f64_abs (tr_size existing) * e8)%f64 in
  let price_tolerance := f64_max e10 (f64_abs (tr_price existing) * e8)%f64 in
  let usdc_fee_tolerance := f64_max e10 (f64_abs (tr_usdc_fee existing) * e8)%f64 in
  let shares_fee_tolerance := f64_max e10 (f64_abs (tr_shares_fee existing) * e8)%f64 in
  negb (String.eqb (tr_asset_id existing) asset_id)
  || negb (bool_decide (tr_side existing = side))
  || negb (Bool.eqb (tr_is_maker existing) is_maker)
  || negb (bool_decide (tr_fee_settlement existing = fee_settlement))
  || (f64_abs (tr_size existing - size) >? size_tolerance)%f64
  || (f64_abs (tr_price existing - price) >? price_tolerance)%f64
  || (f64_abs (tr_usdc_fee existing - usdc_fee) >? usdc_fee_tolerance)%f64
  || (f64_abs (tr_shares_fee existing - shares_fee) >? shares_fee_tolerance)%f64.

(** [None] where the source returns [NOOP] early. *)
Definition lifecycle (prev_status : option TradeStatus) (status : TradeStatus) : option UpsertResult :=
  match prev_status with
  | None => Some (if bool_decide (status = TFailed) then update_only else upsert_add)
  | Some prev =>
      if bool_decide (prev = TFailed) && bool_decide (status = TConfirmed) then Some upsert_add
      else if is_terminal prev then None
      else if rank status <=? rank prev then None
      else Some (if bool_decide (status = TFailed) then upsert_reverse else update_only)
  end.

Definition upsert_trade_inner (self : PositionManager) (trade_id asset_id : string) (side : Side)
    (size price : f64) (status : TradeStatus) (is_maker : bool) (usdc_fee shares_fee : f64)
    (fee_settlement : FeeSettlement) : PositionManager * UpsertResult :=
  if bad_upsert trade_id asset_id side size price is_maker usdc_fee shares_fee fee_settlement
  then (self, NOOP)
  else
    let existing := pm_trades self !! trade_id in
    if match existing with
       | Some e => conflicting e asset_id side size price is_maker usdc_fee shares_fee fee_settlement
       | None => false
       end
    then (self, NOOP)
    else
      let prev_status := tr_status <$> existing in
      match lifecycle prev_status status with
      | None => (self, NOOP)
      | Some outcome =>
          let trade := match existing with
            | Some e => e <| tr_status := status |>
            | None => mkTradeRecord trade_id asset_id side size price status is_maker usdc_fee
                        shares_fee fee_settlement true
            end in
          let self := with_queries self (λ q, transition q trade prev_status) in
          let self := self <| pm_trades := <[trade_id := trade]> (pm_trades self) |> in
          let self :=
            if negb (accumulator_sign outcome =? 0)
            then add_volume self is_maker (size * price * f64_of_Z (accumulator_sign outcome))%f64
            else self in
          (self, outcome)
      end.

Definition upsert_trade_with_fee_settlement (self : PositionManager) (trade_id asset_id : string)
    (side : Side) (size price : f64) (status : TradeStatus) (is_maker : bool)
    (usdc_fee shares_fee : f64) (fee_settlement : FeeSettlement) : PositionManager * UpsertResult :=
  upsert_trade_inner self trade_id asset_id side size price status is_maker usdc_fee shares_fee
    fee_settlement.

Definition upsert_trade (self : PositionManager) (trade_id asset_id : string) (side : Side)
    (size price : f64) (status : TradeStatus) (is_maker : bool) (usdc_fee shares_fee : f64)
    : PositionManager * UpsertResult :=
  upsert_trade_with_fee_settlement self trade_id asset_id side size price status is_maker usdc_fee
    shares_fee LegacyV1.

Definition attribute_restored_trade_fee (self : PositionManager) (row : RestoredTrade)
    : PositionError + (PositionManager * TradeFeeAttribution) :=
  let identity := rt_ownership row in
  match pm_trades self !! ow_trade_key identity with
  | None => inl FeeNeedsTrade
  | Some trade =>
      let tolerance := f64_max e10 (f64_abs (tr_size trade) * e8)%f64 in
      if negb (rt_fee_attributed row)
         || negb (String.eqb (tr_asset_id trade) (ow_token_id identity))
         || negb (bool_decide (tr_side trade = ow_side identity))
         || negb (Bool.eqb (tr_is_maker trade) (rt_is_maker row))
         || negb (is_finite (ow_quantity identity)) || negb (is_finite (ow_price identity))
         || (f64_abs (tr_size trade - ow_quantity identity) >? tolerance)%f64
         || (f64_abs (tr_price trade - ow_price identity)
               >? f64_max e10 (f64_abs (tr_price trade) * e8))%f64
         || negb (accepts_fee_amounts (rt_fee_settlement row) (ow_side identity) (rt_is_maker row)
                    (rt_usdc_fee row) (rt_shares_fee row) tolerance)
      then inl FeeConflict
      else if tr_fee_attributed trade then
        if negb (bool_decide (tr_fee_settlement trade = rt_fee_settlement row))
           || (f64_abs (tr_usdc_fee trade - rt_usdc_fee row) >? tolerance)%f64
           || (f64_abs (tr_shares_fee trade - rt_shares_fee row) >? tolerance)%f64
        then inl FeeReprice
        else inr (self, mkAttribution false f64_zero f64_zero)
      else
        let is_live := bool_decide (tr_status trade ≠ TFailed) in
        let cash_delta := if is_live then (tr_usdc_fee trade - rt_usdc_fee row)%f64 else f64_zero in
        let quantity_delta := if is_live then (tr_shares_fee trade - rt_shares_fee row)%f64 else f64_zero in
        let indexed : PositionError + PositionManager :=
          match is_live, pm_queries self with
          | true, Some queries =>
              match iq_symbols queries !! tr_asset_id trade with
              | None => inl FeeMissingIndex
              | Some totals =>
                  let available_cash :=
                    if bool_decide (tr_side trade = Buy) || bool_decide (tr_status trade = TConfirmed)
                    then sum_add (iq_available_cash queries) cash_delta else iq_available_cash queries in
                  let available_quantity :=
                    if bool_decide (tr_side trade = Sell) || bool_decide (tr_status trade = TConfirmed)
                    then sum_add (st_available_quantity totals) quantity_delta
                    else st_available_quantity totals in
                  inr (self <| pm_queries := Some (mkQueries
                    (sum_add (iq_cash queries) cash_delta) available_cash (iq_locked_buy_cash queries)
                    (<[tr_asset_id trade := mkTotals (sum_add (st_quantity totals) quantity_delta)
                        available_quantity (st_locked_sell_quantity totals)]> (iq_symbols queries))) |>)
              end
          | _, _ => inr self
          end in
        match indexed with
        | inl e => inl e
        | inr self =>
            let trade := trade
              <| tr_usdc_fee := rt_usdc_fee row |> <| tr_shares_fee := rt_shares_fee row |>
              <| tr_fee_settlement := rt_fee_settlement row |> <| tr_fee_attributed := true |> in
            inr (self <| pm_trades := <[ow_trade_key identity := trade]> (pm_trades self) |>,
                 mkAttribution true cash_delta quantity_delta)
        end
  end.

(** ** Reservations *)

Definition remove_pending_order (self : PositionManager) (client_order_id : string) : PositionManager :=
  match pm_pending_orders self !! client_order_id with
  | None => self
  | Some order =>
      with_queries
        (self <| pm_pending_orders := delete client_order_id (pm_pending_orders self) |>)
        (λ q, reservation q order (f64_neg f64_one))
  end.

Definition register_pending_order_with_cash_fee (self : PositionManager) (client_order_id symbol : string)
    (side : Side) (price quantity cash_fee_per_share : f64) : PositionManager :=
  if bad_cash_fee side price cash_fee_per_share then self
  else if negb (valid_pending_order_fields client_order_id symbol price quantity) then self
  else
    let self := remove_pending_order self client_order_id in
    let order := mkPendingOrder client_order_id symbol side price quantity quantity cash_fee_per_share in
    let self := with_queries self (λ q, reservation q order f64_one) in
    self <| pm_pending_orders := <[client_order_id := order]> (pm_pending_orders self) |>.

Definition register_pending_order (self : PositionManager) (client_order_id symbol : string)
    (side : Side) (price quantity : f64) : PositionManager :=
  register_pending_order_with_cash_fee self client_order_id symbol side price quantity f64_zero.

(** The remaining quantity of a pending order is replaced, the index following. *)
Definition set_remaining (self : PositionManager) (client_order_id : string) (po : PendingOrder)
    (remaining : f64) : PositionManager :=
  let self := with_queries self (λ q, reservation q po (f64_neg f64_one)) in
  let po := po <| po_remaining_quantity := remaining |> in
  let self := with_queries self (λ q, reservation q po f64_one) in
  self <| pm_pending_orders := <[client_order_id := po]> (pm_pending_orders self) |>.

Definition apply_private_trade_reservation (self : PositionManager) (client_order_id : string)
    (quantity : f64) (sign : Z) : PositionManager * bool :=
  if String.eqb client_order_id "" || not_positive quantity || negb ((sign =? 1) || (sign =? -1))
  then (self, false)
  else match pm_pending_orders self !! client_order_id with
       | None => (self, false)
       | Some pending =>
           let remaining :=
             if sign =? 1 then f64_max (po_remaining_quantity pending - quantity)%f64 f64_zero
             else f64_min (po_remaining_quantity pending + quantity)%f64 (po_original_quantity pending) in
           (set_remaining self client_order_id pending remaining, true)
       end.

(** [update.filled_quantity <= 0.0 && trade_id empty && order_audit.is_none()] *)
Definition unaudited_fill (update : OrderUpdate) : bool :=
  (ou_filled_quantity update <=? f64_zero)%f64 && negb (has_trade_id update)
  && match ou_order_audit update with None => true | Some _ => false end.

Definition sync_pending_from_update (self : PositionManager) (update : OrderUpdate) : PositionManager :=
  let coid := ou_client_order_id update in
  if String.eqb coid "" then self
  else match ou_status update with
       | PartiallyFilled =>
           match pm_pending_orders self !! coid with
           | None => self
           | Some po =>
               let remaining := f64_max (po_remaining_quantity po - ou_filled_quantity update)%f64 f64_zero in
               let self := set_remaining self coid po remaining in
               if (remaining <=? f64_zero)%f64
               then self <| pm_pending_orders := delete coid (pm_pending_orders self) |>
               else self
           end
       | Filled => if unaudited_fill update then self else remove_pending_order self coid
       | Failed | Cancelled | Rejected => remove_pending_order self coid
       | Accepted =>
           if bool_decide (pm_pending_orders self !! coid = None)
              && valid_pending_order_fields coid (ou_symbol update) (ou_avg_fill_price update)
                   (ou_remaining_quantity update)
           then register_pending_order self coid (ou_symbol update) (ou_side update)
                  (ou_avg_fill_price update) (ou_remaining_quantity update)
           else self
       | _ => self
       end.

Definition synthetic_id (self : PositionManager) (client_order_id : string) : PositionManager * string :=
  let self := self <| pm_synthetic_counter := pm_synthetic_counter self +w 1 |> in
  (self, ("synth-" +:+ client_order_id +:+ "-" +:+ pretty (Z.to_N (pm_synthetic_counter self)))%string).

(** The id of the trade of an update, made up from the counter when it has none. *)
Definition trade_id_of (self : PositionManager) (update : OrderUpdate) : PositionManager * string :=
  match ou_trade_id update with
  | Some id =>
      if negb (String.eqb id "") then (self, id) else synthetic_id self (ou_client_order_id update)
  | None => synthetic_id self (ou_client_order_id update)
  end.

Definition on_order_update (self : PositionManager) (update : OrderUpdate) : PositionManager :=
  match from_order_status (ou_status update) with
  | None => sync_pending_from_update self update
  | Some status =>
      if (ou_filled_quantity update <=? f64_zero)%f64 then sync_pending_from_update self update
      else match ou_liquidity update with
           | None => self
           | Some liquidity =>
               let is_maker := bool_decide (liquidity = Maker) in
               let self := sync_pending_from_update self update in
               let '(self, trade_id) := trade_id_of self update in
               (upsert_trade self trade_id (ou_symbol update) (ou_side update)
                  (ou_filled_quantity update) (ou_avg_fill_price update) status is_maker
                  f64_zero f64_zero).1
           end
  end.

Definition adjust_balance (self : PositionManager) (delta : f64) : PositionManager :=
  self <| pm_init_balance := (pm_init_balance self + delta)%f64 |>.

Definition adjust_quantity (self : PositionManager) (symbol : string) (delta : f64) : PositionManager :=
  let self := with_queries self (λ q,
    match iq_symbols q !! symbol with Some _ => q | None => set_totals q symbol default_totals end) in
  self <| pm_init_positions :=
    <[symbol := (default f64_zero (pm_init_positions self !! symbol) + delta)%f64]> (pm_init_positions self) |>.

(** ** Rebuilding from the durable ledger *)

Definition bad_durable (row : RestoredTrade) (status : TradeStatus) : bool :=
  let o := rt_ownership row in
  blank (ow_trade_key o) || blank (ow_client_order_id o) || blank (ow_token_id o)
  || not_positive (ow_quantity o) || bad_price (ow_price o)
  || not_nonneg (rt_usdc_fee row) || not_nonneg (rt_shares_fee row)
  || (negb (rt_is_maker row) && bool_decide (status ≠ TFailed) && negb (rt_virtual_fee_booked row))
  || (negb (rt_booked row) && bool_decide (status ≠ TFailed)).

Fixpoint rebuild_rows (manager : PositionManager) (booked_by_order : gmap string f64)
    (rows : list RestoredTrade) : PositionError + (PositionManager * gmap string f64) :=
  match rows with
  | [] => inr (manager, booked_by_order)
  | row :: rows =>
      let o := rt_ownership row in
      match from_polymarket_str (ow_status o) with
      | None => inl (InvalidDurableStatus (ow_trade_key o) (ow_status o))
      | Some status =>
          if bad_durable row status then inl (CannotRebuild (ow_trade_key o))
          else
            let '(manager, result) :=
              upsert_trade_inner manager (ow_trade_key o) (ow_token_id o) (ow_side o) (ow_quantity o)
                (ow_price o) status (rt_is_maker row) (rt_usdc_fee row) (rt_shares_fee row)
                (rt_fee_settlement row) in
            if negb (applied result) then inl (NotAdmitted (ow_trade_key o))
            else
              let booked_by_order :=
                if rt_booked row && bool_decide (status ≠ TFailed)
                then <[ow_client_order_id o :=
                        (default f64_zero (booked_by_order !! ow_client_order_id o) + ow_quantity o)%f64]>
                       booked_by_order
                else booked_by_order in
              rebuild_rows manager booked_by_order rows
      end
  end.

Definition rebuild_remaining (booked_by_order : gmap string f64) (pending : PendingOrder) : PendingOrder :=
  let booked := default f64_zero (booked_by_order !! po_client_order_id pending) in
  pending <| po_remaining_quantity :=
    f64_clamp (po_original_quantity pending - booked)%f64 f64_zero (po_original_quantity pending) |>.

Definition rebuild_from_snapshot_baseline (s : PositionManagerSnapshot) (rows : list RestoredTrade)
    : PositionError + PositionManager :=
  if negb (sn_version s =? 1) || negb (is_finite (sn_init_balance s)) then inl InvalidBaseline
  else if bad_initial_positions (sn_init_positions s) then inl InvalidBaselinePosition
  else match first_bad (λ id p, bad_pending_fields id p || bad_remaining p)
               (btree_entries (sn_pending_orders s)) with
       | Some id => inl (InvalidPendingOrder id)
       | None =>
           let manager := mkPM (sn_init_balance s) (sn_init_positions s) ∅ (sn_pending_orders s)
                            (sn_synthetic_counter s) f64_zero f64_zero None in
           match rebuild_rows manager ∅ rows with
           | inl e => inl e
           | inr (manager, booked_by_order) =>
               inr (manager <| pm_pending_orders :=
                      rebuild_remaining booked_by_order <$> pm_pending_orders manager |>)
           end
       end.

(** ** Derived state *)

Definition initial_quantity (self : PositionManager) (symbol : string) : f64 :=
  default f64_zero (pm_init_positions self !! symbol).

Definition balance (self : PositionManager) : f64 :=
  match pm_queries self with
  | Some queries => (pm_init_balance self + sum_value (iq_cash queries))%f64
  | None =>
      fold_left (λ b t,
        if bool_decide (tr_status t = TFailed) then b
        else match tr_side t with
             | Buy => (b - (tr_size t * tr_price t + tr_usdc_fee t))%f64
             | Sell => (b + (tr_size t * tr_price t - tr_usdc_fee t))%f64
             end) (btree_values (pm_trades self)) (pm_init_balance self)
  end.

Definition get_quantity (self : PositionManager) (symbol : string) : f64 :=
  match pm_queries self with
  | Some queries =>
      (initial_quantity self symbol
       + match iq_symbols queries !! symbol with
         | Some totals => sum_value (st_quantity totals)
         | None => f64_zero
         end)%f64
  | None =>
      fold_left (λ q t,
        if bool_decide (tr_status t = TFailed) || negb (String.eqb (tr_asset_id t) symbol) then q
        else match tr_side t with
             | Buy => (q + (tr_size t - tr_shares_fee t))%f64
             | Sell => (q - tr_size t)%f64
             end) (btree_values (pm_trades self)) (initial_quantity self symbol)
  end.

(** Quantity, bought quantity, bought notional, and whether the symbol was met. *)
Definition get_fold (symbol : string) (acc : f64 * f64 * f64 * bool) (t : TradeRecord) : f64 * f64 * f64 * bool :=
  let '(qty, buy_qty, buy_notional, touched) := acc in
  if bool_decide (tr_status t = TFailed) || negb (String.eqb (tr_asset_id t) symbol) then acc
  else match tr_side t with
       | Buy => ((qty + (tr_size t - tr_shares_fee t))%f64, (buy_qty + tr_size t)%f64,
                 (buy_notional + tr_size t * tr_price t)%f64, true)
       | Sell => ((qty - tr_size t)%f64, buy_qty, buy_notional, true)
       end.

Definition get (self : PositionManager) (symbol : string) : option Position :=
  let '(qty, buy_qty, buy_notional, touched) :=
    fold_left (get_fold symbol) (btree_values (pm_trades self))
      (initial_quantity self symbol, f64_zero, f64_zero,
       match pm_init_positions self !! symbol with Some _ => true | None => false end) in
  if negb touched then None
  else
    let avg_price := if (buy_qty >? f64_zero)%f64 then (buy_notional / buy_qty)%f64 else f64_zero in
    Some (mkPosition qty avg_price f64_zero).

Definition inventory (self : PositionManager) (outcome_id : string) : f64 :=
  f64_max (get_quantity self outcome_id) f64_zero.

Definition locked_buy_cost (self : PositionManager) : f64 :=
  match pm_queries self with
  | Some queries => f64_max (sum_value (iq_locked_buy_cash queries)) f64_zero
  | None =>
      f64_sum (map (λ o, (po_price o + po_cash_fee_per_share o) * po_remaining_quantity o)%f64
        (List.filter (λ o, bool_decide (po_side o = Buy)) (btree_values (pm_pending_orders self))))
  end.

Definition locked_sell_qty (self : PositionManager) (symbol : string) : f64 :=
  match pm_queries self with
  | Some queries =>
      match iq_symbols queries !! symbol with
      | Some totals => f64_max (sum_value (st_locked_sell_quantity totals)) f64_zero
      | None => f64_zero
      end
  | None =>
      f64_sum (map po_remaining_quantity
        (List.filter (λ o, bool_decide (po_side o = Sell) && String.eqb (po_symbol o) symbol)
           (btree_values (pm_pending_orders self))))
  end.

Definition available_cash (self : PositionManager) : f64 :=
  match pm_queries self with
  | Some queries =>
      f64_max (pm_init_balance self + sum_value (iq_available_cash queries) - locked_buy_cost self)%f64
        f64_zero
  | None =>
      let b := fold_left (λ b t,
        if bool_decide (tr_status t = TFailed) then b
        else match tr_side t with
             | Buy => (b - (tr_size t * tr_price t + tr_usdc_fee t))%f64
             | Sell => if bool_decide (tr_status t = TConfirmed)
                       then (b + (tr_size t * tr_price t - tr_usdc_fee t))%f64 else b
             end) (btree_values (pm_trades self)) (pm_init_balance self) in
      f64_max (b - locked_buy_cost self)%f64 f64_zero
  end.

Definition available_inventory (self : PositionManager) (outcome_id : string) : f64 :=
  match pm_queries self with
  | Some queries =>
      f64_max (initial_quantity self outcome_id
        + match iq_symbols queries !! outcome_id with
          | Some totals => sum_value (st_available_quantity totals)
          | None => f64_zero
          end - locked_sell_qty self outcome_id)%f64 f64_zero
  | None =>
      let q := fold_left (λ q t,
        if bool_decide (tr_status t = TFailed) || negb (String.eqb (tr_asset_id t) outcome_id) then q
        else match tr_side t with
             | Buy => if bool_decide (tr_status t = TConfirmed)
                      then (q + (tr_size t - tr_shares_fee t))%f64 else q
             | Sell => (q - tr_size t)%f64
             end) (btree_values (pm_trades self)) (initial_quantity self outcome_id) in
      f64_max (q - locked_sell_qty self outcome_id)%f64 f64_zero
  end.

Definition position_symbols (self : PositionManager) : gset string :=
  dom (pm_init_positions self)
  ∪ list_to_set (map tr_asset_id
      (List.filter (λ t, negb (bool_decide (tr_status t = TFailed))) (btree_values (pm_trades self)))).

Definition positions (self : PositionManager) : gmap string Position :=
  list_to_map (omap (λ sym, pair sym <$> get self sym) (elements (position_symbols self))).
