(* ===== verification/PositionLedger.v ===== *)
(** * The trade ledger

    What [PositionManager] promises about the trades of its ledger: the status a trade
    ends up with, whatever the order in which its reports arrive, and what the callers
    of [upsert_trade_inner] are told to accumulate meanwhile. *)

From S2P Require Import Prelude F64 Types BTree Position.

(** ** Trade lifecycle *)

(** What a trade is about, apart from its status. *)
Record TradeArgs := mkArgs {
  ta_asset_id : string;
  ta_side : Side;
  ta_size : f64;
  ta_price : f64;
  ta_is_maker : bool;
  ta_usdc_fee : f64;
  ta_shares_fee : f64;
  ta_fee_settlement : FeeSettlement }.

Definition deliver (args : string → TradeArgs) (self : PositionManager) (call : string * TradeStatus)
    : PositionManager * UpsertResult :=
  let a := args call.1 in
  upsert_trade_inner self call.1 (ta_asset_id a) (ta_side a) (ta_size a) (ta_price a) call.2
    (ta_is_maker a) (ta_usdc_fee a) (ta_shares_fee a) (ta_fee_settlement a).

(** The signs the caller was told to apply to the accumulators of one trade. *)
Fixpoint deliver_all (args : string → TradeArgs) (self : PositionManager)
    (calls : list (string * TradeStatus)) (k : string) : PositionManager * Z :=
  match calls with
  | [] => (self, 0)
  | call :: calls =>
      let '(self, result) := deliver args self call in
      let '(self, total) := deliver_all args self calls k in
      (self, (if String.eqb call.1 k then accumulator_sign result else 0) + total)
  end.

Definition record_of (k : string) (a : TradeArgs) (status : TradeStatus) : TradeRecord :=
  mkTradeRecord k (ta_asset_id a) (ta_side a) (ta_size a) (ta_price a) status (ta_is_maker a)
    (ta_usdc_fee a) (ta_shares_fee a) (ta_fee_settlement a) true.

(** The status that outranks the other. *)
Definition later (prev : option TradeStatus) (status : TradeStatus) : TradeStatus :=
  match prev with
  | Some prev => if rank status <=? rank prev then prev else status
  | None => status
  end.

(** The highest-ranked status delivered for a trade. *)
Definition final_status (calls : list (string * TradeStatus)) (k : string) (start : option TradeStatus)
    : option TradeStatus :=
  fold_left (λ s call, if String.eqb call.1 k then Some (later s call.2) else s) calls start.

Definition is_live (s : option TradeStatus) : Z :=
  match s with Some TFailed | None => 0 | Some _ => 1 end.

Lemma lifecycle_spec prev status :
  match lifecycle prev status with
  | Some r => later prev status = status ∧ accumulator_sign r = is_live (Some status) - is_live prev
  | None => prev = Some (later prev status)
  end.
Proof. by destruct prev as [[]|], status. Qed.

Lemma later_status prev status :
  is_live (Some (later prev status)) - is_live prev =
  match lifecycle prev status with Some r => accumulator_sign r | None => 0 end.
Proof. by destruct prev as [[]|], status. Qed.

Lemma f64_max_pos c z : is_nan c = false → f64_lt c f64_zero = false → f64_lt (f64_max c z) f64_zero = false.
Proof.
  intros Hc Hz. unfold f64_max. rewrite Hc. destruct (is_nan z) eqn:E; [done|].
  destruct (f64_lt c z) eqn:L; [|done]. destruct (f64_lt z f64_zero) eqn:Z0; [|done].
  by rewrite (f64_lt_trans _ _ _ L Z0) in Hz.
Qed.

(** A call agrees with the record it made. *)
Lemma no_self_conflict k a status :
  is_finite (ta_size a) = true → is_finite (ta_price a) = true →
  is_finite (ta_usdc_fee a) = true → is_finite (ta_shares_fee a) = true →
  conflicting (record_of k a status) (ta_asset_id a) (ta_side a) (ta_size a) (ta_price a)
    (ta_is_maker a) (ta_usdc_fee a) (ta_shares_fee a) (ta_fee_settlement a) = false.
Proof.
  intros H1 H2 H3 H4. unfold conflicting. cbn [record_of tr_asset_id tr_side tr_size tr_price tr_is_maker
    tr_usdc_fee tr_shares_fee tr_fee_settlement].
  rewrite String.eqb_refl, !bool_decide_true, Bool.eqb_reflx, !f64_sub_self by done.
  unfold f64_gt. by rewrite !f64_max_pos.
Qed.

Lemma add_volume_trades self is_maker v : pm_trades (add_volume self is_maker v) = pm_trades self.
Proof. by destruct is_maker. Qed.

(** One call moves the status of its trade to the later one, and the sign it returns is the
    change in what the trade contributes. *)
Lemma deliver_spec args self call :
  (let a := args call.1 in
   bad_upsert call.1 (ta_asset_id a) (ta_side a) (ta_size a) (ta_price a) (ta_is_maker a)
     (ta_usdc_fee a) (ta_shares_fee a) (ta_fee_settlement a) = false) →
  (∀ r, pm_trades self !! call.1 = Some r → ∃ s, r = record_of call.1 (args call.1) s) →
  let '(self', result) := deliver args self call in
  let prev := tr_status <$> pm_trades self !! call.1 in
  pm_trades self' = <[call.1 := record_of call.1 (args call.1) (later prev call.2)]> (pm_trades self) ∧
  accumulator_sign result = is_live (Some (later prev call.2)) - is_live prev.
Proof.
  destruct call as [k status]. cbn [fst snd]. intros Hb Hr. unfold deliver, upsert_trade_inner.
  cbn [fst snd]. cbv zeta in Hb. rewrite Hb.
  assert (is_finite (ta_size (args k)) = true ∧ is_finite (ta_price (args k)) = true ∧
    is_finite (ta_usdc_fee (args k)) = true ∧ is_finite (ta_shares_fee (args k)) = true) as (F1 & F2 & F3 & F4).
  { unfold bad_upsert, not_positive, bad_price, not_positive, not_nonneg in Hb. bool_hyps. split_and!; by bool_solve. }
  pose proof (lifecycle_spec (tr_status <$> pm_trades self !! k) status) as Hl.
  destruct (pm_trades self !! k) as [e|] eqn:Ee; cbn [fmap option_fmap option_map] in *.
  - destruct (Hr e eq_refl) as [s ->]. cbn [record_of tr_status] in *. rewrite no_self_conflict by done.
    destruct (lifecycle (Some s) status) as [r|].
    + destruct Hl as [E1 E2]. rewrite E1. split; [|exact E2]; destruct (negb _); by rewrite ?add_volume_trades.
    + assert (later (Some s) status = s) as -> by congruence. split; [|cbn; lia]. symmetry. by apply insert_id.
  - destruct (lifecycle None status) as [r|]; [|done]. destruct Hl as [E1 E2].
    split; [|exact E2]; destruct (negb _); by rewrite ?add_volume_trades.
Qed.

Lemma final_status_cons call calls k s :
  final_status (call :: calls) k s =
  final_status calls k (if String.eqb call.1 k then Some (later s call.2) else s).
Proof. done. Qed.

Lemma final_status_notin calls k s : k ∉ calls.*1 → final_status calls k s = s.
Proof.
  revert s. induction calls as [|call calls IH]; intros s Hk; [done|]. rewrite final_status_cons.
  destruct (String.eqb_spec call.1 k) as [<-|]; [set_solver|]. apply IH. set_solver.
Qed.

(** The calls all describe the trades they are about, and the ledger holds no other
    record of them. *)
Definition admissible (args : string → TradeArgs) (calls : list (string * TradeStatus)) : Prop :=
  Forall (λ call, let a := args call.1 in
    bad_upsert call.1 (ta_asset_id a) (ta_side a) (ta_size a) (ta_price a) (ta_is_maker a)
      (ta_usdc_fee a) (ta_shares_fee a) (ta_fee_settlement a) = false) calls.

Lemma deliver_all_spec args calls self k :
  admissible args calls →
  (∀ k r, k ∈ calls.*1 → pm_trades self !! k = Some r → ∃ s, r = record_of k (args k) s) →
  let '(self', total) := deliver_all args self calls k in
  let prev := tr_status <$> pm_trades self !! k in
  (pm_trades self' !! k = if decide (k ∈ calls.*1) then record_of k (args k) <$> final_status calls k prev
                          else pm_trades self !! k) ∧
  total = is_live (final_status calls k prev) - is_live prev.
Proof.
  revert self. induction calls as [|call calls IH]; intros self Hb Hr.
  { cbn [deliver_all]. cbv zeta. split; [by rewrite decide_False by set_solver|cbn; lia]. }
  apply Forall_cons in Hb as [Hb Hbs]. cbn [deliver_all].
  pose proof (deliver_spec args self call Hb) as Hd.
  destruct (deliver args self call) as [self1 r] eqn:Ed.
  destruct Hd as [Ht Hs]; [intros x; apply Hr; set_solver|].
  specialize (IH self1 Hbs). destruct (deliver_all args self1 calls k) as [self2 total].
  rewrite Ht in IH. destruct IH as [I1 I2].
  { intros j x Hj Hx. destruct (decide (call.1 = j)) as [<-|Hne].
    - rewrite lookup_insert_eq in Hx. injection Hx as <-. by eexists.
    - rewrite lookup_insert_ne in Hx by done. apply Hr; [set_solver|done]. }
  cbv zeta. rewrite I1, I2, final_status_cons.
  assert (k ∈ (call :: calls).*1 ↔ k = call.1 ∨ k ∈ calls.*1) as Hin by set_solver.
  destruct (decide (k ∈ (call :: calls).*1)) as [H1|H1], (decide (k ∈ calls.*1)) as [H2|H2],
    (String.eqb_spec call.1 k) as [<-|Hne];
    rewrite ?lookup_insert_eq, ?lookup_insert_ne in * by done;
    cbn [fmap option_fmap option_map record_of tr_status] in *; try tauto; split; try lia; try done.
  all: rewrite final_status_notin by done; try done; naive_solver.
Qed.

Lemma later_comm s a b : later (Some (later s a)) b = later (Some (later s b)) a.
Proof. by destruct s as [[]|], a, b. Qed.

Lemma final_status_perm calls calls' k s :
  calls ≡ₚ calls' → final_status calls k s = final_status calls' k s.
Proof.
  intros Hp. revert s. induction Hp as [|x l l' _ IH|x y l|l1 l2 l3 _ IH1 _ IH2]; intros s.
  - done.
  - rewrite !final_status_cons. apply IH.
  - rewrite !final_status_cons. f_equal.
    destruct (String.eqb x.1 k), (String.eqb y.1 k); [f_equal; apply later_comm|done..].
  - by rewrite IH1, IH2.
Qed.

Lemma final_status_ge calls k s s0 :
  (k, s) ∈ calls ∨ s0 = Some s → ∃ s', final_status calls k s0 = Some s' ∧ rank s ≤ rank s'.
Proof.
  revert s s0. induction calls as [|[j t] calls IH]; intros s s0 H.
  { destruct H as [H|H]; [by apply not_elem_of_nil in H|]. exists s. by rewrite H. }
  rewrite final_status_cons. cbn [fst snd]. destruct (String.eqb_spec j k) as [->|Hne].
  - assert (∃ u, later s0 t = u ∧ rank t ≤ rank u ∧ ∀ s, s0 = Some s → rank s ≤ rank u) as (u & Hu & Ht & Hs).
    { eexists. split; [reflexivity|]. destruct s0 as [s0|]; [|done]. unfold later. destruct (Z.leb_spec (rank t) (rank s0)).
      - split; [done|]. by intros ? [= ->].
      - split; [done|]. intros ? [= ->]. lia. }
    rewrite Hu. destruct H as [[[= ->]|H]%elem_of_cons|H].
    + destruct (IH u (Some u)) as (s' & ? & ?); [by right|]. exists s'. split; [done|lia].
    + destruct (IH s (Some u)) as (s' & ? & ?); [by left|]. by exists s'.
    + destruct (IH u (Some u)) as (s' & ? & ?); [by right|]. exists s'. split; [done|]. apply Hs in H. lia.
  - apply IH. destruct H as [[[= -> ->]|H]%elem_of_cons|H]; [done|by left|by right].
Qed.

(** C7: The ledger does not depend on the order of delivery.  Statuses of trades may be
    delivered in any order and any number of times: every trade ends with the record
    of its first delivery and the highest-ranked status delivered, and what the
    caller was told to add and reverse for it nets to one if that status is
    live and to zero if it is [Failed]. *)
Theorem ledger_order_insensitive args calls calls' self k :
  admissible args calls → pm_trades self = ∅ → calls ≡ₚ calls' →
  pm_trades (deliver_all args self calls k).1 !! k = pm_trades (deliver_all args self calls' k).1 !! k ∧
  (deliver_all args self calls k).2 = (deliver_all args self calls' k).2 ∧
  pm_trades (deliver_all args self calls k).1 !! k = record_of k (args k) <$> final_status calls k None ∧
  (deliver_all args self calls k).2 = is_live (final_status calls k None) ∧
  ∀ s, (k, s) ∈ calls → ∃ s', final_status calls k None = Some s' ∧ rank s ≤ rank s'.
Proof.
  intros Hadm Hempty Hp.
  assert (admissible args calls') as Hadm' by (unfold admissible; by rewrite <- Hp).
  assert (∀ (cs : list (string * TradeStatus)) j r, j ∈ cs.*1 → pm_trades self !! j = Some r → ∃ s, r = record_of j (args j) s) as Hr
    by (intros cs j r _; by rewrite Hempty).
  pose proof (deliver_all_spec args calls self k Hadm (Hr calls)) as H.
  pose proof (deliver_all_spec args calls' self k Hadm' (Hr calls')) as H'.
  destruct (deliver_all args self calls k) as [m net], (deliver_all args self calls' k) as [m' net'].
  cbn [fst snd].
  rewrite Hempty, lookup_empty in H, H'. cbn [fmap option_fmap option_map is_live] in H, H'.
  destruct H as [H1 H2], H' as [H1' H2'].
  rewrite <- (final_status_perm calls calls' k None Hp) in H1', H2'.
  assert (pm_trades m !! k = record_of k (args k) <$> final_status calls k None) as E.
  { rewrite H1. destruct (decide _); [done|]. by rewrite final_status_notin. }
  assert (pm_trades m' !! k = record_of k (args k) <$> final_status calls k None) as E'.
  { rewrite H1'. destruct (decide (k ∈ calls'.*1)) as [|Hn]; [done|].
    rewrite <- Hp in Hn. by rewrite final_status_notin. }
  split_and!; [congruence|congruence|done|lia|].
  intros s Hs. apply final_status_ge. by left.
Qed.

Definition demo_args (_ : string) : TradeArgs :=
  mkArgs "yes" Buy (f64_of_Z 10) (f64_dec 5 1) true f64_zero f64_zero LegacyV1.

Definition demo_calls : list (string * TradeStatus) :=
  [("t"%string, TMatched); ("t"%string, TFailed); ("t"%string, TConfirmed); ("u"%string, TFailed)].

(** A trade matched, failed and confirmed on a retry, and the same statuses backwards. *)
Lemma ledger_order_insensitive_witness :
  pm_trades (deliver_all demo_args new demo_calls "t").1 !! "t"%string
    = Some (record_of "t" (demo_args "t") TConfirmed) ∧
  (deliver_all demo_args new demo_calls "t").2 = 1 ∧
  (deliver_all demo_args new (reverse demo_calls) "t").2 = 1.
Proof.
  pose proof (ledger_order_insensitive demo_args demo_calls (reverse demo_calls) new "t") as H.
  destruct H as (_ & Hn & Hr & Hl & _).
  - repeat constructor.
  - reflexivity.
  - symmetry. apply reverse_Permutation.
  - split_and!; [exact Hr|exact Hl|rewrite <- Hn; exact Hl].
Defined.
