(* ===== verification/PositionHistory.v ===== *)
(** * Histories of a position manager

    Every mutating entry point of [PositionManager], as a step; the principle that an
    invariant of the primitive mutations holds along every history; and what a manager
    that kept its ledger through such a history finds when it is restarted from its own
    snapshot. *)

From S2P Require Import Prelude F64 Types BTree Position PositionLedger.

(** ** Steps *)

Inductive op :=
  | OUpsert (trade_id : string) (a : TradeArgs) (status : TradeStatus)
  | OAttribute (row : RestoredTrade)
  | ORegister (client_order_id symbol : string) (side : Side) (price quantity cash_fee_per_share : f64)
  | OPrivateTrade (client_order_id : string) (quantity : f64) (sign : Z)
  | ORemovePending (client_order_id : string)
  | OSync (update : OrderUpdate)
  | OUpdate (update : OrderUpdate)
  | OAdjustBalance (delta : f64)
  | OAdjustQuantity (symbol : string) (delta : f64)
  | OEnable.

Definition step (m : PositionManager) (o : op) : PositionManager :=
  match o with
  | OUpsert k a s =>
      (upsert_trade_with_fee_settlement m k (ta_asset_id a) (ta_side a) (ta_size a) (ta_price a) s
         (ta_is_maker a) (ta_usdc_fee a) (ta_shares_fee a) (ta_fee_settlement a)).1
  | OAttribute row => match attribute_restored_trade_fee m row with inl _ => m | inr (m', _) => m' end
  | ORegister id sym side price q fee => register_pending_order_with_cash_fee m id sym side price q fee
  | OPrivateTrade id q sign => (apply_private_trade_reservation m id q sign).1
  | ORemovePending id => remove_pending_order m id
  | OSync u => sync_pending_from_update m u
  | OUpdate u => on_order_update m u
  | OAdjustBalance d => adjust_balance m d
  | OAdjustQuantity sym d => adjust_quantity m sym d
  | OEnable => enable_incremental_queries m
  end.

Definition run (m : PositionManager) (ops : list op) : PositionManager := fold_left step ops m.

(** ** Invariants *)

Section invariant.
Context (I : PositionManager → Prop).
Hypothesis Hupsert : ∀ m k asset side size price s maker uf sf fs,
  I m → I (upsert_trade_inner m k asset side size price s maker uf sf fs).1.
Hypothesis Hremove : ∀ m id, I m → I (remove_pending_order m id).
Hypothesis Hregister : ∀ m id sym side price q fee,
  I m → I (register_pending_order_with_cash_fee m id sym side price q fee).
Hypothesis Hset : ∀ m id po r,
  I m → pm_pending_orders m !! id = Some po → I (set_remaining m id po r).
Hypothesis Hclear : ∀ m id po x,
  I m → pm_pending_orders m !! id = Some po → (f64_max x f64_zero <=? f64_zero)%f64 = true →
  I ((set_remaining m id po (f64_max x f64_zero))
       <| pm_pending_orders := delete id (pm_pending_orders (set_remaining m id po (f64_max x f64_zero))) |>).
Hypothesis Hcounter : ∀ m c, I m → I (m <| pm_synthetic_counter := c |>).
Hypothesis Hbalance : ∀ m d, I m → I (adjust_balance m d).
Hypothesis Hquantity : ∀ m sym d, I m → I (adjust_quantity m sym d).
Hypothesis Henable : ∀ m, I m → I (enable_incremental_queries m).

Definition attribute_preserves : Prop := ∀ m row m' r,
  I m → attribute_restored_trade_fee m row = inr (m', r) → I m'.

Lemma sync_preserves m u : I m → I (sync_pending_from_update m u).
Proof.
  intros H. unfold sync_pending_from_update. destruct (String.eqb _ _); [done|].
  destruct (ou_status u); try done; try by apply Hremove.
  - destruct (_ && _); [|done]. by apply Hregister.
  - destruct (pm_pending_orders m !! _) as [po|] eqn:E; [|done]. cbv zeta.
    destruct (_ <=? _)%f64 eqn:L; [by apply Hclear|by apply Hset].
  - destruct (unaudited_fill u); [done|by apply Hremove].
Qed.

Lemma update_preserves m u : I m → I (on_order_update m u).
Proof.
  intros H. unfold on_order_update. destruct (from_order_status _); [|by apply sync_preserves].
  destruct (_ <=? _)%f64; [by apply sync_preserves|]. destruct (ou_liquidity u); [|done]. cbv zeta.
  assert (I (trade_id_of (sync_pending_from_update m u) u).1) as Ht.
  { unfold trade_id_of, synthetic_id. apply (sync_preserves _ u) in H.
    destruct (ou_trade_id u); [destruct (negb _)|]; try done; by apply Hcounter. }
  destruct (trade_id_of _ _) as [m' k]. by apply Hupsert.
Qed.

Lemma step_preserves m o :
  ((∃ row, o = OAttribute row) → attribute_preserves) → I m → I (step m o).
Proof.
  intros Ha H. destruct o; cbn [step]; auto using sync_preserves, update_preserves.
  - destruct (attribute_restored_trade_fee m row) as [|[m' r]] eqn:E; [done|].
    exact (Ha (ex_intro _ row eq_refl) m row m' r H E).
  - unfold apply_private_trade_reservation. destruct (_ || _); [done|].
    destruct (pm_pending_orders m !! _) eqn:E; [|done]. by apply Hset.
Qed.

Lemma run_preserves ops m :
  ((∃ row, OAttribute row ∈ ops) → attribute_preserves) → I m → I (run m ops).
Proof.
  revert m. induction ops as [|o ops IH]; intros m Ha H; [done|]. apply IH.
  - intros [row Hr]. apply Ha. exists row. by constructor.
  - apply step_preserves; [|done]. intros [row ->]. apply Ha. exists row. by constructor.
Qed.
End invariant.

(** ** Restarting from a snapshot *)

(** Every trade would be admitted again whatever its status, and every pending order but
    for its remaining quantity. *)
Definition ledger_wf (m : PositionManager) : Prop :=
  map_Forall (λ k r, ∀ s, check_trade k (r <| tr_status := s |>) = None) (pm_trades m) ∧
  map_Forall (λ id p, bad_pending_fields id p = false ∧
    bad_cash_fee (po_side p) (po_price p) (po_cash_fee_per_share p) = false) (pm_pending_orders m).

Lemma check_trade_admitted k asset side size price s maker uf sf fs :
  bad_upsert k asset side size price maker uf sf fs = false →
  check_trade k (mkTradeRecord k asset side size price s maker uf sf fs true) = None.
Proof.
  unfold bad_upsert, check_trade. cbn. rewrite String.eqb_refl. intros H. bool_hyps. by bool_solve.
Qed.

Lemma accepts_nonneg fs side maker uf sf tol :
  accepts_fee_amounts fs side maker uf sf tol = true → not_nonneg uf = false ∧ not_nonneg sf = false.
Proof.
  unfold accepts_fee_amounts, not_nonneg. destruct (_ || _) eqn:B in |- *; [done|]. intros _. bool_hyps. by bool_solve.
Qed.

(** Fees that are accepted replace those of a checked trade. *)
Lemma check_trade_attributed k t uf sf fs s :
  check_trade k (t <| tr_status := s |>) = None →
  accepts_fee_amounts fs (tr_side t) (tr_is_maker t) uf sf (f64_max e10 (f64_abs (tr_size t) * e8)%f64) = true →
  check_trade k (t <| tr_usdc_fee := uf |> <| tr_shares_fee := sf |> <| tr_fee_settlement := fs |>
                   <| tr_fee_attributed := true |> <| tr_status := s |>) = None.
Proof.
  intros Hc Ha. destruct (accepts_nonneg _ _ _ _ _ _ Ha) as [Hu Hs]. unfold check_trade in Hc |- *. cbn in Hc |- *.
  destruct (_ || _) eqn:B in Hc; [done|]. rewrite Hu, Hs, Ha. bool_hyps. by bool_solve.
Qed.

Lemma remove_pending_wf m id :
  ledger_wf m → ledger_wf (remove_pending_order m id).
Proof.
  intros [Ht Hp]. unfold remove_pending_order. destruct (_ !! id); [|done].
  split; [done|]. by apply map_Forall_delete.
Qed.

Lemma set_remaining_wf m id po r :
  ledger_wf m → pm_pending_orders m !! id = Some po → ledger_wf (set_remaining m id po r).
Proof.
  intros [Ht Hp] E. split; [done|]. apply map_Forall_insert_2; [|done]. exact (Hp _ _ E).
Qed.

Lemma upsert_wf m k asset side size price s maker uf sf fs :
  ledger_wf m → ledger_wf (upsert_trade_inner m k asset side size price s maker uf sf fs).1.
Proof.
  intros [Ht Hp]. unfold upsert_trade_inner. destruct (bad_upsert _ _ _ _ _ _ _ _ _) eqn:B; [done|].
  cbv zeta. destruct (match _ !! k with Some _ => _ | None => _ end); [done|].
  destruct (lifecycle _ _) as [r|]; [|done].
  assert (∀ m' b v, pm_pending_orders (add_volume m' b v) = pm_pending_orders m') as Hv by by intros ? [].
  set (t := match _ !! k with Some _ => _ | None => _ end).
  assert (∀ s', check_trade k (t <| tr_status := s' |>) = None) as Hc.
  { intros s'. subst t. destruct (_ !! k) as [e|] eqn:E; [exact (Ht _ _ E s')|]. by apply check_trade_admitted. }
  destruct (negb _); cbn [fst]; (split; [rewrite ?add_volume_trades|rewrite ?Hv; exact Hp]); by apply map_Forall_insert_2.
Qed.

Lemma attribute_wf : attribute_preserves ledger_wf.
Proof.
  intros m row m' r [Ht Hp] E. unfold attribute_restored_trade_fee in E.
  destruct (_ !! _) as [t|] eqn:El; [|done]. cbv zeta in E. destruct (_ || _) eqn:B in E; [done|].
  destruct (tr_fee_attributed t) eqn:Ea.
  { destruct (_ || _) in E; simplify_eq; done. }
  assert (∀ s, check_trade (ow_trade_key (rt_ownership row)) (t <| tr_usdc_fee := rt_usdc_fee row |>
    <| tr_shares_fee := rt_shares_fee row |> <| tr_fee_settlement := rt_fee_settlement row |>
    <| tr_fee_attributed := true |> <| tr_status := s |>) = None) as Hc.
  { intros s. apply check_trade_attributed; [exact (Ht _ _ El s)|].
    bool_hyps. repeat match goal with H : negb _ = false |- _ => apply negb_false_iff in H end. bool_hyps.
    match goal with H : eqb _ _ = true |- _ => apply eqb_prop in H; cbn; rewrite H end. congruence. }
  assert (∀ m1 : PositionManager, pm_trades m1 = pm_trades m → pm_pending_orders m1 = pm_pending_orders m →
    ledger_wf (m1 <| pm_trades := <[ow_trade_key (rt_ownership row) := t <| tr_usdc_fee := rt_usdc_fee row |>
    <| tr_shares_fee := rt_shares_fee row |> <| tr_fee_settlement := rt_fee_settlement row |>
    <| tr_fee_attributed := true |>]> (pm_trades m1) |>)) as Hm.
  { intros m1 E1 E2. split; cbn; rewrite ?E1, ?E2; [|done]. by apply map_Forall_insert_2. }
  destruct (bool_decide (tr_status t ≠ TFailed)), (pm_queries m) as [q|]; try (simplify_eq; by apply Hm).
  destruct (iq_symbols q !! _); simplify_eq. by apply Hm.
Qed.

Lemma register_wf m id sym side price q fee :
  ledger_wf m → ledger_wf (register_pending_order_with_cash_fee m id sym side price q fee).
Proof.
  intros H. unfold register_pending_order_with_cash_fee. destruct (bad_cash_fee _ _ _) eqn:B; [done|].
  destruct (valid_pending_order_fields _ _ _ _) eqn:V; [|done].
  destruct (remove_pending_wf m id H) as [Ht Hp]. split; [done|].
  apply map_Forall_insert_2; [|done]. unfold bad_pending_fields. cbn. by rewrite String.eqb_refl, V.
Qed.

Lemma history_ledger_wf ops m : ledger_wf m → ledger_wf (run m ops).
Proof.
  apply run_preserves; auto using upsert_wf, remove_pending_wf, register_wf, set_remaining_wf, attribute_wf.
  - intros m' id po x H E _. destruct (set_remaining_wf m' id po (f64_max x f64_zero) H E) as [Ht Hp].
    split; [done|]. by apply map_Forall_delete.
  - intros m' [Ht Hp]. unfold enable_incremental_queries. by destruct (pm_queries m').
Qed.

Lemma elem_of_btree_entries {V} (m : gmap string V) k v : (k, v) ∈ btree_entries m → m !! k = Some v.
Proof.
  unfold btree_entries. rewrite list_elem_of_omap. intros (j & _ & H).
  apply fmap_Some in H as (w & Hw & [= -> ->]). done.
Qed.

Lemma check_trades_ok trades volumes :
  Forall (λ e, check_trade e.1 e.2 = None) trades →
  check_trades trades volumes = inr (fold_left expect_volume trades.*2 volumes).
Proof.
  intros H. revert volumes. induction H as [|[k t] trades Hc _ IH]; intros volumes; [done|].
  cbn [check_trades fst snd] in *. by rewrite Hc, IH.
Qed.

Lemma first_bad_some bad pending id :
  first_bad bad pending = Some id → ∃ p, (id, p) ∈ pending ∧ bad id p = true.
Proof.
  induction pending as [|[j p] pending IH]; [done|]. cbn. destruct (bad j p) eqn:B; intros H.
  - simplify_eq. exists p. split; [by constructor|done].
  - destruct (IH H) as (p' & ? & ?). exists p'. split; [by constructor|done].
Qed.


Definition unbooked_row : RestoredTrade :=
  mkRestored true LegacyV1
    (mkOwnership 0 "acct" "a" "restored" "a-1" "oid-1" "TOKEN" Buy (f64_of_Z 5) (f64_dec 4 1) "MATCHED")
    false f64_zero f64_zero true true 1700000000 0.

(** A restored row that is live but not booked enters the ledger without its volume: the
    manager cannot be restarted from the snapshot it takes. *)
Lemma unbooked_row_not_restartable :
  from_snapshot (snapshot (with_positions_and_restored_trades ∅ (f64_of_Z 98) [unbooked_row])) = inl VolumeDisagrees.
Proof. vm_compute. reflexivity. Qed.
