(* ===== verification/PositionIndex.v ===== *)
(** * The incremental index

    [IncrementalQueries] keeps compensated sums so that the queries of a live owner do not
    scan the ledger.  Here: along every history each of those sums has been fed terms
    whose exact total is the total of the ledger it stands for, so that the only difference
    between an indexed query and the ledger is the rounding of the summation. *)

From Stdlib Require Import SpecFloat.
From S2P Require Import Prelude F64 Types BTree Position PositionLedger PositionHistory.

(** ** Compensated sums *)

(** The sum was fed terms whose exact total, in units of 2^-1074, is [n]. *)
Definition represents (s : TradeSum) (n : Z) : Prop :=
  ∃ terms, s = fold_left sum_add terms default_sum ∧ foldr Z.add 0 (units <$> terms) = n.

Lemma represents_zero : represents default_sum 0.
Proof. by exists []. Qed.

Lemma represents_add s n v : represents s n → represents (sum_add s v) (n + units v).
Proof.
  intros (terms & -> & <-). exists (terms ++ [v]). rewrite fold_left_app. split; [done|].
  rewrite fmap_app, foldr_app. cbn. induction terms as [|x l IH]; cbn; lia.
Qed.

Lemma represents_add' s n n' v : represents s n → n' = n + units v → represents (sum_add s v) n'.
Proof. intros H ->. by apply represents_add. Qed.

Lemma represents_eq s n n' : represents s n → n' = n → represents s n'.
Proof. by intros H ->. Qed.

(** ** Totals over a map *)

Definition total {V} (f : V → Z) (m : gmap string V) : Z := map_fold (λ _ v acc, f v + acc) 0 m.

Lemma total_empty {V} (f : V → Z) : total f ∅ = 0.
Proof. apply map_fold_empty. Qed.

Lemma total_insert_new {V} (f : V → Z) m k v : m !! k = None → total f (<[k := v]> m) = f v + total f m.
Proof.
  intros H. unfold total. rewrite map_fold_insert_L; [done|intros; lia|done].
Qed.

Lemma total_delete {V} (f : V → Z) m k v : m !! k = Some v → total f (delete k m) = total f m - f v.
Proof.
  intros H. rewrite <- (insert_delete_id m k v H) at 2.
  rewrite total_insert_new by apply lookup_delete_eq. lia.
Qed.

Lemma total_insert {V} (f : V → Z) m k v :
  total f (<[k := v]> m) = total f m + f v - default 0 (f <$> m !! k).
Proof.
  destruct (m !! k) as [w|] eqn:E.
  - rewrite <- insert_delete_eq, total_insert_new by apply lookup_delete_eq.
    rewrite (total_delete _ _ _ _ E). cbn. lia.
  - rewrite total_insert_new by done. cbn. lia.
Qed.

Lemma omap_lookup_fmap {V} (m : gmap string V) (l : list (string * V)) :
  Forall (λ e, m !! e.1 = Some e.2) l → omap (m !!.) l.*1 = l.*2.
Proof. induction 1 as [|[k v] l H _ IH]; [done|]. cbn in *. by rewrite H, IH. Qed.

Lemma btree_values_perm {V} (m : gmap string V) : btree_values m ≡ₚ (map_to_list m).*2.
Proof.
  assert (elements (dom m) ≡ₚ (map_to_list m).*1) as Hd.
  { apply NoDup_Permutation; [apply NoDup_elements|apply NoDup_fst_map_to_list|]. intros k.
    rewrite elem_of_elements, elem_of_dom, list_elem_of_fmap. split.
    - intros [v Hv]. exists (k, v). split; [done|by apply elem_of_map_to_list].
    - intros ([j v] & -> & Hv%elem_of_map_to_list). by exists v. }
  unfold btree_values. rewrite btree_iter_Permutation, Hd, omap_lookup_fmap; [done|].
  apply Forall_forall. intros [k v] Hv. by apply elem_of_map_to_list.
Qed.

#[local] Instance sum_perm : Proper ((≡ₚ) ==> eq) (foldr Z.add 0).
Proof. induction 1; cbn; lia. Qed.

Lemma total_btree_values {V} (f : V → Z) (m : gmap string V) :
  foldr Z.add 0 (f <$> btree_values m) = total f m.
Proof.
  rewrite btree_values_perm. unfold total. rewrite map_fold_foldr.
  induction (map_to_list m) as [|[k v] l IH]; [done|]. cbn. by rewrite IH.
Qed.

(** ** What the ledger says *)

(** The share of a movement a trade contributes, by liveness or by confirmation. *)
Definition live_part (s : option TradeStatus) (x : f64) : Z :=
  match s with Some TFailed | None => 0 | Some _ => units (x * f64_one)%f64 end.

Definition confirmed_part (s : option TradeStatus) (x : f64) : Z :=
  match s with Some TConfirmed => units (x * f64_one)%f64 | _ => 0 end.

Definition cash_of (t : TradeRecord) : Z := live_part (Some (tr_status t)) (trade_moves t).1.

Definition quantity_of (symbol : string) (t : TradeRecord) : Z :=
  if String.eqb (tr_asset_id t) symbol then live_part (Some (tr_status t)) (trade_moves t).2 else 0.

(** Bought cash is gone at once, sold cash is there when the sale is confirmed. *)
Definition available_cash_of (t : TradeRecord) : Z :=
  match tr_side t with
  | Buy => live_part (Some (tr_status t)) (trade_moves t).1
  | Sell => confirmed_part (Some (tr_status t)) (trade_moves t).1
  end.

Definition available_quantity_of (symbol : string) (t : TradeRecord) : Z :=
  if String.eqb (tr_asset_id t) symbol then
    match tr_side t with
    | Buy => confirmed_part (Some (tr_status t)) (trade_moves t).2
    | Sell => live_part (Some (tr_status t)) (trade_moves t).2
    end
  else 0.

Definition locked_cash_of (o : PendingOrder) : Z :=
  match po_side o with
  | Buy => units (f64_one * (po_price o + po_cash_fee_per_share o) * po_remaining_quantity o)%f64
  | Sell => 0
  end.

Definition locked_quantity_of (symbol : string) (o : PendingOrder) : Z :=
  match po_side o with
  | Buy => 0
  | Sell => if String.eqb (po_symbol o) symbol then units (f64_one * po_remaining_quantity o)%f64 else 0
  end.

(** A sum per query, each fed the total that [trades] and [orders] give. *)
Record agrees (q : IncrementalQueries) (trades : (TradeRecord → Z) → Z) (orders : (PendingOrder → Z) → Z) : Prop := {
  agrees_cash : represents (iq_cash q) (trades cash_of);
  agrees_available_cash : represents (iq_available_cash q) (trades available_cash_of);
  agrees_locked_cash : represents (iq_locked_buy_cash q) (orders locked_cash_of);
  agrees_quantity symbol : represents (st_quantity (totals_of q symbol)) (trades (quantity_of symbol));
  agrees_available_quantity symbol :
    represents (st_available_quantity (totals_of q symbol)) (trades (available_quantity_of symbol));
  agrees_locked_quantity symbol :
    represents (st_locked_sell_quantity (totals_of q symbol)) (orders (locked_quantity_of symbol)) }.

(** ** Index updates *)

Lemma units_mul_neg_one x : units (x * f64_neg f64_one)%f64 = - units (x * f64_one)%f64.
Proof. by rewrite f64_mul_opp_r, units_opp. Qed.

Lemma flag_delta :
  (f64_zero - f64_zero)%f64 = f64_zero ∧ (f64_one - f64_one)%f64 = f64_zero ∧
  (f64_one - f64_zero)%f64 = f64_one ∧ (f64_zero - f64_one)%f64 = f64_neg f64_one.
Proof. done. Qed.

(** A flag as a number, and what a change of it moves. *)
Definition flag (b : bool) : f64 := if b then f64_one else f64_zero.

Lemma units_flag_delta x b b' :
  units (x * (flag b - flag b'))%f64 =
  (if b then units (x * f64_one)%f64 else 0) - (if b' then units (x * f64_one)%f64 else 0).
Proof.
  destruct flag_delta as (E00 & E11 & E10 & E01). unfold flag.
  destruct b, b'; rewrite ?E00, ?E11, ?E10, ?E01, ?units_mul_zero, ?units_mul_neg_one; lia.
Qed.

Definition liveb (s : option TradeStatus) : bool := match s with Some TFailed | None => false | Some _ => true end.
Definition confirmedb (s : option TradeStatus) : bool := match s with Some TConfirmed => true | _ => false end.

Lemma units_live_delta x s s' : units (x * (live s - live s'))%f64 = live_part s x - live_part s' x.
Proof.
  assert (∀ s, live s = flag (liveb s)) as E by by intros [[]|].
  rewrite !E, units_flag_delta. by destruct s as [[]|], s' as [[]|].
Qed.

Lemma units_confirmed_delta x s s' :
  units (x * (confirmed s - confirmed s'))%f64 = confirmed_part s x - confirmed_part s' x.
Proof.
  assert (∀ s, confirmed s = flag (confirmedb s)) as E by by intros [[]|].
  rewrite !E, units_flag_delta. by destruct s as [[]|], s' as [[]|].
Qed.

Lemma flags_unchanged s s' :
  f64_eq (live s - live s')%f64 f64_zero && f64_eq (confirmed s - confirmed s')%f64 f64_zero = true →
  ∀ x, live_part s x = live_part s' x ∧ confirmed_part s x = confirmed_part s' x.
Proof. intros H x. destruct s as [[]|], s' as [[]|]; try done; vm_compute in H; discriminate H. Qed.

(** What a trade whose status was [prev] contributed. *)
Definition before (t : TradeRecord) (prev : option TradeStatus) (f : TradeRecord → Z) : Z :=
  match prev with Some s => f (t <| tr_status := s |>) | None => 0 end.

Lemma before_cash t prev : before t prev cash_of = live_part prev (trade_moves t).1.
Proof. by destruct prev. Qed.

Lemma before_available_cash t prev :
  before t prev available_cash_of =
  match tr_side t with Buy => live_part prev (trade_moves t).1 | Sell => confirmed_part prev (trade_moves t).1 end.
Proof. destruct prev; cbn; [done|by destruct (tr_side t)]. Qed.

Lemma before_quantity t prev symbol :
  before t prev (quantity_of symbol) =
  if String.eqb (tr_asset_id t) symbol then live_part prev (trade_moves t).2 else 0.
Proof. destruct prev; cbn; [done|by destruct (String.eqb _ _)]. Qed.

Lemma before_available_quantity t prev symbol :
  before t prev (available_quantity_of symbol) =
  if String.eqb (tr_asset_id t) symbol then
    match tr_side t with Buy => confirmed_part prev (trade_moves t).2 | Sell => live_part prev (trade_moves t).2 end
  else 0.
Proof. destruct prev; cbn; [done|by destruct (String.eqb _ _), (tr_side t)]. Qed.

Lemma quantity_of_eq symbol t :
  quantity_of symbol t = if String.eqb (tr_asset_id t) symbol then live_part (Some (tr_status t)) (trade_moves t).2 else 0.
Proof. done. Qed.

Lemma available_quantity_of_eq symbol t :
  available_quantity_of symbol t =
  if String.eqb (tr_asset_id t) symbol then
    match tr_side t with
    | Buy => confirmed_part (Some (tr_status t)) (trade_moves t).2
    | Sell => live_part (Some (tr_status t)) (trade_moves t).2
    end
  else 0.
Proof. done. Qed.

Lemma totals_of_insert c a l symbols k t symbol :
  totals_of (mkQueries c a l (<[k := t]> symbols)) symbol =
  if String.eqb k symbol then t else totals_of (mkQueries c a l symbols) symbol.
Proof.
  unfold totals_of. cbn [iq_symbols]. destruct (String.eqb_spec k symbol) as [->|Hn].
  - by rewrite lookup_insert_eq.
  - by rewrite lookup_insert_ne.
Qed.

Lemma totals_of_set q k t symbol :
  totals_of (set_totals q k t) symbol = if String.eqb k symbol then t else totals_of q symbol.
Proof. destruct q as [c a l symbols]. apply totals_of_insert. Qed.

Lemma transition_agrees q trades orders t prev :
  agrees q trades orders →
  agrees (transition q t prev) (λ f, trades f + f t - before t prev f) orders.
Proof.
  intros H. destruct q as [c a l symbols]. unfold transition.
  destruct (f64_eq _ _ && f64_eq _ _) eqn:Hf.
  - pose proof (flags_unchanged _ _ Hf) as Hu. destruct H. split; intros; (eapply represents_eq; [eauto|]);
      rewrite ?before_cash, ?before_available_cash, ?before_quantity, ?before_available_quantity;
      unfold cash_of, available_cash_of, quantity_of, available_quantity_of;
      rewrite ?(proj1 (Hu _)), ?(proj2 (Hu _)); lia.
  - clear Hf. destruct (trade_moves t) as [cash quantity] eqn:Em. destruct H. cbn [iq_cash iq_available_cash
      iq_locked_buy_cash iq_symbols] in *. split; cbn [iq_cash iq_available_cash iq_locked_buy_cash].
    + rewrite before_cash. eapply represents_add'; [eauto|]. rewrite units_live_delta.
      unfold cash_of. rewrite Em. cbn [fst]. lia.
    + rewrite before_available_cash. eapply represents_add'; [eauto|].
      unfold available_cash_of. rewrite Em. cbn [fst].
      destruct (tr_side t); rewrite ?units_live_delta, ?units_confirmed_delta; lia.
    + done.
    + intros symbol. rewrite totals_of_insert, before_quantity, quantity_of_eq, Em. cbn [snd].
      destruct (String.eqb_spec (tr_asset_id t) symbol) as [->|_].
      * eapply represents_add'; [apply agrees_quantity0|]. rewrite units_live_delta. lia.
      * eapply represents_eq; [apply agrees_quantity0|]. lia.
    + intros symbol. rewrite totals_of_insert, before_available_quantity, available_quantity_of_eq, Em.
      cbn [snd]. destruct (String.eqb_spec (tr_asset_id t) symbol) as [->|_].
      * eapply represents_add'; [apply agrees_available_quantity0|].
        destruct (tr_side t); rewrite ?units_live_delta, ?units_confirmed_delta; lia.
      * eapply represents_eq; [apply agrees_available_quantity0|]. lia.
    + intros symbol. rewrite totals_of_insert. destruct (String.eqb_spec (tr_asset_id t) symbol) as [->|_];
        apply agrees_locked_quantity0.
Qed.

Lemma reservation_value_neg o :
  units (f64_neg f64_one * (po_price o + po_cash_fee_per_share o) * po_remaining_quantity o)%f64 =
  - units (f64_one * (po_price o + po_cash_fee_per_share o) * po_remaining_quantity o)%f64 ∧
  units (f64_neg f64_one * po_remaining_quantity o)%f64 = - units (f64_one * po_remaining_quantity o)%f64.
Proof. by rewrite !f64_mul_opp_l, !units_opp. Qed.

Lemma locked_quantity_of_eq symbol o :
  locked_quantity_of symbol o =
  match po_side o with
  | Buy => 0
  | Sell => if String.eqb (po_symbol o) symbol then units (f64_one * po_remaining_quantity o)%f64 else 0
  end.
Proof. done. Qed.

Lemma reservation_agrees q trades orders o (add : bool) :
  agrees q trades orders →
  agrees (reservation q o (if add then f64_one else f64_neg f64_one)) trades
    (λ f, if add then orders f + f o else orders f - f o).
Proof.
  intros H. destruct (reservation_value_neg o) as [Hc Hq]. destruct q as [c a l symbols]. unfold reservation.
  destruct (po_side o) eqn:Es; destruct H; split; try done; try intros symbol;
    cbn [iq_cash iq_available_cash iq_locked_buy_cash] in *.
  - eapply represents_add'; [eauto|]. unfold locked_cash_of. rewrite Es. destruct add; lia.
  - eapply represents_eq; [apply agrees_locked_quantity0|]. rewrite locked_quantity_of_eq, Es. destruct add; lia.
  - eapply represents_eq; [apply agrees_locked_cash0|]. unfold locked_cash_of. rewrite Es. destruct add; lia.
  - rewrite totals_of_set.
    destruct (String.eqb_spec (po_symbol o) symbol) as [->|_]; apply agrees_quantity0.
  - rewrite totals_of_set.
    destruct (String.eqb_spec (po_symbol o) symbol) as [->|_]; apply agrees_available_quantity0.
  - rewrite totals_of_set, locked_quantity_of_eq, Es.
    destruct (String.eqb_spec (po_symbol o) symbol) as [->|_].
    + eapply represents_add'; [apply agrees_locked_quantity0|]. destruct add; lia.
    + eapply represents_eq; [apply agrees_locked_quantity0|]. destruct add; lia.
Qed.

Lemma agrees_ext q trades trades' orders orders' :
  agrees q trades orders →
  (∀ f, trades' f = trades f) →
  orders' locked_cash_of = orders locked_cash_of →
  (∀ symbol, orders' (locked_quantity_of symbol) = orders (locked_quantity_of symbol)) →
  agrees q trades' orders'.
Proof. intros [] Ht Ho Hq. split; intros; rewrite ?Ht, ?Ho, ?Hq; done. Qed.

Lemma agrees_totals q q' trades orders :
  agrees q trades orders →
  iq_cash q' = iq_cash q → iq_available_cash q' = iq_available_cash q →
  iq_locked_buy_cash q' = iq_locked_buy_cash q →
  (∀ symbol, totals_of q' symbol = totals_of q symbol) → agrees q' trades orders.
Proof. intros [] H1 H2 H3 H4. split; intros; rewrite ?H1, ?H2, ?H3, ?H4; done. Qed.

(** ** The index follows the ledger *)

Definition indexed (m : PositionManager) : Prop :=
  match pm_queries m with
  | None => True
  | Some q => agrees q (λ f, total f (pm_trades m)) (λ f, total f (pm_pending_orders m))
  end.

Lemma upsert_indexed m k asset side size price s maker uf sf fs :
  indexed m → indexed (upsert_trade_inner m k asset side size price s maker uf sf fs).1.
Proof.
  intros H. unfold upsert_trade_inner. destruct (bad_upsert _ _ _ _ _ _ _ _ _) eqn:B; [done|].
  cbv zeta. destruct (match _ !! k with Some _ => _ | None => _ end); [done|].
  destruct (lifecycle _ _) as [r|]; [|done].
  set (t := match _ !! k with Some _ => _ | None => _ end).
  set (m1 := (with_queries m _) <| pm_trades := _ |>).
  assert (indexed m1) as H1.
  { unfold indexed in H |- *. subst m1. cbn. destruct (pm_queries m) as [q|]; [|done]. cbn.
    eapply agrees_ext; [apply transition_agrees, H|..]; try done. intros f. cbn. rewrite total_insert.
    subst t. destruct (pm_trades m !! k) as [e|]; cbn; [|lia]. by destruct e. }
  destruct (negb _); [|done]. by destruct maker.
Qed.

Lemma remove_indexed m id : indexed m → indexed (remove_pending_order m id).
Proof.
  intros H. unfold remove_pending_order. destruct (_ !! id) as [o|] eqn:E; [|done].
  unfold indexed in H |- *. cbn. destruct (pm_queries m) as [q|]; [|done]. cbn.
  eapply agrees_ext; [exact (reservation_agrees _ _ _ o false H)|..]; intros; cbn; rewrite ?(total_delete _ _ _ _ E); done.
Qed.

Lemma remove_lookup m id : pm_pending_orders (remove_pending_order m id) !! id = None.
Proof.
  unfold remove_pending_order. destruct (pm_pending_orders m !! id) as [o|] eqn:E; [|done]. apply lookup_delete_eq.
Qed.

Lemma register_indexed m id sym side price q fee :
  indexed m → indexed (register_pending_order_with_cash_fee m id sym side price q fee).
Proof.
  intros H. unfold register_pending_order_with_cash_fee. destruct (bad_cash_fee _ _ _); [done|].
  destruct (negb _); [done|]. apply (remove_indexed m id) in H. pose proof (remove_lookup m id) as E.
  generalize dependent (remove_pending_order m id). clear m. intros m H E. cbv zeta.
  unfold indexed in H |- *. cbn. destruct (pm_queries m) as [i|]; [|done]. cbn.
  eapply agrees_ext; [exact (reservation_agrees _ _ _ _ true H)|..]; intros; cbn; rewrite ?total_insert_new by done; lia.
Qed.

Lemma set_remaining_agrees q trades orders o r :
  agrees q trades orders →
  agrees (reservation (reservation q o (f64_neg f64_one)) (o <| po_remaining_quantity := r |>) f64_one) trades
    (λ f, orders f - f o + f (o <| po_remaining_quantity := r |>)).
Proof.
  intros H. apply (reservation_agrees _ _ _ o false) in H.
  exact (reservation_agrees _ _ _ (o <| po_remaining_quantity := r |>) true H).
Qed.

Lemma set_remaining_indexed m id o r :
  indexed m → pm_pending_orders m !! id = Some o → indexed (set_remaining m id o r).
Proof.
  intros H E. unfold indexed in H |- *. cbn. destruct (pm_queries m) as [q|]; [|done]. cbn.
  eapply agrees_ext; [apply set_remaining_agrees, H|..]; intros; cbn; rewrite ?total_insert, ?E; cbn; lia.
Qed.

(** A remaining quantity that is clamped to zero reserves nothing, so that the order may
    leave the map without the index being told. *)
Lemma clamped_zero x :
  (f64_max x f64_zero <=? f64_zero)%f64 = true → ∃ s, f64_max x f64_zero = S754_zero s.
Proof. destruct x as [s|[]| |[] m e]; cbn; intros H; try discriminate H; eauto. Qed.

Lemma units_mul_zero_l y s : units (y * S754_zero s)%f64 = 0.
Proof. by destruct y. Qed.

Lemma clear_indexed m id o x :
  indexed m → pm_pending_orders m !! id = Some o → (f64_max x f64_zero <=? f64_zero)%f64 = true →
  indexed ((set_remaining m id o (f64_max x f64_zero))
    <| pm_pending_orders := delete id (pm_pending_orders (set_remaining m id o (f64_max x f64_zero))) |>).
Proof.
  intros H E [s ->]%clamped_zero. apply (set_remaining_indexed _ _ _ (S754_zero s)) in E as H1; [|done].
  unfold indexed in H1 |- *. cbn in H1 |- *. destruct (pm_queries m) as [q|]; [|done]. cbn in H1 |- *.
  eapply agrees_ext; [apply H1|done|..]; intros; cbn;
    rewrite (total_delete _ _ id (o <| po_remaining_quantity := S754_zero s |>)) by apply lookup_insert_eq.
  - unfold locked_cash_of at 2. cbn. rewrite units_mul_zero_l. destruct (po_side o); lia.
  - unfold locked_quantity_of at 2. cbn. rewrite units_mul_zero_l. destruct (po_side o), (String.eqb (po_symbol o) symbol); lia.
Qed.

Lemma fold_transition_agrees q trades orders l :
  agrees q trades orders →
  agrees (fold_left (λ q t, transition q t None) l q) (λ f, trades f + foldr Z.add 0 (f <$> l)) orders.
Proof.
  revert q trades. induction l as [|t l IH]; intros q trades H.
  - eapply agrees_ext; [exact H|..]; try done. intros f. cbn. lia.
  - eapply agrees_ext; [exact (IH _ _ (transition_agrees _ _ _ t None H))|..]; try done.
    intros f. cbn. lia.
Qed.

Lemma fold_reservation_agrees q trades orders l :
  agrees q trades orders →
  agrees (fold_left (λ q o, reservation q o f64_one) l q) trades (λ f, orders f + foldr Z.add 0 (f <$> l)).
Proof.
  revert q orders. induction l as [|o l IH]; intros q orders H.
  - eapply agrees_ext; [exact H|..]; intros; cbn; lia.
  - eapply agrees_ext; [exact (IH _ _ (reservation_agrees _ _ _ o true H))|..]; intros; cbn; lia.
Qed.

Lemma empty_agrees q :
  iq_cash q = default_sum → iq_available_cash q = default_sum → iq_locked_buy_cash q = default_sum →
  (∀ symbol, totals_of q symbol = default_totals) → agrees q (λ _, 0) (λ _, 0).
Proof. intros H1 H2 H3 H4. split; intros; rewrite ?H1, ?H2, ?H3, ?H4; apply represents_zero. Qed.

Lemma enable_indexed m : indexed m → indexed (enable_incremental_queries m).
Proof.
  intros H. unfold enable_incremental_queries. destruct (pm_queries m) eqn:Eq; [done|]. cbv zeta.
  unfold indexed. cbn. eapply agrees_ext.
  - apply fold_reservation_agrees, fold_transition_agrees, empty_agrees; try done.
    intros symbol. unfold totals_of. cbn. rewrite lookup_fmap. by destruct (_ !! symbol).
  - intros f. cbn. by rewrite total_btree_values.
  - cbn. by rewrite total_btree_values.
  - intros symbol. cbn. by rewrite total_btree_values.
Qed.

Lemma adjust_quantity_indexed m symbol d : indexed m → indexed (adjust_quantity m symbol d).
Proof.
  intros H. unfold indexed in H |- *. cbn. destruct (pm_queries m) as [q|]; [|done]. cbn.
  destruct (iq_symbols q !! symbol) eqn:E; [done|]. eapply agrees_totals; [exact H|done..|].
  intros s. rewrite totals_of_set. destruct (String.eqb_spec symbol s) as [<-|_]; [|done].
  unfold totals_of. by rewrite E.
Qed.

Lemma run_indexed ops m : (∀ row, OAttribute row ∉ ops) → indexed m → indexed (run m ops).
Proof.
  intros Ha. apply run_preserves;
    auto using upsert_indexed, remove_indexed, register_indexed, set_remaining_indexed, clear_indexed,
      adjust_quantity_indexed, enable_indexed.
  intros [row Hr]. by destruct (Ha row).
Qed.

Definition has_index (m : PositionManager) : Prop := is_Some (pm_queries m).

Lemma with_queries_has_index m f : has_index m → has_index (with_queries m f).
Proof. intros [q E]. exists (f q). cbn. by rewrite E. Qed.

Lemma enable_has_index m : has_index (enable_incremental_queries m).
Proof.
  unfold enable_incremental_queries, has_index. destruct (pm_queries m) as [q|] eqn:E; [by exists q|by eexists].
Qed.

Lemma run_has_index ops m : (∀ row, OAttribute row ∉ ops) → has_index m → has_index (run m ops).
Proof.
  intros Ha. apply run_preserves; auto using with_queries_has_index.
  - intros m' k asset side size price s maker uf sf fs H. unfold upsert_trade_inner.
    destruct (bad_upsert _ _ _ _ _ _ _ _ _); [done|]. destruct (match _ !! k with Some _ => _ | None => _ end); [done|].
    destruct (lifecycle _ _) as [r|]; [|done]. cbv zeta. apply with_queries_has_index with (f := λ q, transition q
      (match pm_trades m' !! k with Some e => e <| tr_status := s |>
       | None => mkTradeRecord k asset side size price s maker uf sf fs true end) (tr_status <$> pm_trades m' !! k)) in H.
    destruct (negb _), maker; exact H.
  - intros m' id H. unfold remove_pending_order. destruct (_ !! id); [|done]. by apply with_queries_has_index.
  - intros m' id sym side price q fee H. unfold register_pending_order_with_cash_fee.
    destruct (bad_cash_fee _ _ _); [done|]. destruct (negb _); [done|]. cbv zeta.
    apply with_queries_has_index. unfold remove_pending_order. destruct (_ !! id); [|done]. by apply with_queries_has_index.
  - intros m' id o r H _. by apply with_queries_has_index, with_queries_has_index.
  - intros m' id o x H _ _. by apply with_queries_has_index, with_queries_has_index.
  - intros m' sym d H. by apply with_queries_has_index.
  - intros m' _. apply enable_has_index.
  - intros [row Hr]. by destruct (Ha row).
Qed.


Definition demo_trade (side : Side) : TradeArgs :=
  mkArgs "yes" side (f64_of_Z 10) (f64_dec 5 1) true f64_zero f64_zero LegacyV1.

(** A purchase and a sale around the moment the index is built, the sale failing. *)
Definition demo_history : list op :=
  [ORegister "o" "yes" Sell (f64_dec 5 1) (f64_of_Z 4) f64_zero; OUpsert "t" (demo_trade Buy) TMatched].
Definition demo_history' : list op :=
  [OUpsert "u" (demo_trade Sell) TMatched; OPrivateTrade "o" (f64_of_Z 1) 1; OUpsert "u" (demo_trade Sell) TFailed].

