(* ===== verification/LatestSnapshot.v ===== *)
(** * The replaceable snapshot lane

    [latest_snapshot] (hexagent-runtime/src/latest_snapshot.rs): one producer and one
    consumer exchange complete values through three slots.  The producer owns [back],
    the consumer owns [front], and the middle slot changes hands by one atomic exchange
    whose bit [DIRTY] says that it holds a value not yet read.

    The model is a step relation.  Each atomic access is one step, and the slots, which
    are [UnsafeCell]s, are written and read in two steps each, so that a value read
    while it is written would show as torn.  Memory is sequentially consistent: that
    the acquire and release accesses of the source suffice for this is not modelled.

    Proved: every interleaving behaves as one register that a publication overwrites
    and a reception empties; a value read is complete and is the one the exchange
    took; nothing is read twice or out of order; a consumer told of the disconnection
    has read the last value published. *)

From S2P Require Import Prelude.

Section LatestSnapshot.
Context {T : Type}.

Definition DIRTY : Z := 4.
Definition INDEX : Z := 3.

(** ** Shared state *)

(** A [MaybeUninit] slot; [Torn] while it is being written. *)
Inductive Cell := Uninit | Torn | Full (v : T).

Record Shared := mkShared {
  slots : list Cell;
  middle : Z;
  producer_alive : bool }.

Inductive TryRecvError := Empty | Disconnected.

(** Where the producer stands; the constructor names its next access. *)
Inductive PLocal :=
| PIdle
| PWrite (v : T)
| PWriting (v : T)
| PSwap (v : T)
| PDrop
| PGone.

(** Where the consumer stands. *)
Inductive RLocal :=
| RIdle
| RAlive
| RMiddle (alive : bool)
| RSwap
| RRead
| RReading (c : Cell).

(** What a step shows to an observer of both ends.  A reception shows the slot as it was
    found at the beginning and at the end of the read. *)
Inductive Event :=
| Published (v : T) (replaced : bool)
| Dropped
| Failed (e : TryRecvError)
| Taken
| Received (c c' : Cell).

Record State := mkState {
  shared : Shared;
  back : Z;
  publisher : PLocal;
  front : Z;
  receiver : RLocal }.

Definition channel : State :=
  mkState (mkShared [Uninit; Uninit; Uninit] 1 true) 2 PIdle 0 RIdle.

(** [slots[index]]; [None] is the panic of an index out of range. *)
Definition slot (s : Shared) (index : Z) : option Cell := slots s !! Z.to_nat index.

Definition set_slot (s : Shared) (index : Z) (c : Cell) : option Shared :=
  if (0 <=? index) && (index <? Z.of_nat (length (slots s)))
  then Some (s <| slots := <[Z.to_nat index := c]> (slots s) |>) else None.

(** One access of [publish] or of the drop. *)
Definition publisher_access (s : State) : option (State * list Event) :=
  match publisher s with
  | PIdle | PGone => None
  | PWrite v =>
      sh ← set_slot (shared s) (back s) Torn;
      Some (s <| shared := sh |> <| publisher := PWriting v |>, [])
  | PWriting v =>
      sh ← set_slot (shared s) (back s) (Full v);
      Some (s <| shared := sh |> <| publisher := PSwap v |>, [])
  | PSwap v =>
      let previous := middle (shared s) in
      Some (s <| shared := (shared s) <| middle := Z.lor (back s) DIRTY |> |>
              <| back := Z.land previous INDEX |> <| publisher := PIdle |>,
            [Published v (negb (Z.land previous DIRTY =? 0))])
  | PDrop =>
      Some (s <| shared := (shared s) <| producer_alive := false |> |> <| publisher := PGone |>, [Dropped])
  end.

(** One access of [try_recv]. *)
Definition receiver_access (s : State) : option (State * list Event) :=
  match receiver s with
  | RIdle => None
  | RAlive => Some (s <| receiver := RMiddle (producer_alive (shared s)) |>, [])
  | RMiddle alive =>
      if Z.land (middle (shared s)) DIRTY =? 0
      then Some (s <| receiver := RIdle |>, [Failed (if alive then Empty else Disconnected)])
      else Some (s <| receiver := RSwap |>, [])
  | RSwap =>
      let previous := middle (shared s) in
      Some (s <| shared := (shared s) <| middle := front s |> |>
              <| front := Z.land previous INDEX |> <| receiver := RRead |>, [Taken])
  | RRead => c ← slot (shared s) (front s); Some (s <| receiver := RReading c |>, [])
  | RReading c => c' ← slot (shared s) (front s); Some (s <| receiver := RIdle |>, [Received c c'])
  end.

(** [is_empty] *)
Definition is_empty (s : State) : bool := Z.land (middle (shared s)) DIRTY =? 0.

(** The producer publishes or goes away between calls, the consumer receives between
    calls, and either end makes its next access. *)
Inductive step : State → list Event → State → Prop :=
| step_publish s v : publisher s = PIdle → step s [] (s <| publisher := PWrite v |>)
| step_drop s : publisher s = PIdle → step s [] (s <| publisher := PDrop |>)
| step_try_recv s : receiver s = RIdle → step s [] (s <| receiver := RAlive |>)
| step_publisher s s' evs : publisher_access s = Some (s', evs) → step s evs s'
| step_receiver s s' evs : receiver_access s = Some (s', evs) → step s evs s'.

Inductive steps : State → list Event → State → Prop :=
| steps_refl s : steps s [] s
| steps_snoc s s' s'' tr evs : steps s tr s' → step s' evs s'' → steps s (tr ++ evs) s''.

(** ** The register *)

Record Register := mkRegister {
  unread : option T;
  taken : option T;
  alive : bool }.

Definition empty_register : Register := mkRegister None None true.

Inductive register_step : Register → Event → Register → Prop :=
| reg_publish u t v : register_step (mkRegister u t true) (Published v (bool_decide (is_Some u))) (mkRegister (Some v) t true)
| reg_drop u t : register_step (mkRegister u t true) Dropped (mkRegister u t false)
| reg_empty al : register_step (mkRegister None None al) (Failed Empty) (mkRegister None None al)
| reg_disconnected : register_step (mkRegister None None false) (Failed Disconnected) (mkRegister None None false)
| reg_taken v al : register_step (mkRegister (Some v) None al) Taken (mkRegister None (Some v) al)
| reg_received u v al : register_step (mkRegister u (Some v) al) (Received (Full v) (Full v)) (mkRegister u None al).

Inductive register_run : Register → list Event → Register → Prop :=
| run_refl r : register_run r [] r
| run_snoc r r' r'' tr ev : register_run r tr r' → register_step r' ev r'' → register_run r (tr ++ [ev]) r''.

(** ** Simulation *)

(** Owners of the three slots: each is a different one. *)
Definition three (a b c : Z) : Prop :=
  0 <= a <= 2 ∧ 0 <= b <= 2 ∧ 0 <= c <= 2 ∧ a ≠ b ∧ b ≠ c ∧ a ≠ c.

Definition publisher_ok (p : PLocal) (alive : bool) (c : option Cell) : Prop :=
  match p with
  | PIdle | PWrite _ | PDrop => alive = true
  | PWriting _ => alive = true ∧ c = Some Torn
  | PSwap v => alive = true ∧ c = Some (Full v)
  | PGone => alive = false
  end.

Definition receiver_ok (r : RLocal) (reg : Register) (c : option Cell) : Prop :=
  match r with
  | RIdle | RAlive => taken reg = None
  | RMiddle al => taken reg = None ∧ (al = false → alive reg = false)
  | RSwap => taken reg = None ∧ is_Some (unread reg)
  | RRead => ∃ v, taken reg = Some v ∧ c = Some (Full v)
  | RReading c' => ∃ v, taken reg = Some v ∧ c = Some (Full v) ∧ c' = Full v
  end.

(** The middle word names a third slot, dirty exactly when the register is unread. *)
Definition simulates (s : State) (reg : Register) : Prop :=
  ∃ m, length (slots (shared s)) = 3%nat ∧ three (back s) (front s) m ∧
  alive reg = producer_alive (shared s) ∧
  publisher_ok (publisher s) (producer_alive (shared s)) (slot (shared s) (back s)) ∧
  receiver_ok (receiver s) reg (slot (shared s) (front s)) ∧
  match unread reg with
  | None => middle (shared s) = m
  | Some v => middle (shared s) = Z.lor m DIRTY ∧ slot (shared s) m = Some (Full v)
  end.

Lemma word_clean m : 0 <= m <= 2 → Z.land m INDEX = m ∧ Z.land m DIRTY = 0.
Proof. intros H. assert (m = 0 ∨ m = 1 ∨ m = 2) as [->|[->| ->]] by lia; done. Qed.

Lemma word_dirty m : 0 <= m <= 2 → Z.land (Z.lor m DIRTY) INDEX = m ∧ Z.land (Z.lor m DIRTY) DIRTY = DIRTY.
Proof. intros H. assert (m = 0 ∨ m = 1 ∨ m = 2) as [->|[->| ->]] by lia; done. Qed.

Lemma set_slot_some sh i c :
  length (slots sh) = 3%nat → 0 <= i <= 2 →
  set_slot sh i c = Some (sh <| slots := <[Z.to_nat i := c]> (slots sh) |>).
Proof. intros Hl Hi. unfold set_slot. rewrite Hl.
  by rewrite (proj2 (Z.leb_le 0 i)), (proj2 (Z.ltb_lt i (Z.of_nat 3))) by lia. Qed.

Lemma slot_set sh i j c :
  length (slots sh) = 3%nat → 0 <= i <= 2 → 0 <= j <= 2 →
  slot (sh <| slots := <[Z.to_nat i := c]> (slots sh) |>) j = if decide (i = j) then Some c else slot sh j.
Proof.
  intros Hl Hi Hj. unfold slot.
  change (slots (sh <| slots := <[Z.to_nat i := c]> (slots sh) |>)) with (<[Z.to_nat i := c]> (slots sh)).
  destruct (decide (i = j)) as [->|Hn].
  - rewrite list_lookup_insert_eq; [done|]. rewrite Hl. lia.
  - rewrite list_lookup_insert_ne; [done|]. lia.
Qed.

(** The producer only writes the slot it owns. *)
Lemma write_back sh back front m c :
  length (slots sh) = 3%nat → three back front m →
  ∃ sh', set_slot sh back c = Some sh' ∧ length (slots sh') = 3%nat ∧
    middle sh' = middle sh ∧ producer_alive sh' = producer_alive sh ∧
    slot sh' back = Some c ∧ slot sh' front = slot sh front ∧ slot sh' m = slot sh m.
Proof.
  intros Hl (Hb & Hf & Hm & H1 & H2 & H3). eexists. split; [by apply set_slot_some|].
  rewrite !slot_set by done. rewrite decide_True, !decide_False by done.
  split_and!; try done. cbn. by rewrite length_insert.
Qed.

Lemma publisher_access_simulates s reg s' evs :
  simulates s reg → publisher_access s = Some (s', evs) →
  ∃ reg', match evs with [] => reg' = reg | ev :: _ => evs = [ev] ∧ register_step reg ev reg' end ∧ simulates s' reg'.
Proof.
  destruct s as [sh back p front r], reg as [u t al].
  intros (m & Hl & H3 & Ha & Hp & Hr & Hu) E. cbn in Hl, H3, Ha, Hp, Hr, Hu. subst al.
  unfold publisher_access in E. cbn in E. destruct p as [|v|v|v| |]; try done.
  - destruct (write_back sh back front m Torn Hl H3) as (sh' & Es & Hl' & Em & Ea & Sb & Sf & Sm).
    rewrite Es in E. cbn in E. injection E as <- <-. eexists. split; [done|]. exists m. cbn.
    rewrite Sb, Sf, Sm, Em, Ea. split_and!; done.
  - destruct (write_back sh back front m (Full v) Hl H3) as (sh' & Es & Hl' & Em & Ea & Sb & Sf & Sm).
    rewrite Es in E. cbn in E. injection E as <- <-. eexists. split; [done|]. exists m. cbn.
    rewrite Sb, Sf, Sm, Em, Ea. destruct Hp. split_and!; done.
  - injection E as <- <-. destruct Hp as [Ha Hb]. rewrite Ha. destruct H3 as (R1 & R2 & R3 & H3).
    assert (negb (Z.land (middle sh) DIRTY =? 0) = bool_decide (is_Some u) ∧ Z.land (middle sh) INDEX = m) as [-> Hm].
    { destruct u as [w|].
      - destruct Hu as [-> _]. destruct (word_dirty m R3) as [-> ->]. done.
      - rewrite Hu. destruct (word_clean m R3) as [-> ->]. done. }
    eexists. split; [split; [done|constructor]|]. exists back. cbn. rewrite Hm, Ha.
    split_and!; try done; [unfold three; lia|]. destruct r; cbn in *; naive_solver.
  - injection E as <- <-. rewrite Hp. eexists. split; [split; [done|constructor]|]. exists m. cbn.
    split_and!; try done. destruct r; cbn in *; naive_solver.
Qed.

Lemma receiver_access_simulates s reg s' evs :
  simulates s reg → receiver_access s = Some (s', evs) →
  ∃ reg', match evs with [] => reg' = reg | ev :: _ => evs = [ev] ∧ register_step reg ev reg' end ∧ simulates s' reg'.
Proof.
  destruct s as [sh back p front r], reg as [u t al].
  intros (m & Hl & H3 & Ha & Hp & Hr & Hu) E. cbn in Hl, H3, Ha, Hp, Hr, Hu. subst al.
  unfold receiver_access in E. cbn in E. destruct r as [| |al| | |c]; cbn in Hr; try done.
  - injection E as <- <-. eexists. split; [done|]. exists m. by split_and!.
  - destruct Hr as [-> Hal]. pose proof H3 as (_ & _ & R3 & _). destruct u as [w|].
    + destruct Hu as [Em Hu]. rewrite Em in E. destruct (word_dirty m R3) as [_ Hd]. rewrite Hd in E.
      injection E as <- <-. eexists. split; [done|]. exists m. cbn. split_and!; eauto; done.
    + destruct (word_clean m R3) as [_ Hc]. rewrite Hu, Hc in E. injection E as <- <-.
      exists (mkRegister None None (producer_alive sh)). split; [split; [done|]|exists m; cbn; by split_and!].
      destruct al; [constructor|]. cbn in Hal. rewrite Hal by done. constructor.
  - destruct Hr as [-> [w ->]]. destruct Hu as [Em Hu]. destruct H3 as (R1 & R2 & R3 & H3).
    rewrite Em in E. destruct (word_dirty m R3) as [Hi _]. rewrite Hi in E. injection E as <- <-.
    eexists. split; [split; [done|constructor]|]. exists front. cbn. split_and!; try done; [unfold three; lia|].
    by exists w.
  - destruct Hr as (w & -> & Hf). rewrite Hf in E. cbn in E. injection E as <- <-.
    eexists. split; [done|]. exists m. cbn. split_and!; try done. by exists w.
  - destruct Hr as (w & -> & Hf & ->). rewrite Hf in E. cbn in E. injection E as <- <-.
    eexists. split; [split; [done|constructor]|]. exists m. cbn. by split_and!.
Qed.

Lemma step_simulates s reg s' evs :
  simulates s reg → step s evs s' →
  ∃ reg', match evs with [] => reg' = reg | ev :: _ => evs = [ev] ∧ register_step reg ev reg' end ∧ simulates s' reg'.
Proof.
  intros H Hs. destruct Hs as [s v Hi|s Hi|s Hi|s s' evs E|s s' evs E];
    eauto using publisher_access_simulates, receiver_access_simulates.
  all: exists reg; split; [done|]; destruct H as (m & Hl & H3 & Ha & Hp & Hr & Hu); exists m;
    cbn; rewrite ?Hi in *; cbn in *; split_and!; done.
Qed.

Lemma steps_simulate tr s :
  steps channel tr s → ∃ reg, register_run empty_register tr reg ∧ simulates s reg.
Proof.
  intros H. remember channel as s0 eqn:E0. induction H as [s|s s' s'' tr evs _ IH Hs]; subst.
  - exists empty_register. split; [constructor|]. exists 1. cbn. unfold three. split_and!; try done; lia.
  - destruct (IH eq_refl) as (reg & Hrun & Hsim). destruct (step_simulates _ _ _ _ Hsim Hs) as (reg' & He & Hsim').
    exists reg'. split; [|done]. destruct evs as [|ev evs]; [by rewrite app_nil_r, He|].
    destruct He as [-> He]. by econstructor.
Qed.

(** ** What the two ends see *)

Definition published (tr : list Event) : list T :=
  omap (λ ev, match ev with Published v _ => Some v | _ => None end) tr.

Definition received (tr : list Event) : list (Cell * Cell) :=
  omap (λ ev, match ev with Received c c' => Some (c, c') | _ => None end) tr.

(** How many times the producer was told that it replaced an unread value. *)
Definition replacements (tr : list Event) : nat :=
  length (List.filter (λ ev, match ev with Published _ replaced => replaced | _ => false end) tr).

Definition in_flight (reg : Register) : list T := option_list (taken reg) ++ option_list (unread reg).

Lemma register_run_order tr reg :
  register_run empty_register tr reg →
  ∃ vs, received tr = (λ v, (Full v, Full v)) <$> vs ∧
    sublist (vs ++ in_flight reg) (published tr) ∧
    last (vs ++ in_flight reg) = last (published tr) ∧
    length (published tr) = (length (vs ++ in_flight reg) + replacements tr)%nat.
Proof.
  intros H. remember empty_register as r0 eqn:E0. induction H as [r|r r' r'' tr ev _ IH Hs]; subst.
  { by exists []. }
  destruct (IH eq_refl) as (vs & Hr & Hsub & Hlast & Hlen).
  unfold published, received, replacements in *. rewrite !omap_app, List.filter_app, length_app, Hr.
  destruct Hs as [u t v|u t|al| |v al|u v al]; unfold in_flight in *; cbn in *; rewrite ?app_nil_r in *.
  - exists vs. split; [done|]. destruct u as [w|]; cbn in *.
    + rewrite !app_assoc in *. rewrite !length_app in *. cbn in *. split_and!; [|by rewrite !last_snoc|lia].
      apply sublist_app; [|done]. etrans; [|exact Hsub]. by apply sublist_inserts_r.
    + rewrite app_nil_r in *. rewrite !app_assoc. split_and!; [by apply sublist_app|by rewrite !last_snoc|].
      rewrite !length_app in *. cbn. lia.
  - exists vs. split_and!; try done. lia.
  - exists vs. rewrite ?app_nil_r in *. split_and!; try done. lia.
  - exists vs. rewrite ?app_nil_r in *. split_and!; try done. lia.
  - exists vs. split_and!; try done. lia.
  - exists (vs ++ [v]). rewrite fmap_app, <- app_assoc. cbn. split_and!; try done. lia.
Qed.

Lemma access_progress s reg :
  simulates s reg →
  (publisher s ≠ PIdle → publisher s ≠ PGone → is_Some (publisher_access s)) ∧
  (receiver s ≠ RIdle → is_Some (receiver_access s)).
Proof.
  intros (m & Hl & H3 & Ha & Hp & Hr & Hu). split.
  - intros H1 H2. unfold publisher_access. destruct (publisher s) as [|v|v|v| |]; try done; eauto.
    + destruct (write_back _ _ _ _ Torn Hl H3) as (sh' & -> & _). cbn. eauto.
    + destruct (write_back _ _ _ _ (Full v) Hl H3) as (sh' & -> & _). cbn. eauto.
  - intros H1. unfold receiver_access. destruct (receiver s) as [| |al| | |c]; try done; eauto.
    + destruct (_ =? _); eauto.
    + destruct Hr as (v & _ & ->). cbn. eauto.
    + destruct Hr as (v & _ & -> & _). cbn. eauto.
Qed.

(** ** Schedules *)

(** A choice of what happens next. *)
Inductive Choice := CPublish (v : T) | CDrop | CTryRecv | CPublisher | CReceiver.

Definition choose (s : State) (c : Choice) : option (State * list Event) :=
  match c, publisher s, receiver s with
  | CPublish v, PIdle, _ => Some (s <| publisher := PWrite v |>, [])
  | CDrop, PIdle, _ => Some (s <| publisher := PDrop |>, [])
  | CTryRecv, _, RIdle => Some (s <| receiver := RAlive |>, [])
  | CPublisher, _, _ => publisher_access s
  | CReceiver, _, _ => receiver_access s
  | _, _, _ => None
  end.

Fixpoint schedule (s : State) (tr : list Event) (cs : list Choice) : option (State * list Event) :=
  match cs with
  | [] => Some (s, tr)
  | c :: cs => '(s', evs) ← choose s c; schedule s' (tr ++ evs) cs
  end.

Lemma choose_step s c s' evs : choose s c = Some (s', evs) → step s evs s'.
Proof.
  unfold choose. intros H. destruct c, (publisher s) eqn:Ep, (receiver s) eqn:Er; simplify_eq;
    try (by constructor); first [by apply step_publisher|by apply step_receiver].
Qed.

Lemma schedule_steps s0 s tr cs s' tr' :
  steps s0 tr s → schedule s tr cs = Some (s', tr') → steps s0 tr' s'.
Proof.
  revert s tr. induction cs as [|c cs IH]; intros s tr H E; cbn in E; [by simplify_eq|].
  destruct (choose s c) as [[s1 evs]|] eqn:Ec; [|done]. apply (IH _ _ (steps_snoc _ _ _ _ _ H (choose_step _ _ _ _ Ec)) E).
Qed.

(** C13: The lane is a register under every interleaving.  The events of any run are those
    of one cell that a publication overwrites, reporting whether it was unread, and a
    reception empties.  Every value received was complete when its read began and when
    it ended, the values received are a subsequence of those published, and each value
    published is received, reported as replaced or still there.  A consumer that is
    told of the disconnection has received the last value, and neither end ever waits
    for the other or indexes outside the slots. *)
Theorem snapshot_lane_correct tr s :
  steps channel tr s →
  ∃ reg vs,
    register_run empty_register tr reg ∧
    received tr = (λ v, (Full v, Full v)) <$> vs ∧
    sublist (vs ++ in_flight reg) (published tr) ∧
    length (published tr) = (length vs + length (in_flight reg) + replacements tr)%nat ∧
    (last tr = Some (Failed Disconnected) → last vs = last (published tr)) ∧
    (publisher s ≠ PIdle → publisher s ≠ PGone → is_Some (publisher_access s)) ∧
    (receiver s ≠ RIdle → is_Some (receiver_access s)).
Proof.
  intros H. destruct (steps_simulate _ _ H) as (reg & Hrun & Hsim).
  destruct (register_run_order _ _ Hrun) as (vs & Hr & Hsub & Hlast & Hlen).
  destruct (access_progress _ _ Hsim) as [Hp Hq].
  exists reg, vs. split_and!; try done; [rewrite Hlen, length_app; lia|].
  intros Hd. rewrite <- Hlast. inversion Hrun as [|r r' r'' tr' ev _ Hs]; subst; [done|].
  rewrite last_snoc in Hd. injection Hd as ->. inversion Hs; subst. cbn. by rewrite app_nil_r.
Qed.

End LatestSnapshot.

(** The producer publishes twice while the consumer is between its load and its exchange,
    goes away, and the consumer receives the second value and is told of the end. *)
Definition demo_schedule : list (@Choice Z) :=
  [CPublish 1; CPublisher; CPublisher; CPublisher; CTryRecv; CReceiver; CReceiver;
   CPublish 2; CPublisher; CPublisher; CPublisher; CDrop; CPublisher;
   CReceiver; CReceiver; CReceiver; CTryRecv; CReceiver; CReceiver].

Definition demo_events : list (@Event Z) :=
  [Published 1 false; Published 2 true; Dropped; Taken; Received (Full 2) (Full 2); Failed Disconnected].

Lemma snapshot_lane_correct_witness :
  ∃ vs, received demo_events = (λ v, (Full v, Full v)) <$> vs ∧ last vs = Some 2.
Proof.
  destruct (snapshot_lane_correct demo_events
    (mkState (mkShared [Uninit; Full 2; Full 1] 0 false) 2 PGone 1 RIdle)) as (reg & vs & H).
  - apply (schedule_steps channel channel [] demo_schedule); [constructor|]. vm_compute. reflexivity.
  - destruct H as (_ & Hr & _ & _ & Hl & _). exists vs. split; [exact Hr|exact (Hl eq_refl)].
Defined.
