(* ===== verification/GcIndex.v ===== *)
(** * Rows indexed by token and by order

    [TokenIndexedRows] (hexagent-account/src/account/shared_account_gc_index.rs): the rows
    of an account instance with two derived indexes, and the cursors by which the garbage
    collector walks the rows of some tokens a few at a time.  Keys are strings; the set
    of keys of a token is ordered, so its iteration is [btree_iter].  The tokens of a
    scan are a [HashSet] whose order is not specified: the scan takes the list of
    them in whatever order it is.

    Proved: the indexes list exactly the rows; the cursors name live tokens only; a
    scan returns at most its budget, and the scans of one round return every key of the
    requested tokens exactly once, however the budget divides and wherever the cursors
    stand. *)

From S2P Require Import Prelude BTree.

(** ** Rows *)

Class IndexedRow (V : Type) := {
  token : V → string;
  order_key : V → option string }.

Section GcIndex.
Context {V : Type} `{!IndexedRow V}.

Record TokenIndexedRows := mkRows {
  rows : gmap string V;
  by_token : gmap string (gset string);
  by_order : gmap string (gset string);
  cursors : gmap string string;
  scan_remaining : gmap string nat }.

Definition default_rows : TokenIndexedRows := mkRows ∅ ∅ ∅ ∅ ∅.

(** [entry(k).or_default().insert(key)] *)
Definition index_add (index : gmap string (gset string)) (k key : string) : gmap string (gset string) :=
  <[k := {[key]} ∪ default ∅ (index !! k)]> index.

(** The key leaves the set, which leaves the map when it becomes empty. *)
Definition index_remove (index : gmap string (gset string)) (k key : string) : gmap string (gset string) :=
  match index !! k with
  | None => index
  | Some keys =>
      let keys := keys ∖ {[key]} in
      if bool_decide (keys = ∅) then delete k index else <[k := keys]> index
  end.

Definition remove (self : TokenIndexedRows) (key : string) : TokenIndexedRows * option V :=
  match rows self !! key with
  | None => (self, None)
  | Some row =>
      let self := self <| rows := delete key (rows self) |> in
      let emptied := match by_token self !! token row with
                     | Some keys => bool_decide (keys ∖ {[key]} = ∅)
                     | None => false
                     end in
      let self := self <| by_token := index_remove (by_token self) (token row) key |> in
      let self :=
        if emptied then self <| cursors := delete (token row) (cursors self) |>
                             <| scan_remaining := delete (token row) (scan_remaining self) |>
        else self in
      let self := match order_key row with
                  | Some order => self <| by_order := index_remove (by_order self) order key |>
                  | None => self
                  end in
      (self, Some row)
  end.

Definition insert_row (self : TokenIndexedRows) (key : string) (value : V) : TokenIndexedRows * option V :=
  if match rows self !! key with
     | Some old => bool_decide (token old = token value) && bool_decide (order_key old = order_key value)
     | None => false
     end
  then (self <| rows := <[key := value]> (rows self) |>, rows self !! key)
  else
    let '(self, previous) := remove self key in
    let self := self <| by_token := index_add (by_token self) (token value) key |> in
    let self := match order_key value with
                | Some order => self <| by_order := index_add (by_order self) order key |>
                | None => self
                end in
    (self <| rows := <[key := value]> (rows self) |>, previous).

(** What a caller does through [get_mut]: any change of the row. *)
Definition update_row (self : TokenIndexedRows) (key : string) (f : V → V) : TokenIndexedRows :=
  self <| rows := alter f key (rows self) |>.

Definition from_iter (entries : list (string * V)) : TokenIndexedRows :=
  fold_left (λ rows '(key, value), (insert_row rows key value).1) entries default_rows.

Definition replace_rows (self : TokenIndexedRows) (entries : list (string * V)) : TokenIndexedRows :=
  let next := from_iter entries in
  next <| cursors := filter (λ '(token, _), is_Some (by_token next !! token)) (cursors self) |>
       <| scan_remaining := filter (λ '(token, _), is_Some (by_token next !! token)) (scan_remaining self) |>.

Definition rows_for_order (self : TokenIndexedRows) (coid : string) : list (string * V) :=
  omap (λ key, pair key <$> rows self !! key) (elements (default ∅ (by_order self !! coid))).

Definition has_tokens (self : TokenIndexedRows) (tokens : list string) : bool :=
  existsb (λ token, bool_decide (is_Some (by_token self !! token))) tokens.

Definition scan_incomplete (self : TokenIndexedRows) (tokens : list string) : bool :=
  existsb (λ token, match scan_remaining self !! token with
                    | Some remaining => (0 <? remaining)%nat
                    | None => false
                    end) tokens.

(** ** Scanning *)

(** The keys strictly after a cursor, and the others. *)
Definition keys_after (cursor : string) (keys : gset string) : list string :=
  filter (λ k, ¬ str_le k cursor) (btree_iter keys).
Definition keys_upto (cursor : string) (keys : gset string) : list string :=
  filter (λ k, str_le k cursor) (btree_iter keys).

(** The keys a token contributes to the output. *)
Definition scan_take (cursor : option string) (keys : gset string) (limit : nat) : list string :=
  match cursor with
  | Some cursor =>
      let first := take limit (keys_after cursor keys) in
      first ++ take (limit - length first) (keys_upto cursor keys)
  | None => take limit (btree_iter keys)
  end.

(** One turn of the loop over the tokens; once the budget is reached the rest of the
    loop changes nothing, as after the [break]. *)
Definition scan_token (budget per_token : nat) (acc : TokenIndexedRows * list string) (token : string)
    : TokenIndexedRows * list string :=
  let '(self, out) := acc in
  if (length out =? budget)%nat then (self, out)
  else match by_token self !! token with
       | None => (self, out)
       | Some keys =>
           let pending := default (size keys) (scan_remaining self !! token) in
           if (pending =? 0)%nat then (self, out)
           else
             let limit := ((per_token `min` (budget - length out)) `min` pending)%nat in
             let got := scan_take (cursors self !! token) keys limit in
             let remaining := (default 0 (scan_remaining self !! token) - length got)%nat in
             let self := self <| scan_remaining := <[token := remaining]> (scan_remaining self) |> in
             let self := match last got with
                         | Some key => self <| cursors := <[token := key]> (cursors self) |>
                         | None => self
                         end in
             (self, out ++ got)
       end.

(** A new round starts with the number of keys of each token. *)
Definition start_round (self : TokenIndexedRows) (tokens : list string) : TokenIndexedRows :=
  fold_left (λ self token,
    match by_token self !! token with
    | Some keys => self <| scan_remaining := <[token := size keys]> (scan_remaining self) |>
    | None => self
    end) tokens self.

Definition scan_keys (self : TokenIndexedRows) (tokens : list string) (budget : nat)
    : TokenIndexedRows * list string :=
  let self := if scan_incomplete self tokens then self else start_round self tokens in
  let per_token := ((budget / (length tokens `max` 1)) `max` 1)%nat in
  fold_left (scan_token budget per_token) tokens (self, []).

(** ** The indexes are exact *)

(** The sets of an index are those of a relation, and none is empty. *)
Definition exact (index : gmap string (gset string)) (P : string → string → Prop) : Prop :=
  (∀ k key, key ∈ default ∅ (index !! k) ↔ P k key) ∧ ∀ k, index !! k ≠ Some ∅.

Lemma exact_ext index P Q : exact index P → (∀ k key, Q k key ↔ P k key) → exact index Q.
Proof. intros [H1 H2] HQ. split; [|done]. intros k key. by rewrite HQ. Qed.

Lemma exact_add index P k key :
  exact index P → exact (index_add index k key) (λ k' key', P k' key' ∨ (k' = k ∧ key' = key)).
Proof.
  intros [H1 H2]. unfold index_add. split.
  - intros k' key'. destruct (decide (k' = k)) as [->|Hn].
    + rewrite lookup_insert_eq. cbn. rewrite elem_of_union, elem_of_singleton, H1. naive_solver.
    + rewrite lookup_insert_ne, H1 by done. naive_solver.
  - intros k'. destruct (decide (k' = k)) as [->|Hn].
    + rewrite lookup_insert_eq. intros [= E]. set_solver.
    + by rewrite lookup_insert_ne.
Qed.

Lemma exact_remove index P k key :
  exact index P → exact (index_remove index k key) (λ k' key', P k' key' ∧ ¬ (k' = k ∧ key' = key)).
Proof.
  intros [H1 H2]. unfold index_remove. destruct (index !! k) as [keys|] eqn:E.
  - assert (∀ key', key' ∈ keys ↔ P k key') as Hk by (intros; by rewrite <- H1, E).
    destruct (bool_decide _) eqn:B; bool_hyps; split; intros k'; (destruct (decide (k' = k)) as [->|Hn]).
    + intros key'. rewrite lookup_delete_eq. cbn. rewrite <- Hk. set_solver.
    + intros key'. rewrite lookup_delete_ne, H1 by done. naive_solver.
    + by rewrite lookup_delete_eq.
    + by rewrite lookup_delete_ne.
    + intros key'. rewrite lookup_insert_eq. cbn. rewrite <- Hk. set_solver.
    + intros key'. rewrite lookup_insert_ne, H1 by done. naive_solver.
    + rewrite lookup_insert_eq. naive_solver.
    + by rewrite lookup_insert_ne.
  - split; [|done]. intros k' key'. rewrite H1. split; [|tauto]. intros HP. split; [done|]. intros [-> ->].
    apply H1 in HP. rewrite E in HP. set_solver.
Qed.

Definition token_of (m : gmap string V) (t key : string) : Prop := ∃ v, m !! key = Some v ∧ token v = t.
Definition order_of (m : gmap string V) (o key : string) : Prop := ∃ v, m !! key = Some v ∧ order_key v = Some o.

Record wf (self : TokenIndexedRows) : Prop := {
  wf_token : exact (by_token self) (token_of (rows self));
  wf_order : exact (by_order self) (order_of (rows self));
  wf_cursors : dom (cursors self) ⊆ dom (by_token self);
  wf_scan : dom (scan_remaining self) ⊆ dom (by_token self) }.

Lemma default_wf : wf default_rows.
Proof.
  split; cbn; try done; (split; [|done]); intros k key; rewrite lookup_empty; cbn; (split; [set_solver|]);
    intros (v & Hv & _); by rewrite lookup_empty in Hv.
Qed.

Lemma index_remove_dom index k key :
  dom (index_remove index k key) =
  match index !! k with
  | Some keys => if bool_decide (keys ∖ {[key]} = ∅) then dom index ∖ {[k]} else dom index
  | None => dom index
  end.
Proof.
  unfold index_remove. destruct (index !! k) as [keys|] eqn:E; [|done].
  destruct (bool_decide _); [by rewrite dom_delete_L|].
  rewrite dom_insert_L. apply elem_of_dom_2 in E. set_solver.
Qed.

Lemma remove_wf self key : wf self → wf (remove self key).1 ∧ rows (remove self key).1 = delete key (rows self).
Proof.
  intros [Ht Ho Hc Hs]. unfold remove. destruct (rows self !! key) as [row|] eqn:E.
  2: { split; [by split|]. symmetry. by apply delete_id. }
  assert (exact (index_remove (by_token self) (token row) key) (token_of (delete key (rows self)))) as Ht'.
  { eapply exact_ext; [apply exact_remove, Ht|]. intros t k. unfold token_of. setoid_rewrite lookup_delete_Some.
    naive_solver. }
  assert (∀ o, order_key row = Some o →
    exact (index_remove (by_order self) o key) (order_of (delete key (rows self)))) as Ho'.
  { intros o Eo. eapply exact_ext; [apply exact_remove, Ho|]. intros t k. unfold order_of.
    setoid_rewrite lookup_delete_Some. naive_solver. }
  assert (order_key row = None → exact (by_order self) (order_of (delete key (rows self)))) as Hn.
  { intros Eo. eapply exact_ext; [apply Ho|]. intros t k. unfold order_of. setoid_rewrite lookup_delete_Some.
    naive_solver. }
  pose proof (index_remove_dom (by_token self) (token row) key) as Hd.
  cbv zeta. cbn [by_token set]. destruct (by_token self !! token row) as [keys|] eqn:Ek;
    [destruct (bool_decide (keys ∖ {[key]} = ∅))|]; destruct (order_key row) as [o|];
    (split; [split; cbn; auto; rewrite ?Hd, ?dom_delete_L; set_solver|done]).
Qed.

(** A row replaced by one of the same identity is found under the same identities. *)
Lemma replace_same {X} (g : V → X) (m : gmap string V) key old value k x :
  m !! key = Some old → g old = g value →
  (∃ v, <[key := value]> m !! k = Some v ∧ g v = x) ↔ (∃ v, m !! k = Some v ∧ g v = x).
Proof.
  intros E Eg. destruct (decide (k = key)) as [->|Hn].
  - rewrite lookup_insert_eq, E. naive_solver.
  - by rewrite lookup_insert_ne.
Qed.

Lemma insert_row_wf self key value :
  wf self → wf (insert_row self key value).1 ∧ rows (insert_row self key value).1 = <[key := value]> (rows self).
Proof.
  intros H. unfold insert_row. destruct (match rows self !! key with Some _ => _ | None => _ end) eqn:B.
  - split; [|done]. destruct (rows self !! key) as [old|] eqn:E; [|done]. bool_hyps. destruct H as [Ht Ho Hc Hs].
    split; cbn; try done.
    + eapply exact_ext; [apply Ht|]. intros t k. by apply (replace_same token _ key old).
    + eapply exact_ext; [apply Ho|]. intros t k. by apply (replace_same order_key _ key old).
  - destruct (remove_wf self key H) as [[Ht Ho Hc Hs] Hr]. destruct (remove self key) as [self1 prev].
    cbn [fst] in *. rewrite Hr in Ht, Ho.
    assert (exact (index_add (by_token self1) (token value) key) (token_of (<[key := value]> (rows self)))) as Ht'.
    { eapply exact_ext; [apply exact_add, Ht|]. intros t k. unfold token_of. setoid_rewrite lookup_insert_Some.
      setoid_rewrite lookup_delete_Some. destruct (decide (k = key)); naive_solver. }
    assert (∀ o, order_key value = Some o →
      exact (index_add (by_order self1) o key) (order_of (<[key := value]> (rows self)))) as Ho'.
    { intros o Eo. eapply exact_ext; [apply exact_add, Ho|]. intros t k. unfold order_of.
      setoid_rewrite lookup_insert_Some. setoid_rewrite lookup_delete_Some. destruct (decide (k = key)); naive_solver. }
    assert (order_key value = None → exact (by_order self1) (order_of (<[key := value]> (rows self)))) as Hn.
    { intros Eo. eapply exact_ext; [apply Ho|]. intros t k. unfold order_of. setoid_rewrite lookup_insert_Some.
      setoid_rewrite lookup_delete_Some. destruct (decide (k = key)); naive_solver. }
    assert (<[key := value]> (rows self1) = <[key := value]> (rows self)) as Hr' by (rewrite Hr; apply insert_delete_eq).
    destruct (order_key value) as [o|]; (split; [split; cbn; rewrite ?Hr'; auto; unfold index_add; set_solver|done]).
Qed.

Lemma update_row_wf self key f :
  wf self → (∀ v, rows self !! key = Some v → token (f v) = token v ∧ order_key (f v) = order_key v) →
  wf (update_row self key f).
Proof.
  intros [Ht Ho Hc Hs] Hf. unfold update_row. destruct (rows self !! key) as [old|] eqn:E.
  2: { assert (alter f key (rows self) = rows self) as Ea by (apply map_eq; intros i; destruct (decide (i = key)) as [->|];
         [by rewrite lookup_alter_eq, E|by rewrite lookup_alter_ne]). split; cbn; rewrite ?Ea; done. }
  destruct (Hf old eq_refl) as [E1 E2].
  assert (alter f key (rows self) = <[key := f old]> (rows self)) as Ea.
  { apply map_eq. intros i. destruct (decide (i = key)) as [->|];
      [by rewrite lookup_alter_eq, E, lookup_insert_eq|by rewrite lookup_alter_ne, lookup_insert_ne]. }
  split; cbn; rewrite ?Ea; try done.
  - eapply exact_ext; [apply Ht|]. intros t k. by apply (replace_same token _ key old).
  - eapply exact_ext; [apply Ho|]. intros t k. by apply (replace_same order_key _ key old).
Qed.

Lemma from_iter_wf entries :
  wf (from_iter entries) ∧ rows (from_iter entries) = list_to_map (reverse entries).
Proof.
  unfold from_iter.
  assert (∀ self m, wf self → rows self = m →
    wf (fold_left (λ rows '(key, value), (insert_row rows key value).1) entries self) ∧
    rows (fold_left (λ rows '(key, value), (insert_row rows key value).1) entries self) =
      fold_left (λ m e, <[e.1 := e.2]> m) entries m) as H.
  { induction entries as [|[key value] entries IH]; intros self m Hw Hr; [done|]. cbn.
    destruct (insert_row_wf self key value Hw) as [Hw' Hr']. apply IH; [done|]. by rewrite Hr', Hr. }
  destruct (H _ _ default_wf eq_refl) as [Hw Hr]. split; [done|]. rewrite Hr. clear. cbn [default_rows rows].
  induction entries as [|e entries IH] using rev_ind; [done|].
  rewrite fold_left_app, reverse_snoc, IH. by destruct e.
Qed.

Lemma replace_rows_wf self entries :
  wf (replace_rows self entries) ∧ rows (replace_rows self entries) = list_to_map (reverse entries).
Proof.
  destruct (from_iter_wf entries) as [[Ht Ho Hc Hs] Hr]. split; [|exact Hr]. split; cbn; try done.
  - intros t Ht'. apply elem_of_dom in Ht' as [c Hc']. apply map_lookup_filter_Some in Hc' as [_ H]. by apply elem_of_dom.
  - intros t Ht'. apply elem_of_dom in Ht' as [c Hc']. apply map_lookup_filter_Some in Hc' as [_ H]. by apply elem_of_dom.
Qed.

Lemma rows_for_order_exact self coid key v :
  wf self → (key, v) ∈ rows_for_order self coid ↔ rows self !! key = Some v ∧ order_key v = Some coid.
Proof.
  intros [_ [Ho _] _ _]. unfold rows_for_order. rewrite list_elem_of_omap. split.
  - intros (k & Hk%elem_of_elements & He). apply Ho in Hk as (w & Hw & Eo). rewrite Hw in He. cbn in He.
    injection He as -> ->. done.
  - intros [Hv Eo]. exists key. split; [|by rewrite Hv]. apply elem_of_elements, Ho. by exists v.
Qed.

(** ** Rotation *)

(** The keys of a token in the order in which a cursor reaches them. *)
Definition rotation (cursor : option string) (keys : gset string) : list string :=
  match cursor with
  | Some cursor => keys_after cursor keys ++ keys_upto cursor keys
  | None => btree_iter keys
  end.

Lemma scan_take_rotation cursor keys limit : scan_take cursor keys limit = take limit (rotation cursor keys).
Proof.
  destruct cursor as [c|]; [|done]. cbn. rewrite take_app, length_take. f_equal. f_equal. lia.
Qed.

Lemma filter_all {A} (P : A → Prop) `{!∀ x, Decision (P x)} (l : list A) : Forall P l → filter P l = l.
Proof. induction 1 as [|x l Hx _ IH]; [done|]. by rewrite filter_cons_True, IH. Qed.

Lemma list_filter_none {A} (P : A → Prop) `{!∀ x, Decision (P x)} (l : list A) : Forall (λ x, ¬ P x) l → filter P l = [].
Proof. induction 1 as [|x l Hx _ IH]; [done|]. by rewrite filter_cons_False. Qed.

(** A sorted list divides at its cursor. *)
Lemma sorted_split l c :
  StronglySorted str_le l → l = filter (λ k, str_le k c) l ++ filter (λ k, ¬ str_le k c) l.
Proof.
  induction 1 as [|x l Hs IH Hx]; [done|]. destruct (decide (str_le x c)) as [Hc|Hc].
  - rewrite filter_cons_True, filter_cons_False by tauto. cbn. by f_equal.
  - rewrite filter_cons_False, filter_cons_True by tauto.
    assert (Forall (λ k, ¬ str_le k c) l) as Hl.
    { eapply Forall_impl; [exact Hx|]. intros y Hxy Hyc. apply Hc. by etrans. }
    rewrite (list_filter_none (λ k, str_le k c)), (filter_all (λ k, ¬ str_le k c)); [done|done|].
    eapply Forall_impl; [exact Hl|]. done.
Qed.

Lemma last_split (X Y : list string) c :
  StronglySorted str_le (X ++ Y) → NoDup (X ++ Y) → last X = Some c →
  filter (λ k, str_le k c) (X ++ Y) = X ∧ filter (λ k, ¬ str_le k c) (X ++ Y) = Y.
Proof.
  intros Hs Hnd Hl. apply last_Some in Hl as [X' ->].
  assert (Forall (λ k, str_le k c) (X' ++ [c])) as HX.
  { apply Forall_app. split; [|constructor; [by destruct (str_le_total c c)|constructor]].
    apply Forall_forall. intros x Hx. rewrite <- app_assoc in Hs. eapply (StronglySorted_app_1_elem_of _ X'); set_solver. }
  assert (Forall (λ k, ¬ str_le k c) Y) as HY.
  { apply Forall_forall. intros y Hy Hyc. assert (str_le c y) as Hcy.
    { eapply (StronglySorted_app_1_elem_of _ (X' ++ [c])); set_solver. }
    assert (y = c) as -> by by apply (anti_symm str_le). apply NoDup_app in Hnd as (_ & Hd & _).
    apply (Hd c); set_solver. }
  clear Hs Hnd. revert HX. generalize (X' ++ [c]). intros X HX.
  rewrite !filter_app, (filter_all (λ k, str_le k c)), (list_filter_none (λ k, str_le k c)) by done.
  rewrite (list_filter_none (λ k, ¬ str_le k c)), (filter_all (λ k, ¬ str_le k c)); [by rewrite app_nil_r|done|].
  eapply Forall_impl; [exact HX|]. cbn. tauto.
Qed.

Lemma rotation_split cursor keys :
  ∃ L R, btree_iter keys = L ++ R ∧ rotation cursor keys = R ++ L.
Proof.
  destruct cursor as [c|].
  - exists (keys_upto c keys), (keys_after c keys). split; [|done]. apply sorted_split, btree_iter_sorted.
  - exists [], (btree_iter keys). by rewrite app_nil_r.
Qed.

Lemma rotation_perm cursor keys : rotation cursor keys ≡ₚ btree_iter keys.
Proof. destruct (rotation_split cursor keys) as (L & R & -> & ->). apply Permutation_app_comm. Qed.

Lemma rotation_length cursor keys : length (rotation cursor keys) = size keys.
Proof. by rewrite rotation_perm, btree_iter_Permutation. Qed.

Lemma rotation_at keys X Y c :
  btree_iter keys = X ++ Y → last X = Some c → rotation (Some c) keys = Y ++ X.
Proof.
  intros E Hl. destruct (last_split X Y c) as [H1 H2]; [rewrite <- E; apply btree_iter_sorted|rewrite <- E; apply NoDup_btree_iter|done|].
  cbn. unfold keys_after, keys_upto. by rewrite E, H1, H2.
Qed.

(** Moving the cursor to the last key taken rotates by what was taken. *)
Lemma rotation_step cursor keys n c :
  last (take n (rotation cursor keys)) = Some c →
  rotation (Some c) keys = drop n (rotation cursor keys) ++ take n (rotation cursor keys).
Proof.
  destruct (rotation_split cursor keys) as (L & R & El & ->). intros Hl. rewrite take_app in Hl.
  rewrite drop_app, take_app. destruct (decide (n <= length R)%nat) as [Hn|Hn].
  - replace (n - length R)%nat with 0%nat in * by lia. rewrite take_0, app_nil_r in *. rewrite drop_0, <- app_assoc.
    apply rotation_at; [by rewrite El, <- app_assoc, take_drop|]. rewrite last_app, Hl. done.
  - rewrite (take_ge R) in * by lia. rewrite (drop_ge R) by lia. cbn.
    rewrite last_app in Hl. destruct (last (take (n - length R) L)) as [y|] eqn:Et.
    + injection Hl as ->. rewrite app_assoc. apply rotation_at; [|done]. by rewrite El, app_assoc, take_drop.
    + apply last_None in Et. assert (L = []) as ->.
      { apply (f_equal length) in Et. rewrite length_take in Et. cbn in Et. destruct L; [done|cbn in Et; lia]. }
      rewrite drop_nil, take_nil, app_nil_r. apply (rotation_at keys R []); [by rewrite El, app_nil_r|done].
Qed.

(** After [j] keys of a round the cursor stands [j] further in the rotation. *)
Lemma rotation_advance r j n cursor keys :
  rotation cursor keys = drop j r ++ take j r → (j + n <= length r)%nat →
  take n (rotation cursor keys) = take n (drop j r) ∧
  ∀ c, last (take n (rotation cursor keys)) = Some c →
    rotation (Some c) keys = drop (j + n) r ++ take (j + n) r.
Proof.
  intros E Hn. assert (length (drop j r) = length r - j)%nat as Hl by apply length_drop.
  assert (take n (rotation cursor keys) = take n (drop j r)) as Et.
  { rewrite E, take_app, Hl. replace (n - (length r - j))%nat with 0%nat by lia. by rewrite take_0, app_nil_r. }
  split; [done|]. intros c Hc. rewrite (rotation_step _ _ _ _ Hc), Et, E, drop_app, Hl.
  replace (n - (length r - j))%nat with 0%nat by lia. rewrite drop_0, drop_drop, <- app_assoc.
  f_equal. rewrite take_take_drop. done.
Qed.

(** ** Rounds *)

(** The order in which a round visits the keys of a token, from the state it starts in. *)
Definition plan (s0 : TokenIndexedRows) (t : string) : list string :=
  match by_token s0 !! t with Some keys => rotation (cursors s0 !! t) keys | None => [] end.

(** What has been visited when [vis t] keys of each token have. *)
Definition visited (s0 : TokenIndexedRows) (tokens : list string) (vis : string → nat) : list string :=
  concat ((λ t, take (vis t) (plan s0 t)) <$> tokens).

Definition bump (vis : string → nat) (t : string) (n : nat) (t' : string) : nat :=
  if decide (t' = t) then (vis t + n)%nat else vis t'.

Record round (s0 : TokenIndexedRows) (tokens : list string) (s : TokenIndexedRows) (vis : string → nat) : Prop := {
  round_wf : wf s;
  round_rows : rows s = rows s0;
  round_index : by_token s = by_token s0;
  round_bound t : (vis t <= length (plan s0 t))%nat;
  round_remaining t : t ∈ tokens → is_Some (by_token s0 !! t) →
    scan_remaining s !! t = Some (length (plan s0 t) - vis t)%nat;
  round_cursor t keys : t ∈ tokens → by_token s0 !! t = Some keys →
    rotation (cursors s !! t) keys = drop (vis t) (plan s0 t) ++ take (vis t) (plan s0 t) }.

Lemma visited_bump s0 tokens vis t n :
  NoDup tokens → t ∈ tokens →
  visited s0 tokens (bump vis t n) ≡ₚ visited s0 tokens vis ++ take n (drop (vis t) (plan s0 t)).
Proof.
  unfold visited. induction 1 as [|x tokens Hx Hnd IH]; intros Ht; [by apply elem_of_nil in Ht|].
  cbn. apply elem_of_cons in Ht as [<-|Ht].
  - assert ((λ t', take (bump vis t n t') (plan s0 t')) <$> tokens = (λ t', take (vis t') (plan s0 t')) <$> tokens) as ->.
    { apply list_fmap_ext. intros i t' Ht'. unfold bump. rewrite decide_False; [done|]. intros ->.
      apply list_elem_of_lookup_2 in Ht'. done. }
    unfold bump. rewrite decide_True by done. rewrite <- take_take_drop, <- !app_assoc. f_equiv. apply Permutation_app_comm.
  - rewrite IH by done. unfold bump at 1. rewrite decide_False by naive_solver. by rewrite app_assoc.
Qed.

Lemma scan_token_round s0 tokens s vis out budget per_token t :
  round s0 tokens s vis → t ∈ tokens → (length out <= budget)%nat → (1 <= per_token)%nat →
  ∃ s' n, scan_token budget per_token (s, out) t = (s', out ++ take n (drop (vis t) (plan s0 t))) ∧
    round s0 tokens s' (bump vis t n) ∧ (length out + n <= budget)%nat ∧
    (vis t + n <= length (plan s0 t))%nat ∧
    (vis t < length (plan s0 t) → 1 <= budget → 1 <= length out + n)%nat.
Proof.
  intros [Hw Hr Hi Hb Hs Hc] Ht Ho Hp. unfold scan_token.
  assert (round s0 tokens s (bump vis t 0)) as H0.
  { assert (∀ t', bump vis t 0 t' = vis t') as E by (intros t'; unfold bump; case_decide; subst; lia).
    split; try done; intros t'; rewrite ?E; auto. }
  assert (∀ b, (vis t < length (plan s0 t) → 1 <= b → 1 <= length out + 0)%nat →
    ∃ s' n, (s, out) = (s', out ++ take n (drop (vis t) (plan s0 t))) ∧
    round s0 tokens s' (bump vis t n) ∧ (length out + n <= budget)%nat ∧ (vis t + n <= length (plan s0 t))%nat ∧
    (vis t < length (plan s0 t) → 1 <= b → 1 <= length out + n)%nat) as Hstop.
  { intros b Hprog. exists s, 0%nat. rewrite take_0, app_nil_r. split_and!; try done; specialize (Hb t); lia. }
  destruct (Nat.eqb_spec (length out) budget) as [Hfull|Hfull]; [apply Hstop; lia|].
  rewrite Hi. destruct (by_token s0 !! t) as [keys|] eqn:Ek.
  2: { apply Hstop. unfold plan. rewrite Ek. cbn. lia. }
  rewrite (Hs t Ht) by eauto. cbv zeta. cbn [default from_option]. unfold id. destruct (Nat.eqb_spec (length (plan s0 t) - vis t) 0) as [Hz|Hz].
  { apply Hstop. lia. }
  set (limit := (_ `min` _)%nat). assert (1 <= limit)%nat as Hl1 by lia.
  assert (limit <= budget - length out ∧ limit <= length (plan s0 t) - vis t)%nat as [Hl2 Hl3] by lia.
  clearbody limit. rewrite scan_take_rotation.
  destruct (rotation_advance (plan s0 t) (vis t) limit (cursors s !! t) keys (Hc t keys Ht Ek)) as [Et Ec]; [lia|].
  assert (length (take limit (rotation (cursors s !! t) keys)) = limit) as Hlen.
  { rewrite Et, length_take, length_drop. lia. }
  destruct (last (take limit (rotation (cursors s !! t) keys))) as [c|] eqn:El.
  2: { apply last_None in El. rewrite El in Hlen. cbn in Hlen. lia. }
  eexists _, limit. rewrite <- Et. split; [reflexivity|]. split_and!; [|lia..].
  assert (t ∈ dom (by_token s)) as Hd by (rewrite Hi; by apply elem_of_dom_2 in Ek).
  destruct Hw as [Hw1 Hw2 Hw3 Hw4]. split; cbn; try done.
  - split; cbn; try done; set_solver.
  - intros t'. unfold bump. case_decide; subst; [lia|done].
  - intros t' Ht' Hk. rewrite Hlen. unfold bump. case_decide as Ht''; [subst t'|].
    + rewrite lookup_insert_eq. f_equal. lia.
    + by rewrite lookup_insert_ne, Hs.
  - intros t' keys' Ht' Hk. unfold bump. case_decide as Ht''; [subst t'|].
    + rewrite lookup_insert_eq. rewrite Ek in Hk. injection Hk as <-. by apply Ec.
    + rewrite lookup_insert_ne by done. by apply Hc.
Qed.

Lemma scan_tokens_round s0 tokens budget per_token ts s vis seen out :
  NoDup tokens → (1 <= per_token)%nat → (1 <= budget)%nat → ts ⊆ tokens →
  round s0 tokens s vis → (length out <= budget)%nat → seen ++ out ≡ₚ visited s0 tokens vis →
  ∃ s' vis' out', fold_left (scan_token budget per_token) ts (s, out) = (s', out') ∧
    round s0 tokens s' vis' ∧ (length out <= length out' <= budget)%nat ∧
    seen ++ out' ≡ₚ visited s0 tokens vis' ∧
    ((∃ t, t ∈ ts ∧ vis t < length (plan s0 t))%nat → 1 <= length out')%nat.
Proof.
  intros Hnd Hp Hb. revert s vis out. induction ts as [|t ts IH]; intros s vis out Hts Hround Ho Hseen.
  { exists s, vis, out. split_and!; try done. intros (t & Ht & _). by apply elem_of_nil in Ht. }
  destruct (scan_token_round s0 tokens s vis out budget per_token t) as (s1 & n & E & Hr1 & Hn & Hv & Hprog);
    [done|set_solver|done|done|].
  assert (length (out ++ take n (drop (vis t) (plan s0 t))) = length out + n)%nat as Hlen.
  { rewrite length_app, length_take, length_drop. lia. }
  cbn [fold_left]. rewrite E.
  destruct (IH s1 (bump vis t n) (out ++ take n (drop (vis t) (plan s0 t)))) as (s' & vis' & out' & E' & Hr' & Ho' & Hs' & Hp').
  - set_solver.
  - done.
  - lia.
  - rewrite app_assoc, Hseen, visited_bump by (done || set_solver). done.
  - exists s', vis', out'. split_and!; try done; [lia|lia|]. intros (t' & [->|Ht']%elem_of_cons & Hlt); [lia|].
    destruct (decide (t' = t)) as [->|Hne]; [lia|]. apply Hp'. exists t'. split; [done|].
    unfold bump. by rewrite decide_False.
Qed.

Lemma incomplete_iff s0 tokens s vis :
  round s0 tokens s vis →
  scan_incomplete s tokens = true ↔ ∃ t, t ∈ tokens ∧ (vis t < length (plan s0 t))%nat.
Proof.
  intros [Hw Hr Hi Hb Hs Hc]. unfold scan_incomplete. rewrite existsb_exists. split.
  - intros (t & Ht%list_elem_of_In & Hlt). exists t. split; [done|].
    destruct (by_token s0 !! t) as [keys|] eqn:Ek.
    + rewrite Hs in Hlt by eauto. apply Nat.ltb_lt in Hlt. lia.
    + destruct (scan_remaining s !! t) eqn:E; [|done]. apply elem_of_dom_2 in E. apply Hw in E.
      rewrite Hi, elem_of_dom, Ek in E. by destruct E.
  - intros (t & Ht & Hlt). exists t. split; [by apply list_elem_of_In|].
    rewrite Hs; [apply Nat.ltb_lt; lia|done|]. unfold plan in Hlt. destruct (by_token s0 !! t); [eauto|cbn in Hlt; lia].
Qed.

Lemma start_round_spec self tokens :
  let s := start_round self tokens in
  rows s = rows self ∧ by_token s = by_token self ∧ by_order s = by_order self ∧ cursors s = cursors self ∧
  ∀ t, scan_remaining s !! t =
    match by_token self !! t with
    | Some keys => if decide (t ∈ tokens) then Some (size keys) else scan_remaining self !! t
    | None => scan_remaining self !! t
    end.
Proof.
  unfold start_round. revert self. induction tokens as [|x tokens IH]; intros self.
  { cbn. split_and!; try done. intros t. destruct (by_token self !! t); [|done]. by rewrite decide_False by set_solver. }
  cbn [fold_left]. destruct (by_token self !! x) as [keys|] eqn:Ex; cbv zeta.
  - match goal with |- context [fold_left _ tokens ?s] => destruct (IH s) as (H1 & H2 & H3 & H4 & H5) end.
    cbn in H1, H2, H3, H4, H5. split_and!; try done. intros t. rewrite H5.
    destruct (decide (t = x)) as [->|Hn].
    + rewrite Ex, lookup_insert_eq. rewrite (decide_True (P := x ∈ x :: tokens)) by set_solver. by destruct (decide _).
    + rewrite lookup_insert_ne by done. destruct (by_token self !! t); [|done].
      destruct (decide (t ∈ tokens)), (decide (t ∈ x :: tokens)); set_solver.
  - destruct (IH self) as (H1 & H2 & H3 & H4 & H5). split_and!; try done. intros t. rewrite H5.
    destruct (by_token self !! t) eqn:Et; [|done]. destruct (decide (t = x)) as [->|Hn]; [congruence|].
    destruct (decide (t ∈ tokens)), (decide (t ∈ x :: tokens)); set_solver.
Qed.

(** A round starts with nothing visited. *)
Lemma start_round_round self tokens :
  wf self → round self tokens (start_round self tokens) (λ _, 0%nat).
Proof.
  intros [H1 H2 H3 H4]. destruct (start_round_spec self tokens) as (Er & Et & Eo & Ec & Es). split; try done.
  - split; rewrite ?Er, ?Et, ?Eo, ?Ec; try done. intros t Ht. apply elem_of_dom in Ht as [n Hn].
    rewrite Es in Hn. destruct (by_token self !! t) as [keys|] eqn:Ek; [by apply elem_of_dom_2 in Ek|].
    apply elem_of_dom_2 in Hn. by apply H4.
  - intros t. lia.
  - intros t Ht [keys Hk]. rewrite Es, Hk, decide_True by done. unfold plan. rewrite Hk, rotation_length. f_equal. lia.
  - intros t keys Ht Hk. rewrite Ec. unfold plan. by rewrite Hk, drop_0, take_0, app_nil_r.
Qed.

Definition full (s0 : TokenIndexedRows) (t : string) : nat := length (plan s0 t).

Lemma elem_of_plan self t key : wf self → key ∈ plan self t ↔ token_of (rows self) t key.
Proof.
  intros [[Ht _] _ _ _]. rewrite <- Ht. unfold plan. destruct (by_token self !! t) as [keys|]; cbn; [|set_solver].
  by rewrite rotation_perm, elem_of_btree_iter.
Qed.

Lemma visited_full s0 tokens :
  wf s0 → NoDup tokens →
  NoDup (visited s0 tokens (full s0)) ∧
  ∀ key, key ∈ visited s0 tokens (full s0) ↔ ∃ v, rows s0 !! key = Some v ∧ token v ∈ tokens.
Proof.
  intros Hw Hnd. unfold visited, full.
  assert (∀ t, take (length (plan s0 t)) (plan s0 t) = plan s0 t) as E by (intros; by apply take_ge).
  assert (∀ ts, (λ t, take (length (plan s0 t)) (plan s0 t)) <$> ts = plan s0 <$> ts) as -> by
    (intros ts; by apply list_fmap_ext).
  assert (∀ ts key, key ∈ concat (plan s0 <$> ts) ↔ ∃ v, rows s0 !! key = Some v ∧ token v ∈ ts) as Hel.
  { intros ts key. rewrite list_elem_of_In, in_concat. split.
    - intros (l & Hl & Hk). apply list_elem_of_In, list_elem_of_fmap in Hl as (t & -> & Ht).
      apply list_elem_of_In, elem_of_plan in Hk as (v & Hv & <-); eauto.
    - intros (v & Hv & Ht). exists (plan s0 (token v)). rewrite <- !list_elem_of_In. split; [by apply list_elem_of_fmap_2|].
      apply elem_of_plan; [done|]. by exists v. }
  split; [|done]. induction Hnd as [|t ts Ht Hnd IH]; [constructor|]. cbn. apply NoDup_app. split_and!; [| |done].
  - unfold plan. destruct (by_token s0 !! t); [|constructor]. rewrite rotation_perm. apply NoDup_btree_iter.
  - intros key Hk Hk'. apply elem_of_plan in Hk as (v & Hv & <-); [|done]. apply Hel in Hk' as (v' & Hv' & Hin).
    rewrite Hv in Hv'. by injection Hv' as ->.
Qed.

Lemma visited_complete s0 tokens vis :
  (∀ t, vis t <= length (plan s0 t))%nat →
  ¬ (∃ t, t ∈ tokens ∧ (vis t < length (plan s0 t))%nat) → visited s0 tokens vis = visited s0 tokens (full s0).
Proof.
  intros Hb Hn. unfold visited. f_equal. apply list_fmap_ext. intros i t Ht%list_elem_of_lookup_2. unfold full.
  f_equal. specialize (Hb t). destruct (decide (vis t < length (plan s0 t))%nat); [|lia]. exfalso. eauto.
Qed.

Lemma visited_bound s0 tokens vis :
  (∀ t, vis t <= length (plan s0 t))%nat → (length (visited s0 tokens vis) <= length (visited s0 tokens (full s0)))%nat.
Proof.
  intros Hb. unfold visited, full. induction tokens as [|t ts IH]; [done|]. cbn. rewrite !length_app, !length_take.
  specialize (Hb t). lia.
Qed.

(** Consecutive scans of the same tokens, and all they return. *)
Fixpoint scans (self : TokenIndexedRows) (tokens : list string) (budget n : nat) : TokenIndexedRows * list string :=
  match n with
  | 0%nat => (self, [])
  | S n =>
      let '(self, out) := scan_keys self tokens budget in
      let '(self, outs) := scans self tokens budget n in
      (self, out ++ outs)
  end.

Definition share (budget : nat) (tokens : list string) : nat := ((budget / (length tokens `max` 1)) `max` 1)%nat.

Lemma rest_of_round s0 tokens budget k s vis seen :
  NoDup tokens → (1 <= budget)%nat → round s0 tokens s vis → seen ≡ₚ visited s0 tokens vis →
  (length (visited s0 tokens (full s0)) - length seen <= k)%nat →
  ∃ n s' outs, (n <= length outs)%nat ∧ scans s tokens budget n = (s', outs) ∧
    scan_incomplete s' tokens = false ∧ wf s' ∧ rows s' = rows s0 ∧
    seen ++ outs ≡ₚ visited s0 tokens (full s0).
Proof.
  intros Hnd Hb. revert s vis seen. induction k as [|k IH]; intros s vis seen Hr Hs Hk.
  all: destruct (scan_incomplete s tokens) eqn:Ei.
  all: try (exists 0%nat, s, []; split_and!; try done; [apply Hr|apply Hr|];
    rewrite app_nil_r, Hs; rewrite (visited_complete s0 tokens vis); [done|apply Hr|];
    rewrite <- (incomplete_iff _ _ _ _ Hr), Ei; done).
  all: pose proof Ei as Hex; rewrite (incomplete_iff _ _ _ _ Hr) in Hex.
  all: destruct (scan_tokens_round s0 tokens budget (share budget tokens) tokens s vis seen []) as
    (s1 & vis1 & out & E & Hr1 & Hlen & Hs1 & Hprog); [done|unfold share; lia|done|done|done|cbn; lia|by rewrite app_nil_r|].
  all: specialize (Hprog Hex); pose proof (visited_bound s0 tokens vis1 (round_bound _ _ _ _ Hr1)) as Hbound;
    rewrite <- Hs1, length_app in Hbound.
  - lia.
  - destruct (IH s1 vis1 (seen ++ out)) as (n & s' & outs & Hn & E' & Hi & Hw & Hrows & Hperm); [done|done|rewrite length_app; lia|].
    exists (S n), s', (out ++ outs). split_and!; try done.
    + rewrite length_app. lia.
    + cbn [scans]. unfold scan_keys. rewrite Ei. cbv zeta. fold (share budget tokens). by rewrite E, E'.
    + by rewrite app_assoc.
Qed.

Lemma scan_token_wf budget per_token acc t : wf acc.1 → wf (scan_token budget per_token acc t).1.
Proof.
  destruct acc as [s out]. cbn [fst]. intros Hw. unfold scan_token. destruct (length out =? budget)%nat; [done|].
  destruct (by_token s !! t) as [keys|] eqn:Ek; [|done]. cbv zeta. destruct (_ =? 0)%nat; [done|].
  apply elem_of_dom_2 in Ek. destruct Hw as [H1 H2 H3 H4].
  destruct (last _); (split; cbn; try done; set_solver).
Qed.

Lemma scan_keys_wf self tokens budget : wf self → wf (scan_keys self tokens budget).1.
Proof.
  intros Hw. unfold scan_keys. cbv zeta.
  assert (∀ ts acc n, wf acc.1 → wf (fold_left (scan_token budget n) ts acc).1) as H.
  { induction ts as [|t ts IH]; intros acc n Ha; [done|]. cbn. apply IH. by apply scan_token_wf. }
  apply H. cbn. destruct (scan_incomplete self tokens); [done|]. by apply (start_round_round self tokens).
Qed.

(** ** Histories *)

Inductive op :=
| OInsert (key : string) (value : V)
| ORemove (key : string)
| OUpdate (key : string) (f : V → V)
| OReplace (entries : list (string * V))
| OScan (tokens : list string) (budget : nat).

(** [get_mut] may change anything but the identity of the row. *)
Definition identity_kept (o : op) : Prop :=
  match o with OUpdate _ f => ∀ v, token (f v) = token v ∧ order_key (f v) = order_key v | _ => True end.

Definition apply_op (self : TokenIndexedRows) (o : op) : TokenIndexedRows :=
  match o with
  | OInsert key value => (insert_row self key value).1
  | ORemove key => (remove self key).1
  | OUpdate key f => update_row self key f
  | OReplace entries => replace_rows self entries
  | OScan tokens budget => (scan_keys self tokens budget).1
  end.

Lemma gc_op_wf self o : identity_kept o → wf self → wf (apply_op self o).
Proof.
  intros Hk Hw. destruct o as [key value|key|key f|entries|tokens budget]; cbn.
  - by apply insert_row_wf.
  - by apply remove_wf.
  - apply update_row_wf; [done|]. intros v _. apply Hk.
  - apply replace_rows_wf.
  - by apply scan_keys_wf.
Qed.

Lemma history_wf ops : Forall identity_kept ops → wf (fold_left apply_op ops default_rows).
Proof.
  assert (∀ self, wf self → Forall identity_kept ops → wf (fold_left apply_op ops self)) as H; [|by apply H, default_wf].
  induction ops as [|o ops IH]; intros self Hw Hk; [done|]. apply Forall_cons in Hk as [Hk Hks].
  apply IH; [by apply gc_op_wf|done].
Qed.

(** The indexes list exactly the rows.  After any history of insertions, removals,
    bulk replacements, scans and in-place changes that keep a row's identity, the key
    set of a token is that of the rows with that token and is never empty, the rows of
    an order are found by it and by nothing else, and cursors are kept for live
    tokens only. *)
Theorem gc_index_exact ops :
  Forall identity_kept ops →
  let self := fold_left apply_op ops default_rows in
  (∀ t keys, by_token self !! t = Some keys →
    keys ≠ ∅ ∧ ∀ key, key ∈ keys ↔ ∃ v, rows self !! key = Some v ∧ token v = t) ∧
  (∀ key v, rows self !! key = Some v → ∃ keys, by_token self !! token v = Some keys ∧ key ∈ keys) ∧
  (∀ coid key v, (key, v) ∈ rows_for_order self coid ↔ rows self !! key = Some v ∧ order_key v = Some coid) ∧
  (∀ tokens, has_tokens self tokens = true ↔ ∃ key v, rows self !! key = Some v ∧ token v ∈ tokens) ∧
  dom (cursors self) ∪ dom (scan_remaining self) ⊆ dom (by_token self).
Proof.
  intros Hk self. assert (wf self) as Hw by by apply history_wf. clearbody self.
  assert (∀ key v, rows self !! key = Some v → ∃ keys, by_token self !! token v = Some keys ∧ key ∈ keys) as Hfind.
  { intros key v Hv. assert (key ∈ default ∅ (by_token self !! token v)) as H by (apply Hw; by exists v).
    destruct (by_token self !! token v) as [keys|]; [by exists keys|cbn in H; set_solver]. }
  assert (∀ t keys, by_token self !! t = Some keys →
    keys ≠ ∅ ∧ ∀ key, key ∈ keys ↔ ∃ v, rows self !! key = Some v ∧ token v = t) as Hkeys.
  { intros t keys Hkk. destruct Hw as [[H1 H2] _ _ _]. split; [intros ->; by apply (H2 t)|].
    intros key. specialize (H1 t key). by rewrite Hkk in H1. }
  split_and!; try done.
  - intros. by apply rows_for_order_exact.
  - intros tokens. unfold has_tokens. rewrite existsb_exists. split.
    + intros (t & Ht%list_elem_of_In & [keys Hkk]%bool_decide_eq_true). destruct (Hkeys t keys Hkk) as [Hne Hin].
      destruct (set_choose_L keys Hne) as [key Hkey]. apply Hin in Hkey as (v & Hv & <-). eauto.
    + intros (key & v & Hv & Ht). exists (token v). split; [by apply list_elem_of_In|].
      destruct (Hfind key v Hv) as (keys & -> & _). done.
  - apply union_subseteq. split; apply Hw.
Qed.

(** C14: A round of scans visits every row of its tokens once.  When a round starts, calls
    with any positive budget reach its end after at most as many calls as there are
    rows (one if there are none), whatever protected prefix the cursors stand in and
    however the tokens share the budget; the keys returned are exactly those of the
    rows with the requested tokens, none of them twice. *)
Theorem scan_round_complete self tokens budget :
  wf self → NoDup tokens → (1 <= budget)%nat → scan_incomplete self tokens = false →
  ∃ n self' outs,
    scans self tokens budget (S n) = (self', outs) ∧ (S n <= length outs `max` 1)%nat ∧
    scan_incomplete self' tokens = false ∧ wf self' ∧ rows self' = rows self ∧
    NoDup outs ∧ ∀ key, key ∈ outs ↔ ∃ v, rows self !! key = Some v ∧ token v ∈ tokens.
Proof.
  intros Hw Hnd Hb Hc. destruct (visited_full self tokens Hw Hnd) as [Hd Hel].
  pose proof (start_round_round self tokens Hw) as Hr0.
  assert (visited self tokens (λ _, 0%nat) = []) as Hv0.
  { unfold visited. clear. induction tokens as [|t ts IH]; [done|]. cbn. by rewrite take_0, IH. }
  destruct (scan_tokens_round self tokens budget (share budget tokens) tokens (start_round self tokens) (λ _, 0%nat) [] [])
    as (s1 & vis1 & out & E & Hr1 & Hlen & Hs1 & Hprog); [done|unfold share; lia|done|done|done|cbn; lia|by rewrite Hv0|].
  cbn in Hs1. destruct (rest_of_round self tokens budget _ s1 vis1 out Hnd Hb Hr1 Hs1 (Nat.le_refl _))
    as (n & s' & outs & Hn & E' & Hi & Hw' & Hrows & Hperm).
  exists n, s', (out ++ outs). split_and!; try done.
  - cbn [scans]. unfold scan_keys. rewrite Hc. cbv zeta. fold (share budget tokens). by rewrite E, E'.
  - rewrite length_app. destruct n as [|n]; [lia|].
    assert (1 <= length out)%nat; [|lia]. destruct (scan_incomplete (start_round self tokens) tokens) eqn:Ei.
    + apply Hprog. by rewrite <- (incomplete_iff _ _ _ _ Hr0).
    + assert (visited self tokens (full self) = []) as Hnil.
      { rewrite <- Hv0. symmetry. apply visited_complete; [intros; lia|]. rewrite <- (incomplete_iff _ _ _ _ Hr0), Ei. done. }
      rewrite Hnil in Hperm. apply Permutation_nil_r, app_eq_nil in Hperm as [_ ->]. cbn in Hn. lia.
  - by rewrite Hperm.
  - intros key. by rewrite Hperm.
Qed.

End GcIndex.

(** Rows of a token and an order. *)
#[local] Instance pair_row : IndexedRow (string * string) := {
  token := fst;
  order_key := λ v, Some v.2 }.

Definition demo_ops : list op :=
  [OInsert "a" ("yes", "o1"); OInsert "b" ("yes", "o1"); OInsert "c" ("no", "o2");
   OInsert "d" ("yes", "o3"); OScan ["yes"; "no"] 10; OInsert "b" ("no", "o1"); ORemove "c"]%string.

Definition demo_rows : @TokenIndexedRows (string * string) := fold_left apply_op demo_ops default_rows.

Lemma gc_index_exact_witness :
  Forall identity_kept demo_ops ∧
  (∀ key v, (key, v) ∈ rows_for_order demo_rows "o1" ↔ rows demo_rows !! key = Some v ∧ order_key v = Some "o1"%string) ∧
  rows demo_rows !! "b"%string = Some ("no", "o1")%string.
Proof.
  assert (Forall identity_kept demo_ops) as H by (repeat constructor).
  split; [exact H|]. split; [|vm_compute; reflexivity].
  exact (proj1 (proj2 (proj2 (gc_index_exact demo_ops H))) "o1"%string).
Defined.

Lemma scan_round_complete_witness :
  ∃ n self' outs, scans demo_rows ["yes"; "no"]%string 2 (S n) = (self', outs) ∧ NoDup outs.
Proof.
  destruct (scan_round_complete demo_rows ["yes"; "no"]%string 2) as (n & s' & outs & E & _ & _ & _ & _ & Hd & _).
  - apply (history_wf demo_ops). repeat constructor.
  - apply (bool_decide_unpack _). vm_compute. exact I.
  - lia.
  - vm_compute. reflexivity.
  - exists n, s', outs. split; [exact E|exact Hd].
Defined.
