(* ===== verification/Routes.v ===== *)
(** * Ownership routes and their retirement

    The route maps of a shared account say which strategy instance owns an order or a
    trade.  A map is 64 shards, each an immutable snapshot of 64 leaves replaced by
    read-copy-update (hexagent-account/src/account/route_snapshot.rs and
    [ShardedRouteMap] in shared_account.rs); the garbage collector hands the snapshots it
    replaces to a cold owner through a bounded queue of credits
    (route_retirement.rs), so that no reader ever runs their destructor.

    An [rcu] retries its closure until the snapshot it read is the one it replaces: it
    is one atomic step on the shard, and the theorems about one shard hold for whatever
    snapshot that step finds.  The hash is a parameter: nothing is assumed of it.
    Snapshots in the queue are identified by a number; who still reads one is told to
    the reclaiming turn.

    Proved: whatever the hash, the sharded map is a map and a batch changes each key as
    its owner and its changes say, a key rebound to another owner surviving; concurrent
    claims of a key have one winner; a deletion turn never overflows its batch; credits
    bound the queue, whose send therefore never fails, and come back once no reader is
    left. *)

From S2P Require Import Prelude.

Definition ROUTE_SHARD_COUNT : nat := 64.
Definition LEAVES : nat := 64.

Section Routes.
Context (hash : string → nat).

(** ** One shard *)

#[local] Abbreviation Leaf := (gmap string string).

Record RouteSnapshot := mkSnapshot { leaves : list Leaf }.

Definition default_snapshot : RouteSnapshot := mkSnapshot (replicate LEAVES ∅).

Definition leaf_index (key : string) : nat := (hash key / ROUTE_SHARD_COUNT) mod LEAVES.
#[local] Arguments leaf_index : simpl never.

Definition snapshot_get (s : RouteSnapshot) (key : string) : option string :=
  leaf ← leaves s !! leaf_index key; leaf !! key.

Definition contains_key (s : RouteSnapshot) (key : string) : bool :=
  bool_decide (is_Some (snapshot_get s key)).

Definition snapshot_insert (s : RouteSnapshot) (key owner : string) : RouteSnapshot :=
  mkSnapshot (alter <[key := owner]> (leaf_index key) (leaves s)).

Definition snapshot_remove (s : RouteSnapshot) (key : string) : RouteSnapshot :=
  mkSnapshot (alter (delete key) (leaf_index key) (leaves s)).

Definition snapshot_iter (s : RouteSnapshot) : list (string * string) := leaves s ≫= map_to_list.

Definition snapshot_retain (s : RouteSnapshot) (keep : string → string → bool) : RouteSnapshot :=
  mkSnapshot (filter (λ '(k, o), keep k o = true) <$> leaves s).

(** ** The map *)

Record ShardedRouteMap := mkMap { shards : list RouteSnapshot }.

Definition new_map : ShardedRouteMap := mkMap (replicate ROUTE_SHARD_COUNT default_snapshot).

Definition shard_index (key : string) : nat := hash key mod ROUTE_SHARD_COUNT.
#[local] Arguments shard_index : simpl never.

Definition get (m : ShardedRouteMap) (key : string) : option string :=
  s ← shards m !! shard_index key; snapshot_get s key.

(** [published.rcu(f)] on a shard. *)
Definition rcu (m : ShardedRouteMap) (index : nat) (f : RouteSnapshot → RouteSnapshot) : ShardedRouteMap :=
  mkMap (alter f index (shards m)).

Definition insert_route (m : ShardedRouteMap) (key owner : string) : ShardedRouteMap :=
  rcu m (shard_index key) (λ s, snapshot_insert s key owner).

Definition remove_key (m : ShardedRouteMap) (key : string) : ShardedRouteMap * option string :=
  let previous := get m key in
  (if bool_decide (is_Some previous) then rcu m (shard_index key) (λ s, snapshot_remove s key) else m, previous).

(** ** Batches *)

(** A change of a batch: a new owner, or a removal if the owner is still the batch's. *)
Definition Change : Type := string * option string.

Definition change_done (owner : string) (s : RouteSnapshot) (c : Change) : bool :=
  match c.2 with
  | Some value => bool_decide (snapshot_get s c.1 = Some value)
  | None => negb (bool_decide (snapshot_get s c.1 = Some owner))
  end.

Definition apply_change (owner : string) (s : RouteSnapshot) (c : Change) : RouteSnapshot :=
  match c.2 with
  | Some value => if bool_decide (snapshot_get s c.1 = Some value) then s else snapshot_insert s c.1 value
  | None => if bool_decide (snapshot_get s c.1 = Some owner) then snapshot_remove s c.1 else s
  end.

(** The closure of the batch on a shard, and whether it replaced the snapshot. *)
Definition batch_shard (owner : string) (changes : list Change) (s : RouteSnapshot) : RouteSnapshot * bool :=
  if forallb (change_done owner s) changes then (s, false)
  else (fold_left (apply_change owner) changes s, true).

Definition batch_changes (removals : list string) (additions : list (string * string)) : list Change :=
  ((λ key, (key, None)) <$> removals) ++ ((λ '(key, owner), (key, Some owner)) <$> additions).

Definition grouped (changes : list Change) (index : nat) : list Change :=
  filter (λ c, shard_index c.1 = index) changes.

Definition BATCH_CAPACITY : nat := 8.
Definition SETTLED_GC_ORDERS_PER_OWNER_TURN : nat := 8.
Definition SETTLED_GC_TRADES_PER_OWNER_TURN : nat := 8.
Definition SNAPSHOTS_PER_BATCH : nat :=
  2 * SETTLED_GC_ORDERS_PER_OWNER_TURN + 2 * SETTLED_GC_TRADES_PER_OWNER_TURN.

(** The batch a permit fills; [None] is the panic of its [assert!]. *)
Definition push {S} (batch : list S) (snapshot : S) : option (list S) :=
  if (length batch <? SNAPSHOTS_PER_BATCH)%nat then Some (batch ++ [snapshot]) else None.

Definition batch_step (owner : string) (changes : list Change)
    (acc : option (ShardedRouteMap * option (list RouteSnapshot))) (index : nat)
    : option (ShardedRouteMap * option (list RouteSnapshot)) :=
  '(m, retirement) ← acc;
  match grouped changes index, shards m !! index with
  | [], _ | _, None => Some (m, retirement)
  | here, Some old =>
      let '(next, replaced) := batch_shard owner here old in
      let m := rcu m index (λ _, next) in
      match replaced, retirement with
      | true, Some batch => batch ← push batch old; Some (m, Some batch)
      | _, _ => Some (m, retirement)
      end
  end.

Definition apply_batch_retiring (m : ShardedRouteMap) (owner : string) (removals : list string)
    (additions : list (string * string)) (retirement : option (list RouteSnapshot))
    : option (ShardedRouteMap * option (list RouteSnapshot)) :=
  fold_left (batch_step owner (batch_changes removals additions)) (seq 0 ROUTE_SHARD_COUNT) (Some (m, retirement)).

(** ** Publication of whole owners *)

Record RouteOwnerSnapshot := mkOwner {
  owner_name : string;
  owner_keys : gset string;
  epoch_matches : bool }.

Definition owner_additions (owners : list RouteOwnerSnapshot) : list (string * string) :=
  owners ≫= λ o, (λ key, (key, owner_name o)) <$> elements (owner_keys o).

Definition remove_route (owners : list RouteOwnerSnapshot) (live : option (gset string)) (key route_owner : string) : bool :=
  match live with Some live => negb (bool_decide (route_owner ∈ live)) | None => false end
  || existsb (λ o, String.eqb route_owner (owner_name o) && negb (bool_decide (key ∈ owner_keys o)) && epoch_matches o) owners.

Definition add_route (s : RouteSnapshot) (addition : string * string) : RouteSnapshot :=
  if bool_decide (snapshot_get s addition.1 = Some addition.2) then s
  else snapshot_insert s addition.1 addition.2.

Definition publish_shard (owners : list RouteOwnerSnapshot) (live : option (gset string))
    (additions : list (string * string)) (s : RouteSnapshot) : RouteSnapshot :=
  if forallb (λ a, bool_decide (snapshot_get s a.1 = Some a.2)) additions
     && negb (existsb (λ '(key, owner), remove_route owners live key owner) (snapshot_iter s))
  then s
  else fold_left add_route additions
         (snapshot_retain s (λ key owner, negb (remove_route owners live key owner))).

Definition publish_owners (m : ShardedRouteMap) (owners : list RouteOwnerSnapshot) (live : option (gset string)) : ShardedRouteMap :=
  fold_left (λ m index,
    rcu m index (publish_shard owners live (filter (λ a, shard_index a.1 = index) (owner_additions owners))))
    (seq 0 ROUTE_SHARD_COUNT) m.

(** ** A shard is a map *)

Definition snapshot_wf (s : RouteSnapshot) : Prop :=
  length (leaves s) = LEAVES ∧
  ∀ i leaf key, leaves s !! i = Some leaf → is_Some (leaf !! key) → i = leaf_index key.

Lemma leaf_at s key : snapshot_wf s → ∃ leaf, leaves s !! leaf_index key = Some leaf.
Proof.
  intros [Hl _]. apply lookup_lt_is_Some. rewrite Hl. apply Nat.mod_upper_bound. unfold LEAVES. lia.
Qed.

Lemma alter_wf s key f :
  snapshot_wf s → (∀ leaf k, is_Some (f leaf !! k) → k = key ∨ is_Some (leaf !! k)) →
  snapshot_wf (mkSnapshot (alter f (leaf_index key) (leaves s))).
Proof.
  intros [Hl Hp] Hf. split; cbn; [by rewrite length_alter|]. intros i leaf k Hi Hk.
  destruct (decide (i = leaf_index key)) as [->|Hn].
  - rewrite list_lookup_alter_eq in Hi. apply fmap_Some in Hi as (l & E & ->). destruct (Hf l k Hk) as [->|Hk']; [done|]. by apply (Hp _ l).
  - rewrite list_lookup_alter_ne in Hi by done. by apply (Hp _ leaf).
Qed.

Lemma get_alter s key f k :
  snapshot_wf s → (∀ leaf, k ≠ key → f leaf !! k = leaf !! k) →
  snapshot_get (mkSnapshot (alter f (leaf_index key) (leaves s))) k =
  if decide (k = key) then leaf ← leaves s !! leaf_index key; f leaf !! key else snapshot_get s k.
Proof.
  intros Hw Hf. unfold snapshot_get. cbn [leaves]. destruct (decide (k = key)) as [->|Hn].
  - rewrite list_lookup_alter_eq. by destruct (leaves s !! leaf_index key).
  - destruct (decide (leaf_index k = leaf_index key)) as [->|Hi].
    + rewrite list_lookup_alter_eq. destruct (leaves s !! leaf_index key); [|done]. cbn. by apply Hf.
    + by rewrite list_lookup_alter_ne.
Qed.

Lemma snapshot_get_insert s key owner k :
  snapshot_wf s → snapshot_get (snapshot_insert s key owner) k = if decide (k = key) then Some owner else snapshot_get s k.
Proof.
  intros Hw. unfold snapshot_insert. rewrite get_alter; [|done|intros; by rewrite lookup_insert_ne].
  destruct (decide (k = key)); [|done]. destruct (leaf_at s key Hw) as [leaf ->]. cbn. by rewrite lookup_insert_eq.
Qed.

Lemma snapshot_get_remove s key k :
  snapshot_wf s → snapshot_get (snapshot_remove s key) k = if decide (k = key) then None else snapshot_get s k.
Proof.
  intros Hw. unfold snapshot_remove. rewrite get_alter; [|done|intros; by rewrite lookup_delete_ne].
  destruct (decide (k = key)); [|done]. destruct (leaf_at s key Hw) as [leaf ->]. cbn. by rewrite lookup_delete_eq.
Qed.

Lemma snapshot_insert_wf s key owner : snapshot_wf s → snapshot_wf (snapshot_insert s key owner).
Proof.
  intros Hw. apply alter_wf; [done|]. intros leaf k [o Ho]. apply lookup_insert_Some in Ho as [[-> _]|[_ Ho]]; eauto.
Qed.

Lemma snapshot_remove_wf s key : snapshot_wf s → snapshot_wf (snapshot_remove s key).
Proof. intros Hw. apply alter_wf; [done|]. intros leaf k [o Ho]. apply lookup_delete_Some in Ho as [_ Ho]; eauto. Qed.

Lemma snapshot_retain_wf s keep : snapshot_wf s → snapshot_wf (snapshot_retain s keep).
Proof.
  intros [Hl Hp]. split; cbn; [by rewrite length_fmap|]. intros i leaf key Hi [o Ho].
  apply list_lookup_fmap_Some in Hi as (l & -> & Hi). apply map_lookup_filter_Some in Ho as [Ho _]. by apply (Hp i l).
Qed.

Lemma snapshot_get_retain s keep k :
  snapshot_get (snapshot_retain s keep) k =
  match snapshot_get s k with Some o => if keep k o then Some o else None | None => None end.
Proof.
  unfold snapshot_get, snapshot_retain. cbn. rewrite list_lookup_fmap.
  destruct (leaves s !! leaf_index k) as [l|]; cbn; [|done]. rewrite map_lookup_filter.
  destruct (l !! k) as [o|]; cbn; [|done]. destruct (keep k o) eqn:E; cbn.
  - by rewrite option_guard_True.
  - by rewrite option_guard_False.
Qed.

Lemma elem_of_snapshot_iter s k o : snapshot_wf s → (k, o) ∈ snapshot_iter s ↔ snapshot_get s k = Some o.
Proof.
  intros Hw. unfold snapshot_iter, snapshot_get. rewrite list_elem_of_bind. split.
  - intros (l & Hl%elem_of_map_to_list & Hin). apply list_elem_of_lookup in Hin as [i Hi].
    assert (i = leaf_index k) as -> by (eapply Hw; eauto). by rewrite Hi.
  - destruct (leaves s !! leaf_index k) as [l|] eqn:E; [|done]. cbn. intros Hl. exists l.
    split; [by apply elem_of_map_to_list|]. by apply list_elem_of_lookup_2 in E.
Qed.

(** ** Batches, key by key *)

(** What the changes of a batch do to the owner of a key. *)
Definition change_key (owner key : string) (current : option string) (c : Change) : option string :=
  if decide (c.1 = key)
  then match c.2 with
       | Some value => Some value
       | None => if bool_decide (current = Some owner) then None else current
       end
  else current.

Definition change_keys (owner key : string) (changes : list Change) (current : option string) : option string :=
  fold_left (change_key owner key) changes current.

Lemma apply_change_get owner s c key :
  snapshot_wf s → snapshot_get (apply_change owner s c) key = change_key owner key (snapshot_get s key) c.
Proof.
  intros Hw. destruct c as [k [value|]]; unfold apply_change, change_key; cbn [fst snd].
  - destruct (bool_decide (snapshot_get s k = Some value)) eqn:B.
    + bool_hyps. destruct (decide (k = key)) as [->|]; done.
    + rewrite snapshot_get_insert by done. destruct (decide (key = k)), (decide (k = key)); congruence.
  - destruct (bool_decide (snapshot_get s k = Some owner)) eqn:B.
    + rewrite snapshot_get_remove by done. destruct (decide (k = key)) as [<-|Hn].
      * by rewrite decide_True, B.
      * by rewrite decide_False by congruence.
    + destruct (decide (k = key)) as [->|]; [|done]. by rewrite B.
Qed.

Lemma apply_change_wf owner s c : snapshot_wf s → snapshot_wf (apply_change owner s c).
Proof.
  intros Hw. unfold apply_change.
  destruct c.2, (bool_decide _); auto using snapshot_insert_wf, snapshot_remove_wf.
Qed.

Lemma apply_changes_get owner changes s key :
  snapshot_wf s →
  snapshot_wf (fold_left (apply_change owner) changes s) ∧
  snapshot_get (fold_left (apply_change owner) changes s) key = change_keys owner key changes (snapshot_get s key).
Proof.
  revert s. induction changes as [|c changes IH]; intros s Hw; [done|]. cbn.
  destruct (IH (apply_change owner s c)) as [Hw' E]; [by apply apply_change_wf|]. split; [done|].
  rewrite E. unfold change_keys. by rewrite apply_change_get.
Qed.

(** A batch that finds its changes made would change nothing. *)
Lemma changes_done owner changes s key :
  forallb (change_done owner s) changes = true → change_keys owner key changes (snapshot_get s key) = snapshot_get s key.
Proof.
  unfold change_keys. induction changes as [|c changes IH]; [done|]. cbn. intros [Hc Hcs]%andb_true_iff.
  assert (change_key owner key (snapshot_get s key) c = snapshot_get s key) as ->; [|by apply IH].
  unfold change_key. destruct (decide (c.1 = key)) as [<-|]; [|done]. unfold change_done in Hc.
  destruct c.2 as [value|]; bool_hyps; [done|]. by rewrite bool_decide_false by done.
Qed.

Lemma batch_shard_get owner changes s key :
  snapshot_wf s →
  snapshot_wf (batch_shard owner changes s).1 ∧
  snapshot_get (batch_shard owner changes s).1 key = change_keys owner key changes (snapshot_get s key).
Proof.
  intros Hw. unfold batch_shard. destruct (forallb _ _) eqn:B; cbn [fst].
  - split; [done|]. symmetry. by apply changes_done.
  - by apply apply_changes_get.
Qed.

(** ** The sharded map is a map *)

Definition map_wf (m : ShardedRouteMap) : Prop :=
  length (shards m) = ROUTE_SHARD_COUNT ∧ Forall snapshot_wf (shards m).

Lemma shard_at m index : map_wf m → (index < ROUTE_SHARD_COUNT)%nat → ∃ s, shards m !! index = Some s ∧ snapshot_wf s.
Proof.
  intros [Hl Hw] Hi. destruct (lookup_lt_is_Some_2 (shards m) index) as [s Hs]; [by rewrite Hl|].
  exists s. split; [done|]. by eapply Forall_lookup_1.
Qed.

Lemma shard_index_bound key : (shard_index key < ROUTE_SHARD_COUNT)%nat.
Proof. apply Nat.mod_upper_bound. unfold ROUTE_SHARD_COUNT. lia. Qed.

Lemma rcu_wf m index f : map_wf m → (∀ s, snapshot_wf s → snapshot_wf (f s)) → map_wf (rcu m index f).
Proof.
  intros [Hl Hw] Hf. split; cbn; [by rewrite length_alter|]. apply Forall_lookup. intros i s Hi.
  destruct (decide (i = index)) as [->|Hn].
  - rewrite list_lookup_alter_eq in Hi. apply fmap_Some in Hi as (s' & Hs' & ->). apply Hf. by eapply Forall_lookup_1.
  - rewrite list_lookup_alter_ne in Hi by done. by eapply Forall_lookup_1.
Qed.

Lemma get_rcu m index f key s :
  shards m !! index = Some s →
  get (rcu m index f) key = if decide (shard_index key = index) then snapshot_get (f s) key else get m key.
Proof.
  intros Hs. unfold get, rcu. cbn. destruct (decide (shard_index key = index)) as [->|Hn].
  - by rewrite list_lookup_alter_eq, Hs.
  - by rewrite list_lookup_alter_ne.
Qed.

Lemma new_map_wf : map_wf new_map ∧ ∀ key, get new_map key = None.
Proof.
  assert (snapshot_wf default_snapshot) as Hd.
  { split; [apply length_replicate|]. intros i leaf key Hi [o Ho]. apply lookup_replicate in Hi as [-> _].
    by rewrite lookup_empty in Ho. }
  split.
  - split; [apply length_replicate|]. by apply Forall_replicate.
  - intros key. unfold get, new_map. cbn [shards].
    rewrite lookup_replicate_2 by apply shard_index_bound. cbn [mbind option_bind]. unfold snapshot_get.
    destruct (leaf_at _ key Hd) as [leaf El]. rewrite El. unfold default_snapshot in El. cbn [leaves] in El.
    apply lookup_replicate in El as [-> _]. apply lookup_empty.
Qed.

Lemma change_keys_grouped owner key changes current :
  change_keys owner key (grouped changes (shard_index key)) current = change_keys owner key changes current.
Proof.
  unfold change_keys, grouped. revert current. induction changes as [|c changes IH]; intros current; [done|].
  destruct (decide (shard_index c.1 = shard_index key)) as [E|Hn].
  - rewrite filter_cons_True by done. apply IH.
  - rewrite filter_cons_False by done. cbn. rewrite IH. f_equal. unfold change_key.
    by rewrite decide_False by congruence.
Qed.

(** How many changes the shards of a list of indexes have. *)
Fixpoint group_sizes (changes : list Change) (indexes : list nat) : nat :=
  match indexes with
  | [] => 0
  | i :: indexes => length (grouped changes i) + group_sizes changes indexes
  end.

Lemma grouped_cons c changes i :
  grouped (c :: changes) i = if decide (shard_index c.1 = i) then c :: grouped changes i else grouped changes i.
Proof. unfold grouped. by rewrite filter_cons. Qed.

Lemma group_sizes_bound changes indexes : NoDup indexes → (group_sizes changes indexes <= length changes)%nat.
Proof.
  intros Hnd. induction changes as [|c changes IH].
  { induction indexes as [|i ix IH]; [done|]. cbn. apply NoDup_cons in Hnd as [_ Hnd]. by apply IH. }
  assert (group_sizes (c :: changes) indexes <=
    group_sizes changes indexes + (if decide (shard_index c.1 ∈ indexes) then 1 else 0))%nat as H; [|destruct (decide _); cbn; lia].
  clear IH. induction Hnd as [|i ix Hi Hnd IH]; [cbn; lia|]. cbn [group_sizes]. rewrite grouped_cons.
  destruct (decide (shard_index c.1 = i)) as [<-|Hn].
  - rewrite (decide_True (P := _ ∈ _ :: ix)) by set_solver. rewrite decide_False in IH by done. cbn [length]. lia.
  - destruct (decide (shard_index c.1 ∈ ix)), (decide (shard_index c.1 ∈ i :: ix)); cbn in *; try set_solver; lia.
Qed.

Lemma batch_fold owner changes indexes m retirement :
  map_wf m → NoDup indexes → Forall (λ i, i < ROUTE_SHARD_COUNT)%nat indexes →
  (∀ batch, retirement = Some batch → length batch + group_sizes changes indexes <= SNAPSHOTS_PER_BATCH)%nat →
  ∃ m' retirement', fold_left (batch_step owner changes) indexes (Some (m, retirement)) = Some (m', retirement') ∧
    map_wf m' ∧
    (∀ key, get m' key = if decide (shard_index key ∈ indexes) then change_keys owner key changes (get m key) else get m key) ∧
    match retirement with
    | Some batch => ∃ batch', retirement' = Some batch' ∧ length batch' <= length batch + group_sizes changes indexes
    | None => retirement' = None
    end%nat.
Proof.
  intros Hw Hnd. revert m retirement Hw. induction Hnd as [|i ix Hi Hnd IH]; intros m retirement Hw Hb Hr.
  { exists m, retirement. split_and!; try done. destruct retirement as [batch|]; [|done]. exists batch. split; [done|cbn; lia]. }
  apply Forall_cons in Hb as [Hib Hb]. destruct (shard_at m i Hw Hib) as (s & Hs & Hsw).
  assert (∃ m1 r1, batch_step owner changes (Some (m, retirement)) i = Some (m1, r1) ∧ map_wf m1 ∧
    (∀ key, get m1 key = if decide (shard_index key = i) then change_keys owner key changes (get m key) else get m key) ∧
    match retirement with
    | Some batch => ∃ batch', r1 = Some batch' ∧ length batch' <= length batch + length (grouped changes i)
    | None => r1 = None
    end%nat) as (m1 & r1 & E1 & Hw1 & Hg1 & Hr1).
  { unfold batch_step. cbn [mbind option_bind]. rewrite Hs. destruct (grouped changes i) as [|c cs] eqn:Eg.
    - exists m, retirement. split_and!; try done.
      + intros key. destruct (decide (shard_index key = i)) as [<-|]; [|done]. by rewrite <- change_keys_grouped, Eg.
      + destruct retirement as [batch|]; [|done]. exists batch. split; [done|lia].
    - rewrite <- Eg. destruct (batch_shard owner (grouped changes i) s) as [next replaced] eqn:Eb.
      assert (map_wf (rcu m i (λ _, next)) ∧ ∀ key, get (rcu m i (λ _, next)) key =
        if decide (shard_index key = i) then change_keys owner key changes (get m key) else get m key) as [Hw1 Hg1].
      { split.
        - apply rcu_wf; [done|]. intros _ _. destruct (batch_shard_get owner (grouped changes i) s "" Hsw) as [Hn _].
          by rewrite Eb in Hn.
        - intros key. rewrite (get_rcu _ _ _ _ s Hs). destruct (decide (shard_index key = i)) as [<-|]; [|done].
          destruct (batch_shard_get owner (grouped changes (shard_index key)) s key Hsw) as [_ Hn].
          rewrite Eb in Hn. cbn in Hn. rewrite Hn, change_keys_grouped. unfold get. by rewrite Hs. }
      destruct replaced, retirement as [batch|]; cbn [mbind option_bind].
      + unfold push. specialize (Hr batch eq_refl). cbn [group_sizes] in Hr.
        rewrite Eg in Hr. cbn [length] in Hr. rewrite (proj2 (Nat.ltb_lt _ _)) by lia. cbn [mbind option_bind].
        eexists _, _. split_and!; [done|done|done|]. eexists. split; [done|]. rewrite length_app, Eg. cbn. lia.
      + eexists _, _. by split_and!.
      + eexists _, _. split_and!; [done|done|done|]. eexists. split; [done|lia].
      + eexists _, _. by split_and!. }
  cbn [fold_left]. rewrite E1.
  destruct (IH m1 r1 Hw1 Hb) as (m' & r' & E' & Hw' & Hg' & Hr').
  { intros batch Hbatch. destruct retirement as [b0|]; [|congruence]. destruct Hr1 as (b1 & E & Hl).
    specialize (Hr b0 eq_refl). cbn [group_sizes] in Hr. assert (b1 = batch) as -> by congruence. lia. }
  exists m', r'. split_and!; [done|done| |].
  - intros key. rewrite Hg', Hg1. destruct (decide (shard_index key ∈ ix)) as [Hin|Hin].
    + rewrite (decide_True (P := _ ∈ _ :: _)) by set_solver. rewrite decide_False; [done|]. intros <-. done.
    + destruct (decide (shard_index key = i)), (decide (shard_index key ∈ i :: ix)); set_solver.
  - destruct retirement as [b0|].
    + destruct Hr1 as (b1 & -> & Hl1). destruct Hr' as (b2 & -> & Hl2). exists b2. split; [done|].
      cbn [group_sizes]. lia.
    + by subst r1.
Qed.

Lemma apply_batch_spec m owner removals additions retirement :
  map_wf m →
  (∀ batch, retirement = Some batch → length batch + length removals + length additions <= SNAPSHOTS_PER_BATCH)%nat →
  ∃ m' retirement', apply_batch_retiring m owner removals additions retirement = Some (m', retirement') ∧
    map_wf m' ∧ (∀ key, get m' key = change_keys owner key (batch_changes removals additions) (get m key)) ∧
    match retirement with
    | Some batch => ∃ batch', retirement' = Some batch' ∧ length batch' <= length batch + length removals + length additions
    | None => retirement' = None
    end%nat.
Proof.
  intros Hw Hr. assert (length (batch_changes removals additions) = length removals + length additions)%nat as Hlen.
  { unfold batch_changes. by rewrite length_app, !length_fmap. }
  pose proof (group_sizes_bound (batch_changes removals additions) (seq 0 ROUTE_SHARD_COUNT) (NoDup_seq _ _)) as Hg.
  destruct (batch_fold owner (batch_changes removals additions) (seq 0 ROUTE_SHARD_COUNT) m retirement)
    as (m' & r' & E & Hw' & Hget & Hr').
  - done.
  - apply NoDup_seq.
  - apply Forall_forall. intros i Hi. apply elem_of_seq in Hi. lia.
  - intros batch Hbatch. specialize (Hr batch Hbatch). lia.
  - exists m', r'. split_and!; [done|done| |].
    + intros key. rewrite Hget, decide_True; [done|]. apply elem_of_seq. pose proof (shard_index_bound key). lia.
    + destruct retirement as [batch|]; [|done]. destruct Hr' as (b' & -> & Hl). exists b'. split; [done|lia].
Qed.

Lemma insert_route_spec m key owner :
  map_wf m → map_wf (insert_route m key owner) ∧
  ∀ k, get (insert_route m key owner) k = if decide (k = key) then Some owner else get m k.
Proof.
  intros Hw. split; [apply rcu_wf; auto using snapshot_insert_wf|]. intros k.
  destruct (shard_at m (shard_index key) Hw (shard_index_bound key)) as (s & Hs & Hsw).
  unfold insert_route. rewrite (get_rcu _ _ _ _ s Hs). destruct (decide (k = key)) as [->|Hn].
  - rewrite decide_True by done. rewrite snapshot_get_insert by done. by rewrite decide_True.
  - destruct (decide (shard_index k = shard_index key)) as [E|]; [|done].
    rewrite snapshot_get_insert by done. rewrite decide_False by done. unfold get. by rewrite E, Hs.
Qed.

Lemma remove_key_spec m key :
  map_wf m → map_wf (remove_key m key).1 ∧ (remove_key m key).2 = get m key ∧
  ∀ k, get (remove_key m key).1 k = if decide (k = key) then None else get m k.
Proof.
  intros Hw. unfold remove_key. cbn [fst snd]. destruct (get m key) as [o|] eqn:Eg.
  2: { rewrite bool_decide_false by by intros []. split_and!; try done. intros k. by destruct (decide (k = key)) as [->|]. }
  rewrite bool_decide_true by eauto. split_and!; [apply rcu_wf; auto using snapshot_remove_wf|done|]. intros k.
  destruct (shard_at m (shard_index key) Hw (shard_index_bound key)) as (s & Hs & Hsw).
  rewrite (get_rcu _ _ _ _ s Hs). destruct (decide (k = key)) as [->|Hn].
  - rewrite decide_True by done. rewrite snapshot_get_remove by done. by rewrite decide_True.
  - destruct (decide (shard_index k = shard_index key)) as [E|]; [|done].
    rewrite snapshot_get_remove by done. rewrite decide_False by done. unfold get. by rewrite E, Hs.
Qed.

(** ** Publication, key by key *)

Definition assign_keys (key : string) (additions : list (string * string)) (current : option string) : option string :=
  fold_left (λ cur a, if decide (a.1 = key) then Some a.2 else cur) additions current.

(** The last owner in the list that has the key. *)
Definition owner_of (key : string) (owners : list RouteOwnerSnapshot) (current : option string) : option string :=
  fold_left (λ cur o, if bool_decide (key ∈ owner_keys o) then Some (owner_name o) else cur) owners current.

Lemma assign_keys_app key l l' current : assign_keys key (l ++ l') current = assign_keys key l' (assign_keys key l current).
Proof. apply fold_left_app. Qed.

Lemma assign_keys_filter key additions current :
  assign_keys key (filter (λ a, shard_index a.1 = shard_index key) additions) current = assign_keys key additions current.
Proof.
  unfold assign_keys. revert current. induction additions as [|a l IH]; intros current; [done|].
  destruct (decide (shard_index a.1 = shard_index key)) as [E|Hn].
  - rewrite filter_cons_True by done. apply IH.
  - rewrite filter_cons_False by done. cbn. rewrite IH, decide_False by congruence. done.
Qed.

Lemma assign_keys_one key name l current :
  assign_keys key ((λ k, (k, name)) <$> l) current = if decide (key ∈ l) then Some name else current.
Proof.
  unfold assign_keys. revert current. induction l as [|x l IH]; intros current; [done|]. cbn. rewrite IH.
  destruct (decide (key ∈ l)), (decide (x = key)), (decide (key ∈ x :: l)); try done; set_solver.
Qed.

Lemma assign_additions key owners current :
  assign_keys key (owner_additions owners) current = owner_of key owners current.
Proof.
  unfold owner_of, owner_additions. revert current. induction owners as [|o owners IH]; intros current; [done|].
  rewrite bind_cons, assign_keys_app, IH. cbn. f_equal. rewrite assign_keys_one.
  destruct (decide (key ∈ elements (owner_keys o))) as [Hk|Hk]; rewrite elem_of_elements in Hk.
  - by rewrite bool_decide_true.
  - by rewrite bool_decide_false.
Qed.

(** What publication keeps of a key before the owners assign theirs. *)
Definition kept (owners : list RouteOwnerSnapshot) (live : option (gset string)) (key : string) (current : option string) : option string :=
  match current with Some o => if remove_route owners live key o then None else Some o | None => None end.

Lemma add_routes_get additions s key :
  snapshot_wf s → snapshot_wf (fold_left add_route additions s) ∧
  snapshot_get (fold_left add_route additions s) key = assign_keys key additions (snapshot_get s key).
Proof.
  revert s. induction additions as [|a l IH]; intros s Hw; [done|]. cbn.
  assert (snapshot_wf (add_route s a)) as Hw'.
  { unfold add_route. destruct (bool_decide _); auto using snapshot_insert_wf. }
  destruct (IH _ Hw') as [Hw'' E]. split; [done|]. rewrite E. unfold assign_keys. cbn. f_equal. unfold add_route.
  destruct (bool_decide _) eqn:B; bool_hyps.
  - destruct (decide (a.1 = key)) as [<-|]; done.
  - rewrite snapshot_get_insert by done. destruct (decide (key = a.1)), (decide (a.1 = key)); congruence.
Qed.

Lemma publish_shard_get owners live additions s key :
  snapshot_wf s →
  snapshot_wf (publish_shard owners live additions s) ∧
  snapshot_get (publish_shard owners live additions s) key = assign_keys key additions (kept owners live key (snapshot_get s key)).
Proof.
  intros Hw. unfold publish_shard. destruct (_ && _) eqn:B.
  - apply andb_true_iff in B as [Ha Hk]. apply negb_true_iff in Hk. split; [done|].
    assert (kept owners live key (snapshot_get s key) = snapshot_get s key) as ->.
    { unfold kept. destruct (snapshot_get s key) as [o|] eqn:E; [|done].
      destruct (remove_route owners live key o) eqn:R; [|done]. exfalso.
      assert (existsb (λ '(key, owner), remove_route owners live key owner) (snapshot_iter s) = true) as Hx; [|congruence].
      apply existsb_exists. exists (key, o). split; [|done]. apply list_elem_of_In. by apply elem_of_snapshot_iter. }
    induction additions as [|a l IH]; [done|]. cbn in *. apply andb_true_iff in Ha as [Ha Hl]. bool_hyps.
    destruct (decide (a.1 = key)) as [<-|]; [rewrite <- Ha|]; by apply IH.
  - destruct (add_routes_get additions (snapshot_retain s (λ key owner, negb (remove_route owners live key owner))) key)
      as [Hw' E]; [by apply snapshot_retain_wf|]. split; [done|]. rewrite E, snapshot_get_retain. f_equal.
    unfold kept. destruct (snapshot_get s key) as [o|]; [|done]. by destruct (remove_route owners live key o).
Qed.

Lemma publish_fold owners live indexes m :
  map_wf m → NoDup indexes → Forall (λ i, i < ROUTE_SHARD_COUNT)%nat indexes →
  let m' := fold_left (λ m index,
    rcu m index (publish_shard owners live (filter (λ a, shard_index a.1 = index) (owner_additions owners)))) indexes m in
  map_wf m' ∧ ∀ key, get m' key =
    if decide (shard_index key ∈ indexes) then owner_of key owners (kept owners live key (get m key)) else get m key.
Proof.
  intros Hw Hnd. revert m Hw. induction Hnd as [|i ix Hi Hnd IH]; intros m Hw Hb; [done|].
  apply Forall_cons in Hb as [Hib Hb]. cbn [fold_left].
  set (f := publish_shard owners live (filter (λ a, shard_index a.1 = i) (owner_additions owners))).
  destruct (IH (rcu m i f)) as [Hw' Hg]; [|done|].
  { apply rcu_wf; [done|]. intros s Hs. by apply (publish_shard_get _ _ _ _ ""). }
  split; [done|]. intros key. rewrite Hg. destruct (shard_at m i Hw Hib) as (s & Hs & Hsw).
  rewrite !(get_rcu _ _ _ _ s Hs). destruct (decide (shard_index key = i)) as [E|Hn].
  - rewrite decide_False by congruence. rewrite (decide_True (P := _ ∈ _ :: _)) by set_solver.
    destruct (publish_shard_get owners live (filter (λ a, shard_index a.1 = i) (owner_additions owners)) s key Hsw) as [_ Ep].
    unfold f. rewrite Ep, <- E, assign_keys_filter, assign_additions. unfold get. by rewrite E, Hs.
  - destruct (decide (shard_index key ∈ ix)), (decide (shard_index key ∈ i :: ix)); try done; set_solver.
Qed.

Lemma publish_owners_spec m owners live :
  map_wf m → map_wf (publish_owners m owners live) ∧
  ∀ key, get (publish_owners m owners live) key = owner_of key owners (kept owners live key (get m key)).
Proof.
  intros Hw. destruct (publish_fold owners live (seq 0 ROUTE_SHARD_COUNT) m Hw (NoDup_seq _ _)) as [Hw' Hg].
  { apply Forall_forall. intros i Hi%elem_of_seq. lia. }
  split; [done|]. intros key. unfold publish_owners. rewrite Hg, decide_True; [done|].
  apply elem_of_seq. pose proof (shard_index_bound key). lia.
Qed.

(** ** Claims *)

(** The closure of [insert_if_vacant_or_same]. *)
Definition claim_shard (key owner : string) (s : RouteSnapshot) : RouteSnapshot :=
  if contains_key s key then s else snapshot_insert s key owner.

Definition taken_by_other (m : ShardedRouteMap) (key owner : string) : bool :=
  match get m key with Some current => negb (String.eqb current owner) | None => false end.

Definition insert_if_vacant_or_same (m : ShardedRouteMap) (key owner : string) : ShardedRouteMap * bool :=
  if taken_by_other m key owner then (m, false)
  else
    let m := rcu m (shard_index key) (claim_shard key owner) in
    (m, bool_decide (get m key = Some owner)).

Lemma claim_spec m key owner :
  map_wf m →
  let m' := rcu m (shard_index key) (claim_shard key owner) in
  map_wf m' ∧ ∀ k, get m' k = if decide (k = key) then Some (default owner (get m key)) else get m k.
Proof.
  intros Hw. cbv zeta. split.
  { apply rcu_wf; [done|]. intros s Hs. unfold claim_shard. destruct (contains_key s key); auto using snapshot_insert_wf. }
  intros k. destruct (shard_at m (shard_index key) Hw (shard_index_bound key)) as (s & Hs & Hsw).
  assert (get m key = snapshot_get s key) as Eg by (unfold get; by rewrite Hs).
  rewrite (get_rcu _ _ _ _ s Hs), Eg. unfold claim_shard, contains_key.
  destruct (decide (shard_index k = shard_index key)) as [E|Hn].
  - assert (get m k = snapshot_get s k) as -> by (unfold get; by rewrite E, Hs).
    destruct (snapshot_get s key) as [o|] eqn:Ek.
    + rewrite bool_decide_true by eauto. destruct (decide (k = key)) as [->|]; [done|done].
    + rewrite bool_decide_false by by intros []. rewrite snapshot_get_insert by done. by destruct (decide (k = key)).
  - rewrite decide_False by congruence. done.
Qed.

(** Claims in progress on one map: each looks, exchanges, and looks again. *)
Inductive Claim := CLook | CExchange | CConfirm | CDone (won : bool).

Record Claimant := mkClaimant { claim_key : string; claim_owner : string; claim_at : Claim }.

Definition claim_access (m : ShardedRouteMap) (c : Claimant) : ShardedRouteMap * Claimant :=
  match claim_at c with
  | CLook =>
      (m, c <| claim_at := if taken_by_other m (claim_key c) (claim_owner c) then CDone false else CExchange |>)
  | CExchange =>
      (rcu m (shard_index (claim_key c)) (claim_shard (claim_key c) (claim_owner c)), c <| claim_at := CConfirm |>)
  | CConfirm => (m, c <| claim_at := CDone (bool_decide (get m (claim_key c) = Some (claim_owner c))) |>)
  | CDone _ => (m, c)
  end.

Inductive claims_step : ShardedRouteMap * list Claimant → ShardedRouteMap * list Claimant → Prop :=
| claims_step_at m cs i c :
    cs !! i = Some c → claims_step (m, cs) ((claim_access m c).1, <[i := (claim_access m c).2]> cs).

Definition claims_ok (st : ShardedRouteMap * list Claimant) : Prop :=
  map_wf st.1 ∧ ∀ i c, st.2 !! i = Some c → claim_at c = CDone true → get st.1 (claim_key c) = Some (claim_owner c).

Lemma claims_step_ok st st' : claims_step st st' → claims_ok st → claims_ok st'.
Proof.
  intros Hs [Hw Hok]. destruct Hs as [m cs i c Hc]. cbn in Hw, Hok.
  assert (map_wf (claim_access m c).1 ∧ ∀ k o, get m k = Some o → get (claim_access m c).1 k = Some o) as [Hw' Hmono].
  { unfold claim_access. destruct (claim_at c); try done. cbn [fst].
    destruct (claim_spec m (claim_key c) (claim_owner c) Hw) as [Hw' Hg]. split; [done|]. intros k o Hk. rewrite Hg.
    destruct (decide (k = claim_key c)) as [->|]; [by rewrite Hk|done]. }
  split; [done|]. cbn [fst snd]. intros j c' Hj Hd. destruct (decide (j = i)) as [->|Hn].
  - rewrite list_lookup_insert_eq in Hj by by apply lookup_lt_Some in Hc. injection Hj as <-.
    unfold claim_access in Hd |- *. destruct (claim_at c) eqn:Ea; cbn in Hd |- *; try done.
    + by destruct (taken_by_other _ _ _).
    + injection Hd as Hd. by apply bool_decide_eq_true in Hd.
    + apply (Hok i c Hc). congruence.
  - rewrite list_lookup_insert_ne in Hj by done. apply Hmono. by apply (Hok j c').
Qed.

(** Concurrent claims of a key have one winner.  However the accesses of any number of
    [insert_if_vacant_or_same] calls interleave on a map, two that return true for the same
    key claimed it for the same owner, and the map still routes the key to it. *)
Theorem claims_exclusive m cs st i j ci cj :
  map_wf m → Forall (λ c, claim_at c = CLook) cs → rtc claims_step (m, cs) st →
  st.2 !! i = Some ci → st.2 !! j = Some cj → claim_at ci = CDone true → claim_at cj = CDone true →
  claim_key ci = claim_key cj →
  claim_owner ci = claim_owner cj ∧ get st.1 (claim_key ci) = Some (claim_owner ci).
Proof.
  intros Hw Hcs Hr Hi Hj Hdi Hdj Hk.
  assert (claims_ok st) as [_ Hok].
  { assert (claims_ok (m, cs)) as H0.
    { split; [done|]. intros n c Hc Hd. apply (Forall_lookup_1 _ _ _ _ Hcs) in Hc. congruence. }
    revert H0. induction Hr as [|x y z Hxy _ IH]; [done|]. intros H0. apply IH; [done..|]. by eapply claims_step_ok. }
  pose proof (Hok _ _ Hi Hdi) as Ei. pose proof (Hok _ _ Hj Hdj) as Ej. split; [|done]. congruence.
Qed.

(** ** Histories *)

Inductive RouteOp :=
| RInsert (key owner : string)
| RRemove (key : string)
| RClaim (key owner : string)
| RBatch (owner : string) (removals : list string) (additions : list (string * string))
| RPublish (owners : list RouteOwnerSnapshot) (live : option (gset string)).

(** [None] would be a panic. *)
Definition route_op (m : option ShardedRouteMap) (o : RouteOp) : option ShardedRouteMap :=
  m ← m;
  match o with
  | RInsert key owner => Some (insert_route m key owner)
  | RRemove key => Some (remove_key m key).1
  | RClaim key owner => Some (insert_if_vacant_or_same m key owner).1
  | RBatch owner removals additions => fst <$> apply_batch_retiring m owner removals additions None
  | RPublish owners live => Some (publish_owners m owners live)
  end.

(** The same on a plain map, key by key. *)
Definition plain_op (routes : string → option string) (o : RouteOp) (key : string) : option string :=
  match o with
  | RInsert k owner => if decide (key = k) then Some owner else routes key
  | RRemove k => if decide (key = k) then None else routes key
  | RClaim k owner => if decide (key = k) then Some (default owner (routes key)) else routes key
  | RBatch owner removals additions => change_keys owner key (batch_changes removals additions) (routes key)
  | RPublish owners live => owner_of key owners (kept owners live key (routes key))
  end.

Lemma route_op_spec m o :
  map_wf m → ∃ m', route_op (Some m) o = Some m' ∧ map_wf m' ∧ ∀ key, get m' key = plain_op (get m) o key.
Proof.
  intros Hw. destruct o as [k owner|k|k owner|owner removals additions|owners live]; cbn [route_op mbind option_bind].
  - destruct (insert_route_spec m k owner Hw). eauto.
  - destruct (remove_key_spec m k Hw) as (? & _ & ?). eauto.
  - unfold insert_if_vacant_or_same. destruct (taken_by_other m k owner) eqn:B; cbn [fst].
    + eexists. split_and!; [done|done|]. intros key. cbn. destruct (decide (key = k)) as [->|]; [|done].
      unfold taken_by_other in B. destruct (get m k); [done|discriminate B].
    + destruct (claim_spec m k owner Hw) as [Hw' Hg]. eexists. split_and!; [done|done|]. intros key. cbn [plain_op].
      rewrite Hg. by destruct (decide (key = k)) as [->|].
  - destruct (apply_batch_spec m owner removals additions None Hw) as (m' & r' & -> & Hw' & Hg & _); [done|].
    exists m'. by split_and!.
  - destruct (publish_owners_spec m owners live Hw). eauto.
Qed.

(** C15: The sharded route map is a map.  Whatever the hash, and whatever the history of
    insertions, removals, claims, garbage-collection batches and owner publications,
    no operation panics and every lookup returns what the same operations do to a plain
    map key by key.  In particular a batch removes a key only from the owner it was
    made for: a key rebound to another owner keeps it. *)
Theorem routes_refine_map ops :
  ∃ m, fold_left route_op ops (Some new_map) = Some m ∧
  ∀ key, get m key = fold_left plain_op ops (λ _, None) key.
Proof.
  assert (∀ m f, map_wf m → (∀ key, get m key = f key) →
    ∃ m', fold_left route_op ops (Some m) = Some m' ∧ ∀ key, get m' key = fold_left plain_op ops f key) as H.
  { induction ops as [|o ops IH]; intros m f Hw Hf; [by exists m|]. cbn [fold_left].
    destruct (route_op_spec m o Hw) as (m1 & -> & Hw1 & Hg1). apply IH; [done|]. intros key. rewrite Hg1.
    destruct o; cbn; by rewrite Hf. }
  destruct new_map_wf as [Hw Hg]. by apply H.
Qed.

(** ** The teardown of a deletion turn *)

Record RouteMaps := mkMaps {
  retired_trade_routes : ShardedRouteMap;
  coid_routes : ShardedRouteMap;
  oid_routes : ShardedRouteMap;
  trade_routes : ShardedRouteMap }.

(** The end of [process_settled_gc_delete_request]: four batches under one permit. *)
Definition gc_teardown (maps : RouteMaps) (instance_id : string) (coids oids stale_trades : list string)
    (retired_routes : list (string * string)) (retirement : option (list RouteSnapshot))
    : option (RouteMaps * option (list RouteSnapshot)) :=
  '(a, retirement) ← apply_batch_retiring (retired_trade_routes maps) instance_id [] retired_routes retirement;
  '(b, retirement) ← apply_batch_retiring (coid_routes maps) instance_id coids [] retirement;
  '(c, retirement) ← apply_batch_retiring (oid_routes maps) instance_id oids [] retirement;
  '(d, retirement) ← apply_batch_retiring (trade_routes maps) instance_id stale_trades [] retirement;
  Some (mkMaps a b c d, retirement).

Lemma remove_changes owner key removals current :
  change_keys owner key (batch_changes removals []) current =
  if bool_decide (key ∈ removals ∧ current = Some owner) then None else current.
Proof.
  unfold batch_changes. cbn. rewrite app_nil_r. unfold change_keys.
  assert (∀ l, fold_left (change_key owner key) ((λ k, (k, None)) <$> l) None = None) as Hnone.
  { induction l as [|x l IH]; [done|]. cbn. unfold change_key at 2. cbn [fst snd]. destruct (decide (x = key)); [|done]. by destruct (bool_decide _). }
  revert current. induction removals as [|x l IH]; intros current.
  { cbn. rewrite bool_decide_false by set_solver. done. }
  cbn. unfold change_key at 2. cbn [fst snd]. destruct (decide (x = key)) as [->|Hn].
  - destruct (bool_decide (current = Some owner)) eqn:B; bool_hyps.
    + rewrite Hnone, bool_decide_true; [done|]. split; [set_solver|done].
    + rewrite IH, !bool_decide_false by set_solver. done.
  - rewrite IH. by rewrite (bool_decide_ext (key ∈ l ∧ current = Some owner) (key ∈ x :: l ∧ current = Some owner)) by set_solver.
Qed.

Lemma add_changes owner key additions current :
  change_keys owner key (batch_changes [] additions) current = assign_keys key additions current.
Proof.
  unfold batch_changes, change_keys, assign_keys. cbn. revert current.
  induction additions as [|[k o] l IH]; intros current; [done|]. cbn. rewrite IH. f_equal.
Qed.

(** C35: A deletion turn retires its routes within its batch.  With at most the orders and
    trades of one turn, the four batches fit the permit whatever shards they touch, so
    that no [assert!] fires half way; afterwards a retired trade is routed to the
    instance that is recorded for it, and the routes of the deleted orders and trades
    are gone exactly where this instance still owned them. *)
Theorem gc_teardown_total maps instance_id coids oids stale_trades retired_routes :
  map_wf (retired_trade_routes maps) → map_wf (coid_routes maps) → map_wf (oid_routes maps) → map_wf (trade_routes maps) →
  (length coids <= SETTLED_GC_ORDERS_PER_OWNER_TURN)%nat → length oids = length coids →
  (length stale_trades <= SETTLED_GC_TRADES_PER_OWNER_TURN)%nat → (length retired_routes <= length stale_trades)%nat →
  ∃ maps' batch, gc_teardown maps instance_id coids oids stale_trades retired_routes (Some []) = Some (maps', Some batch) ∧
    (length batch <= SNAPSHOTS_PER_BATCH)%nat ∧
    (∀ key, get (retired_trade_routes maps') key = assign_keys key retired_routes (get (retired_trade_routes maps) key)) ∧
    (∀ key, get (coid_routes maps') key =
      if bool_decide (key ∈ coids ∧ get (coid_routes maps) key = Some instance_id) then None else get (coid_routes maps) key) ∧
    (∀ key, get (oid_routes maps') key =
      if bool_decide (key ∈ oids ∧ get (oid_routes maps) key = Some instance_id) then None else get (oid_routes maps) key) ∧
    (∀ key, get (trade_routes maps') key =
      if bool_decide (key ∈ stale_trades ∧ get (trade_routes maps) key = Some instance_id) then None else get (trade_routes maps) key).
Proof.
  intros Ha Hb Hc Hd H1 H2 H3 H4.
  unfold SETTLED_GC_ORDERS_PER_OWNER_TURN, SETTLED_GC_TRADES_PER_OWNER_TURN in *. unfold gc_teardown.
  assert (SNAPSHOTS_PER_BATCH = 32)%nat as HS by done.
  destruct (apply_batch_spec (retired_trade_routes maps) instance_id [] retired_routes (Some []) Ha)
    as (a & r1 & -> & _ & Ga & (b1 & -> & L1)); [intros ? [= <-]; cbn in *; lia|].
  destruct (apply_batch_spec (coid_routes maps) instance_id coids [] (Some b1) Hb)
    as (b & r2 & Eb & _ & Gb & (b2 & -> & L2)); [intros ? [= <-]; cbn in *; lia|].
  destruct (apply_batch_spec (oid_routes maps) instance_id oids [] (Some b2) Hc)
    as (c & r3 & Ec & _ & Gc & (b3 & -> & L3)); [intros ? [= <-]; cbn in *; lia|].
  destruct (apply_batch_spec (trade_routes maps) instance_id stale_trades [] (Some b3) Hd)
    as (d & r4 & Ed & _ & Gd & (b4 & -> & L4)); [intros ? [= <-]; cbn in *; lia|].
  cbn [mbind option_bind]. rewrite Eb. cbn [mbind option_bind]. rewrite Ec. cbn [mbind option_bind]. rewrite Ed.
  eexists _, b4. split; [reflexivity|]. cbn in L1, L2, L3, L4. split; [lia|].
  split_and!; intros key; cbn [retired_trade_routes coid_routes oid_routes trade_routes];
    [by rewrite Ga, add_changes|by rewrite Gb, remove_changes|by rewrite Gc, remove_changes|by rewrite Gd, remove_changes].
Qed.

End Routes.

Lemma gc_teardown_total_witness :
  ∃ maps' batch,
    gc_teardown String.length (mkMaps new_map (insert_route String.length new_map "c1" "me") new_map new_map) "me"
      ["c1"]%string ["o1"]%string ["t1"]%string [("t1", "me")]%string (Some []) = Some (maps', Some batch) ∧
    get String.length (retired_trade_routes maps') "t1" = Some "me"%string ∧
    get String.length (coid_routes maps') "c1" = None.
Proof.
  destruct (new_map_wf String.length) as [Hw Hn]. destruct (insert_route_spec String.length new_map "c1" "me" Hw) as [Hi Hg].
  destruct (gc_teardown_total String.length (mkMaps new_map (insert_route String.length new_map "c1" "me") new_map new_map) "me"
    ["c1"]%string ["o1"]%string ["t1"]%string [("t1", "me")]%string) as (maps' & batch & E & _ & Ha & Hb & _);
    [exact Hw|exact Hi|exact Hw|exact Hw|apply le_n_S, Nat.le_0_l|reflexivity|apply le_n_S, Nat.le_0_l|apply le_n|].
  exists maps', batch. split; [exact E|]. split.
  - rewrite Ha. reflexivity.
  - rewrite Hb. cbn [coid_routes]. rewrite (Hg "c1"%string). reflexivity.
Defined.

Lemma claims_exclusive_witness :
  get String.length (rcu new_map (shard_index String.length "k") (claim_shard String.length "k" "me")) "k" = Some "me"%string.
Proof.
  refine (proj2 (claims_exclusive String.length new_map [mkClaimant "k" "me" CLook]
    (rcu new_map (shard_index String.length "k") (claim_shard String.length "k" "me"), [mkClaimant "k" "me" (CDone true)])
    0 0 (mkClaimant "k" "me" (CDone true)) (mkClaimant "k" "me" (CDone true)) _ _ _ eq_refl eq_refl eq_refl eq_refl eq_refl)).
  - exact (proj1 (new_map_wf String.length)).
  - repeat constructor.
  - eapply rtc_l; [apply (claims_step_at String.length new_map _ 0); reflexivity|].
    eapply rtc_l; [apply (claims_step_at String.length _ _ 0); reflexivity|].
    eapply rtc_l; [apply (claims_step_at String.length _ _ 0); reflexivity|].
    vm_compute. apply rtc_refl.
Defined.
