(* ===== verification/RouteRetirement.v ===== *)
(** * Retirement of replaced route snapshots

    [RouteRetirementQueue] (hexagent-account/src/account/route_retirement.rs): a deletion
    turn reserves a credit before it changes anything, fills the batch of its permit with
    the snapshots it replaces, and hands the batch to the cold owner when the permit is
    dropped; the cold owner destroys a snapshot when no reader has it and returns the
    credit with the last snapshot of the batch.

    A snapshot is a number here; [held] tells which snapshots a reader still has.  Turns
    of producers and of the cold owner interleave as steps of [rstep].

    Proved: the credits in use are the permits, the batches queued and the batch being
    reclaimed, at most eight, so that the send of a dropped permit always finds room; a
    snapshot is destroyed once, by the cold owner, and never under a reader; when no
    reader is left one call of [reclaim_ready] returns every credit. *)

From S2P Require Import Prelude Routes.

(** ** The queue *)

Definition Batch := list (option nat).

Record RouteRetirementQueue := mkQueue {
  channel : list Batch;
  outstanding : Z;
  high_water : Z;
  backpressure : Z;
  reclaimed : Z }.

Definition new_queue : RouteRetirementQueue := mkQueue [] 0 0 0 0.

Definition CAPACITY : Z := Z.of_nat BATCH_CAPACITY.

Definition try_reserve (q : RouteRetirementQueue) : RouteRetirementQueue * bool :=
  if outstanding q <? CAPACITY
  then (q <| outstanding := outstanding q + 1 |> <| high_water := Z.max (high_water q) (outstanding q + 1) |>, true)
  else (q <| backpressure := backpressure q +w 1 |>, false).

(** Dropping a permit; [None] is the panic of its [assert!]. *)
Definition drop_permit (q : RouteRetirementQueue) (batch : list nat) : option RouteRetirementQueue :=
  match batch with
  | [] => Some (q <| outstanding := outstanding q +w (-1) |>)
  | _ =>
      if (length (channel q) <? BATCH_CAPACITY)%nat
      then Some (q <| channel := channel q ++ [Some <$> batch] |>) else None
  end.

(** What is left of a batch, and what is destroyed, when [held] snapshots are kept. *)
Definition keep_held (held : nat → bool) (batch : Batch) : Batch :=
  (λ s, match s with Some n => if held n then Some n else None | None => None end) <$> batch.

Definition released (held : nat → bool) (batch : Batch) : list nat :=
  omap (λ s, match s with Some n => if held n then None else Some n | None => None end) batch.

Definition complete (batch : Batch) : bool := forallb (λ s, match s with None => true | Some _ => false end) batch.

(** The queue, the pending batch and the snapshots destroyed. *)
Definition reclaim (q : RouteRetirementQueue) (pending : option Batch) (held : nat → bool)
    : RouteRetirementQueue * option Batch * list nat :=
  let '(q, pending) :=
    match pending, channel q with
    | None, batch :: rest => (q <| channel := rest |>, Some batch)
    | _, _ => (q, pending)
    end in
  match pending with
  | None => (q, None, [])
  | Some batch =>
      let left := keep_held held batch in
      if complete left
      then (q <| reclaimed := reclaimed q +w 1 |> <| outstanding := outstanding q +w (-1) |>, None, released held batch)
      else (q, Some left, released held batch)
  end.

Fixpoint reclaim_loop (n : nat) (q : RouteRetirementQueue) (pending : option Batch) (held : nat → nat → bool)
    : RouteRetirementQueue * option Batch * list nat :=
  match n with
  | O => (q, pending, [])
  | S n =>
      let before := outstanding q in
      if before =? 0 then (q, pending, [])
      else
        let '(q, pending, gone) := reclaim q pending (held n) in
        if outstanding q >=? before then (q, pending, gone)
        else
          let '(q, pending, gone') := reclaim_loop n q pending held in
          (q, pending, gone ++ gone')
  end.

(** [held n] is what readers have at the turn with [n] turns left. *)
Definition reclaim_ready (q : RouteRetirementQueue) (pending : option Batch) (held : nat → nat → bool)
    : RouteRetirementQueue * option Batch * list nat :=
  reclaim_loop BATCH_CAPACITY q pending held.

(** ** Turns *)

(** Live permits with the batch each has filled, the batch of the cold owner, and what was
    pushed and destroyed so far. *)
Record Retirement := mkRetirement {
  queue : RouteRetirementQueue;
  permits : gmap nat (list nat);
  pending : option Batch;
  pushed : list nat;
  destroyed : list nat }.

Definition start : Retirement := mkRetirement new_queue ∅ None [] [].

Inductive rstep : Retirement → Retirement → Prop :=
| step_reserve s id q :
    permits s !! id = None → try_reserve (queue s) = (q, true) →
    rstep s (s <| queue := q |> <| permits := <[id := []]> (permits s) |>)
| step_busy s q : try_reserve (queue s) = (q, false) → rstep s (s <| queue := q |>)
| step_push s id batch batch' n :
    permits s !! id = Some batch → push batch n = Some batch' →
    rstep s (s <| permits := <[id := batch']> (permits s) |> <| pushed := pushed s ++ [n] |>)
| step_drop s id batch q :
    permits s !! id = Some batch → drop_permit (queue s) batch = Some q →
    rstep s (s <| queue := q |> <| permits := delete id (permits s) |>)
| step_reclaim s held q p gone :
    reclaim (queue s) (pending s) held = (q, p, gone) →
    rstep s (s <| queue := q |> <| pending := p |> <| destroyed := destroyed s ++ gone |>)
| step_reclaim_ready s held q p gone :
    reclaim_ready (queue s) (pending s) held = (q, p, gone) →
    rstep s (s <| queue := q |> <| pending := p |> <| destroyed := destroyed s ++ gone |>).

(** ** Credits *)

Definition is_pending (p : option Batch) : Z := match p with Some _ => 1 | None => 0 end.

Definition in_use (s : Retirement) : Z :=
  Z.of_nat (size (permits s)) + Z.of_nat (length (channel (queue s))) + is_pending (pending s).

Definition credited (s : Retirement) : Prop :=
  outstanding (queue s) = in_use s ∧ in_use s <= CAPACITY ∧ high_water (queue s) <= CAPACITY.

Lemma decrement n : 1 <= n <= CAPACITY → n +w (-1) = n - 1.
Proof. intros H. change CAPACITY with 8 in H. unfold wrapping_add. rewrite Z.mod_small; lia. Qed.

Lemma reclaim_credits q p held q' p' gone :
  reclaim q p held = (q', p', gone) →
  1 <= outstanding q <= CAPACITY ∨ (p = None ∧ channel q = []) →
  high_water q' = high_water q ∧
  outstanding q' - Z.of_nat (length (channel q')) - is_pending p' =
    outstanding q - Z.of_nat (length (channel q)) - is_pending p ∧
  outstanding q - 1 <= outstanding q' <= outstanding q ∧
  Z.of_nat (length (channel q')) + is_pending p' <= Z.of_nat (length (channel q)) + is_pending p.
Proof.
  intros E Ho. unfold reclaim in E.
  destruct p as [batch|]; [|destruct (channel q) as [|batch rest] eqn:Ec].
  - destruct Ho as [Ho|[? _]]; [|done]. destruct (complete _); simplify_eq; cbn; rewrite ?decrement by done; lia.
  - simplify_eq. rewrite Ec. cbn. lia.
  - destruct Ho as [Ho|[_ ?]]; [|done]. destruct (complete _); simplify_eq; cbn; rewrite ?decrement by done; lia.
Qed.

Lemma reclaim_loop_credits n held q p q' p' gone :
  reclaim_loop n q p held = (q', p', gone) → 0 <= outstanding q <= CAPACITY →
  high_water q' = high_water q ∧
  outstanding q' - Z.of_nat (length (channel q')) - is_pending p' =
    outstanding q - Z.of_nat (length (channel q)) - is_pending p ∧
  0 <= outstanding q' <= outstanding q.
Proof.
  revert q p gone. induction n as [|n IH]; intros q p gone E Ho; cbn [reclaim_loop] in E; [simplify_eq; lia|].
  destruct (Z.eqb_spec (outstanding q) 0); [simplify_eq; lia|].
  destruct (reclaim q p (held n)) as [[q1 p1] g1] eqn:E1.
  destruct (reclaim_credits _ _ _ _ _ _ E1) as (H1 & H2 & H3 & H4); [lia|].
  destruct (outstanding q1 >=? outstanding q); [simplify_eq; lia|].
  destruct (reclaim_loop n q1 p1 held) as [[q2 p2] g2] eqn:E2. simplify_eq.
  destruct (IH _ _ _ E2) as (H5 & H6 & H7); [lia|]. lia.
Qed.

Lemma rstep_credited s s' : rstep s s' → credited s → credited s'.
Proof.
  unfold credited, in_use. intros Hs (Ho & Hc & Hh).
  assert (0 <= is_pending (pending s)) as Hp by (destruct (pending s); cbn; lia).
  destruct Hs as [s id q Hid E|s q E|s id batch batch' n Hid E|s id batch q Hid E|s held q p gone E|s held q p gone E];
    cbn [queue permits pending set] in *.
  - unfold try_reserve in E. destruct (Z.ltb_spec (outstanding (queue s)) CAPACITY); simplify_eq. cbn.
    rewrite map_size_insert_None by done. lia.
  - unfold try_reserve in E. destruct (_ <? _); simplify_eq. cbn. lia.
  - cbn. rewrite map_size_insert_Some; [lia|]. by eexists.
  - assert (size (delete id (permits s)) = size (permits s) - 1)%nat as Hd.
    { rewrite map_size_delete, Hid. lia. }
    assert (size (permits s) ≠ 0)%nat as Hn by (apply map_size_ne_0_lookup_2 with id; rewrite Hid; eauto).
    unfold drop_permit in E. cbn. rewrite Hd. destruct batch as [|x batch].
    + simplify_eq. cbn. rewrite decrement; [lia|]. lia.
    + destruct (_ <? _)%nat; simplify_eq. cbn. rewrite length_app. cbn. lia.
  - apply reclaim_credits in E as (H1 & H2 & H3 & H4).
    + cbn. lia.
    + destruct (pending s), (channel (queue s)); cbn in *; try (left; lia). by right.
  - apply reclaim_loop_credits in E as (H1 & H2 & H3); [cbn; lia|]. lia.
Qed.

(** A dropped permit finds room: its credit is a slot that no batch fills. *)
Lemma drop_has_room s id batch :
  credited s → permits s !! id = Some batch → is_Some (drop_permit (queue s) batch).
Proof.
  intros (Ho & Hc & _) Hid. unfold drop_permit. destruct batch as [|x batch]; [eauto|].
  assert (size (permits s) ≠ 0)%nat as Hn by (apply map_size_ne_0_lookup_2 with id; rewrite Hid; eauto).
  unfold in_use, CAPACITY in Hc. assert (0 <= is_pending (pending s)) as Hp by (destruct (pending s); cbn; lia).
  rewrite (proj2 (Nat.ltb_lt _ _)) by lia. eauto.
Qed.

(** ** Snapshots *)

Definition snapshots_of (batch : Batch) : list nat := omap id batch.
Definition queued (q : RouteRetirementQueue) : list nat := concat (snapshots_of <$> channel q).
Definition pending_snapshots (p : option Batch) : list nat := default [] (snapshots_of <$> p).
Definition permit_snapshots (m : gmap nat (list nat)) : list nat := concat (map_to_list m).*2.

Lemma keep_released held batch :
  snapshots_of batch ≡ₚ snapshots_of (keep_held held batch) ++ released held batch.
Proof.
  unfold snapshots_of, keep_held, released. induction batch as [|[n|] batch IH]; [done| |done].
  cbn. destruct (held n); cbn; rewrite IH; [done|]. by rewrite Permutation_middle.
Qed.

Lemma complete_empty batch : complete batch = true → snapshots_of batch = [].
Proof. induction batch as [|[n|] batch IH]; cbn; [done|done|]. apply IH. Qed.

Lemma reclaim_snapshots q p held q' p' gone :
  reclaim q p held = (q', p', gone) →
  queued q ++ pending_snapshots p ≡ₚ queued q' ++ pending_snapshots p' ++ gone ∧ Forall (λ n, held n = false) gone.
Proof.
  assert (∀ batch, Forall (λ n, held n = false) (released held batch)) as Hf.
  { intros batch. apply Forall_forall. intros n Hn. unfold released in Hn. apply list_elem_of_omap in Hn as (s & _ & Hs).
    destruct s as [k|]; [|done]. destruct (held k) eqn:Ek; by simplify_eq. }
  assert (∀ q0 batch q1 p1 g1,
    (if complete (keep_held held batch)
     then (q0 <| reclaimed := reclaimed q0 +w 1 |> <| outstanding := outstanding q0 +w (-1) |>, None, released held batch)
     else (q0, Some (keep_held held batch), released held batch)) = (q1, p1, g1) →
    queued q0 ++ snapshots_of batch ≡ₚ queued q1 ++ pending_snapshots p1 ++ g1 ∧ Forall (λ n, held n = false) g1) as Hb.
  { intros q0 batch q1 p1 g1 E. destruct (complete _) eqn:B; simplify_eq; (split; [|done]).
    - rewrite (keep_released held batch), (complete_empty _ B). done.
    - cbn. by rewrite (keep_released held batch). }
  intros E. unfold reclaim in E. destruct p as [batch|]; [by apply Hb in E|].
  destruct (channel q) as [|batch rest] eqn:Ec; [by simplify_eq|]. apply Hb in E as [E H]. split; [|done].
  rewrite <- E. unfold queued. rewrite Ec. cbn. rewrite app_nil_r. apply Permutation_app_comm.
Qed.

Lemma reclaim_loop_snapshots n held q p q' p' gone :
  reclaim_loop n q p held = (q', p', gone) →
  queued q ++ pending_snapshots p ≡ₚ queued q' ++ pending_snapshots p' ++ gone ∧
  Forall (λ s, ∃ turn, held turn s = false) gone.
Proof.
  revert q p gone. induction n as [|n IH]; intros q p gone E; cbn [reclaim_loop] in E.
  { simplify_eq. by rewrite app_nil_r. }
  destruct (outstanding q =? 0); [simplify_eq; by rewrite app_nil_r|].
  destruct (reclaim q p (held n)) as [[q1 p1] g1] eqn:E1. apply reclaim_snapshots in E1 as [H1 F1].
  assert (Forall (λ s, ∃ turn, held turn s = false) g1) as F1'.
  { eapply Forall_impl; [exact F1|]. intros s Hs. by exists n. }
  destruct (outstanding q1 >=? outstanding q); [by simplify_eq|].
  destruct (reclaim_loop n q1 p1 held) as [[q2 p2] g2] eqn:E2. simplify_eq. apply IH in E2 as [H2 F2].
  split; [|by apply Forall_app]. rewrite H1, app_assoc, H2. rewrite <- !app_assoc. do 2 f_equiv. apply Permutation_app_comm.
Qed.

(** Every snapshot pushed is in one place. *)
Definition accounted (s : Retirement) : Prop :=
  pushed s ≡ₚ permit_snapshots (permits s) ++ queued (queue s) ++ pending_snapshots (pending s) ++ destroyed s.

Lemma permit_insert_new m id batch : m !! id = None → permit_snapshots (<[id := batch]> m) ≡ₚ batch ++ permit_snapshots m.
Proof. intros H. unfold permit_snapshots. by rewrite map_to_list_insert. Qed.

Lemma permit_take m id batch : m !! id = Some batch → permit_snapshots m ≡ₚ batch ++ permit_snapshots (delete id m).
Proof. intros H. unfold permit_snapshots. by rewrite <- (map_to_list_delete m id batch). Qed.

Lemma queued_snoc q batch : queued (q <| channel := channel q ++ [Some <$> batch] |>) = queued q ++ batch.
Proof.
  assert (snapshots_of (Some <$> batch) = batch) as Hb.
  { unfold snapshots_of. induction batch as [|y l IH]; [done|]. cbn. f_equal. apply IH. }
  unfold queued. change (channel (q <| channel := channel q ++ [Some <$> batch] |>)) with (channel q ++ [Some <$> batch]).
  rewrite fmap_app, concat_app. cbn [fmap list_fmap concat]. by rewrite app_nil_r, Hb.
Qed.

Lemma rstep_accounted s s' : rstep s s' → accounted s → accounted s'.
Proof.
  unfold accounted. intros Hs Ha.
  destruct Hs as [s id q Hid E|s q E|s id batch batch' n Hid E|s id batch q Hid E|s held q p gone E|s held q p gone E];
    cbn [queue permits pending pushed destroyed set] in *.
  - unfold try_reserve in E. destruct (_ <? _); simplify_eq. cbn. by rewrite permit_insert_new.
  - unfold try_reserve in E. by destruct (_ <? _); simplify_eq.
  - unfold push in E. destruct (_ <? _)%nat; simplify_eq. cbn.
    rewrite <- insert_delete_eq, permit_insert_new by apply lookup_delete_eq.
    rewrite Ha, (permit_take _ _ _ Hid). rewrite <- !app_assoc. f_equiv. cbn.
    rewrite !app_assoc. symmetry. apply Permutation_cons_append.
  - cbn. rewrite Ha, (permit_take _ _ _ Hid). unfold drop_permit in E. destruct batch as [|x batch].
    + by simplify_eq.
    + destruct (_ <? _)%nat; simplify_eq. rewrite queued_snoc, <- !app_assoc.
      rewrite (Permutation_app_comm (x :: batch)), <- !app_assoc. do 2 f_equiv. rewrite app_assoc. apply Permutation_app_comm.
  - apply reclaim_snapshots in E as [E _]. cbn. rewrite Ha. f_equiv. rewrite app_assoc, E, <- !app_assoc.
    by rewrite (Permutation_app_comm gone).
  - apply reclaim_loop_snapshots in E as [E _]. cbn. rewrite Ha. f_equiv. rewrite app_assoc, E, <- !app_assoc.
    by rewrite (Permutation_app_comm gone).
Qed.

(** ** Draining *)

Lemma complete_unheld batch : complete (keep_held (λ _, false) batch) = true.
Proof. induction batch as [|[n|] batch IH]; cbn; done. Qed.

Lemma drain_loop n q p :
  outstanding q = Z.of_nat (length (channel q)) + is_pending p → outstanding q <= Z.of_nat n → Z.of_nat n <= CAPACITY →
  ∃ q' gone, reclaim_loop n q p (λ _ _, false) = (q', None, gone) ∧ outstanding q' = 0 ∧ channel q' = [].
Proof.
  revert q p. induction n as [|n IH]; intros q p Ho Hn Hc; cbn [reclaim_loop].
  - destruct p as [b|]; [cbn in Ho; lia|]. exists q, []. destruct (channel q); cbn in Ho; [|lia]. split_and!; [done|lia|done].
  - destruct (Z.eqb_spec (outstanding q) 0) as [Hz|Hz].
    + destruct p as [b|]; [cbn in Ho; lia|]. exists q, []. destruct (channel q); cbn in Ho; [|lia]. split_and!; [done|lia|done].
    + assert (∃ q1 g1, reclaim q p (λ _, false) = (q1, None, g1) ∧ outstanding q1 = outstanding q - 1 ∧
        outstanding q1 = Z.of_nat (length (channel q1))) as (q1 & g1 & E1 & H1 & H2).
      { unfold reclaim. destruct p as [b|]; [|destruct (channel q) as [|b rest] eqn:Ec; [cbn in Ho; lia|]];
          rewrite complete_unheld; eexists _, _; (split; [reflexivity|]); cbn in *; rewrite decrement by lia; lia. }
      rewrite E1. destruct (outstanding q1 >=? outstanding q) eqn:B; [lia|].
      destruct (IH q1 None) as (q' & gone & E & Ho' & Hc'); [cbn; lia|lia|lia|]. rewrite E. by exists q', (g1 ++ gone).
Qed.

(** C16: Retirement is bounded and lossless.  In every reachable state the credits in use are
    the live permits, the queued batches and the batch being reclaimed, at most eight;
    dropping any live permit therefore finds room in the channel; every snapshot pushed
    is in a live permit, queued, pending or destroyed, and in one of them only; and once
    the permits are dropped and no reader is left, one call of [reclaim_ready] returns
    all credits. *)
Theorem retirement_bounded s :
  rtc rstep start s →
  outstanding (queue s) = in_use s ∧ in_use s <= CAPACITY ∧ high_water (queue s) <= CAPACITY ∧
  (∀ id batch, permits s !! id = Some batch → is_Some (drop_permit (queue s) batch)) ∧
  pushed s ≡ₚ permit_snapshots (permits s) ++ queued (queue s) ++ pending_snapshots (pending s) ++ destroyed s ∧
  (permits s = ∅ → ∃ q gone, reclaim_ready (queue s) (pending s) (λ _ _, false) = (q, None, gone) ∧
    outstanding q = 0 ∧ pushed s ≡ₚ destroyed s ++ gone).
Proof.
  intros Hr. assert (credited s ∧ accounted s) as [Hc Ha].
  { assert (credited start ∧ accounted start) as H0.
    { split; [|unfold accounted, permit_snapshots; cbn [start permits]; by rewrite map_to_list_empty]. unfold credited, in_use. change CAPACITY with 8. cbn [start permits queue pending]. rewrite map_size_empty. cbn. lia. }
    induction Hr as [|x y z Hxy _ IH]; [done|]. apply IH. destruct H0. eauto using rstep_credited, rstep_accounted. }
  pose proof Hc as (Ho & Hm & Hh). split_and!; try done; [intros; by eapply drop_has_room|].
  intros Hp. unfold in_use in Ho, Hm. rewrite Hp, map_size_empty in Ho, Hm.
  destruct (drain_loop BATCH_CAPACITY (queue s) (pending s)) as (q & gone & E & Hz & Hq); [lia|unfold CAPACITY in Hm; lia|done|].
  exists q, gone. split_and!; [exact E|done|]. apply reclaim_loop_snapshots in E as [E _].
  unfold accounted in Ha. rewrite Ha, Hp. unfold permit_snapshots. rewrite map_to_list_empty. cbn.
  rewrite app_assoc, E. unfold queued. rewrite Hq. cbn. apply Permutation_app_comm.
Qed.

Lemma retirement_bounded_witness :
  rtc rstep start (mkRetirement (mkQueue [[Some 7%nat]] 1 1 0 0) ∅ None [7%nat] []) ∧
  ∃ q gone, reclaim_ready (mkQueue [[Some 7%nat]] 1 1 0 0) None (λ _ _, false) = (q, None, gone) ∧
    outstanding q = 0 ∧ [7%nat] ≡ₚ [] ++ gone.
Proof.
  assert (rtc rstep start (mkRetirement (mkQueue [[Some 7%nat]] 1 1 0 0) ∅ None [7%nat] [])) as H.
  { eapply rtc_l; [exact (step_reserve start 0 _ eq_refl eq_refl)|].
    eapply rtc_l; [eapply (step_push _ 0 _ _ 7); reflexivity|].
    eapply rtc_l; [eapply (step_drop _ 0); reflexivity|]. apply rtc_refl. }
  split; [exact H|]. exact (proj2 (proj2 (proj2 (proj2 (proj2 (retirement_bounded _ H))))) eq_refl).
Defined.
