(* ===== verification/SnapshotLease.v ===== *)
(** * The snapshot lease

    [SnapshotLeaseOwner] (hexagent-account/src/account/snapshot_lease.rs): at most one
    instance of an account polls the exchange for a snapshot.  A claim gives a ticket with
    a generation of its own and a time to live; the ticket finishes the lease, at
    once or after a retention.  Instants and durations are nanoseconds.

    Proved: a live lease changes hands only by expiring or by its own ticket; tickets of
    earlier requests, of other instances and repeated ones change nothing. *)

From S2P Require Import Prelude.

Record SnapshotLeaseTicket := mkTicket {
  account_id : string;
  instance_id : string;
  generation : Z }.

#[export] Instance ticket_eq_dec : EqDecision SnapshotLeaseTicket.
Proof. solve_decision. Defined.

Record Lease := mkLease {
  ticket : SnapshotLeaseTicket;
  expires : Z;
  finished : bool }.

Record SnapshotLeaseOwner := mkOwner {
  last_generation : Z;
  lease : option Lease }.

Definition default_owner : SnapshotLeaseOwner := mkOwner 0 None.

Inductive LeaseError := InvalidLease | GenerationExhausted.

(** [Duration::from_secs(3600)] *)
Definition max_ttl : Z := 3600000000000.

(** The lease is live and belongs to another holder. *)
Definition held_by_other (self : SnapshotLeaseOwner) (account instance : string) (now : Z) : bool :=
  match lease self with
  | Some l => (now <? expires l) && (negb (String.eqb (account_id (ticket l)) account) || negb (String.eqb (instance_id (ticket l)) instance))
  | None => false
  end.

Definition claim (self : SnapshotLeaseOwner) (account instance : string) (ttl now : Z)
    : SnapshotLeaseOwner * (LeaseError + option SnapshotLeaseTicket) :=
  if String.eqb account "" || String.eqb instance "" || (ttl =? 0) || (ttl >? max_ttl)
  then (self, inl InvalidLease)
  else if held_by_other self account instance now then (self, inr None)
  else match checked_add (last_generation self) 1 with
       | None => (self, inl GenerationExhausted)
       | Some g =>
           let t := mkTicket account instance g in
           (mkOwner g (Some (mkLease t (now + ttl) false)), inr (Some t))
       end.

Definition finish (self : SnapshotLeaseOwner) (t : SnapshotLeaseTicket) (retain : option Z) (now : Z) : SnapshotLeaseOwner :=
  match lease self with
  | None => self
  | Some l =>
      if negb (bool_decide (ticket l = t)) || finished l then self
      else match retain with
           | Some ttl =>
               if negb (ttl =? 0) && (ttl <=? max_ttl) && (now <? expires l)
               then self <| lease := Some (mkLease (ticket l) (now + ttl) true) |>
               else self <| lease := None |>
           | None => self <| lease := None |>
           end
  end.

(** ** Histories *)

Inductive LeaseOp :=
| Claim (account instance : string) (ttl : Z)
| Finish (t : SnapshotLeaseTicket) (retain : option Z).

Definition lease_op (self : SnapshotLeaseOwner) (o : LeaseOp) (now : Z) : SnapshotLeaseOwner * option SnapshotLeaseTicket :=
  match o with
  | Claim account instance ttl =>
      let '(self, r) := claim self account instance ttl now in
      (self, match r with inr granted => granted | inl _ => None end)
  | Finish t retain => (finish self t retain now, None)
  end.

(** The owner after a history and the tickets granted, in order. *)
Fixpoint lease_run (self : SnapshotLeaseOwner) (ops : list (LeaseOp * Z)) : SnapshotLeaseOwner * list SnapshotLeaseTicket :=
  match ops with
  | [] => (self, [])
  | (o, now) :: ops =>
      let '(self, granted) := lease_op self o now in
      let '(self, tickets) := lease_run self ops in
      (self, option_list granted ++ tickets)
  end.

(** The ticket whose lease is live. *)
Definition live_ticket (self : SnapshotLeaseOwner) (now : Z) : option SnapshotLeaseTicket :=
  match lease self with Some l => if now <? expires l then Some (ticket l) else None | None => None end.

Definition holder (t : SnapshotLeaseTicket) : string * string := (account_id t, instance_id t).

Definition lease_wf (self : SnapshotLeaseOwner) : Prop :=
  0 <= last_generation self <= u64_max ∧
  match lease self with Some l => generation (ticket l) <= last_generation self | None => True end.

Lemma lease_op_spec self o now :
  lease_wf self →
  let '(self', granted) := lease_op self o now in
  lease_wf self' ∧ last_generation self <= last_generation self' ∧
  match granted with
  | Some t => last_generation self < generation t ∧ generation t = last_generation self'
  | None => last_generation self' = last_generation self
  end.
Proof.
  intros [Hg Hl]. destruct o as [account instance ttl|t retain]; cbn [lease_op].
  - unfold claim. destruct (_ || _); [done|]. destruct (held_by_other _ _ _ _); [done|].
    unfold checked_add. destruct (Z.leb_spec (last_generation self + 1) u64_max) as [H|H]; [|done].
    split; [split; cbn; lia|]. cbn. lia.
  - unfold finish. destruct (lease self) as [l|] eqn:El; [|split; [by split; [|rewrite El]|done]].
    destruct (_ || _); [split; [by split; [|rewrite El]|done]|].
    destruct retain as [ttl|]; [destruct (_ && _)|]; (split; [by split|done]).
Qed.

Lemma lease_run_wf self ops :
  lease_wf self →
  lease_wf (lease_run self ops).1 ∧
  StronglySorted (λ t t', generation t < generation t') (lease_run self ops).2 ∧
  Forall (λ t, last_generation self < generation t) (lease_run self ops).2.
Proof.
  revert self. induction ops as [|[o now] ops IH]; intros self Hw; cbn [lease_run].
  { split_and!; [done|constructor|constructor]. }
  pose proof (lease_op_spec self o now Hw) as H. destruct (lease_op self o now) as [self1 granted].
  destruct H as (Hw1 & Hle & Hg). destruct (IH self1 Hw1) as (Hw2 & Hs & Hf).
  destruct (lease_run self1 ops) as [self2 tickets]. cbn [fst snd] in *. split; [done|].
  assert (Forall (λ t, last_generation self < generation t) tickets) as Hf'.
  { eapply Forall_impl; [exact Hf|]. intros t Ht. cbn in Ht. lia. }
  destruct granted as [t|]; cbn; [|done]. destruct Hg as [Hg1 Hg2]. split; constructor; try done.
  eapply Forall_impl; [exact Hf|]. intros t' Ht'. cbn in Ht'. lia.
Qed.

(** A live lease changes hands only by its own ticket.  After any history, tickets
    granted have strictly increasing generations; and whatever comes next, if a lease is
    live then afterwards it is held by the same account and instance, unless the request
    was the finishing of exactly the ticket that holds it, not yet finished: a claim of
    another instance is refused, and late, foreign or repeated finishes change nothing. *)
Theorem lease_exclusive ops o now t :
  let self := (lease_run default_owner ops).1 in
  let tickets := (lease_run default_owner ops).2 in
  StronglySorted (λ t t', generation t < generation t') tickets ∧
  (live_ticket self now = Some t →
   let '(self', granted) := lease_op self o now in
   match o with
   | Claim account instance ttl =>
       (granted = None ∧ self' = self) ∨
       (∃ t', granted = Some t' ∧ holder t' = holder t ∧ (account, instance) = holder t ∧ ttl <= max_ttl)
   | Finish t' retain => t' = t ∨ self' = self
   end ∧
   (∀ t', live_ticket self' now = Some t' → holder t' = holder t)).
Proof.
  assert (lease_wf default_owner) as H0 by (split; [unfold u64_max; cbn; lia|done]).
  destruct (lease_run_wf default_owner ops H0) as (Hw & Hs & _). cbv zeta. split; [done|].
  generalize dependent (lease_run default_owner ops).1. intros self Hw Hl. clear H0 Hs.
  unfold live_ticket in Hl. destruct (lease self) as [l|] eqn:El; [|done].
  destruct (Z.ltb_spec now (expires l)) as [Hnow|]; [|done]. injection Hl as <-.
  assert (∀ t', live_ticket self now = Some t' → t' = ticket l) as Hsame.
  { intros t' Ht'. unfold live_ticket in Ht'. rewrite El in Ht'. destruct (now <? expires l); congruence. }
  destruct o as [account instance ttl|t' retain]; cbn [lease_op].
  - unfold claim. destruct (_ || _) eqn:B; [split; [by left|intros t' Ht'; by rewrite (Hsame t' Ht')]|].
    unfold held_by_other. rewrite El. destruct (_ && _) eqn:B2; [split; [by left|intros t' Ht'; by rewrite (Hsame t' Ht')]|].
    destruct (checked_add _ _) as [g|]; [|split; [by left|intros t' Ht'; by rewrite (Hsame t' Ht')]].
    assert (account = account_id (ticket l) ∧ instance = instance_id (ticket l)) as [-> ->].
    { apply andb_false_iff in B2 as [B2|B2]; [lia|]. apply orb_false_iff in B2 as [B3 B4].
      apply negb_false_iff, String.eqb_eq in B3. apply negb_false_iff, String.eqb_eq in B4. done. }
    split; [right; eexists; split_and!; try done|].
    + apply orb_false_iff in B as [_ B]. lia.
    + unfold live_ticket. cbn [lease expires ticket]. intros t' Ht'.
      destruct (now <? now + ttl); [injection Ht' as <-|]; done.
  - unfold finish. rewrite El. destruct (decide (ticket l = t')) as [<-|Hne].
    + split; [by left|]. rewrite bool_decide_true by done. cbn [negb orb].
      destruct (finished l); [intros t' Ht'; by rewrite (Hsame t' Ht')|]. unfold live_ticket.
      destruct retain as [ttl|]; [destruct (_ && _)|]; cbn [lease expires ticket set]; try done. intros t' Ht'.
      cbn in Ht'. destruct (now <? now + ttl); [injection Ht' as <-|]; done.
    + rewrite bool_decide_false by done. cbn [negb orb]. split; [by right|]. intros t'' Ht''. by rewrite (Hsame t'' Ht'').
Qed.

(** Another instance claims while the lease is live. *)
Lemma lease_exclusive_witness :
  lease_op (lease_run default_owner [(Claim "a" "one" 45, 0)]).1 (Claim "a" "two" 45) 10 =
    ((lease_run default_owner [(Claim "a" "one" 45, 0)]).1, None) ∧
  StronglySorted (λ t t', generation t < generation t') (lease_run default_owner [(Claim "a" "one" 45, 0)]).2.
Proof.
  split; [reflexivity|].
  exact (proj1 (lease_exclusive [(Claim "a" "one" 45, 0)] (Claim "a" "two" 45) 10 (mkTicket "a" "one" 1))).
Defined.
